(* ===== verification/_CoqProject ===== *)
-Q . S2P
Prelude.v
Traits.v
Catalog.v
MacroParse.v
Shared.v
Store.v
Hierarchy.v
Cache.v
Engine.v
EngineSystem.v
Constraints.v
Session.v
DbSession.v
Scope.v
GrantResolution.v
Workspace.v
Identity.v
IdentityStore.v
LocalJwt.v
Visitor.v
Password.v
RateLimit.v
Replay.v
Presence.v
Tokens.v
Middleware.v
TokenSessions.v
Invitation.v
Codec.v
AuthData.v
WebAuthn.v
Whitelist.v
Float64.v
Challenges.v
Passports.v
AuditLog.v
Domain.v
Trust.v
Anomaly.v
Policy.v
Arbiter.v
ArbiterScores.v
ArbiterFlights.v
Jwt.v
SqlStores.v
UserDatabase.v
AuthService.v
DefaultEngine.v
AuthFlows.v
Gate.v
Redaction.v
