(* ===== verification/Prelude.v ===== *)
(** * Verification of kirino: root of the development

    kirino is an authentication and authorisation library: a permission
    vocabulary generated by a macro, role and grant stores, a decision engine
    with a cache, assignment constraints, server-side sessions, scoped grants,
    a workspace guard, password rules, the login service with its user
    database and tokens, a risk-based arbiter, WebAuthn and the other
    passports, and a companion package of bearer tokens and presence.  Each part is a file of this library; paths
    name the root of the repository src/.

    ** The parts and how they interact

    A caller asks the engine whether a subject may use a permission.  The
    engine consults its cache, then the assignment store (deny set, extra
    grants, roles), then the role registry, flat or through the hierarchy,
    and remembers the answer.  Sessions and constraints stand in front of the
    same assignment store; the scoped resolver and the grant-row fold are two
    further ways of deciding, over their own stores.  The login service sits
    on top: it registers accounts in a user database, gives each its first
    role in the assignment store, verifies passwords behind a limiter, issues
    tokens that carry the roles and effective permissions, and revokes them.
    Beside the engine stands the dynamic layer, which the service asks after
    the engine has permitted: the arbiter scores a request
    by its delegator, the delegator's trust, the action, the task domain and
    the deviation from past behaviour, maps the risk to a level of autonomy,
    and writes the verdict to the audit log; feedback moves the trust.

    - [Prelude]: results, machine integers, strings, lists, finite maps: the
      lemmas, hints and instances all files share.
    - [Traits]: the trait surface (src/src/rbac/traits.rs, subject.rs,
      hierarchy/mod.rs, cache.rs) as type classes, and the contracts of the
      stores, registries and cache as classes of laws.
    - [Catalog]: the code generator of [hierarchical_permission!]
      (src/packages/kirino-macro/src/lib.rs) and the built-in enum
      (src/src/rbac/permission.rs).
    - [MacroParse]: the parser of the macro's input, over the tokens of syn
      (src/packages/kirino-macro/src/lib.rs).
    - [Shared]: the reference-counted handles (src/src/rbac/shared.rs) over a
      heap; the other files thread the component behind a handle as state.
    - [Store]: the in-memory assignment and role stores and the static
      registries (src/src/rbac/store/memory.rs, registry.rs); they discharge
      the laws of [Traits].
    - [Hierarchy]: [resolve_role_chain] and [detect_cycle]
      (src/src/rbac/hierarchy/mod.rs), over any registry.
    - [Cache]: the permission cache (src/src/rbac/cache.rs).
    - [Engine], [EngineSystem]: the decision engine (src/src/rbac/engine.rs),
      its handlers as functions, and as a system of interleaved steps.
    - [Constraints]: separation of duty, cardinality, prerequisite and
      temporal constraints (src/src/rbac/constraints/).
    - [Session], [DbSession]: server-side sessions, in memory
      (src/src/rbac/session/mod.rs) and in a shared store
      (src/src/rbac/session/db.rs, src/src/rbac/store/persistence.rs).
    - [Scope], [GrantResolution], [Workspace]: scoped grants, the grant-row
      fold, the workspace guard (src/src/rbac/scope.rs, grant_resolution.rs,
      workspace_guard.rs).
    - [Identity], [IdentityStore]: identities as subjects
      (src/src/models/identity.rs, src/src/rbac/identity_subject.rs) and the
      provider that stores them (src/src/auth/identity/basic.rs).
    - [Password], [RateLimit]: password rules and generator, login limiter
      (src/src/rbac/policy.rs, src/src/auth/passport/static_password.rs,
      src/src/service/login/).
    - [Replay], [Presence], [Tokens], [Middleware]: the session package
      (src/packages/session/src/), with the extractors of its middleware.
    - [Invitation]: invitation links and their store
      (src/src/invitation/types.rs, store.rs).
    - [Float64]: binary64 numbers, the [f64] of the code: the operations of the
      Standard Library's [SpecFloat], their order and their rounding.
    - [AuditLog]: the audit log (src/src/rbac/audit.rs).
    - [Domain], [Trust], [Anomaly], [Policy]: the parts of the dynamic layer
      (src/src/rbac/dynamic/delegator.rs, metrics.rs, domain.rs; trust.rs;
      anomaly.rs; verdict.rs, policy.rs).
    - [Arbiter], [ArbiterScores], [ArbiterFlights]: the arbiter
      (src/src/rbac/dynamic/arbiter.rs) over any trust store and audit sink,
      the numbers of its verdicts, and its calls cut at their awaits as a
      system of interleaved steps.
    - [Jwt]: the basic credentials and their revocation table
      (src/src/auth/credential/basic.rs).
    - [SqlStores], [TokenSessions]: the stores that send SQL, around their
      statements (src/src/database/db_session.rs, db_revocation.rs,
      src/packages/session/src/store.rs).
    - [UserDatabase]: the trait of account stores (src/src/service/login/mod.rs)
      with the laws the service relies on, and the in-memory store
      (src/src/database/memory.rs) that discharges them.
    - [AuthService], [AuthFlows]: the login service
      (src/src/service/login/mod.rs) over any user database, engine,
      revocation store and session manager, registration also as a system of
      interleaved steps; its theorems, proved against the classes.
    - [DefaultEngine]: the roles of [build_default_engine].
    - [Gate]: the combined check of the login service, engine and arbiter
      composed ([check_static_and_dynamic] of src/src/service/login/mod.rs).
    - [Redaction]: the hand-written [Debug] implementations of the records
      that carry a secret.
    - [LocalJwt], [Visitor]: tokens under a caller's key (src/src/local.rs),
      and visitor tickets over any store of temporary identities
      (src/src/auth/visitor.rs, src/src/auth/identity/temporary.rs).
    - [Challenges]: one-time credentials, proof of work, captchas and
      verification codes (src/src/auth/credential/one_time.rs,
      src/src/auth/passport/pow.rs, captcha.rs,
      src/src/service/verify/verification/).
    - [Passports]: one-time passwords, key pairs, service credentials and
      bit similarity (src/src/auth/passport/dynamic_password.rs, key_pair.rs,
      biometric.rs, src/src/auth/credential/service.rs).
    - [AuthData], [WebAuthn]: the bytes of authenticators, and WebAuthn
      challenges, registrations and assertions
      (src/src/auth/passport/webauthn/).
    - [Whitelist]: sources, address blocks and previous credentials
      (src/src/auth/passport/temporary_whitelist.rs,
      src/src/service/verify/whitelist/).
    - [Codec]: base64url, constant-time comparison, invitation codes and
      tokens (src/src/utils.rs, src/src/invitation/code.rs, token.rs).

    ** How state and operations correspond

    A struct is a Record with its fields; an object behind [&self] with
    interior mutability is a state that each operation takes and returns.  A
    [RwLock] or [Mutex] section is one step.  An [async] handler is one
    function (the call that nothing interrupts) and, where interleaving
    matters ([EngineSystem], [Session], [Constraints], [DbSession],
    [AuthService], [Passports], [ArbiterFlights]), a sequence of steps, one
    per [await] that reads shared state.  [Result] is [result] of this
    file; a trait object is an instance of a class.  Clock readings, random
    draws and fresh ids are arguments.  Hash maps are finite maps; where the
    code lists one, [elements] or [map_to_list] stands for its unspecified
    order.  Logging and tracing have no effect in the model.

    ** What the theorems show

    - Decisions: on every state reached by checks and by writes followed by
      an invalidation, the cached engine answers the cache-free decision,
      flat and hierarchical; under arbitrary interleavings a grant is never
      out of thin air; without invalidation the answer is stale for at most
      the time-to-live; what happens when a store cannot be read.
    - Hierarchy: both walks terminate on cyclic catalogues and compute
      reachability.
    - Stores: the in-memory stores and the constraint store refine maps.
    - Constraints and sessions: the validator accepts exactly when every rule
      holds; the invariants it protects over whole histories; the race
      between its check and the write; DSD over histories of sessions, and
      the effect of version bumps.
    - Shared sessions: DSD under interleaved replicas and failing writes; what
      a version bump does to later logins, over a store that keeps the
      counters and over the SQL table; revocations that replicas share; the
      life of a stored session.
    - Grants: the scoped resolver, the row fold and the workspace guard
      grant exactly under their declarative conditions; order of rows and
      expired rows do not matter.
    - Passwords and login: minted passwords pass the validator; the age rules;
      the lockout automaton and the bound on guesses.
    - Tokens: no algorithm confusion and no fallback; issued tokens verify;
      refresh tokens and one-shot ids are accepted once in their window, and
      the pair of clock readings with which a used refresh token rotates
      again.
    - Login service: what a registration, a login, a password change, a
      deletion and a logout check and change; at most one bootstrap
      administrator under any interleaving, and how a race leaves none;
      revoked tokens stay refused; which spelling of an id revokes nothing;
      registration followed by login, end to end on the in-memory stores.
    - Presence: the queries agree; the life of a connection.
    - Invitations: the redemption budget over histories; every branch of an
      acceptance; the edges of the open window.
    - Audit: what the sink keeps and answers; cooldowns of alerts over
      histories, and how overlapping evaluations lose them.
    - Risk: scores stay in the unit interval over whole histories; a lockdown
      holds until it is lifted; which requests no trust can buy and which an
      unknown delegator may make; the state of an anomaly detector; idle
      trust of at most 1 expires; resource confinement; what a failing store, a restore or
      a forged outcome lead to.
    - Risk under concurrency: a lockdown stops every authorization that begins
      later and none that has read its trust; which policies a verdict comes
      from, and what a policy change in between can allow; how a feedback in
      flight undoes the trust a lockdown has stored.
    - Combined check: it grants exactly what both layers grant, on every
      state reached with registrations in flight, readable assignments and
      fresh account ids; whom it asks about; a denial cached before an
      account existed outlives its registration.
    - Handles: they never dangle, the count is the number of owners, and calls
      through one are seen through exactly the handles of the same instance.
    - Macro input: which token sequences the macro accepts.
    - Debug texts do not depend on the secret.
    - Visitors: every answer of the gate a ticket passes, with the order of
      its errors; the life of a ticket; a revoked ticket is dead for good.
    - One-shot secrets: tokens, proofs, codes and captchas are consumed once,
      within their lifetime and number of attempts, over whole histories.
    - Passports: the shape and the window of one-time passwords; concurrent
      verifications consume counters in sequence, each once; what a keyed
      verifier and a similarity accept.
    - WebAuthn: which bytes are authenticator data, and that the length walk
      follows the CBOR grammar; what a registration and an assertion must
      satisfy, and what a registration does not compare; replayed assertions and challenges are refused; which keys are
      registered that can never be used.
    - Middleware: only the claims of a verified token reach a handler; which
      of several sources counts; what a refusal says.
    - Whitelists: who is in a block; what the last addition grants.
    - Codecs: the base64url codec is a bijection with its unpadded inputs;
      what may be typed for an invitation code.

    ** Bounds and fuel

    [chain_fuel] and [dfs_fuel] ([Hierarchy]) are computed from the
    catalogue of role names; the [_total] lemmas show the walks end within
    them on every registry.  All other recursion is structural.  Counters of
    the code that can wrap ([u64] session versions and audit ids, token
    expiry) wrap in the model; the [u16] redemption count is shown to stay in
    range; instants, dates and lengths are unbounded.

    ** What is not modelled

    What a database does with a statement (parameters with laws), mail and
    SMS (I/O), and hashing, signatures and codecs of third-party crates
    (parameters where they are used).  The traits of
    src/src/rbac/store/persistence.rs other than the session store, with
    their row types, have no implementation and no caller in the repository;
    src/src/models/passport.rs and credential.rs are data without
    operations; src/src/service/register/mod.rs holds tests of the login
    service; token quoting of the macro is replaced by what the generated
    functions compute.  The DDL of the table stores is not modelled. *)

From stdpp Require Export base gmap strings list pretty lexico sorting fin_maps fin_sets.

#[export] Set Default Goal Selector "!".

(** ** Results

    Every fallible operation of the code returns [anyhow::Result].  The
    errors the crate builds itself are the variants of [KirinoError]
    (src/src/error.rs); an error built with [anyhow!] carries its text. *)

Inductive KirinoError :=
  | NotFound (what : string)
  | Validation (what : string)
  | AuthenticationFailed
  | AuthorizationDenied (what : string)
  | SessionExpired
  | SessionNotFound
  | ConstraintViolation (what : string)
  | Internal (what : string).

#[export] Instance KirinoError_eq_dec : EqDecision KirinoError.
Proof. solve_decision. Defined.

Inductive Error :=
  | Kirino (e : KirinoError)
  | Anyhow (message : string).

#[export] Instance Error_eq_dec : EqDecision Error.
Proof. solve_decision. Defined.

Inductive result (A : Type) :=
  | Ok (a : A)
  | Err (e : Error).
Arguments Ok {A} a.
Arguments Err {A} e.

#[export] Instance result_eq_dec `{EqDecision A} : EqDecision (result A).
Proof. solve_decision. Defined.

(** The [?] operator: the first error leaves the function. *)
#[export] Instance result_ret : MRet result := λ A a, Ok a.
#[export] Instance result_bind : MBind result := λ A B f r,
  match r with
  | Ok a => f a
  | Err e => Err e
  end.
#[export] Instance result_fmap : FMap result := λ A B f r,
  match r with
  | Ok a => Ok (f a)
  | Err e => Err e
  end.

Definition is_ok {A} (r : result A) : bool :=
  match r with
  | Ok _ => true
  | Err _ => false
  end.

Lemma bind_ok {A B} (f : A → result B) (r : result A) (b : B) :
  r ≫= f = Ok b ↔ ∃ a, r = Ok a ∧ f a = Ok b.
Proof. destruct r as [x|e]; cbn; split; naive_solver. Qed.

Lemma bind_unit_ok {B} (f : unit → result B) (r : result unit) (b : B) :
  r ≫= f = Ok b ↔ r = Ok tt ∧ f tt = Ok b.
Proof. rewrite bind_ok. split; [intros ([] & ? & ?)|]; naive_solver. Qed.

(** ** Machine integers

    A [u64] counter is a [Z] in [0, 2^64); [wrapping_add] is reduction
    modulo [2^64]. *)
Definition u64_modulus : Z := 2 ^ 64.
Definition wrapping_add_u64 (a b : Z) : Z := (a + b) `mod` u64_modulus.
Definition is_u64 (a : Z) : Prop := (0 ≤ a < u64_modulus)%Z.

(** [as i64] on a [u64], and the wrap-around of an [i64] operation. *)
Definition i64_of (a : Z) : Z := (a + 2 ^ 63) `mod` u64_modulus - 2 ^ 63.

Lemma i64_of_small a : (- 2 ^ 63 ≤ a < 2 ^ 63)%Z → i64_of a = a.
Proof. unfold i64_of, u64_modulus. intros ?. rewrite Z.mod_small; lia. Qed.

Lemma i64_of_range a : (- 2 ^ 63 ≤ i64_of a < 2 ^ 63)%Z.
Proof.
  unfold i64_of, u64_modulus. pose proof (Z.mod_pos_bound (a + 2 ^ 63) (2 ^ 64)). lia.
Qed.

Lemma i64_of_le a : (- 2 ^ 63 ≤ a)%Z → (i64_of a ≤ a)%Z.
Proof.
  unfold i64_of, u64_modulus. intros ?.
  pose proof (Z.mod_le (a + 2 ^ 63) (2 ^ 64)). lia.
Qed.

Lemma wrapping_add_u64_range a b : is_u64 (wrapping_add_u64 a b).
Proof. unfold is_u64, wrapping_add_u64, u64_modulus. apply Z.mod_pos_bound. lia. Qed.

Lemma wrapping_succ_u64 a :
  is_u64 a → a ≠ (u64_modulus - 1)%Z → wrapping_add_u64 a 1 = (a + 1)%Z.
Proof.
  unfold is_u64, wrapping_add_u64. intros ??. apply Z.mod_small. lia.
Qed.

(** ** The order of [String] and of tuples

    [str::cmp] compares bytes lexicographically and tuples compare their
    components in turn: stdpp's [lexico] on the list of byte values. *)
Definition str_codes (s : string) : list N := Ascii.N_of_ascii <$> String.list_ascii_of_string s.

#[export] Instance N_of_ascii_inj : Inj (=) (=) Ascii.N_of_ascii.
Proof. intros a b Hab. by rewrite <- (Ascii.ascii_N_embedding a), Hab, Ascii.ascii_N_embedding. Qed.

#[export] Instance str_codes_inj : Inj (=) (=) str_codes.
Proof.
  intros s1 s2 Heq. apply (inj (fmap Ascii.N_of_ascii)) in Heq.
  by rewrite <- (String.string_of_list_ascii_of_string s1), Heq,
    String.string_of_list_ascii_of_string.
Qed.

#[export] Instance string_lexico : Lexico string := λ s1 s2, lexico (str_codes s1) (str_codes s2).

#[export] Instance string_lexico_po : StrictOrder (@lexico string _).
Proof.
  split.
  - intros s. apply (irreflexivity (@lexico (list N) _)).
  - intros s1 s2 s3. apply (transitivity (R := @lexico (list N) _)).
Qed.

#[export] Instance string_lexico_trichotomy : TrichotomyT (@lexico string _).
Proof.
  intros s1 s2.
  destruct (trichotomyT lexico (str_codes s1) (str_codes s2)) as [[H|H]|H].
  - by left; left.
  - left; right. by apply (inj str_codes).
  - by right.
Defined.

(** [x <= y] of a derived or standard total order. *)
Definition le_of `{Lexico A} (x y : A) : Prop := lexico x y ∨ x = y.

Section le_of.
Context `{Lexico A, !StrictOrder (@lexico A _), !TrichotomyT (@lexico A _)}.

#[export] Instance le_of_dec : RelDecision (@le_of A _).
Proof.
  intros x y. destruct (trichotomyT lexico x y) as [[Hlt|Heq]|Hgt].
  - left. by left.
  - left. by right.
  - right. intros [Hlt|Heq].
    + apply (irreflexivity lexico x). by trans y.
    + subst. by apply (irreflexivity lexico y).
Defined.

#[export] Instance le_of_refl : Reflexive (@le_of A _).
Proof. intros x. by right. Qed.

#[export] Instance le_of_trans : Transitive (@le_of A _).
Proof. intros x y z [?| ->] [?| <-]; [left; by trans y|by left|by left|by right]. Qed.

#[export] Instance le_of_total : Total (@le_of A _).
Proof.
  intros x y. destruct (trichotomyT lexico x y) as [[?|?]|?].
  - left. by left.
  - left. by right.
  - right. by left.
Qed.

#[export] Instance le_of_antisym : AntiSymm (=) (@le_of A _).
Proof.
  intros x y [Hxy| ->] [Hyx|Heq]; try done.
  exfalso. apply (irreflexivity lexico x). by trans y.
Qed.
End le_of.

Lemma le_of_pair `{Lexico A} (t1 t2 : Z) (x1 x2 : A) :
  le_of (t1, x1) (t2, x2) → (t1 ≤ t2)%Z.
Proof.
  intros [[Hlt|[Heq _]]|Heq]; simpl in *.
  - unfold lexico, Z_lexico in Hlt. lia.
  - lia.
  - by simplify_eq.
Qed.

Definition dot : Ascii.ascii := Ascii.ascii_of_N 46.

(** [str::split] at a character: always at least one piece. *)
Fixpoint split_at (sep : Ascii.ascii) (s : list Ascii.ascii) : list (list Ascii.ascii) :=
  match s with
  | [] => [[]]
  | c :: s =>
      if decide (c = sep) then [] :: split_at sep s
      else
        match split_at sep s with
        | [] => [[c]]
        | piece :: pieces => (c :: piece) :: pieces
        end
  end.

Lemma split_at_no_sep sep s : sep ∉ s → split_at sep s = [s].
Proof.
  induction s as [|c s IH]; [done|]. intros [Hne Hs]%not_elem_of_cons. simpl.
  rewrite decide_False by congruence. by rewrite IH.
Qed.

Lemma split_at_app sep s t : sep ∉ s → split_at sep (s ++ sep :: t) = s :: split_at sep t.
Proof.
  induction s as [|c s IH]; simpl; [by rewrite decide_True by done|].
  intros [Hne Hs]%not_elem_of_cons. rewrite decide_False by congruence. by rewrite IH.
Qed.

Lemma foldl_delete_lookup {A} (l : list string) (m : gmap string A) id :
  foldl (λ m id, delete id m) m l !! id = if decide (id ∈ l) then None else m !! id.
Proof.
  revert m. induction l as [|i l IH]; intros m; cbn [foldl].
  - by rewrite decide_False by apply not_elem_of_nil.
  - rewrite IH. destruct (decide (id ∈ l)) as [Hin|Hnin].
    + by rewrite decide_True by (by right).
    + destruct (decide (id = i)) as [->|Hne].
      * rewrite decide_True by (by left). apply lookup_delete_eq.
      * rewrite lookup_delete_ne by done. by rewrite decide_False by (intros [?|?]%elem_of_cons; done).
Qed.

Lemma list_ascii_of_string_app s t :
  String.list_ascii_of_string (s +:+ t) =
  String.list_ascii_of_string s ++ String.list_ascii_of_string t.
Proof. induction s as [|c s IH]; [done|]. cbn. by rewrite <- IH. Qed.

Lemma string_app_assoc (s t u : string) : (s +:+ t) +:+ u = s +:+ (t +:+ u).
Proof. induction s as [|c s IH]; [done|]. exact (f_equal (String.String c) IH). Qed.

(** Did the call succeed? *)
Definition is_inl {A B} (r : A + B) : bool :=
  match r with
  | inl _ => true
  | inr _ => false
  end.

(** ** Durations

    Instants and durations are integers, in nanoseconds. *)

Definition nanos_per_sec : Z := 10 ^ 9.
Definition i64_max : Z := 2 ^ 63 - 1.

(** [Duration::seconds] panics beyond [i64::MAX] milliseconds. *)
Definition duration_seconds (secs : Z) : option Z :=
  if (Z.abs secs <=? i64_max / 1000)%Z then Some (secs * nanos_per_sec)%Z else None.

(** [num_seconds]: whole seconds, towards zero. *)
Definition num_seconds (d : Z) : Z := Z.quot d nanos_per_sec.

Lemma num_seconds_le d k :
  (0 ≤ d)%Z → (num_seconds d ≤ k ↔ d < (k + 1) * nanos_per_sec)%Z.
Proof.
  intros Hd. unfold num_seconds, nanos_per_sec. rewrite Z.quot_div_nonneg by lia.
  pose proof (Z.div_mod d (10 ^ 9)). pose proof (Z.mod_pos_bound d (10 ^ 9)). lia.
Qed.

(** ** Lists *)

(** [HashSet<String>] built from an iterator. *)
Definition string_set (l : list string) : gset string := list_to_set l.

(** [sort_by_key] of a slice, with an integer key: the standard library's
    sort is stable, as is this insertion sort. *)
Section Sort.
Context {A : Type} (key : A → Z).

Fixpoint insert_by_key (x : A) (l : list A) : list A :=
  match l with
  | [] => [x]
  | y :: k => if (key x <=? key y)%Z then x :: l else y :: insert_by_key x k
  end.

Definition sort_by_key (l : list A) : list A := foldr insert_by_key [] l.
Definition key_le (x y : A) : Prop := (key x ≤ key y)%Z.

Lemma insert_by_key_perm x l : insert_by_key x l ≡ₚ x :: l.
Proof.
  induction l as [|y l IH]; simpl; [done|]. case_match; [done|]. rewrite IH. constructor.
Qed.

Lemma sort_by_key_perm l : sort_by_key l ≡ₚ l.
Proof. induction l as [|x l IH]; simpl; [done|]. by rewrite insert_by_key_perm, IH. Qed.

Lemma insert_by_key_sorted x l : StronglySorted key_le l → StronglySorted key_le (insert_by_key x l).
Proof.
  induction 1 as [|y l Hl IH Hy]; simpl; [by repeat constructor|].
  destruct (Z.leb_spec (key x) (key y)) as [Hle|Hlt].
  - constructor; [by constructor|]. constructor; [done|].
    eapply Forall_impl; [exact Hy|]. unfold key_le. simpl. intros z Hz. lia.
  - constructor; [done|]. rewrite insert_by_key_perm. constructor; [unfold key_le; lia|done].
Qed.

Lemma sort_by_key_sorted l : StronglySorted key_le (sort_by_key l).
Proof. induction l as [|x l IH]; simpl; [constructor|]. by apply insert_by_key_sorted. Qed.
End Sort.

Lemma strongly_sorted_mono {A} (R R' : relation A) l :
  (∀ x y, R x y → R' x y) → StronglySorted R l → StronglySorted R' l.
Proof.
  intros Himp. induction 1 as [|x l Hl IH Hx]; constructor; [done|].
  eapply Forall_impl; [exact Hx|]. auto.
Qed.

Lemma filter_nil_iff {A} (P : A → Prop) `{∀ x, Decision (P x)} (l : list A) :
  filter P l = [] ↔ ∀ x, x ∈ l → ¬ P x.
Proof.
  split.
  - intros Hnil x Hx HP. assert (Hin : x ∈ filter P l) by by apply list_elem_of_filter.
    rewrite Hnil in Hin. by apply not_elem_of_nil in Hin.
  - intros Hno. destruct (filter P l) as [|x k] eqn:Hf; [done|].
    assert (Hin : x ∈ filter P l) by (rewrite Hf; constructor).
    apply list_elem_of_filter in Hin as [HP Hx]. by destruct (Hno x).
Qed.

(** [retain] shortens a vector exactly when it drops an element. *)
Lemma length_filter_lt_iff {A} (P : A → Prop) `{∀ x, Decision (P x)} (l : list A) :
  length (filter P l) < length l ↔ ∃ x, x ∈ l ∧ ¬ P x.
Proof.
  split; [|intros (x & Hx & HP); by eapply length_filter_lt].
  induction l as [|x l IH]; simpl; [lia|]. rewrite filter_cons. intros Hlt.
  case_decide as HP; [|exists x; split; [constructor|done]].
  simpl in Hlt. destruct IH as (y & Hy & HPy); [lia|]. exists y. split; [by constructor|done].
Qed.

Lemma existsb_elem {A} (f : A → bool) (l : list A) :
  existsb f l = true ↔ ∃ x, x ∈ l ∧ f x = true.
Proof. rewrite existsb_exists. by setoid_rewrite list_elem_of_In. Qed.

Lemma existsb_not {A} (f : A → bool) (l : list A) :
  existsb f l = false ↔ ∀ x, x ∈ l → f x = false.
Proof.
  rewrite <- not_true_iff_false, existsb_elem. split.
  - intros Hno x Hx. apply not_true_iff_false. naive_solver.
  - intros Hno (x & Hx & Hf). by rewrite (Hno x Hx) in Hf.
Qed.

Lemma Permutation_existsb {A} (f : A → bool) (l k : list A) :
  l ≡ₚ k → existsb f l = existsb f k.
Proof.
  intros Hp. apply eq_true_iff_eq. rewrite !existsb_elem.
  by setoid_rewrite Hp.
Qed.

(** ** [std::collections::BinaryHeap]

    A max-heap, observed through [push], [pop] and [len]: the list of its
    elements, largest first. *)
Section BinaryHeap.
Context `{Lexico A, !StrictOrder (@lexico A _), !TrichotomyT (@lexico A _)}.

Fixpoint heap_push (x : A) (h : list A) : list A :=
  match h with
  | [] => [x]
  | y :: k => if decide (le_of y x) then x :: h else y :: heap_push x k
  end.

Definition heap_pop (h : list A) : list A := tail h.

Definition is_heap (h : list A) : Prop := StronglySorted (flip le_of) h.

Lemma heap_push_perm x h : heap_push x h ≡ₚ x :: h.
Proof.
  induction h as [|y k IH]; simpl; [done|]. case_decide; [done|].
  rewrite IH. constructor.
Qed.

Lemma heap_push_sorted x h : is_heap h → is_heap (heap_push x h).
Proof.
  induction 1 as [|y k Hk IH Hy]; simpl; [by repeat constructor|].
  case_decide as Hle.
  - constructor; [by constructor|]. constructor; [done|].
    eapply Forall_impl; [exact Hy|]. intros z Hz. unfold flip in *. by trans y.
  - constructor; [done|]. rewrite heap_push_perm. constructor; [|done].
    unfold flip. by destruct (total le_of x y).
Qed.

(** [pop] removes a largest element. *)
Lemma heap_pop_max h : is_heap h → h ≠ [] →
  ∃ m, h ≡ₚ m :: heap_pop h ∧ is_heap (heap_pop h) ∧ ∀ x, x ∈ heap_pop h → le_of x m.
Proof.
  destruct 1 as [|m k Hk Hm]; [done|]. intros _. exists m. simpl.
  split_and!; [done|done|]. by apply Forall_forall.
Qed.
End BinaryHeap.

(** An invariant of the steps holds along every run. *)
Lemma rtc_invariant {A} (R : relation A) (I : A → Prop) x y :
  (∀ x y, R x y → I x → I y) → rtc R x y → I x → I y.
Proof. intros Hstep. induction 1 as [|x y z Hxy _ IH]; [done|]. intros Hx. eauto. Qed.

(** ** Sealed strings

    A list of numbers as a string of bits and back: the concrete instances of
    the token libraries are built on it. *)
Module Seal.
Fixpoint bits (p : positive) : string :=
  match p with
  | xH => ""
  | xO p => String.String Ascii.zero (bits p)
  | xI p => String.String Ascii.one (bits p)
  end.
Fixpoint of_bits (s : string) : option positive :=
  match s with
  | "" => Some xH
  | String.String c s =>
      p ← of_bits s;
      if decide (c = Ascii.zero) then Some (xO p)
      else if decide (c = Ascii.one) then Some (xI p) else None
  end%string.
Lemma of_bits_bits p : of_bits (bits p) = Some p.
Proof. induction p as [p IH|p IH|]; simpl; [by rewrite IH..|done]. Qed.

Definition seal (l : list positive) : string := bits (countable.encode l).
Definition unseal (s : string) : option (list positive) :=
  p ← of_bits s;
  countable.decode p.
Lemma unseal_seal l : unseal (seal l) = Some l.
Proof. unfold unseal, seal. rewrite of_bits_bits. apply decode_encode. Qed.
End Seal.

(** ** Automation *)

(** Case analysis on the scrutinee of a [match] or of a [decide] in the
    goal, keeping the equation. *)
Ltac split_match :=
  match goal with
  | |- context [match ?x with _ => _ end] => destruct x eqn:?
  end.

(** Turn boolean tests in the context into propositions. *)
Ltac bool_to_prop :=
  repeat match goal with
  | H : bool_decide _ = true |- _ => apply bool_decide_eq_true_1 in H
  | H : bool_decide _ = false |- _ => apply bool_decide_eq_false_1 in H
  | H : andb _ _ = true |- _ => apply andb_true_iff in H as [? ?]
  | H : orb _ _ = false |- _ => apply orb_false_iff in H as [? ?]
  | H : negb _ = true |- _ => apply negb_true_iff in H
  | H : negb _ = false |- _ => apply negb_false_iff in H
  end.

Create HintDb kirino.
#[export] Hint Resolve wrapping_add_u64_range : kirino.
#[export] Hint Rewrite @bind_ok @bind_unit_ok : kirino.
