(* ===== verification/Traits.v ===== *)
(** * The trait surface of [rbac]: src/src/rbac/traits.rs and subject.rs

    One type class per trait.  A class holds the operations; where another
    component relies on more than the signatures, a second class states the
    documented contract as laws, and the component that implements the trait
    discharges it ([Store], [Cache]).  The clients ([Hierarchy], [Engine],
    [Session], [Scope]) are proved against the laws only. *)

From S2P Require Import Prelude.

(** A [Uuid] is an identifier: nothing in the crate computes with it. *)
Abbreviation Uuid := N (only parsing).

(** ** Permissions *)

Class Permission (P : Type) `{Countable P} := {
  perm_name : P → string;
  perm_domain : P → string;
  path_segments : P → list string;
  ancestry_names : P → list string;
  matches_pattern : P → string → bool;
  is_leaf : P → bool;
  is_branch : P → bool;
  all_permissions_of_type : list P;
  all_domains : list string;
  from_path : string → option P;
  expand_domain : string → list P;
}.

(** The default methods of the trait: none of them widens a grant. *)
Section PermissionDefaults.
Context {P : Type} (name : P → string).
Definition default_domain (_ : P) : string := "".
Definition default_path_segments (_ : P) : list string := [].
Definition default_ancestry_names (p : P) : list string := [name p].
Definition default_matches_pattern (p : P) (pattern : string) : bool :=
  bool_decide (pattern = name p).
Definition default_is_leaf (_ : P) : bool := true.
Definition default_is_branch (_ : P) : bool := false.
Definition default_all : list P := [].
Definition default_all_domains : list string := [].
Definition default_from_path (_ : string) : option P := None.
Definition default_expand_domain (_ : string) : list P := [].
End PermissionDefaults.

(** "the name is the persistence key, the audit label and the cache key, so
    two distinct permissions must never share one". *)
Class UniqueNames (P : Type) `{Permission P} :=
  perm_name_inj : ∀ p q : P, perm_name p = perm_name q → p = q.

(** ** Subjects *)

Class Subject (S : Type) := {
  subject_id : S → string;
  subject_type : S → string;
  from_subject_id : string → S;
  try_from_subject_id : string → result S;
}.

Definition default_subject_type {S} (_ : S) : string := "user".
Definition default_try_from_subject_id {S} (from : string → S) (id : string) : result S :=
  Ok (from id).

(** [impl Subject for String] *)
#[export] Instance string_subject : Subject string := {|
  subject_id s := s;
  subject_type := default_subject_type;
  from_subject_id id := id;
  try_from_subject_id id := Ok id;
|}.

(** subject.rs: a subject keyed by an arbitrary, unvalidated string. *)
Record StringSubject := StringSubject_new { string_id : string }.

#[export] Instance StringSubject_subject : Subject StringSubject := {|
  subject_id := string_id;
  subject_type := default_subject_type;
  from_subject_id := StringSubject_new;
  try_from_subject_id id := Ok (StringSubject_new id);
|}.

(** ** Roles: [Role] (traits.rs) and [HierarchicalRole] (hierarchy/mod.rs) *)

Class Role (R P : Type) `{Permission P} := {
  role_name : R → string;
  permissions : R → gset P;
}.
Arguments role_name {R} P {_ _ _ _} _.

Class HierarchicalRole (R P : Type) `{Role R P} :=
  parent_roles : R → list string.
Arguments parent_roles {R} P {_ _ _ _ _} _.

Definition default_parent_roles {R} (_ : R) : list string := [].

(** ** Registries *)

Class PermissionRegistry (R P : Type) `{Permission P} := {
  all_permissions : R → gset P;
  get_permission : R → string → option P;
}.

Class RoleRegistry (R P : Type) `{Permission P} := {
  get_role_permissions : R → string → option (gset P);
  role_parents : R → string → list string;
  list_role_names : R → list string;
}.
Arguments role_parents {R} P {_ _ _ _} _ _.
Arguments list_role_names {R} P {_ _ _ _} _.

(** "Every role name known here": a finite catalogue. *)
Class RoleRegistryLaws (R P : Type) `{RoleRegistry R P} :=
  known_role_listed : ∀ (reg : R) r (perms : gset P),
    get_role_permissions reg r = Some perms → r ∈ list_role_names P reg.

(** ** The assignment store *)

Class AssignmentStore (St S P : Type) `{Permission P, Subject S} := {
  assign_role : St → S → string → result unit * St;
  revoke_role : St → S → string → result unit * St;
  roles_of : St → S → result (list string);
  subjects_with_role : St → string → result (list string);
  extra_permissions : St → S → result (gset P);
  set_extra_permissions : St → S → gset P → result unit * St;
  denied_permissions : St → S → result (gset P);
  set_denied_permissions : St → S → gset P → result unit * St;
}.
Arguments roles_of {St S} P {_ _ _ _ _} _ _.
Arguments assign_role {St S} P {_ _ _ _ _} _ _ _.
Arguments revoke_role {St S} P {_ _ _ _ _} _ _ _.
Arguments subjects_with_role {St} S P {_ _ _ _ _} _ _.

(** What a store records about one subject id. *)
Record Grants (P : Type) `{Countable P} := {
  g_roles : gset string;
  g_extra : gset P;
  g_denied : gset P;
}.
Arguments g_roles {P _ _} _.
Arguments g_extra {P _ _} _.
Arguments g_denied {P _ _} _.
Arguments Build_Grants {P _ _} _ _ _.

Definition no_grants {P} `{Countable P} : Grants P := Build_Grants ∅ ∅ ∅.

(** [set_at view id g]: the view with the row of [id] replaced. *)
Definition set_at {V : Type} (view : string → V) (id : string) (g : V) (i : string) : V :=
  if decide (i = id) then g else view i.

(** The contract: a successful call reads or rewrites the row of the
    subject's id, one field at a time, and touches no other row. *)
Class AssignmentStoreLaws (St S P : Type) `{AssignmentStore St S P} := {
  store_view : St → string → Grants P;
  roles_of_view : ∀ (st : St) (s : S) l,
    roles_of P st s = Ok l → ∀ r, r ∈ l ↔ r ∈ g_roles (store_view st (subject_id s));
  extra_view : ∀ (st : St) (s : S) e,
    extra_permissions st s = Ok e → e = g_extra (store_view st (subject_id s));
  denied_view : ∀ (st : St) (s : S) d,
    denied_permissions st s = Ok d → d = g_denied (store_view st (subject_id s));
  assign_role_view : ∀ (st st' : St) (s : S) r,
    assign_role P st s r = (Ok tt, st') →
    let g := store_view st (subject_id s) in
    ∀ i, store_view st' i = set_at (store_view st) (subject_id s)
           (Build_Grants ({[r]} ∪ g_roles g) (g_extra g) (g_denied g)) i;
  revoke_role_view : ∀ (st st' : St) (s : S) r,
    revoke_role P st s r = (Ok tt, st') →
    let g := store_view st (subject_id s) in
    ∀ i, store_view st' i = set_at (store_view st) (subject_id s)
           (Build_Grants (g_roles g ∖ {[r]}) (g_extra g) (g_denied g)) i;
  set_extra_view : ∀ (st st' : St) (s : S) (ps : gset P),
    set_extra_permissions st s ps = (Ok tt, st') →
    let g := store_view st (subject_id s) in
    ∀ i, store_view st' i = set_at (store_view st) (subject_id s)
           (Build_Grants (g_roles g) ps (g_denied g)) i;
  set_denied_view : ∀ (st st' : St) (s : S) (ps : gset P),
    set_denied_permissions st s ps = (Ok tt, st') →
    let g := store_view st (subject_id s) in
    ∀ i, store_view st' i = set_at (store_view st) (subject_id s)
           (Build_Grants (g_roles g) (g_extra g) ps) i;
}.

(** ** The role store *)

Class RoleStore (St P : Type) `{Permission P} := {
  create_role : St → string → gset P → result unit * St;
  delete_role : St → string → result bool * St;
  stored_role_permissions : St → string → result (option (gset P));
  list_roles : St → result (list string);
}.
Arguments delete_role {St} P {_ _ _ _} _ _.
Arguments list_roles {St} P {_ _ _ _} _.

(** ** Coarse roles *)

Inductive SystemRole := Admin | Operator | Member | Viewer.

#[export] Instance SystemRole_eq_dec : EqDecision SystemRole.
Proof. solve_decision. Defined.

Module SystemRole.
Definition from_str_lossy (s : string) : option SystemRole :=
  if decide (s = "admin") then Some Admin
  else if decide (s = "operator") then Some Operator
  else if decide (s = "member") then Some Member
  else if decide (s = "viewer") then Some Viewer
  else None.

Definition as_str (r : SystemRole) : string :=
  match r with
  | Admin => "admin"
  | Operator => "operator"
  | Member => "member"
  | Viewer => "viewer"
  end.
End SystemRole.

(** [traits.rs] and [workspace_guard.rs] each define a [WorkspaceRole] with
    the same variants in the same order; this one serves both. *)
Inductive WorkspaceRole := WsViewer | WsOperator | WsOwner.

#[export] Instance WorkspaceRole_eq_dec : EqDecision WorkspaceRole.
Proof. solve_decision. Defined.

Module WorkspaceRole.
Definition from_str_lossy (s : string) : option WorkspaceRole :=
  if decide (s = "viewer") then Some WsViewer
  else if decide (s = "operator") then Some WsOperator
  else if decide (s = "owner") then Some WsOwner
  else None.

Definition as_str (r : WorkspaceRole) : string :=
  match r with
  | WsViewer => "viewer"
  | WsOperator => "operator"
  | WsOwner => "owner"
  end.

(** The derived [Ord]: declaration order. *)
Definition rank (r : WorkspaceRole) : nat :=
  match r with WsViewer => 0 | WsOperator => 1 | WsOwner => 2 end.
End WorkspaceRole.

Lemma SystemRole_roundtrip r : SystemRole.from_str_lossy (SystemRole.as_str r) = Some r.
Proof. by destruct r. Qed.

Lemma WorkspaceRole_roundtrip r :
  WorkspaceRole.from_str_lossy (WorkspaceRole.as_str r) = Some r.
Proof. by destruct r. Qed.

(** ** Scoped decisions *)

Record PermissionContext := {
  user_id : Uuid;
  system_role : SystemRole;
  group_ids : list Uuid;
  workspace_id : option Uuid;
  workspace_role : option WorkspaceRole;
  session_version : Z;
  current_user_version : Z;
}.

Definition is_session_stale (ctx : PermissionContext) : bool :=
  (session_version ctx <? current_user_version ctx)%Z.

Inductive GrantSource :=
  | RoleDefault
  | GlobalGrant
  | GroupGrant
  | UserGrant
  | WorkspaceRoleSource
  | WorkspaceGrant
  | AdminBypass.

#[export] Instance GrantSource_eq_dec : EqDecision GrantSource.
Proof. solve_decision. Defined.

Inductive PermissionDecision :=
  | Granted (reason : string) (source : GrantSource)
  | Denied (reason : string) (source : option GrantSource).

Definition is_granted (d : PermissionDecision) : bool :=
  match d with
  | Granted _ _ => true
  | Denied _ _ => false
  end.

Class GrantResolver (G P : Type) `{Permission P} :=
  resolve : G → PermissionContext → P → option string → result PermissionDecision.

(** ** The permission cache

    [Instant::now()] is an argument.  [set] reads the clock up to three
    times, so it takes the three readings. *)
Record SetClock := {
  now_replace : Z;  (** when the existing entry is tested for expiry *)
  now_insert : Z;   (** when the fresh expiry is computed *)
  now_evict : Z;    (** when expired entries are purged *)
}.

Class PermissionCache (C S P : Type) `{Permission P, Subject S} := {
  cache_get : C → Z → S → P → option bool;
  cache_set : C → SetClock → S → P → bool → C;
  invalidate_subject : C → S → C;
  invalidate_all : C → C;
}.
Arguments invalidate_subject {C S} P {_ _ _ _ _} _ _.
Arguments invalidate_all {C} S P {_ _ _ _ _} _.

(** A cache may forget an entry at any time; it never answers with a
    decision that was not stored for that subject id and permission name,
    nor revives one. *)
Class PermissionCacheLaws (C S P : Type) `{PermissionCache C S P} := {
  get_set : ∀ (c : C) clk now (s s' : S) (p p' : P) b b',
    cache_get (cache_set c clk s p b) now s' p' = Some b' →
    (subject_id s' = subject_id s ∧ perm_name p' = perm_name p ∧ b' = b) ∨
    cache_get c now s' p' = Some b';
  get_invalidate_subject : ∀ (c : C) now (s s' : S) (p : P) b,
    cache_get (invalidate_subject P c s) now s' p = Some b →
    subject_id s' ≠ subject_id s ∧ cache_get c now s' p = Some b;
  get_invalidate_all : ∀ (c : C) now (s : S) (p : P),
    cache_get (invalidate_all S P c) now s p = None;
  get_later : ∀ (c : C) now now' (s : S) (p : P) b,
    (now ≤ now')%Z →
    cache_get c now' s p = Some b → cache_get c now s p = Some b;
}.
