(* ===== verification/Catalog.v ===== *)
(** * The permission catalogue

    - [Macro]: src/packages/kirino-macro/src/lib.rs, the code generator behind
      [hierarchical_permission!], as functions from the parsed domain table
      to the match arms it emits (identifiers are ASCII);
    - [KirinoPermission]: src/src/rbac/permission.rs, the built-in enum, its
      generated inherent functions, and its [Permission] instance, which
      overrides [name] and [domain] only. *)

From S2P Require Import Prelude Traits.

Module Macro.

(** [struct DomainEntry], after parsing. *)
Record DomainEntry := { de_name : string; de_actions : list string }.

Definition is_uppercase (c : Ascii.ascii) : bool :=
  ((65 <=? Ascii.N_of_ascii c) && (Ascii.N_of_ascii c <=? 90))%N.
Definition to_ascii_lowercase (c : Ascii.ascii) : Ascii.ascii :=
  if is_uppercase c then Ascii.ascii_of_N (Ascii.N_of_ascii c + 32) else c.

Definition underscore : Ascii.ascii := Ascii.ascii_of_N 95.

(** [domain_snake]: an underscore before every upper-case letter but one
    at index 0; [first] is [i = 0]. *)
Fixpoint domain_snake_from (first : bool) (s : string) : string :=
  match s with
  | EmptyString => EmptyString
  | String ch rest =>
      let tail := domain_snake_from false rest in
      if is_uppercase ch then
        if first then String (to_ascii_lowercase ch) tail
        else String underscore (String (to_ascii_lowercase ch) tail)
      else String ch tail
  end.
Definition domain_snake (s : string) : string := domain_snake_from true s.

Fixpoint action_snake (s : string) : string :=
  match s with
  | EmptyString => EmptyString
  | String ch rest => String (to_ascii_lowercase ch) (action_snake rest)
  end.

(** [struct LeafData] and the nested loop that fills [leaves]. *)
Record LeafData := {
  domain_ident : string;
  action_ident : string;
  leaf_domain_snake : string;
  leaf_action_snake : string;
  leaf_name : string;
}.

Definition leaves (domains : list DomainEntry) : list LeafData :=
  domains ≫= λ d,
    (λ action, {|
      domain_ident := de_name d;
      action_ident := action;
      leaf_domain_snake := domain_snake (de_name d);
      leaf_action_snake := action_snake action;
      leaf_name := domain_snake (de_name d) +:+ "." +:+ action_snake action |})
    <$> de_actions d.

(** [Self::#domain(#inner::#domain::#action)], as the pair of identifiers. *)
Definition variant : Type := string * string.
Definition leaf_variant (l : LeafData) : variant := (domain_ident l, action_ident l).

(** A generated [match]: the first arm with the scrutinee's pattern. *)
Fixpoint match_arms {K V} `{EqDecision K} (arms : list (K * V)) (k : K) : option V :=
  match arms with
  | [] => None
  | (pat, v) :: rest => if decide (k = pat) then Some v else match_arms rest k
  end.

Definition name_arms (domains : list DomainEntry) : list (variant * string) :=
  (λ l, (leaf_variant l, leaf_name l)) <$> leaves domains.
Definition domain_arms (domains : list DomainEntry) : list (string * string) :=
  (λ d, (de_name d, domain_snake (de_name d))) <$> domains.
Definition path_segments_arms (domains : list DomainEntry) : list (variant * list string) :=
  (λ l, (leaf_variant l, [leaf_domain_snake l; leaf_action_snake l])) <$> leaves domains.
Definition from_path_arms (domains : list DomainEntry) : list (string * variant) :=
  (λ l, (leaf_name l, leaf_variant l)) <$> leaves domains.
Definition expand_domain_arms (domains : list DomainEntry) : list (string * list variant) :=
  (λ d, (domain_snake (de_name d), (λ a, (de_name d, a)) <$> de_actions d)) <$> domains.

Definition gen_all (domains : list DomainEntry) : list variant := leaf_variant <$> leaves domains.
Definition gen_all_domains (domains : list DomainEntry) : list string :=
  (λ d, domain_snake (de_name d)) <$> domains.
Definition gen_name (domains : list DomainEntry) (v : variant) : option string :=
  match_arms (name_arms domains) v.
Definition gen_domain (domains : list DomainEntry) (v : variant) : option string :=
  match_arms (domain_arms domains) v.1.
Definition gen_path_segments (domains : list DomainEntry) (v : variant) : option (list string) :=
  match_arms (path_segments_arms domains) v.
Definition gen_from_path (domains : list DomainEntry) (path : string) : option variant :=
  match_arms (from_path_arms domains) path.
Definition gen_expand_domain (domains : list DomainEntry) (s : string) : list variant :=
  default [] (match_arms (expand_domain_arms domains) s).

(** *** First-match lookup *)

Lemma match_arms_elem {K V} `{EqDecision K} (arms : list (K * V)) k v :
  match_arms arms k = Some v → (k, v) ∈ arms.
Proof.
  induction arms as [|[pat w] rest IH]; simpl; [done|].
  case_decide; intros; simplify_eq; [by constructor|constructor; auto].
Qed.

Lemma match_arms_NoDup {K V} `{EqDecision K} (arms : list (K * V)) k v :
  NoDup (arms.*1) → (k, v) ∈ arms → match_arms arms k = Some v.
Proof.
  induction arms as [|[pat w] rest IH]; simpl; [by rewrite elem_of_nil|].
  intros [Hnew Hnd]%NoDup_cons [Heq|Hin]%elem_of_cons; simplify_eq/=.
  - by rewrite decide_True.
  - rewrite decide_False; [auto|]. intros ->. apply Hnew.
    apply list_elem_of_fmap. by exists (pat, v).
Qed.

Lemma gen_from_path_leaf domains path v :
  gen_from_path domains path = Some v →
  ∃ l, l ∈ leaves domains ∧ leaf_name l = path ∧ leaf_variant l = v.
Proof.
  intros (l & Heq & Hl)%match_arms_elem%list_elem_of_fmap. simplify_eq. eauto.
Qed.

(** A table whose leaf names and leaf variants are pairwise distinct:
    rustc rejects a repeated variant and flags a repeated name. *)
Definition well_formed (domains : list DomainEntry) : Prop :=
  NoDup (leaf_name <$> leaves domains) ∧ NoDup (leaf_variant <$> leaves domains).

Lemma gen_name_leaf domains l :
  well_formed domains → l ∈ leaves domains →
  gen_name domains (leaf_variant l) = Some (leaf_name l).
Proof.
  intros [_ Hnd] Hl. apply match_arms_NoDup.
  - unfold name_arms. by rewrite <- list_fmap_compose.
  - apply list_elem_of_fmap. eauto.
Qed.

Lemma gen_name_from_path domains path v :
  well_formed domains →
  gen_from_path domains path = Some v ↔ gen_name domains v = Some path.
Proof.
  intros Hwf. split.
  - intros (l & Hl & <- & <-)%gen_from_path_leaf. by apply gen_name_leaf.
  - intros (l & Heq & Hl)%match_arms_elem%list_elem_of_fmap. simplify_eq.
    apply match_arms_NoDup.
    + unfold from_path_arms. rewrite <- list_fmap_compose. apply Hwf.
    + apply list_elem_of_fmap. eauto.
Qed.
End Macro.

Module Agent.
Inductive t := Read | Write | Execute.
End Agent.
Module Config.
Inductive t := Read | Write.
End Config.
Module Knowledge.
Inductive t := Read | Write.
End Knowledge.
Module Container.
Inductive t := Read | Write.
End Container.
Module System.
Inductive t := Read | Write.
End System.
Module Deploy.
Inductive t := Read | Execute.
End Deploy.
Module Provider.
Inductive t := List | Create | Update | Delete | Use.
End Provider.
Module Mcp.
Inductive t := List | Create | Update | Delete | Use.
End Mcp.
Module Channel.
Inductive t := List | Create | Update | Delete | Use.
End Channel.
Module Yolo.
Inductive t := Use.
End Yolo.
Module Workspace.
Inductive t := List | Create | Manage.
End Workspace.
Module Device.
Inductive t := List | Connect.
End Device.
Module Rbac.
Inductive t := Manage.
End Rbac.
Module Oauth.
Inductive t := Read | Write.
End Oauth.
Module Plugin.
Inductive t := Read | Install | Publish | Manage.
End Plugin.

(** [pub enum Permission]: the variants the macro declares. *)
Inductive KirinoPermission :=
  | Agent (a : Agent.t)
  | Config (a : Config.t)
  | Knowledge (a : Knowledge.t)
  | Container (a : Container.t)
  | System (a : System.t)
  | Deploy (a : Deploy.t)
  | Provider (a : Provider.t)
  | Mcp (a : Mcp.t)
  | Channel (a : Channel.t)
  | Yolo (a : Yolo.t)
  | Workspace (a : Workspace.t)
  | Device (a : Device.t)
  | Rbac (a : Rbac.t)
  | Oauth (a : Oauth.t)
  | Plugin (a : Plugin.t).

#[export] Instance KirinoPermission_eq_dec : EqDecision KirinoPermission.
Proof. unfold EqDecision, Decision. repeat decide equality. Defined.

(** The macro's input. *)
Definition permission_table : list Macro.DomainEntry :=
  [ Macro.Build_DomainEntry "Agent" ["Read"; "Write"; "Execute"];
    Macro.Build_DomainEntry "Config" ["Read"; "Write"];
    Macro.Build_DomainEntry "Knowledge" ["Read"; "Write"];
    Macro.Build_DomainEntry "Container" ["Read"; "Write"];
    Macro.Build_DomainEntry "System" ["Read"; "Write"];
    Macro.Build_DomainEntry "Deploy" ["Read"; "Execute"];
    Macro.Build_DomainEntry "Provider" ["List"; "Create"; "Update"; "Delete"; "Use"];
    Macro.Build_DomainEntry "Mcp" ["List"; "Create"; "Update"; "Delete"; "Use"];
    Macro.Build_DomainEntry "Channel" ["List"; "Create"; "Update"; "Delete"; "Use"];
    Macro.Build_DomainEntry "Yolo" ["Use"];
    Macro.Build_DomainEntry "Workspace" ["List"; "Create"; "Manage"];
    Macro.Build_DomainEntry "Device" ["List"; "Connect"];
    Macro.Build_DomainEntry "Rbac" ["Manage"];
    Macro.Build_DomainEntry "Oauth" ["Read"; "Write"];
    Macro.Build_DomainEntry "Plugin" ["Read"; "Install"; "Publish"; "Manage"] ].

(** The identifiers a value of the enum is written with. *)
Definition variant_of (p : KirinoPermission) : Macro.variant :=
  match p with
  | Agent Agent.Read => ("Agent", "Read")
  | Agent Agent.Write => ("Agent", "Write")
  | Agent Agent.Execute => ("Agent", "Execute")
  | Config Config.Read => ("Config", "Read")
  | Config Config.Write => ("Config", "Write")
  | Knowledge Knowledge.Read => ("Knowledge", "Read")
  | Knowledge Knowledge.Write => ("Knowledge", "Write")
  | Container Container.Read => ("Container", "Read")
  | Container Container.Write => ("Container", "Write")
  | System System.Read => ("System", "Read")
  | System System.Write => ("System", "Write")
  | Deploy Deploy.Read => ("Deploy", "Read")
  | Deploy Deploy.Execute => ("Deploy", "Execute")
  | Provider Provider.List => ("Provider", "List")
  | Provider Provider.Create => ("Provider", "Create")
  | Provider Provider.Update => ("Provider", "Update")
  | Provider Provider.Delete => ("Provider", "Delete")
  | Provider Provider.Use => ("Provider", "Use")
  | Mcp Mcp.List => ("Mcp", "List")
  | Mcp Mcp.Create => ("Mcp", "Create")
  | Mcp Mcp.Update => ("Mcp", "Update")
  | Mcp Mcp.Delete => ("Mcp", "Delete")
  | Mcp Mcp.Use => ("Mcp", "Use")
  | Channel Channel.List => ("Channel", "List")
  | Channel Channel.Create => ("Channel", "Create")
  | Channel Channel.Update => ("Channel", "Update")
  | Channel Channel.Delete => ("Channel", "Delete")
  | Channel Channel.Use => ("Channel", "Use")
  | Yolo Yolo.Use => ("Yolo", "Use")
  | Workspace Workspace.List => ("Workspace", "List")
  | Workspace Workspace.Create => ("Workspace", "Create")
  | Workspace Workspace.Manage => ("Workspace", "Manage")
  | Device Device.List => ("Device", "List")
  | Device Device.Connect => ("Device", "Connect")
  | Rbac Rbac.Manage => ("Rbac", "Manage")
  | Oauth Oauth.Read => ("Oauth", "Read")
  | Oauth Oauth.Write => ("Oauth", "Write")
  | Plugin Plugin.Read => ("Plugin", "Read")
  | Plugin Plugin.Install => ("Plugin", "Install")
  | Plugin Plugin.Publish => ("Plugin", "Publish")
  | Plugin Plugin.Manage => ("Plugin", "Manage")
  end.

(** Every value of the enum, in declaration order. *)
Definition all_values : list KirinoPermission :=
  [ Agent Agent.Read; Agent Agent.Write; Agent Agent.Execute;
    Config Config.Read; Config Config.Write;
    Knowledge Knowledge.Read; Knowledge Knowledge.Write;
    Container Container.Read; Container Container.Write;
    System System.Read; System System.Write;
    Deploy Deploy.Read; Deploy Deploy.Execute;
    Provider Provider.List; Provider Provider.Create; Provider Provider.Update;
    Provider Provider.Delete; Provider Provider.Use;
    Mcp Mcp.List; Mcp Mcp.Create; Mcp Mcp.Update; Mcp Mcp.Delete; Mcp Mcp.Use;
    Channel Channel.List; Channel Channel.Create; Channel Channel.Update;
    Channel Channel.Delete; Channel Channel.Use;
    Yolo Yolo.Use;
    Workspace Workspace.List; Workspace Workspace.Create; Workspace Workspace.Manage;
    Device Device.List; Device Device.Connect;
    Rbac Rbac.Manage;
    Oauth Oauth.Read; Oauth Oauth.Write;
    Plugin Plugin.Read; Plugin Plugin.Install; Plugin Plugin.Publish; Plugin Plugin.Manage ].

Lemma all_values_complete p : p ∈ all_values.
Proof. apply list_elem_of_In. destruct p as [[]|[]|[]|[]|[]|[]|[]|[]|[]|[]|[]|[]|[]|[]|[]]; simpl; tauto. Qed.

(** The value a pair of identifiers denotes. *)
Definition of_variant (v : Macro.variant) : option KirinoPermission :=
  list_find (λ p, variant_of p = v) all_values ≫= λ ip, Some ip.2.

Lemma of_variant_of p : of_variant (variant_of p) = Some p.
Proof. by destruct p as [[]|[]|[]|[]|[]|[]|[]|[]|[]|[]|[]|[]|[]|[]|[]]; vm_compute. Qed.

Lemma of_variant_Some v p : of_variant v = Some p → variant_of p = v.
Proof.
  unfold of_variant. intros ([i q] & Hf & [= ->])%bind_Some.
  by apply list_find_Some in Hf as (_ & ? & _).
Qed.

#[export] Instance variant_of_inj : Inj (=) (=) variant_of.
Proof.
  intros p q Heq. apply (inj Some). by rewrite <- !of_variant_of, Heq.
Qed.

#[export] Instance KirinoPermission_countable : Countable KirinoPermission :=
  inj_countable variant_of of_variant of_variant_of.

(** The inherent functions generated for the enum. *)
Module Inherent.
Definition name (p : KirinoPermission) : string :=
  default "" (Macro.gen_name permission_table (variant_of p)).
Definition domain (p : KirinoPermission) : string :=
  default "" (Macro.gen_domain permission_table (variant_of p)).
Definition path_segments (p : KirinoPermission) : list string :=
  default [] (Macro.gen_path_segments permission_table (variant_of p)).
Definition ancestry_names (p : KirinoPermission) : list string := [domain p; name p].
Definition matches_pattern (p : KirinoPermission) (pattern : string) : bool :=
  bool_decide (pattern = domain p) || bool_decide (pattern = name p).
Definition is_leaf (_ : KirinoPermission) : bool := true.
Definition is_branch (_ : KirinoPermission) : bool := false.
Definition all : list KirinoPermission := omap of_variant (Macro.gen_all permission_table).
Definition all_domains : list string := Macro.gen_all_domains permission_table.
Definition from_path (path : string) : option KirinoPermission :=
  Macro.gen_from_path permission_table path ≫= of_variant.
Definition expand_domain (s : string) : list KirinoPermission :=
  omap of_variant (Macro.gen_expand_domain permission_table s).
End Inherent.

Definition PLUGIN_PATHS : list string :=
  ["plugin.read"; "plugin.install"; "plugin.publish"; "plugin.manage"].

(** [impl PermissionTrait for Permission]: [name] and [domain] forward to the
    inherent functions, every other method keeps the trait's default. *)
#[export] Instance KirinoPermission_permission : Permission KirinoPermission := {|
  perm_name := Inherent.name;
  perm_domain := Inherent.domain;
  path_segments := default_path_segments;
  ancestry_names := default_ancestry_names Inherent.name;
  matches_pattern := default_matches_pattern Inherent.name;
  is_leaf := default_is_leaf;
  is_branch := default_is_branch;
  all_permissions_of_type := default_all;
  all_domains := default_all_domains;
  from_path := default_from_path;
  expand_domain := default_expand_domain;
|}.

(** ** The generated functions on the built-in table *)

Lemma permission_table_well_formed : Macro.well_formed permission_table.
Proof. split; apply (bool_decide_eq_true_1 _); by vm_compute. Qed.

Lemma gen_name_of p : Macro.gen_name permission_table (variant_of p) = Some (Inherent.name p).
Proof.
  by destruct p as [[]|[]|[]|[]|[]|[]|[]|[]|[]|[]|[]|[]|[]|[]|[]]; vm_compute.
Qed.

Lemma from_path_name path p : Inherent.from_path path = Some p ↔ Inherent.name p = path.
Proof.
  unfold Inherent.from_path. rewrite bind_Some. split.
  - intros (v & Hpath & Hv). apply of_variant_Some in Hv as <-.
    apply (Macro.gen_name_from_path _ _ _ permission_table_well_formed) in Hpath.
    rewrite gen_name_of in Hpath. by simplify_eq.
  - intros <-. exists (variant_of p). split; [|apply of_variant_of].
    apply (Macro.gen_name_from_path _ _ _ permission_table_well_formed), gen_name_of.
Qed.

#[export] Instance KirinoPermission_unique_names : UniqueNames KirinoPermission.
Proof.
  intros p q Hpq. simpl in Hpq. apply (inj Some).
  rewrite <- (proj2 (from_path_name (Inherent.name p) p) eq_refl), Hpq.
  by apply from_path_name.
Qed.

Lemma expand_domain_elem d p : p ∈ Inherent.expand_domain d ↔ Inherent.domain p = d.
Proof.
  split.
  - unfold Inherent.expand_domain, Macro.gen_expand_domain.
    destruct (Macro.match_arms _ d) as [vs|] eqn:Harm; simpl; [|by rewrite elem_of_nil].
    apply Macro.match_arms_elem in Harm. revert p.
    assert (Hall : Forall (λ arm, Forall (λ p, Inherent.domain p = arm.1) (omap of_variant arm.2))
                     (Macro.expand_domain_arms permission_table)).
    { apply (bool_decide_eq_true_1 _). by vm_compute. }
    rewrite Forall_forall in Hall. specialize (Hall _ Harm). simpl in Hall.
    by rewrite Forall_forall in Hall.
  - intros <-.
    assert (Hall : Forall (λ p, p ∈ Inherent.expand_domain (Inherent.domain p)) all_values).
    { apply (bool_decide_eq_true_1 _). by vm_compute. }
    rewrite Forall_forall in Hall. apply Hall, all_values_complete.
Qed.

Lemma inherent_all_values : Inherent.all = all_values.
Proof. by vm_compute. Qed.

(** ** Properties *)

(** For every table the macro accepts whose leaf names are distinct, the
    generated [from_path] and [name] are inverse to each other. *)
Theorem macro_name_roundtrip domains path v :
  Macro.well_formed domains →
  Macro.gen_from_path domains path = Some v ↔ Macro.gen_name domains v = Some path.
Proof. apply Macro.gen_name_from_path. Qed.

Lemma macro_name_roundtrip_witness :
  Macro.gen_from_path permission_table "plugin.manage" = Some ("Plugin", "Manage").
Proof.
  apply macro_name_roundtrip; [apply permission_table_well_formed|by vm_compute].
Defined.

(** The built-in vocabulary is closed and unambiguous: a path resolves to
    a permission exactly when it is its name, every permission is listed by
    [all], and a domain expands to exactly its own permissions. *)
Theorem builtin_vocabulary (p : KirinoPermission) path d :
  (Inherent.from_path path = Some p ↔ Inherent.name p = path) ∧
  p ∈ Inherent.all ∧
  (p ∈ Inherent.expand_domain d ↔ Inherent.domain p = d) ∧
  Inherent.ancestry_names p = [Inherent.domain p; Inherent.name p].
Proof.
  split_and!; [apply from_path_name| |apply expand_domain_elem|done].
  rewrite inherent_all_values. apply all_values_complete.
Qed.
