(* ===== verification/MacroParse.v ===== *)
(** * The input grammar of the macro: [Parse for HierarchicalPermission] of
    src/packages/kirino-macro/src/lib.rs

    [Catalog] models the code the macro generates from its table of domains;
    here is the parser that reads the table.  Token trees, attributes and
    visibilities are those of syn, a parameter: [Syn] says how a token is
    classified, as documented, and [parse_outer] and [parse_visibility] are
    syn's.  A [ParseStream] is the list of the tokens that are left; an
    error is its text.  [parse_macro_input!] refuses leftover tokens, of the
    input and of a group that was opened; the tokens of the braces that the
    loop leaves are therefore part of the result. *)

From S2P Require Import Prelude Catalog.

Class Syn := {
  Tok : Type;
  Attribute : Type;
  Visibility : Type;
  (** [Ident::parse]: an identifier that is no keyword *)
  ident_of : Tok → option string;
  is_comma : Tok → bool;
  is_enum : Tok → bool;
  (** the tokens inside a delimited group *)
  braced : Tok → option (list Tok);
  parenthesized : Tok → option (list Tok);
  parse_outer : list Tok → (list Attribute * list Tok) + string;
  parse_visibility : list Tok → (Visibility * list Tok) + string;
  is_ident : Attribute → string → bool;
  (** what an error says of the token it is at, if there is one *)
  expected : string → option Tok → string;
}.

Section Parser.
Context `{Syn}.
Import Macro.

Record HierarchicalPermission := {
  attrs : list Attribute;
  vis : Visibility;
  enum_name : string;
  domains : list DomainEntry;
}.

Definition parse_ident (input : list Tok) : (string * list Tok) + string :=
  match input with
  | t :: rest => match ident_of t with Some x => inl (x, rest) | None => inr (expected "identifier" (Some t)) end
  | [] => inr (expected "identifier" None)
  end.

(** [parens.parse_terminated(Ident::parse, Token![,])] *)
Fixpoint parse_terminated (parens : list Tok) : list string + string :=
  match parens with
  | [] => inl []
  | t :: rest =>
      match ident_of t with
      | None => inr (expected "identifier" (Some t))
      | Some x =>
          match rest with
          | [] => inl [x]
          | c :: rest =>
              if is_comma c then
                match parse_terminated rest with inl xs => inl (x :: xs) | inr e => inr e end
              else inr (expected "`,`" (Some c))
          end
      end
  end.

(** The [while] loop over the content of the braces: the domains, and the
    tokens at which it stops. *)
Fixpoint parse_domains (content : list Tok) : (list DomainEntry * list Tok) + string :=
  match content with
  | [] => inl ([], [])
  | n :: content =>
      match ident_of n with
      | None => inr (expected "identifier" (Some n))
      | Some domain_name =>
          match content with
          | [] => inr (expected "parentheses" None)
          | g :: content =>
              match parenthesized g with
              | None => inr (expected "parentheses" (Some g))
              | Some parens =>
                  match parse_terminated parens with
                  | inr e => inr e
                  | inl actions =>
                      let d := {| de_name := domain_name; de_actions := actions |} in
                      match content with
                      | c :: rest =>
                          if is_comma c then
                            match parse_domains rest with
                            | inl (ds, remaining) => inl (d :: ds, remaining)
                            | inr e => inr e
                            end
                          else inl ([d], c :: rest)
                      | [] => inl ([d], [])
                      end
                  end
              end
          end
      end
  end.

(** [parse]: the value, what is left of the braces and what is left of the
    input. *)
Definition parse (input : list Tok) : (HierarchicalPermission * list Tok * list Tok) + string :=
  match parse_outer input with
  | inr e => inr e
  | inl (attrs, input) =>
      match parse_visibility input with
      | inr e => inr e
      | inl (vis, input) =>
          match input with
          | [] => inr (expected "`enum`" None)
          | k :: input =>
              if negb (is_enum k) then inr (expected "`enum`" (Some k))
              else
                match parse_ident input with
                | inr e => inr e
                | inl (enum_name, input) =>
                    match input with
                    | [] => inr (expected "curly braces" None)
                    | g :: input =>
                        match braced g with
                        | None => inr (expected "curly braces" (Some g))
                        | Some content =>
                            match parse_domains content with
                            | inr e => inr e
                            | inl (domains, remaining) =>
                                inl ({| attrs := attrs; vis := vis; enum_name := enum_name; domains := domains |},
                                     remaining, input)
                            end
                        end
                    end
                end
          end
      end
  end.

(** [parse_macro_input!]: nothing may be left. *)
Definition macro_input (input : list Tok) : HierarchicalPermission + string :=
  match parse input with
  | inr e => inr e
  | inl (h, [], []) => inl h
  | inl (_, t :: _, _) | inl (_, [], t :: _) => inr (expected "end of input" (Some t))
  end.

Definition filter_derive_attrs (attrs : list Attribute) : list Attribute :=
  filter (λ a, is_ident a "derive" || is_ident a "serde" = true) attrs.

(** ** The grammar *)

(** [x, y, z] or [x, y, z,] *)
Inductive separated {A} (item : A → list Tok → Prop) : list A → list Tok → Prop :=
  | sep_nil : separated item [] []
  | sep_last x ts : item x ts → separated item [x] ts
  | sep_cons x ts c xs rest :
      item x ts → is_comma c = true → separated item xs rest → separated item (x :: xs) (ts ++ c :: rest).

Inductive action_tokens : string → list Tok → Prop :=
  | action_tok t a : ident_of t = Some a → action_tokens a [t].
Inductive domain_tokens : DomainEntry → list Tok → Prop :=
  | domain_toks n g d parens actions :
      ident_of n = Some d → parenthesized g = Some parens → separated action_tokens actions parens →
      domain_tokens {| de_name := d; de_actions := actions |} [n; g].

Lemma parse_terminated_iff ts acts : parse_terminated ts = inl acts ↔ separated action_tokens acts ts.
Proof.
  split.
  - revert acts. induction ts as [ts IH] using (induction_ltof1 _ length). intros acts.
    destruct ts as [|t [|c rest]]; cbn.
    + intros [= <-]. constructor.
    + destruct (ident_of t) eqn:Ht; [|done]. intros [= <-]. by repeat constructor.
    + destruct (ident_of t) eqn:Ht; [|done]. destruct (is_comma c) eqn:Hc; [|done].
      destruct (parse_terminated rest) as [xs|] eqn:Hrest; [|done]. intros [= <-].
      apply (sep_cons _ _ [t]); [by constructor|done|]. apply IH; [unfold ltof; cbn; lia|done].
  - induction 1 as [|a ts [t x Ht]|a ts c xs rest [t x Ht] Hc _ IH]; cbn; [done| |].
    + by rewrite Ht.
    + by rewrite Ht, Hc, IH.
Qed.

Lemma parse_domains_iff ts ds : parse_domains ts = inl (ds, []) ↔ separated domain_tokens ds ts.
Proof.
  split.
  - revert ds. induction ts as [ts IH] using (induction_ltof1 _ length). intros ds.
    destruct ts as [|n [|g content]]; cbn; [intros [= <-]; constructor|by case_match|].
    destruct (ident_of n) eqn:Hn; [|done]. destruct (parenthesized g) eqn:Hg; [|done].
    destruct (parse_terminated _) as [acts|] eqn:Hacts; [|done]. apply parse_terminated_iff in Hacts.
    destruct content as [|c rest]; [intros [= <-]; apply sep_last; by econstructor|].
    destruct (is_comma c) eqn:Hc; [|done].
    destruct (parse_domains rest) as [[ds' remaining]|] eqn:Hrest; [|done]. intros [= <- ->].
    apply (sep_cons _ _ [n; g]); [by econstructor|done|]. apply IH; [unfold ltof; cbn; lia|done].
  - induction 1 as [|d ts [n g x parens acts Hn Hg Hacts]|d ts c ds rest [n g x parens acts Hn Hg Hacts] Hc _ IH];
      cbn; [done| |]; apply parse_terminated_iff in Hacts; by rewrite Hn, Hg, Hacts, ?Hc, ?IH.
Qed.

(** What the macro accepts.  The input parses to a declaration exactly when
    it is attributes, a visibility, [enum], a name and one brace group with
    nothing after it, and the group is a list of domains, each a name and a
    parenthesised list of names, both lists separated by commas with an
    optional one at the end; the domains are read in order.  Whatever else
    stands there is an error, tokens after a domain without a comma
    included. *)
Theorem macro_input_accepts_iff input h :
  macro_input input = inl h ↔
  ∃ r1 r2 k n g content,
    parse_outer input = inl (attrs h, r1) ∧ parse_visibility r1 = inl (vis h, r2) ∧
    r2 = [k; n; g] ∧ is_enum k = true ∧ ident_of n = Some (enum_name h) ∧ braced g = Some content ∧
    separated domain_tokens (domains h) content.
Proof.
  unfold macro_input, parse. split.
  - destruct (parse_outer input) as [[ats r1]|]; [|done]. destruct (parse_visibility r1) as [[v r2]|] eqn:Hv; [|done].
    destruct r2 as [|k r2]; [done|]. destruct (is_enum k) eqn:Hk; [|done]. cbn [negb].
    unfold parse_ident. destruct r2 as [|n r2]; [done|]. destruct (ident_of n) as [x|] eqn:Hn; [|done].
    destruct r2 as [|g r2]; [done|]. destruct (braced g) as [content|] eqn:Hg; [|done].
    destruct (parse_domains content) as [[ds [|t remaining]]|] eqn:Hds; [|done..].
    destruct r2 as [|t r2]; [|done]. intros [= <-]. exists r1, [k; n; g], k, n, g, content. cbn.
    split_and!; try done. by apply parse_domains_iff.
  - intros (r1 & r2 & k & n & g & content & Ho & Hv & -> & Hk & Hn & Hg & Hds%parse_domains_iff).
    rewrite Ho, Hv, Hk. cbn. rewrite Hn, Hg, Hds. by destruct h.
Qed.
End Parser.

(** ** The built-in table

    A concrete token type without attributes, and the invocation in
    src/src/rbac/permission.rs: it parses to the table [Catalog] generates the enum from. *)
Module Tokens.
Inductive tok := TWord (w : string) | TComma | TGroup (braces : bool) (inside : list tok).

#[local] Instance syn : Syn := {|
  Tok := tok;
  Attribute := string;
  Visibility := bool;
  ident_of := λ t, match t with
                   | TWord w => if decide (w ∈ ["enum"; "pub"]) then None else Some w
                   | _ => None
                   end;
  is_comma := λ t, match t with TComma => true | _ => false end;
  is_enum := λ t, match t with TWord w => bool_decide (w = "enum") | _ => false end;
  braced := λ t, match t with TGroup true ts => Some ts | _ => None end;
  parenthesized := λ t, match t with TGroup false ts => Some ts | _ => None end;
  parse_outer := λ ts, inl ([], ts);
  parse_visibility := λ ts, match ts with
                            | TWord w :: rest => inl (if decide (w = "pub") then (true, rest) else (false, ts))
                            | _ => inl (false, ts)
                            end;
  is_ident := λ a w, bool_decide (a = w);
  expected := λ what _, "expected " +:+ what;
|}.

Definition commas (ts : list (list tok)) : list tok := mjoin (map (λ t, (t ++ [TComma])%list) ts).
(** The domains end in a comma, the actions of a domain do not. *)
Definition written (d : Macro.DomainEntry) : list tok :=
  let actions := (λ a, [TWord a]) <$> Macro.de_actions d in
  [TWord (Macro.de_name d); TGroup false (take (2 * length actions - 1) (commas actions))].
Definition invocation : list tok :=
  [TWord "pub"; TWord "enum"; TWord "Permission"; TGroup true (commas (written <$> permission_table))].

Example builtin_table_parses :
  macro_input invocation =
    inl {| attrs := []; vis := true; enum_name := "Permission"; domains := permission_table |}.
Proof. by vm_compute. Qed.
End Tokens.
