(* ===== verification/Shared.v ===== *)
(** * Shared handles: src/src/rbac/shared.rs

    [Shared<T>] is a newtype over [Arc<T>].  The heap holds a value and a
    strong count per address; a handle is an address.  Weak references are
    not used.  The program around the handles is a table of owned slots, each
    a [Shared] or a plain [Arc]: a slot ends when its owner drops it.

    The address of an allocation is an argument, one that is not in use; the
    abort of [Arc] on 2^63 owners is not modelled.  What a holder does to the
    component it reaches through [deref] - the methods of a store or a cache
    behind their own locks - is any function on the value. *)

From S2P Require Import Prelude.

Abbreviation Addr := nat.

Record Cell (T : Type) := { cell_value : T; strong : nat }.
Arguments cell_value {_}. Arguments strong {_}.
#[global] Arguments Build_Cell {_}.

(** [Arc<T>] and [Shared<T>] *)
Record Arc := { arc_addr : Addr }.
Record Shared := { inner : Arc }.

Section Handles.
Context {T : Type}.
Implicit Types (h : gmap Addr (Cell T)).

(** ** [std::sync::Arc] *)

Definition arc_new h (a : Addr) (v : T) : Arc * gmap Addr (Cell T) :=
  ({| arc_addr := a |}, <[a := Build_Cell v 1]> h).
Definition arc_clone h (p : Arc) : Arc * gmap Addr (Cell T) :=
  (p, alter (λ c, Build_Cell (cell_value c) (S (strong c))) (arc_addr p) h).
Definition arc_drop h (p : Arc) : gmap Addr (Cell T) :=
  match h !! arc_addr p with
  | Some c =>
      if decide (strong c = 1) then delete (arc_addr p) h
      else <[arc_addr p := Build_Cell (cell_value c) (strong c - 1)]> h
  | None => h
  end.
Definition arc_strong_count h (p : Arc) : nat := from_option strong 0 (h !! arc_addr p).
Definition arc_ptr_eq (p q : Arc) : bool := bool_decide (arc_addr p = arc_addr q).

(** ** [Shared] *)

Definition new h (a : Addr) (v : T) : Shared * gmap Addr (Cell T) :=
  let '(p, h) := arc_new h a v in ({| inner := p |}, h).
Definition from_arc (p : Arc) : Shared := {| inner := p |}.
Definition from_arc_unsized (p : Arc) : Shared := {| inner := p |}.
Definition into_arc (s : Shared) : Arc := inner s.
Definition clone h (s : Shared) : Shared * gmap Addr (Cell T) :=
  let '(p, h) := arc_clone h (inner s) in ({| inner := p |}, h).
Definition clone_arc h (s : Shared) : Arc * gmap Addr (Cell T) := arc_clone h (inner s).
Definition strong_count h (s : Shared) : nat := arc_strong_count h (inner s).
Definition ptr_eq (s t : Shared) : bool := arc_ptr_eq (inner s) (inner t).
Definition deref h (s : Shared) : option T := cell_value <$> h !! arc_addr (inner s).
(** [Default], over the default of the component *)
Definition default_handle (dflt : T) h (a : Addr) : Shared * gmap Addr (Cell T) := new h a dflt.
(** [PartialEq] and what [Hash] feeds the hasher *)
Definition eq (s t : Shared) : bool := arc_ptr_eq (inner s) (inner t).
Definition hashed (s : Shared) : Addr := arc_addr (inner s).

(** A call on the component through the handle. *)
Definition call h (s : Shared) (f : T → T) : gmap Addr (Cell T) :=
  alter (λ c, Build_Cell (f (cell_value c)) (strong c)) (arc_addr (inner s)) h.

(** ** Programs over handles *)

Inductive owner := OShared (s : Shared) | OArc (p : Arc).
Definition addr_of (o : owner) : Addr :=
  match o with OShared s => arc_addr (inner s) | OArc p => arc_addr p end.

Record World := { heap : gmap Addr (Cell T); slots : gmap nat owner }.

Inductive step (w : World) : World → Prop :=
  | step_new i a v :
      slots w !! i = None → heap w !! a = None →
      let r := new (heap w) a v in
      step w {| heap := r.2; slots := <[i := OShared r.1]> (slots w) |}
  | step_arc_new i a v :
      slots w !! i = None → heap w !! a = None →
      let r := arc_new (heap w) a v in
      step w {| heap := r.2; slots := <[i := OArc r.1]> (slots w) |}
  | step_from_arc i p :
      slots w !! i = Some (OArc p) →
      step w {| heap := heap w; slots := <[i := OShared (from_arc p)]> (slots w) |}
  | step_into_arc i s :
      slots w !! i = Some (OShared s) →
      step w {| heap := heap w; slots := <[i := OArc (into_arc s)]> (slots w) |}
  | step_clone i j s :
      slots w !! i = Some (OShared s) → slots w !! j = None →
      let r := clone (heap w) s in
      step w {| heap := r.2; slots := <[j := OShared r.1]> (slots w) |}
  | step_clone_arc i j s :
      slots w !! i = Some (OShared s) → slots w !! j = None →
      let r := clone_arc (heap w) s in
      step w {| heap := r.2; slots := <[j := OArc r.1]> (slots w) |}
  | step_drop i o :
      slots w !! i = Some o →
      step w {| heap := arc_drop (heap w) {| arc_addr := addr_of o |}; slots := delete i (slots w) |}
  | step_call i s f :
      slots w !! i = Some (OShared s) →
      step w {| heap := call (heap w) s f; slots := slots w |}.

Definition world0 : World := {| heap := ∅; slots := ∅ |}.

(** ** The count is the number of owners *)

Definition owners (sl : gmap nat owner) (a : Addr) : nat :=
  size (filter (λ io : nat * owner, addr_of io.2 = a) sl).

Lemma owners_insert sl i o a :
  sl !! i = None → owners (<[i := o]> sl) a = owners sl a + (if decide (addr_of o = a) then 1 else 0).
Proof.
  intros Hi. unfold owners. case_decide as Ha.
  - rewrite map_filter_insert_True by done. rewrite map_size_insert_None; [lia|].
    apply map_lookup_filter_None. by left.
  - rewrite map_filter_insert_False by done. rewrite delete_id by done. lia.
Qed.

Lemma owners_delete sl i o a :
  sl !! i = Some o → owners sl a = owners (delete i sl) a + (if decide (addr_of o = a) then 1 else 0).
Proof.
  intros Hi. rewrite <- (insert_delete_id sl i o Hi) at 1. apply owners_insert. apply lookup_delete_eq.
Qed.

Lemma owners_replace sl i o o' a :
  sl !! i = Some o → addr_of o' = addr_of o → owners (<[i := o']> sl) a = owners sl a.
Proof.
  intros Hi Ho. rewrite <- insert_delete_eq, owners_insert by apply lookup_delete_eq.
  rewrite Ho. symmetry. by apply owners_delete.
Qed.

(** Every cell is owned, its count is the number of its owners, and no owner
    dangles. *)
Definition counted (w : World) : Prop :=
  ∀ a, match heap w !! a with
       | Some c => strong c = owners (slots w) a ∧ 0 < strong c
       | None => owners (slots w) a = 0
       end.

Lemma owned_cell w i o : counted w → slots w !! i = Some o → is_Some (heap w !! addr_of o).
Proof.
  intros Hw Hi. specialize (Hw (addr_of o)). destruct (heap w !! addr_of o); [by eexists|].
  rewrite (owners_delete _ _ _ _ Hi), decide_True in Hw by done. lia.
Qed.

(** Adding an owner of a cell that is there, or of a new one. *)
Lemma counted_add w h' i o :
  counted w → slots w !! i = None →
  (∀ a, match h' !! a with
        | Some c => if decide (addr_of o = a) then strong c = S (from_option strong 0 (heap w !! a))
                    else strong <$> heap w !! a = Some (strong c)
        | None => addr_of o ≠ a ∧ heap w !! a = None
        end) →
  counted {| heap := h'; slots := <[i := o]> (slots w) |}.
Proof.
  intros Hw Hi Hh a. specialize (Hw a). specialize (Hh a). cbn. rewrite owners_insert by done.
  destruct (h' !! a) as [c|].
  - case_decide.
    + destruct (heap w !! a) as [c0|]; cbn in Hh; [destruct Hw as [-> _] in Hh|]; lia.
    + destruct (heap w !! a) as [c0|]; cbn in Hh; [|done]. injection Hh as <-. destruct Hw. lia.
  - destruct Hh as [Hne Hh]. rewrite Hh in Hw. by rewrite decide_False by done; lia.
Qed.

Lemma step_counted w w' : step w w' → counted w → counted w'.
Proof.
  intros Hstep Hw. destruct Hstep as [i a v Hi Ha r|i a v Hi Ha r|i p Hi|i s Hi|i j s Hi Hj r|i j s Hi Hj r|i o Hi|i s f Hi].
  - apply counted_add; [done..|]. intros b. subst r. cbn.
    destruct (decide (a = b)) as [->|Hne]; [rewrite lookup_insert_eq; by rewrite Ha|].
    rewrite lookup_insert_ne by done. by destruct (heap w !! b).
  - apply counted_add; [done..|]. intros b. subst r. cbn.
    destruct (decide (a = b)) as [->|Hne]; [rewrite lookup_insert_eq; by rewrite Ha|].
    rewrite lookup_insert_ne by done. by destruct (heap w !! b).
  - intros a. cbn. rewrite (owners_replace _ _ (OArc p)) by done. apply Hw.
  - intros a. cbn. rewrite (owners_replace _ _ (OShared s)) by done. apply Hw.
  - destruct (owned_cell _ _ _ Hw Hi) as [c Hc]. cbn in Hc.
    apply counted_add; [done..|]. intros b. subst r. cbn.
    destruct (decide (arc_addr (inner s) = b)) as [<-|Hne]; [rewrite lookup_alter_eq, Hc; done|].
    rewrite lookup_alter_ne by done. by destruct (heap w !! b).
  - destruct (owned_cell _ _ _ Hw Hi) as [c Hc]. cbn in Hc.
    apply counted_add; [done..|]. intros b. subst r. cbn.
    destruct (decide (arc_addr (inner s) = b)) as [<-|Hne]; [rewrite lookup_alter_eq, Hc; done|].
    rewrite lookup_alter_ne by done. by destruct (heap w !! b).
  - destruct (owned_cell _ _ _ Hw Hi) as [c Hc]. intros b. cbn. unfold arc_drop. cbn. rewrite Hc.
    pose proof (Hw b) as Hb. rewrite (owners_delete _ _ _ b Hi) in Hb.
    destruct (decide (addr_of o = b)) as [<-|Hne].
    + rewrite Hc in Hb. case_decide as H1.
      * rewrite lookup_delete_eq. lia.
      * rewrite lookup_insert_eq. cbn. lia.
    + rewrite Nat.add_0_r in Hb. case_decide; [by rewrite lookup_delete_ne|by rewrite lookup_insert_ne].
  - intros b. cbn. specialize (Hw b). unfold call.
    destruct (decide (arc_addr (inner s) = b)) as [<-|Hne]; [|by rewrite lookup_alter_ne].
    rewrite lookup_alter_eq. by destruct (heap w !! arc_addr (inner s)).
Qed.

(** ** Property *)

(** Handles never dangle and share.  After any program over handles, a live
    handle reaches its component; [strong_count] is the number of live
    owners of that instance, plain [Arc]s included, so it is 1 exactly when
    no other owner is left; a call through one handle is seen through
    exactly the handles that are [ptr_eq] to it; and [ptr_eq], [==] and the
    hash agree: they tell instances apart, not contents. *)
Theorem handles_share w i s :
  rtc step world0 w → slots w !! i = Some (OShared s) →
  (∃ v, deref (heap w) s = Some v) ∧
  strong_count (heap w) s = owners (slots w) (hashed s) ∧
  (strong_count (heap w) s = 1 ↔ ∀ j o, slots w !! j = Some o → addr_of o = hashed s → j = i) ∧
  ∀ j t, slots w !! j = Some (OShared t) →
    (ptr_eq s t = true ↔ hashed s = hashed t) ∧ eq s t = ptr_eq s t ∧
    ∀ f, deref (call (heap w) s f) t = if ptr_eq s t then f <$> deref (heap w) t else deref (heap w) t.
Proof.
  intros Hrun Hi.
  assert (Hw : counted w).
  { apply (rtc_invariant step counted _ _ step_counted Hrun). intros a. cbn. by rewrite lookup_empty. }
  destruct (owned_cell _ _ _ Hw Hi) as [c Hc]. cbn in Hc. pose proof (Hw (hashed s)) as Hcount.
  unfold hashed in Hcount at 1. rewrite Hc in Hcount. destruct Hcount as [Hcount _].
  unfold strong_count, arc_strong_count, deref. rewrite Hc. cbn [from_option fmap option_fmap option_map].
  split_and!; [by eexists|done| |].
  - rewrite Hcount, (owners_delete _ _ _ _ Hi), decide_True by done. split.
    + intros Hone j o Hj Ho. destruct (decide (j = i)) as [->|Hne]; [done|].
      assert (Hj' : delete i (slots w) !! j = Some o) by (by rewrite lookup_delete_ne).
      rewrite (owners_delete _ _ _ _ Hj'), decide_True in Hone by done. lia.
    + intros Hall. assert (H0 : owners (delete i (slots w)) (hashed s) = 0); [|lia].
      apply map_size_empty_iff, map_empty. intros j. apply map_lookup_filter_None. right. intros o Ho Hao.
      apply lookup_delete_Some in Ho as [Hne Ho]. by destruct Hne; symmetry; eapply Hall.
  - intros j t Hj. unfold ptr_eq, arc_ptr_eq, eq, hashed. rewrite bool_decide_eq_true. split_and!; [done|done|].
    intros f. unfold call. case_bool_decide as Ha.
    + rewrite <- Ha, lookup_alter_eq, Hc. done.
    + by rewrite lookup_alter_ne.
Qed.
End Handles.

(** An engine holds a cache, a test holds a clone; the first owner drops
    its handle. *)
Lemma handles_share_witness :
  let s := {| inner := {| arc_addr := 7 |} |} in
  ∃ w, rtc (step (T := nat)) world0 w ∧ slots w !! 1 = Some (OShared s) ∧ strong_count (heap w) s = 1 ∧
    ∀ f, deref (call (heap w) s f) s = f <$> deref (heap w) s.
Proof.
  intros s.
  set (w1 := {| heap := {[ 7 := Build_Cell 5 1 ]}; slots := {[ 0 := OShared s ]} |}).
  set (w2 := {| heap := {[ 7 := Build_Cell 5 2 ]}; slots := <[1 := OShared s]> (slots w1) |}).
  set (w3 := {| heap := {[ 7 := Build_Cell 5 1 ]}; slots := delete 0 (slots w2) |}).
  assert (Hrun : rtc (step (T := nat)) world0 w3).
  { eapply (rtc_l _ _ w1); [by apply (step_new world0 0 7 5)|].
    eapply (rtc_l _ _ w2); [by apply (step_clone w1 0 1 s)|].
    eapply (rtc_l _ _ w3); [by apply (step_drop w2 0 (OShared s))|reflexivity]. }
  exists w3. split; [exact Hrun|]. split; [done|].
  destruct (handles_share w3 1 s Hrun ltac:(done)) as (_ & _ & Hone & Hcall). split.
  - apply Hone. intros j o Hj _. destruct j as [|[|j]]; [by vm_compute in Hj|done|].
    cbn in Hj. rewrite lookup_delete_ne, lookup_insert_ne in Hj by done. by apply lookup_singleton_Some in Hj as [? _].
  - intros f. destruct (Hcall 1 s ltac:(done)) as (_ & _ & ->). unfold ptr_eq, arc_ptr_eq. by rewrite bool_decide_true.
Defined.
