(* ===== verification/Store.v ===== *)
(** * The reference stores

    - [InMemoryAssignmentStore] and [InMemoryRoleStore]:
      src/src/rbac/store/memory.rs;
    - [SimpleRole], [StaticPermissionRegistry] and [StaticRoleRegistry]:
      src/src/rbac/store/registry.rs.

    A [RwLock<HashMap<..>>] is a [gmap] in the state; a write under the lock
    is a function from the old state to the new one.  Where the code turns a
    hash map or set into a vector, [elements] stands for its unspecified
    iteration order. *)

From S2P Require Import Prelude Traits.

(** ** Assignments *)

Section AssignmentStore.
Context {S P : Type} `{Permission P, Subject S}.

Record InMemoryAssignmentStore := {
  role_assignments : gmap string (gset string);
  extra_perms : gmap string (gset P);
  denied_perms : gmap string (gset P);
}.

Definition InMemoryAssignmentStore_new : InMemoryAssignmentStore := {|
  role_assignments := ∅;
  extra_perms := ∅;
  denied_perms := ∅;
|}.

Definition mem_assign_role (st : InMemoryAssignmentStore) (s : S) (role : string)
    : result unit * InMemoryAssignmentStore :=
  let key := subject_id s in
  let roles := default ∅ (role_assignments st !! key) in
  (Ok tt, {|
    role_assignments := <[key := {[role]} ∪ roles]> (role_assignments st);
    extra_perms := extra_perms st;
    denied_perms := denied_perms st |}).

Definition mem_revoke_role (st : InMemoryAssignmentStore) (s : S) (role : string)
    : result unit * InMemoryAssignmentStore :=
  let key := subject_id s in
  match role_assignments st !! key with
  | Some roles =>
      (Ok tt, {|
        role_assignments :=
          <[key := filter (λ r, r ≠ role) roles]> (role_assignments st);
        extra_perms := extra_perms st;
        denied_perms := denied_perms st |})
  | None => (Ok tt, st)
  end.

Definition mem_roles_of (st : InMemoryAssignmentStore) (s : S) : result (list string) :=
  Ok (default [] (elements <$> role_assignments st !! subject_id s)).

Definition mem_subjects_with_role (st : InMemoryAssignmentStore) (role : string)
    : result (list string) :=
  Ok (fst <$> filter (λ row : string * gset string, role ∈ row.2) (map_to_list (role_assignments st))).

Definition mem_extra_permissions (st : InMemoryAssignmentStore) (s : S) : result (gset P) :=
  Ok (default ∅ (extra_perms st !! subject_id s)).

Definition mem_set_extra_permissions (st : InMemoryAssignmentStore) (s : S) (perms : gset P)
    : result unit * InMemoryAssignmentStore :=
  (Ok tt, {|
    role_assignments := role_assignments st;
    extra_perms := <[subject_id s := perms]> (extra_perms st);
    denied_perms := denied_perms st |}).

Definition mem_denied_permissions (st : InMemoryAssignmentStore) (s : S) : result (gset P) :=
  Ok (default ∅ (denied_perms st !! subject_id s)).

Definition mem_set_denied_permissions (st : InMemoryAssignmentStore) (s : S) (perms : gset P)
    : result unit * InMemoryAssignmentStore :=
  (Ok tt, {|
    role_assignments := role_assignments st;
    extra_perms := extra_perms st;
    denied_perms := <[subject_id s := perms]> (denied_perms st) |}).

#[export] Instance mem_assignment_store : AssignmentStore InMemoryAssignmentStore S P := {|
  assign_role := mem_assign_role;
  revoke_role := mem_revoke_role;
  roles_of := mem_roles_of;
  subjects_with_role := mem_subjects_with_role;
  extra_permissions := mem_extra_permissions;
  set_extra_permissions := mem_set_extra_permissions;
  denied_permissions := mem_denied_permissions;
  set_denied_permissions := mem_set_denied_permissions;
|}.

(** The abstract store: one row per subject id, empty when absent. *)
Definition mem_view (st : InMemoryAssignmentStore) (id : string) : Grants P := {|
  g_roles := default ∅ (role_assignments st !! id);
  g_extra := default ∅ (extra_perms st !! id);
  g_denied := default ∅ (denied_perms st !! id);
|}.

Lemma mem_roles_of_view st s l r :
  mem_roles_of st s = Ok l → r ∈ l ↔ r ∈ g_roles (mem_view st (subject_id s)).
Proof.
  unfold mem_roles_of. intros [= <-]. simpl.
  destruct (role_assignments st !! subject_id s); simpl; set_solver.
Qed.

Ltac row :=
  unfold mem_view, set_at; intros i; simpl; case_decide; subst;
  rewrite ?lookup_insert_eq, ?lookup_insert_ne by done; simpl.

Lemma mem_assign_role_view st st' s r :
  mem_assign_role st s r = (Ok tt, st') →
  ∀ i, mem_view st' i = set_at (mem_view st) (subject_id s)
    (Build_Grants ({[r]} ∪ g_roles (mem_view st (subject_id s)))
       (g_extra (mem_view st (subject_id s))) (g_denied (mem_view st (subject_id s)))) i.
Proof. unfold mem_assign_role. intros [= <-]. by row. Qed.

Lemma mem_revoke_role_view st st' s r :
  mem_revoke_role st s r = (Ok tt, st') →
  ∀ i, mem_view st' i = set_at (mem_view st) (subject_id s)
    (Build_Grants (g_roles (mem_view st (subject_id s)) ∖ {[r]})
       (g_extra (mem_view st (subject_id s))) (g_denied (mem_view st (subject_id s)))) i.
Proof.
  unfold mem_revoke_role. destruct (role_assignments st !! subject_id s) as [roles|] eqn:Hrow.
  - intros [= <-]. row; [|done]. rewrite Hrow. f_equal. set_solver.
  - intros [= <-]. row; [|done]. rewrite Hrow. f_equal. set_solver.
Qed.

#[export] Instance mem_assignment_store_laws :
  AssignmentStoreLaws InMemoryAssignmentStore S P.
Proof.
  refine {| store_view := mem_view |}.
  - intros. by apply mem_roles_of_view.
  - by intros st s e [= <-].
  - by intros st s d [= <-].
  - apply mem_assign_role_view.
  - apply mem_revoke_role_view.
  - intros st st' s ps [= <-]. by row.
  - intros st st' s ps [= <-]. by row.
Defined.
End AssignmentStore.
Arguments InMemoryAssignmentStore P {_ _}.
Arguments InMemoryAssignmentStore_new {P _ _}.

(** ** Role definitions *)

Section RoleStore.
Context {P : Type} `{Permission P}.

Record InMemoryRoleStore := { store_roles : gmap string (gset P) }.

Definition InMemoryRoleStore_new : InMemoryRoleStore := {| store_roles := ∅ |}.

(** An upsert: an existing role is overwritten (the code logs a warning). *)
Definition mem_create_role (st : InMemoryRoleStore) (role : string) (perms : gset P)
    : result unit * InMemoryRoleStore :=
  (Ok tt, {| store_roles := <[role := perms]> (store_roles st) |}).

Definition mem_delete_role (st : InMemoryRoleStore) (role : string)
    : result bool * InMemoryRoleStore :=
  (Ok (bool_decide (is_Some (store_roles st !! role))),
   {| store_roles := delete role (store_roles st) |}).

Definition mem_get_role_permissions (st : InMemoryRoleStore) (role : string)
    : result (option (gset P)) := Ok (store_roles st !! role).

Definition mem_list_roles (st : InMemoryRoleStore) : result (list string) :=
  Ok (elements (dom (store_roles st))).

#[export] Instance mem_role_store : RoleStore InMemoryRoleStore P := {|
  create_role := mem_create_role;
  delete_role := mem_delete_role;
  stored_role_permissions := mem_get_role_permissions;
  list_roles := mem_list_roles;
|}.
End RoleStore.
Arguments InMemoryRoleStore P {_ _}.

(** ** Static registries *)

Section Registry.
Context {P : Type} `{Permission P}.

Record SimpleRole := SimpleRole_new {
  simple_name : string;
  simple_permissions : gset P;
}.

#[export] Instance SimpleRole_role : Role SimpleRole P := {|
  role_name := simple_name;
  permissions := simple_permissions;
|}.

Record StaticPermissionRegistry := {
  known_permissions : gset P;
  by_name : gmap string P;
}.

(** [collect] into a map: a later pair replaces an earlier one. *)
Definition index_by_name (ps : list P) : gmap string P :=
  foldl (λ m p, <[perm_name p := p]> m) ∅ ps.

Definition StaticPermissionRegistry_new (perms : gset P) : StaticPermissionRegistry := {|
  known_permissions := perms;
  by_name := index_by_name (elements perms);
|}.

#[export] Instance static_permission_registry :
    PermissionRegistry StaticPermissionRegistry P := {|
  all_permissions := known_permissions;
  get_permission reg name := by_name reg !! name;
|}.

Lemma index_by_name_lookup `{!UniqueNames P} (ps : list P) n p :
  index_by_name ps !! n = Some p ↔ p ∈ ps ∧ perm_name p = n.
Proof.
  unfold index_by_name. induction ps as [|q ps IH] using rev_ind.
  { simpl. rewrite lookup_empty, elem_of_nil. naive_solver. }
  rewrite foldl_snoc, elem_of_app, list_elem_of_singleton, lookup_insert_Some, IH.
  split; [naive_solver|]. intros [[Hp| ->] Hn]; [|auto].
  destruct (decide (perm_name q = n)) as [Hq|]; [left|right; auto].
  split; [done|]. apply perm_name_inj. congruence.
Qed.

Context {R : Type} `{!Role R P}.

Record StaticRoleRegistry := {
  roles : gmap string R;
  parents : gmap string (list string);
}.

Definition StaticRoleRegistry_new : StaticRoleRegistry := {| roles := ∅; parents := ∅ |}.

Definition register (reg : StaticRoleRegistry) (role : R) : StaticRoleRegistry :=
  let name := role_name P role in
  {| parents := delete name (parents reg);
     roles := <[name := role]> (roles reg) |}.

Definition set_parents (reg : StaticRoleRegistry) (name : string) (ps : list string)
    : StaticRoleRegistry :=
  {| roles := roles reg; parents := <[name := ps]> (parents reg) |}.

Definition register_hierarchical `{!HierarchicalRole R P}
    (reg : StaticRoleRegistry) (role : R) : StaticRoleRegistry :=
  let name := role_name P role in
  let ps := parent_roles P role in
  {| parents := <[name := ps]> (parents reg);
     roles := <[name := role]> (roles reg) |}.

#[export] Instance static_role_registry : RoleRegistry StaticRoleRegistry P := {|
  get_role_permissions reg name := permissions <$> roles reg !! name;
  role_parents reg name := default [] (parents reg !! name);
  list_role_names reg := elements (dom (roles reg));
|}.

#[export] Instance static_role_registry_laws : RoleRegistryLaws StaticRoleRegistry P.
Proof.
  intros reg r perms Hr. simpl in *.
  apply elem_of_elements, elem_of_dom. apply fmap_Some in Hr as (role & Hrole & _). eauto.
Qed.
End Registry.
Arguments SimpleRole P {_ _}.
Arguments StaticPermissionRegistry P {_ _}.
Arguments StaticRoleRegistry R : clear implicits.

(** ** Writes, and their effect on the abstract store *)

Section Writes.
Context {St S P : Type} `{AssignmentStore St S P}.

Inductive admin_op :=
  | AssignRole (s : S) (role : string)
  | RevokeRole (s : S) (role : string)
  | SetExtra (s : S) (perms : gset P)
  | SetDenied (s : S) (perms : gset P).

Definition admin_subject (op : admin_op) : S :=
  match op with
  | AssignRole s _ | RevokeRole s _ | SetExtra s _ | SetDenied s _ => s
  end.

Definition admin_write (st : St) (op : admin_op) : result unit * St :=
  match op with
  | AssignRole s role => assign_role P st s role
  | RevokeRole s role => revoke_role P st s role
  | SetExtra s perms => set_extra_permissions st s perms
  | SetDenied s perms => set_denied_permissions st s perms
  end.

(** The same write on the abstract store. *)
Definition admin_spec (op : admin_op) (g : Grants P) : Grants P :=
  match op with
  | AssignRole _ role => Build_Grants ({[role]} ∪ g_roles g) (g_extra g) (g_denied g)
  | RevokeRole _ role => Build_Grants (g_roles g ∖ {[role]}) (g_extra g) (g_denied g)
  | SetExtra _ perms => Build_Grants (g_roles g) perms (g_denied g)
  | SetDenied _ perms => Build_Grants (g_roles g) (g_extra g) perms
  end.

Lemma admin_write_view `{!AssignmentStoreLaws St S P} (st st' : St) (op : admin_op) i :
  admin_write st op = (Ok tt, st') →
  store_view st' i =
    set_at (store_view st) (subject_id (admin_subject op))
      (admin_spec op (store_view st (subject_id (admin_subject op)))) i.
Proof.
  destruct op; intros Hw.
  - by apply assign_role_view.
  - by apply revoke_role_view.
  - by apply set_extra_view.
  - by apply set_denied_view.
Qed.
End Writes.
Arguments admin_op S P {_ _}.

(** ** Properties *)

Section Refinement.
Context {S P : Type} `{Permission P, Subject S}.

(** A run of writes on the in-memory store, and on the abstract one. *)
Definition run_store (ops : list (admin_op S P)) : InMemoryAssignmentStore P :=
  foldl (λ st op, (admin_write st op).2) InMemoryAssignmentStore_new ops.
Definition run_spec (ops : list (admin_op S P)) : string → Grants P :=
  foldl (λ view op,
    let id := subject_id (admin_subject op) in set_at view id (admin_spec op (view id)))
    (λ _, no_grants) ops.

Lemma mem_write_ok (st : InMemoryAssignmentStore P) (op : admin_op S P) :
  admin_write st op = (Ok tt, (admin_write st op).2).
Proof.
  destruct op; try done. simpl. unfold mem_revoke_role. by destruct (role_assignments st !! _).
Qed.

Lemma run_store_view ops i : mem_view (run_store ops) i = run_spec ops i.
Proof.
  revert i. induction ops as [|op ops IH] using rev_ind; intros i.
  - unfold run_store, run_spec, mem_view. simpl. by rewrite !lookup_empty.
  - assert (Hrun : run_store (ops ++ [op]) = (admin_write (run_store ops) op).2)
      by (unfold run_store; by rewrite foldl_snoc).
    assert (Hspec : run_spec (ops ++ [op]) =
      let id := subject_id (admin_subject op) in
      set_at (run_spec ops) id (admin_spec op (run_spec ops id))) by (unfold run_spec; by rewrite foldl_snoc).
    rewrite Hrun, Hspec.
    pose proof (admin_write_view (P := P) _ _ op i (mem_write_ok (run_store ops) op)) as Hview.
    simpl in Hview. rewrite Hview. unfold set_at. by rewrite !IH.
Qed.

(** After any run of writes, the in-memory store reads back exactly what
    the abstract store (one row of roles, extra grants and denies per
    subject id) holds. *)
Theorem memory_store_refines (ops : list (admin_op S P)) (s : S) :
  let g := run_spec ops (subject_id s) in
  (∃ l, roles_of P (run_store ops) s = Ok l ∧ NoDup l ∧ ∀ r, r ∈ l ↔ r ∈ g_roles g) ∧
  extra_permissions (run_store ops) s = Ok (g_extra g) ∧
  denied_permissions (run_store ops) s = Ok (g_denied g).
Proof.
  intros g. subst g. rewrite <- run_store_view. split_and!; [|done..].
  eexists. split; [done|]. split.
  - destruct (role_assignments (run_store ops) !! subject_id s); simpl;
      [apply NoDup_elements|constructor].
  - intros r. by apply mem_roles_of_view.
Qed.
End Refinement.
