(* ===== verification/Hierarchy.v ===== *)
(** * Role hierarchy: src/src/rbac/hierarchy/mod.rs

    [resolve_role_chain] (the explicit-stack walk) and [detect_cycle] (the
    recursive probe), over any [RoleRegistry].  Both take fuel; the registry's
    catalogue of names bounds it ([chain_fuel], [dfs_fuel]), and the two
    [_total] lemmas show that the bound is never exhausted.  [reach] is the
    relation both compute: one edge per parent of a known role. *)

From S2P Require Import Prelude Traits Catalog Store.

(** ** [HierarchyNode] *)

Section Node.
Context {P : Type} `{Permission P}.

Record HierarchyNode := {
  node_name : string;
  node_permissions : gset P;
  node_parents : list string;
}.

Definition HierarchyNode_new (n : string) (perms : gset P) : HierarchyNode :=
  {| node_name := n; node_permissions := perms; node_parents := [] |}.

Definition with_parents (node : HierarchyNode) (ps : list string) : HierarchyNode :=
  {| node_name := node_name node; node_permissions := node_permissions node;
     node_parents := ps |}.

#[export] Instance HierarchyNode_role : Role HierarchyNode P := {|
  role_name := node_name;
  permissions := node_permissions;
|}.

#[export] Instance HierarchyNode_hierarchical : HierarchicalRole HierarchyNode P :=
  node_parents.
End Node.
Arguments HierarchyNode P {_ _}.

Section Walk.
Context {R P : Type} `{RoleRegistry R P}.
Implicit Types (reg : R) (name : string) (visited path : gset string).

Definition known reg name : Prop := is_Some (get_role_permissions reg name : option (gset P)).

(** The edges both functions follow: parents are read for known roles. *)
Definition edge reg a b : Prop := known reg a ∧ b ∈ role_parents P reg a.
Definition reach reg : relation string := rtc (edge reg).

(** ** [resolve_role_chain] *)

(** One [while let Some(current) = stack.pop()] iteration; the head of the
    list is the top of the stack, so pushing the parents in order puts the
    last one on top. *)
Fixpoint chain_walk (fuel : nat) reg (all_perms : gset P) visited (stack : list string)
    : option (gset P) :=
  match stack with
  | [] => Some all_perms
  | current :: rest =>
      match fuel with
      | 0 => None
      | Datatypes.S fuel =>
          if decide (current ∈ visited) then chain_walk fuel reg all_perms visited rest
          else
            let visited := {[current]} ∪ visited in
            match get_role_permissions reg current with
            | Some perms =>
                let pushed := filter (λ p, p ∉ visited) (role_parents P reg current) in
                chain_walk fuel reg (perms ∪ all_perms) visited (reverse pushed ++ rest)
            | None => chain_walk fuel reg all_perms visited rest
            end
      end
  end.

(** Pops: the initial name, and every parent of a known role once. *)
Definition parents_of_all reg (names : list string) : nat :=
  sum_list_with (λ r, length (role_parents P reg r)) names.
Definition chain_fuel reg : nat :=
  Datatypes.S (parents_of_all reg (elements (list_to_set (list_role_names P reg) : gset string))).

Definition resolve_role_chain name reg : gset P :=
  default ∅ (chain_walk (chain_fuel reg) reg ∅ ∅ [name]).

(** ** [detect_cycle] *)

(** The [for parent in ..] loop of [dfs]: the first [true] returns. *)
Section Dfs.
Variable probe : string → gset string → gset string → option (bool * gset string * gset string).
Fixpoint dfs_parents (parents : list string) visited path
    : option (bool * gset string * gset string) :=
  match parents with
  | [] => Some (false, visited, path)
  | parent :: rest =>
      match probe parent visited path with
      | Some (true, visited, path) => Some (true, visited, path)
      | Some (false, visited, path) => dfs_parents rest visited path
      | None => None
      end
  end.
End Dfs.

Fixpoint dfs (fuel : nat) reg name visited path
    : option (bool * gset string * gset string) :=
  match fuel with
  | 0 => None
  | Datatypes.S fuel =>
      if decide (name ∈ path) then Some (true, visited, path)
      else if decide (name ∈ visited) then Some (false, visited, path)
      else
        let visited := {[name]} ∪ visited in
        let path := {[name]} ∪ path in
        let parents :=
          match get_role_permissions reg name : option (gset P) with
          | Some _ => role_parents P reg name
          | None => []
          end in
        match dfs_parents (dfs fuel reg) parents visited path with
        | Some (true, visited, path) => Some (true, visited, path)
        | Some (false, visited, path) => Some (false, visited, path ∖ {[name]})
        | None => None
        end
  end.

(** The path holds known roles only while a call is nested below them. *)
Definition dfs_fuel reg : nat :=
  2 + size (list_to_set (list_role_names P reg) : gset string).

Definition detect_cycle name reg : bool :=
  match dfs (dfs_fuel reg) reg name ∅ ∅ with
  | Some (b, _, _) => b
  | None => false
  end.
End Walk.
Arguments known {R} P {_ _ _ _} _ _.
Arguments edge {R} P {_ _ _ _} _ _ _.
Arguments reach {R} P {_ _ _ _} _ _ _.
Arguments detect_cycle {R} P {_ _ _ _} _ _.
Arguments dfs {R} P {_ _ _ _} _ _ _ _ _.
Arguments dfs_fuel {R} P {_ _ _ _} _.
Arguments chain_fuel {R} P {_ _ _ _} _.
Arguments parents_of_all {R} P {_ _ _ _} _ _.

(** ** Correctness of the walk *)

Section WalkCorrect.
Context {R P : Type} `{RoleRegistry R P}.
Implicit Types (reg : R) (name : string) (visited path : gset string).

Definition holds_perm reg (p : P) r : Prop :=
  ∃ perms : gset P, get_role_permissions reg r = Some perms ∧ p ∈ perms.

(** What the loop maintains about its three variables. *)
Record chain_inv reg name (all_perms : gset P) visited (stack : list string) : Prop := {
  inv_reach : ∀ r, r ∈ visited ∨ r ∈ stack → reach P reg name r;
  inv_start : name ∈ visited ∨ name ∈ stack;
  inv_closed : ∀ a b, a ∈ visited → edge P reg a b → b ∈ visited ∨ b ∈ stack;
  inv_perms : ∀ p, p ∈ all_perms ↔ ∃ r, r ∈ visited ∧ holds_perm reg p r;
}.

Lemma chain_inv_init reg name : chain_inv reg name ∅ ∅ [name].
Proof.
  split; [|set_solver..].
  intros r [?%elem_of_empty| ->%list_elem_of_singleton]; [done|apply rtc_refl].
Qed.

(** A repeated or unknown name only leaves the stack. *)
Lemma chain_inv_skip reg name all_perms visited current rest :
  chain_inv reg name all_perms visited (current :: rest) →
  current ∈ visited → chain_inv reg name all_perms visited rest.
Proof.
  intros [Hr Hs Hc Hp] Hin. split; [|..|done].
  - intros r Hr'. apply Hr. set_solver.
  - set_solver.
  - intros a b Ha Hab. specialize (Hc a b Ha Hab). set_solver.
Qed.

Lemma chain_inv_unknown reg name all_perms visited current rest :
  chain_inv reg name all_perms visited (current :: rest) →
  get_role_permissions reg current = @None (gset P) →
  chain_inv reg name all_perms ({[current]} ∪ visited) rest.
Proof.
  intros [Hr Hs Hc Hp] Hnone. split.
  - intros r Hr'. apply Hr. set_solver.
  - set_solver.
  - intros a b Ha Hab. destruct (decide (a = current)) as [->|].
    + destruct Hab as [[? Hk] _]. congruence.
    + specialize (Hc a b). set_solver.
  - intros p. rewrite Hp. split; [set_solver|].
    intros (r & [->%elem_of_singleton|Hin]%elem_of_union & perms & Hr' & Hpp); [congruence|].
    exists r. split; [done|by exists perms].
Qed.

Lemma chain_inv_expand reg name all_perms visited current rest perms :
  chain_inv reg name all_perms visited (current :: rest) →
  get_role_permissions reg current = Some perms →
  chain_inv reg name (perms ∪ all_perms) ({[current]} ∪ visited)
    (reverse (filter (λ p, p ∉ {[current]} ∪ visited) (role_parents P reg current)) ++ rest).
Proof.
  intros [Hr Hs Hc Hp] Hk.
  assert (Hcur : reach P reg name current) by (apply Hr; right; constructor).
  assert (Hknown : known P reg current) by (by exists perms).
  split.
  - intros r. rewrite elem_of_app, elem_of_reverse, list_elem_of_filter.
    intros [Hv|[[_ Hpar]|Hrest]]; [apply Hr; set_solver| |apply Hr; set_solver].
    eapply rtc_r; [exact Hcur|]. by split.
  - set_solver.
  - intros a b Ha Hab. rewrite elem_of_app, elem_of_reverse, list_elem_of_filter.
    destruct (decide (b ∈ {[current]} ∪ visited)) as [|Hnew]; [by left|].
    destruct (decide (a = current)) as [->|].
    + destruct Hab as [_ Hb]. right. left. by split.
    + specialize (Hc a b). set_solver.
  - intros p. rewrite elem_of_union, Hp. split.
    + intros [Hpp|(r & Hv & Hh)]; [exists current|exists r]; split; [set_solver| |set_solver|done].
      by exists perms.
    + intros (r & [->%elem_of_singleton|Hin]%elem_of_union & Hh); [|eauto].
      destruct Hh as (perms' & Hk' & Hpp). left. by simplify_eq.
Qed.

Lemma chain_inv_done reg name all_perms visited p :
  chain_inv reg name all_perms visited [] →
  p ∈ all_perms ↔ ∃ r, reach P reg name r ∧ holds_perm reg p r.
Proof.
  intros [Hr Hs Hc Hp]. rewrite Hp. split.
  - intros (r & Hv & Hh). exists r. split; [apply Hr; by left|done].
  - intros (r & Hreach & Hh). exists r. split; [|done].
    assert (Hstart : name ∈ visited) by set_solver. clear Hh Hp Hr Hs.
    induction Hreach as [|a b c Hab _ IH]; [done|]. apply IH.
    destruct (Hc a b Hstart Hab); [done|set_solver].
Qed.

Lemma chain_walk_spec fuel reg name all_perms visited stack out :
  chain_inv reg name all_perms visited stack →
  chain_walk fuel reg all_perms visited stack = Some out →
  ∀ p, p ∈ out ↔ ∃ r, reach P reg name r ∧ holds_perm reg p r.
Proof.
  revert all_perms visited stack.
  induction fuel as [|fuel IH]; intros all_perms visited [|current rest] Hinv; simpl;
    try done.
  1,2: intros [= <-] p; by eapply chain_inv_done.
  case_decide as Hv; [by apply IH; eapply chain_inv_skip|].
  destruct (get_role_permissions reg current) as [perms|] eqn:Hk; apply IH.
  - by apply chain_inv_expand.
  - by apply chain_inv_unknown.
Qed.

(** *** Termination *)

Definition weight reg (names : gset string) : nat := parents_of_all P reg (elements names).

Lemma weight_extract reg names r :
  r ∈ names → weight reg names = length (role_parents P reg r) + weight reg (names ∖ {[r]}).
Proof.
  intros Hr. unfold weight, parents_of_all.
  assert (Hperm : elements names ≡ₚ r :: elements (names ∖ {[r]})).
  { rewrite <- elements_union_singleton by set_solver. f_equiv.
    by rewrite <- union_difference_singleton. }
  rewrite Hperm. done.
Qed.

Lemma weight_mono reg names names' : names ⊆ names' → weight reg names ≤ weight reg names'.
Proof.
  intros Hsub. unfold weight, parents_of_all.
  rewrite (union_difference_L names names' Hsub), elements_disj_union by set_solver.
  rewrite sum_list_with_app. lia.
Qed.

Context `{!RoleRegistryLaws R P}.

Definition catalogue reg : gset string := list_to_set (list_role_names P reg).

Lemma known_in_catalogue reg r : known P reg r → r ∈ catalogue reg.
Proof. intros [perms Hr]. apply elem_of_list_to_set. by eapply known_role_listed. Qed.

Lemma chain_walk_total fuel reg all_perms visited stack :
  length stack + weight reg (catalogue reg ∖ visited) ≤ fuel →
  is_Some (chain_walk fuel reg all_perms visited stack).
Proof.
  revert all_perms visited stack.
  induction fuel as [|fuel IH]; intros all_perms visited [|current rest] Hle; simpl in *;
    [done|lia|done|].
  case_decide as Hv; [apply IH; lia|].
  assert (Hmono : weight reg (catalogue reg ∖ ({[current]} ∪ visited))
                  ≤ weight reg (catalogue reg ∖ visited)) by (apply weight_mono; set_solver).
  destruct (get_role_permissions reg current) as [perms|] eqn:Hk; apply IH; [|lia].
  rewrite length_app, length_reverse.
  assert (Hcat : current ∈ catalogue reg) by (apply known_in_catalogue; by exists perms).
  rewrite (weight_extract reg (catalogue reg ∖ visited) current) in Hle by set_solver.
  replace (catalogue reg ∖ visited ∖ {[current]})
    with (catalogue reg ∖ ({[current]} ∪ visited)) in Hle by set_solver.
  pose proof (length_filter (λ p, p ∉ {[current]} ∪ visited) (role_parents P reg current)). lia.
Qed.

(** The fuel of [resolve_role_chain] is never exhausted. *)
Lemma resolve_role_chain_total reg name :
  chain_walk (chain_fuel P reg) reg ∅ ∅ [name] = Some (resolve_role_chain name reg).
Proof.
  unfold resolve_role_chain.
  destruct (chain_walk_total (chain_fuel P reg) reg ∅ ∅ [name]) as [out ->]; [|done].
  simpl. unfold chain_fuel, weight. by rewrite difference_empty_L.
Qed.

Lemma resolve_role_chain_elem reg name p :
  p ∈ resolve_role_chain name reg ↔ ∃ r, reach P reg name r ∧ holds_perm reg p r.
Proof.
  eapply chain_walk_spec; [apply chain_inv_init|apply resolve_role_chain_total].
Qed.
End WalkCorrect.

(** ** Correctness of the cycle probe *)

Section DfsCorrect.
Context {R P : Type} `{RoleRegistry R P}.
Implicit Types (reg : R) (name : string) (visited path : gset string).

Abbreviation state := (bool * gset string * gset string)%type.

(** A call that answers [false] leaves the path as it found it. *)
Lemma dfs_parents_path probe parents visited path visited' path' :
  (∀ p v pa v' pa', probe p v pa = Some (false, v', pa') → pa' = pa) →
  dfs_parents probe parents visited path = Some (false, visited', path') → path' = path.
Proof.
  intros Hprobe. revert visited path. induction parents as [|p ps IH]; intros v pa; simpl.
  - by intros [= _ ->].
  - destruct (probe p v pa) as [[[[] v1] pa1]|] eqn:Hp; [done| |done].
    intros Hps. apply Hprobe in Hp as ->. by eapply IH.
Qed.

Lemma dfs_path fuel reg name visited path visited' path' :
  dfs P fuel reg name visited path = Some (false, visited', path') → path' = path.
Proof.
  revert name visited path visited' path'.
  induction fuel as [|fuel IH]; intros name visited path visited' path'; simpl; [done|].
  case_decide as Hp; [done|]. case_decide as Hv; [by intros [= _ ->]|].
  destruct (dfs_parents _ _ _ _) as [[[[] v1] pa1]|] eqn:Hps; [done| |done].
  intros [= -> <-]. apply dfs_parents_path in Hps as ->; [set_solver|].
  intros p v pa v' pa'. apply IH.
Qed.

(** The finished (black) names: closed under edges and on no cycle. *)
Record black_inv reg visited path : Prop := {
  black_path : path ⊆ visited;
  black_closed : ∀ x y, x ∈ visited ∖ path → edge P reg x y → y ∈ visited ∖ path;
  black_acyclic : ∀ x, x ∈ visited ∖ path → ¬ tc (edge P reg) x x;
}.

Lemma black_reach reg visited path x y :
  black_inv reg visited path → x ∈ visited ∖ path → reach P reg x y → y ∈ visited ∖ path.
Proof.
  intros Hb Hx Hreach. induction Hreach as [|a b c Hab _ IH]; [done|].
  apply IH. by eapply black_closed.
Qed.

Definition dfs_false_post reg (names : list string) visited path visited' path' : Prop :=
  path' = path ∧ visited ⊆ visited' ∧
  (∀ n, n ∈ names → n ∈ visited' ∖ path) ∧ black_inv reg visited' path.

Lemma dfs_parents_false reg probe parents visited path visited' path' :
  (∀ p v pa v' pa', probe p v pa = Some (false, v', pa') →
     black_inv reg v pa → dfs_false_post reg [p] v pa v' pa') →
  dfs_parents probe parents visited path = Some (false, visited', path') →
  black_inv reg visited path → dfs_false_post reg parents visited path visited' path'.
Proof.
  intros Hprobe. revert visited path. induction parents as [|p ps IH]; intros v pa; simpl.
  - intros [= -> ->] Hb. split_and!; [done|done|set_solver|done].
  - destruct (probe p v pa) as [[[[] v1] pa1]|] eqn:Hp; [done| |done].
    intros Hps Hb. apply Hprobe in Hp as (-> & Hv1 & Hin & Hb1); [|done].
    destruct (IH _ _ Hps Hb1) as (-> & Hv2 & Hin2 & Hb2).
    split_and!; [done|set_solver| |done]. set_solver.
Qed.

(** Entering a name turns it grey; leaving it turns it black. *)
Lemma black_enter reg name visited path :
  name ∉ visited → black_inv reg visited path →
  black_inv reg ({[name]} ∪ visited) ({[name]} ∪ path).
Proof.
  intros Hn [Hp Hc Ha].
  assert (Heq : ({[name]} ∪ visited) ∖ ({[name]} ∪ path) = visited ∖ path) by set_solver.
  split; [set_solver|..]; rewrite Heq; done.
Qed.

Lemma black_leave reg name visited path :
  name ∈ visited → name ∉ path →
  (∀ y, edge P reg name y → y ∈ visited ∖ ({[name]} ∪ path)) →
  black_inv reg visited ({[name]} ∪ path) → black_inv reg visited path.
Proof.
  intros Hv Hn Hedges Hb. pose proof Hb as [Hp Hc Ha].
  assert (Hcase : ∀ x, x ∈ visited ∖ path →
    x = name ∨ x ∈ visited ∖ ({[name]} ∪ path)).
  { intros x Hx. destruct (decide (x = name)); [by left|right; clear -Hx n; set_solver]. }
  split; [set_solver|..].
  - intros x y [->|Hx]%Hcase Hxy; [apply Hedges in Hxy|apply (Hc x) in Hxy]; set_solver.
  - intros x [->|Hx]%Hcase Hcyc; [|by apply (Ha x)].
    inversion Hcyc as [? ? Hstep|? y ? Hstep Hrest]; subst.
    + apply Hedges in Hstep. set_solver.
    + apply Hedges in Hstep. apply tc_rtc in Hrest.
      eapply black_reach in Hrest; [|done..]. set_solver.
Qed.

Lemma dfs_false fuel reg name visited path visited' path' :
  dfs P fuel reg name visited path = Some (false, visited', path') →
  black_inv reg visited path →
  dfs_false_post reg [name] visited path visited' path'.
Proof.
  revert name visited path visited' path'.
  induction fuel as [|fuel IH]; intros name visited path visited' path'; simpl; [done|].
  case_decide as Hp; [done|]. case_decide as Hv.
  { intros [= -> ->] Hb. split_and!; [done|done|set_solver|done]. }
  destruct (dfs_parents _ _ _ _) as [[[[] v1] pa1]|] eqn:Hps; [done| |done].
  intros [= -> <-] Hb.
  apply (dfs_parents_false reg) in Hps as (-> & Hsub & Hin & Hb'); [|apply IH|by apply black_enter].
  split_and!; [set_solver..|].
  apply (black_leave reg name); [set_solver|done| |done].
  intros y [[perms Hk] Hy]. apply Hin. by rewrite Hk.
Qed.

(** A back edge closes a cycle: every name on the path leads to the
    current one. *)
Lemma dfs_parents_true reg fuel name parents visited path visited' path' :
  dfs_parents (dfs P fuel reg) parents visited path = Some (true, visited', path') →
  ∃ p v v' pa', p ∈ parents ∧ dfs P fuel reg p v path = Some (true, v', pa').
Proof.
  revert visited. induction parents as [|p ps IH]; intros v; simpl; [done|].
  destruct (dfs P fuel reg p v path) as [[[[] v1] pa1]|] eqn:Hp; [|..|done].
  - intros _. exists p, v, v1, pa1. split; [constructor|done].
  - intros Hps. apply dfs_path in Hp as ->.
    destruct (IH _ Hps) as (q & v2 & v' & pa' & Hq & Hd).
    exists q, v2, v', pa'. split; [by constructor|done].
Qed.

Lemma dfs_true fuel reg name visited path visited' path' :
  dfs P fuel reg name visited path = Some (true, visited', path') →
  (∀ x, x ∈ path → tc (edge P reg) x name) →
  ∃ r, reach P reg name r ∧ tc (edge P reg) r r.
Proof.
  revert name visited path visited' path'.
  induction fuel as [|fuel IH]; intros name visited path visited' path'; simpl; [done|].
  case_decide as Hp.
  { intros _ Hpath. exists name. split; [apply rtc_refl|auto]. }
  case_decide as Hv; [done|].
  destruct (dfs_parents _ _ _ _) as [[[[] v1] pa1]|] eqn:Hps; [|done..].
  intros _ Hpath. apply dfs_parents_true in Hps as (y & v & v' & pa' & Hy & Hd); [|exact name].
  assert (Hedge : edge P reg name y).
  { destruct (get_role_permissions reg name) as [perms|] eqn:Hk; [|set_solver].
    split; [by exists perms|done]. }
  apply IH in Hd as (r & Hr & Hcyc).
  - exists r. split; [by eapply rtc_l|done].
  - intros x [->%elem_of_singleton|Hx]%elem_of_union; [by apply tc_once|].
    eapply tc_r; [by apply Hpath|done].
Qed.
End DfsCorrect.

Section DfsTotal.
Context {R P : Type} `{RoleRegistry R P, !RoleRegistryLaws R P}.
Implicit Types (reg : R) (name : string) (visited path : gset string).

Lemma dfs_parents_total reg fuel parents visited path :
  (∀ p v, is_Some (dfs P fuel reg p v path)) →
  is_Some (dfs_parents (dfs P fuel reg) parents visited path).
Proof.
  intros Hprobe. revert visited. induction parents as [|p ps IH]; intros v; simpl; [by eexists|].
  destruct (Hprobe p v) as [[[[] v1] pa1] Hp]; rewrite Hp; [by eexists|].
  apply dfs_path in Hp as ->. apply IH.
Qed.

Lemma dfs_total fuel reg name visited path :
  path ⊆ catalogue reg →
  2 + size (catalogue reg) ≤ fuel + size path →
  is_Some (dfs P fuel reg name visited path).
Proof.
  revert name visited path.
  induction fuel as [|fuel IH]; intros name visited path Hsub Hle; simpl.
  { pose proof (subseteq_size _ _ Hsub). lia. }
  case_decide as Hp; [by eexists|]. case_decide as Hv; [by eexists|].
  assert (Htot : is_Some (dfs_parents (dfs P fuel reg)
    match get_role_permissions reg name : option (gset P) with
    | Some _ => role_parents P reg name | None => [] end
    ({[name]} ∪ visited) ({[name]} ∪ path))).
  { destruct (get_role_permissions reg name) as [perms|] eqn:Hk; [|by eexists].
    assert (name ∈ catalogue reg) by (apply known_in_catalogue; by exists perms).
    apply dfs_parents_total. intros p v. apply IH; [set_solver|].
    rewrite size_union, size_singleton by set_solver. lia. }
  destruct Htot as [[[[] v1] pa1] ->]; by eexists.
Qed.

(** The fuel of [detect_cycle] is never exhausted. *)
Lemma detect_cycle_total reg name :
  ∃ v pa, dfs P (dfs_fuel P reg) reg name ∅ ∅ = Some (detect_cycle P name reg, v, pa).
Proof.
  unfold detect_cycle.
  destruct (dfs_total (dfs_fuel P reg) reg name ∅ ∅) as [[[b v] pa] ->]; [set_solver| |eauto].
  rewrite size_empty. unfold dfs_fuel, catalogue. lia.
Qed.

Lemma detect_cycle_spec reg name :
  detect_cycle P name reg = true ↔ ∃ r, reach P reg name r ∧ tc (edge P reg) r r.
Proof.
  destruct (detect_cycle_total reg name) as (v & pa & Hd). split.
  - intros Hb. rewrite Hb in Hd. eapply dfs_true; [exact Hd|set_solver].
  - intros (r & Hr & Hcyc). apply not_false_iff_true. intros Hb. rewrite Hb in Hd.
    apply dfs_false in Hd as (_ & _ & Hin & Hblack); [|split; set_solver].
    eapply black_acyclic; [exact Hblack| |exact Hcyc].
    eapply black_reach; [done| |exact Hr]. apply Hin. constructor.
Qed.
End DfsTotal.

(** ** Properties *)

Section HierarchyProperties.
Context {R P : Type} `{RoleRegistry R P, !RoleRegistryLaws R P}.

(** C34: [resolve_role_chain] terminates within [chain_fuel] iterations,
    cycles included, and returns the union of the permissions of the roles
    reachable through the parents of known roles. *)
Theorem resolve_role_chain_is_reachable_union (reg : R) name (p : P) :
  chain_walk (chain_fuel P reg) reg ∅ ∅ [name] = Some (resolve_role_chain name reg) ∧
  (p ∈ resolve_role_chain name reg ↔ ∃ r, reach P reg name r ∧ holds_perm reg p r).
Proof. split; [apply resolve_role_chain_total|apply resolve_role_chain_elem]. Qed.

(** C35: [detect_cycle] terminates within [dfs_fuel] nested calls and answers
    [true] exactly when a role on a parent cycle is reachable. *)
Theorem detect_cycle_iff_reachable_cycle (reg : R) name :
  (∃ v pa, dfs P (dfs_fuel P reg) reg name ∅ ∅ = Some (detect_cycle P name reg, v, pa)) ∧
  (detect_cycle P name reg = true ↔ ∃ r, reach P reg name r ∧ tc (edge P reg) r r).
Proof. split; [apply detect_cycle_total|apply detect_cycle_spec]. Qed.
End HierarchyProperties.

(** Two roles that are each other's parent. *)
Module Ring.
Definition registry : StaticRoleRegistry (SimpleRole KirinoPermission) :=
  let reg := register (P := KirinoPermission) StaticRoleRegistry_new
               (SimpleRole_new "lead" {[Agent Agent.Write]}) in
  let reg := register (P := KirinoPermission) reg
               (SimpleRole_new "deputy" {[Agent Agent.Read]}) in
  set_parents (set_parents reg "lead" ["deputy"]) "deputy" ["lead"].
End Ring.

Lemma resolve_role_chain_is_reachable_union_witness :
  Agent Agent.Read ∈ resolve_role_chain (P := KirinoPermission) "lead" Ring.registry.
Proof.
  apply (resolve_role_chain_is_reachable_union Ring.registry "lead" (Agent Agent.Read)).
  exists "deputy". split.
  - apply rtc_once. split; [by eexists|by left].
  - exists {[Agent Agent.Read]}. split; [reflexivity|by apply elem_of_singleton_2].
Defined.

Lemma detect_cycle_iff_reachable_cycle_witness :
  detect_cycle KirinoPermission "lead" Ring.registry = true.
Proof.
  apply (detect_cycle_iff_reachable_cycle (P := KirinoPermission) Ring.registry "lead").
  exists "lead". split; [apply rtc_refl|].
  eapply tc_l; [|apply tc_once]; (split; [by eexists|by left]).
Defined.

Section Reregister.
Context {P Ro : Type} `{Permission P, !Role Ro P}.

(** Registering a role again drops the parents it had: it resolves to
    its own permissions and nothing inherited. *)
Theorem register_drops_inheritance (reg : StaticRoleRegistry Ro) (role : Ro) :
  resolve_role_chain (role_name P role) (register (P := P) reg role) = permissions role.
Proof.
  assert (Hget : get_role_permissions (register (P := P) reg role) (role_name P role)
                 = Some (permissions role)).
  { simpl. by rewrite lookup_insert_eq. }
  apply set_eq. intros p. rewrite resolve_role_chain_elem. split.
  - intros (r & Hreach & perms & Hr & Hp).
    inversion Hreach as [|? b ? [_ Hb] _]; subst; [by simplify_eq|].
    simpl in Hb. rewrite lookup_delete_eq in Hb. by apply elem_of_nil in Hb.
  - intros Hp. exists (role_name P role). split; [apply rtc_refl|].
    by exists (permissions role).
Qed.
End Reregister.
