(* ===== verification/Cache.v ===== *)
(** * The permission cache: src/src/rbac/cache.rs

    [TtlPermissionCache] and its implementation of the cache contract of
    [Traits].  [Instant]s are integers (nanoseconds); each reading of the
    clock is an argument. *)

From S2P Require Import Prelude Traits.

Definition DEFAULT_MAX_CACHE_ENTRIES : nat := 10 * 1000.

(** (subject id, permission name) *)
Abbreviation cache_key := (string * string)%type.

Record CacheEntry := {
  granted : bool;
  expires_at : Z;
}.

Record TtlPermissionCache := {
  entries : gmap cache_key CacheEntry;
  max_entries : nat;
  ttl : Z;
}.

Definition TtlPermissionCache_new (ttl : Z) : TtlPermissionCache :=
  {| entries := ∅; max_entries := DEFAULT_MAX_CACHE_ENTRIES; ttl := ttl |}.

Definition with_max_entries (c : TtlPermissionCache) (n : nat) : TtlPermissionCache :=
  {| entries := entries c; max_entries := n; ttl := ttl c |}.

Definition with_entries (c : TtlPermissionCache) (m : gmap cache_key CacheEntry)
    : TtlPermissionCache :=
  {| entries := m; max_entries := max_entries c; ttl := ttl c |}.

(** [cache.get(&key).and_then(..)]: an expired entry reads as a miss. *)
Definition get_at (c : TtlPermissionCache) (now : Z) (key : cache_key) : option bool :=
  match entries c !! key with
  | Some entry => if decide (now < expires_at entry)%Z then Some (granted entry) else None
  | None => None
  end.

(** [cache.retain(|_, entry| now < entry.expires_at)] *)
Definition purge_expired (now : Z) (m : gmap cache_key CacheEntry) : gmap cache_key CacheEntry :=
  filter (λ kv : cache_key * CacheEntry, (now < expires_at kv.2)%Z) m.

(** The heap loop: push every (expiry, key), pop the largest whenever more
    than [excess] are held. *)
Definition heap_step (excess : nat) (heap : list (Z * cache_key)) (item : Z * cache_key)
    : list (Z * cache_key) :=
  let heap := heap_push item heap in
  if decide (excess < length heap) then heap_pop heap else heap.

Definition heap_items (m : gmap cache_key CacheEntry) : list (Z * cache_key) :=
  (λ kv : cache_key * CacheEntry, (expires_at kv.2, kv.1)) <$> map_to_list m.

Definition soonest (excess : nat) (items : list (Z * cache_key)) : list (Z * cache_key) :=
  foldl (heap_step excess) [] items.

Definition remove_all (heap : list (Z * cache_key)) (m : gmap cache_key CacheEntry)
    : gmap cache_key CacheEntry :=
  foldl (λ m item, delete item.2 m) m heap.

(** The tail of [set], after the insertion. *)
Definition enforce_cap (c : TtlPermissionCache) (now : Z) (m : gmap cache_key CacheEntry)
    : gmap cache_key CacheEntry :=
  if decide (max_entries c < size m) then
    let m := purge_expired now m in
    if decide (max_entries c < size m) then
      let excess := size m - max_entries c in
      remove_all (soonest excess (heap_items m)) m
    else m
  else m.

(** The first step of [set]: an entry that has expired is removed. *)
Definition drop_stale (c : TtlPermissionCache) (now : Z) (key : cache_key)
    : gmap cache_key CacheEntry :=
  match entries c !! key with
  | Some existing =>
      if decide (expires_at existing ≤ now)%Z then delete key (entries c) else entries c
  | None => entries c
  end.

Definition set_at_key (c : TtlPermissionCache) (clk : SetClock) (key : cache_key) (b : bool)
    : TtlPermissionCache :=
  let m := drop_stale c (now_replace clk) key in
  let m := <[key := {| granted := b; expires_at := now_insert clk + ttl c |}]> m in
  with_entries c (enforce_cap c (now_evict clk) m).

Definition drop_subject (c : TtlPermissionCache) (sid : string) : TtlPermissionCache :=
  with_entries c (filter (λ kv : cache_key * CacheEntry, kv.1.1 ≠ sid) (entries c)).

Definition clear (c : TtlPermissionCache) : TtlPermissionCache := with_entries c ∅.

Section Instance_.
Context {S P : Type} `{Permission P, Subject S}.

Definition key_of (s : S) (p : P) : cache_key := (subject_id s, perm_name p).

#[export] Instance ttl_permission_cache : PermissionCache TtlPermissionCache S P := {|
  cache_get c now s p := get_at c now (key_of s p);
  cache_set c clk s p b := set_at_key c clk (key_of s p) b;
  invalidate_subject c s := drop_subject c (subject_id s);
  invalidate_all := clear;
|}.
End Instance_.

(** ** The heap loop keeps the smallest items *)

Section Soonest.
Implicit Types (excess : nat) (items heap rest : list (Z * cache_key)).

Definition soonest_inv excess items heap rest : Prop :=
  items ≡ₚ heap ++ rest ∧ is_heap heap ∧ length heap ≤ excess ∧
  (rest ≠ [] → length heap = excess) ∧
  ∀ x y, x ∈ heap → y ∈ rest → le_of x y.

Lemma heap_step_inv excess items heap rest item :
  soonest_inv excess items heap rest →
  ∃ rest', soonest_inv excess (items ++ [item]) (heap_step excess heap item) rest'.
Proof.
  intros (Hperm & Hheap & Hlen & Hfull & Hle). unfold heap_step.
  pose proof (heap_push_perm item heap) as Hpush.
  pose proof (heap_push_sorted item heap Hheap) as Hsorted.
  assert (Hl : length (heap_push item heap) = Datatypes.S (length heap)) by by rewrite Hpush.
  assert (Hall : items ++ [item] ≡ₚ heap_push item heap ++ rest).
  { rewrite Hpush, Hperm. simpl. by rewrite Permutation_app_comm. }
  remember (heap_push item heap) as pushed eqn:Epushed.
  case_decide as Hov.
  - destruct (heap_pop_max _ Hsorted) as (m & Hm & Hsort' & Hmax); [by intros ->|].
    remember (heap_pop pushed) as popped eqn:Epopped. clear Epushed Epopped.
    exists (m :: rest). rewrite Hl in Hov. rewrite Hm in Hl. simpl in Hl.
    split_and!; [|done|lia|intros; lia|].
    + rewrite Hall, Hm. apply Permutation_middle.
    + intros x y Hx [->|Hy]%elem_of_cons; [by apply Hmax|].
      assert (Hin : x ∈ item :: heap) by (rewrite <- Hpush, Hm; by right).
      apply elem_of_cons in Hin as [->|Hx']; [|auto].
      assert (Hmin : m ∈ item :: heap) by (rewrite <- Hpush, Hm; left).
      apply elem_of_cons in Hmin as [->|Hmh]; [|trans m; [by apply Hmax|auto]].
      apply Hle; [|done]. assert (Hcancel : heap ≡ₚ popped); [|by rewrite Hcancel].
      apply (Permutation_cons_inv (a := item)). by rewrite <- Hpush.
  - exists rest. split_and!; [done|done|lia| |].
    + intros Hne. specialize (Hfull Hne). lia.
    + intros x y Hx Hy. rewrite Hpush in Hx. apply elem_of_cons in Hx as [->|Hx]; [|auto].
      assert (rest ≠ []) as Hne by (intros ->; by apply elem_of_nil in Hy).
      specialize (Hfull Hne). lia.
Qed.

Lemma soonest_spec excess items :
  ∃ rest, soonest_inv excess items (soonest excess items) rest.
Proof.
  unfold soonest. induction items as [|item items IH] using rev_ind.
  - exists []. split_and!; [done|constructor|simpl; lia|done|set_solver].
  - destruct IH as [rest Hinv]. rewrite foldl_snoc. by eapply heap_step_inv.
Qed.

Lemma soonest_length excess items :
  excess ≤ length items → length (soonest excess items) = excess.
Proof.
  intros Hle. destruct (soonest_spec excess items) as (rest & Hperm & _ & Hlen & Hfull & _).
  rewrite Hperm, length_app in Hle. destruct rest as [|x rest]; simpl in *; [lia|].
  by apply Hfull.
Qed.

Lemma soonest_sub excess items x : x ∈ soonest excess items → x ∈ items.
Proof.
  destruct (soonest_spec excess items) as (rest & Hperm & _).
  intros Hx. rewrite Hperm. apply elem_of_app. by left.
Qed.

Lemma soonest_le excess items x y :
  x ∈ soonest excess items → y ∈ items → y ∉ soonest excess items → le_of x y.
Proof.
  destruct (soonest_spec excess items) as (rest & Hperm & _ & _ & _ & Hle).
  intros Hx Hy Hn. rewrite Hperm in Hy. apply elem_of_app in Hy as [|]; [done|auto].
Qed.

Lemma soonest_NoDup excess items : NoDup items → NoDup (soonest excess items).
Proof.
  destruct (soonest_spec excess items) as (rest & Hperm & _).
  intros Hnd. rewrite Hperm in Hnd. by apply NoDup_app in Hnd as [? _].
Qed.
End Soonest.

(** ** The map operations *)

Section MapFacts.
Implicit Types (m : gmap cache_key CacheEntry) (key : cache_key) (c : TtlPermissionCache).

Lemma remove_all_lookup heap m key :
  remove_all heap m !! key = if decide (key ∈ heap.*2) then None else m !! key.
Proof.
  unfold remove_all. induction heap as [|item heap IH] using rev_ind; [done|].
  rewrite foldl_snoc, fmap_app. destruct (decide (item.2 = key)) as [<-|Hne].
  - rewrite lookup_delete_eq, decide_True; [done|set_solver].
  - rewrite lookup_delete_ne, IH by done. apply decide_ext. set_solver.
Qed.

Lemma remove_all_size heap m :
  NoDup (heap.*2) → (∀ key, key ∈ heap.*2 → is_Some (m !! key)) →
  size (remove_all heap m) = size m - length heap.
Proof.
  unfold remove_all. revert m. induction heap as [|item heap IH]; intros m; simpl; [lia|].
  intros [Hnew Hnd]%NoDup_cons Hin.
  assert (Hitem : is_Some (m !! item.2)) by (apply Hin; left).
  rewrite IH; [rewrite map_size_delete_Some by done; lia|done|].
  intros key Hkey. rewrite lookup_delete_ne; [apply Hin; by right|]. by intros <-.
Qed.

Lemma heap_items_keys m : NoDup ((heap_items m).*2).
Proof.
  unfold heap_items. rewrite <- list_fmap_compose. apply NoDup_fst_map_to_list.
Qed.

Lemma heap_items_elem m t key :
  (t, key) ∈ heap_items m ↔ ∃ e, m !! key = Some e ∧ expires_at e = t.
Proof.
  unfold heap_items. rewrite list_elem_of_fmap. split.
  - intros ([k e] & ? & Hin%elem_of_map_to_list). simplify_eq/=. eauto.
  - intros (e & Hin%elem_of_map_to_list & <-). by exists (key, e).
Qed.

Lemma soonest_keys excess m : NoDup ((soonest excess (heap_items m)).*2).
Proof.
  destruct (soonest_spec excess (heap_items m)) as (rest & Hperm & _).
  pose proof (heap_items_keys m) as Hnd. rewrite Hperm, fmap_app in Hnd.
  by apply NoDup_app in Hnd as [? _].
Qed.

Lemma enforce_cap_sub c now m key e : enforce_cap c now m !! key = Some e → m !! key = Some e.
Proof.
  unfold enforce_cap, purge_expired. repeat case_decide; [|by intros [? _]%map_lookup_filter_Some|done].
  rewrite remove_all_lookup. case_decide; [done|]. by intros [? _]%map_lookup_filter_Some.
Qed.

(** The cap holds after every [set], whatever the map was before. *)
Lemma enforce_cap_size c now m : size (enforce_cap c now m) ≤ max_entries c.
Proof.
  unfold enforce_cap. repeat case_decide; [|lia..].
  rewrite remove_all_size; [|apply soonest_keys|].
  - rewrite soonest_length; [lia|]. unfold heap_items.
    rewrite length_fmap, length_map_to_list. lia.
  - intros key ([t k] & -> & Hin)%list_elem_of_fmap.
    apply soonest_sub, heap_items_elem in Hin as (e & He & _). by exists e.
Qed.

(** An entry that is dropped had expired, or expires no later than every
    entry that is kept. *)
Lemma enforce_cap_evicts c now m key e :
  m !! key = Some e → enforce_cap c now m !! key = None →
  (expires_at e ≤ now)%Z ∨
  ∀ key' e', enforce_cap c now m !! key' = Some e' → (expires_at e ≤ expires_at e')%Z.
Proof.
  intros Hin. unfold enforce_cap.
  destruct (decide (expires_at e ≤ now)%Z) as [|Hlive]; [by left|right].
  assert (Hpurge : purge_expired now m !! key = Some e).
  { apply map_lookup_filter_Some. split; [done|simpl; lia]. }
  repeat case_decide; [|congruence..].
  rename select (remove_all _ _ !! key = None) into Hgone. intros key' e'. rewrite remove_all_lookup in Hgone |- *.
  case_decide as Hk; [clear Hgone|congruence]. case_decide as Hk'; [done|]. intros Hin'.
  apply list_elem_of_fmap in Hk as ([t k] & -> & Hs).
  assert (Hle : le_of (t, k) (expires_at e', key')).
  { eapply soonest_le; [exact Hs|by apply heap_items_elem; exists e'|].
    intros Hbad. apply Hk'. apply list_elem_of_fmap. by exists (expires_at e', key'). }
  apply soonest_sub, heap_items_elem in Hs as (e2 & He2 & <-). simplify_eq/=.
  by apply le_of_pair in Hle.
Qed.

(** An entry that expires after every other one survives the cap. *)
Lemma enforce_cap_latest c now m key e :
  1 ≤ max_entries c → m !! key = Some e → (now < expires_at e)%Z →
  (∀ key' e', key' ≠ key → m !! key' = Some e' → (expires_at e' < expires_at e)%Z) →
  enforce_cap c now m !! key = Some e.
Proof.
  intros Hmax Hin Hlive Hlast. unfold enforce_cap.
  assert (Hpurge : purge_expired now m !! key = Some e) by by apply map_lookup_filter_Some.
  repeat case_decide; [|done..].
  rewrite remove_all_lookup. case_decide as Hk; [|done]. exfalso.
  apply list_elem_of_fmap in Hk as ([t k] & -> & Hs).
  set (m' := purge_expired now m) in *. set (excess := size m' - max_entries c) in *.
  destruct (soonest_spec excess (heap_items m')) as (rest & Hperm & _ & Hlen & _ & Hle).
  assert (Hn : length (heap_items m') = size m').
  { unfold heap_items. by rewrite length_fmap, length_map_to_list. }
  rewrite Hperm, length_app in Hn.
  destruct rest as [|[t2 k2] rest]; [simpl in Hn; lia|].
  specialize (Hle (t, k) (t2, k2) Hs ltac:(constructor)).
  assert (Hin2 : (t2, k2) ∈ heap_items m') by (rewrite Hperm; set_solver).
  pose proof (soonest_sub _ _ _ Hs) as Hin1.
  apply heap_items_elem in Hin1 as (e1 & He1 & <-). apply heap_items_elem in Hin2 as (e2 & He2 & <-).
  simpl in *. rewrite He1 in Hpurge. simplify_eq.
  apply map_lookup_filter_Some in He2 as [He2 _].
  destruct (decide (k2 = k)) as [->|Hne].
  - pose proof (heap_items_keys m') as Hnd. rewrite Hperm, fmap_app in Hnd.
    apply NoDup_app in Hnd as (_ & Hdisj & _). apply (Hdisj k); [|simpl; left].
    apply list_elem_of_fmap. by exists (expires_at e, k).
  - specialize (Hlast _ _ Hne He2). apply le_of_pair in Hle. lia.
Qed.
End MapFacts.

(** ** The cache contract *)

Lemma get_at_Some c now key b :
  get_at c now key = Some b ↔
  ∃ e, entries c !! key = Some e ∧ (now < expires_at e)%Z ∧ granted e = b.
Proof.
  unfold get_at. destruct (entries c !! key) as [e|]; [case_decide|]; naive_solver.
Qed.

(** What [set] leaves in the map: the fresh entry, or an old one. *)
Lemma set_at_key_entry c clk key b key' e :
  entries (set_at_key c clk key b) !! key' = Some e →
  (key' = key ∧ e = {| granted := b; expires_at := now_insert clk + ttl c |}) ∨
  entries c !! key' = Some e.
Proof.
  simpl. intros He%enforce_cap_sub. destruct (decide (key' = key)) as [->|Hne].
  - rewrite lookup_insert_eq in He. left. by simplify_eq.
  - right. rewrite lookup_insert_ne in He by done.
    unfold drop_stale in He. destruct (entries c !! key) as [x|]; [|done]. case_decide; [|done].
    by rewrite lookup_delete_ne in He.
Qed.

(** Below the cap nothing is evicted: the fresh decision can be read until it
    expires. *)
Lemma set_at_key_get c clk key b now :
  size (entries c) < max_entries c → (now < now_insert clk + ttl c)%Z →
  get_at (set_at_key c clk key b) now key = Some b.
Proof.
  intros Hsize Hnow. apply get_at_Some.
  exists {| granted := b; expires_at := now_insert clk + ttl c |}. split_and!; [|done..]. simpl.
  assert (Hm : size (drop_stale c (now_replace clk) key) ≤ size (entries c)).
  { unfold drop_stale. destruct (entries c !! key) as [x|] eqn:Hx; [|done]. case_decide; [|done].
    rewrite map_size_delete_Some by done. lia. }
  unfold enforce_cap. rewrite decide_False; [apply lookup_insert_eq|].
  rewrite map_size_insert. case_match; unfold id; lia.
Qed.

Section Laws.
Context {S P : Type} `{Permission P, Subject S}.

#[export] Instance ttl_permission_cache_laws : PermissionCacheLaws TtlPermissionCache S P.
Proof.
  split.
  - intros c clk now s s' p p' b b' (e & He & Hlive & <-)%get_at_Some.
    apply set_at_key_entry in He as [[[= Hs Hp] ->]|He]; [by left|right].
    apply get_at_Some. eauto.
  - intros c now s s' p b (e & He & Hlive & <-)%get_at_Some. simpl in He.
    apply map_lookup_filter_Some in He as [He Hne]. split; [done|].
    apply get_at_Some. eauto.
  - intros c now s p. simpl. unfold get_at. simpl. by rewrite lookup_empty.
  - intros c now now' s p b Hle (e & He & Hlive & <-)%get_at_Some.
    apply get_at_Some. exists e. split_and!; [done|lia|done].
Qed.
End Laws.

(** ** Properties *)

Section CacheProperties.
Implicit Types (c : TtlPermissionCache) (key : cache_key).

(** After [set] the cache holds at most [max_entries] entries, and an
    entry that was evicted had expired or expires no later than every entry
    that was kept. *)
Theorem set_evicts_soonest c clk key b :
  size (entries (set_at_key c clk key b)) ≤ max_entries c ∧
  ∀ key' e', key' ≠ key → drop_stale c (now_replace clk) key !! key' = Some e' →
    entries (set_at_key c clk key b) !! key' = None →
    (expires_at e' ≤ now_evict clk)%Z ∨
    ∀ k k_entry, entries (set_at_key c clk key b) !! k = Some k_entry →
      (expires_at e' ≤ expires_at k_entry)%Z.
Proof.
  split; [apply enforce_cap_size|]. intros key' e' Hne Hin Hgone. simpl in *.
  eapply enforce_cap_evicts; [|exact Hgone]. by rewrite lookup_insert_ne.
Qed.

(** The cap never costs the decision being stored: with room for one
    entry, and every older entry expiring sooner, the fresh decision is
    answered until its time-to-live has passed, and not after. *)
Theorem fresh_decision_survives c clk key b now :
  1 ≤ max_entries c →
  (now_evict clk < now_insert clk + ttl c)%Z →
  (∀ key' e', entries c !! key' = Some e' → (expires_at e' < now_insert clk + ttl c)%Z) →
  get_at (set_at_key c clk key b) now key =
    if decide (now < now_insert clk + ttl c)%Z then Some b else None.
Proof.
  intros Hmax Hevict Holder.
  set (fresh := {| granted := b; expires_at := now_insert clk + ttl c |}).
  assert (Hin : entries (set_at_key c clk key b) !! key = Some fresh).
  { simpl. apply enforce_cap_latest; [done|apply lookup_insert_eq|done|].
    intros key' e' Hne He'. rewrite lookup_insert_ne in He' by done.
    apply (Holder key'). unfold drop_stale in He'.
    destruct (entries c !! key) as [x|]; [case_decide|]; [|done..].
    by rewrite lookup_delete_ne in He'. }
  unfold get_at. by rewrite Hin.
Qed.
End CacheProperties.

Definition demo_cache : TtlPermissionCache := with_max_entries (TtlPermissionCache_new 10) 1.
Definition demo_clock (t : Z) : SetClock := Build_SetClock t t t.

Lemma set_evicts_soonest_witness :
  let c := set_at_key demo_cache (demo_clock 0) ("a", "x") true in
  (10 ≤ 11)%Z ∧ entries (set_at_key c (demo_clock 1) ("b", "x") true) !! ("a", "x") = None.
Proof.
  intros c. split; [|by vm_compute].
  destruct (set_evicts_soonest c (demo_clock 1) ("b", "x") true) as [_ Hsoon].
  destruct (Hsoon ("a", "x") {| granted := true; expires_at := 10 |}) as [Hexp|Hle].
  - done.
  - by vm_compute.
  - by vm_compute.
  - by vm_compute in Hexp.
  - by apply (Hle ("b", "x") {| granted := true; expires_at := 11 |}); vm_compute.
Defined.

Lemma fresh_decision_survives_witness :
  let c := set_at_key demo_cache (demo_clock 0) ("a", "x") true in
  get_at (set_at_key c (demo_clock 1) ("b", "x") false) 10 ("b", "x") = Some false.
Proof.
  intros c. rewrite fresh_decision_survives; [done|simpl; lia|simpl; lia|].
  intros key' e' Hin. apply set_at_key_entry in Hin as [[_ ->]|Hin]; [simpl; lia|].
  by vm_compute in Hin.
Defined.
