(* ===== verification/Engine.v ===== *)
(** * The decision engine: src/src/rbac/engine.rs

    [RbacEngine] over any registries, assignment store and cache.  The
    engine's mutable state reached through [&self] is the cache; the handlers
    return it with their answer.  The clock readings of one check are its
    [CheckClock].  [decision] is the cache-free specification: denied first,
    then extra grants, then what the roles expand to. *)

From S2P Require Import Prelude Traits Hierarchy.

(** The readings of one check: the cache lookup, then the cache write. *)
Record CheckClock := {
  now_get : Z;
  now_set : SetClock;
}.

Section Engine.
Context {Reg PReg St C S P : Type}.
Context `{Permission P, Subject S}.
Context `{!RoleRegistry Reg P, !PermissionRegistry PReg P}.
Context `{!AssignmentStore St S P, !PermissionCache C S P}.

Record RbacEngine := {
  role_registry : Reg;
  permission_registry : PReg;
  assignment_store : St;
  cache : C;
}.
Implicit Types (e : RbacEngine) (s : S) (p : P) (clk : CheckClock).

Definition RbacEngine_new (reg : Reg) (preg : PReg) (st : St) (default_cache : C) : RbacEngine := {|
  role_registry := reg;
  permission_registry := preg;
  assignment_store := st;
  cache := default_cache;
|}.

Definition with_cache e (c : C) : RbacEngine := {|
  role_registry := role_registry e;
  permission_registry := permission_registry e;
  assignment_store := assignment_store e;
  cache := c;
|}.

(** A write through the shared handle [assignment_store()]. *)
Definition with_store e (st : St) : RbacEngine := {|
  role_registry := role_registry e;
  permission_registry := permission_registry e;
  assignment_store := st;
  cache := cache e;
|}.

Definition remember e clk s p (b : bool) : RbacEngine :=
  with_cache e (cache_set (cache e) (now_set clk) s p b).

Definition invalidate_subject_cache e s : RbacEngine :=
  with_cache e (invalidate_subject P (cache e) s).

Definition invalidate_all_cache e : RbacEngine :=
  with_cache e (invalidate_all S P (cache e)).

(** ** RBAC0 *)

Definition check_cached_deny_extra e clk s p : result (option bool) * RbacEngine :=
  match cache_get (cache e) (now_get clk) s p with
  | Some granted => (Ok (Some granted), e)
  | None =>
      match denied_permissions (assignment_store e) s with
      | Err err => (Err err, e)
      | Ok denied =>
          if decide (p ∈ denied) then (Ok (Some false), remember e clk s p false)
          else
            match extra_permissions (assignment_store e) s with
            | Err err => (Err err, e)
            | Ok extra =>
                if decide (p ∈ extra) then (Ok (Some true), remember e clk s p true)
                else (Ok None, e)
            end
      end
  end.

(** The [for role_name in &role_names] loop, up to its first hit. *)
Definition flat_role_grants e p (role_names : list string) : bool :=
  existsb (λ r,
    match get_role_permissions (role_registry e) r with
    | Some perms => bool_decide (p ∈ (perms : gset P))
    | None => false
    end) role_names.

Definition check e clk s p : bool * RbacEngine :=
  match check_cached_deny_extra e clk s p with
  | (Ok (Some b), e) => (b, e)
  | (Err _, e) => (false, e)
  | (Ok None, e) =>
      match roles_of P (assignment_store e) s with
      | Ok role_names =>
          if flat_role_grants e p role_names then (true, remember e clk s p true)
          else (false, remember e clk s p false)
      | Err _ => (false, remember e clk s p false)
      end
  end.

(** [check_batch]: up to 64 checks are in flight, answers are collected in
    request order and zipped with the requests; the checks are run one
    after the other here. *)
Fixpoint check_all e (clks : list CheckClock) s (ps : list P) : list bool * RbacEngine :=
  match ps with
  | [] => ([], e)
  | p :: ps =>
      let clk := default {| now_get := 0; now_set := Build_SetClock 0 0 0 |} (head clks) in
      let '(b, e) := check e clk s p in
      let '(bs, e) := check_all e (tail clks) s ps in
      (b :: bs, e)
  end.

Definition check_batch e (clks : list CheckClock) s (ps : gset P) : gmap P bool * RbacEngine :=
  let perms := elements ps in
  let '(outcomes, e) := check_all e clks s perms in
  (list_to_map (zip perms outcomes), e).

Definition flat_role_union e (role_names : list string) : gset P :=
  foldl (λ perms r,
    match get_role_permissions (role_registry e) r with
    | Some role_perms => perms ∪ (role_perms : gset P)
    | None => perms
    end) ∅ role_names.

Definition effective_permissions e s : result (gset P) :=
  role_names ← roles_of P (assignment_store e) s;
  (let perms := flat_role_union e role_names in
   extra ← extra_permissions (assignment_store e) s;
   (let perms := perms ∪ extra in
    denied ← denied_permissions (assignment_store e) s;
    mret (filter (λ p, p ∉ (denied : gset P)) perms))).

(** ** Scoped checks *)

Definition stale_reason : string :=
  "session version is stale — re-authentication required".

Definition check_permission {G} `{!GrantResolver G P} (_ : RbacEngine) (ctx : PermissionContext)
    p (resource_id : option string) (resolver : G) : result PermissionDecision :=
  if is_session_stale ctx then Ok (Denied stale_reason None)
  else resolve resolver ctx p resource_id.

(** A resolver error is logged and treated as a denial. *)
Definition resolves_granted {G} `{!GrantResolver G P} (ctx : PermissionContext)
    (resolver : G) p : bool :=
  match resolve resolver ctx p None with
  | Ok (Granted _ _) => true
  | Ok (Denied _ _) => false
  | Err _ => false
  end.

Definition resolve_effective_permissions {G} `{!GrantResolver G P} (_ : RbacEngine)
    (ctx : PermissionContext) (resolver : G) : result (list P) :=
  let all_leaves := all_permissions_of_type in
  Ok (filter (λ p, resolves_granted ctx resolver p = true) all_leaves).

(** ** RBAC1 *)

Definition chain_role_grants e p (role_names : list string) : bool :=
  existsb (λ r, bool_decide (p ∈ resolve_role_chain r (role_registry e))) role_names.

Definition check_hierarchical e clk s p : bool * RbacEngine :=
  match check_cached_deny_extra e clk s p with
  | (Ok (Some b), e) => (b, e)
  | (Err _, e) => (false, e)
  | (Ok None, e) =>
      match roles_of P (assignment_store e) s with
      | Ok role_names =>
          if chain_role_grants e p role_names then (true, remember e clk s p true)
          else (false, remember e clk s p false)
      | Err _ => (false, remember e clk s p false)
      end
  end.

Definition chain_role_union e (role_names : list string) : gset P :=
  foldl (λ perms r, perms ∪ resolve_role_chain r (role_registry e)) ∅ role_names.

Definition effective_permissions_hierarchical e s : result (gset P) :=
  role_names ← roles_of P (assignment_store e) s;
  (let perms := chain_role_union e role_names in
   extra ← extra_permissions (assignment_store e) s;
   (let perms := perms ∪ extra in
    denied ← denied_permissions (assignment_store e) s;
    mret (filter (λ p, p ∉ (denied : gset P)) perms))).
End Engine.
Arguments RbacEngine : clear implicits.

(** ** The cache-free specification *)

Section Decision.
Context {Reg P : Type} `{Permission P, !RoleRegistry Reg P}.

(** The authority one role name contributes, without and with inheritance. *)
Definition flat_expand (reg : Reg) (r : string) : gset P :=
  default ∅ (get_role_permissions reg r).
Definition chain_expand (reg : Reg) (r : string) : gset P := resolve_role_chain r reg.

Definition decision (expand : string → gset P) (g : Grants P) (p : P) : bool :=
  bool_decide (p ∉ g_denied g) &&
  (bool_decide (p ∈ g_extra g) ||
   existsb (λ r, bool_decide (p ∈ expand r)) (elements (g_roles g))).

Lemma decision_true expand g p :
  decision expand g p = true ↔
  p ∉ g_denied g ∧ (p ∈ g_extra g ∨ ∃ r, r ∈ g_roles g ∧ p ∈ expand r).
Proof.
  unfold decision. rewrite andb_true_iff, orb_true_iff, !bool_decide_eq_true, existsb_elem.
  setoid_rewrite elem_of_elements. by setoid_rewrite bool_decide_eq_true.
Qed.

Lemma decision_roles expand g p (l : list string) :
  (∀ r, r ∈ l ↔ r ∈ g_roles g) →
  decision expand g p = bool_decide (p ∉ g_denied g) &&
    (bool_decide (p ∈ g_extra g) || existsb (λ r, bool_decide (p ∈ expand r)) l).
Proof.
  intros Hl. unfold decision. do 2 f_equal. apply eq_true_iff_eq.
  rewrite !existsb_elem. setoid_rewrite elem_of_elements. by setoid_rewrite Hl.
Qed.
End Decision.

(** ** Both check handlers, by the expansion of a role name *)

Section Check.
Context {Reg PReg St C S P : Type}.
Context `{Permission P, Subject S}.
Context `{!RoleRegistry Reg P, !PermissionRegistry PReg P}.
Context `{!AssignmentStore St S P, !PermissionCache C S P}.
Abbreviation engine := (RbacEngine Reg PReg St C).
Implicit Types (e : engine) (s : S) (p : P) (clk : CheckClock)
  (expand : Reg → string → gset P).

Definition check_via expand e clk s p : bool * engine :=
  match check_cached_deny_extra e clk s p with
  | (Ok (Some b), e) => (b, e)
  | (Err _, e) => (false, e)
  | (Ok None, e) =>
      match roles_of P (assignment_store e) s with
      | Ok role_names =>
          let b := existsb (λ r, bool_decide (p ∈ expand (role_registry e) r)) role_names in
          (b, remember e clk s p b)
      | Err _ => (false, remember e clk s p false)
      end
  end.

Lemma flat_role_grants_expand e p l :
  flat_role_grants e p l = existsb (λ r, bool_decide (p ∈ flat_expand (role_registry e) r)) l.
Proof.
  unfold flat_role_grants, flat_expand. induction l as [|r l IH]; [done|].
  cbn [existsb]. rewrite IH. f_equal. destruct (get_role_permissions _ r); simpl; [done|].
  by rewrite bool_decide_eq_false_2 by set_solver.
Qed.

Lemma check_flat e clk s p : check e clk s p = check_via flat_expand e clk s p.
Proof.
  unfold check, check_via. destruct (check_cached_deny_extra e clk s p) as [[[b|]|] e']; [done| |done].
  destruct (roles_of P _ s); [|done]. rewrite flat_role_grants_expand. by destruct (existsb _ _).
Qed.

Lemma check_chain e clk s p :
  check_hierarchical e clk s p = check_via chain_expand e clk s p.
Proof.
  unfold check_hierarchical, check_via, chain_role_grants.
  destruct (check_cached_deny_extra e clk s p) as [[[b|]|] e']; [done| |done].
  destruct (roles_of P _ s); [|done]. by destruct (existsb _ _).
Qed.

(** Only the cache field changes. *)
Lemma check_via_frame expand e clk s p b e' :
  check_via expand e clk s p = (b, e') →
  e' = e ∨ e' = remember e clk s p b.
Proof.
  unfold check_via, check_cached_deny_extra.
  repeat case_match; intros; simplify_eq; auto.
Qed.

(** Every store read for [s] succeeds. *)
Definition reads_ok (st : St) s : Prop :=
  ∃ l ex d, roles_of P st s = Ok l ∧ extra_permissions st s = Ok (ex : gset P) ∧
    denied_permissions st s = Ok (d : gset P).

Context `{!AssignmentStoreLaws St S P}.

Definition decides expand e s p : bool :=
  decision (expand (role_registry e)) (store_view (assignment_store e) (subject_id s)) p.

(** On a cache miss, the answer is the decision, and it is remembered. *)
Lemma check_via_miss expand e clk s p :
  cache_get (cache e) (now_get clk) s p = None →
  reads_ok (assignment_store e) s →
  check_via expand e clk s p =
    (decides expand e s p, remember e clk s p (decides expand e s p)).
Proof.
  intros Hmiss (l & ex & d & Hl & Hex & Hd). unfold check_via, check_cached_deny_extra, decides.
  rewrite Hmiss, Hd, Hex. pose proof (roles_of_view _ _ _ Hl) as Hroles.
  rewrite (decision_roles _ _ _ l) by done.
  pose proof (denied_view _ _ _ Hd) as <-. pose proof (extra_view _ _ _ Hex) as <-.
  case_decide as Hpd; [by rewrite bool_decide_eq_false_2 by (intros ?; done)|].
  rewrite (bool_decide_eq_true_2 (p ∉ d)) by done. simpl.
  case_decide as Hpe; [by rewrite bool_decide_eq_true_2 by done|].
  by rewrite bool_decide_eq_false_2, Hl by done.
Qed.

(** *** Coherence of the cache with the store *)

Definition coherent expand e (now : Z) : Prop :=
  ∀ s p b, cache_get (cache e) now s p = Some b → b = decides expand e s p.

Context `{!PermissionCacheLaws C S P}.

Lemma coherent_later expand e now now' :
  (now ≤ now')%Z → coherent expand e now → coherent expand e now'.
Proof. intros Hle Hco s p b Hget. apply Hco. by eapply get_later. Qed.

Lemma decides_key `{!UniqueNames P} expand e s s' p p' :
  subject_id s' = subject_id s → perm_name p' = perm_name p →
  decides expand e s' p' = decides expand e s p.
Proof. intros Hs Hp%perm_name_inj. unfold decides. by rewrite Hs, Hp. Qed.

Lemma remember_coherent `{!UniqueNames P} expand e clk s p now :
  coherent expand e now → coherent expand (remember e clk s p (decides expand e s p)) now.
Proof.
  intros Hco s' p' b' Hget. simpl in Hget.
  apply get_set in Hget as [(Hs & Hp & ->)|Hold].
  - symmetry. by apply (decides_key expand e).
  - by apply Hco.
Qed.

(** With a coherent cache and a readable store, a check answers the
    decision and keeps the cache coherent. *)
Lemma check_via_coherent `{!UniqueNames P} expand e clk s p b e' :
  coherent expand e (now_get clk) → reads_ok (assignment_store e) s →
  check_via expand e clk s p = (b, e') →
  b = decides expand e s p ∧ coherent expand e' (now_get clk).
Proof.
  intros Hco Hok. destruct (cache_get (cache e) (now_get clk) s p) as [hit|] eqn:Hget.
  - unfold check_via, check_cached_deny_extra. rewrite Hget. intros [= <- <-].
    split; [by apply Hco|done].
  - rewrite check_via_miss by done. intros [= <- <-]. split; [done|by apply remember_coherent].
Qed.

(** A store write for [s], then [invalidate_subject_cache s]: the rows of
    the other subjects are untouched and [s] has no entry left. *)
Lemma write_invalidate_coherent expand e now s st g :
  coherent expand e now →
  (∀ i, store_view st i = set_at (store_view (assignment_store e)) (subject_id s) g i) →
  coherent expand (invalidate_subject_cache (with_store e st) s) now.
Proof.
  intros Hco Hview s' p b Hget. simpl in Hget.
  apply get_invalidate_subject in Hget as [Hne Hget]. apply Hco in Hget as ->.
  unfold decides. simpl. rewrite Hview. unfold set_at. by rewrite decide_False.
Qed.

Lemma invalidate_all_coherent expand e now : coherent expand (invalidate_all_cache e) now.
Proof. intros s p b Hget. simpl in Hget. by rewrite get_invalidate_all in Hget. Qed.

(** ** Effective permissions *)

Lemma foldl_union_elem (f : string → gset P) (l : list string) (acc : gset P) p :
  p ∈ foldl (λ perms r, perms ∪ f r) acc l ↔ p ∈ acc ∨ ∃ r, r ∈ l ∧ p ∈ f r.
Proof.
  revert acc. induction l as [|r l IH]; intros acc; simpl.
  - setoid_rewrite elem_of_nil. naive_solver.
  - rewrite IH. set_solver.
Qed.

Lemma flat_role_union_expand e l :
  flat_role_union e l = foldl (λ perms r, perms ∪ flat_expand (role_registry e) r) ∅ l.
Proof.
  unfold flat_role_union.
  enough (Hgen : ∀ f g acc, (∀ perms r, f perms r = g perms r) →
    foldl f acc l = (foldl g acc l : gset P)).
  { apply Hgen. intros perms r. unfold flat_expand.
    destruct (get_role_permissions _ r); simpl; [done|]. by rewrite (right_id_L ∅ (∪)). }
  intros f g acc Hfg. revert acc. induction l as [|r l IH]; intros acc; simpl; [done|].
  by rewrite Hfg, IH.
Qed.

Lemma effective_elem e s l ex d (f : string → gset P) p :
  roles_of P (assignment_store e) s = Ok l →
  extra_permissions (assignment_store e) s = Ok ex →
  denied_permissions (assignment_store e) s = Ok d →
  p ∈ filter (λ p, p ∉ d) (foldl (λ perms r, perms ∪ f r) ∅ l ∪ ex) ↔
  decision f (store_view (assignment_store e) (subject_id s)) p = true.
Proof.
  intros Hl Hex Hd. rewrite decision_true, elem_of_filter, elem_of_union, foldl_union_elem.
  rewrite (denied_view _ _ _ Hd), (extra_view _ _ _ Hex).
  setoid_rewrite (roles_of_view _ _ _ Hl). set_solver.
Qed.
End Check.
