(* ===== verification/EngineSystem.v ===== *)
(** * The engine as a system

    - [engine_reach]: sequences of checks and of store writes that follow the
      documented discipline (write, then [invalidate_subject_cache]); on every
      reachable state the engine answers the cache-free [decision];
    - [free_reach]: writes with no invalidation at all; the answer is stale
      for at most the time-to-live;
    - [race_reach]: checks in flight, one [await] at a time, interleaved with
      writes and invalidations (src/src/rbac/engine.rs, [check] and
      [check_cached_deny_extra]). *)

From S2P Require Import Prelude Traits Catalog Store Hierarchy Cache Engine.

(** ** The disciplined system *)

Section System.
Context {Reg PReg St C S P : Type}.
Context `{Permission P, Subject S}.
Context `{!RoleRegistry Reg P, !PermissionRegistry PReg P}.
Context `{!AssignmentStore St S P, !PermissionCache C S P}.
Abbreviation engine := (RbacEngine Reg PReg St C).

(** One of the two check handlers. *)
Variable handler : engine → CheckClock → S → P → bool * engine.

Inductive engine_step : engine * Z → engine * Z → Prop :=
  | step_check e now now' clk s p b e' :
      (now ≤ now_get clk)%Z → (now_get clk ≤ now')%Z →
      reads_ok (P := P) (assignment_store e) s →
      handler e clk s p = (b, e') →
      engine_step (e, now) (e', now')
  | step_write e now now' (op : admin_op S P) st :
      (now ≤ now')%Z →
      admin_write (assignment_store e) op = (Ok tt, st) →
      engine_step (e, now)
        (invalidate_subject_cache (S := S) (P := P) (with_store e st) (admin_subject op), now')
  | step_invalidate_all e now now' :
      (now ≤ now')%Z →
      engine_step (e, now) (invalidate_all_cache (S := S) (P := P) e, now').

Definition engine_reach : relation (engine * Z) := rtc engine_step.

Variable expand : Reg → string → gset P.
Hypothesis handler_expand : ∀ e clk s p, handler e clk s p = check_via expand e clk s p.
Context `{!AssignmentStoreLaws St S P, !PermissionCacheLaws C S P, !UniqueNames P}.

Lemma engine_step_coherent e now e' now' :
  engine_step (e, now) (e', now') →
  coherent (S := S) expand e now → coherent (S := S) expand e' now'.
Proof.
  inversion 1 as [??? clk s p b ? Hget Hle Hok Hcheck|??? op st Hle Hw|? ? ? Hle]; subst;
    intros Hco.
  - rewrite handler_expand in Hcheck.
    apply (check_via_coherent expand) in Hcheck as [_ Hco'];
      [|by eapply coherent_later|done].
    by eapply coherent_later.
  - eapply coherent_later; [exact Hle|].
    eapply write_invalidate_coherent; [exact Hco|].
    intros i. by apply admin_write_view.
  - apply invalidate_all_coherent.
Qed.

Lemma engine_reach_coherent x y :
  engine_reach x y → coherent (S := S) expand x.1 x.2 → coherent (S := S) expand y.1 y.2.
Proof.
  induction 1 as [|[e now] [e' now'] z Hstep _ IH]; [done|]. intros Hco. apply IH.
  by eapply engine_step_coherent.
Qed.

Lemma engine_reach_handler e0 now0 e now clk s p :
  coherent (S := S) expand e0 now0 →
  engine_reach (e0, now0) (e, now) →
  (now ≤ now_get clk)%Z → reads_ok (P := P) (assignment_store e) s →
  (handler e clk s p).1 = decides expand e s p.
Proof.
  intros Hco Hreach Hle Hok. apply engine_reach_coherent in Hreach as Hco'; [|done].
  destruct (handler e clk s p) as [b e'] eqn:Hcheck. rewrite handler_expand in Hcheck.
  apply (check_via_coherent expand) in Hcheck as [Hb _]; [done| |done].
  by eapply coherent_later.
Qed.
End System.

(** An engine whose cache answers nothing, such as a new one. *)
Definition cold {C S P} `{PermissionCache C S P} (c : C) : Prop :=
  ∀ now (s : S) (p : P), cache_get c now s p = None.

Lemma cold_coherent {Reg PReg St C S P} `{Permission P, Subject S, !RoleRegistry Reg P,
    !PermissionRegistry PReg P, !AssignmentStore St S P, !PermissionCache C S P,
    !AssignmentStoreLaws St S P}
    (expand : Reg → string → gset P) (e : RbacEngine Reg PReg St C) now :
  cold (S := S) (P := P) (cache e) → coherent (S := S) expand e now.
Proof. intros Hcold s p b Hget. by rewrite Hcold in Hget. Qed.

Lemma ttl_cold {S P} `{Permission P, Subject S} t :
  cold (S := S) (P := P) (TtlPermissionCache_new t).
Proof. intros now s p. simpl. unfold get_at. simpl. by rewrite lookup_empty. Qed.

(** ** Writes without invalidation *)

Section Stale.
Context {Reg PReg St S P : Type}.
Context `{Permission P, Subject S}.
Context `{!RoleRegistry Reg P, !PermissionRegistry PReg P, !AssignmentStore St S P}.
Abbreviation engine := (RbacEngine Reg PReg St TtlPermissionCache).
Variable handler : engine → CheckClock → S → P → bool * engine.

Inductive free_step : engine * Z → engine * Z → Prop :=
  | free_check e now now' clk s p b e' :
      (now ≤ now')%Z → (now_insert (now_set clk) ≤ now')%Z →
      handler e clk s p = (b, e') →
      free_step (e, now) (e', now')
  | free_change e e' now now' :
      (now ≤ now')%Z → cache e' = cache e →
      free_step (e, now) (e', now').

Definition free_reach : relation (engine * Z) := rtc free_step.

Variable expand : Reg → string → gset P.
Hypothesis handler_expand : ∀ e clk s p, handler e clk s p = check_via expand e clk s p.

(** Every entry dies within one time-to-live of the present. *)
Definition expires_within (c : TtlPermissionCache) (now : Z) : Prop :=
  ∀ key entry, entries c !! key = Some entry → (expires_at entry ≤ now + ttl c)%Z.

Lemma expires_within_later c now now' :
  (now ≤ now')%Z → expires_within c now → expires_within c now'.
Proof. intros Hle Hex key entry Hin. specialize (Hex _ _ Hin). lia. Qed.

Lemma free_step_expires e now e' now' :
  free_step (e, now) (e', now') → expires_within (cache e) now →
  expires_within (cache e') now' ∧ ttl (cache e') = ttl (cache e).
Proof.
  inversion 1 as [? ? ? clk s p b ? Hle Hins Hcheck|? ? ? ? Hle Hcache]; subst; intros Hex.
  - rewrite handler_expand in Hcheck. apply check_via_frame in Hcheck as [->| ->].
    + split; [by apply (expires_within_later _ now)|done].
    + split; [|done]. intros key entry Hin. simpl in Hin.
      apply set_at_key_entry in Hin as [[_ ->]|Hin]; simpl; [lia|].
      specialize (Hex _ _ Hin). lia.
  - rewrite Hcache. split; [by apply (expires_within_later _ now)|done].
Qed.

Lemma free_reach_expires x y :
  free_reach x y → expires_within (cache x.1) x.2 →
  expires_within (cache y.1) y.2 ∧ ttl (cache y.1) = ttl (cache x.1).
Proof.
  induction 1 as [|[e now] [e' now'] z Hstep _ IH]; [done|]. intros Hex.
  apply free_step_expires in Hstep as [Hex' Httl]; [|done]. simpl.
  rewrite <- Httl. by apply IH.
Qed.

Lemma expired_miss c now now' (s : S) (p : P) :
  expires_within c now → (now + ttl c ≤ now')%Z → cache_get c now' s p = None.
Proof.
  intros Hex Hle. destruct (cache_get c now' s p) as [b|] eqn:Hget; [|done].
  apply get_at_Some in Hget as (entry & Hin & Hlive & _).
  specialize (Hex _ _ Hin). lia.
Qed.
End Stale.

(** ** Checks in flight *)

Section Race.
Context {Reg PReg St C S P : Type}.
Context `{Permission P, Subject S}.
Context `{!RoleRegistry Reg P, !PermissionRegistry PReg P}.
Context `{!AssignmentStore St S P, !PermissionCache C S P}.
Abbreviation engine := (RbacEngine Reg PReg St C).

Implicit Types (e : engine).

(** Where a call of [check] is suspended; every [await] ends a phase. *)
Inductive phase :=
  | Begin
  | Missed
  | NotDenied
  | NotExtra
  | Remembering (b : bool)
  | Done (b : bool).

Definition check_phase (e : engine) (clk : CheckClock) (s : S) (p : P) (ph : phase)
    : phase * engine :=
  match ph with
  | Begin =>
      match cache_get (cache e) (now_get clk) s p with
      | Some b => (Done b, e)
      | None => (Missed, e)
      end
  | Missed =>
      match denied_permissions (assignment_store e) s with
      | Err _ => (Done false, e)
      | Ok denied => if decide (p ∈ denied) then (Remembering false, e) else (NotDenied, e)
      end
  | NotDenied =>
      match extra_permissions (assignment_store e) s with
      | Err _ => (Done false, e)
      | Ok extra => if decide (p ∈ extra) then (Remembering true, e) else (NotExtra, e)
      end
  | NotExtra =>
      match roles_of P (assignment_store e) s with
      | Ok role_names => (Remembering (flat_role_grants e p role_names), e)
      | Err _ => (Remembering false, e)
      end
  | Remembering b => (Done b, remember e clk s p b)
  | Done b => (Done b, e)
  end.

(** A call that is never interrupted. *)
Fixpoint run_phases (n : nat) (e : engine) clk s p ph : phase * engine :=
  match n with
  | 0 => (ph, e)
  | Datatypes.S n => let '(ph, e) := check_phase e clk s p ph in run_phases n e clk s p ph
  end.

Lemma run_phases_check e clk s p b e' :
  check e clk s p = (b, e') → run_phases 5 e clk s p Begin = (Done b, e').
Proof.
  unfold check, check_cached_deny_extra. cbn [run_phases check_phase].
  destruct (cache_get _ _ s p); [by intros [= <- <-]|]. cbn [check_phase].
  destruct (denied_permissions _ s); [|by intros [= <- <-]].
  case_decide; [by intros [= <- <-]|]. cbn [check_phase].
  destruct (extra_permissions _ s); [|by intros [= <- <-]].
  case_decide; [by intros [= <- <-]|]. cbn [check_phase].
  destruct (roles_of P _ s); [|by intros [= <- <-]].
  destruct (flat_role_grants _ _ _); by intros [= <- <-].
Qed.

(** A call in flight and the shared state. *)
Record call := { c_clk : CheckClock; c_subject : S; c_perm : P; c_phase : phase }.

Inductive race_step : engine * list call → engine * list call → Prop :=
  | race_advance e calls i c ph e' :
      calls !! i = Some c →
      check_phase e (c_clk c) (c_subject c) (c_perm c) (c_phase c) = (ph, e') →
      race_step (e, calls)
        (e', <[i := Build_call (c_clk c) (c_subject c) (c_perm c) ph]> calls)
  | race_call e calls clk s p :
      race_step (e, calls) (e, calls ++ [Build_call clk s p Begin])
  | race_write e calls (op : admin_op S P) st r :
      admin_write (assignment_store e) op = (r, st) →
      race_step (e, calls) (with_store e st, calls)
  | race_invalidate e calls s :
      race_step (e, calls) (invalidate_subject_cache (P := P) e s, calls).

(** *** No decision out of thin air

    A trace records the stores the system went through.  Whatever the
    interleaving, a [true] that is cached, pending or returned was granted
    by one of them, and another (or the same) did not deny it. *)
Inductive race_trace : engine * list call → list St → Prop :=
  | trace_start e :
      cold (S := S) (P := P) (cache e) →
      race_trace (e, []) [assignment_store e]
  | trace_step x y hist :
      race_trace x hist → race_step x y →
      race_trace y (assignment_store y.1 :: hist).

Definition reg_grants (reg : Reg) (st : St) (s : S) (p : P) : Prop :=
  (∃ ex, extra_permissions st s = Ok (ex : gset P) ∧ p ∈ ex) ∨
  (∃ l r, roles_of P st s = Ok l ∧ r ∈ l ∧ p ∈ flat_expand reg r).

Definition reg_permits (st : St) (s : S) (p : P) : Prop :=
  ∃ d, denied_permissions st s = Ok (d : gset P) ∧ p ∉ d.

Definition justified (reg : Reg) (hist : list St) (s : S) (p : P) : Prop :=
  ∃ s' p', subject_id s' = subject_id s ∧ perm_name p' = perm_name p ∧
    (∃ st, st ∈ hist ∧ reg_grants reg st s' p') ∧
    (∃ st, st ∈ hist ∧ reg_permits st s' p').

Definition phase_ok (reg : Reg) (hist : list St) (s : S) (p : P) (ph : phase) : Prop :=
  match ph with
  | Begin | Missed => True
  | NotDenied | NotExtra => ∃ st, st ∈ hist ∧ reg_permits st s p
  | Remembering b | Done b => b = true → justified reg hist s p
  end.

Record race_inv (e : engine) (calls : list call) (hist : list St) : Prop := {
  race_store : assignment_store e ∈ hist;
  race_cache : ∀ now s p, cache_get (cache e) now s p = Some true →
    justified (role_registry e) hist s p;
  race_calls : ∀ c, c ∈ calls →
    phase_ok (role_registry e) hist (c_subject c) (c_perm c) (c_phase c);
}.

Lemma justified_mono reg hist st s p :
  justified reg hist s p → justified reg (st :: hist) s p.
Proof.
  intros (s' & p' & Hs & Hp & (st1 & ? & ?) & (st2 & ? & ?)). exists s', p'.
  split_and!; [done|done|exists st1; split; [by right|done]|exists st2; split; [by right|done]].
Qed.

Lemma phase_ok_mono reg hist st s p ph :
  phase_ok reg hist s p ph → phase_ok reg (st :: hist) s p ph.
Proof.
  destruct ph; simpl; try done.
  1,2: intros (st' & ? & ?); exists st'; split; [by right|done].
  all: intros Hj Hb; by apply justified_mono, Hj.
Qed.

Lemma justified_here reg hist s p st1 st2 :
  st1 ∈ hist → reg_grants reg st1 s p → st2 ∈ hist → reg_permits st2 s p →
  justified reg hist s p.
Proof. intros. exists s, p. split_and!; eauto. Qed.

Context `{!PermissionCacheLaws C S P}.

Lemma check_phase_ok e hist clk s p ph ph' e' :
  race_inv e [] hist → phase_ok (role_registry e) hist s p ph →
  check_phase e clk s p ph = (ph', e') →
  phase_ok (role_registry e) hist s p ph' ∧ race_inv e' [] hist ∧
  role_registry e' = role_registry e ∧ assignment_store e' = assignment_store e.
Proof.
  intros Hinv Hph. pose proof Hinv as [Hst Hcache _]. destruct ph; simpl in *.
  - destruct (cache_get _ _ s p) as [[]|] eqn:Hget; intros [= <- <-]; split_and!; try done.
    simpl. intros _. by eapply Hcache.
  - destruct (denied_permissions _ s) as [d|] eqn:Hd; [case_decide|];
      intros [= <- <-]; split_and!; try done.
    exists (assignment_store e). split; [done|by exists d].
  - destruct (extra_permissions _ s) as [ex|] eqn:Hex; [case_decide|];
      intros [= <- <-]; split_and!; try done.
    intros _. destruct Hph as (st & Hin & Hperm).
    eapply justified_here; [exact Hst| |exact Hin|exact Hperm]. left. by exists ex.
  - destruct (roles_of P _ s) as [l|] eqn:Hl; intros [= <- <-]; split_and!; try done.
    simpl. rewrite flat_role_grants_expand, existsb_elem. intros (r & Hr & Hp).
    apply bool_decide_eq_true_1 in Hp. destruct Hph as (st & Hin & Hperm).
    eapply justified_here; [exact Hst| |exact Hin|exact Hperm]. right. by exists l, r.
  - intros [= <- <-]. split_and!; try done. split; [done| |set_solver]. simpl.
    intros now s' p' [(Hs & Hp & <-)|Hold]%get_set; [|by eapply Hcache].
    destruct (Hph eq_refl) as (s0 & p0 & ? & ? & ?).
    exists s0, p0. split_and!; [congruence|congruence|naive_solver..].
  - by intros [= <- <-].
Qed.

Lemma race_inv_grow e calls hist st :
  race_inv e calls hist → race_inv (with_store e st) calls (st :: hist).
Proof.
  intros [Hst Hcache Hcalls]. split; simpl; [left| |].
  - intros now s p Hget. by apply justified_mono, (Hcache now).
  - intros c Hc. by apply phase_ok_mono, Hcalls.
Qed.

Lemma with_store_same e : with_store e (assignment_store e) = e.
Proof. by destruct e. Qed.

Lemma race_step_inv e calls hist e' calls' :
  race_step (e, calls) (e', calls') → race_inv e calls hist →
  race_inv e' calls' (assignment_store e' :: hist).
Proof.
  intros Hstep Hinv. pose proof Hinv as [Hst Hcache Hcalls].
  inversion Hstep as [? ? ? c ph ? Hi Hph|? ? clk s p|? ? op st r Hw|? ? s]; subst.
  - destruct (check_phase_ok e hist (c_clk c) (c_subject c) (c_perm c) (c_phase c) ph e')
      as (Hok & [Hst' Hcache' _] & Hreg & Hsame); [by split; [..|set_solver]| |done|].
    { apply Hcalls. by eapply list_elem_of_lookup_2. }
    rewrite <- (with_store_same e') at 1. apply race_inv_grow. split; [done|done|].
    rewrite Hreg. intros c' Hc'. apply list_elem_of_lookup in Hc' as [j Hj].
    apply list_lookup_insert_Some in Hj as [(<- & <- & _)|[_ Hj]]; [done|].
    apply Hcalls. by eapply list_elem_of_lookup_2.
  - rewrite <- (with_store_same e') at 1. apply race_inv_grow. split; [done|done|].
    intros c [Hc|Hc]%elem_of_app; [by apply Hcalls|].
    apply list_elem_of_singleton in Hc as ->. done.
  - by apply race_inv_grow.
  - apply (race_inv_grow _ _ _ (assignment_store e)) in Hinv as [Hst' Hcache' Hcalls'].
    split; [done| |done]. simpl. intros now s' p Hget.
    apply get_invalidate_subject in Hget as [_ Hget]. by eapply Hcache'.
Qed.

Lemma race_trace_inv x hist : race_trace x hist → race_inv x.1 x.2 hist.
Proof.
  induction 1 as [e Hcold|[e calls] [e' calls'] hist _ IH Hstep]; simpl.
  - split; [left| |set_solver]. intros now' s p Hget. by rewrite Hcold in Hget.
  - by eapply race_step_inv.
Qed.
End Race.

(** ** A concrete engine for the witnesses *)

Module Demo.
Abbreviation Perm := KirinoPermission.
Abbreviation engine :=
  (RbacEngine (StaticRoleRegistry (SimpleRole Perm)) (StaticPermissionRegistry Perm)
     (InMemoryAssignmentStore Perm) TtlPermissionCache).

Definition read : Perm := Agent Agent.Read.
Definition write : Perm := Agent Agent.Write.

(** "viewer" may read, "editor" inherits from it and may write. *)
Definition registry : StaticRoleRegistry (SimpleRole Perm) :=
  let reg := register (P := Perm) StaticRoleRegistry_new (SimpleRole_new "viewer" {[read]}) in
  let reg := register (P := Perm) reg (SimpleRole_new "editor" {[write]}) in
  set_parents reg "editor" ["viewer"].

Definition engine0 : engine :=
  RbacEngine_new registry (StaticPermissionRegistry_new {[read; write]})
    InMemoryAssignmentStore_new (TtlPermissionCache_new 300).

Definition at_time (t : Z) : CheckClock :=
  {| now_get := t; now_set := Build_SetClock t t t |}.

Definition assign (e : engine) (s role : string) : engine :=
  with_store e (assign_role Perm (assignment_store e) s role).2.
Definition revoke (e : engine) (s role : string) : engine :=
  with_store e (revoke_role Perm (assignment_store e) s role).2.
Definition invalidate (e : engine) (s : string) : engine :=
  invalidate_subject_cache (P := Perm) e s.

Lemma reads_ok (e : engine) (s : string) : Engine.reads_ok (P := Perm) (assignment_store e) s.
Proof. by repeat eexists. Qed.

Lemma engine0_cold : cold (S := string) (P := Perm) (cache engine0).
Proof. apply ttl_cold. Qed.

Definition bob_edits : engine := invalidate (assign engine0 "bob" "editor") "bob".

Lemma bob_edits_entries : entries (cache bob_edits) = ∅.
Proof. reflexivity. Qed.

Lemma bob_edits_cold : cold (S := string) (P := Perm) (cache bob_edits).
Proof.
  intros now s p. change (get_at (cache bob_edits) now (key_of s p) = None).
  unfold get_at. by rewrite bob_edits_entries, lookup_empty.
Qed.

Lemma bob_edits_reach handler : engine_reach (S := string) (P := Perm) handler (engine0, 0%Z) (bob_edits, 1%Z).
Proof.
  apply rtc_once.
  apply (step_write (S := string) (P := Perm) handler engine0 0 1 (AssignRole "bob" "editor")); [lia|done].
Qed.
End Demo.

(** A store whose role table can be unreachable. *)
Module Outage.
Abbreviation Perm := KirinoPermission.
Record FlakyStore := { inner : InMemoryAssignmentStore Perm; roles_down : bool }.

Definition on_inner (st : FlakyStore) (w : result unit * InMemoryAssignmentStore Perm)
    : result unit * FlakyStore :=
  (w.1, {| inner := w.2; roles_down := roles_down st |}).

#[global] Instance flaky_store : AssignmentStore FlakyStore string Perm := {|
  assign_role st s r := on_inner st (mem_assign_role (inner st) s r);
  revoke_role st s r := on_inner st (mem_revoke_role (inner st) s r);
  roles_of st s :=
    if roles_down st then Err (Anyhow "connection refused") else mem_roles_of (inner st) s;
  subjects_with_role st r := mem_subjects_with_role (inner st) r;
  extra_permissions st s := mem_extra_permissions (inner st) s;
  set_extra_permissions st s ps := on_inner st (mem_set_extra_permissions (inner st) s ps);
  denied_permissions st s := mem_denied_permissions (inner st) s;
  set_denied_permissions st s ps := on_inner st (mem_set_denied_permissions (inner st) s ps);
|}.

Definition engine_at (down : bool) (c : TtlPermissionCache)
    : RbacEngine (StaticRoleRegistry (SimpleRole Perm)) (StaticPermissionRegistry Perm)
        FlakyStore TtlPermissionCache :=
  RbacEngine_new Demo.registry (StaticPermissionRegistry_new {[Demo.read; Demo.write]})
    {| inner := assignment_store Demo.bob_edits; roles_down := down |} c.
End Outage.

(** ** Properties *)

Section Properties.
Context {Reg PReg St C S P : Type}.
Context `{Permission P, Subject S}.
Context `{!RoleRegistry Reg P, !PermissionRegistry PReg P}.
Context `{!AssignmentStore St S P, !PermissionCache C S P}.
Context `{!AssignmentStoreLaws St S P, !PermissionCacheLaws C S P, !UniqueNames P}.
Abbreviation engine := (RbacEngine Reg PReg St C).

(** C1: however many checks, invalidations and invalidating writes an
    engine with a cold cache has been through, the next [check] answers the
    cache-free decision on the store as it is now: not denied, and granted
    directly or by an assigned role - where every check, this one included,
    can read the assignments of its subject and every write succeeds. *)
Theorem check_answers_decision (e0 e : engine) now0 now clk (s : S) (p : P) :
  cold (S := S) (P := P) (cache e0) →
  engine_reach (S := S) (P := P) check (e0, now0) (e, now) →
  (now ≤ now_get clk)%Z → reads_ok (P := P) (assignment_store e) s →
  let g := store_view (assignment_store e) (subject_id s) in
  (check e clk s p).1 = true ↔
  p ∉ g_denied g ∧
  (p ∈ g_extra g ∨ ∃ r, r ∈ g_roles g ∧ p ∈ flat_expand (role_registry e) r).
Proof.
  intros Hcold Hreach Hle Hok g.
  rewrite (engine_reach_handler check flat_expand check_flat e0 now0 e now clk s p)
    by (done || by apply cold_coherent).
  apply decision_true.
Qed.

(** C2: the same for [check_hierarchical] under the same conditions, where a
    role carries the permissions of every role reachable through parents. *)
Theorem check_hierarchical_answers_decision `{!RoleRegistryLaws Reg P}
    (e0 e : engine) now0 now clk (s : S) (p : P) :
  cold (S := S) (P := P) (cache e0) →
  engine_reach (S := S) (P := P) check_hierarchical (e0, now0) (e, now) →
  (now ≤ now_get clk)%Z → reads_ok (P := P) (assignment_store e) s →
  let g := store_view (assignment_store e) (subject_id s) in
  (check_hierarchical e clk s p).1 = true ↔
  p ∉ g_denied g ∧
  (p ∈ g_extra g ∨
   ∃ r r', r ∈ g_roles g ∧ reach P (role_registry e) r r' ∧ holds_perm (role_registry e) p r').
Proof.
  intros Hcold Hreach Hle Hok g.
  rewrite (engine_reach_handler check_hierarchical chain_expand check_chain e0 now0 e now clk s p)
    by (done || by apply cold_coherent).
  unfold decides. rewrite decision_true. simpl. unfold chain_expand.
  setoid_rewrite resolve_role_chain_elem. naive_solver.
Qed.

(** On a coherent cache and a readable store, [check] and
    [effective_permissions] agree on every permission. *)
Theorem effective_permissions_agree (e : engine) clk (s : S) (p : P) :
  coherent (S := S) flat_expand e (now_get clk) →
  reads_ok (P := P) (assignment_store e) s →
  ∃ perms, effective_permissions e s = Ok perms ∧ (p ∈ perms ↔ (check e clk s p).1 = true).
Proof.
  intros Hco Hok. rewrite check_flat.
  destruct (check_via flat_expand e clk s p) as [b e'] eqn:Hcheck.
  apply (check_via_coherent flat_expand) in Hcheck as [-> _]; [|done..].
  destruct Hok as (l & ex & d & Hl & Hex & Hd).
  unfold effective_permissions. rewrite Hl, Hex, Hd. simpl.
  eexists. split; [done|]. rewrite flat_role_union_expand. by apply effective_elem.
Qed.

(** A call of [check] that is never interrupted is the composition of
    its five suspension points. *)
Theorem uninterrupted_check (e : engine) clk (s : S) (p : P) :
  run_phases 5 e clk s p Begin = (Done (check e clk s p).1, (check e clk s p).2).
Proof. apply run_phases_check. by destruct (check e clk s p). Qed.

(** C3: whatever the interleaving of checks in flight, writes and
    invalidations, a call that returns [true] returns a permission that
    some store of the trace granted and some store of the trace did not
    deny. *)
Theorem no_grant_out_of_thin_air (e : engine) (calls : list call) (hist : list St) c :
  race_trace (S := S) (P := P) (e, calls) hist →
  c ∈ calls → c_phase c = Done true →
  justified (role_registry e) hist (c_subject c) (c_perm c).
Proof.
  intros Htrace Hc Hdone. apply race_trace_inv in Htrace as [_ _ Hcalls].
  specialize (Hcalls c Hc). rewrite Hdone in Hcalls. by apply Hcalls.
Qed.

(** When the deny set or the extra grants cannot be read, [check]
    answers [false] and leaves the cache alone. *)
Theorem unreadable_store_denies (e : engine) clk (s : S) (p : P) err :
  cache_get (cache e) (now_get clk) s p = None →
  (denied_permissions (P := P) (assignment_store e) s = Err err ∨
   ∃ d, denied_permissions (assignment_store e) s = Ok d ∧ p ∉ d ∧
     extra_permissions (P := P) (assignment_store e) s = Err err) →
  check e clk s p = (false, e) ∧ check_hierarchical e clk s p = (false, e).
Proof.
  intros Hmiss Herr. unfold check, check_hierarchical, check_cached_deny_extra. rewrite Hmiss.
  destruct Herr as [-> |(d & -> & Hp & ->)]; [done|]. by rewrite decide_False by done.
Qed.
End Properties.

Section TtlProperties.
Context {Reg PReg St S P : Type}.
Context `{Permission P, Subject S}.
Context `{!RoleRegistry Reg P, !PermissionRegistry PReg P, !AssignmentStore St S P}.
Abbreviation engine := (RbacEngine Reg PReg St TtlPermissionCache).

(** Even when the stores change with no invalidation at all, a check
    made one time-to-live later answers the decision on the present
    stores. *)
Theorem staleness_is_bounded `{!AssignmentStoreLaws St S P}
    (e0 e : engine) now0 now clk (s : S) (p : P) :
  entries (cache e0) = ∅ →
  free_reach (S := S) (P := P) check (e0, now0) (e, now) →
  (now + ttl (cache e0) ≤ now_get clk)%Z → reads_ok (P := P) (assignment_store e) s →
  (check e clk s p).1 = decides flat_expand e s p.
Proof.
  intros Hempty Hreach Hle Hok.
  apply (free_reach_expires check flat_expand check_flat) in Hreach as [Hex Httl].
  - simpl in *. rewrite check_flat, check_via_miss; [done| |done].
    eapply expired_miss; [exact Hex|]. by rewrite Httl.
  - intros key entry. simpl. by rewrite Hempty, lookup_empty.
Qed.

(** When the deny set and the extra grants are readable but the role
    assignments are not, the denial is cached: once the store is back, the
    subject is still denied until the entry expires, whatever the store
    now says. *)
Theorem roles_outage_pins_denial (e e2 : engine) clk clk2 (s : S) (p : P) d ex err :
  cache_get (cache e) (now_get clk) s p = None →
  denied_permissions (assignment_store e) s = Ok d → p ∉ d →
  extra_permissions (assignment_store e) s = Ok ex → p ∉ ex →
  roles_of P (assignment_store e) s = Err err →
  size (entries (cache e)) < max_entries (cache e) →
  cache e2 = cache (check e clk s p).2 →
  (now_get clk2 < now_insert (now_set clk) + ttl (cache e))%Z →
  check e clk s p = (false, remember e clk s p false) ∧ check e2 clk2 s p = (false, e2).
Proof.
  intros Hmiss Hd Hpd Hex Hpe Hroles Hsize Hcache Hnow.
  assert (Hfirst : check e clk s p = (false, remember e clk s p false)).
  { unfold check, check_cached_deny_extra.
    by rewrite Hmiss, Hd, decide_False, Hex, decide_False, Hroles by done. }
  split; [done|]. rewrite Hfirst in Hcache. unfold check, check_cached_deny_extra.
  rewrite Hcache. simpl. by rewrite set_at_key_get.
Qed.

(** [check] and [check_hierarchical] share the cache, so after a
    hierarchical check the flat one repeats the hierarchical answer. *)
Theorem flat_check_repeats_hierarchical `{!AssignmentStoreLaws St S P}
    (e : engine) clk clk2 (s : S) (p : P) :
  cache_get (cache e) (now_get clk) s p = None →
  reads_ok (P := P) (assignment_store e) s →
  size (entries (cache e)) < max_entries (cache e) →
  (now_get clk2 < now_insert (now_set clk) + ttl (cache e))%Z →
  (check (check_hierarchical e clk s p).2 clk2 s p).1 = decides chain_expand e s p.
Proof.
  intros Hmiss Hok Hsize Hnow. rewrite check_chain, check_via_miss by done. simpl.
  unfold check, check_cached_deny_extra. simpl. by rewrite set_at_key_get.
Qed.
End TtlProperties.

(** An invalidation after the write does not close the window.  A check
    that read the roles before the revocation caches its answer after the
    invalidation, and the revoked permission is granted from the cache. *)
Theorem in_flight_check_revives_revoked_grant :
  ∃ (e1 e2 : Demo.engine) calls1 calls2 hist,
    race_trace (S := string) (e1, calls1) hist ∧
    (∃ e0 : Demo.engine, e1 = Demo.invalidate (Demo.revoke e0 "bob" "viewer") "bob") ∧
    race_step (S := string) (e1, calls1) (e2, calls2) ∧
    decides (S := string) flat_expand e2 "bob" Demo.read = false ∧
    (check e2 (Demo.at_time 2) "bob" Demo.read).1 = true.
Proof.
  set (e0 := Demo.assign Demo.engine0 "bob" "viewer").
  set (c := λ ph, [Build_call (Demo.at_time 1) "bob" Demo.read ph]).
  set (e1 := Demo.invalidate (Demo.revoke e0 "bob" "viewer") "bob").
  exists e1, (check_phase e1 (Demo.at_time 1) "bob" Demo.read (Remembering true)).2.
  exists (c (Remembering true)), (c (Done true)).
  assert (Hadvance : ∀ ph ph', check_phase e0 (Demo.at_time 1) "bob" Demo.read ph = (ph', e0) →
    race_step (S := string) (e0, c ph) (e0, c ph')).
  { intros ph ph' Hph. by apply (race_advance e0 (c ph) 0 (Build_call _ _ _ ph)). }
  eexists. split_and!.
  - eapply (trace_step (Demo.revoke e0 "bob" "viewer", c (Remembering true)));
      [|apply (race_invalidate _ _ "bob")].
    eapply (trace_step (e0, c (Remembering true)));
      [|by eapply (race_write e0 _ (RevokeRole "bob" "viewer"))].
    eapply trace_step; [|by apply (Hadvance NotExtra)].
    eapply trace_step; [|by apply (Hadvance NotDenied)].
    eapply trace_step; [|by apply (Hadvance Missed)].
    eapply trace_step; [|by apply (Hadvance Begin)].
    eapply (trace_step (e0, [])); [|apply (race_call e0 [])].
    apply trace_start. apply ttl_cold.
  - by exists e0.
  - by apply (race_advance e1 (c (Remembering true)) 0 (Build_call _ _ _ (Remembering true))).
  - by vm_compute.
  - by vm_compute.
Qed.

(** The generic engine enumerates permissions through the trait, and the
    built-in enum leaves the trait's [all] at its empty default: with it
    [resolve_effective_permissions] is empty whatever the resolver grants,
    while the inherent [all] lists every permission. *)
Theorem builtin_effective_permissions_empty {Reg PReg St C G}
    `{!RoleRegistry Reg KirinoPermission, !PermissionRegistry PReg KirinoPermission,
      !AssignmentStore St string KirinoPermission, !PermissionCache C string KirinoPermission,
      !GrantResolver G KirinoPermission}
    (e : RbacEngine Reg PReg St C) (ctx : PermissionContext) (resolver : G) :
  resolve_effective_permissions (P := KirinoPermission) e ctx resolver = Ok [] ∧
  ∀ p, p ∈ Inherent.all.
Proof. split; [done|]. rewrite inherent_all_values. apply all_values_complete. Qed.

(** ** Witnesses *)

(** bob is an editor: he may write, and through the hierarchy read. *)
Lemma check_answers_decision_witness :
  (check Demo.bob_edits (Demo.at_time 5) "bob" Demo.write).1 = true.
Proof.
  apply (check_answers_decision (S := string) Demo.engine0 Demo.bob_edits 0 1).
  - apply Demo.engine0_cold.
  - apply Demo.bob_edits_reach.
  - simpl; lia.
  - apply Demo.reads_ok.
  - split; [apply (bool_decide_unpack _); by vm_compute|].
    right. exists "editor". split; apply (bool_decide_unpack _); by vm_compute.
Defined.

Lemma check_hierarchical_answers_decision_witness :
  (check_hierarchical Demo.bob_edits (Demo.at_time 5) "bob" Demo.read).1 = true.
Proof.
  apply (check_hierarchical_answers_decision (S := string) Demo.engine0 Demo.bob_edits 0 1).
  - apply Demo.engine0_cold.
  - apply Demo.bob_edits_reach.
  - simpl; lia.
  - apply Demo.reads_ok.
  - split; [apply (bool_decide_unpack _); by vm_compute|].
    right. exists "editor", "viewer". split_and!.
    + apply (bool_decide_unpack _); by vm_compute.
    + apply rtc_once. split; [by eexists|]. apply (bool_decide_unpack _); by vm_compute.
    + exists {[Demo.read]}. split; [reflexivity|]. apply (bool_decide_unpack _); by vm_compute.
Defined.

Lemma effective_permissions_agree_witness :
  ∃ perms, effective_permissions Demo.bob_edits "bob" = Ok perms ∧
    (Demo.write ∈ perms ↔ (check Demo.bob_edits (Demo.at_time 5) "bob" Demo.write).1 = true).
Proof.
  apply (effective_permissions_agree (S := string)); [|apply Demo.reads_ok].
  apply cold_coherent, Demo.bob_edits_cold.
Defined.

(** The call in flight of [in_flight_check_revives_revoked_grant], left
    alone: it returns [true] and viewer still grants reading. *)
Lemma no_grant_out_of_thin_air_witness :
  ∃ hist : list (InMemoryAssignmentStore Demo.Perm),
    justified (S := string) Demo.registry hist "bob" Demo.read.
Proof.
  set (e0 := Demo.assign Demo.engine0 "bob" "viewer").
  set (e1 := (check_phase e0 (Demo.at_time 1) "bob" Demo.read (Remembering true)).2).
  set (c := λ ph, Build_call (Demo.at_time 1) "bob" Demo.read ph).
  eexists.
  apply (no_grant_out_of_thin_air (S := string) e1 [c (Done true)] _ (c (Done true)));
    [|constructor|done].
  eapply (trace_step (e0, [c (Remembering true)]));
    [|by apply (race_advance e0 [c (Remembering true)] 0 (c (Remembering true)))].
  eapply (trace_step (e0, [c NotExtra])); [|by apply (race_advance e0 [c NotExtra] 0 (c NotExtra))].
  eapply (trace_step (e0, [c NotDenied])); [|by apply (race_advance e0 [c NotDenied] 0 (c NotDenied))].
  eapply (trace_step (e0, [c Missed])); [|by apply (race_advance e0 [c Missed] 0 (c Missed))].
  eapply (trace_step (e0, [c Begin])); [|by apply (race_advance e0 [c Begin] 0 (c Begin))].
  eapply (trace_step (e0, [])); [|apply (race_call e0 [])].
  apply trace_start. apply ttl_cold.
Defined.

Lemma unreadable_store_denies_witness :
  ∃ (st : AssignmentStore unit string Demo.Perm),
    let e := RbacEngine_new Demo.registry (StaticPermissionRegistry_new {[Demo.read]}) tt
      (TtlPermissionCache_new 300) in
    check e (Demo.at_time 1) "bob" Demo.read = (false, e) ∧
    check_hierarchical e (Demo.at_time 1) "bob" Demo.read = (false, e).
Proof.
  set (down := Anyhow "connection refused").
  exists {| assign_role _ _ _ := (Err down, tt); revoke_role _ _ _ := (Err down, tt);
    roles_of _ _ := Err down; subjects_with_role _ _ := Err down;
    extra_permissions _ _ := Err down; set_extra_permissions _ _ _ := (Err down, tt);
    denied_permissions _ _ := Err down; set_denied_permissions _ _ _ := (Err down, tt) |}.
  apply (unreadable_store_denies (S := string)) with (err := down); [apply ttl_cold|by left].
Defined.

(** bob is checked at time 0, loses his role with no invalidation, and is
    refused at time 300. *)
Lemma staleness_is_bounded_witness :
  (check (Demo.revoke (check Demo.bob_edits (Demo.at_time 0) "bob" Demo.write).2 "bob" "editor")
     (Demo.at_time 300) "bob" Demo.write).1 = false.
Proof.
  set (e := Demo.revoke _ _ _).
  rewrite (staleness_is_bounded (S := string) Demo.bob_edits e 0 0).
  - by vm_compute.
  - by vm_compute.
  - apply rtc_l with ((check Demo.bob_edits (Demo.at_time 0) "bob" Demo.write).2, 0%Z).
    + eapply (free_check (S := string) check _ 0 0 (Demo.at_time 0)); [lia|simpl; lia|].
      apply surjective_pairing.
    + apply rtc_once. by apply free_change.
  - simpl; lia.
  - apply Demo.reads_ok.
Defined.

Lemma roles_outage_pins_denial_witness :
  let outage := (check (Outage.engine_at true (TtlPermissionCache_new 300)) (Demo.at_time 0)
                   "bob" Demo.write).2 in
  let recovered := Outage.engine_at false (cache outage) in
  (check recovered (Demo.at_time 299) "bob" Demo.write).1 = false ∧
  (check recovered (Demo.at_time 300) "bob" Demo.write).1 = true.
Proof.
  intros outage recovered. split; [|by vm_compute].
  destruct (roles_outage_pins_denial (S := string) (P := Demo.Perm)
    (Outage.engine_at true (TtlPermissionCache_new 300)) recovered
    (Demo.at_time 0) (Demo.at_time 299) "bob" Demo.write ∅ ∅ (Anyhow "connection refused"))
    as [_ Hpinned].
  - apply ttl_cold.
  - done.
  - set_solver.
  - done.
  - set_solver.
  - done.
  - apply Nat.ltb_lt. by vm_compute.
  - done.
  - simpl. lia.
  - by rewrite Hpinned.
Defined.

Lemma flat_check_repeats_hierarchical_witness :
  (check Demo.bob_edits (Demo.at_time 0) "bob" Demo.read).1 = false ∧
  (check (check_hierarchical Demo.bob_edits (Demo.at_time 0) "bob" Demo.read).2
     (Demo.at_time 1) "bob" Demo.read).1 = true.
Proof.
  split; [by vm_compute|].
  rewrite (flat_check_repeats_hierarchical (S := string)).
  - by vm_compute.
  - apply Demo.bob_edits_cold.
  - apply Demo.reads_ok.
  - apply Nat.ltb_lt. by vm_compute.
  - simpl. lia.
Defined.
