(* ===== verification/Constraints.v ===== *)
(** * Assignment constraints: src/src/rbac/constraints/

    - the policies and their predicates: policies.rs;
    - [ConstraintStore] and the in-memory implementation: store.rs;
    - [ConstraintValidator], the fail-closed gate: validator.rs.

    Instants are integers (nanoseconds); the readings of [Utc::now()] are an
    argument of the checks that make them.  A [usize] count is a [nat].  The text of a date is
    chrono's: [show_datetime]. *)

From S2P Require Import Prelude Traits Catalog Store.

(** ** Policies *)

Abbreviation DateTime := Z (only parsing).

(** [define_sod_policy!] expands to two types of one shape. *)
Inductive SodKind := Ssd | Dsd.

Record SodPolicy (k : SodKind) := {
  sod_name : string;
  sod_roles : gset string;
  cardinality : nat;
}.
Arguments sod_name {k} _.
Arguments sod_roles {k} _.
Arguments cardinality {k} _.
Abbreviation SsdPolicy := (SodPolicy Ssd).
Abbreviation DsdPolicy := (SodPolicy Dsd).

Definition SodPolicy_new (k : SodKind) (name : string) (roles : gset string) (card : nat)
    : SodPolicy k :=
  {| sod_name := name; sod_roles := roles; cardinality := card `max` 1 |}.

(** How many entries of [roles] the policy lists, per occurrence. *)
Definition sod_count {k} (p : SodPolicy k) (roles : list string) : nat :=
  length (filter (λ r, r ∈ sod_roles p) roles).

Definition sod_validate {k} (p : SodPolicy k) (roles : list string) : bool :=
  bool_decide (sod_count p roles < cardinality p).

Record CardinalityConstraint := {
  card_role : string;
  max_subjects : nat;
}.

Definition CardinalityConstraint_new (role : string) (n : nat) : CardinalityConstraint :=
  {| card_role := role; max_subjects := n `max` 1 |}.

Definition card_validate (c : CardinalityConstraint) (current_count : nat) : bool :=
  bool_decide (current_count < max_subjects c).

Record PrerequisiteConstraint := PrerequisiteConstraint_new {
  pre_role : string;
  requires : string;
}.

Definition pre_validate (c : PrerequisiteConstraint) (assigned_roles : list string) : bool :=
  bool_decide (requires c ∈ assigned_roles).

Record TemporalConstraint := {
  temp_role : string;
  valid_from : DateTime;
  valid_until : DateTime;
}.

Definition TemporalConstraint_new (show_datetime : DateTime → string)
    (role : string) (from until : DateTime) : result TemporalConstraint :=
  if (until <=? from)%Z then
    Err (Kirino (Validation ("TemporalConstraint: valid_from (" +:+ show_datetime from +:+
      ") must be before valid_until (" +:+ show_datetime until +:+ ")")))
  else Ok {| temp_role := role; valid_from := from; valid_until := until |}.

Definition is_valid (c : TemporalConstraint) (now : DateTime) : bool :=
  (valid_from c <=? now)%Z && (now <=? valid_until c)%Z.

(** ** The store interface *)

Class ConstraintStore (C : Type) := {
  list_ssd_policies : C → result (list SsdPolicy);
  add_ssd_policy : C → SsdPolicy → result unit * C;
  remove_ssd_policy : C → string → result bool * C;
  list_dsd_policies : C → result (list DsdPolicy);
  add_dsd_policy : C → DsdPolicy → result unit * C;
  remove_dsd_policy : C → string → result bool * C;
  list_cardinality_constraints : C → result (list CardinalityConstraint);
  add_cardinality_constraint : C → CardinalityConstraint → result unit * C;
  remove_cardinality_constraint : C → string → result bool * C;
  list_prerequisite_constraints : C → result (list PrerequisiteConstraint);
  add_prerequisite_constraint : C → PrerequisiteConstraint → result unit * C;
  remove_prerequisite_constraint : C → string → result bool * C;
  remove_prerequisite_constraint_for : C → string → string → result bool * C;
  list_temporal_constraints : C → result (list TemporalConstraint);
  add_temporal_constraint : C → TemporalConstraint → result unit * C;
  remove_temporal_constraint : C → string → result bool * C;
  remove_temporal_constraint_for : C → string → DateTime → DateTime → result bool * C;
}.

(** ** The in-memory store *)

Record InMemoryConstraintStore := {
  ssd_policies : list SsdPolicy;
  dsd_policies : list DsdPolicy;
  cardinality_entries : list CardinalityConstraint;
  prerequisites : list PrerequisiteConstraint;
  temporal : list TemporalConstraint;
}.

Definition InMemoryConstraintStore_new : InMemoryConstraintStore := {|
  ssd_policies := [];
  dsd_policies := [];
  cardinality_entries := [];
  prerequisites := [];
  temporal := [];
|}.

Definition with_ssd (st : InMemoryConstraintStore) l := {|
  ssd_policies := l; dsd_policies := dsd_policies st;
  cardinality_entries := cardinality_entries st; prerequisites := prerequisites st;
  temporal := temporal st |}.
Definition with_dsd (st : InMemoryConstraintStore) l := {|
  ssd_policies := ssd_policies st; dsd_policies := l;
  cardinality_entries := cardinality_entries st; prerequisites := prerequisites st;
  temporal := temporal st |}.
Definition with_cardinality (st : InMemoryConstraintStore) l := {|
  ssd_policies := ssd_policies st; dsd_policies := dsd_policies st;
  cardinality_entries := l; prerequisites := prerequisites st;
  temporal := temporal st |}.
Definition with_prerequisites (st : InMemoryConstraintStore) l := {|
  ssd_policies := ssd_policies st; dsd_policies := dsd_policies st;
  cardinality_entries := cardinality_entries st; prerequisites := l;
  temporal := temporal st |}.
Definition with_temporal (st : InMemoryConstraintStore) l := {|
  ssd_policies := ssd_policies st; dsd_policies := dsd_policies st;
  cardinality_entries := cardinality_entries st; prerequisites := prerequisites st;
  temporal := l |}.

(** [Vec::retain] with the length comparison every [remove_*] makes. *)
Definition retain {A} (keep : A → bool) (l : list A) : result bool * list A :=
  let l' := filter (λ x, keep x = true) l in
  (Ok (bool_decide (length l' < length l)), l').

Definition mem_list_ssd_policies (st : InMemoryConstraintStore) := Ok (ssd_policies st).
Definition mem_add_ssd_policy (st : InMemoryConstraintStore) (policy : SsdPolicy)
    : result unit * InMemoryConstraintStore :=
  if existsb (λ p, bool_decide (sod_name p = sod_name policy)) (ssd_policies st) then
    (Err (Anyhow ("SSD policy with name '" +:+ sod_name policy +:+ "' already exists")), st)
  else (Ok tt, with_ssd st (ssd_policies st ++ [policy])).
Definition mem_remove_ssd_policy (st : InMemoryConstraintStore) (name : string)
    : result bool * InMemoryConstraintStore :=
  let r := retain (λ p, negb (bool_decide (sod_name p = name))) (ssd_policies st) in
  (r.1, with_ssd st r.2).

Definition mem_list_dsd_policies (st : InMemoryConstraintStore) := Ok (dsd_policies st).
Definition mem_add_dsd_policy (st : InMemoryConstraintStore) (policy : DsdPolicy)
    : result unit * InMemoryConstraintStore :=
  if existsb (λ p, bool_decide (sod_name p = sod_name policy)) (dsd_policies st) then
    (Err (Anyhow ("DSD policy with name '" +:+ sod_name policy +:+ "' already exists")), st)
  else (Ok tt, with_dsd st (dsd_policies st ++ [policy])).
Definition mem_remove_dsd_policy (st : InMemoryConstraintStore) (name : string)
    : result bool * InMemoryConstraintStore :=
  let r := retain (λ p, negb (bool_decide (sod_name p = name))) (dsd_policies st) in
  (r.1, with_dsd st r.2).

Definition mem_list_cardinality_constraints (st : InMemoryConstraintStore) :=
  Ok (cardinality_entries st).
Definition mem_add_cardinality_constraint (st : InMemoryConstraintStore)
    (c : CardinalityConstraint) : result unit * InMemoryConstraintStore :=
  if existsb (λ d, bool_decide (card_role d = card_role c)) (cardinality_entries st) then
    (Err (Anyhow ("cardinality constraint for role '" +:+ card_role c +:+ "' already exists")), st)
  else (Ok tt, with_cardinality st (cardinality_entries st ++ [c])).
Definition mem_remove_cardinality_constraint (st : InMemoryConstraintStore) (role : string)
    : result bool * InMemoryConstraintStore :=
  let r := retain (λ c, negb (bool_decide (card_role c = role))) (cardinality_entries st) in
  (r.1, with_cardinality st r.2).

Definition mem_list_prerequisite_constraints (st : InMemoryConstraintStore) :=
  Ok (prerequisites st).
Definition mem_add_prerequisite_constraint (st : InMemoryConstraintStore)
    (c : PrerequisiteConstraint) : result unit * InMemoryConstraintStore :=
  if existsb (λ d, bool_decide (pre_role d = pre_role c) && bool_decide (requires d = requires c))
       (prerequisites st) then
    (Err (Anyhow ("prerequisite constraint for role '" +:+ pre_role c +:+ "' requiring '" +:+
       requires c +:+ "' already exists")), st)
  else (Ok tt, with_prerequisites st (prerequisites st ++ [c])).
Definition mem_remove_prerequisite_constraint (st : InMemoryConstraintStore) (role : string)
    : result bool * InMemoryConstraintStore :=
  let r := retain (λ c, negb (bool_decide (pre_role c = role))) (prerequisites st) in
  (r.1, with_prerequisites st r.2).
Definition mem_remove_prerequisite_constraint_for (st : InMemoryConstraintStore)
    (role req : string) : result bool * InMemoryConstraintStore :=
  let r := retain (λ c, negb (bool_decide (pre_role c = role) && bool_decide (requires c = req)))
             (prerequisites st) in
  (r.1, with_prerequisites st r.2).

Definition mem_list_temporal_constraints (st : InMemoryConstraintStore) := Ok (temporal st).
Definition mem_add_temporal_constraint (st : InMemoryConstraintStore) (c : TemporalConstraint)
    : result unit * InMemoryConstraintStore :=
  if existsb (λ d, bool_decide (temp_role d = temp_role c) &&
                   bool_decide (valid_from d = valid_from c) &&
                   bool_decide (valid_until d = valid_until c)) (temporal st) then
    (Err (Anyhow ("identical temporal constraint for role '" +:+ temp_role c +:+
       "' already exists")), st)
  else (Ok tt, with_temporal st (temporal st ++ [c])).
Definition mem_remove_temporal_constraint (st : InMemoryConstraintStore) (role : string)
    : result bool * InMemoryConstraintStore :=
  let r := retain (λ c, negb (bool_decide (temp_role c = role))) (temporal st) in
  (r.1, with_temporal st r.2).
Definition mem_remove_temporal_constraint_for (st : InMemoryConstraintStore)
    (role : string) (from until : DateTime) : result bool * InMemoryConstraintStore :=
  let r := retain (λ c, negb (bool_decide (temp_role c = role) &&
                              bool_decide (valid_from c = from) &&
                              bool_decide (valid_until c = until))) (temporal st) in
  (r.1, with_temporal st r.2).

#[export] Instance mem_constraint_store : ConstraintStore InMemoryConstraintStore := {|
  list_ssd_policies := mem_list_ssd_policies;
  add_ssd_policy := mem_add_ssd_policy;
  remove_ssd_policy := mem_remove_ssd_policy;
  list_dsd_policies := mem_list_dsd_policies;
  add_dsd_policy := mem_add_dsd_policy;
  remove_dsd_policy := mem_remove_dsd_policy;
  list_cardinality_constraints := mem_list_cardinality_constraints;
  add_cardinality_constraint := mem_add_cardinality_constraint;
  remove_cardinality_constraint := mem_remove_cardinality_constraint;
  list_prerequisite_constraints := mem_list_prerequisite_constraints;
  add_prerequisite_constraint := mem_add_prerequisite_constraint;
  remove_prerequisite_constraint := mem_remove_prerequisite_constraint;
  remove_prerequisite_constraint_for := mem_remove_prerequisite_constraint_for;
  list_temporal_constraints := mem_list_temporal_constraints;
  add_temporal_constraint := mem_add_temporal_constraint;
  remove_temporal_constraint := mem_remove_temporal_constraint;
  remove_temporal_constraint_for := mem_remove_temporal_constraint_for;
|}.

(** ** The validator *)

Section Validator.
Context {C : Type} `{ConstraintStore C}.
Implicit Types (cs : C).

(** The [for] loop of every check: the first offending element decides. *)
Fixpoint first_violation {A} (violated : A → bool) (error : A → Error) (l : list A)
    : result unit :=
  match l with
  | [] => Ok tt
  | x :: l => if violated x then Err (error x) else first_violation violated error l
  end.

Definition validate_ssd (cs : C) (current_roles : list string) (new_role : string)
    : result unit :=
  policies ← list_ssd_policies cs;
  if bool_decide (new_role ∈ current_roles) then Ok tt
  else
    let test_roles := current_roles ++ [new_role] in
    first_violation (λ policy, negb (sod_validate policy test_roles))
      (λ policy, Kirino (ConstraintViolation ("SSD policy '" +:+ sod_name policy +:+
        "' violated: adding '" +:+ new_role +:+ "' would exceed cardinality " +:+
        pretty (cardinality policy)))) policies.

Definition validate_dsd (cs : C) (active_roles : list string) (new_role : string)
    : result unit :=
  policies ← list_dsd_policies cs;
  if bool_decide (new_role ∈ active_roles) then Ok tt
  else
    let test_roles := active_roles ++ [new_role] in
    first_violation (λ policy, negb (sod_validate policy test_roles))
      (λ policy, Kirino (ConstraintViolation ("DSD policy '" +:+ sod_name policy +:+
        "' violated: activating '" +:+ new_role +:+ "' exceeds cardinality " +:+
        pretty (cardinality policy)))) policies.

(** [is_valid] reads the wall clock anew for each window: [clock i] is the
    reading at the window of index [i]. *)
Definition validate_temporal (cs : C) (clock : nat → DateTime) (role_name : string)
    : result unit :=
  constraints ← list_temporal_constraints cs;
  first_violation
    (λ ic : nat * TemporalConstraint,
       bool_decide (temp_role ic.2 = role_name) && negb (is_valid ic.2 (clock ic.1)))
    (λ _, Kirino (ConstraintViolation ("Temporal constraint: role '" +:+ role_name +:+
      "' is not available at the current time"))) (imap pair constraints).

Definition validate_cardinality (cs : C) (role_name : string) (current_subject_count : nat)
    : result unit :=
  constraints ← list_cardinality_constraints cs;
  first_violation
    (λ c, bool_decide (card_role c = role_name) && negb (card_validate c current_subject_count))
    (λ c, Kirino (ConstraintViolation ("Cardinality constraint: role '" +:+ role_name +:+
      "' already has " +:+ pretty current_subject_count +:+ " subjects (max " +:+
      pretty (max_subjects c) +:+ ")"))) constraints.

Definition validate_prerequisite (cs : C) (role_name : string) (current_roles : list string)
    : result unit :=
  constraints ← list_prerequisite_constraints cs;
  first_violation
    (λ c, bool_decide (pre_role c = role_name) && negb (pre_validate c current_roles))
    (λ c, Kirino (ConstraintViolation ("Prerequisite constraint: role '" +:+ role_name +:+
      "' requires '" +:+ requires c +:+ "'"))) constraints.

Definition validate_assignment (cs : C) (clock : nat → DateTime) (current_roles : list string)
    (new_role : string) (current_subject_count : nat) : result unit :=
  _ ← validate_ssd cs current_roles new_role;
  _ ← validate_cardinality cs new_role current_subject_count;
  _ ← validate_prerequisite cs new_role current_roles;
  _ ← validate_temporal cs clock new_role;
  Ok tt.

(** ** What each check accepts *)

Lemma first_violation_ok {A} (violated : A → bool) error (l : list A) :
  first_violation violated error l = Ok tt ↔ ∀ x, x ∈ l → violated x = false.
Proof.
  induction l as [|x l IH]; simpl.
  { split; [|done]. intros _ x Hx. by apply not_elem_of_nil in Hx. }
  destruct (violated x) eqn:Hx.
  - split; [done|]. intros Hall. specialize (Hall x). rewrite Hx in Hall.
    discriminate Hall. constructor.
  - rewrite IH. split; [|set_solver]. intros Hl y [->|]%elem_of_cons; auto.
Qed.

Definition ssd_admits (policies : list SsdPolicy) (current_roles : list string) (new : string)
    : Prop :=
  new ∈ current_roles ∨
  ∀ p, p ∈ policies → sod_count p (current_roles ++ [new]) < cardinality p.

Definition dsd_admits (policies : list DsdPolicy) (active_roles : list string) (new : string)
    : Prop :=
  new ∈ active_roles ∨
  ∀ p, p ∈ policies → sod_count p (active_roles ++ [new]) < cardinality p.

Lemma sod_violated_false {k} (p : SodPolicy k) roles :
  negb (sod_validate p roles) = false ↔ sod_count p roles < cardinality p.
Proof. unfold sod_validate. by rewrite negb_false_iff, bool_decide_eq_true. Qed.

Lemma validate_ssd_ok cs cur new :
  validate_ssd cs cur new = Ok tt ↔
  ∃ ps, list_ssd_policies cs = Ok ps ∧ ssd_admits ps cur new.
Proof.
  unfold validate_ssd. rewrite bind_ok. f_equiv. intros ps. f_equiv. unfold ssd_admits.
  case_bool_decide; [naive_solver|]. rewrite first_violation_ok.
  setoid_rewrite sod_violated_false. naive_solver.
Qed.

Lemma validate_dsd_ok cs active new :
  validate_dsd cs active new = Ok tt ↔
  ∃ ps, list_dsd_policies cs = Ok ps ∧ dsd_admits ps active new.
Proof.
  unfold validate_dsd. rewrite bind_ok. f_equiv. intros ps. f_equiv. unfold dsd_admits.
  case_bool_decide; [naive_solver|]. rewrite first_violation_ok.
  setoid_rewrite sod_violated_false. naive_solver.
Qed.

(** A check that ranges over the entries stored for one role. *)
Lemma role_check_ok {A} (role_of : A → string) (ok : A → bool) error role (l : list A) :
  first_violation (λ c, bool_decide (role_of c = role) && negb (ok c)) error l = Ok tt ↔
  ∀ c, c ∈ l → role_of c = role → ok c = true.
Proof.
  rewrite first_violation_ok. apply forall_proper. intros c.
  rewrite andb_false_iff, bool_decide_eq_false, negb_false_iff.
  destruct (decide (role_of c = role)); naive_solver.
Qed.

Lemma validate_cardinality_ok cs role n :
  validate_cardinality cs role n = Ok tt ↔
  ∃ cc, list_cardinality_constraints cs = Ok cc ∧
    ∀ c, c ∈ cc → card_role c = role → n < max_subjects c.
Proof.
  unfold validate_cardinality. rewrite bind_ok. f_equiv. intros cc. f_equiv.
  rewrite (role_check_ok card_role). unfold card_validate.
  by setoid_rewrite bool_decide_eq_true.
Qed.

Lemma validate_prerequisite_ok cs role cur :
  validate_prerequisite cs role cur = Ok tt ↔
  ∃ pc, list_prerequisite_constraints cs = Ok pc ∧
    ∀ c, c ∈ pc → pre_role c = role → requires c ∈ cur.
Proof.
  unfold validate_prerequisite. rewrite bind_ok. f_equiv. intros pc. f_equiv.
  rewrite (role_check_ok pre_role). unfold pre_validate.
  by setoid_rewrite bool_decide_eq_true.
Qed.

Lemma is_valid_iff c now : is_valid c now = true ↔ (valid_from c ≤ now ≤ valid_until c)%Z.
Proof. unfold is_valid. rewrite andb_true_iff, !Z.leb_le. lia. Qed.

Lemma validate_temporal_ok cs clock role :
  validate_temporal cs clock role = Ok tt ↔
  ∃ tc, list_temporal_constraints cs = Ok tc ∧
    ∀ i c, tc !! i = Some c → temp_role c = role →
      (valid_from c ≤ clock i ≤ valid_until c)%Z.
Proof.
  unfold validate_temporal. rewrite bind_ok. f_equiv. intros tc. f_equiv.
  rewrite (role_check_ok (λ ic : nat * TemporalConstraint, temp_role ic.2)
             (λ ic, is_valid ic.2 (clock ic.1))).
  split.
  - intros Hall i c Hi Hr. apply is_valid_iff, (Hall (i, c)); [|done].
    apply elem_of_lookup_imap. eauto.
  - intros Hall ? (i & c & -> & Hi)%elem_of_lookup_imap Hr. apply is_valid_iff. by apply Hall.
Qed.
End Validator.

(** ** The store as five keyed maps

    The vectors of the store hold at most one entry per key: the name of a
    policy, the role of a cardinality bound, the role and its requirement,
    the role and the window. *)

Section Keyed.
Context {A K : Type} `{Countable K} (key : A → K).

Record keyed (l : list A) (m : gmap K A) : Prop := {
  keyed_nodup : NoDup (key <$> l);
  keyed_elem : ∀ k x, m !! k = Some x ↔ x ∈ l ∧ key x = k;
}.

Definition spec_add (e : Error) (x : A) (m : gmap K A) : result unit * gmap K A :=
  match m !! key x with
  | Some _ => (Err e, m)
  | None => (Ok tt, <[key x := x]> m)
  end.

Definition spec_remove (sel : K → bool) (m : gmap K A) : result bool * gmap K A :=
  (Ok (bool_decide (∃ k, k ∈ dom m ∧ sel k = true) : bool),
   filter (λ kx : K * A, sel kx.1 = false) m).

Lemma keyed_nil : keyed [] ∅.
Proof.
  split; [constructor|]. intros k x. rewrite lookup_empty, elem_of_nil. naive_solver.
Qed.

(** A stored key is found by the [any] of [add_*], whatever its shape. *)
Lemma keyed_any (found : A → bool) l m x :
  (∀ y, found y = true ↔ key y = key x) → keyed l m →
  existsb found l = bool_decide (is_Some (m !! key x)).
Proof.
  intros Hfound [_ Helem]. apply eq_true_iff_eq. rewrite existsb_elem, bool_decide_eq_true.
  split.
  - intros (y & Hy & Hk%Hfound). exists y. by apply Helem.
  - intros [y [Hy Hk]%Helem]. exists y. split; [done|]. by apply Hfound.
Qed.

Lemma keyed_add l m x : m !! key x = None → keyed l m → keyed (l ++ [x]) (<[key x := x]> m).
Proof.
  intros Hnone [Hnd Helem].
  assert (Hfresh : ∀ y, y ∈ l → key y ≠ key x).
  { intros y Hy Hk. assert (Hs : m !! key x = Some y) by (apply Helem; auto). congruence. }
  split.
  - rewrite fmap_app. apply NoDup_app. split_and!; [done| |apply NoDup_singleton].
    intros k (y & -> & Hy)%list_elem_of_fmap Hin. apply list_elem_of_singleton in Hin.
    by apply (Hfresh y).
  - intros k y. rewrite lookup_insert_Some, elem_of_app, list_elem_of_singleton, Helem.
    split; [naive_solver|]. intros [[Hy| ->] Hk]; [right|left; naive_solver].
    split; [|done]. intros Heq. apply (Hfresh y); congruence.
Qed.

Lemma keyed_retain (sel : K → bool) l m :
  keyed l m →
  (retain (λ x, negb (sel (key x))) l).1 = (spec_remove sel m).1 ∧
  keyed (retain (λ x, negb (sel (key x))) l).2 (spec_remove sel m).2.
Proof.
  intros [Hnd Helem]. split.
  - unfold retain, spec_remove. simpl. f_equal. apply bool_decide_ext. rewrite length_filter_lt_iff. split.
    + intros (x & Hx & Hsel). exists (key x). split; [apply elem_of_dom; exists x; by apply Helem|].
      by destruct (sel (key x)).
    + intros (k & [x [Hx <-]%Helem]%elem_of_dom & Hsel). exists x. by rewrite Hsel.
  - unfold retain, spec_remove. simpl. split.
    + eapply sublist_NoDup; [exact Hnd|]. by apply fmap_sublist, sublist_filter.
    + intros k x. rewrite map_lookup_filter_Some, Helem, list_elem_of_filter. simpl.
      rewrite negb_true_iff. naive_solver.
Qed.
End Keyed.

(** *** The five maps *)

Record ConstraintSpec := {
  s_ssd : gmap string SsdPolicy;
  s_dsd : gmap string DsdPolicy;
  s_cardinality : gmap string CardinalityConstraint;
  s_prerequisite : gmap (string * string) PrerequisiteConstraint;
  s_temporal : gmap (string * DateTime * DateTime) TemporalConstraint;
}.

Definition pre_key (c : PrerequisiteConstraint) : string * string := (pre_role c, requires c).
Definition temp_key (c : TemporalConstraint) : string * DateTime * DateTime :=
  (temp_role c, valid_from c, valid_until c).

Definition empty_spec : ConstraintSpec := {|
  s_ssd := ∅; s_dsd := ∅; s_cardinality := ∅; s_prerequisite := ∅; s_temporal := ∅ |}.

Inductive constraint_op :=
  | AddSsd (p : SsdPolicy) | RemoveSsd (name : string)
  | AddDsd (p : DsdPolicy) | RemoveDsd (name : string)
  | AddCardinality (c : CardinalityConstraint) | RemoveCardinality (role : string)
  | AddPrerequisite (c : PrerequisiteConstraint) | RemovePrerequisite (role : string)
  | RemovePrerequisiteFor (role req : string)
  | AddTemporal (c : TemporalConstraint) | RemoveTemporal (role : string)
  | RemoveTemporalFor (role : string) (from until : DateTime).

(** What a call returns: [add_*] a unit, [remove_*] a flag. *)
Definition answer : Type := result unit + result bool.

Definition run_op {C} `{ConstraintStore C} (cs : C) (op : constraint_op) : answer * C :=
  let added := λ r : result unit * C, (inl r.1, r.2) in
  let removed := λ r : result bool * C, (inr r.1, r.2) in
  match op with
  | AddSsd p => added (add_ssd_policy cs p)
  | RemoveSsd name => removed (remove_ssd_policy cs name)
  | AddDsd p => added (add_dsd_policy cs p)
  | RemoveDsd name => removed (remove_dsd_policy cs name)
  | AddCardinality c => added (add_cardinality_constraint cs c)
  | RemoveCardinality role => removed (remove_cardinality_constraint cs role)
  | AddPrerequisite c => added (add_prerequisite_constraint cs c)
  | RemovePrerequisite role => removed (remove_prerequisite_constraint cs role)
  | RemovePrerequisiteFor role req => removed (remove_prerequisite_constraint_for cs role req)
  | AddTemporal c => added (add_temporal_constraint cs c)
  | RemoveTemporal role => removed (remove_temporal_constraint cs role)
  | RemoveTemporalFor role from until => removed (remove_temporal_constraint_for cs role from until)
  end.

Definition set_s_ssd (sp : ConstraintSpec) m := {| s_ssd := m; s_dsd := s_dsd sp;
  s_cardinality := s_cardinality sp; s_prerequisite := s_prerequisite sp;
  s_temporal := s_temporal sp |}.
Definition set_s_dsd (sp : ConstraintSpec) m := {| s_ssd := s_ssd sp; s_dsd := m;
  s_cardinality := s_cardinality sp; s_prerequisite := s_prerequisite sp;
  s_temporal := s_temporal sp |}.
Definition set_s_cardinality (sp : ConstraintSpec) m := {| s_ssd := s_ssd sp; s_dsd := s_dsd sp;
  s_cardinality := m; s_prerequisite := s_prerequisite sp; s_temporal := s_temporal sp |}.
Definition set_s_prerequisite (sp : ConstraintSpec) m := {| s_ssd := s_ssd sp; s_dsd := s_dsd sp;
  s_cardinality := s_cardinality sp; s_prerequisite := m; s_temporal := s_temporal sp |}.
Definition set_s_temporal (sp : ConstraintSpec) m := {| s_ssd := s_ssd sp; s_dsd := s_dsd sp;
  s_cardinality := s_cardinality sp; s_prerequisite := s_prerequisite sp; s_temporal := m |}.

Definition duplicate_ssd (p : SsdPolicy) : Error :=
  Anyhow ("SSD policy with name '" +:+ sod_name p +:+ "' already exists").
Definition duplicate_dsd (p : DsdPolicy) : Error :=
  Anyhow ("DSD policy with name '" +:+ sod_name p +:+ "' already exists").
Definition duplicate_cardinality (c : CardinalityConstraint) : Error :=
  Anyhow ("cardinality constraint for role '" +:+ card_role c +:+ "' already exists").
Definition duplicate_prerequisite (c : PrerequisiteConstraint) : Error :=
  Anyhow ("prerequisite constraint for role '" +:+ pre_role c +:+ "' requiring '" +:+
    requires c +:+ "' already exists").
Definition duplicate_temporal (c : TemporalConstraint) : Error :=
  Anyhow ("identical temporal constraint for role '" +:+ temp_role c +:+ "' already exists").

Definition eqb `{EqDecision A} (x y : A) : bool := bool_decide (x = y).

Definition spec_op (sp : ConstraintSpec) (op : constraint_op) : answer * ConstraintSpec :=
  let added {M} (put : M → ConstraintSpec) := λ r : result unit * M, (inl r.1, put r.2) in
  let removed {M} (put : M → ConstraintSpec) := λ r : result bool * M, (inr r.1, put r.2) in
  match op with
  | AddSsd p => added (set_s_ssd sp) (spec_add sod_name (duplicate_ssd p) p (s_ssd sp))
  | RemoveSsd n => removed (set_s_ssd sp) (spec_remove (λ k, eqb k n) (s_ssd sp))
  | AddDsd p => added (set_s_dsd sp) (spec_add sod_name (duplicate_dsd p) p (s_dsd sp))
  | RemoveDsd n => removed (set_s_dsd sp) (spec_remove (λ k, eqb k n) (s_dsd sp))
  | AddCardinality c => added (set_s_cardinality sp)
      (spec_add card_role (duplicate_cardinality c) c (s_cardinality sp))
  | RemoveCardinality r => removed (set_s_cardinality sp)
      (spec_remove (λ k, eqb k r) (s_cardinality sp))
  | AddPrerequisite c => added (set_s_prerequisite sp)
      (spec_add pre_key (duplicate_prerequisite c) c (s_prerequisite sp))
  | RemovePrerequisite r => removed (set_s_prerequisite sp)
      (spec_remove (λ k, eqb k.1 r) (s_prerequisite sp))
  | RemovePrerequisiteFor r q => removed (set_s_prerequisite sp)
      (spec_remove (λ k, eqb k.1 r && eqb k.2 q) (s_prerequisite sp))
  | AddTemporal c => added (set_s_temporal sp)
      (spec_add temp_key (duplicate_temporal c) c (s_temporal sp))
  | RemoveTemporal r => removed (set_s_temporal sp)
      (spec_remove (λ k, eqb k.1.1 r) (s_temporal sp))
  | RemoveTemporalFor r from until => removed (set_s_temporal sp)
      (spec_remove (λ k, eqb k.1.1 r && eqb k.1.2 from && eqb k.2 until) (s_temporal sp))
  end.

(** The simulation relation. *)
Record represents (st : InMemoryConstraintStore) (sp : ConstraintSpec) : Prop := {
  rep_ssd : keyed sod_name (ssd_policies st) (s_ssd sp);
  rep_dsd : keyed sod_name (dsd_policies st) (s_dsd sp);
  rep_cardinality : keyed card_role (cardinality_entries st) (s_cardinality sp);
  rep_prerequisite : keyed pre_key (prerequisites st) (s_prerequisite sp);
  rep_temporal : keyed temp_key (temporal st) (s_temporal sp);
}.

Lemma represents_new : represents InMemoryConstraintStore_new empty_spec.
Proof. split; apply keyed_nil. Qed.

(** One [add_*] against its map. *)
Lemma add_simulates {A K} `{Countable K} (key : A → K) e l m x (found : A → bool) :
  (∀ y, found y = true ↔ key y = key x) → keyed key l m →
  (if existsb found l then Err e else Ok tt) = (spec_add key e x m).1 ∧
  keyed key (if existsb found l then l else l ++ [x]) (spec_add key e x m).2.
Proof.
  intros Hfound Hl. rewrite (keyed_any key found l m x Hfound Hl). unfold spec_add.
  destruct (m !! key x) eqn:Hm; simpl; [done|]. split; [done|]. by apply keyed_add.
Qed.

Ltac same_key := intros; unfold pre_key, temp_key;
  rewrite ?andb_true_iff, ?bool_decide_eq_true;
  split; [intros; destruct_and?; congruence|by intros; simplify_eq].

(** A simulation step: the touched field by [add_simulates] or
    [keyed_retain], the others unchanged. *)
Ltac simulate_add key e x H :=
  match goal with
  | |- context [existsb ?found ?l] =>
      destruct (add_simulates key e l _ x found ltac:(same_key) H) as [Hret Hkeyed];
      destruct (existsb found l); simpl in *; rewrite <- Hret; split; by try split
  end.
Ltac simulate_remove key sel H :=
  destruct (keyed_retain key sel _ _ H) as [Hret Hkeyed];
  simpl in *; split; [by rewrite <- Hret|by split].

Lemma run_op_simulates st sp op :
  represents st sp →
  (run_op st op).1 = (spec_op sp op).1 ∧ represents (run_op st op).2 (spec_op sp op).2.
Proof.
  intros [Hs Hd Hc Hp Ht]. destruct op; simpl.
  - unfold mem_add_ssd_policy. simulate_add (sod_name (k := Ssd)) (duplicate_ssd p) p Hs.
  - simulate_remove (sod_name (k := Ssd)) (λ k, eqb k name) Hs.
  - unfold mem_add_dsd_policy. simulate_add (sod_name (k := Dsd)) (duplicate_dsd p) p Hd.
  - simulate_remove (sod_name (k := Dsd)) (λ k, eqb k name) Hd.
  - unfold mem_add_cardinality_constraint. simulate_add card_role (duplicate_cardinality c) c Hc.
  - simulate_remove card_role (λ k, eqb k role) Hc.
  - unfold mem_add_prerequisite_constraint. simulate_add pre_key (duplicate_prerequisite c) c Hp.
  - simulate_remove pre_key (λ k : string * string, eqb k.1 role) Hp.
  - simulate_remove pre_key (λ k : string * string, eqb k.1 role && eqb k.2 req) Hp.
  - unfold mem_add_temporal_constraint. simulate_add temp_key (duplicate_temporal c) c Ht.
  - simulate_remove temp_key (λ k : string * DateTime * DateTime, eqb k.1.1 role) Ht.
  - simulate_remove temp_key (λ k : string * DateTime * DateTime, eqb k.1.1 role && eqb k.1.2 from && eqb k.2 until) Ht.
Qed.

(** A sequence of calls, with their answers. *)
Fixpoint run_ops {C} `{ConstraintStore C} (cs : C) (ops : list constraint_op) : list answer * C :=
  match ops with
  | [] => ([], cs)
  | op :: ops =>
      let r := run_op cs op in
      let rest := run_ops r.2 ops in (r.1 :: rest.1, rest.2)
  end.
Fixpoint spec_ops (sp : ConstraintSpec) (ops : list constraint_op)
    : list answer * ConstraintSpec :=
  match ops with
  | [] => ([], sp)
  | op :: ops =>
      let r := spec_op sp op in
      let rest := spec_ops r.2 ops in (r.1 :: rest.1, rest.2)
  end.

Lemma run_ops_simulates st sp ops :
  represents st sp →
  (run_ops st ops).1 = (spec_ops sp ops).1 ∧
  represents (run_ops st ops).2 (spec_ops sp ops).2.
Proof.
  revert st sp. induction ops as [|op ops IH]; intros st sp Hrep; simpl; [done|].
  destruct (run_op_simulates st sp op Hrep) as [Hans Hrep'].
  destruct (IH _ _ Hrep') as [-> ?]. by rewrite Hans.
Qed.

(** ** Guarded assignment

    The caller's protocol: read the subject's roles and the number of
    holders of the role, call [validate_assignment], and write only on
    [Ok]. *)
Section Guarded.
Context {C S P : Type} `{ConstraintStore C, Permission P, Subject S}.
Implicit Types (st : InMemoryAssignmentStore P) (cs : C).

Definition role_count st (role : string) : result nat :=
  length <$> mem_subjects_with_role st role.

Definition guarded_assign cs (clock : nat → DateTime) st (s : S) (role : string)
    : result unit * InMemoryAssignmentStore P :=
  match (current ← mem_roles_of st s;
         count ← role_count st role;
         validate_assignment cs clock current role count) with
  | Ok _ => mem_assign_role st s role
  | Err e => (Err e, st)
  end.

(** The stores such calls and revocations lead to. *)
Inductive guarded_reach cs : InMemoryAssignmentStore P → Prop :=
  | guarded_new : guarded_reach cs InMemoryAssignmentStore_new
  | guarded_assigned st clock (s : S) role :
      guarded_reach cs st → guarded_reach cs (guarded_assign cs clock st s role).2
  | guarded_revoked st (s : S) role :
      guarded_reach cs st → guarded_reach cs (mem_revoke_role st s role).2.

(** Holders of a role, as a map. *)
Definition holders st (role : string) : gmap string (gset string) :=
  filter (λ row : string * gset string, role ∈ row.2) (role_assignments st).

Lemma role_count_holders st role : role_count st role = Ok (size (holders st role)).
Proof.
  unfold role_count, mem_subjects_with_role, holders. simpl. f_equal.
  rewrite length_fmap, <- (length_map_to_list (filter _ _)), map_filter_alt.
  apply Permutation_length. symmetry. apply map_to_list_to_map.
  eapply sublist_NoDup; [apply (NoDup_fst_map_to_list (role_assignments st))|].
  apply fmap_sublist, sublist_filter.
Qed.

Lemma holders_assign st (s : S) role r :
  holders (mem_assign_role st s role).2 r =
    if decide (r ∈ {[role]} ∪ default ∅ (role_assignments st !! subject_id s))
    then <[subject_id s := {[role]} ∪ default ∅ (role_assignments st !! subject_id s)]>
           (holders st r)
    else delete (subject_id s) (holders st r).
Proof.
  unfold holders, mem_assign_role. cbn [snd role_assignments].
  rewrite map_filter_insert. simpl. by rewrite map_filter_delete.
Qed.

Lemma holders_revoke_size st (s : S) role r :
  size (holders (mem_revoke_role st s role).2 r) ≤ size (holders st r).
Proof.
  unfold mem_revoke_role. destruct (role_assignments st !! subject_id s) as [roles|] eqn:Hrow;
    [|done]. unfold holders at 1. cbn [snd role_assignments]. rewrite map_filter_insert. simpl.
  case_decide as Hin.
  - rewrite map_size_insert_Some; [done|]. exists roles.
    apply map_lookup_filter_Some. simpl. set_solver.
  - rewrite map_filter_delete. apply map_subseteq_size, delete_subseteq.
Qed.

(** Assigning a role changes the population of that role only. *)
Lemma holders_assign_size st (s : S) role r :
  size (holders (mem_assign_role st s role).2 r) =
    if decide (r = role ∧ r ∉ default ∅ (role_assignments st !! subject_id s))
    then Datatypes.S (size (holders st r)) else size (holders st r).
Proof.
  rewrite holders_assign.
  assert (Hlook : ∀ x, holders st r !! subject_id s = Some x ↔
            role_assignments st !! subject_id s = Some x ∧ r ∈ x).
  { intros x. unfold holders. by rewrite map_lookup_filter_Some. }
  destruct (role_assignments st !! subject_id s) as [roles|] eqn:Hrow; simpl.
  - case_decide as Hin; case_decide as Hnew.
    + apply map_size_insert_None. apply eq_None_not_Some. intros [x [Hx ?]%Hlook].
      simplify_eq. naive_solver.
    + apply map_size_insert_Some. exists roles. apply Hlook. split; [done|].
      destruct (decide (r ∈ roles)); [done|set_solver].
    + set_solver.
    + rewrite delete_id; [done|]. apply eq_None_not_Some. intros [x [Hx ?]%Hlook].
      simplify_eq. set_solver.
  - assert (Hnone : holders st r !! subject_id s = None).
    { apply eq_None_not_Some. intros [x [? _]%Hlook]. done. }
    case_decide as Hin; case_decide as Hnew.
    + by apply map_size_insert_None.
    + set_solver.
    + set_solver.
    + by rewrite delete_id.
Qed.

Lemma sod_count_submseteq {k} (p : SodPolicy k) l l' :
  l ⊆+ l' → sod_count p l ≤ sod_count p l'.
Proof.
  unfold sod_count. induction 1; repeat (rewrite ?filter_cons; case_decide); simpl; lia.
Qed.

(** The roles recorded for a subject id. *)
Definition roles_at st (id : string) : gset string := default ∅ (role_assignments st !! id).

Lemma mem_roles_of_at st (s : S) : mem_roles_of st s = Ok (elements (roles_at st (subject_id s))).
Proof.
  unfold mem_roles_of, roles_at. by destruct (role_assignments st !! subject_id s).
Qed.

Lemma roles_at_assign st (s : S) role id :
  roles_at (mem_assign_role st s role).2 id =
    if decide (id = subject_id s) then {[role]} ∪ roles_at st id else roles_at st id.
Proof.
  unfold roles_at, mem_assign_role. simpl. case_decide; subst.
  - by rewrite lookup_insert_eq.
  - by rewrite lookup_insert_ne.
Qed.

Lemma roles_at_revoke st (s : S) role id :
  roles_at (mem_revoke_role st s role).2 id ⊆ roles_at st id.
Proof.
  unfold roles_at, mem_revoke_role.
  destruct (role_assignments st !! subject_id s) as [roles|] eqn:Hrow; simpl; [|done].
  destruct (decide (id = subject_id s)) as [->|].
  - rewrite lookup_insert_eq, Hrow. simpl. set_solver.
  - by rewrite lookup_insert_ne.
Qed.

Definition ssd_respected (ps : list SsdPolicy) st : Prop :=
  ∀ id p, p ∈ ps →
    roles_at st id = ∅ ∨ sod_count p (elements (roles_at st id)) < cardinality p.
Definition cardinality_respected (cc : list CardinalityConstraint) st : Prop :=
  ∀ c, c ∈ cc → size (holders st (card_role c)) ≤ max_subjects c.

Lemma assign_respects_ssd ps st (s : S) role :
  ssd_admits ps (elements (roles_at st (subject_id s))) role →
  ssd_respected ps st → ssd_respected ps (mem_assign_role st s role).2.
Proof.
  intros Hadm Hinv id p Hp. rewrite roles_at_assign. case_decide as Hid; [subst|by apply Hinv].
  destruct (decide (role ∈ roles_at st (subject_id s))) as [Hin|Hnew].
  - rewrite subseteq_union_1_L by set_solver. by apply Hinv.
  - right. destruct Hadm as [?%elem_of_elements|Hadm]; [done|]. specialize (Hadm p Hp).
    eapply Nat.le_lt_trans; [|exact Hadm]. apply sod_count_submseteq, Permutation_submseteq.
    rewrite elements_union_singleton by done. by rewrite Permutation_app_comm.
Qed.

Lemma guarded_reach_respects cs st ps cc :
  guarded_reach cs st →
  list_ssd_policies cs = Ok ps → list_cardinality_constraints cs = Ok cc →
  ssd_respected ps st ∧ cardinality_respected cc st.
Proof.
  intros Hreach Hps Hcc. induction Hreach as [|st clock s role _ [IHs IHc]|st s role _ [IHs IHc]].
  - split; [intros id p _; by left|]. intros c _. unfold holders. simpl.
    rewrite map_filter_empty, map_size_empty. lia.
  - unfold guarded_assign. destruct (_ ≫= _) as [[]|e] eqn:Hval; [|done].
    rewrite mem_roles_of_at, role_count_holders in Hval. simpl in Hval.
    apply bind_unit_ok in Hval as [Hssd Hval]. apply bind_unit_ok in Hval as [Hcard _].
    apply validate_ssd_ok in Hssd as (ps' & Hps' & Hssd).
    apply validate_cardinality_ok in Hcard as (cc' & Hcc' & Hcard).
    rewrite Hps in Hps'. rewrite Hcc in Hcc'. injection Hps' as <-. injection Hcc' as <-.
    split; [by apply assign_respects_ssd|].
    intros c Hc. rewrite holders_assign_size. specialize (IHc c Hc).
    case_decide as Hd; [|done]. destruct Hd as [Hr _]. specialize (Hcard c Hc Hr).
    rewrite Hr. lia.
  - split.
    + intros id p Hp. pose proof (roles_at_revoke st s role id) as Hsub.
      destruct (IHs id p Hp) as [Hempty|Hlt]; [left; set_solver|right].
      eapply Nat.le_lt_trans; [|exact Hlt]. apply sod_count_submseteq.
      apply NoDup_submseteq; [apply NoDup_elements|]. set_solver.
    + intros c Hc. etrans; [apply holders_revoke_size|by apply IHc].
Qed.
End Guarded.

(** A two-person duty and a bound of one, with the calls that set them up. *)
Module Duty.
Definition set_up : list constraint_op := [
  AddSsd (SodPolicy_new Ssd "pay_approve" {["payer"; "approver"]} 2);
  AddCardinality (CardinalityConstraint_new "root" 1)].

Definition constraints : InMemoryConstraintStore := (run_ops InMemoryConstraintStore_new set_up).2.

Definition policy : SsdPolicy := SodPolicy_new Ssd "pay_approve" {["payer"; "approver"]} 2.
Definition bound : CardinalityConstraint := CardinalityConstraint_new "root" 1.

Definition store0 : InMemoryAssignmentStore KirinoPermission := InMemoryAssignmentStore_new.
(** "ann" asks for both duties; the second request is refused. *)
Definition store1 : InMemoryAssignmentStore KirinoPermission :=
  (guarded_assign constraints (λ _, 0%Z) store0 "ann" "payer").2.
Definition store2 : InMemoryAssignmentStore KirinoPermission :=
  (guarded_assign constraints (λ _, 0%Z) store1 "ann" "approver").2.

Lemma store2_reached : guarded_reach (S := string) constraints store2.
Proof. repeat constructor. Qed.
End Duty.

(** ** Properties *)

(** [validate_assignment] is fail-closed: it accepts exactly when all four
    lists can be read and every stored rule for the role holds: the role is
    already held or no SSD policy reaches its cardinality, every bound is
    above the population, every prerequisite is held, and every window is
    open when it is examined. *)
Theorem validate_assignment_accepts_iff {C} `{ConstraintStore C} (cs : C) clock cur new n :
  validate_assignment cs clock cur new n = Ok tt ↔
  ∃ ps cc pc tc,
    list_ssd_policies cs = Ok ps ∧ list_cardinality_constraints cs = Ok cc ∧
    list_prerequisite_constraints cs = Ok pc ∧ list_temporal_constraints cs = Ok tc ∧
    ssd_admits ps cur new ∧
    (∀ c, c ∈ cc → card_role c = new → n < max_subjects c) ∧
    (∀ c, c ∈ pc → pre_role c = new → requires c ∈ cur) ∧
    (∀ i c, tc !! i = Some c → temp_role c = new → (valid_from c ≤ clock i ≤ valid_until c)%Z).
Proof.
  unfold validate_assignment. rewrite !bind_unit_ok.
  rewrite validate_ssd_ok, validate_cardinality_ok, validate_prerequisite_ok, validate_temporal_ok.
  naive_solver.
Qed.

(** The vectors of [InMemoryConstraintStore] implement five maps keyed by
    policy name, role, (role, requirement) and (role, window): any sequence
    of calls gives the same answers, duplicate errors and removal flags
    included, and leaves exactly the maps' entries, one per key. *)
Theorem constraint_store_refines_maps (ops : list constraint_op) :
  let impl := run_ops InMemoryConstraintStore_new ops in
  let spec := spec_ops empty_spec ops in
  impl.1 = spec.1 ∧ represents impl.2 spec.2.
Proof. apply run_ops_simulates, represents_new. Qed.

(** C5: over every history of guarded assignments and of revocations, no
    subject reaches the cardinality of a stored SSD policy and no role has
    more holders than its bound. *)
Theorem guarded_assignment_invariant {C S P} `{ConstraintStore C, Permission P, Subject S}
    (cs : C) (st : InMemoryAssignmentStore P) ps cc :
  guarded_reach (S := S) cs st →
  list_ssd_policies cs = Ok ps → list_cardinality_constraints cs = Ok cc →
  (∀ (s : S) p roles, p ∈ ps → mem_roles_of st s = Ok roles →
     roles = [] ∨ sod_count p roles < cardinality p) ∧
  (∀ c n, c ∈ cc → role_count st (card_role c) = Ok n → n ≤ max_subjects c).
Proof.
  intros Hreach Hps Hcc.
  destruct (guarded_reach_respects cs st ps cc Hreach Hps Hcc) as [Hssd Hcard]. split.
  - intros s p roles Hp. rewrite mem_roles_of_at. intros [= <-].
    destruct (Hssd (subject_id s) p Hp) as [->|]; [left; apply elements_empty|by right].
  - intros c n Hc. rewrite role_count_holders. intros [= <-]. by apply Hcard.
Qed.

Lemma guarded_assignment_invariant_witness :
  mem_roles_of Duty.store2 "ann" = Ok ["payer"] ∧ sod_count Duty.policy ["payer"] < 2.
Proof.
  assert (Hroles : mem_roles_of Duty.store2 "ann" = Ok ["payer"]) by reflexivity.
  split; [exact Hroles|].
  destruct (guarded_assignment_invariant (S := string) Duty.constraints Duty.store2 [Duty.policy]
              [Duty.bound] Duty.store2_reached eq_refl eq_refl) as [Hssd _].
  destruct (Hssd "ann" Duty.policy ["payer"] ltac:(by left) Hroles) as [Hn|Hlt]; [done|exact Hlt].
Defined.

(** The check is not atomic with the write it guards: with one place left
    under the only bound of a role, two subjects that are both checked before
    either write are both accepted, and end up one above the bound. *)
Theorem cardinality_check_races {C S P} `{ConstraintStore C, Permission P, Subject S}
    (cs : C) (st : InMemoryAssignmentStore P) cc (c : CardinalityConstraint) n (s1 s2 : S) :
  let role := card_role c in
  let st2 := (mem_assign_role (mem_assign_role st s1 role).2 s2 role).2 in
  list_cardinality_constraints cs = Ok cc → (∀ d, d ∈ cc → card_role d = role → d = c) →
  max_subjects c = Datatypes.S n → role_count st role = Ok n →
  subject_id s1 ≠ subject_id s2 →
  role ∉ roles_at st (subject_id s1) → role ∉ roles_at st (subject_id s2) →
  validate_cardinality cs role n = Ok tt ∧
  role_count st2 role = Ok (Datatypes.S (max_subjects c)).
Proof.
  intros role st2 Hcc Honly Hmax Hcount Hne Hs1 Hs2. split.
  { apply validate_cardinality_ok. exists cc. split; [done|]. intros d Hd Hr.
    rewrite (Honly d Hd Hr). lia. }
  unfold st2. rewrite role_count_holders in *. injection Hcount as Hn.
  change (default ∅ (role_assignments st !! ?id)) with (roles_at st id) in *.
  rewrite !holders_assign_size.
  change (default ∅ (role_assignments ?x !! ?id)) with (roles_at x id).
  rewrite roles_at_assign, (decide_False (P := subject_id s2 = subject_id s1)) by done.
  rewrite !decide_True by done. congruence.
Qed.

Lemma cardinality_check_races_witness :
  role_count (mem_assign_role (mem_assign_role Duty.store0 "ann" "root").2 "bob" "root").2 "root"
    = Ok 2.
Proof.
  apply (cardinality_check_races (S := string) Duty.constraints Duty.store0 [Duty.bound] Duty.bound
           0 "ann" "bob"); try reflexivity; try done.
  by intros d ->%list_elem_of_singleton.
Defined.
