(* ===== verification/Session.v ===== *)
(** * Server-side sessions: src/src/rbac/session/mod.rs

    [InMemorySessionManager] over any assignment store and any constraint
    store.  The manager's maps and the two stores it shares with the rest of
    the program are one state; [create_session] is split at the point where
    its reads of the shared stores end ([create_roles]) and the version is
    read and the session inserted ([create_insert]), so that other calls can
    be interleaved.  A fresh id ([Uuid::now_v7]) and the readings of
    [Utc::now()] are arguments; dates are unbounded integers. *)

From S2P Require Import Prelude Traits Catalog Store Constraints.

Section Session.
Context {C St S P Json : Type} `{ConstraintStore C, AssignmentStore St S P}.

Record Session := {
  sess_id : Uuid;
  sess_subject : S;
  active_roles : gset string;
  context : option Json;
  version : Z;
  created_at : DateTime;
  expires_at : DateTime;
}.

Definition is_expired (s : Session) (now : DateTime) : bool := (expires_at s <? now)%Z.

Record InMemorySessionManager := {
  sessions : gmap Uuid Session;
  subject_versions : gmap string Z;
  assignments : St;
  constraint_store : option C;
}.

Definition InMemorySessionManager_new (st : St) : InMemorySessionManager := {|
  sessions := ∅;
  subject_versions := ∅;
  assignments := st;
  constraint_store := None;
|}.

Definition with_constraint_store (m : InMemorySessionManager) (cs : C)
    : InMemorySessionManager := {|
  sessions := sessions m;
  subject_versions := subject_versions m;
  assignments := assignments m;
  constraint_store := Some cs;
|}.

Definition with_sessions (m : InMemorySessionManager) (ss : gmap Uuid Session)
    : InMemorySessionManager := {|
  sessions := ss;
  subject_versions := subject_versions m;
  assignments := assignments m;
  constraint_store := constraint_store m;
|}.

(** A write through the shared handle of [assignment_store()]. *)
Definition with_assignments (m : InMemorySessionManager) (st : St)
    : InMemorySessionManager := {|
  sessions := sessions m;
  subject_versions := subject_versions m;
  assignments := st;
  constraint_store := constraint_store m;
|}.

Definition with_active_roles (s : Session) (roles : gset string) : Session := {|
  sess_id := sess_id s;
  sess_subject := sess_subject s;
  active_roles := roles;
  context := context s;
  version := version s;
  created_at := created_at s;
  expires_at := expires_at s;
|}.

(** The [{:?}] rendering of a hash set follows its iteration order, which is
    unspecified: any text will do. *)
Variable debug_roles : gset string → string.

Definition validate_dsd_with_store (roles : gset string) (cs : C) : result unit :=
  policies ← list_dsd_policies cs;
  first_violation (λ policy, negb (sod_validate policy (elements roles)))
    (λ policy, Kirino (ConstraintViolation ("DSD policy '" +:+ sod_name policy +:+
      "' violated for roles " +:+ debug_roles roles))) policies.

(** [if let Some(ref cs) = self.constraint_store] *)
Definition dsd_gate (m : InMemorySessionManager) (roles : gset string) : result unit :=
  match constraint_store m with
  | Some cs => validate_dsd_with_store roles cs
  | None => Ok tt
  end.

Definition current_version_of (m : InMemorySessionManager) (s : S) : Z :=
  default 0%Z (subject_versions m !! subject_id s).

(** [create_session], up to the DSD check. *)
Definition create_roles (m : InMemorySessionManager) (s : S) (requested : gset string)
    : result (gset string) :=
  assigned ← roles_of P (assignments m) s;
  let active := filter (λ r, r ∈ string_set assigned) requested in
  _ ← dsd_gate m active;
  Ok active.

(** [create_session], from the version read on; [now1] and [now2] are its
    two readings of the clock. *)
Definition create_insert (m : InMemorySessionManager) (s : S) (active : gset string)
    (id : Uuid) (now1 now2 : DateTime) (ttl : Z) : Session * InMemorySessionManager :=
  let session := {|
    sess_id := id;
    sess_subject := s;
    active_roles := active;
    context := None;
    version := current_version_of m s;
    created_at := now1;
    expires_at := (now2 + ttl)%Z |} in
  (session, with_sessions m (<[id := session]> (sessions m))).

Definition create_session (m : InMemorySessionManager) (s : S) (requested : gset string)
    (ttl : Z) (id : Uuid) (now1 now2 : DateTime) : result Session * InMemorySessionManager :=
  match create_roles m s requested with
  | Err e => (Err e, m)
  | Ok active =>
      let r := create_insert m s active id now1 now2 ttl in (Ok r.1, r.2)
  end.

(** The sessions lock is held from the lookup to the insertion. *)
Definition activate_role (m : InMemorySessionManager) (session_id : Uuid) (role_name : string)
    (now : DateTime) : result unit * InMemorySessionManager :=
  match sessions m !! session_id with
  | None => (Err (Kirino SessionNotFound), m)
  | Some session =>
      if is_expired session now then (Err (Kirino SessionExpired), m)
      else if bool_decide (role_name ∈ active_roles session) then (Ok tt, m)
      else
        match roles_of P (assignments m) (sess_subject session) with
        | Err e => (Err e, m)
        | Ok assigned =>
            if negb (bool_decide (role_name ∈ assigned)) then
              (Err (Kirino (NotFound ("role '" +:+ role_name +:+ "' not assigned to subject"))), m)
            else
              match dsd_gate m ({[role_name]} ∪ active_roles session) with
              | Err e => (Err e, m)
              | Ok _ =>
                  (Ok tt, with_sessions m
                     (<[session_id := with_active_roles session
                          ({[role_name]} ∪ active_roles session)]> (sessions m)))
              end
        end
  end.

Definition deactivate_role (m : InMemorySessionManager) (session_id : Uuid) (role_name : string)
    (now : DateTime) : result unit * InMemorySessionManager :=
  match sessions m !! session_id with
  | None => (Err (Kirino SessionNotFound), m)
  | Some session =>
      if is_expired session now then (Err (Kirino SessionExpired), m)
      else
        (Ok tt, with_sessions m
           (<[session_id := with_active_roles session (active_roles session ∖ {[role_name]})]>
              (sessions m)))
  end.

Definition get_session (m : InMemorySessionManager) (session_id : Uuid)
    : result (option Session) :=
  Ok (sessions m !! session_id).

Definition destroy_session (m : InMemorySessionManager) (session_id : Uuid)
    : result unit * InMemorySessionManager :=
  (Ok tt, with_sessions m (delete session_id (sessions m))).

Definition revoke_all_for_subject (m : InMemorySessionManager) (s : S)
    : result nat * InMemorySessionManager :=
  let kept := filter (λ row : Uuid * Session, subject_id (sess_subject row.2) ≠ subject_id s)
                (sessions m) in
  (Ok (size (sessions m) - size kept), with_sessions m kept).

Definition current_version (m : InMemorySessionManager) (s : S) : result Z :=
  Ok (current_version_of m s).

Definition bump_version_for_subject (m : InMemorySessionManager) (s : S)
    : result Z * InMemorySessionManager :=
  let next := wrapping_add_u64 (current_version_of m s) 1 in
  (Ok next, {|
     sessions := sessions m;
     subject_versions := <[subject_id s := next]> (subject_versions m);
     assignments := assignments m;
     constraint_store := constraint_store m |}).

(** [clock id]: the reading at which the session of that id is tested. *)
Definition cleanup_expired (m : InMemorySessionManager) (clock : Uuid → DateTime)
    : nat * InMemorySessionManager :=
  let kept := filter (λ row : Uuid * Session, is_expired row.2 (clock row.1) = false)
                (sessions m) in
  (size (sessions m) - size kept, with_sessions m kept).

(** The version check the trait asks of its callers. *)
Definition session_stale (m : InMemorySessionManager) (x : Session) : bool :=
  (version x <? current_version_of m (sess_subject x))%Z.

(** ** Histories

    [sreach g0 m]: [m] arises from a new manager by any interleaving of its
    calls, of [create_insert]s whose [create_roles] succeeded at an earlier
    time (any role set that passed the DSD gate), and of writes to the shared
    assignment store; [g] counts the bumps of each subject id. *)
Inductive sreach (cs : option C) : InMemorySessionManager → (string → Z) → Prop :=
  | sreach_new st :
      sreach cs {| sessions := ∅; subject_versions := ∅; assignments := st;
                   constraint_store := cs |} (λ _, 0%Z)
  | sreach_create m g m' s requested active id now1 now2 ttl :
      sreach cs m g → constraint_store m' = cs → create_roles m' s requested = Ok active →
      sreach cs (create_insert m s active id now1 now2 ttl).2 g
  | sreach_activate m g id role now :
      sreach cs m g → sreach cs (activate_role m id role now).2 g
  | sreach_deactivate m g id role now :
      sreach cs m g → sreach cs (deactivate_role m id role now).2 g
  | sreach_destroy m g id : sreach cs m g → sreach cs (destroy_session m id).2 g
  | sreach_revoke_all m g s : sreach cs m g → sreach cs (revoke_all_for_subject m s).2 g
  | sreach_bump m g s :
      sreach cs m g →
      sreach cs (bump_version_for_subject m s).2
        (λ i, if decide (i = subject_id s) then (g i + 1)%Z else g i)
  | sreach_cleanup m g clock : sreach cs m g → sreach cs (cleanup_expired m clock).2 g
  | sreach_assignments m g st : sreach cs m g → sreach cs (with_assignments m st) g.

Lemma sreach_constraint_store cs m g : sreach cs m g → constraint_store m = cs.
Proof.
  induction 1; try done.
  - unfold activate_role. by repeat case_match.
  - unfold deactivate_role. by repeat case_match.
Qed.

(** An uninterrupted creation is one of the histories. *)
Lemma sreach_create_session cs m g s requested ttl id now1 now2 :
  sreach cs m g → sreach cs (create_session m s requested ttl id now1 now2).2 g.
Proof.
  intros Hm. unfold create_session. destruct (create_roles m s requested) as [active|e] eqn:Hc;
    [|done]. eapply sreach_create; [done| |exact Hc]. by eapply sreach_constraint_store.
Qed.

(** A property of sessions that deactivation and gated activation keep, and
    that gated creation establishes, holds of every stored session. *)
Definition every_session (Q : Session → Prop) (m : InMemorySessionManager) : Prop :=
  ∀ id x, sessions m !! id = Some x → Q x.

Lemma every_session_insert Q m id x :
  Q x → every_session Q m → every_session Q (with_sessions m (<[id := x]> (sessions m))).
Proof.
  intros Hx Hm i y. simpl. rewrite lookup_insert_Some. intros [[_ <-]|[_ Hy]]; [done|].
  by apply (Hm i).
Qed.

Lemma every_session_subset Q m ss :
  ss ⊆ sessions m → every_session Q m → every_session Q (with_sessions m ss).
Proof. intros Hss Hm i y Hy. apply (Hm i). by eapply lookup_weaken. Qed.

(** *** Separation of duty *)

Definition dsd_free (ps : list DsdPolicy) (x : Session) : Prop :=
  ∀ p, p ∈ ps → sod_count p (elements (active_roles x)) < cardinality p.

Lemma dsd_gate_ok m roles cs ps :
  constraint_store m = Some cs → list_dsd_policies cs = Ok ps →
  dsd_gate m roles = Ok tt ↔ ∀ p, p ∈ ps → sod_count p (elements roles) < cardinality p.
Proof.
  intros Hcs Hps. unfold dsd_gate, validate_dsd_with_store. rewrite Hcs, Hps. simpl.
  rewrite first_violation_ok. apply forall_proper. intros p. by rewrite sod_violated_false.
Qed.

Lemma create_roles_ok m s requested active :
  create_roles m s requested = Ok active ↔
  ∃ assigned, roles_of P (assignments m) s = Ok assigned ∧
    active = filter (λ r, r ∈ string_set assigned) requested ∧ dsd_gate m active = Ok tt.
Proof.
  unfold create_roles. rewrite bind_ok. f_equiv. intros assigned. f_equiv.
  rewrite bind_unit_ok. cbv [mret result_ret]. naive_solver.
Qed.

Lemma sreach_dsd_free cs m g ps :
  sreach (Some cs) m g → list_dsd_policies cs = Ok ps → every_session (dsd_free ps) m.
Proof.
  intros Hreach Hps. remember (Some cs) as ocs eqn:Hocs.
  induction Hreach as [|m g m' s req active id n1 n2 ttl Hr IH Hcs Hcreate|m g id role now Hr IH
    |m g id role now Hr IH|m g id Hr IH|m g s Hr IH|m g s Hr IH|m g clock Hr IH|m g st Hr IH];
    subst; try specialize (IH eq_refl).
  - intros id x Hx. simpl in Hx. by rewrite lookup_empty in Hx.
  - apply every_session_insert; [|done]. apply create_roles_ok in Hcreate as (_ & _ & _ & Hgate).
    unfold dsd_free. simpl. by apply (dsd_gate_ok m' active cs).
  - unfold activate_role. destruct (sessions m !! id) as [x|] eqn:Hx; [|done].
    destruct (is_expired x now); [done|]. case_bool_decide; [done|].
    destruct (roles_of P _ _); [|done]. case_bool_decide; [|done]. simpl.
    destruct (dsd_gate _ _) as [[]|] eqn:Hgate; [|done]. simpl.
    apply every_session_insert; [|done]. unfold dsd_free. simpl.
    apply (dsd_gate_ok m _ cs); [by eapply sreach_constraint_store|done|done].
  - unfold deactivate_role. destruct (sessions m !! id) as [x|] eqn:Hx; [|done].
    destruct (is_expired x now); [done|]. simpl. apply every_session_insert; [|done].
    intros p Hp. simpl. eapply Nat.le_lt_trans; [|by apply (IH id x Hx p)].
    apply sod_count_submseteq, NoDup_submseteq; [apply NoDup_elements|]. set_solver.
  - by apply every_session_subset; [apply delete_subseteq|].
  - by apply every_session_subset; [apply map_filter_subseteq|].
  - exact IH.
  - by apply every_session_subset; [apply map_filter_subseteq|].
  - exact IH.
Qed.

(** *** Versions *)

(** [k] is the number of bumps the subject had seen when [x] was stamped. *)
Definition stamped (g : string → Z) (x : Session) : Prop :=
  ∃ k, (0 ≤ k ≤ g (subject_id (sess_subject x)))%Z ∧ version x = (k `mod` u64_modulus)%Z.

Definition counted (m : InMemorySessionManager) (g : string → Z) : Prop :=
  (∀ i, (0 ≤ g i)%Z ∧ default 0%Z (subject_versions m !! i) = (g i `mod` u64_modulus)%Z) ∧
  every_session (stamped g) m.

Lemma stamped_with_roles g x roles : stamped g x → stamped g (with_active_roles x roles).
Proof. done. Qed.

Lemma counted_sessions m g ss :
  counted m g → every_session (stamped g) (with_sessions m ss) → counted (with_sessions m ss) g.
Proof. intros [Hc _] Hs. by split. Qed.

Lemma counted_bump m g s :
  counted m g →
  counted (bump_version_for_subject m s).2
    (λ i, if decide (i = subject_id s) then (g i + 1)%Z else g i).
Proof.
  intros [Hc Hs]. split.
  - intros i. destruct (Hc i) as [Hpos Hi]. simpl. case_decide; subst; [|by rewrite lookup_insert_ne].
    rewrite lookup_insert_eq. simpl. unfold wrapping_add_u64, current_version_of.
    rewrite Hi, Zplus_mod_idemp_l. lia.
  - intros id x Hx. destruct (Hs id x Hx) as (k & Hk & Hv). exists k.
    split; [|done]. simpl. case_decide; lia.
Qed.

Lemma sreach_counted cs m g : sreach cs m g → counted m g.
Proof.
  induction 1 as [st|m g m' s req active id n1 n2 ttl Hr IH _ _|m g id role now Hr IH
    |m g id role now Hr IH|m g id Hr IH|m g s Hr IH|m g s Hr IH|m g clock Hr IH|m g st Hr IH].
  - split; [intros i; simpl; by rewrite lookup_empty|]. intros id x Hx. simpl in Hx.
    by rewrite lookup_empty in Hx.
  - apply counted_sessions; [done|]. apply every_session_insert; [|apply IH].
    destruct IH as [Hc _]. destruct (Hc (subject_id s)) as [Hpos Hi].
    exists (g (subject_id s)). simpl. split; [lia|done].
  - unfold activate_role. destruct (sessions m !! id) as [x|] eqn:Hx; [|done].
    repeat (case_match; [done|]). repeat (case_match; try done).
    apply counted_sessions; [done|]. apply every_session_insert; [|apply IH].
    by apply stamped_with_roles, (proj2 IH id).
  - unfold deactivate_role. destruct (sessions m !! id) as [x|] eqn:Hx; [|done].
    case_match; [done|]. apply counted_sessions; [done|].
    apply every_session_insert; [|apply IH]. by apply stamped_with_roles, (proj2 IH id).
  - apply counted_sessions; [done|]. apply every_session_subset; [apply delete_subseteq|apply IH].
  - apply counted_sessions; [done|]. apply every_session_subset; [apply map_filter_subseteq|apply IH].
  - by apply counted_bump.
  - apply counted_sessions; [done|]. apply every_session_subset; [apply map_filter_subseteq|apply IH].
  - done.
Qed.

Lemma counted_current m g s :
  counted m g → (g (subject_id s) < u64_modulus)%Z → current_version_of m s = g (subject_id s).
Proof.
  intros [Hc _] Hlt. unfold current_version_of. destruct (Hc (subject_id s)) as [Hpos ->].
  apply Z.mod_small. lia.
Qed.

(** Short of a wrap, stale means stamped before the last bump. *)
Lemma counted_stale m g id x :
  counted m g → sessions m !! id = Some x →
  (g (subject_id (sess_subject x)) < u64_modulus)%Z →
  (0 ≤ version x ≤ g (subject_id (sess_subject x)))%Z ∧
  (session_stale m x = true ↔ version x ≠ g (subject_id (sess_subject x))).
Proof.
  intros Hc Hx Hlt. destruct (proj2 Hc id x Hx) as (k & Hk & Hv).
  rewrite Z.mod_small in Hv by lia. split; [lia|].
  unfold session_stale. rewrite (counted_current m g) by done. rewrite Z.ltb_lt. lia.
Qed.
End Session.
Arguments Session S Json : clear implicits.
Arguments InMemorySessionManager C St S Json : clear implicits.

(** "ann" may pay and approve, but not in one session. *)
Module Desk.
Definition constraints : InMemoryConstraintStore :=
  (run_ops InMemoryConstraintStore_new
     [AddDsd (SodPolicy_new Dsd "pay_approve" {["payer"; "approver"]} 2)]).2.
Definition policy : DsdPolicy := SodPolicy_new Dsd "pay_approve" {["payer"; "approver"]} 2.

Definition store : InMemoryAssignmentStore KirinoPermission :=
  (mem_assign_role (mem_assign_role InMemoryAssignmentStore_new "ann" "payer").2
     "ann" "approver").2.

Definition debug (_ : gset string) : string := "{..}".

Abbreviation manager :=
  (InMemorySessionManager InMemoryConstraintStore (InMemoryAssignmentStore KirinoPermission)
     string unit).

Definition manager0 : manager :=
  with_constraint_store (InMemorySessionManager_new store) constraints.
(** A session as payer, then a request for the second duty. *)
Definition manager1 : manager :=
  (create_session (P := KirinoPermission) debug manager0 "ann" {["payer"; "root"]} 60 1%N 0 0).2.
Definition manager2 : manager :=
  (activate_role (P := KirinoPermission) debug manager1 1%N "approver" 5).2.

Lemma manager1_reached :
  sreach (P := KirinoPermission) debug (Some constraints) manager1 (λ _, 0%Z).
Proof.
  apply sreach_create_session. apply (sreach_new debug (Some constraints) store).
Qed.

Lemma manager2_reached :
  sreach (P := KirinoPermission) debug (Some constraints) manager2 (λ _, 0%Z).
Proof. apply sreach_activate, manager1_reached. Qed.
End Desk.

(** ** Properties *)

Section SessionProperties.
Context {C St S P Json : Type} `{ConstraintStore C, AssignmentStore St S P}.
Variable debug_roles : gset string → string.
Implicit Types (m : InMemorySessionManager C St S Json).

(** C6: over every history with one constraint store, creations in flight
    included, no stored session ever has the roles some DSD policy
    excludes. *)
Theorem sessions_respect_dsd m g (cs : C) ps id x p :
  sreach (P := P) debug_roles (Some cs) m g → list_dsd_policies cs = Ok ps →
  get_session m id = Ok (Some x) → p ∈ ps →
  sod_count p (elements (active_roles x)) < cardinality p.
Proof.
  intros Hreach Hps [= Hx] Hp. by apply (sreach_dsd_free debug_roles cs m g ps Hreach Hps id x).
Qed.

(** [activate_role] succeeds exactly on a known, unexpired session whose
    role is active already, or is assigned now and compatible with the DSD
    policies; it then activates that role and touches nothing else.  Every
    failure leaves the manager as it was. *)
Theorem activate_role_spec m id role now :
  let r := activate_role (P := P) debug_roles m id role now in
  (r.1 = Ok tt ↔
     ∃ x, sessions m !! id = Some x ∧ (now ≤ expires_at x)%Z ∧
       (role ∈ active_roles x ∨
        ∃ assigned, roles_of P (assignments m) (sess_subject x) = Ok assigned ∧
          role ∈ assigned ∧ dsd_gate debug_roles m ({[role]} ∪ active_roles x) = Ok tt)) ∧
  (r.1 = Ok tt → ∃ x, sessions m !! id = Some x ∧
     r.2 = with_sessions m
       (<[id := with_active_roles x ({[role]} ∪ active_roles x)]> (sessions m))) ∧
  (r.1 ≠ Ok tt → r.2 = m).
Proof.
  simpl. unfold activate_role. destruct (sessions m !! id) as [x|] eqn:Hx; simpl.
  2: { split_and!; try done. by split; [|intros (? & ? & _)]. }
  unfold is_expired. destruct (Z.ltb_spec (expires_at x) now) as [Hlate|Hlive]; simpl.
  { split_and!; try done. split; [done|]. intros (y & [= <-] & ? & _). lia. }
  case_bool_decide as Hact; simpl.
  { split_and!; try done.
    - split; [|done]. intros _. exists x. by split_and!; [| |left].
    - intros _. exists x. split; [done|]. destruct m as [ss vs st cs], x as [xi xs xr xc xv xa xe].
      unfold with_sessions, with_active_roles. simpl in *.
      rewrite subseteq_union_1_L by set_solver. by rewrite insert_id. }
  destruct (roles_of P (assignments m) (sess_subject x)) as [assigned|e] eqn:Hr; simpl.
  2: { split_and!; try done. split; [done|]. intros (y & [= <-] & _ & [?|(a & ? & _)]); [done|congruence]. }
  case_bool_decide as Has; simpl.
  2: { split_and!; try done. split; [done|].
       intros (y & [= <-] & _ & [?|(a & Ha & Hin & _)]); [done|]. rewrite Hr in Ha.
       by injection Ha as <-. }
  destruct (dsd_gate _ _ _) as [[]|e] eqn:Hg; simpl.
  - split_and!; try done; [|by eauto]. split; [|done]. intros _. exists x.
    split_and!; [done|done|]. right. eauto.
  - split_and!; try done. split; [done|].
    intros (y & [= <-] & _ & [?|(a & _ & _ & Hgate)]); [done|congruence].
Qed.

(** [create_session] never grants more than was assigned and asked for,
    stamps the current version, and stores what it returns; when the
    assignments or the policies cannot be read, or a policy is violated, no
    session is created. *)
Theorem create_session_spec m s requested ttl id now1 now2 :
  let r := create_session (P := P) debug_roles m s requested ttl id now1 now2 in
  match r.1 with
  | Ok x => ∃ assigned,
      roles_of P (assignments m) s = Ok assigned ∧
      (∀ role, role ∈ active_roles x ↔ role ∈ requested ∧ role ∈ assigned) ∧
      dsd_gate debug_roles m (active_roles x) = Ok tt ∧
      sess_subject x = s ∧ session_stale m x = false ∧
      (∀ now, is_expired x now = true ↔ (now2 + ttl < now)%Z) ∧
      r.2 = with_sessions m (<[id := x]> (sessions m))
  | Err _ => r.2 = m
  end.
Proof.
  simpl. unfold create_session.
  destruct (create_roles debug_roles m s requested) as [active|e] eqn:Hc; simpl; [|done].
  apply create_roles_ok in Hc as (assigned & Hr & Hact & Hgate). exists assigned.
  split_and!; try done.
  - intros role. subst. simpl. unfold string_set.
    rewrite elem_of_filter, elem_of_list_to_set. by rewrite (comm and).
  - unfold session_stale. simpl. apply Z.ltb_irrefl.
  - intros now. unfold is_expired. simpl. apply Z.ltb_lt.
Qed.

(** C36: a version bump invalidates exactly the sessions it is meant to: short
    of the 2^64th bump every stored session of the subject is stale
    afterwards, no other subject's session changes, and the next session
    created for the subject is not stale.  The bump that wraps the counter
    instead revives every session of the subject. *)
Theorem bump_invalidates_prior_sessions m g cs s :
  sreach (P := P) debug_roles cs m g →
  let m' := (bump_version_for_subject m s).2 in
  ((g (subject_id s) + 1 < u64_modulus)%Z →
     (∀ id x, sessions m' !! id = Some x → subject_id (sess_subject x) = subject_id s →
        session_stale m' x = true) ∧
     (∀ id x, sessions m' !! id = Some x → subject_id (sess_subject x) ≠ subject_id s →
        session_stale m' x = session_stale m x) ∧
     (∀ active id n1 n2 ttl, let r := create_insert m' s active id n1 n2 ttl in
        session_stale r.2 r.1 = false)) ∧
  (current_version_of m s = (u64_modulus - 1)%Z →
     ∀ id x, sessions m' !! id = Some x → subject_id (sess_subject x) = subject_id s →
       session_stale m' x = false).
Proof.
  intros Hreach m'. pose proof (sreach_counted debug_roles cs m g Hreach) as Hc.
  split; [intros Hlt; split_and!|intros Hmax].
  - intros id x Hx Hs. pose proof (counted_bump m g s Hc) as Hc'.
    destruct (counted_stale m' _ id x Hc' Hx) as [_ Hiff];
      simpl; rewrite decide_True in * by done; rewrite Hs in *; [done|].
    apply Hiff. pose proof (proj1 (counted_stale m g id x Hc Hx ltac:(rewrite Hs; lia))) as Hv.
    rewrite Hs in Hv. lia.
  - intros id x _ Hs. unfold session_stale, current_version_of, m'. simpl.
    by rewrite lookup_insert_ne.
  - intros. unfold session_stale, current_version_of. simpl. apply Z.ltb_irrefl.
  - intros id x Hx Hs. destruct (proj2 Hc id x Hx) as (k & _ & Hv).
    unfold session_stale, m', current_version_of. simpl. rewrite Hs, lookup_insert_eq. simpl.
    unfold current_version_of in Hmax. unfold wrapping_add_u64. fold (current_version_of m s).
    unfold current_version_of. rewrite Hmax, Z.sub_add, Z_mod_same_full, Hv.
    apply Z.ltb_ge, Z.mod_pos_bound. unfold u64_modulus. lia.
Qed.

(** The roles and the version of a new session are read at two moments:
    revoking a role and bumping the version between them yields a session
    that carries the revoked role under the new version, so neither the
    version check nor the bump denies it. *)
Theorem creation_in_flight_outlives_revocation `{!AssignmentStoreLaws St S P}
    m s requested active role st' id now1 now2 ttl :
  create_roles (P := P) debug_roles m s requested = Ok active → role ∈ active →
  revoke_role P (assignments m) s role = (Ok tt, st') →
  let m1 := (bump_version_for_subject (with_assignments m st') s).2 in
  let r := create_insert m1 s active id now1 now2 ttl in
  (∃ l, roles_of P (assignments m) s = Ok l ∧ role ∈ l) ∧
  role ∈ active_roles r.1 ∧ session_stale r.2 r.1 = false ∧
  ∀ l, roles_of P (assignments r.2) s = Ok l → role ∉ l.
Proof.
  intros Hc Hin Hrev m1 r. split_and!; [|done| |].
  - apply create_roles_ok in Hc as (l & Hl & -> & _). exists l. split; [done|].
    apply elem_of_filter in Hin as [Hin _]. by apply elem_of_list_to_set in Hin.
  - unfold session_stale. simpl. apply Z.ltb_irrefl.
  - intros l Hl. rewrite (roles_of_view _ _ _ Hl).
    change (assignments r.2) with st'.
    pose proof (revoke_role_view (P := P) _ _ s role Hrev (subject_id s)) as Hv.
    simpl in Hv. rewrite Hv. unfold set_at. rewrite decide_True by done. simpl. set_solver.
Qed.
End SessionProperties.

Lemma sessions_respect_dsd_witness :
  ∃ x, get_session Desk.manager2 1%N = Ok (Some x) ∧
    sod_count Desk.policy (elements (active_roles x)) < 2.
Proof.
  eexists. split; [vm_compute; reflexivity|].
  apply (sessions_respect_dsd (P := KirinoPermission) Desk.debug Desk.manager2 (λ _, 0%Z)
           Desk.constraints [Desk.policy] 1%N _ Desk.policy);
    [exact Desk.manager2_reached|reflexivity|vm_compute; reflexivity|by left].
Defined.

Lemma bump_invalidates_prior_sessions_witness :
  session_stale (bump_version_for_subject Desk.manager1 "ann").2
    (create_insert Desk.manager0 "ann" {["payer"]} 1%N 0 0 60).1 = true.
Proof.
  apply (bump_invalidates_prior_sessions (P := KirinoPermission) Desk.debug Desk.manager1
           (λ _, 0%Z) (Some Desk.constraints) "ann" Desk.manager1_reached) with (id := 1%N);
    reflexivity.
Defined.

Lemma creation_in_flight_outlives_revocation_witness :
  let st' := (mem_revoke_role Desk.store "ann" "payer").2 in
  let m1 := (bump_version_for_subject (with_assignments Desk.manager0 st') "ann").2 in
  let r := create_insert m1 "ann" {["payer"]} 1%N 0 0 60 in
  "payer" ∈ active_roles r.1 ∧ session_stale r.2 r.1 = false.
Proof.
  destruct (creation_in_flight_outlives_revocation (P := KirinoPermission) Desk.debug Desk.manager0
    "ann" {["payer"; "root"]} {["payer"]} "payer" (mem_revoke_role Desk.store "ann" "payer").2
    1%N 0 0 60) as (_ & Hrole & Hfresh & _).
  - by vm_compute.
  - by apply elem_of_singleton_2.
  - reflexivity.
  - exact (conj Hrole Hfresh).
Defined.
