(* ===== verification/DbSession.v ===== *)
(** * Sessions in a shared store: src/src/rbac/session/db.rs and the session
    half of src/src/rbac/store/persistence.rs

    [DbSessionManager] over any session store, assignment store and
    constraint store.  [PersistentSessionStore] is the trait, and
    [PersistentSessionLaws] what it documents; an operation that fails may or
    may not have taken effect.  A change of roles is a read of the row and a
    later write of the whole list: [db_activate_roles] and
    [db_deactivate_roles] are what is computed in between, so that other calls
    can be interleaved.  The trait [SessionManager], its sessions and the
    DSD check are those of [Session]. *)

From S2P Require Import Prelude Traits Catalog Store Constraints Session.

Record SessionRow (Json : Type) := {
  row_id : Uuid;
  row_subject_id : string;
  row_active_roles : list string;
  row_context : option Json;
  row_version : Z;
  row_expires_at : DateTime;
  row_created_at : DateTime;
}.
Arguments row_id {Json} _.
Arguments row_subject_id {Json} _.
Arguments row_active_roles {Json} _.
Arguments row_context {Json} _.
Arguments row_version {Json} _.
Arguments row_expires_at {Json} _.
Arguments row_created_at {Json} _.

(** [now] is the clock of the store. *)
Class PersistentSessionStore (T Json : Type) := {
  save_session : T → SessionRow Json → result unit * T;
  load_session : T → Uuid → result (option (SessionRow Json));
  delete_session : T → Uuid → result unit * T;
  update_roles : T → Uuid → list string → result unit * T;
  store_cleanup_expired : T → DateTime → result nat * T;
  load_session_metadata : T → string → result (option (SessionRow Json));
  bump_version : T → string → Z → result unit * T;
}.
Arguments delete_session {T} Json {_} _ _.
Arguments update_roles {T} Json {_} _ _ _.
Arguments store_cleanup_expired {T} Json {_} _ _.
Arguments bump_version {T} Json {_} _ _ _.

Definition row_with_roles {Json} (r : SessionRow Json) (roles : list string) : SessionRow Json := {|
  row_id := row_id r; row_subject_id := row_subject_id r; row_active_roles := roles; row_context := row_context r;
  row_version := row_version r; row_expires_at := row_expires_at r; row_created_at := row_created_at r |}.

(** [stored t]: the rows a lookup would find. *)
Class PersistentSessionLaws (T Json : Type) `{PersistentSessionStore T Json} := {
  stored : T → gmap Uuid (SessionRow Json);
  load_law : ∀ t id o, load_session t id = Ok o → o = stored t !! id;
  save_law : ∀ t row,
    let r := save_session t row in
    (r.1 = Ok tt → stored r.2 = <[row_id row := row]> (stored t)) ∧
    (stored r.2 = stored t ∨ stored r.2 = <[row_id row := row]> (stored t));
  delete_law : ∀ t id,
    let r := delete_session Json t id in
    (r.1 = Ok tt → stored r.2 = delete id (stored t)) ∧ (stored r.2 = stored t ∨ stored r.2 = delete id (stored t));
  update_law : ∀ t id roles,
    let r := update_roles Json t id roles in
    (r.1 = Ok tt → stored r.2 = alter (λ row, row_with_roles row roles) id (stored t)) ∧
    (stored r.2 = stored t ∨ stored r.2 = alter (λ row, row_with_roles row roles) id (stored t));
  cleanup_law : ∀ t now, stored (store_cleanup_expired Json t now).2 ⊆ stored t;
  bump_law : ∀ t sid v id row, stored (bump_version Json t sid v).2 !! id = Some row →
    ∃ row', stored t !! id = Some row' ∧ row_active_roles row = row_active_roles row';
}.

(** The version counters of the subjects. *)
Class SessionVersionLaws (T Json : Type) `{PersistentSessionStore T Json} := {
  recorded : T → string → Z;
  metadata_law : ∀ t sid o, load_session_metadata t sid = Ok o → default 0%Z (row_version <$> o) = recorded t sid;
  bump_recorded : ∀ t sid v, (bump_version Json t sid v).1 = Ok tt →
    ∀ i, recorded (bump_version Json t sid v).2 i = if decide (i = sid) then v else recorded t i;
  save_recorded : ∀ t row, (save_session t row).1 = Ok tt → ∀ i, recorded (save_session t row).2 i = recorded t i;
}.

Section DbSession.
Context {C St S P Json T : Type} `{ConstraintStore C, AssignmentStore St S P, !PersistentSessionStore T Json}.
Context (uuid_to_string : Uuid → string) (display_error : Error → string) (debug_roles : gset string → string).

Record DbSessionManager := {
  db_store : T;
  db_assignments : St;
  db_constraint_store : option C;
}.

Definition DbSessionManager_new (store : T) (assignments : St) : DbSessionManager := {|
  db_store := store; db_assignments := assignments; db_constraint_store := None |}.
Definition db_with_constraint_store (m : DbSessionManager) (cs : C) : DbSessionManager := {|
  db_store := db_store m; db_assignments := db_assignments m; db_constraint_store := Some cs |}.
Definition with_db_store (m : DbSessionManager) (t : T) : DbSessionManager := {|
  db_store := t; db_assignments := db_assignments m; db_constraint_store := db_constraint_store m |}.
(** A write through [assignment_store()]. *)
Definition with_db_assignments (m : DbSessionManager) (st : St) : DbSessionManager := {|
  db_store := db_store m; db_assignments := st; db_constraint_store := db_constraint_store m |}.

Definition db_dsd_gate (m : DbSessionManager) (roles : gset string) : result unit :=
  match db_constraint_store m with
  | Some cs => validate_dsd_with_store debug_roles roles cs
  | None => Ok tt
  end.

(** [create_session], up to the DSD check. *)
Definition db_create_roles (m : DbSessionManager) (s : S) (requested : gset string) : result (gset string) :=
  assigned ← roles_of P (db_assignments m) s;
  let validated := filter (λ r, r ∈ string_set assigned) requested in
  _ ← db_dsd_gate m validated;
  Ok validated.

Definition new_session (s : S) (validated : gset string) (ttl : Z) (id : Uuid) (now : DateTime) : Session S Json := {|
  sess_id := id; sess_subject := s; active_roles := validated; context := None; version := 0;
  created_at := now; expires_at := (now + ttl)%Z |}.
Definition new_row (s : S) (validated : gset string) (ttl : Z) (id : Uuid) (now : DateTime) : SessionRow Json := {|
  row_id := id; row_subject_id := subject_id s; row_active_roles := elements validated; row_context := None; row_version := 0;
  row_expires_at := (now + ttl)%Z; row_created_at := now |}.

Definition db_create_session (m : DbSessionManager) (s : S) (requested : gset string) (ttl : Z) (id : Uuid) (now : DateTime)
    : result (Session S Json) * DbSessionManager :=
  match db_create_roles m s requested with
  | Err e => (Err e, m)
  | Ok validated =>
      let r := save_session (db_store m) (new_row s validated ttl id now) in
      ((λ _, new_session s validated ttl id now) <$> r.1, with_db_store m r.2)
  end.

(** [.await?.ok_or(SessionNotFound)?] *)
Definition load_existing (m : DbSessionManager) (session_id : Uuid) : result (SessionRow Json) :=
  o ← load_session (db_store m) session_id;
  match o with
  | Some row => Ok row
  | None => Err (Kirino SessionNotFound)
  end.

Definition row_subject (row : SessionRow Json) (session_id : Uuid) : result S :=
  match try_from_subject_id (row_subject_id row) with
  | Ok s => Ok s
  | Err e => Err (Anyhow ("invalid subject_id '" +:+ row_subject_id row +:+ "' in session " +:+ uuid_to_string session_id +:+
                   ": " +:+ display_error e))
  end.

(** [activate_role], from the row to the list to write; [None] when the role
    is active already. *)
Definition db_activate_roles (m : DbSessionManager) (row : SessionRow Json) (session_id : Uuid) (role_name : string) (now : DateTime)
    : result (option (list string)) :=
  if (row_expires_at row <? now)%Z then Err (Kirino SessionExpired)
  else
    let roles := string_set (row_active_roles row) in
    if bool_decide (role_name ∈ roles) then Ok None
    else
      subject ← row_subject row session_id;
      assigned ← roles_of P (db_assignments m) subject;
      if negb (bool_decide (role_name ∈ assigned)) then
        Err (Kirino (NotFound ("role '" +:+ role_name +:+ "' not assigned to subject")))
      else
        _ ← db_dsd_gate m ({[role_name]} ∪ roles);
        Ok (Some (elements ({[role_name]} ∪ roles))).

Definition db_write_roles (m : DbSessionManager) (session_id : Uuid) (roles : list string) : result unit * DbSessionManager :=
  let r := update_roles Json (db_store m) session_id roles in (r.1, with_db_store m r.2).

Definition db_activate_role (m : DbSessionManager) (session_id : Uuid) (role_name : string) (now : DateTime)
    : result unit * DbSessionManager :=
  match row ← load_existing m session_id; db_activate_roles m row session_id role_name now with
  | Err e => (Err e, m)
  | Ok None => (Ok tt, m)
  | Ok (Some roles) => db_write_roles m session_id roles
  end.

Definition db_deactivate_roles (row : SessionRow Json) (role_name : string) (now : DateTime) : result (list string) :=
  if (row_expires_at row <? now)%Z then Err (Kirino SessionExpired)
  else Ok (elements (string_set (row_active_roles row) ∖ {[role_name]})).

Definition db_deactivate_role (m : DbSessionManager) (session_id : Uuid) (role_name : string) (now : DateTime)
    : result unit * DbSessionManager :=
  match row ← load_existing m session_id; db_deactivate_roles row role_name now with
  | Err e => (Err e, m)
  | Ok roles => db_write_roles m session_id roles
  end.

Definition db_get_session (m : DbSessionManager) (session_id : Uuid) : result (option (Session S Json)) :=
  row ← load_session (db_store m) session_id;
  match row with
  | Some r =>
      subject ← row_subject r (row_id r);
      Ok (Some {| sess_id := row_id r; sess_subject := subject; active_roles := string_set (row_active_roles r);
                  context := row_context r; version := row_version r; created_at := row_created_at r;
                  expires_at := row_expires_at r |})
  | None => Ok None
  end.

Definition db_destroy_session (m : DbSessionManager) (session_id : Uuid) : result unit * DbSessionManager :=
  let r := delete_session Json (db_store m) session_id in (r.1, with_db_store m r.2).

(** The loop over the roles; an error leaves it. *)
Fixpoint revoke_each (st : St) (s : S) (roles : list string) : result unit * St :=
  match roles with
  | [] => (Ok tt, st)
  | role :: roles =>
      match revoke_role P st s role with
      | (Err e, st) => (Err e, st)
      | (Ok _, st) => revoke_each st s roles
      end
  end.

Definition db_revoke_all_for_subject (m : DbSessionManager) (s : S) : result nat * DbSessionManager :=
  match roles_of P (db_assignments m) s with
  | Err e => (Err e, m)
  | Ok held =>
      let r := revoke_each (db_assignments m) s held in
      ((λ _, length held) <$> r.1, with_db_assignments m r.2)
  end.

Definition db_current_version (m : DbSessionManager) (s : S) : result Z :=
  o ← load_session_metadata (db_store m) (subject_id s);
  Ok (default 0%Z (row_version <$> o)).

Definition db_bump_version_for_subject (m : DbSessionManager) (s : S) : result Z * DbSessionManager :=
  match db_current_version m s with
  | Err e => (Err e, m)
  | Ok current =>
      let next := wrapping_add_u64 current 1 in
      let r := bump_version Json (db_store m) (subject_id s) next in
      ((λ _, next) <$> r.1, with_db_store m r.2)
  end.

Definition db_cleanup_expired (m : DbSessionManager) (now : DateTime) : result nat * DbSessionManager :=
  let r := store_cleanup_expired Json (db_store m) now in (r.1, with_db_store m r.2).

(** The comparison the trait asks of its callers: the version of the session
    against the current one. *)
Definition db_session_stale (m : DbSessionManager) (x : Session S Json) : result bool :=
  current ← db_current_version m (sess_subject x);
  Ok (version x <? current)%Z.
End DbSession.
Arguments DbSessionManager C St T : clear implicits.

(** ** Properties *)

Section Properties.
Context {C St S P Json T : Type} `{ConstraintStore C, AssignmentStore St S P, !PersistentSessionStore T Json}.
Context (uuid_to_string : Uuid → string) (display_error : Error → string) (debug_roles : gset string → string).
Implicit Types (m : DbSessionManager C St T) (row : SessionRow Json).

(** *** Separation of duty *)

(** Histories of the managers of one store: their calls, changes of roles
    whose row was read at any earlier time and whose other checks were made
    at any time, and writes to the assignments. *)
Inductive dreach `{!PersistentSessionLaws T Json} (cs : C) : T → Prop :=
  | dreach_new t : stored t = ∅ → dreach cs t
  | dreach_create t m s requested validated ttl id now :
      dreach cs t → db_constraint_store m = Some cs → db_create_roles (P := P) debug_roles m s requested = Ok validated →
      dreach cs (save_session t (new_row s validated ttl id now)).2
  | dreach_activate t t0 row m id role roles now :
      dreach cs t → dreach cs t0 → load_session t0 id = Ok (Some row) → db_constraint_store m = Some cs →
      db_activate_roles (S := S) (P := P) uuid_to_string display_error debug_roles m row id role now = Ok (Some roles) →
      dreach cs (update_roles Json t id roles).2
  | dreach_deactivate t t0 row id role roles now :
      dreach cs t → dreach cs t0 → load_session t0 id = Ok (Some row) → db_deactivate_roles row role now = Ok roles →
      dreach cs (update_roles Json t id roles).2
  | dreach_destroy t id : dreach cs t → dreach cs (delete_session Json t id).2
  | dreach_bump t sid v : dreach cs t → dreach cs (bump_version Json t sid v).2
  | dreach_cleanup t now : dreach cs t → dreach cs (store_cleanup_expired Json t now).2.

Definition roles_allowed (ps : list DsdPolicy) (roles : list string) : Prop :=
  ∀ p, p ∈ ps → sod_count p (elements (string_set roles)) < cardinality p.

Lemma string_set_elements (roles : gset string) : string_set (elements roles) = roles.
Proof. unfold string_set. apply list_to_set_elements_L. Qed.

Lemma db_dsd_gate_ok m roles cs ps :
  db_constraint_store m = Some cs → list_dsd_policies cs = Ok ps →
  db_dsd_gate debug_roles m roles = Ok tt ↔ ∀ p, p ∈ ps → sod_count p (elements roles) < cardinality p.
Proof.
  intros Hcs Hps. unfold db_dsd_gate, validate_dsd_with_store. rewrite Hcs, Hps. simpl.
  rewrite first_violation_ok. apply forall_proper. intros p. by rewrite sod_violated_false.
Qed.

Lemma db_create_roles_ok m s requested validated :
  db_create_roles (P := P) debug_roles m s requested = Ok validated ↔
  ∃ assigned, roles_of P (db_assignments m) s = Ok assigned ∧
    validated = filter (λ r, r ∈ string_set assigned) requested ∧ db_dsd_gate debug_roles m validated = Ok tt.
Proof.
  unfold db_create_roles. rewrite bind_ok. f_equiv. intros assigned. f_equiv.
  rewrite bind_unit_ok. cbv [mret result_ret]. naive_solver.
Qed.

Lemma db_activate_roles_ok m row id role now o :
  db_activate_roles (S := S) (P := P) uuid_to_string display_error debug_roles m row id role now = Ok o ↔
  (now ≤ row_expires_at row)%Z ∧
  let roles := string_set (row_active_roles row) in
  (role ∈ roles ∧ o = None ∨
   role ∉ roles ∧ ∃ s assigned, row_subject uuid_to_string display_error row id = Ok s ∧
     roles_of P (db_assignments m) s = Ok assigned ∧ role ∈ assigned ∧
     db_dsd_gate debug_roles m ({[role]} ∪ roles) = Ok tt ∧ o = Some (elements ({[role]} ∪ roles))).
Proof.
  unfold db_activate_roles. cbn zeta. set (roles := string_set _). destruct (Z.ltb_spec (row_expires_at row) now) as [Hlt|Hle].
  { split; [done|]. intros [? _]. lia. }
  case_bool_decide as Hin; [split; [intros [= <-]; by split; [|left]|naive_solver]|].
  rewrite bind_ok. split.
  - intros (s & Hs & (assigned & Ha & Hrest)%bind_ok). case_bool_decide as Hrole; [|done]. cbn [negb] in Hrest.
    apply bind_unit_ok in Hrest as [Hgate [= <-]]. split; [done|]. right. split; [done|]. by exists s, assigned.
  - intros (_ & [[? _]|(_ & s & assigned & Hs & Ha & Hrole & Hgate & ->)]); [done|]. exists s. split; [done|].
    apply bind_ok. exists assigned. split; [done|]. rewrite bool_decide_true by done. cbn [negb]. by apply bind_unit_ok.
Qed.

Lemma roles_allowed_subset ps roles roles' : string_set roles' ⊆ string_set roles → roles_allowed ps roles → roles_allowed ps roles'.
Proof.
  intros Hsub Hr p Hp. eapply Nat.le_lt_trans; [|by apply Hr]. apply sod_count_submseteq, NoDup_submseteq; [apply NoDup_elements|]. set_solver.
Qed.

Lemma dreach_allowed `{!PersistentSessionLaws T Json} cs t ps : dreach cs t → list_dsd_policies cs = Ok ps →
  map_Forall (λ _ row, roles_allowed ps (row_active_roles row)) (stored t).
Proof.
  intros Hr Hps. set (Q := λ (_ : Uuid) (row : SessionRow Json), roles_allowed ps (row_active_roles row)).
  assert (Hupdate : ∀ t id roles, map_Forall Q (stored t) → roles_allowed ps roles → map_Forall Q (stored (update_roles Json t id roles).2)).
  { intros t' id roles IH Hroles. destruct (update_law t' id roles) as [_ [->| ->]]; [done|]. intros i x Hx. apply lookup_alter_Some in Hx.
    destruct Hx as [(-> & x' & _ & ->)|[_ Hx]]; [done|by apply (IH i)]. }
  induction Hr as [t Ht|t m s req val ttl id now Hr IH Hcs Hval|t t0 row m id role roles now Hr IH Ht0 IH0 Hrow Hcs Hact
    |t t0 row id role roles now Hr IH Ht0 IH0 Hrow Hdeact|t id Hr IH|t sid v Hr IH|t now Hr IH].
  - rewrite Ht. apply map_Forall_empty.
  - destruct (save_law t (new_row s val ttl id now)) as [_ [->| ->]]; [done|]. apply map_Forall_insert_2; [|done]. unfold Q, roles_allowed. cbn.
    rewrite string_set_elements. apply db_create_roles_ok in Hval as (_ & _ & _ & Hgate). by apply (db_dsd_gate_ok m val cs).
  - apply Hupdate; [done|]. apply db_activate_roles_ok in Hact as (_ & [[_ ?]|(_ & s & assigned & _ & _ & _ & Hgate & [= ->])]); [done|].
    unfold roles_allowed. rewrite string_set_elements. by apply (db_dsd_gate_ok m _ cs).
  - apply Hupdate; [done|]. unfold db_deactivate_roles in Hdeact. destruct (_ <? _)%Z; [done|]. injection Hdeact as <-.
    apply load_law in Hrow. eapply roles_allowed_subset; [|exact (IH0 id row (eq_sym Hrow))]. rewrite string_set_elements. set_solver.
  - destruct (delete_law t id) as [_ [->| ->]]; [done|]. by apply map_Forall_delete.
  - intros id row Hrow. destruct (bump_law t sid v id row Hrow) as (row' & Hrow' & Heq). unfold Q. rewrite Heq. by apply (IH id).
  - intros id row Hrow. apply (IH id). eapply lookup_weaken; [exact Hrow|apply cleanup_law].
Qed.

(** C7: Separation of duty in a shared store.  Whatever managers of one
    constraint store do with it, on any number of replicas, with reads and
    writes interleaved in any way and writes that fail without telling
    whether they took effect, no stored session ever has the roles that a
    DSD policy excludes. *)
Theorem shared_sessions_respect_dsd `{!PersistentSessionLaws T Json} cs t ps id row p :
  dreach cs t → list_dsd_policies cs = Ok ps → load_session t id = Ok (Some row) → p ∈ ps →
  sod_count p (elements (string_set (row_active_roles row))) < cardinality p.
Proof. intros Hr Hps Hrow%load_law Hp. by apply (dreach_allowed cs t ps Hr Hps id row (eq_sym Hrow)). Qed.

(** *** Creation and activation *)

Lemma db_create_session_ok m s requested ttl id now x m' :
  db_create_session (P := P) debug_roles m s requested ttl id now = (Ok x, m') →
  ∃ validated, db_create_roles (P := P) debug_roles m s requested = Ok validated ∧
    let r := save_session (db_store m) (new_row s validated ttl id now) in
    r.1 = Ok tt ∧ x = new_session s validated ttl id now ∧ m' = with_db_store m r.2.
Proof.
  unfold db_create_session. destruct (db_create_roles _ _ _ _) as [validated|e]; [|done].
  destruct (save_session _ _) as [[[]|e] t] eqn:Hsave; cbn; [|done]. intros [= <- <-].
  exists validated. by rewrite Hsave.
Qed.

(** A session created in the shared store.  It holds exactly the
    requested roles that are assigned, and reading it back, on any replica,
    yields the same session; nothing is returned when the row was not
    written. *)
Theorem created_session_is_stored `{!PersistentSessionLaws T Json} m s requested ttl id now x m' o :
  try_from_subject_id (subject_id s) = Ok s →
  db_create_session (P := P) debug_roles m s requested ttl id now = (Ok x, m') →
  (∃ assigned, roles_of P (db_assignments m) s = Ok assigned ∧ ∀ role, role ∈ active_roles x ↔ role ∈ requested ∧ role ∈ assigned) ∧
  db_dsd_gate debug_roles m (active_roles x) = Ok tt ∧ sess_subject x = s ∧
  (load_session (db_store m') id = Ok o → db_get_session uuid_to_string display_error m' id = Ok (Some x)).
Proof.
  intros Hs Hc. apply db_create_session_ok in Hc as (validated & Hval & Hok & -> & ->).
  pose proof (proj1 (save_law _ _) Hok) as Hstored. apply db_create_roles_ok in Hval as (assigned & Hr & Hv & Hgate). split_and!.
  - exists assigned. split; [done|]. intros role. cbn. subst validated. unfold string_set. rewrite elem_of_filter, elem_of_list_to_set. by rewrite (comm and).
  - done.
  - done.
  - intros Hload. unfold db_get_session. rewrite Hload. apply load_law in Hload as ->. cbn [db_store with_db_store]. rewrite Hstored.
    cbn [row_id new_row]. rewrite lookup_insert_eq. cbn [mbind result_bind]. unfold row_subject. cbn [row_subject_id new_row]. rewrite Hs.
    cbn [mbind result_bind row_id row_active_roles row_context row_version row_created_at row_expires_at new_row].
    by rewrite string_set_elements.
Qed.

(** Activation in the shared store.  It succeeds exactly on a row that is
    there and unexpired, when the role is active already, or the subject id
    parses, the role is assigned now, the DSD policies allow it and the list
    is written; and then the role is active.  A role that is active already
    is not checked again, and nothing is written for it. *)
Theorem db_activate_role_spec `{!PersistentSessionLaws T Json} m id role now :
  let r := db_activate_role (P := P) (S := S) uuid_to_string display_error debug_roles m id role now in
  (r.1 = Ok tt ↔
    ∃ row, load_session (db_store m) id = Ok (Some row) ∧ (now ≤ row_expires_at row)%Z ∧
      let roles := string_set (row_active_roles row) in
      (role ∈ roles ∨ ∃ s assigned, row_subject uuid_to_string display_error row id = Ok s ∧
         roles_of P (db_assignments m) s = Ok assigned ∧ role ∈ assigned ∧ db_dsd_gate debug_roles m ({[role]} ∪ roles) = Ok tt ∧
         (update_roles Json (db_store m) id (elements ({[role]} ∪ roles))).1 = Ok tt)) ∧
  (r.1 = Ok tt → ∃ row, stored (db_store r.2) !! id = Some row ∧ role ∈ row_active_roles row).
Proof.
  cbn zeta. unfold db_activate_role, load_existing. destruct (load_session (db_store m) id) as [[row|]|e] eqn:Hload; cbn [mbind result_bind].
  2,3: split; [split; [done|naive_solver]|done].
  pose proof (load_law _ _ _ Hload) as Hrow. destruct (db_activate_roles _ _ _ _ _ _ _ _) as [[roles|]|e] eqn:Hact.
  - apply db_activate_roles_ok in Hact as (Hnow & [[_ ?]|(Hnin & s & assigned & Hs & Ha & Hrole & Hgate & [= ->])]); [done|].
    unfold db_write_roles. cbn [fst snd db_store with_db_store]. split.
    + split; [intros Hw; exists row; split; [done|]; split; [done|]; right; by exists s, assigned|].
      intros (? & [= <-] & _ & [?|(? & ? & _ & _ & _ & _ & Hw)]); [done|exact Hw].
    + intros Hw. rewrite (proj1 (update_law _ _ _) Hw), lookup_alter_eq, <- Hrow. eexists. split; [reflexivity|].
      cbn. apply elem_of_elements. set_solver.
  - apply db_activate_roles_ok in Hact as (Hnow & [[Hin _]|(_ & ? & ? & _ & _ & _ & _ & ?)]); [|done]. split.
    + split; [|done]. intros _. exists row. split; [done|]. split; [done|]. by left.
    + intros _. exists row. split; [done|]. unfold string_set in Hin. by apply elem_of_list_to_set in Hin.
  - split; [|done]. split; [done|]. intros (? & [= <-] & Hnow & Hcases). exfalso.
    assert (Hok : ∃ o, db_activate_roles (S := S) (P := P) uuid_to_string display_error debug_roles m row id role now = Ok o).
    { destruct (decide (role ∈ string_set (row_active_roles row))) as [Hin|Hnin].
      - exists None. apply db_activate_roles_ok. split; [done|]. by left.
      - destruct Hcases as [?|(s & assigned & Hs & Ha & Hrole & Hgate & _)]; [done|]. eexists. apply db_activate_roles_ok.
        split; [done|]. right. split; [done|]. by exists s, assigned. }
    destruct Hok as [o Hok]. congruence.
Qed.

(** *** Versions *)

Lemma db_current_recorded `{!SessionVersionLaws T Json} m s v : db_current_version m s = Ok v → v = recorded (db_store m) (subject_id s).
Proof. unfold db_current_version. intros (o & Ho & [= <-])%bind_ok. by apply metadata_law. Qed.

(** A version bump shuts the subject out.  Over a store that keeps the
    counters as documented, every session created for the subject after a
    bump is stale from the start, because new sessions carry version 0 and
    not the current one: the subject has no way to log in again.  (The
    manager in memory stamps the current version.)  Only the bump that wraps
    the counter to 0 lets it in. *)
Theorem bump_locks_out_subject `{!SessionVersionLaws T Json} m s v m1 m2 requested ttl id now x m3 stale :
  db_bump_version_for_subject m s = (Ok v, m1) → v ≠ 0%Z →
  db_store m2 = db_store m1 →
  db_create_session (P := P) debug_roles m2 s requested ttl id now = (Ok x, m3) →
  db_session_stale m3 x = Ok stale → stale = true.
Proof.
  intros Hb Hv Hsame Hc Hst. unfold db_bump_version_for_subject in Hb. destruct (db_current_version m s) as [current|e]; [|done].
  destruct (bump_version Json (db_store m) (subject_id s) _) as [[[]|e] t] eqn:Hbump; [|done]. cbn in Hb. injection Hb as <- <-.
  apply db_create_session_ok in Hc as (validated & _ & Hok & -> & ->). unfold db_session_stale in Hst.
  apply bind_ok in Hst as (cur & Hcur%db_current_recorded & [= <-]). apply Z.ltb_lt. cbn [sess_subject version new_session db_store with_db_store] in *.
  rewrite save_recorded in Hcur by done. rewrite Hsame in Hcur. cbn [db_store with_db_store] in Hcur.
  pose proof (bump_recorded (db_store m) (subject_id s) (wrapping_add_u64 current 1)) as Hrec. rewrite Hbump in Hrec.
  rewrite Hrec, decide_True in Hcur by done. subst cur. pose proof (wrapping_add_u64_range current 1) as [? ?]. lia.
Qed.

(** *** Revocation *)

Lemma revoke_each_ok `{!AssignmentStoreLaws St S P} st s roles st' : revoke_each (P := P) st s roles = (Ok tt, st') →
  ∀ i, g_roles (store_view st' i) = if decide (i = subject_id s) then g_roles (store_view st i) ∖ string_set roles else g_roles (store_view st i).
Proof.
  revert st. induction roles as [|role roles IH]; intros st; cbn [revoke_each].
  - intros [= <-] i. unfold string_set. cbn. case_decide; [|done]. set_solver.
  - destruct (revoke_role P st s role) as [[[]|e] st1] eqn:Hrev; [|done]. intros Hrest i. rewrite (IH st1 Hrest i).
    pose proof (revoke_role_view (P := P) st st1 s role Hrev) as Hview. cbn in Hview. unfold set_at in Hview. rewrite Hview.
    case_decide; [|done]. subst i. cbn. unfold string_set. cbn. set_solver.
Qed.

(** Revoking all sessions of a subject in the shared store touches no
    session: it revokes the roles the subject holds, and when it succeeds,
    with their number, the subject holds none, while every stored session
    keeps its list of active roles. *)
Theorem revoke_all_revokes_roles `{!AssignmentStoreLaws St S P} m s n m' :
  db_revoke_all_for_subject (P := P) m s = (Ok n, m') →
  db_store m' = db_store m ∧
  (∃ held, roles_of P (db_assignments m) s = Ok held ∧ n = length held) ∧
  (∀ roles, roles_of P (db_assignments m') s = Ok roles → roles = []) ∧
  (∀ s' : S, subject_id s' ≠ subject_id s → g_roles (store_view (db_assignments m') (subject_id s')) = g_roles (store_view (db_assignments m) (subject_id s'))).
Proof.
  unfold db_revoke_all_for_subject. destruct (roles_of P (db_assignments m) s) as [held|e] eqn:Hheld; [|done].
  destruct (revoke_each _ _ _) as [[[]|e] st'] eqn:Hrev; cbn; [|done]. intros [= <- <-]. pose proof (revoke_each_ok _ _ _ _ Hrev) as Hview.
  split_and!; [done|by exists held| |].
  - intros roles Hroles. cbn in Hroles. pose proof (roles_of_view _ _ _ Hroles) as Hin. pose proof (roles_of_view _ _ _ Hheld) as Hin0.
    destruct roles as [|r roles]; [done|]. exfalso. assert (Hr : r ∈ r :: roles) by (by left). apply Hin in Hr. rewrite Hview, decide_True in Hr by done.
    apply elem_of_difference in Hr as [Hr Hnr]. apply Hnr. unfold string_set. apply elem_of_list_to_set. by apply Hin0.
  - intros s' Hne. cbn. by rewrite Hview, decide_False.
Qed.
End Properties.

(** ** A store that keeps its promises *)

Module Kept.
Record store := { k_rows : gmap Uuid (SessionRow unit); k_versions : gmap string Z }.

Definition metadata (t : store) (sid : string) : option (SessionRow unit) :=
  (λ v, {| row_id := 0%N; row_subject_id := sid; row_active_roles := []; row_context := None; row_version := v;
           row_expires_at := 0; row_created_at := 0 |}) <$> k_versions t !! sid.

#[export] Instance kept : PersistentSessionStore store unit := {|
  save_session := λ t row, (Ok tt, {| k_rows := <[row_id row := row]> (k_rows t); k_versions := k_versions t |});
  load_session := λ t id, Ok (k_rows t !! id);
  delete_session := λ t id, (Ok tt, {| k_rows := delete id (k_rows t); k_versions := k_versions t |});
  update_roles := λ t id roles, (Ok tt, {| k_rows := alter (λ row, row_with_roles row roles) id (k_rows t); k_versions := k_versions t |});
  store_cleanup_expired := λ t now, (Ok 0, {| k_rows := filter (λ r, now ≤ row_expires_at r.2)%Z (k_rows t); k_versions := k_versions t |});
  load_session_metadata := λ t sid, Ok (metadata t sid);
  bump_version := λ t sid v, (Ok tt, {| k_rows := k_rows t; k_versions := <[sid := v]> (k_versions t) |});
|}.

#[export] Program Instance kept_laws : PersistentSessionLaws store unit := {| stored := k_rows |}.
Next Obligation. by intros t id o [= <-]. Qed.
Next Obligation. intros t row. split; [done|by right]. Qed.
Next Obligation. intros t id. split; [done|by right]. Qed.
Next Obligation. intros t id roles. split; [done|by right]. Qed.
Next Obligation. intros t now. apply map_filter_subseteq. Qed.
Next Obligation. intros t sid v id row Hrow. by exists row. Qed.

#[export] Program Instance kept_versions : SessionVersionLaws store unit := {| recorded := λ t sid, default 0%Z (k_versions t !! sid) |}.
Next Obligation. intros t sid o [= <-]. cbn. unfold metadata. by destruct (k_versions t !! sid). Qed.
Next Obligation.
  intros t sid v _ i. cbn. case_decide as Hi; [subst; by rewrite lookup_insert_eq|by rewrite lookup_insert_ne by done].
Qed.
Next Obligation. done. Qed.

Definition show (_ : Uuid) : string := "".
Definition show_error (_ : Error) : string := "".
Definition empty : store := {| k_rows := ∅; k_versions := ∅ |}.
Abbreviation manager := (DbSessionManager InMemoryConstraintStore (InMemoryAssignmentStore KirinoPermission) store).
Definition manager0 : manager := db_with_constraint_store (DbSessionManager_new empty Desk.store) Desk.constraints.
(** "ann" logs in as payer, and asks for the second duty. *)
Definition created := db_create_session (P := KirinoPermission) (S := string) Desk.debug manager0 "ann" {["payer"; "root"]} 60 1%N 0.
Definition manager1 : manager := created.2.
Definition manager2 : manager :=
  (db_activate_role (P := KirinoPermission) (S := string) show show_error Desk.debug manager1 1%N "approver" 5).2.

Lemma kept_manager1_reached : dreach (P := KirinoPermission) (S := string) show show_error Desk.debug Desk.constraints (db_store manager1).
Proof.
  change (db_store manager1) with (save_session empty (new_row (Json := unit) "ann" {["payer"]} 60 1%N 0)).2.
  apply (dreach_create show show_error Desk.debug Desk.constraints empty manager0 "ann" {["payer"; "root"]}).
  - by apply dreach_new.
  - reflexivity.
  - vm_compute. reflexivity.
Qed.

Lemma shared_sessions_respect_dsd_witness :
  ∃ row, load_session (db_store manager2) 1%N = Ok (Some row) ∧
    sod_count Desk.policy (elements (string_set (row_active_roles row))) < 2.
Proof.
  assert (Hsame : db_store manager2 = db_store manager1) by (vm_compute; reflexivity).
  eexists. split; [rewrite Hsame; vm_compute; reflexivity|].
  apply (shared_sessions_respect_dsd (P := KirinoPermission) (S := string) show show_error Desk.debug Desk.constraints
    (db_store manager1) [Desk.policy] 1%N _ Desk.policy kept_manager1_reached); [reflexivity|vm_compute; reflexivity|by left].
Defined.

(** Her session, and the manager that stores it. *)
Definition ann_session : Session string unit := new_session (Json := unit) "ann" {["payer"]} 60 1%N 0.
Lemma created_eq : created = (Ok ann_session, manager1).
Proof. apply injective_projections; [vm_compute; reflexivity|reflexivity]. Qed.
Lemma reads_back : load_session (db_store manager1) 1%N = Ok (k_rows (db_store manager1) !! 1%N).
Proof. reflexivity. Qed.

Lemma created_session_is_stored_witness :
  created.1 = Ok ann_session ∧ db_get_session (S := string) show show_error manager1 1%N = Ok (Some ann_session).
Proof.
  split; [rewrite created_eq; exact eq_refl|].
  exact (proj2 (proj2 (proj2 (created_session_is_stored (P := KirinoPermission) (S := string) show show_error Desk.debug manager0 "ann"
    {["payer"; "root"]} 60 1%N 0 ann_session manager1 (k_rows (db_store manager1) !! 1%N) eq_refl created_eq))) reads_back).
Defined.

Lemma payer_is_active : ∃ row, load_session (db_store manager1) 1%N = Ok (Some row) ∧ (60 ≤ row_expires_at row)%Z ∧
  "payer" ∈ string_set (row_active_roles row).
Proof.
  exists (new_row (Json := unit) "ann" {["payer"]} 60 1%N 0). split; [vm_compute; reflexivity|]. split; [vm_compute; discriminate|].
  apply (bool_decide_unpack _). vm_compute. exact I.
Qed.
Lemma db_activate_role_spec_witness :
  (db_activate_role (P := KirinoPermission) (S := string) show show_error Desk.debug manager1 1%N "payer" 60).1 = Ok tt.
Proof.
  apply (db_activate_role_spec (P := KirinoPermission) (S := string) show show_error Desk.debug manager1 1%N "payer" 60).
  destruct payer_is_active as (row & Hrow & Hnow & Hin). exists row. split; [exact Hrow|]. split; [exact Hnow|]. left. exact Hin.
Defined.

(** The version of "ann" is bumped, and she logs in again. *)
Definition bumped := db_bump_version_for_subject (S := string) manager1 "ann".
Definition again := db_create_session (P := KirinoPermission) (S := string) Desk.debug bumped.2 "ann" {["payer"]} 60 2%N 10.
Definition ann_again : Session string unit := new_session (Json := unit) "ann" {["payer"]} 60 2%N 10.
Lemma kept_bumped_eq : bumped = (Ok 1%Z, bumped.2).
Proof. apply injective_projections; [vm_compute; reflexivity|reflexivity]. Qed.
Lemma kept_again_eq : again = (Ok ann_again, again.2).
Proof. apply injective_projections; [vm_compute; reflexivity|reflexivity]. Qed.
Lemma again_stale : ∃ b, db_session_stale again.2 ann_again = Ok b.
Proof. eexists. vm_compute. reflexivity. Qed.
Lemma bump_locks_out_subject_witness : db_session_stale again.2 ann_again = Ok true.
Proof.
  destruct again_stale as [b Hb]. rewrite Hb. f_equal.
  exact (bump_locks_out_subject (P := KirinoPermission) (S := string) Desk.debug manager1 "ann" 1 bumped.2 bumped.2 {["payer"]} 60 2%N 10 ann_again again.2 b
    kept_bumped_eq ltac:(discriminate) eq_refl kept_again_eq Hb).
Defined.

Definition stripped := db_revoke_all_for_subject (P := KirinoPermission) (S := string) manager1 "ann".
Lemma stripped_eq : stripped = (Ok 2, stripped.2).
Proof. apply injective_projections; [vm_compute; reflexivity|reflexivity]. Qed.
Lemma revoke_all_revokes_roles_witness : db_store stripped.2 = db_store manager1.
Proof. exact (proj1 (revoke_all_revokes_roles (P := KirinoPermission) (S := string) manager1 "ann" 2 stripped.2 stripped_eq)). Defined.
End Kept.
