(* ===== verification/Scope.v ===== *)
(** * Scoped grants: src/src/rbac/scope.rs

    [ScopedGrantResolver] over any grant store ([ScopedGrantStore]) and any
    role registry, and the in-memory store.  The resolver keeps no state: one
    [resolve] reads the stores it is given.  The [{:?}] text of a [Uuid] is
    the uuid crate's: [debug_uuid]. *)

From S2P Require Import Prelude Traits Catalog Store.

(** ** Scopes and grants *)

Inductive GrantScope :=
  | Global
  | Group (g : Uuid)
  | Workspace (w : Uuid).

#[export] Instance GrantScope_eq_dec : EqDecision GrantScope.
Proof. solve_decision. Defined.

Definition specificity (scope : GrantScope) : nat :=
  match scope with
  | Global => 0
  | Group _ => 1
  | Workspace _ => 2
  end.

Definition applies_to (scope : GrantScope) (ctx : PermissionContext) : bool :=
  match scope with
  | Global => true
  | Group g => bool_decide (g ∈ group_ids ctx)
  | Workspace w => bool_decide (workspace_id ctx = Some w)
  end.

Record ScopedGrant (P : Type) := ScopedGrant_new {
  grant_permission : P;
  scope : GrantScope;
}.
Arguments ScopedGrant_new {P} _ _.
Arguments grant_permission {P} _.
Arguments scope {P} _.

(** Exact name, or a branch the requested permission descends from. *)
Definition grant_matches `{Permission P} (grant requested : P) : bool :=
  bool_decide (perm_name grant = perm_name requested) ||
  is_branch grant &&
    bool_decide (perm_name grant ∈ ancestry_names requested).

(** ** The grant store *)

Class ScopedGrantStore (G P : Type) `{Permission P} := {
  user_grants : G → Uuid → result (list (ScopedGrant P));
  group_grants : G → Uuid → result (list (ScopedGrant P));
  denied : G → Uuid → result (gset P);
}.

Section MemoryStore.
Context {P : Type} `{Permission P}.

Record MemoryScopedGrantStore := {
  user_rows : gmap Uuid (list (ScopedGrant P));
  group_rows : gmap Uuid (list (ScopedGrant P));
  deny_rows : gmap Uuid (gset P);
}.

Definition MemoryScopedGrantStore_new : MemoryScopedGrantStore := {|
  user_rows := ∅; group_rows := ∅; deny_rows := ∅ |}.

Definition grant_user (st : MemoryScopedGrantStore) (user : Uuid) (g : ScopedGrant P)
    : MemoryScopedGrantStore := {|
  user_rows := <[user := default [] (user_rows st !! user) ++ [g]]> (user_rows st);
  group_rows := group_rows st;
  deny_rows := deny_rows st |}.

Definition grant_group (st : MemoryScopedGrantStore) (group : Uuid) (g : ScopedGrant P)
    : MemoryScopedGrantStore := {|
  user_rows := user_rows st;
  group_rows := <[group := default [] (group_rows st !! group) ++ [g]]> (group_rows st);
  deny_rows := deny_rows st |}.

Definition deny (st : MemoryScopedGrantStore) (user : Uuid) (p : P)
    : MemoryScopedGrantStore := {|
  user_rows := user_rows st;
  group_rows := group_rows st;
  deny_rows := <[user := {[p]} ∪ default ∅ (deny_rows st !! user)]> (deny_rows st) |}.

#[export] Instance memory_scoped_grant_store : ScopedGrantStore MemoryScopedGrantStore P := {|
  user_grants st user := Ok (default [] (user_rows st !! user));
  group_grants st group := Ok (default [] (group_rows st !! group));
  denied st user := Ok (default ∅ (deny_rows st !! user));
|}.
End MemoryStore.
Arguments MemoryScopedGrantStore P {_ _}.
Arguments MemoryScopedGrantStore_new {P _ _}.

(** ** The resolver *)

Inductive Attachment := AttachedUser | AttachedGroup.

Definition grant_source (attachment : Attachment) (scope : GrantScope) : GrantSource :=
  match scope with
  | Workspace _ => WorkspaceGrant
  | _ =>
      match attachment with
      | AttachedUser => UserGrant
      | AttachedGroup => GroupGrant
      end
  end.

Section Resolver.
Context {G R P : Type} `{ScopedGrantStore G P, !RoleRegistry R P}.
Variable debug_uuid : Uuid → string.

Record ScopedGrantResolver := ScopedGrantResolver_new {
  scope_store : G;
  scope_roles : R;
}.

Definition debug_scope (scope : GrantScope) : string :=
  match scope with
  | Global => "Global"
  | Group g => "Group(" +:+ debug_uuid g +:+ ")"
  | Workspace w => "Workspace(" +:+ debug_uuid w +:+ ")"
  end.

Definition candidate : Type := Attachment * ScopedGrant P.

(** The [for group in &ctx.group_ids] loop. *)
Fixpoint group_candidates (st : G) (groups : list Uuid) : result (list candidate) :=
  match groups with
  | [] => Ok []
  | group :: groups =>
      rows ← group_grants st group;
      rest ← group_candidates st groups;
      Ok ((pair AttachedGroup <$> rows) ++ rest)
  end.

Definition all_candidates (st : G) (ctx : PermissionContext) : result (list candidate) :=
  users ← user_grants st (user_id ctx);
  groups ← group_candidates st (group_ids ctx);
  Ok ((pair AttachedUser <$> users) ++ groups).

Definition candidate_matches (ctx : PermissionContext) (permission : P) (c : candidate) : bool :=
  applies_to (scope c.2) ctx && grant_matches (grant_permission c.2) permission.

(** The loop that keeps [best]. *)
Fixpoint best_candidate (ctx : PermissionContext) (permission : P) (best : option candidate)
    (candidates : list candidate) : option candidate :=
  match candidates with
  | [] => best
  | c :: rest =>
      if candidate_matches ctx permission c then
        let more_specific :=
          match best with
          | None => true
          | Some b => specificity (scope b.2) <? specificity (scope c.2)
          end in
        best_candidate ctx permission (if more_specific then Some c else best) rest
      else best_candidate ctx permission best rest
  end.

Definition role_default (roles : R) (role : SystemRole) (permission : P) : bool :=
  match get_role_permissions roles (SystemRole.as_str role) with
  | Some perms => existsb (λ p, grant_matches p permission) (elements perms)
  | None => false
  end.

Definition scoped_resolve (r : ScopedGrantResolver) (ctx : PermissionContext) (permission : P)
    (resource_id : option string) : result PermissionDecision :=
  if is_session_stale ctx then
    Ok (Denied "session version is stale — re-authentication required" None)
  else if decide (system_role ctx = Admin) then
    Ok (Granted "system administrator" AdminBypass)
  else
    denies ← denied (scope_store r) (user_id ctx);
    if existsb (λ d, grant_matches d permission) (elements denies) then
      Ok (Denied "denied by explicit deny set" None)
    else if role_default (scope_roles r) (system_role ctx) permission then
      Ok (Granted ("role default for " +:+ SystemRole.as_str (system_role ctx)) RoleDefault)
    else
      candidates ← all_candidates (scope_store r) ctx;
      match best_candidate ctx permission None candidates with
      | Some (attachment, grant) =>
          Ok (Granted ("scoped grant (" +:+ debug_scope (scope grant) +:+ ")")
                (grant_source attachment (scope grant)))
      | None => Ok (Denied "no matching grant at any applicable scope" None)
      end.

Definition scoped_grant_resolver : GrantResolver ScopedGrantResolver P := scoped_resolve.

(** ** Which candidate labels the decision *)

(** [c] is the first of the highest specificity among the matching ones. *)
Definition first_most_specific (ctx : PermissionContext) (permission : P) (l : list candidate)
    (c : candidate) : Prop :=
  ∃ before after, l = before ++ c :: after ∧
    candidate_matches ctx permission c = true ∧
    (∀ d, d ∈ before → candidate_matches ctx permission d = true →
       specificity (scope d.2) < specificity (scope c.2)) ∧
    (∀ d, d ∈ after → candidate_matches ctx permission d = true →
       specificity (scope d.2) ≤ specificity (scope c.2)).

(** The loop's invariant, from any [best] so far. *)
Lemma best_candidate_spec ctx permission best l :
  match best_candidate ctx permission best l with
  | None => best = None ∧ ∀ d, d ∈ l → candidate_matches ctx permission d = false
  | Some c =>
      (best = Some c ∧ ∀ d, d ∈ l → candidate_matches ctx permission d = true →
         specificity (scope d.2) ≤ specificity (scope c.2)) ∨
      (first_most_specific ctx permission l c ∧
       ∀ b, best = Some b → specificity (scope b.2) < specificity (scope c.2))
  end.
Proof.
  revert best. induction l as [|d l IH]; intros best; simpl.
  { destruct best as [b|]; [left|]; (split; [done|]); intros d Hd; by apply not_elem_of_nil in Hd. }
  destruct (candidate_matches ctx permission d) eqn:Hd.
  2: { specialize (IH best). destruct (best_candidate ctx permission best l) as [c|].
    - destruct IH as [[-> Hall]|[(pre & post & -> & Hc & Hpre & Hpost) Hb]].
      + left. split; [done|]. intros e [->|He]%elem_of_cons Hm; [congruence|by apply Hall].
      + right. split; [|done]. exists (d :: pre), post. split_and!; [done|done| |done].
        intros e [->|He]%elem_of_cons Hm; [congruence|by apply Hpre].
    - destruct IH as [-> Hall]. split; [done|]. intros e [->|He]%elem_of_cons; auto. }
  assert (Hnew : ∀ c b, best_candidate ctx permission (Some d) l = Some c → best = b →
    (∀ e, b = Some e → specificity (scope e.2) < specificity (scope d.2)) →
    first_most_specific ctx permission (d :: l) c ∧
    ∀ e, b = Some e → specificity (scope e.2) < specificity (scope c.2)).
  { intros c b Hbest _ Hlt. specialize (IH (Some d)). rewrite Hbest in IH.
    destruct IH as [[[= ->] Hall]|[(pre & post & -> & Hc & Hpre & Hpost) Hb]].
    - split; [|done]. exists [], l. split_and!; [done|done| |done].
      intros e He. by apply not_elem_of_nil in He.
    - specialize (Hb d eq_refl). split.
      + exists (d :: pre), post. split_and!; [done|done| |done].
        intros e [->|He]%elem_of_cons Hm; [done|by apply Hpre].
      + intros e He. specialize (Hlt e He). lia. }
  destruct best as [b|].
  - destruct (Nat.ltb_spec (specificity (scope b.2)) (specificity (scope d.2))) as [Hlt|Hge].
    + destruct (best_candidate ctx permission (Some d) l) as [c|] eqn:Hbest.
      * right. apply (Hnew c (Some b) eq_refl eq_refl). by intros e [= <-].
      * specialize (IH (Some d)). rewrite Hbest in IH. by destruct IH.
    + specialize (IH (Some b)). destruct (best_candidate ctx permission (Some b) l) as [c|].
      * destruct IH as [[[= ->] Hall]|[(pre & post & -> & Hc & Hpre & Hpost) Hb]].
        -- left. split; [done|]. intros e [->|He]%elem_of_cons Hm; [done|by apply Hall].
        -- right. specialize (Hb b eq_refl). split; [|by intros e [= <-]].
           exists (d :: pre), post. split_and!; [done|done| |done].
           intros e [->|He]%elem_of_cons Hm; [lia|by apply Hpre].
      * by destruct IH.
  - destruct (best_candidate ctx permission (Some d) l) as [c|] eqn:Hbest.
    + right. by apply (Hnew c None eq_refl eq_refl).
    + specialize (IH (Some d)). rewrite Hbest in IH. by destruct IH.
Qed.

Lemma best_candidate_none ctx permission l :
  best_candidate ctx permission None l = None ↔
  ∀ d, d ∈ l → candidate_matches ctx permission d = false.
Proof.
  pose proof (best_candidate_spec ctx permission None l) as Hspec.
  destruct (best_candidate ctx permission None l) as [c|].
  - split; [done|]. intros Hno. destruct Hspec as [[? _]|[(pre & post & -> & Hc & _) _]]; [done|].
    rewrite Hno in Hc; [done|]. apply elem_of_app. right. constructor.
  - split; [by intros _; apply Hspec|done].
Qed.

Lemma best_candidate_some ctx permission l c :
  best_candidate ctx permission None l = Some c → first_most_specific ctx permission l c.
Proof.
  intros Hbest. pose proof (best_candidate_spec ctx permission None l) as Hspec.
  rewrite Hbest in Hspec. by destruct Hspec as [[? _]|[? _]].
Qed.

(** ** Reading the candidates *)

Lemma group_candidates_ok st groups l :
  group_candidates st groups = Ok l →
  ∀ c, c ∈ l ↔ ∃ g rows, g ∈ groups ∧ group_grants st g = Ok rows ∧ c.1 = AttachedGroup ∧ c.2 ∈ rows.
Proof.
  revert l. induction groups as [|g groups IH]; intros l; simpl.
  { intros [= <-] c. rewrite elem_of_nil. split; [done|].
    intros (g & _ & Hg & _). by apply not_elem_of_nil in Hg. }
  intros (rows & Hrows & (rest & Hrest & [= <-])%bind_ok)%bind_ok [a grant].
  rewrite elem_of_app, (IH rest Hrest), list_elem_of_fmap. split.
  - intros [(y & [= -> ->] & Hy)|(g' & rows' & Hg' & Hr' & Ha & Hin)].
    + exists g, rows. split_and!; [constructor|done|done|done].
    + exists g', rows'. split_and!; [by constructor|done|done|done].
  - intros (g' & rows' & [->|Hg']%elem_of_cons & Hr' & Ha & Hin); simpl in *.
    + left. rewrite Hrows in Hr'. injection Hr' as <-. exists grant. by rewrite Ha.
    + right. eauto 8.
Qed.

(** A matching grant the resolver can see: attached to the user, or to a
    group of the context. *)
Definition visible_match (st : G) (ctx : PermissionContext) (permission : P) : Prop :=
  ∃ a grant rows, grant ∈ rows ∧
    match a with
    | AttachedUser => user_grants st (user_id ctx) = Ok rows
    | AttachedGroup => ∃ g, g ∈ group_ids ctx ∧ group_grants st g = Ok rows
    end ∧
    candidate_matches ctx permission (a, grant) = true.

Lemma all_candidates_match st ctx permission l :
  all_candidates st ctx = Ok l →
  (∃ c, c ∈ l ∧ candidate_matches ctx permission c = true) ↔ visible_match st ctx permission.
Proof.
  unfold all_candidates.
  intros (users & Hu & (groups & Hg & [= <-])%bind_ok)%bind_ok.
  pose proof (group_candidates_ok _ _ _ Hg) as Hgroups. unfold visible_match. split.
  - intros ([a grant] & Hin & Hm). exists a, grant.
    apply elem_of_app in Hin as [(y & [= -> ->] & Hy)%list_elem_of_fmap|Hin].
    + by exists users.
    + apply Hgroups in Hin as (g & rows & Hg' & Hrows & Ha & Hin). simpl in *. subst.
      exists rows. eauto.
  - intros (a & grant & rows & Hin & Hsrc & Hm). exists (a, grant). split; [|done].
    apply elem_of_app. destruct a.
    + left. rewrite Hu in Hsrc. injection Hsrc as <-. apply list_elem_of_fmap. eauto.
    + right. apply Hgroups. destruct Hsrc as (g & Hg' & Hrows). by exists g, rows.
Qed.

Lemma role_default_true (roles : R) role permission :
  role_default roles role permission = true ↔
  ∃ perms p, get_role_permissions roles (SystemRole.as_str role) = Some perms ∧
    p ∈ perms ∧ grant_matches p permission = true.
Proof.
  unfold role_default.
  destruct (get_role_permissions roles (SystemRole.as_str role)) as [perms|];
    [|by split; [|intros (? & ? & ? & _)]].
  rewrite existsb_elem. setoid_rewrite elem_of_elements. split.
  - intros (p & Hp & Hm). eauto.
  - intros (perms' & p & [= <-] & Hp & Hm). eauto.
Qed.

(** A denied permission: some entry of the deny set matches it. *)
Definition denies_permission (denies : gset P) (permission : P) : Prop :=
  ∃ d, d ∈ denies ∧ grant_matches d permission = true.

Lemma denies_permission_true denies permission :
  existsb (λ d, grant_matches d permission) (elements denies) = true ↔
  denies_permission denies permission.
Proof. rewrite existsb_elem. by setoid_rewrite elem_of_elements. Qed.
End Resolver.
Arguments ScopedGrantResolver G R : clear implicits.

(** ** Properties *)

Section ScopeProperties.
Context {G R P : Type} `{ScopedGrantStore G P, !RoleRegistry R P}.
Variable debug_uuid : Uuid → string.
Implicit Types (r : ScopedGrantResolver G R) (ctx : PermissionContext) (p : P).

(** When [resolve] grants. *)
Lemma scoped_resolve_grants r ctx p resource :
  (∃ d, scoped_resolve debug_uuid r ctx p resource = Ok d ∧ is_granted d = true) ↔
  is_session_stale ctx = false ∧
  (system_role ctx = Admin ∨
   ∃ denies, denied (scope_store r) (user_id ctx) = Ok denies ∧
     ¬ denies_permission denies p ∧
     (role_default (scope_roles r) (system_role ctx) p = true ∨
      (∃ l, all_candidates (scope_store r) ctx = Ok l) ∧ visible_match (scope_store r) ctx p)).
Proof.
  unfold scoped_resolve. destruct (is_session_stale ctx); [naive_solver|].
  case_decide as Hadmin; [naive_solver|].
  destruct (denied (scope_store r) (user_id ctx)) as [denies|e]; simpl; [|naive_solver].
  destruct (existsb _ (elements denies)) eqn:Hdeny.
  { apply denies_permission_true in Hdeny. naive_solver. }
  assert (Hnodeny : ¬ denies_permission denies p).
  { rewrite <- denies_permission_true, Hdeny. done. }
  destruct (role_default (scope_roles r) (system_role ctx) p) eqn:Hdef; [naive_solver|].
  destruct (all_candidates (scope_store r) ctx) as [l|e] eqn:Hl; simpl; [|naive_solver].
  setoid_rewrite <- (all_candidates_match _ _ _ _ Hl).
  destruct (best_candidate ctx p None l) as [[a grant]|] eqn:Hbest.
  - apply best_candidate_some in Hbest as (pre & post & -> & Hm & _).
    split; [|by eexists]. intros _. split; [done|]. right. exists denies.
    split_and!; [done|done|]. right. split; [by eexists|]. exists (a, grant).
    split; [|done]. apply elem_of_app. right. constructor.
  - rewrite best_candidate_none in Hbest. naive_solver.
Qed.

(** C8: the whole decision of [resolve].  A stale session is denied and a live
    administrator granted before any store is read; otherwise a granted
    answer means that the deny set was read and holds no match, and either
    the role default matches or every grant list could be read and a visible
    grant matches at a scope that applies. *)
Theorem scoped_resolve_grants_iff r ctx p resource :
  (∃ d, scoped_resolve debug_uuid r ctx p resource = Ok d ∧ is_granted d = true) ↔
  is_session_stale ctx = false ∧
  (system_role ctx = Admin ∨
   ∃ denies, denied (scope_store r) (user_id ctx) = Ok denies ∧
     ¬ denies_permission denies p ∧
     (role_default (scope_roles r) (system_role ctx) p = true ∨
      (∃ l, all_candidates (scope_store r) ctx = Ok l) ∧ visible_match (scope_store r) ctx p)).
Proof. apply scoped_resolve_grants. Qed.

(** A granted decision that is neither the bypass nor a role default is
    labelled by the first grant of the highest specificity among the visible
    matching ones, user-attached candidates before those of each group in
    turn: a workspace scope labels it [WorkspaceGrant], otherwise the
    attachment does. *)
Theorem scoped_resolve_label r ctx p resource reason source :
  scoped_resolve debug_uuid r ctx p resource = Ok (Granted reason source) →
  source ≠ AdminBypass → source ≠ RoleDefault →
  ∃ l a grant, all_candidates (scope_store r) ctx = Ok l ∧
    first_most_specific ctx p l (a, grant) ∧
    source = grant_source a (scope grant) ∧
    (source = WorkspaceGrant ↔ ∃ w, scope grant = Workspace w).
Proof.
  unfold scoped_resolve. intros Hres Hna Hnd. destruct (is_session_stale ctx); [done|].
  case_decide; [naive_solver|].
  apply bind_ok in Hres as (denies & _ & Hres). destruct (existsb _ _); [done|].
  destruct (role_default _ _ _); [naive_solver|].
  apply bind_ok in Hres as (l & Hl & Hres).
  destruct (best_candidate ctx p None l) as [[a grant]|] eqn:Hbest; [|done].
  injection Hres as _ <-. exists l, a, grant.
  split_and!; [done|by apply best_candidate_some|done|].
  destruct (scope grant), a; simpl; naive_solver.
Qed.
End ScopeProperties.

Section ScopedUnion.
Context {R P : Type} `{Permission P, !RoleRegistry R P}.
Variable debug_uuid : Uuid → string.
Implicit Types (st : MemoryScopedGrantStore P) (ctx : PermissionContext) (p : P).

Definition grants_with (roles : R) st ctx p : Prop :=
  ∃ d, scoped_resolve debug_uuid (ScopedGrantResolver_new st roles) ctx p None = Ok d ∧
    is_granted d = true.

Lemma memory_candidates_read st ctx : ∃ l, all_candidates st ctx = Ok l.
Proof.
  unfold all_candidates. simpl. assert (Hg : ∃ l, group_candidates st (group_ids ctx) = Ok l).
  { induction (group_ids ctx) as [|g groups [l IH]]; simpl; [by eexists|]. rewrite IH. by eexists. }
  destruct Hg as [l ->]. by eexists.
Qed.

Lemma memory_visible st ctx p :
  visible_match st ctx p ↔
  ∃ a grant, candidate_matches ctx p (a, grant) = true ∧
    match a with
    | AttachedUser => grant ∈ default [] (user_rows st !! user_id ctx)
    | AttachedGroup => ∃ g, g ∈ group_ids ctx ∧ grant ∈ default [] (group_rows st !! g)
    end.
Proof.
  unfold visible_match. split.
  - intros (a & grant & rows & Hin & Hsrc & Hm). exists a, grant. split; [done|].
    destruct a; simpl in Hsrc.
    + by injection Hsrc as <-.
    + destruct Hsrc as (g & Hg & [= <-]). eauto.
  - intros (a & grant & Hm & Hin). exists a, grant. destruct a; simpl.
    + by eexists.
    + destruct Hin as (g & Hg & Hin). exists (default [] (group_rows st !! g)). eauto.
Qed.

Lemma appended_row (rows : gmap Uuid (list (ScopedGrant P))) k g x i :
  x ∈ default [] (rows !! i) → x ∈ default [] (<[k := default [] (rows !! k) ++ [g]]> rows !! i).
Proof.
  intros Hx. destruct (decide (k = i)) as [->|].
  - rewrite lookup_insert_eq. simpl. apply elem_of_app. by left.
  - by rewrite lookup_insert_ne.
Qed.

(** Grants union and denies accumulate: adding a grant to any user or
    group never turns a granted decision into a denial, and adding a deny
    never turns a denial into a grant. *)
Theorem scoped_grants_union (roles : R) st ctx p owner grant q :
  (grants_with roles st ctx p →
     grants_with roles (grant_user st owner grant) ctx p ∧
     grants_with roles (grant_group st owner grant) ctx p) ∧
  (grants_with roles (deny st owner q) ctx p → grants_with roles st ctx p).
Proof.
  unfold grants_with. rewrite !scoped_resolve_grants. simpl.
  split.
  - intros [Hlive Hcase]. split; (split; [done|]); (destruct Hcase as [?|Hcase]; [by left|right]);
      destruct Hcase as (denies & Hden & Hno & Hcase); exists denies;
      (split_and!; [done|done|]); (destruct Hcase as [?|[_ Hvis]]; [by left|right]);
      (split; [apply memory_candidates_read|]); apply memory_visible;
      apply memory_visible in Hvis as (a & g & Hm & Hin); exists a, g; (split; [done|]);
      destruct a; simpl; try done; [by apply appended_row|].
    destruct Hin as (i & Hi & Hin). exists i. split; [done|by apply appended_row].
  - intros [Hlive [?|(denies & Hden & Hno & Hcase)]]; (split; [done|]); [by left|right].
    injection Hden as <-. eexists. split; [done|]. split.
    + intros (d & Hd & Hm). apply Hno. exists d. split; [|done].
      destruct (decide (owner = user_id ctx)) as [->|].
      * rewrite lookup_insert_eq. simpl. apply elem_of_union. by right.
      * by rewrite lookup_insert_ne.
    + destruct Hcase as [?|[_ Hvis]]; [by left|right]. split; [apply memory_candidates_read|].
      apply memory_visible. by apply memory_visible in Hvis.
Qed.
End ScopedUnion.

(** "carol" (1) of group 7, inside workspace 3: a user-attached global grant
    and a group-attached workspace grant of the same permission. *)
Module Carol.
Definition registry : StaticRoleRegistry (SimpleRole KirinoPermission) := StaticRoleRegistry_new.
Definition read : KirinoPermission := Agent Agent.Read.
Definition store : MemoryScopedGrantStore KirinoPermission :=
  grant_group (grant_user MemoryScopedGrantStore_new 1%N (ScopedGrant_new read Global))
    7%N (ScopedGrant_new read (Workspace 3%N)).
Definition ctx : PermissionContext := {|
  user_id := 1%N; system_role := Member; group_ids := [7%N]; workspace_id := Some 3%N;
  workspace_role := None; session_version := 4; current_user_version := 4 |}.
Definition debug (_ : N) : string := "..".
Definition decision : result PermissionDecision :=
  scoped_resolve debug (ScopedGrantResolver_new store registry) ctx read None.
End Carol.

Lemma scoped_resolve_label_witness :
  ∃ l a grant, all_candidates Carol.store Carol.ctx = Ok l ∧
    first_most_specific Carol.ctx Carol.read l (a, grant) ∧ ∃ w, scope grant = Workspace w.
Proof.
  destruct (scoped_resolve_label Carol.debug (ScopedGrantResolver_new Carol.store Carol.registry)
    Carol.ctx Carol.read None "scoped grant (Workspace(..))" WorkspaceGrant)
    as (l & a & grant & Hl & Hfirst & _ & Hws); [by vm_compute|done|done|].
  exists l, a, grant. split; [exact Hl|]. split; [exact Hfirst|]. by apply Hws.
Defined.
