(* ===== verification/GrantResolution.v ===== *)
(** * Grant rows: src/src/rbac/grant_resolution.rs

    The pure fold from grant rows to the effective permission names.  A
    non-ASCII character is two or more bytes above 127, so the character
    tests of [is_opaque_permission_path] are byte tests. *)

From S2P Require Import Prelude Traits Catalog.

(** ** Opaque paths *)

Definition is_ascii_lowercase (c : Ascii.ascii) : bool :=
  ((97 <=? Ascii.N_of_ascii c) && (Ascii.N_of_ascii c <=? 122))%N.
Definition is_ascii_digit (c : Ascii.ascii) : bool :=
  ((48 <=? Ascii.N_of_ascii c) && (Ascii.N_of_ascii c <=? 57))%N.

Definition hyphen : Ascii.ascii := Ascii.ascii_of_N 45.

Definition path_char (c : Ascii.ascii) : bool :=
  is_ascii_lowercase c || is_ascii_digit c || bool_decide (c = Macro.underscore)
    || bool_decide (c = hyphen).

Definition is_opaque_permission_path (s : string) : bool :=
  let chars := String.list_ascii_of_string s in
  negb (bool_decide (chars = [])) &&
  match head chars with Some c => is_ascii_lowercase c | None => false end &&
  forallb (λ seg, negb (bool_decide (seg = [])) && forallb path_char seg) (split_at dot chars).

(** ** Tiers *)

Definition scope_tier (scope : string) : nat :=
  if decide (scope = "user") then 0 else if decide (scope = "group") then 1 else 2.

Definition verdict : Type := nat * bool.

Definition fold_tiered (decision : option verdict) (tier : nat) (granted : bool)
    : option verdict :=
  match decision with
  | Some (t, v) =>
      if t <? tier then decision
      else if t =? tier then (if v then Some (tier, granted) else decision)
      else Some (tier, granted)
  | None => Some (tier, granted)
  end.

(** ** Expansion *)

Definition expand_grant_permission (raw : string) : list string :=
  match Inherent.from_path raw with
  | Some _ => [raw]
  | None =>
      let expanded := Inherent.name <$> Inherent.expand_domain raw in
      match expanded with
      | _ :: _ => expanded
      | [] => if is_opaque_permission_path raw then [raw] else []
      end
  end.

(** ** Rows *)

Record GrantRow := {
  row_scope : string;
  row_permission : string;
  row_granted : bool;
  resource_id : option string;
  row_expires_at : option Z;
}.

Definition GrantRow_flat (scope permission : string) (granted : bool) : GrantRow := {|
  row_scope := scope;
  row_permission := permission;
  row_granted := granted;
  resource_id := None;
  row_expires_at := None;
|}.

Definition with_expiry (r : GrantRow) (at_ : Z) : GrantRow := {|
  row_scope := row_scope r;
  row_permission := row_permission r;
  row_granted := row_granted r;
  resource_id := resource_id r;
  row_expires_at := Some at_;
|}.

Definition is_visible_at (row : GrantRow) (now : Z) : bool :=
  match row_expires_at row with
  | None => true
  | Some deadline => (now <? deadline)%Z
  end.

(** ** The fold *)

Abbreviation Decisions := (gmap string (option verdict)).

(** [collect] into the map of decisions. *)
Definition seed (defaults : list string) : Decisions :=
  foldl (λ m p, <[p := Some (scope_tier "group", true)]> m) ∅ defaults.

(** The body of the inner loop: remove, fold, insert. *)
Definition decide_perm (m : Decisions) (tier : nat) (granted : bool) (perm : string) : Decisions :=
  let decision := mjoin (m !! perm) in
  let m := delete perm m in
  let decision :=
    match decision with
    | None => Some (tier, granted)
    | Some _ => fold_tiered decision tier granted
    end in
  match decision with
  | Some d => <[perm := Some d]> m
  | None => m
  end.

Definition fold_row (now : Z) (m : Decisions) (grant : GrantRow) : Decisions :=
  if bool_decide (is_Some (resource_id grant)) || negb (is_visible_at grant now) then m
  else
    foldl (λ m perm, decide_perm m (scope_tier (row_scope grant)) (row_granted grant) perm) m
      (expand_grant_permission (row_permission grant)).

Definition granted_verdict (v : option verdict) : bool :=
  match v with
  | Some (_, granted) => granted
  | None => false
  end.

Definition effective_names (m : Decisions) : list string :=
  fst <$> filter (λ row : string * option verdict, granted_verdict row.2 = true) (map_to_list m).

Definition resolve_grant_rows_at (defaults : list string) (grants : list GrantRow) (now : Z)
    : list string :=
  merge_sort le_of (effective_names (foldl (fold_row now) (seed defaults) grants)).

(** [now] is the reading of [Utc::now()]. *)
Definition resolve_grant_rows (defaults : list string) (grants : list GrantRow) (now : Z)
    : list string :=
  resolve_grant_rows_at defaults grants now.

(** ** The fold, one permission at a time *)

(** The votes cast on one permission, in the order the loop meets them. *)
Definition row_votes (now : Z) (p : string) (row : GrantRow) : list verdict :=
  if bool_decide (is_Some (resource_id row)) || negb (is_visible_at row now) then []
  else (λ _, (scope_tier (row_scope row), row_granted row)) <$>
         filter (λ q, q = p) (expand_grant_permission (row_permission row)).

Definition votes (defaults : list string) (grants : list GrantRow) (now : Z) (p : string)
    : list verdict :=
  (if bool_decide (p ∈ defaults) then [(scope_tier "group", true)] else []) ++
  (grants ≫= row_votes now p).

Definition tally (d : option verdict) (vs : list verdict) : option verdict :=
  foldl (λ d v, fold_tiered d v.1 v.2) d vs.

Lemma decide_perm_view m tier granted q p :
  mjoin (decide_perm m tier granted q !! p) =
    if decide (q = p) then fold_tiered (mjoin (m !! p)) tier granted else mjoin (m !! p).
Proof.
  unfold decide_perm.
  assert (Hsome : ∃ d, match mjoin (m !! q) with
                       | None => Some (tier, granted)
                       | Some _ => fold_tiered (mjoin (m !! q)) tier granted
                       end = Some d ∧ fold_tiered (mjoin (m !! q)) tier granted = Some d).
  { destruct (mjoin (m !! q)) as [[t v]|]; simpl; [|by eexists].
    repeat case_match; by eexists. }
  destruct Hsome as (d & -> & Hd). cbv beta iota. case_decide as Hq; subst.
  - by rewrite lookup_insert_eq, Hd.
  - by rewrite lookup_insert_ne, lookup_delete_ne.
Qed.

Lemma fold_row_view now m row p :
  mjoin (fold_row now m row !! p) = tally (mjoin (m !! p)) (row_votes now p row).
Proof.
  unfold fold_row, row_votes. destruct (_ || _); [done|].
  generalize (expand_grant_permission (row_permission row)) as perms. intros perms.
  revert m. induction perms as [|q perms IH]; intros m; simpl; [done|].
  rewrite IH, decide_perm_view, filter_cons. by case_decide.
Qed.

Lemma seed_view defaults p :
  mjoin (seed defaults !! p) = tally None (if bool_decide (p ∈ defaults) then [(scope_tier "group", true)] else []).
Proof.
  unfold seed. induction defaults as [|q defaults IH] using rev_ind; [done|].
  rewrite foldl_snoc. destruct (decide (q = p)) as [->|Hq].
  - rewrite lookup_insert_eq, bool_decide_eq_true_2 by set_solver. done.
  - rewrite lookup_insert_ne, IH by done.
    by rewrite (bool_decide_ext (p ∈ defaults ++ [q]) (p ∈ defaults)) by set_solver.
Qed.

Lemma fold_rows_view now defaults grants p :
  mjoin (foldl (fold_row now) (seed defaults) grants !! p) =
    tally None (votes defaults grants now p).
Proof.
  unfold votes, tally. rewrite foldl_app. fold (tally None (if bool_decide (p ∈ defaults)
    then [(scope_tier "group", true)] else [])). rewrite <- seed_view.
  generalize (seed defaults) as m. induction grants as [|row grants IH]; intros m; simpl; [done|].
  rewrite IH, fold_row_view, foldl_app. done.
Qed.

(** The tally of votes: the lowest tier wins, and within it a single deny. *)
Definition tallies (vs : list verdict) (d : option verdict) : Prop :=
  match d with
  | None => vs = []
  | Some (t, granted) =>
      (∃ b, (t, b) ∈ vs) ∧ (∀ v, v ∈ vs → t ≤ v.1) ∧
      (granted = true ↔ ∀ b, (t, b) ∈ vs → b = true)
  end.

Lemma fold_tiered_tallies vs d tier granted :
  tallies vs d → tallies (vs ++ [(tier, granted)]) (fold_tiered d tier granted).
Proof.
  destruct d as [[t v]|]; simpl.
  2: { intros ->. simpl. split_and!.
    - exists granted. by left.
    - by intros ? ->%list_elem_of_singleton.
    - split; [|intros Hall; apply Hall; by left].
      by intros -> b [= ->]%list_elem_of_singleton. }
  intros ((b0 & Hb0) & Hmin & Hall). destruct (Nat.ltb_spec t tier) as [Hlt|Hge].
  - simpl. split_and!.
    + exists b0. set_solver.
    + intros w [Hw| ->%list_elem_of_singleton]%elem_of_app; simpl; [auto|lia].
    + rewrite Hall. split; [|set_solver].
      intros H b [Hb|[= -> _]%list_elem_of_singleton]%elem_of_app; [auto|lia].
  - destruct (Nat.eqb_spec t tier) as [->|Hne].
    + assert (Hmin' : ∀ w, w ∈ vs ++ [(tier, granted)] → tier ≤ w.1).
      { by intros w [Hw| ->%list_elem_of_singleton]%elem_of_app; simpl; [auto|]. }
      destruct v; simpl; (split_and!; [exists b0; set_solver|done|]).
      * assert (Hvs : ∀ b, (tier, b) ∈ vs → b = true) by by apply Hall.
        split; [|intros H; apply H; set_solver].
        intros -> b [Hb|[= ->]%list_elem_of_singleton]%elem_of_app; auto.
      * split; [done|]. intros H. apply Hall. set_solver.
    + simpl. split_and!.
      * exists granted. set_solver.
      * intros w [Hw%Hmin| ->%list_elem_of_singleton]%elem_of_app; simpl; [lia|done].
      * split; [|intros H; apply H; set_solver].
        intros -> b [Hb%Hmin|[= ->]%list_elem_of_singleton]%elem_of_app; [simpl in Hb; lia|done].
Qed.

Lemma tally_tallies vs : tallies vs (tally None vs).
Proof.
  induction vs as [|[t g] vs IH] using rev_ind; [done|].
  unfold tally. rewrite foldl_snoc. by apply fold_tiered_tallies.
Qed.

Lemma tally_granted vs :
  granted_verdict (tally None vs) = true ↔
  ∃ t, ((t, true) ∈ vs) ∧ ((t, false) ∉ vs) ∧ ∀ v, v ∈ vs → t ≤ v.1.
Proof.
  pose proof (tally_tallies vs) as Ht. destruct (tally None vs) as [[t g]|]; simpl in *.
  - destruct Ht as ((b & Hb) & Hmin & Hall). rewrite Hall. split.
    + intros H. exists t. rewrite <- (H b Hb) at 1. split_and!; [done| |done].
      intros Hf. by specialize (H _ Hf).
    + intros (t' & Htrue & Hfalse & Hmin') b' Hb'.
      assert (t' = t) as -> by (pose proof (Hmin _ Htrue); pose proof (Hmin' _ Hb); simpl in *; lia).
      by destruct b'.
  - subst. split; [done|]. intros (t & Hin & _). by apply not_elem_of_nil in Hin.
Qed.

(** ** The result *)

Lemma effective_names_elem (m : Decisions) p :
  p ∈ effective_names m ↔ granted_verdict (mjoin (m !! p)) = true.
Proof.
  unfold effective_names. rewrite list_elem_of_fmap. split.
  - intros ([q v] & -> & [Hv Hq]%list_elem_of_filter). simpl in *.
    apply elem_of_map_to_list in Hq. by rewrite Hq.
  - intros Hg. destruct (m !! p) as [v|] eqn:Hp; [|done]. exists (p, v). split; [done|].
    apply list_elem_of_filter. split; [done|]. by apply elem_of_map_to_list.
Qed.

Lemma effective_names_nodup (m : Decisions) : NoDup (effective_names m).
Proof.
  eapply sublist_NoDup; [apply (NoDup_fst_map_to_list m)|].
  apply fmap_sublist, sublist_filter.
Qed.

Lemma resolve_sorted defaults grants now :
  Sorted le_of (resolve_grant_rows_at defaults grants now).
Proof. apply (Sorted_merge_sort _). Qed.

Lemma resolve_perm defaults grants now :
  resolve_grant_rows_at defaults grants now ≡ₚ
    effective_names (foldl (fold_row now) (seed defaults) grants).
Proof. apply merge_sort_Permutation. Qed.

Lemma resolve_elem defaults grants now p :
  p ∈ resolve_grant_rows_at defaults grants now ↔
  granted_verdict (tally None (votes defaults grants now p)) = true.
Proof. by rewrite resolve_perm, effective_names_elem, fold_rows_view. Qed.

Lemma resolve_nodup defaults grants now : NoDup (resolve_grant_rows_at defaults grants now).
Proof. rewrite resolve_perm. apply effective_names_nodup. Qed.

(** Two results with the same elements are equal. *)
Lemma resolve_ext defaults defaults' grants grants' now now' :
  (∀ p v, v ∈ votes defaults grants now p ↔ v ∈ votes defaults' grants' now' p) →
  resolve_grant_rows_at defaults grants now = resolve_grant_rows_at defaults' grants' now'.
Proof.
  intros Hv. apply (Sorted_unique le_of); [apply resolve_sorted..|].
  apply NoDup_Permutation; [apply resolve_nodup..|].
  intros p. rewrite !resolve_elem, !tally_granted. by setoid_rewrite Hv.
Qed.

(** ** Properties *)

(** A vote on [p]: a default counts as a grant of the group tier; a live,
    resource-less row whose permission field expands to [p] counts at the
    tier of its scope. *)
Inductive vote (defaults : list string) (grants : list GrantRow) (now : Z) (p : string)
    : nat → bool → Prop :=
  | default_vote : p ∈ defaults → vote defaults grants now p 1 true
  | row_vote row :
      row ∈ grants → resource_id row = None → is_visible_at row now = true →
      p ∈ expand_grant_permission (row_permission row) →
      vote defaults grants now p (scope_tier (row_scope row)) (row_granted row).

Lemma votes_elem defaults grants now p t b :
  (t, b) ∈ votes defaults grants now p ↔ vote defaults grants now p t b.
Proof.
  unfold votes. rewrite elem_of_app, list_elem_of_bind. split.
  - intros [Hd|(row & Hv & Hrow)].
    + case_bool_decide; [|by apply not_elem_of_nil in Hd].
      apply list_elem_of_singleton in Hd as [= -> ->]. by constructor.
    + unfold row_votes in Hv. case_bool_decide as Hres; [by apply not_elem_of_nil in Hv|].
      destruct (is_visible_at row now) eqn:Hvis; [|by apply not_elem_of_nil in Hv].
      apply list_elem_of_fmap in Hv as (q & [= -> ->] & [-> Hq]%list_elem_of_filter).
      constructor; [done| |done|done]. by apply eq_None_not_Some.
  - intros [Hd|row Hrow Hres Hvis Hp].
    + left. rewrite bool_decide_eq_true_2 by done. by left.
    + right. exists row. split; [|done]. unfold row_votes. rewrite Hres, Hvis.
      rewrite bool_decide_eq_false_2 by by intros [? ?]. simpl.
      apply list_elem_of_fmap. exists p. split; [done|]. by apply list_elem_of_filter.
Qed.

(** C9: [resolve_grant_rows_at] returns, sorted and without repetition,
    exactly the permissions whose most specific tier with a vote holds a
    grant and no deny. *)
Theorem resolve_grant_rows_spec defaults grants now :
  let result := resolve_grant_rows_at defaults grants now in
  Sorted le_of result ∧ NoDup result ∧
  ∀ p, p ∈ result ↔
    ∃ t, vote defaults grants now p t true ∧ ¬ vote defaults grants now p t false ∧
      ∀ t' b, vote defaults grants now p t' b → t ≤ t'.
Proof.
  simpl. split_and!; [apply resolve_sorted|apply resolve_nodup|]. intros p.
  rewrite resolve_elem, tally_granted. f_equiv. intros t. rewrite !votes_elem.
  split; (intros (Ht & Hf & Hmin); split_and!; [done|done|]).
  - intros t' b Hv. by apply (Hmin (t', b)), votes_elem.
  - intros [t' b] Hv. apply (Hmin t' b). by apply votes_elem.
Qed.

(** The verdict does not depend on the order in which defaults and rows
    come, and a row that is expired or pinned to a resource counts as
    absent, grant or deny. *)
Theorem resolve_order_and_expiry_free defaults defaults' grants grants' now :
  defaults ≡ₚ defaults' → grants ≡ₚ grants' →
  resolve_grant_rows_at defaults grants now =
    resolve_grant_rows_at defaults'
      (filter (λ row, is_visible_at row now = true ∧ resource_id row = None) grants') now.
Proof.
  intros Hd Hg. apply resolve_ext. intros p [t b]. rewrite !votes_elem. split.
  - intros [Hp|row Hrow Hres Hvis Hp]; [constructor; by rewrite <- Hd|].
    constructor; [|done..]. apply list_elem_of_filter. by rewrite <- Hg.
  - intros [Hp|row [_ Hrow]%list_elem_of_filter Hres Hvis Hp]; [constructor; by rewrite Hd|].
    constructor; [|done..]. by rewrite Hg.
Qed.

Lemma resolve_order_and_expiry_free_witness :
  resolve_grant_rows_at ["agent.read"]
    [GrantRow_flat "user" "plugin" true; with_expiry (GrantRow_flat "user" "agent.read" false) 10] 10
  = resolve_grant_rows_at ["agent.read"] [GrantRow_flat "user" "plugin" true] 10.
Proof.
  apply (resolve_order_and_expiry_free ["agent.read"] ["agent.read"]
    [GrantRow_flat "user" "plugin" true; with_expiry (GrantRow_flat "user" "agent.read" false) 10]
    [with_expiry (GrantRow_flat "user" "agent.read" false) 10; GrantRow_flat "user" "plugin" true] 10);
    [done|constructor].
Defined.

(** No permission name is a domain name: a name has a dot. *)
Definition has_dot (s : string) : bool :=
  existsb (Ascii.eqb dot) (String.list_ascii_of_string s).

Lemma name_not_domain (p q : KirinoPermission) : Inherent.name p ≠ Inherent.domain q.
Proof.
  assert (Hall : forallb (λ p, has_dot (Inherent.name p) && negb (has_dot (Inherent.domain p)))
                   all_values = true) by by vm_compute.
  rewrite forallb_forall in Hall.
  pose proof (Hall p (proj1 (list_elem_of_In _ _) (all_values_complete p))) as Hp.
  pose proof (Hall q (proj1 (list_elem_of_In _ _) (all_values_complete q))) as Hq.
  bool_to_prop. congruence.
Qed.

Lemma from_path_none raw : Inherent.from_path raw = None ↔ ∀ p, Inherent.name p ≠ raw.
Proof.
  split.
  - intros Hn p Hp. apply from_path_name in Hp. congruence.
  - intros Hno. destruct (Inherent.from_path raw) as [p|] eqn:Hp; [|done].
    apply from_path_name in Hp. by destruct (Hno p).
Qed.

(** A permission field expands to itself when it is a built-in path, to
    the paths of its domain when it is a built-in domain, and otherwise to
    itself when it is a well-formed opaque path: never to a permission of
    another name or domain. *)
Theorem expand_grant_permission_spec raw p :
  p ∈ expand_grant_permission raw ↔
  (∃ q, Inherent.name q = p ∧ (Inherent.name q = raw ∨ Inherent.domain q = raw)) ∨
  (p = raw ∧ is_opaque_permission_path raw = true ∧
   ∀ q, Inherent.name q ≠ raw ∧ Inherent.domain q ≠ raw).
Proof.
  unfold expand_grant_permission. destruct (Inherent.from_path raw) as [q0|] eqn:Hpath.
  - apply from_path_name in Hpath. subst. rewrite list_elem_of_singleton. split.
    + intros ->. left. by exists q0; auto.
    + intros [(q & <- & [?|Hd])|(-> & _ & Hno)]; [done| |by destruct (Hno q0)].
      by destruct (name_not_domain q0 q).
  - rewrite from_path_none in Hpath. destruct (Inherent.name <$> Inherent.expand_domain raw)
      as [|x l] eqn:Hexp.
    + assert (Hnod : ∀ q, Inherent.domain q ≠ raw).
      { intros q Hq. apply expand_domain_elem, (list_elem_of_fmap_2 Inherent.name) in Hq.
        rewrite Hexp in Hq. by apply not_elem_of_nil in Hq. }
      destruct (is_opaque_permission_path raw) eqn:Hop.
      * rewrite list_elem_of_singleton. split; [by right; auto|].
        intros [(q & _ & [?|?])|(-> & _)]; [by destruct (Hpath q)|by destruct (Hnod q)|done].
      * rewrite elem_of_nil. split; [done|].
        intros [(q & _ & [?|?])|(_ & ? & _)]; [by destruct (Hpath q)|by destruct (Hnod q)|done].
    + rewrite <- Hexp, list_elem_of_fmap. setoid_rewrite expand_domain_elem. split.
      * intros (q & -> & Hd). left. exists q. auto.
      * intros [(q & <- & [?|?])|(-> & _ & Hno)]; [by destruct (Hpath q)|by exists q|].
        exfalso. assert (Hx : x ∈ Inherent.name <$> Inherent.expand_domain raw)
          by (rewrite Hexp; by left).
        apply list_elem_of_fmap in Hx as (q & _ & Hq%expand_domain_elem). by destruct (Hno q).
Qed.
