(* ===== verification/Workspace.v ===== *)
(** * The workspace guard: src/src/rbac/workspace_guard.rs

    [WorkspaceGuard] over any [WorkspaceStore], the in-memory store, and the
    capability matrix [role_can], a set of name conventions.  The guard keeps
    no state. *)

From S2P Require Import Prelude Traits Catalog.

(** [str::starts_with] and [str::ends_with]. *)
Definition starts_with (s pattern : string) : bool :=
  bool_decide (String.list_ascii_of_string pattern `prefix_of` String.list_ascii_of_string s).
Definition ends_with (s pattern : string) : bool :=
  bool_decide (String.list_ascii_of_string pattern `suffix_of` String.list_ascii_of_string s).

(** A [ScopedPermission] is observed through its name only. *)
Definition role_can (role : WorkspaceRole) (name : string) : bool :=
  match role with
  | WsOwner => true
  | WsOperator => negb (starts_with name "workspace.manage") && negb (starts_with name "rbac.")
  | WsViewer =>
      ends_with name ".list" || ends_with name ".read" || starts_with name "device.list"
  end.

Class WorkspaceStore (St S W : Type) := {
  direct_membership : St → S → W → result (option WorkspaceRole);
  group_grants : St → S → W → result (option WorkspaceRole);
  accessible_workspaces : St → S → result (list W);
}.

Section Guard.
Context {St S W : Type} `{WorkspaceStore St S W}.

Record WorkspaceGuard := WorkspaceGuard_new { guard_store : St }.

Definition resolve_workspace_role (g : WorkspaceGuard) (subject : S) (workspace : W)
    : result (option WorkspaceRole) :=
  direct ← direct_membership (guard_store g) subject workspace;
  match direct with
  | Some role => Ok (Some role)
  | None =>
      grant ← group_grants (guard_store g) subject workspace;
      match grant with
      | Some role => Ok (Some role)
      | None => Ok None
      end
  end.

Definition guard_check (g : WorkspaceGuard) (subject : S) (permission : string) (workspace : W)
    (global_permissions : list string) : result bool :=
  let global_perm := existsb (λ p, bool_decide (p = permission)) global_permissions in
  if negb global_perm then Ok false
  else
    role ← resolve_workspace_role g subject workspace;
    match role with
    | Some role => Ok (role_can role permission)
    | None => Ok false
    end.

Definition guard_accessible_workspaces (g : WorkspaceGuard) (subject : S) : result (list W) :=
  accessible_workspaces (guard_store g) subject.
End Guard.
Arguments WorkspaceGuard St : clear implicits.

(** ** The in-memory store *)

Section MemoryStore.
Context {S W : Type} `{Countable S, Countable W}.

Record InMemoryWorkspaceStore := {
  members : gmap (S * W) WorkspaceRole;
  group_grant_rows : gmap (S * W) WorkspaceRole;
}.

Definition InMemoryWorkspaceStore_new : InMemoryWorkspaceStore := {|
  members := ∅; group_grant_rows := ∅ |}.

Definition add_member (st : InMemoryWorkspaceStore) (subject : S) (workspace : W)
    (role : WorkspaceRole) : InMemoryWorkspaceStore := {|
  members := <[(subject, workspace) := role]> (members st);
  group_grant_rows := group_grant_rows st |}.

Definition add_group_grant (st : InMemoryWorkspaceStore) (group_id : S) (workspace : W)
    (role : WorkspaceRole) : InMemoryWorkspaceStore := {|
  members := members st;
  group_grant_rows := <[(group_id, workspace) := role]> (group_grant_rows st) |}.

Definition mem_accessible_workspaces (st : InMemoryWorkspaceStore) (subject : S) : list W :=
  snd <$> filter (λ sw : S * W, sw.1 = subject) (fst <$> map_to_list (members st)).

#[export] Instance memory_workspace_store : WorkspaceStore InMemoryWorkspaceStore S W := {|
  direct_membership st subject workspace := Ok (members st !! (subject, workspace));
  group_grants st subject workspace := Ok (group_grant_rows st !! (subject, workspace));
  accessible_workspaces st subject := Ok (mem_accessible_workspaces st subject);
|}.

Lemma mem_accessible_elem st subject w :
  w ∈ mem_accessible_workspaces st subject ↔ is_Some (members st !! (subject, w)).
Proof.
  unfold mem_accessible_workspaces. rewrite list_elem_of_fmap. split.
  - intros ([s' w'] & -> & [Hs Hin]%list_elem_of_filter). simpl in *. subst.
    apply list_elem_of_fmap in Hin as ([k role] & -> & Hin%elem_of_map_to_list). by exists role.
  - intros [role Hrole]. exists (subject, w). split; [done|].
    apply list_elem_of_filter. split; [done|].
    apply list_elem_of_fmap. exists (subject, w, role). split; [done|].
    by apply elem_of_map_to_list.
Qed.
End MemoryStore.
Arguments InMemoryWorkspaceStore S W {_ _ _ _}.
Arguments InMemoryWorkspaceStore_new {S W _ _ _ _}.

(** ** Properties *)

Section WorkspaceProperties.
Context {St S W : Type} `{WorkspaceStore St S W}.
Implicit Types (g : WorkspaceGuard St) (permission : string).

Lemma global_test (permission : string) globals :
  existsb (λ p, bool_decide (p = permission)) globals = bool_decide (permission ∈ globals).
Proof.
  apply eq_true_iff_eq. rewrite existsb_elem, bool_decide_eq_true. split.
  - intros (p & Hp & Heq). apply bool_decide_eq_true in Heq. by subst.
  - intros Hp. exists permission. by rewrite bool_decide_eq_true.
Qed.

Lemma resolve_workspace_role_ok g subject workspace r :
  resolve_workspace_role g subject workspace = r ↔
  (∃ e, direct_membership (guard_store g) subject workspace = Err e ∧ r = Err e) ∨
  (∃ role, direct_membership (guard_store g) subject workspace = Ok (Some role) ∧ r = Ok (Some role)) ∨
  (direct_membership (guard_store g) subject workspace = Ok None ∧
   group_grants (guard_store g) subject workspace = r).
Proof.
  unfold resolve_workspace_role.
  destruct (direct_membership (guard_store g) subject workspace) as [[role|]|e]; simpl.
  - split; [intros <-; eauto|]. intros [(? & ? & _)|[(? & [= ->] & ->)|[? _]]]; done.
  - destruct (group_grants (guard_store g) subject workspace) as [[role|]|e]; simpl;
      (split; [intros <-; by right; right|]); intros [(? & ? & _)|[(? & ? & _)|[_ ?]]]; done.
  - split; [intros <-; eauto|]. intros [(? & [= ->] & ->)|[(? & ? & _)|[? _]]]; done.
Qed.

Lemma guard_check_true g subject permission workspace globals :
  guard_check g subject permission workspace globals = Ok true ↔
  permission ∈ globals ∧
  ∃ role, role_can role permission = true ∧
    resolve_workspace_role g subject workspace = Ok (Some role).
Proof.
  unfold guard_check. rewrite global_test. case_bool_decide as Hin; simpl.
  - rewrite bind_ok. split.
    + intros ([role|] & Hrole & Hcan); [|done]. injection Hcan as Hcan. eauto.
    + intros (_ & role & Hcan & Hrole). exists (Some role). by rewrite Hcan.
  - split; [done|]. by intros [? _].
Qed.

Lemma guard_check_error g subject permission workspace globals e :
  guard_check g subject permission workspace globals = Err e ↔
  permission ∈ globals ∧ resolve_workspace_role g subject workspace = Err e.
Proof.
  unfold guard_check. rewrite global_test. case_bool_decide as Hin; simpl.
  - destruct (resolve_workspace_role g subject workspace) as [[role|]|e']; simpl;
      (split; [done || (intros [= ->]; done)|]); intros [_ ?]; done || congruence.
  - split; [done|]. by intros [? _].
Qed.

(** [check] grants exactly when the permission is among the global ones
    and the role that decides can do it: the direct membership when there is
    one, the group grant only when there is none.  With the permission held
    globally, an unreadable membership is an error, never a verdict. *)
Theorem guard_check_grants_iff g subject permission workspace globals :
  (guard_check g subject permission workspace globals = Ok true ↔
   permission ∈ globals ∧
   ∃ role, role_can role permission = true ∧
     (direct_membership (guard_store g) subject workspace = Ok (Some role) ∨
      direct_membership (guard_store g) subject workspace = Ok None ∧
      group_grants (guard_store g) subject workspace = Ok (Some role))) ∧
  (∀ e, guard_check g subject permission workspace globals = Err e ↔
   permission ∈ globals ∧
   (direct_membership (guard_store g) subject workspace = Err e ∨
    direct_membership (guard_store g) subject workspace = Ok None ∧
    group_grants (guard_store g) subject workspace = Err e)).
Proof.
  rewrite guard_check_true. split; [|intros e; rewrite guard_check_error].
  - setoid_rewrite resolve_workspace_role_ok. split; intros (Hin & role & Hcan & Hrole);
      (split; [done|]); exists role; (split; [done|]).
    + destruct Hrole as [(e & _ & ?)|[(r & Hd & [= ->])|Hg]]; [done|by left|by right].
    + destruct Hrole as [Hd|Hg]; [right; left; eauto|by right; right].
  - rewrite resolve_workspace_role_ok. split; intros [Hin Hrole]; (split; [done|]).
    + destruct Hrole as [(e' & Hd & [= ->])|[(r & _ & ?)|Hg]]; [by left|done|by right].
    + destruct Hrole as [Hd|Hg]; [left; eauto|by right; right].
Qed.
End WorkspaceProperties.

(** [role_can] follows the privilege order [Viewer < Operator < Owner]
    except on one family of names: an operator is refused what a viewer may
    do exactly on the [rbac.] and [workspace.manage] names that end in
    [.list] or [.read].  The built-in catalogue has no such name. *)
Theorem role_can_privilege_order name :
  (role_can WsOperator name = true → role_can WsOwner name = true) ∧
  (role_can WsViewer name = true ∧ role_can WsOperator name = false ↔
     (starts_with name "workspace.manage" = true ∨ starts_with name "rbac." = true) ∧
     (ends_with name ".list" = true ∨ ends_with name ".read" = true)) ∧
  role_can WsViewer "rbac.grants.read" = true ∧ role_can WsOperator "rbac.grants.read" = false ∧
  (∀ p, role_can WsViewer (Inherent.name p) = true → role_can WsOperator (Inherent.name p) = true).
Proof.
  split_and!; [done| |by vm_compute|by vm_compute|].
  - simpl. rewrite andb_false_iff, !negb_false_iff, !orb_true_iff. split; [|naive_solver].
    intros [[[?|?]|Hdev] Hop]; [naive_solver..|]. exfalso.
    unfold starts_with in *. rewrite !bool_decide_eq_true in *.
    destruct Hdev as [k1 Hk1]. rewrite Hk1 in Hop. by destruct Hop as [[k2 Hk2]|[k2 Hk2]].
  - intros p Hp. assert (Hall : forallb (λ p, implb (role_can WsViewer (Inherent.name p))
      (role_can WsOperator (Inherent.name p))) all_values = true) by by vm_compute.
    rewrite forallb_forall in Hall. specialize (Hall p).
    rewrite Hp in Hall. apply Hall, list_elem_of_In, all_values_complete.
Qed.

(** The in-memory store under-reports: [accessible_workspaces] lists the
    workspaces of direct memberships and none of those reached through a
    group grant, on which the guard may grant. *)
Theorem accessible_workspaces_direct_only {S W} `{Countable S, Countable W}
    (st : InMemoryWorkspaceStore S W) subject w :
  (∃ l, guard_accessible_workspaces (WorkspaceGuard_new st) subject = Ok l ∧
     (w ∈ l ↔ is_Some (members st !! (subject, w)))) ∧
  (members st !! (subject, w) = None →
   let st' := add_group_grant st subject w WsOwner in
   (∀ p, guard_check (WorkspaceGuard_new st') subject p w [p] = Ok true) ∧
   ∃ l, guard_accessible_workspaces (WorkspaceGuard_new st') subject = Ok l ∧ w ∉ l).
Proof.
  split.
  - eexists. split; [done|]. apply mem_accessible_elem.
  - intros Hnone st'. split.
    + intros p. apply guard_check_true. split; [by left|]. exists WsOwner.
      split; [done|]. apply resolve_workspace_role_ok. right; right. simpl.
      by rewrite Hnone, lookup_insert_eq.
    + eexists. split; [done|]. rewrite mem_accessible_elem. simpl. rewrite Hnone.
      by intros [? ?].
Qed.

Lemma accessible_workspaces_direct_only_witness :
  let st := add_group_grant (InMemoryWorkspaceStore_new (S := string) (W := string))
              "ops" "ws-1" WsOwner in
  ∃ l, guard_accessible_workspaces (WorkspaceGuard_new st) "ops" = Ok l ∧ "ws-1" ∉ l.
Proof.
  exact (proj2 (proj2 (accessible_workspaces_direct_only
    (InMemoryWorkspaceStore_new (S := string) (W := string)) "ops" "ws-1") eq_refl)).
Defined.
