(* ===== verification/Identity.v ===== *)
(** * Identities as subjects: src/src/models/identity.rs and
    src/src/rbac/identity_subject.rs

    [Uuid::to_string] and [Uuid::parse_str] are the uuid crate's:
    [to_string] and [parse_str], with the documented fact that a printed
    [Uuid] parses back to itself.  [Utc::now()] is the argument [now]. *)

From S2P Require Import Prelude Traits Catalog Store.

Inductive Identity :=
  | Anonymous (id : Uuid) (created_at : Z)
  | Basic (id : Uuid) (created_at : Z)
  | Temporary (id : Uuid) (expires_at : Z)
  | Service (id caller : Uuid) (created_at : Z).

Section Identity.
Variable to_string : Uuid → string.
Variable parse_str : string → Uuid + string.

Record IdentitySubject := {
  identity : Identity;
  id_str : string;
  type_str : string;
}.

Definition IdentitySubject_new (i : Identity) : IdentitySubject := {|
  identity := i;
  id_str :=
    match i with
    | Anonymous id _ | Basic id _ | Temporary id _ | Service id _ _ => to_string id
    end;
  type_str :=
    match i with
    | Anonymous _ _ => "anonymous"
    | Basic _ _ => "user"
    | Temporary _ _ => "temporary"
    | Service _ _ _ => "service"
    end;
|}.

Definition into_inner (s : IdentitySubject) : Identity := identity s.

(** [IdentitySubject::user]. *)
Definition identity_user (now : Z) (id : string) : result IdentitySubject :=
  match parse_str id with
  | inl uuid => Ok (IdentitySubject_new (Basic uuid now))
  | inr e => Err (Anyhow ("invalid user UUID '" +:+ id +:+ "': " +:+ e))
  end.

Definition identity_is_expired (s : IdentitySubject) (now : Z) : bool :=
  match identity s with
  | Temporary _ expires_at => (expires_at <? now)%Z
  | _ => false
  end.

(** [impl PartialEq for IdentitySubject] *)
Definition identity_eq (s t : IdentitySubject) : bool :=
  bool_decide (id_str s = id_str t) && bool_decide (type_str s = type_str t).

Definition identity_try_from_subject_id (now : Z) (id : string) : result IdentitySubject :=
  match parse_str id with
  | inl uuid => Ok (IdentitySubject_new (Basic uuid now))
  | inr e => Err (Anyhow ("invalid subject UUID '" +:+ id +:+ "': " +:+ e))
  end.

(** [Uuid::nil()] is the all-zero identifier. *)
Definition identity_from_subject_id (now : Z) (id : string) : IdentitySubject :=
  match identity_try_from_subject_id now id with
  | Ok s => s
  | Err _ => IdentitySubject_new (Anonymous 0%N now)
  end.

(** The readings of the clock only date the identity. *)
Definition identity_subject (now : Z) : Subject IdentitySubject := {|
  subject_id := id_str;
  subject_type := type_str;
  from_subject_id := identity_from_subject_id now;
  try_from_subject_id := identity_try_from_subject_id now;
|}.

Definition can_delegate_to {D} `{Subject D} (s : IdentitySubject) (delegate : D) : bool :=
  match identity s with
  | Service _ caller _ =>
      bool_decide (subject_id delegate = to_string caller) &&
      bool_decide (subject_type delegate = "user")
  | _ => false
  end.

Hypothesis parse_to_string : ∀ u, parse_str (to_string u) = inl u.

Lemma to_string_inj u v : to_string u = to_string v → u = v.
Proof.
  intros Heq. pose proof (parse_to_string u) as Hu. rewrite Heq, parse_to_string in Hu.
  by injection Hu.
Qed.

(** ** Properties *)

(** Between identities, delegation is from a service to exactly its
    caller as a plain user: no other kind delegates, and neither a service
    nor an anonymous or temporary identity with the caller's UUID is
    accepted. *)
Theorem delegation_only_to_caller now i d :
  @can_delegate_to _ (identity_subject now) (IdentitySubject_new i) (IdentitySubject_new d) = true ↔
  ∃ id caller t t', i = Service id caller t ∧ d = Basic caller t'.
Proof.
  split.
  - destruct i as [| | |id caller t]; try done. unfold can_delegate_to. simpl.
    rewrite andb_true_iff, !bool_decide_eq_true. intros [Hid Htype].
    destruct d as [|id' t'| |]; try done. exists id, caller, t, t'.
    split; [done|]. by rewrite (to_string_inj _ _ Hid).
  - intros (id & caller & t & t' & -> & ->). unfold can_delegate_to. simpl.
    by rewrite !bool_decide_eq_true_2.
Qed.

(** Rehydrating a subject from an id.  The printed id of any identity
    reads back as the plain user of that UUID; an id that does not parse is
    an error for [try_from_subject_id], and becomes the anonymous nil
    identity, which cannot delegate, for [from_subject_id]. *)
Theorem rehydration_spec now i id e :
  (∃ u, identity_try_from_subject_id now (id_str (IdentitySubject_new i)) =
          Ok (IdentitySubject_new (Basic u now)) ∧
        to_string u = id_str (IdentitySubject_new i)) ∧
  (parse_str id = inr e →
     (∃ err, identity_try_from_subject_id now id = Err err) ∧
     let s := identity_from_subject_id now id in
     type_str s = "anonymous" ∧ id_str s = to_string 0%N ∧
     ∀ d, @can_delegate_to _ (identity_subject now) s d = false).
Proof.
  split.
  - unfold identity_try_from_subject_id.
    destruct i as [u ?|u ?|u ?|u ? ?]; exists u; simpl; by rewrite parse_to_string.
  - intros Herr. unfold identity_from_subject_id, identity_try_from_subject_id. rewrite Herr.
    split; [by eexists|done].
Qed.
End Identity.

(** The equality of identities separates kinds, the stores do not: a role
    assigned to a user is held by the anonymous identity of the same UUID,
    which is a different principal. *)
Theorem identity_kinds_share_assignments {P} `{Permission P} to_string parse_str now
    (st : InMemoryAssignmentStore P) u t role :
  let user := IdentitySubject_new to_string (Basic u t) in
  let anonymous := IdentitySubject_new to_string (Anonymous u t) in
  let subj := identity_subject to_string parse_str now in
  let st' := (@mem_assign_role _ _ _ _ subj st user role).2 in
  identity_eq user anonymous = false ∧
  ∃ l, @mem_roles_of _ _ _ _ subj st' anonymous = Ok l ∧ role ∈ l.
Proof.
  intros user anonymous subj st'. split.
  - unfold identity_eq. simpl. by rewrite andb_false_r.
  - eexists. split; [reflexivity|]. unfold st', mem_assign_role. simpl.
    rewrite lookup_insert_eq. simpl. apply elem_of_elements. set_solver.
Qed.

(** A rendering of identifiers to run the statements on: [u] strokes. *)
Module Strokes.
Fixpoint strokes (n : nat) : string :=
  match n with
  | O => ""
  | S n => String (Ascii.ascii_of_N 124) (strokes n)
  end.
Definition show (u : Uuid) : string := strokes (N.to_nat u).
Definition read (s : string) : Uuid + string :=
  if decide (s = strokes (String.length s)) then inl (N.of_nat (String.length s))
  else inr "invalid character".

Lemma length_strokes n : String.length (strokes n) = n.
Proof. induction n as [|n IH]; simpl; [done|]. by rewrite IH. Qed.

Lemma read_show u : read (show u) = inl u.
Proof. unfold read, show. rewrite length_strokes, decide_True by done. by rewrite N2Nat.id. Qed.
End Strokes.

Lemma delegation_only_to_caller_witness :
  @can_delegate_to Strokes.show _ (identity_subject Strokes.show Strokes.read 0)
    (IdentitySubject_new Strokes.show (Service 9%N 3%N 0))
    (IdentitySubject_new Strokes.show (Basic 3%N 5)) = true.
Proof.
  apply (delegation_only_to_caller Strokes.show Strokes.read Strokes.read_show).
  by exists 9%N, 3%N, 0%Z, 5%Z.
Defined.

Lemma rehydration_spec_witness :
  type_str (identity_from_subject_id Strokes.show Strokes.read 0 "not-a-uuid") = "anonymous".
Proof.
  apply (rehydration_spec Strokes.show Strokes.read Strokes.read_show 0 (Basic 3%N 5) "not-a-uuid"
           "invalid character").
  reflexivity.
Defined.
