(* ===== verification/IdentityStore.v ===== *)
(** * Stored identities: src/src/auth/identity/basic.rs

    [InMemoryIdentityProvider] keeps the records of the accounts in one list
    behind a lock; a method is one step.  [directory_step] says what the
    provider promises, over a map from ids to records; [IdentityProvider] is
    the trait, and the in-memory provider its instance. *)

From S2P Require Import Prelude Traits Store Identity.

Definition stored_identity_id (identity : Identity) : Uuid :=
  match identity with
  | Basic id _ => id
  | Anonymous id _ => id
  | Temporary id _ => id
  | Service id _ _ => id
  end.

Record IdentityRecord := {
  r_identity : Identity;
  r_username : string;
  r_password_hash : string;
  r_is_active : bool;
  r_created_at : Z;
  r_updated_at : Z;
}.

Definition record_id (r : IdentityRecord) : Uuid := stored_identity_id (r_identity r).

(** The trait. *)
Class IdentityProvider (V : Type) := {
  create : V → IdentityRecord → result () * V;
  get : V → Uuid → result (option IdentityRecord);
  find_by_username : V → string → result (option IdentityRecord);
  delete_identity : V → Uuid → result bool * V;
  list_identities : V → result (list IdentityRecord);
}.

Record InMemoryIdentityProvider := { records : list IdentityRecord }.

Definition InMemoryIdentityProvider_new : InMemoryIdentityProvider := {| records := [] |}.

Definition identity_create (v : InMemoryIdentityProvider) (record : IdentityRecord) : result () * InMemoryIdentityProvider :=
  if existsb (λ r, bool_decide (r_username r = r_username record)) (records v) then
    (Err (Kirino (Validation "username already exists")), v)
  else if existsb (λ r, bool_decide (record_id r = record_id record)) (records v) then
    (Err (Kirino (Validation "identity already exists")), v)
  else (Ok tt, {| records := records v ++ [record] |}).
Definition identity_get (v : InMemoryIdentityProvider) (id : Uuid) : result (option IdentityRecord) :=
  Ok (snd <$> list_find (λ r, record_id r = id) (records v)).
Definition identity_find_by_username (v : InMemoryIdentityProvider) (username : string) : result (option IdentityRecord) :=
  Ok (snd <$> list_find (λ r, r_username r = username) (records v)).
Definition identity_delete (v : InMemoryIdentityProvider) (id : Uuid) : result bool * InMemoryIdentityProvider :=
  let kept := filter (λ r, record_id r ≠ id) (records v) in
  (Ok (length kept <? length (records v)), {| records := kept |}).
Definition identity_list (v : InMemoryIdentityProvider) : result (list IdentityRecord) := Ok (records v).

#[export] Instance memory_identity_provider : IdentityProvider InMemoryIdentityProvider := {|
  create := identity_create;
  get := identity_get;
  find_by_username := identity_find_by_username;
  delete_identity := identity_delete;
  list_identities := identity_list;
|}.

(** ** The calls, and what they promise *)

Inductive identity_op :=
  | OpCreate (record : IdentityRecord)
  | OpGet (id : Uuid)
  | OpFind (username : string)
  | OpDelete (id : Uuid)
  | OpList.
Inductive identity_out :=
  | Created (r : result ())
  | Found (r : result (option IdentityRecord))
  | Deleted (r : result bool)
  | Listed (r : result (list IdentityRecord)).

Definition identity_call {V} `{IdentityProvider V} (v : V) (op : identity_op) : identity_out * V :=
  match op with
  | OpCreate record => let r := create v record in (Created r.1, r.2)
  | OpGet id => (Found (get v id), v)
  | OpFind username => (Found (find_by_username v username), v)
  | OpDelete id => let r := delete_identity v id in (Deleted r.1, r.2)
  | OpList => (Listed (list_identities v), v)
  end.

(** A directory: the records by id. *)
Abbreviation directory := (gmap Uuid IdentityRecord).

Definition holds_username (d : directory) (username : string) : Prop :=
  ∃ id r, d !! id = Some r ∧ r_username r = username.

Inductive directory_step (d : directory) : identity_op → identity_out → directory → Prop :=
  | step_created record : ¬ holds_username d (r_username record) → d !! record_id record = None →
      directory_step d (OpCreate record) (Created (Ok tt)) (<[record_id record := record]> d)
  | step_username_taken record : holds_username d (r_username record) →
      directory_step d (OpCreate record) (Created (Err (Kirino (Validation "username already exists")))) d
  | step_id_taken record : ¬ holds_username d (r_username record) → is_Some (d !! record_id record) →
      directory_step d (OpCreate record) (Created (Err (Kirino (Validation "identity already exists")))) d
  | step_get id : directory_step d (OpGet id) (Found (Ok (d !! id))) d
  | step_found id r username : d !! id = Some r → r_username r = username →
      directory_step d (OpFind username) (Found (Ok (Some r))) d
  | step_not_found username : ¬ holds_username d username → directory_step d (OpFind username) (Found (Ok None)) d
  | step_deleted id : directory_step d (OpDelete id) (Deleted (Ok (bool_decide (is_Some (d !! id))))) (delete id d)
  | step_listed l : l ≡ₚ (map_to_list d).*2 → directory_step d OpList (Listed (Ok l)) d.

Inductive directory_run (d : directory) : list (identity_op * identity_out) → directory → Prop :=
  | run_nil : directory_run d [] d
  | run_cons op out d' calls d'' : directory_step d op out d' → directory_run d' calls d'' →
      directory_run d ((op, out) :: calls) d''.

Fixpoint identity_calls {V} `{IdentityProvider V} (v : V) (ops : list identity_op) : list (identity_op * identity_out) * V :=
  match ops with
  | [] => ([], v)
  | op :: ops =>
      let r := identity_call v op in
      let rest := identity_calls r.2 ops in
      ((op, r.1) :: rest.1, rest.2)
  end.

(** ** Refinement *)

Definition unique_keys (l : list IdentityRecord) : Prop := NoDup (record_id <$> l) ∧ NoDup (r_username <$> l).
Definition directory_of (l : list IdentityRecord) : directory := list_to_map ((λ r, (record_id r, r)) <$> l).

Lemma keyed_fst l : ((λ r, (record_id r, r)) <$> l).*1 = record_id <$> l.
Proof. by rewrite <- list_fmap_compose. Qed.
Lemma keyed_snd l : ((λ r, (record_id r, r)) <$> l).*2 = l.
Proof. rewrite <- list_fmap_compose. apply list_fmap_id. Qed.

Lemma directory_of_lookup l id r : unique_keys l → directory_of l !! id = Some r ↔ r ∈ l ∧ record_id r = id.
Proof.
  intros [Hid _]. unfold directory_of. rewrite <- elem_of_list_to_map by by rewrite keyed_fst.
  rewrite list_elem_of_fmap. naive_solver.
Qed.
Lemma directory_of_is_Some l id : unique_keys l → is_Some (directory_of l !! id) ↔ id ∈ record_id <$> l.
Proof.
  intros Hl. rewrite list_elem_of_fmap. split; [intros [r Hr%directory_of_lookup]; [naive_solver|done]|].
  intros (r & -> & Hr). exists r. by apply directory_of_lookup.
Qed.
Lemma directory_of_username l username : unique_keys l → holds_username (directory_of l) username ↔ username ∈ r_username <$> l.
Proof.
  intros Hl. unfold holds_username. rewrite list_elem_of_fmap. setoid_rewrite directory_of_lookup; [|done]. naive_solver.
Qed.

Lemma existsb_key {A} `{EqDecision A} (f : IdentityRecord → A) x l :
  existsb (λ r, bool_decide (f r = x)) l = bool_decide (x ∈ f <$> l).
Proof.
  apply eq_bool_prop_intro. rewrite !Is_true_true, existsb_elem, bool_decide_eq_true, list_elem_of_fmap.
  setoid_rewrite bool_decide_eq_true. naive_solver.
Qed.

(** The first match of a key that occurs once is the match. *)
Lemma list_find_key {A} `{EqDecision A} (f : IdentityRecord → A) x l :
  match snd <$> list_find (λ r, f r = x) l with
  | Some r => r ∈ l ∧ f r = x
  | None => x ∉ f <$> l
  end.
Proof.
  destruct (list_find _ l) as [[i r]|] eqn:Hfind; cbn.
  - apply list_find_Some in Hfind as (Hi & Hr & _). split; [by eapply list_elem_of_lookup_2|done].
  - intros (r & -> & Hr)%list_elem_of_fmap. apply list_find_None in Hfind. rewrite Forall_forall in Hfind. by eapply Hfind.
Qed.

Lemma unique_keys_snoc l r : unique_keys l → record_id r ∉ record_id <$> l → r_username r ∉ r_username <$> l → unique_keys (l ++ [r]).
Proof.
  intros [Hid Hname] Hi Hn. split; rewrite fmap_app, NoDup_app; (split_and!; [done| |apply NoDup_singleton]);
    intros x Hx; cbn; rewrite list_elem_of_singleton; by intros ->.
Qed.
Lemma unique_keys_filter (P : IdentityRecord → Prop) `{∀ r, Decision (P r)} l : unique_keys l → unique_keys (filter P l).
Proof.
  assert (Hgen : ∀ A (f : IdentityRecord → A), NoDup (f <$> l) → NoDup (f <$> filter P l)).
  { intros A f. induction l as [|r l IH]; [done|]. rewrite fmap_cons, NoDup_cons. intros [Hr Hl].
    rewrite filter_cons. case_decide; [|by apply IH]. rewrite fmap_cons, NoDup_cons. split; [|by apply IH].
    intros (r' & Heq & [_ Hr']%list_elem_of_filter)%list_elem_of_fmap. apply Hr, list_elem_of_fmap. by exists r'. }
  intros [Hid Hname]. split; by apply Hgen.
Qed.

Lemma directory_of_snoc l r : record_id r ∉ record_id <$> l → directory_of (l ++ [r]) = <[record_id r := r]> (directory_of l).
Proof.
  intros Hr. unfold directory_of. rewrite fmap_app, list_to_map_app. cbn. rewrite <- insert_union_r; [by rewrite (right_id_L ∅ (∪))|].
  apply not_elem_of_list_to_map. by rewrite keyed_fst.
Qed.
Lemma directory_of_filter l id : directory_of (filter (λ r, record_id r ≠ id) l) = delete id (directory_of l).
Proof.
  induction l as [|r l IH]; [symmetry; apply delete_empty|]. rewrite filter_cons. unfold directory_of in *. case_decide as Hr.
  - rewrite !fmap_cons, !list_to_map_cons, IH. by rewrite delete_insert_ne by done.
  - subst id. rewrite fmap_cons, list_to_map_cons, IH. by rewrite delete_insert_eq.
Qed.

(** Something is filtered out when the list becomes shorter. *)
Lemma filter_shorter id l : (length (filter (λ r, record_id r ≠ id) l) <? length l) = bool_decide (id ∈ record_id <$> l).
Proof.
  apply eq_bool_prop_intro. rewrite !Is_true_true, Nat.ltb_lt, bool_decide_eq_true. induction l as [|r l IH]; [cbn; split; [lia|by intros ?%not_elem_of_nil]|].
  rewrite filter_cons, fmap_cons, elem_of_cons. case_decide as Hr; cbn [length].
  - rewrite <- Nat.succ_lt_mono, IH. split; [by right|]. intros [->|]; done.
  - subst. split; [by left|]. intros _. pose proof (length_filter (λ r', record_id r' ≠ record_id r) l). lia.
Qed.

Lemma identity_call_step v op : unique_keys (records v) →
  directory_step (directory_of (records v)) op (identity_call v op).1 (directory_of (records (identity_call v op).2)) ∧
  unique_keys (records (identity_call v op).2).
Proof.
  intros Hv. pose proof (directory_of_username (records v)) as Huser. pose proof (directory_of_is_Some (records v)) as His.
  destruct op as [r|id|username|id|]; cbn [identity_call fst snd create get find_by_username delete_identity list_identities memory_identity_provider].
  - unfold identity_create. rewrite !existsb_key. case_bool_decide as Hname; [split; [constructor; by apply Huser|done]|].
    case_bool_decide as Hid; [split; [constructor; [by rewrite Huser|by apply His]|done]|]. cbn [fst snd records]. split.
    + rewrite directory_of_snoc by done. constructor; [by rewrite Huser|]. apply eq_None_not_Some. by rewrite His.
    + by apply unique_keys_snoc.
  - split; [|done]. unfold identity_get. pose proof (list_find_key record_id id (records v)) as Hfind.
    replace (snd <$> list_find _ _) with (directory_of (records v) !! id); [constructor|].
    destruct (snd <$> list_find _ _) as [r|]; [by apply directory_of_lookup|]. apply eq_None_not_Some. by rewrite His.
  - split; [|done]. unfold identity_find_by_username. pose proof (list_find_key r_username username (records v)) as Hfind.
    destruct (snd <$> list_find _ _) as [r|]; [|constructor; by rewrite Huser].
    apply (step_found _ (record_id r)); [apply directory_of_lookup|]; naive_solver.
  - unfold identity_delete. cbn [fst snd records]. split; [|by apply unique_keys_filter].
    rewrite directory_of_filter, filter_shorter. erewrite bool_decide_ext; [constructor|]. by rewrite His.
  - split; [|done]. constructor. unfold directory_of. rewrite map_to_list_to_map; [by rewrite keyed_snd|].
    rewrite keyed_fst. apply Hv.
Qed.

(** The stored identities.  Whatever calls are made of a new provider,
    each of them returns what the directory promises: records are kept by id,
    no two of them share an id or a username, a taken username is reported
    before a taken id, a lookup by id or by username finds the record, if
    there is one, deletion says whether there was a record, and the list
    holds every record once. *)
Theorem identity_provider_refines_directory ops :
  let r := identity_calls InMemoryIdentityProvider_new ops in
  directory_run ∅ r.1 (directory_of (records r.2)) ∧ unique_keys (records r.2).
Proof.
  assert (Hgen : ∀ v, unique_keys (records v) → let r := identity_calls v ops in
    directory_run (directory_of (records v)) r.1 (directory_of (records r.2)) ∧ unique_keys (records r.2)).
  { induction ops as [|op ops IH]; intros v Hv; [split; [constructor|done]|]. cbn [identity_calls].
    destruct (identity_call_step v op Hv) as [Hstep Hv']. destruct (IH _ Hv') as [Hrun Hend]. cbn [fst snd] in *.
    split; [by econstructor|done]. }
  apply (Hgen InMemoryIdentityProvider_new). split; constructor.
Qed.

(** ** A run *)

Module Runs.
Definition account (id : Uuid) (name : string) : IdentityRecord := {|
  r_identity := Basic id 0; r_username := name; r_password_hash := "hash"; r_is_active := true; r_created_at := 0; r_updated_at := 0 |}.
Definition errors (calls : list (identity_op * identity_out)) : list bool :=
  (λ call, match call.2 with Created (Ok _) | Deleted (Ok true) | Found (Ok (Some _)) => true | _ => false end) <$> calls.

(** An account of another name may not take the id of one, nor may another
    id take its name; once deleted, both are free. *)
Example accounts : errors (identity_calls InMemoryIdentityProvider_new
  [OpCreate (account 1 "ada"); OpCreate (account 2 "ada"); OpCreate (account 1 "bob"); OpFind "ada"; OpDelete 1; OpDelete 1; OpFind "ada"; OpCreate (account 1 "bob")]%N).1 =
  [true; false; false; true; true; false; false; true].
Proof. vm_compute. reflexivity. Qed.
End Runs.
