(* ===== verification/LocalJwt.v ===== *)
(** * Application tokens: src/src/local.rs

    [LocalJwt]: HS256 tokens whose claims and key the caller supplies; the one
    thing it insists on is a positive [exp].  jsonwebtoken is the parameter
    [LocalJwtLibs], at one claims type; [LocalJwtLaws] is what its
    documentation says of a token under its own key.  The clock is an
    argument, in whole seconds. *)

From S2P Require Import Prelude.

Class ExpClaims (C : Type) := { exp_of : C → Z }.

Inductive ErrorKind := ExpiredSignature | OtherKind.
Record JwtLibError := { kind : ErrorKind; message : string }.

(** What the code sets of [jsonwebtoken::Validation]; the algorithm is HS256
    and no claim is required. *)
Record Validation := { validate_exp : bool; leeway : Z }.

(** The default leeway of [Validation::new]. *)
Definition default_leeway : Z := 60.

Class LocalJwtLibs (C : Type) := {
  EncodingKey : Type;
  DecodingKey : Type;
  encoding_from_secret : string → EncodingKey;
  decoding_from_secret : string → DecodingKey;
  encode : C → EncodingKey → string + JwtLibError;
  decode : string → DecodingKey → Validation → Z → C + JwtLibError;
  malformed_exp : JwtLibError;
}.

(** A token decodes to its claims under its own key; the expiry is the only
    thing the clock decides, and only when it is validated.  The library
    reads an expiry as an unsigned number: validating a negative one is an
    error of its own, [malformed_exp], and not an expiry. *)
Class LocalJwtLaws (C : Type) `{ExpClaims C, LocalJwtLibs C} := {
  decode_encoded secret c token now :
    encode c (encoding_from_secret secret) = inl token →
    decode token (decoding_from_secret secret) {| validate_exp := false; leeway := default_leeway |} now = inl c;
  decode_strict token k l now now' :
    decode token k {| validate_exp := true; leeway := l |} now =
      match decode token k {| validate_exp := false; leeway := default_leeway |} now' with
      | inl c => if (exp_of c <? 0)%Z then inr malformed_exp
                 else if (exp_of c <? now - l)%Z
                 then inr {| kind := ExpiredSignature; message := "ExpiredSignature" |} else inl c
      | inr e => inr e
      end;
  decode_timeless token k now now' :
    decode token k {| validate_exp := false; leeway := default_leeway |} now =
    decode token k {| validate_exp := false; leeway := default_leeway |} now';
  malformed_exp_kind : kind malformed_exp = OtherKind;
  bad_token_kind token k now e :
    decode token k {| validate_exp := false; leeway := default_leeway |} now = inr e → kind e = OtherKind;
}.

Inductive LocalJwtError :=
  | Sign (e : JwtLibError)
  | Verify (e : JwtLibError)
  | MissingExp.

Section LocalJwt.
Context {C : Type} `{ExpClaims C, LocalJwtLibs C}.

Record LocalJwt := { encoding : EncodingKey; decoding : DecodingKey }.

Definition from_secret (secret : string) : LocalJwt := {|
  encoding := encoding_from_secret secret; decoding := decoding_from_secret secret |}.

Definition sign (j : LocalJwt) (c : C) : string + LocalJwtError :=
  if (exp_of c <=? 0)%Z then inr MissingExp
  else match encode c (encoding j) with
       | inl token => inl token
       | inr e => inr (Sign e)
       end.

Definition verify (j : LocalJwt) (token : string) (now : Z) : C + LocalJwtError :=
  match decode token (decoding j) {| validate_exp := true; leeway := 60 |} now with
  | inl c => inl c
  | inr e => inr (Verify e)
  end.

Definition verify_lenient (j : LocalJwt) (token : string) (now : Z) : C + LocalJwtError :=
  match decode token (decoding j) {| validate_exp := false; leeway := default_leeway |} now with
  | inl c => inl c
  | inr e => inr (Verify e)
  end.
End LocalJwt.

Section Laws.
Context {C : Type} `{LocalJwtLaws C}.
Implicit Types (j : LocalJwt (C := C)).

(** The strict check is the lenient one and the expiry. *)
Lemma verify_strict j token now now' :
  verify j token now =
    match verify_lenient j token now' with
    | inl c => if (exp_of c <? 0)%Z then inr (Verify malformed_exp)
               else if (exp_of c <? now - 60)%Z
               then inr (Verify {| kind := ExpiredSignature; message := "ExpiredSignature" |}) else inl c
    | inr e => inr e
    end.
Proof. unfold verify, verify_lenient. rewrite (decode_strict _ _ 60 now now'). by repeat case_match; simplify_eq. Qed.

(** The lenient check does not read the clock. *)
Lemma lenient_timeless j token now now' : verify_lenient j token now = verify_lenient j token now'.
Proof. unfold verify_lenient. by rewrite (decode_timeless _ _ now now'). Qed.

(** A token the lenient check refuses is no good under the key. *)
Lemma lenient_error j token now e : verify_lenient j token now = inr e →
  ∃ le, e = Verify le ∧ kind le = OtherKind.
Proof.
  unfold verify_lenient. destruct (decode _ _ _ _) as [c|le] eqn:Hd; [done|]. intros [= <-].
  exists le. split; [done|]. by eapply bad_token_kind.
Qed.

Lemma sign_lenient secret c token now :
  sign (from_secret secret) c = inl token →
  (0 < exp_of c)%Z ∧ verify_lenient (from_secret secret) token now = inl c.
Proof.
  unfold sign, verify_lenient. destruct (Z.leb_spec (exp_of c) 0); [done|].
  destruct (encode c (encoding (from_secret secret))) as [t|e] eqn:He; [|done]. intros [= <-].
  split; [done|]. cbn [decoding from_secret]. by rewrite (decode_encoded secret c t now He).
Qed.

(** A signed token verifies up to a minute past its expiry. *)
Lemma sign_verify secret c token now :
  sign (from_secret secret) c = inl token →
  verify (from_secret secret) token now =
    if (exp_of c <? now - 60)%Z
    then inr (Verify {| kind := ExpiredSignature; message := "ExpiredSignature" |}) else inl c.
Proof.
  intros Hs. rewrite (verify_strict _ _ _ now). destruct (sign_lenient _ _ _ now Hs) as [Hpos ->].
  by rewrite (proj2 (Z.ltb_ge _ _)) by lia.
Qed.
End Laws.
