(* ===== verification/Visitor.v ===== *)
(** * Visitor tickets: src/src/auth/visitor.rs, src/src/auth/identity/temporary.rs

    [VisitorTickets]: short-lived tokens presented for a temporary identity,
    over any store of temporary identities and the tokens of [LocalJwt].
    The store makes the id of a new identity: it is the argument [fresh].
    Dates are nanoseconds, the clock of one call is read once ([now]), and
    [Uuid::to_string], [Uuid::parse_str], the printing of an error and [{:?}] of a
    string are parameters. *)

From S2P Require Import Prelude Traits Identity LocalJwt.

(** ** Claims and errors *)

Definition VISITOR_SUBJECT_PREFIX : string := "visitor:".
Definition TICKET_TOKEN_TYPE : string := "temporary".

Record VisitorTicketClaims := {
  sub : string;
  typ : string;
  tier : string;
  iat : Z;
  exp : Z;
}.

#[export] Instance ticket_exp : ExpClaims VisitorTicketClaims := {| exp_of := exp |}.

Inductive VisitorTicketError :=
  | Expired
  | PrincipalExpired
  | Revoked
  | UnknownTicket
  | Invalid (what : string)
  | Mint (what : string)
  | Store (e : Error).

Inductive TicketResult (A : Type) :=
  | TOk (a : A)
  | TErr (e : VisitorTicketError).
Arguments TOk {A} a.
Arguments TErr {A} e.

(** [DateTime::timestamp] *)
Definition unix_seconds (d : Z) : Z := d / nanos_per_sec.

(** ** The store of identities *)

Class TemporaryIdentityProvider (S : Type) := {
  create_temporary : S → Z → Uuid → result Identity * S;
  get_temporary : S → Uuid → result (option Identity);
  is_expired : S → Uuid → Z → result bool;
  revoke_temporary : S → Uuid → result unit * S;
  is_revoked : S → Uuid → result bool;
}.

(** The contract of the trait: a revocation is recorded for any id, and no
    operation takes one back or changes an identity. *)
Class TemporaryLaws (S : Type) `{TemporaryIdentityProvider S} := {
  revoke_recorded s id s' : revoke_temporary s id = (Ok tt, s') → is_revoked s' id = Ok true;
  revoke_keeps s id id' s' r : revoke_temporary s id = (r, s') → is_revoked s id' = Ok true → is_revoked s' id' = Ok true;
  create_keeps s d fresh r s' id' :
    create_temporary s d fresh = (r, s') → is_revoked s id' = Ok true → is_revoked s' id' = Ok true;
}.

Section Tickets.
Context (to_string : Uuid → string) (parse_str : string → Uuid + string).
Context (debug_str : string → string) (display_error : Error → string) (debug_identity : Identity → string).

Definition strip_prefix (prefix s : string) : option string :=
  if String.prefix prefix s
  then Some (String.substring (String.length prefix) (String.length s - String.length prefix) s) else None.

Definition ticket_id_of (c : VisitorTicketClaims) : TicketResult Uuid :=
  match strip_prefix VISITOR_SUBJECT_PREFIX (sub c) with
  | None => TErr (Invalid ("subject " +:+ debug_str (sub c) +:+ " lacks the " +:+
                           debug_str VISITOR_SUBJECT_PREFIX +:+ " prefix"))
  | Some raw =>
      match parse_str raw with
      | inl id => TOk id
      | inr e => TErr (Invalid ("subject " +:+ debug_str raw +:+ " is not a UUID: " +:+ e))
      end
  end.

Definition of_local (e : LocalJwtError) : VisitorTicketError :=
  match e with
  | MissingExp => Invalid "claims without a positive exp"
  | Sign e => Mint ("sign failed: " +:+ message e)
  | Verify e =>
      match kind e with
      | ExpiredSignature => Expired
      | OtherKind => Invalid ("signature verification failed: " +:+ message e)
      end
  end.

Definition ticket_error_display (e : VisitorTicketError) : string :=
  match e with
  | Expired => "visitor ticket token expired"
  | PrincipalExpired => "visitor ticket principal expired (inactivity window elapsed)"
  | Revoked => "visitor ticket revoked"
  | UnknownTicket => "unknown visitor ticket"
  | Invalid s => "invalid visitor ticket: " +:+ s
  | Mint s => "visitor ticket mint failed: " +:+ s
  | Store e => "visitor ticket store failed: " +:+ display_error e
  end.

Definition temporary_id (i : Identity) : option Uuid :=
  match i with
  | Temporary id _ => Some id
  | _ => None
  end.

(** ** Configuration *)

Record VisitorTicketConfig := {
  secret : string;
  access_ttl : Z;
  inactivity_window : Z;
  config_tier : string;
}.

Definition VisitorTicketConfig_new (s : string) : VisitorTicketConfig := {|
  secret := s;
  access_ttl := 24 * 3600 * nanos_per_sec;
  inactivity_window := 90 * 86400 * nanos_per_sec;
  config_tier := "anon";
|}.
Definition with_access_ttl (c : VisitorTicketConfig) (ttl : Z) : VisitorTicketConfig := {|
  secret := secret c; access_ttl := ttl; inactivity_window := inactivity_window c; config_tier := config_tier c |}.
Definition with_inactivity_window (c : VisitorTicketConfig) (w : Z) : VisitorTicketConfig := {|
  secret := secret c; access_ttl := access_ttl c; inactivity_window := w; config_tier := config_tier c |}.
Definition with_tier (c : VisitorTicketConfig) (t : string) : VisitorTicketConfig := {|
  secret := secret c; access_ttl := access_ttl c; inactivity_window := inactivity_window c; config_tier := t |}.

Record IssuedTicket := {
  token : string;
  ticket_id : Uuid;
  ticket_identity : Identity;
  access_expires_at : Z;
}.

Record VerifiedTicket := {
  claims : VisitorTicketClaims;
  verified_id : Uuid;
  verified_identity : Identity;
  principal_expires_at : Z;
}.

(** ** The manager *)

Section Manager.
Context `{LocalJwtLibs VisitorTicketClaims} {S : Type} `{TemporaryIdentityProvider S}.

Record VisitorTickets := {
  jwt : LocalJwt (C := VisitorTicketClaims);
  store : S;
  config : VisitorTicketConfig;
}.

(** [None] is the panic of a [debug_assert!], in a debug build. *)
Definition VisitorTickets_new (debug_assertions : bool) (s : S) (c : VisitorTicketConfig) : option VisitorTickets :=
  if debug_assertions && ((access_ttl c <=? 0)%Z || (inactivity_window c <=? 0)%Z) then None
  else Some {| jwt := from_secret (secret c); store := s; config := c |}.

Definition with_ticket_store (m : VisitorTickets) (s : S) : VisitorTickets := {|
  jwt := jwt m; store := s; config := config m |}.

Definition minted_claims (m : VisitorTickets) (id : Uuid) (now : Z) : VisitorTicketClaims := {|
  sub := VISITOR_SUBJECT_PREFIX +:+ to_string id;
  typ := TICKET_TOKEN_TYPE;
  tier := config_tier (config m);
  iat := unix_seconds now;
  exp := unix_seconds (now + access_ttl (config m));
|}.

Definition mint (m : VisitorTickets) (id : Uuid) (i : Identity) (now : Z) : TicketResult IssuedTicket :=
  match sign (jwt m) (minted_claims m id now) with
  | inl t => TOk {| token := t; ticket_id := id; ticket_identity := i;
                    access_expires_at := (now + access_ttl (config m))%Z |}
  | inr e => TErr (of_local e)
  end.

Definition issue (m : VisitorTickets) (fresh : Uuid) (now : Z) : TicketResult IssuedTicket * VisitorTickets :=
  let '(r, s) := create_temporary (store m) (now + inactivity_window (config m)) fresh in
  let m := with_ticket_store m s in
  match r with
  | Err e => (TErr (Store e), m)
  | Ok i =>
      match temporary_id i with
      | None => (TErr (Store (Anyhow ("store returned a non-temporary identity from create_temporary: " +:+
                                      debug_identity i))), m)
      | Some id => (mint m id i now, m)
      end
  end.

(** The lifecycle gate behind [verify] and [renew]. *)
Definition admit_claims (m : VisitorTickets) (c : VisitorTicketClaims) (now : Z) : TicketResult VerifiedTicket :=
  if negb (bool_decide (typ c = TICKET_TOKEN_TYPE)) then
    TErr (Invalid ("unexpected token type " +:+ debug_str (typ c) +:+ "; tickets carry " +:+
                   debug_str TICKET_TOKEN_TYPE))
  else
    match ticket_id_of c with
    | TErr e => TErr e
    | TOk id =>
        match get_temporary (store m) id with
        | Err e => TErr (Store e)
        | Ok None => TErr UnknownTicket
        | Ok (Some i) =>
            match is_revoked (store m) id with
            | Err e => TErr (Store e)
            | Ok true => TErr Revoked
            | Ok false =>
                match i with
                | Temporary _ expires_at =>
                    if (expires_at <? now)%Z then TErr PrincipalExpired
                    else TOk {| claims := c; verified_id := id; verified_identity := i;
                                principal_expires_at := expires_at |}
                | _ => TErr (Store (Anyhow ("store returned a non-temporary identity for ticket " +:+ to_string id)))
                end
            end
        end
    end.

Definition verify_ticket (m : VisitorTickets) (t : string) (now : Z) : TicketResult VerifiedTicket :=
  match verify (jwt m) t (unix_seconds now) with
  | inr e => TErr (of_local e)
  | inl c => admit_claims m c now
  end.

Definition renew (m : VisitorTickets) (t : string) (now : Z) : TicketResult IssuedTicket :=
  match verify_lenient (jwt m) t (unix_seconds now) with
  | inr e => TErr (of_local e)
  | inl c =>
      match admit_claims m c now with
      | TErr e => TErr e
      | TOk v => mint m (verified_id v) (verified_identity v) now
      end
  end.

Definition revoke (m : VisitorTickets) (id : Uuid) : TicketResult unit * VisitorTickets :=
  let '(r, s) := revoke_temporary (store m) id in
  (match r with Ok _ => TOk tt | Err e => TErr (Store e) end, with_ticket_store m s).

(** The [AnonymousIdentityProvider] of a manager. *)
Definition create_anonymous (m : VisitorTickets) (fresh : Uuid) (now : Z) : result Identity * VisitorTickets :=
  let '(r, m) := issue m fresh now in
  (match r with
   | TOk t => Ok (ticket_identity t)
   | TErr e => Err (Anyhow (ticket_error_display e))
   end, m).
Definition get_anonymous (m : VisitorTickets) (id : Uuid) : result (option Identity) := get_temporary (store m) id.

(** ** Histories *)

Inductive ticket_op := OpIssue (fresh : Uuid) | OpRenew (t : string) | OpVerify (t : string) | OpRevoke (id : Uuid).

Definition ticket_step (m : VisitorTickets) (ev : ticket_op * Z) : VisitorTickets :=
  match ev.1 with
  | OpIssue fresh => (issue m fresh ev.2).2
  | OpRevoke id => (revoke m id).2
  | OpRenew _ | OpVerify _ => m
  end.
Definition ticket_run (m : VisitorTickets) (evs : list (ticket_op * Z)) : VisitorTickets := foldl ticket_step m evs.
End Manager.
End Tickets.

(** ** The in-memory store *)

Record InMemoryVisitorTicketStore := {
  identities : gmap Uuid Identity;
  revoked_ids : gset Uuid;
}.

Definition InMemoryVisitorTicketStore_new : InMemoryVisitorTicketStore := {|
  identities := ∅; revoked_ids := ∅ |}.

Definition mem_create_temporary (s : InMemoryVisitorTicketStore) (expires_at : Z) (fresh : Uuid)
    : result Identity * InMemoryVisitorTicketStore :=
  let i := Temporary fresh expires_at in
  (Ok i, {| identities := <[fresh := i]> (identities s); revoked_ids := revoked_ids s |}).
Definition mem_get_temporary (s : InMemoryVisitorTicketStore) (id : Uuid) : result (option Identity) :=
  Ok (identities s !! id).
Definition mem_is_expired (s : InMemoryVisitorTicketStore) (id : Uuid) (now : Z) : result bool :=
  Ok match identities s !! id with
     | Some (Temporary _ expires_at) => (expires_at <? now)%Z
     | _ => false
     end.
Definition mem_revoke_temporary (s : InMemoryVisitorTicketStore) (id : Uuid)
    : result unit * InMemoryVisitorTicketStore :=
  (Ok tt, {| identities := identities s; revoked_ids := {[id]} ∪ revoked_ids s |}).
Definition mem_is_revoked (s : InMemoryVisitorTicketStore) (id : Uuid) : result bool :=
  Ok (bool_decide (id ∈ revoked_ids s)).

#[export] Instance memory_ticket_store : TemporaryIdentityProvider InMemoryVisitorTicketStore := {|
  create_temporary := mem_create_temporary;
  get_temporary := mem_get_temporary;
  is_expired := mem_is_expired;
  revoke_temporary := mem_revoke_temporary;
  is_revoked := mem_is_revoked;
|}.

#[export] Instance memory_ticket_laws : TemporaryLaws InMemoryVisitorTicketStore.
Proof.
  constructor; simpl.
  - intros s id s' [= <-]. cbn. unfold mem_is_revoked. simpl. by rewrite bool_decide_true by set_solver.
  - intros s id id' s' r [= <- <-] [= Hin]. unfold mem_is_revoked. simpl.
    apply bool_decide_eq_true in Hin. by rewrite bool_decide_true by set_solver.
  - intros s d fresh r s' id' [= <- <-] Hin. exact Hin.
Qed.

(** ** Properties *)

Section Gate.
Context (to_string : Uuid → string) (parse_str : string → Uuid + string).
Context (debug_str : string → string).
Context `{!LocalJwtLibs VisitorTicketClaims, !LocalJwtLaws VisitorTicketClaims} {S : Type} `{TemporaryIdentityProvider S}.
Implicit Types (m : VisitorTickets (S := S)).
#[local] Abbreviation admit_claims := (admit_claims to_string parse_str debug_str).
#[local] Abbreviation verify_ticket := (verify_ticket to_string parse_str debug_str).
#[local] Abbreviation renew := (renew to_string parse_str debug_str).
#[local] Abbreviation ticket_id_of := (ticket_id_of parse_str debug_str).

(** What the gate demands of some claims. *)
Definition gate_open m (c : VisitorTicketClaims) (now : Z) (v : VerifiedTicket) : Prop :=
  ∃ id own expires_at, typ c = TICKET_TOKEN_TYPE ∧ ticket_id_of c = TOk id ∧
    get_temporary (store m) id = Ok (Some (Temporary own expires_at)) ∧ is_revoked (store m) id = Ok false ∧
    (now ≤ expires_at)%Z ∧
    v = {| claims := c; verified_id := id; verified_identity := Temporary own expires_at;
           principal_expires_at := expires_at |}.

Lemma admit_claims_iff m c now v : admit_claims m c now = TOk v ↔ gate_open m c now v.
Proof.
  unfold Visitor.admit_claims, gate_open. case_bool_decide as Htyp; cbn [negb].
  2:{ split; [done|]. by intros (? & ? & ? & ? & _). }
  destruct (ticket_id_of c) as [id|e] eqn:Hid.
  2:{ split; [done|]. by intros (? & ? & ? & _ & ? & _). }
  destruct (get_temporary (store m) id) as [[i|]|e] eqn:Hget;
    [|by split; [|intros (? & ? & ? & _ & [= <-] & ? & _); congruence]..].
  destruct (is_revoked (store m) id) as [[]|e] eqn:Hrev;
    [by split; [|intros (? & ? & ? & _ & [= <-] & _ & ? & _); congruence]| |
     by split; [|intros (? & ? & ? & _ & [= <-] & _ & ? & _); congruence]].
  destruct i as [|?|own e|]; try by split; [|intros (? & ? & ? & _ & [= <-] & ? & _); congruence].
  destruct (Z.ltb_spec e now).
  - split; [done|]. intros (id' & own' & e' & _ & [= <-] & Hget' & _ & ? & _). rewrite Hget in Hget'.
    injection Hget' as <- <-. lia.
  - split.
    + intros [= <-]. exists id, own, e. by split_and!; [..|lia|].
    + intros (id' & own' & e' & _ & [= <-] & Hget' & _ & _ & ->). rewrite Hget in Hget'. by injection Hget' as <- <-.
Qed.

(** What the gate answers to other claims: one rule per refusal, in the
    order of the tests, each with what the earlier tests have passed. *)
Definition names_ticket (c : VisitorTicketClaims) (id : Uuid) : Prop :=
  typ c = TICKET_TOKEN_TYPE ∧ ticket_id_of c = TOk id.
Definition knows m (id : Uuid) (i : Identity) : Prop := get_temporary (store m) id = Ok (Some i).

Inductive gate_refuses m (c : VisitorTicketClaims) (now : Z) : VisitorTicketError → Prop :=
  | refuses_type :
      typ c ≠ TICKET_TOKEN_TYPE →
      gate_refuses m c now (Invalid ("unexpected token type " +:+ debug_str (typ c) +:+ "; tickets carry " +:+
                                     debug_str TICKET_TOKEN_TYPE))
  | refuses_subject e :
      typ c = TICKET_TOKEN_TYPE → ticket_id_of c = TErr e → gate_refuses m c now e
  | refuses_lookup id e :
      names_ticket c id → get_temporary (store m) id = Err e → gate_refuses m c now (Store e)
  | refuses_unknown id :
      names_ticket c id → get_temporary (store m) id = Ok None → gate_refuses m c now UnknownTicket
  | refuses_unread id i e :
      names_ticket c id → knows m id i → is_revoked (store m) id = Err e → gate_refuses m c now (Store e)
  | refuses_revoked id i :
      names_ticket c id → knows m id i → is_revoked (store m) id = Ok true → gate_refuses m c now Revoked
  | refuses_foreign id i :
      names_ticket c id → knows m id i → is_revoked (store m) id = Ok false → temporary_id i = None →
      gate_refuses m c now
        (Store (Anyhow ("store returned a non-temporary identity for ticket " +:+ to_string id)))
  | refuses_lapsed id own expires_at :
      names_ticket c id → knows m id (Temporary own expires_at) → is_revoked (store m) id = Ok false →
      (expires_at < now)%Z → gate_refuses m c now PrincipalExpired.

Lemma admit_claims_refuses m c now e : admit_claims m c now = TErr e ↔ gate_refuses m c now e.
Proof.
  unfold Visitor.admit_claims. split.
  - case_bool_decide as Htyp; cbn [negb]; [|intros [= <-]; by apply refuses_type].
    destruct (ticket_id_of c) as [id|e'] eqn:Hid; [|intros [= <-]; by apply refuses_subject].
    assert (Hn : names_ticket c id) by done.
    destruct (get_temporary (store m) id) as [[i|]|e'] eqn:Hget;
      [|intros [= <-]; by apply (refuses_unknown _ _ _ id)|intros [= <-]; by apply (refuses_lookup _ _ _ id)].
    destruct (is_revoked (store m) id) as [[]|e'] eqn:Hrev;
      [intros [= <-]; by apply (refuses_revoked _ _ _ id i)| |intros [= <-]; by apply (refuses_unread _ _ _ id i)].
    destruct i as [|?|own expires_at|]; try (intros [= <-]; by eapply (refuses_foreign _ _ _ id)).
    destruct (Z.ltb_spec expires_at now); [|done]. intros [= <-]. by apply (refuses_lapsed _ _ _ id own expires_at).
  - unfold names_ticket, knows.
    destruct 1 as [Htyp|e Htyp Hid|id e [Htyp Hid] Hget|id [Htyp Hid] Hget|id i e [Htyp Hid] Hget Hrev
      |id i [Htyp Hid] Hget Hrev|id i [Htyp Hid] Hget Hrev Hi|id own ex [Htyp Hid] Hget Hrev Hlt];
      [by rewrite bool_decide_false|rewrite bool_decide_true, Hid by done; cbn [negb]..]; [done|rewrite Hget..];
      try done; rewrite Hrev; try done; [by destruct i|].
    by rewrite (proj2 (Z.ltb_lt _ _)).
Qed.

(** The token is signed under the key, and not over. *)
Definition token_live m t now (c : VisitorTicketClaims) : Prop :=
  verify_lenient (jwt m) t 0 = inl c ∧ (0 ≤ exp c)%Z ∧ (unix_seconds now - 60 ≤ exp c)%Z.

(** The answers to a token that is not. *)
Definition bad_token (e : JwtLibError) : VisitorTicketError :=
  Invalid ("signature verification failed: " +:+ message e).
Inductive token_refused m t now : VisitorTicketError → Prop :=
  | token_unsigned le :
      verify_lenient (jwt m) t 0 = inr (Verify le) → token_refused m t now (bad_token le)
  | token_malformed c :
      verify_lenient (jwt m) t 0 = inl c → (exp c < 0)%Z → token_refused m t now (bad_token malformed_exp)
  | token_expired c :
      verify_lenient (jwt m) t 0 = inl c → (0 ≤ exp c)%Z → (exp c < unix_seconds now - 60)%Z →
      token_refused m t now Expired.

Lemma of_local_bad le : kind le = OtherKind → of_local (Verify le) = bad_token le.
Proof. unfold of_local, bad_token. by intros ->. Qed.

(** The strict check of a token: live claims, or a refusal. *)
Lemma verify_cases m t now :
  (∃ c, token_live m t now c ∧ verify (jwt m) t (unix_seconds now) = inl c) ∨
  (∃ e, token_refused m t now (of_local e) ∧ verify (jwt m) t (unix_seconds now) = inr e).
Proof.
  rewrite (verify_strict _ t _ 0). destruct (verify_lenient (jwt m) t 0) as [c|e] eqn:Hl.
  - cbn [exp_of ticket_exp]. destruct (Z.ltb_spec (exp c) 0) as [Hneg|Hpos].
    + right. eexists. split; [|done]. rewrite of_local_bad by apply malformed_exp_kind. by apply (token_malformed _ _ _ c).
    + destruct (Z.ltb_spec (exp c) (unix_seconds now - 60)); [|left; by exists c].
      right. eexists. split; [|done]. by apply (token_expired _ _ _ c).
  - right. exists e. split; [|done]. apply lenient_error in Hl as Hk. destruct Hk as (le & -> & Hk).
    rewrite of_local_bad by done. by apply token_unsigned.
Qed.

Lemma live_not_refused m t now c e : token_live m t now c → ¬ token_refused m t now e.
Proof. intros (Hc & ? & ?). destruct 1 as [le Hl|c' Hl ?|c' Hl ? ?]; rewrite Hc in Hl; simplify_eq; lia. Qed.
Lemma live_unique m t now c c' : token_live m t now c → token_live m t now c' → c = c'.
Proof. intros [Hc _] [Hc' _]. congruence. Qed.
Lemma refused_unique m t now e e' : token_refused m t now e → token_refused m t now e' → e = e'.
Proof.
  destruct 1 as [? Hl|? Hl ?|? Hl ? ?]; destruct 1 as [? Hl'|? Hl' ?|? Hl' ? ?]; rewrite Hl in Hl'; simplify_eq; done || lia.
Qed.

Lemma verify_ticket_iff m t now v :
  verify_ticket m t now = TOk v ↔ ∃ c, token_live m t now c ∧ gate_open m c now v.
Proof.
  unfold Visitor.verify_ticket. destruct (verify_cases m t now) as [(c & Hc & ->)|(e & He & ->)].
  - rewrite admit_claims_iff. split; [intros Hg; by exists c|]. intros (c' & Hc' & Hg).
    by rewrite (live_unique _ _ _ _ _ Hc Hc').
  - split; [done|]. intros (c & Hc & _). by apply (live_not_refused _ _ _ _ _ Hc) in He.
Qed.

Lemma verify_ticket_refuses m t now e :
  verify_ticket m t now = TErr e ↔
    token_refused m t now e ∨ ∃ c, token_live m t now c ∧ gate_refuses m c now e.
Proof.
  unfold Visitor.verify_ticket. destruct (verify_cases m t now) as [(c & Hc & ->)|(e' & He & ->)].
  - rewrite admit_claims_refuses. split; [intros Hg; right; by exists c|].
    intros [Hr|(c' & Hc' & Hg)]; [by apply (live_not_refused _ _ _ _ _ Hc) in Hr|].
    by rewrite (live_unique _ _ _ _ _ Hc Hc').
  - split; [intros [= <-]; by left|]. intros [Hr|(c & Hc & _)].
    + by rewrite (refused_unique _ _ _ _ _ He Hr).
    + by apply (live_not_refused _ _ _ _ _ Hc) in He.
Qed.

Lemma renew_iff m t now k :
  renew m t now = TOk k ↔
    ∃ c v, verify_lenient (jwt m) t 0 = inl c ∧ gate_open m c now v ∧
      mint to_string m (verified_id v) (verified_identity v) now = TOk k.
Proof.
  unfold Visitor.renew. rewrite (lenient_timeless _ t _ 0). split.
  - destruct (verify_lenient (jwt m) t 0) as [c|e]; [|done].
    destruct (admit_claims m c now) as [v|e] eqn:Hg; [|done]. apply admit_claims_iff in Hg. intros Hk. by exists c, v.
  - intros (c & v & -> & Hg & Hk). apply admit_claims_iff in Hg. by rewrite Hg.
Qed.

Lemma renew_refuses m t now e :
  renew m t now = TErr e ↔
    (∃ le, verify_lenient (jwt m) t 0 = inr (Verify le) ∧ e = bad_token le) ∨
    (∃ c, verify_lenient (jwt m) t 0 = inl c ∧ gate_refuses m c now e) ∨
    (∃ c v, verify_lenient (jwt m) t 0 = inl c ∧ gate_open m c now v ∧
       mint to_string m (verified_id v) (verified_identity v) now = TErr e).
Proof.
  unfold Visitor.renew. rewrite (lenient_timeless _ t _ 0).
  destruct (verify_lenient (jwt m) t 0) as [c|le] eqn:Hl.
  - destruct (admit_claims m c now) as [v|e'] eqn:Hg.
    + apply admit_claims_iff in Hg as Hopen. split.
      * intros Hm. right. right. by exists c, v.
      * intros [(? & ? & _)|[(c' & [= <-] & Hr)|(c' & v' & [= <-] & Ho & Hm)]]; [done| |].
        -- apply admit_claims_refuses in Hr. congruence.
        -- apply admit_claims_iff in Ho. congruence.
    + split.
      * intros [= <-]. right. left. exists c. by rewrite <- admit_claims_refuses.
      * intros [(? & ? & _)|[(c' & [= <-] & Hr)|(c' & v' & [= <-] & Ho & Hm)]]; [done| |].
        -- apply admit_claims_refuses in Hr. congruence.
        -- apply admit_claims_iff in Ho. congruence.
  - apply lenient_error in Hl as (le' & -> & Hk). rewrite of_local_bad by done. split.
    + intros [= <-]. left. by exists le'.
    + by intros [(? & [= <-] & ->)|[(? & ? & _)|(? & ? & ? & _)]].
Qed.

(** Claims the gate is closed to are refused on both paths. *)
Lemma closed_gate_refuses m t c now :
  verify_lenient (jwt m) t 0 = inl c → (∀ v, ¬ gate_open m c now v) →
  (∀ v, verify_ticket m t now ≠ TOk v) ∧ (∀ k, renew m t now ≠ TOk k).
Proof.
  intros Hc Hclosed. split.
  - intros v (c' & [Hc' _] & Hg)%verify_ticket_iff. rewrite Hc in Hc'. injection Hc' as <-. by apply Hclosed in Hg.
  - intros k (c' & v & Hc' & Hg & _)%renew_iff. rewrite Hc in Hc'. injection Hc' as <-. by apply Hclosed in Hg.
Qed.

(** C23: The gate, with every answer.  [verify] accepts a token exactly when
    it is signed under the key of the manager, its expiry is at most a minute
    past, it is of the ticket type, its subject names an id, the store knows
    a temporary identity under that id, the id is not revoked, and the
    identity has not expired.  It answers an error exactly when the token is
    refused - not signed under the key or with a negative expiry: invalid;
    over: expired - or the gate refuses its claims, with the error of the
    first test that fails: type, subject, existence, revocation, expiry of
    the principal, an error of the store being passed on where it occurs.
    [renew] gives the same answers but for the expiry of the token, and mints
    for the same id and identity, or passes on the error of minting; in
    particular it mints for every ticket [verify] accepts. *)
Theorem ticket_gate m t now :
  (∀ v, verify_ticket m t now = TOk v ↔ ∃ c, token_live m t now c ∧ gate_open m c now v) ∧
  (∀ e, verify_ticket m t now = TErr e ↔
     token_refused m t now e ∨ ∃ c, token_live m t now c ∧ gate_refuses m c now e) ∧
  (∀ k, renew m t now = TOk k ↔
     ∃ c v, verify_lenient (jwt m) t 0 = inl c ∧ gate_open m c now v ∧
       mint to_string m (verified_id v) (verified_identity v) now = TOk k) ∧
  (∀ e, renew m t now = TErr e ↔
     (∃ le, verify_lenient (jwt m) t 0 = inr (Verify le) ∧ e = bad_token le) ∨
     (∃ c, verify_lenient (jwt m) t 0 = inl c ∧ gate_refuses m c now e) ∨
     (∃ c v, verify_lenient (jwt m) t 0 = inl c ∧ gate_open m c now v ∧
        mint to_string m (verified_id v) (verified_identity v) now = TErr e)) ∧
  (∀ v, verify_ticket m t now = TOk v →
     renew m t now = mint to_string m (verified_id v) (verified_identity v) now).
Proof.
  split_and!; [intros v; apply verify_ticket_iff|intros e; apply verify_ticket_refuses|
    intros k; apply renew_iff|intros e; apply renew_refuses|].
  intros v (c & [Hc _] & Hg)%verify_ticket_iff. apply admit_claims_iff in Hg.
  unfold Visitor.renew. by rewrite (lenient_timeless _ t _ 0), Hc, Hg.
Qed.
End Gate.

Section Histories.
Context (to_string : Uuid → string) (parse_str : string → Uuid + string).
Context (parse_printed : ∀ u, parse_str (to_string u) = inl u).
Context (debug_str : string → string) (debug_identity : Identity → string).
Context `{!LocalJwtLibs VisitorTicketClaims, !LocalJwtLaws VisitorTicketClaims}.

Section AnyStore.
Context {S : Type} `{TemporaryLaws S}.
Implicit Types (m : VisitorTickets (S := S)).
#[local] Abbreviation ticket_step := (ticket_step to_string debug_identity).
#[local] Abbreviation ticket_run := (ticket_run to_string debug_identity).

Lemma ticket_step_static m ev : jwt (ticket_step m ev) = jwt m ∧ config (ticket_step m ev) = config m.
Proof.
  destruct ev as [[] now]; unfold Visitor.ticket_step; cbn [fst snd]; try done.
  - unfold issue. destruct (create_temporary _ _ _) as [[i|] s]; [|done]. by destruct (temporary_id i).
  - unfold revoke. by destruct (revoke_temporary _ _) as [[] s].
Qed.

Lemma ticket_step_revoked m ev id :
  is_revoked (store m) id = Ok true → is_revoked (store (ticket_step m ev)) id = Ok true.
Proof.
  intros Hr. destruct ev as [[] now]; unfold Visitor.ticket_step; cbn [fst snd]; try done.
  - unfold issue. destruct (create_temporary _ _ _) as [r s] eqn:Hc. apply (create_keeps _ _ _ _ _ id) in Hc; [|done].
    destruct r as [i|]; [|done]. by destruct (temporary_id i).
  - unfold revoke. destruct (revoke_temporary _ _) as [r s] eqn:Hc. by apply (revoke_keeps _ _ id) in Hc.
Qed.

Lemma ticket_run_revoked m evs id :
  is_revoked (store m) id = Ok true → is_revoked (store (ticket_run m evs)) id = Ok true.
Proof. revert m. induction evs as [|ev evs IH]; intros m Hr; [done|]. by apply IH, ticket_step_revoked. Qed.

(** C24: Revocation is final.  Over any store that keeps the contract of the
    trait, once [revoke] of an id has succeeded no token whose subject names
    it is verified or renewed again, after any history of issues, renewals
    and revocations. *)
Theorem revoked_ticket_stays_dead m id m1 evs t c now :
  revoke m id = (TOk tt, m1) →
  verify_lenient (jwt (ticket_run m1 evs)) t 0 = inl c → ticket_id_of parse_str debug_str c = TOk id →
  (∀ v, verify_ticket to_string parse_str debug_str (ticket_run m1 evs) t now ≠ TOk v) ∧
  (∀ k, renew to_string parse_str debug_str (ticket_run m1 evs) t now ≠ TOk k).
Proof.
  unfold revoke. destruct (revoke_temporary (store m) id) as [[[]|e] s] eqn:Hr; [|done]. intros [= <-] Hc Hid.
  apply revoke_recorded in Hr.
  assert (Hr' := ticket_run_revoked (with_ticket_store m s) evs id Hr). clear Hr. rename Hr' into Hr.
  set (m' := ticket_run _ evs) in *.
  apply (closed_gate_refuses to_string parse_str debug_str m' t c now Hc).
  intros v (id' & own & e & _ & Hid' & _ & Hno & _). rewrite Hid in Hid'. injection Hid' as <-. by rewrite Hr in Hno.
Qed.
End AnyStore.

(** ** Over the in-memory store *)

Section Memory.
Implicit Types (m : VisitorTickets (S := InMemoryVisitorTicketStore)).
#[local] Abbreviation run m evs := (ticket_run to_string debug_identity m evs).
#[local] Abbreviation verified m t now := (verify_ticket to_string parse_str debug_str m t now).
#[local] Abbreviation renewed m t now := (renew to_string parse_str debug_str m t now).

Lemma substring_all s : String.substring 0 (String.length s) s = s.
Proof. induction s as [|a s IH]; simpl; [done|]. by rewrite IH. Qed.

Lemma strip_prefix_app p s : strip_prefix p (p +:+ s) = Some s.
Proof.
  unfold strip_prefix. assert (Hp : String.prefix p (p +:+ s) = true).
  { induction p as [|a p IH]; [by destruct s|].
    change ((if Ascii.ascii_dec a a then String.prefix p (p +:+ s) else false) = true).
    destruct (Ascii.ascii_dec a a) as [_|Hne]; [exact IH|by destruct Hne]. }
  rewrite Hp. f_equal. assert (Hlen : String.length (p +:+ s) - String.length p = String.length s).
  { clear. induction p as [|a p IH]; cbn; [apply Nat.sub_0_r|exact IH]. }
  rewrite Hlen. clear. induction p as [|a p IH]; [apply substring_all|exact IH].
Qed.

Lemma minted_ticket_id m id now : ticket_id_of parse_str debug_str (minted_claims to_string m id now) = TOk id.
Proof.
  unfold ticket_id_of. cbn [sub minted_claims]. by rewrite strip_prefix_app, parse_printed.
Qed.

Lemma step_identity m ev id i :
  ev.1 ≠ OpIssue id → identities (store m) !! id = Some i →
  identities (store (ticket_step to_string debug_identity m ev)) !! id = Some i.
Proof.
  intros Hne Hi. destruct ev as [[fresh| | |] now]; cbn in *; try done.
  rewrite lookup_insert_ne; [done|]. congruence.
Qed.

Lemma run_identity m evs id i :
  Forall (λ ev, ev.1 ≠ OpIssue id) evs → identities (store m) !! id = Some i →
  identities (store (run m evs)) !! id = Some i.
Proof.
  intros Hevs. revert m. induction Hevs as [|ev evs Hev _ IH]; intros m Hi; [done|]. by apply IH, step_identity.
Qed.

Lemma run_not_revoked m evs id :
  Forall (λ ev, ev.1 ≠ OpRevoke id) evs → id ∉ revoked_ids (store m) → id ∉ revoked_ids (store (run m evs)).
Proof.
  intros Hevs. revert m. induction Hevs as [|[op now] evs Hev _ IH]; intros m Hi; [done|]. apply IH.
  destruct op as [| | |id']; cbn in *; try done. set_solver.
Qed.

Lemma run_static m evs : jwt (run m evs) = jwt m ∧ config (run m evs) = config m.
Proof.
  revert m. induction evs as [|ev evs IH]; intros m; [done|].
  destruct (IH (ticket_step to_string debug_identity m ev)) as [Hj Hc].
  destruct (ticket_step_static m ev) as [Hj' Hc']. split; [by rewrite <- Hj'|by rewrite <- Hc'].
Qed.

Definition well_keyed m : Prop := jwt m = from_secret (secret (config m)).

(** A minted token carries the claims it was minted with. *)
Lemma mint_claims m id i now k : well_keyed m → mint to_string m id i now = TOk k →
  k = {| token := token k; ticket_id := id; ticket_identity := i; access_expires_at := now + access_ttl (config m) |} ∧
  (0 < unix_seconds (now + access_ttl (config m)))%Z ∧
  ∀ t, verify_lenient (jwt m) (token k) t = inl (minted_claims to_string m id now).
Proof.
  unfold mint, well_keyed. intros Hk. rewrite Hk. destruct (sign _ _) as [t|e] eqn:Hs; [|done]. intros [= <-].
  split_and!; [done|exact (proj1 (sign_lenient _ _ _ 0 Hs))|]. intros t'. exact (proj2 (sign_lenient _ _ _ t' Hs)).
Qed.

(** The gate over the in-memory store. *)
Lemma gate_memory m c id expires_at now :
  typ c = TICKET_TOKEN_TYPE → ticket_id_of parse_str debug_str c = TOk id →
  identities (store m) !! id = Some (Temporary id expires_at) → id ∉ revoked_ids (store m) →
  ∀ v, gate_open parse_str debug_str m c now v ↔ (now ≤ expires_at)%Z ∧
    v = {| claims := c; verified_id := id; verified_identity := Temporary id expires_at;
           principal_expires_at := expires_at |}.
Proof.
  intros Ht Hid Hi Hr v. unfold gate_open. split.
  - intros (id' & own & e & _ & Hid' & Hget & _ & Hle & ->). rewrite Hid in Hid'. injection Hid' as <-.
    cbn in Hget. unfold mem_get_temporary in Hget. rewrite Hi in Hget. by injection Hget as <- <-.
  - intros [Hle ->]. exists id, id, expires_at. cbn. unfold mem_get_temporary, mem_is_revoked.
    rewrite Hi. split_and!; try done. by rewrite bool_decide_false.
Qed.

(** The life of a ticket.  Over the in-memory store, whatever else
    happens - short of issuing the same id again or revoking it - the token
    handed out by [issue] is accepted exactly until a minute after its
    expiry and until the end of the inactivity window that began with the
    issue; before that end it can be renewed, also when it no longer
    verifies; a renewal is for the same id and identity, and is accepted in
    its turn.  No renewal moves the end of the window: after it no token of
    the id is accepted or renewed, however often it was renewed. *)
Theorem ticket_life m fresh t0 k m1 evs now :
  well_keyed m → fresh ∉ revoked_ids (store m) → issue to_string debug_identity m fresh t0 = (TOk k, m1) →
  Forall (λ ev, ev.1 ≠ OpIssue fresh ∧ ev.1 ≠ OpRevoke fresh) evs →
  let m' := run m1 evs in let window_end := (t0 + inactivity_window (config m))%Z in
  ((∃ v, verified m' (token k) now = TOk v) ↔
     (unix_seconds now - 60 ≤ unix_seconds (t0 + access_ttl (config m)))%Z ∧ (now ≤ window_end)%Z) ∧
  (∀ k', renewed m' (token k) now = TOk k' →
     ticket_id k' = fresh ∧ ticket_identity k' = Temporary fresh window_end ∧ (now ≤ window_end)%Z ∧
     ((0 ≤ access_ttl (config m))%Z → ∃ v, verified m' (token k') now = TOk v)) ∧
  ((window_end < now)%Z → ∀ t c, verify_lenient (jwt m') t 0 = inl c →
     ticket_id_of parse_str debug_str c = TOk fresh →
     (∀ v, verified m' t now ≠ TOk v) ∧ (∀ k', renewed m' t now ≠ TOk k')).
Proof.
  intros Hk Hr Hissue Hevs m' window_end. unfold issue in Hissue.
  cbn [create_temporary memory_ticket_store mem_create_temporary temporary_id] in Hissue.
  injection Hissue as Hmint Hm1. apply mint_claims in Hmint as (Hkk & Hpos & Hclaims); [|done].
  apply Forall_and in Hevs as [Hni Hnr].
  destruct (run_static m1 evs) as [Hj Hc]. fold m' in Hj, Hc. rewrite <- Hm1 in Hj, Hc. cbn [jwt config with_ticket_store] in Hj, Hc.
  assert (Hi : identities (store m') !! fresh = Some (Temporary fresh window_end)).
  { apply run_identity; [done|]. rewrite <- Hm1. apply lookup_insert_eq. }
  assert (Hr' : fresh ∉ revoked_ids (store m')) by (apply run_not_revoked; [done|]; by rewrite <- Hm1).
  assert (Hgate := λ c Ht Hid, gate_memory m' c fresh window_end now Ht Hid Hi Hr').
  set (c0 := minted_claims to_string _ fresh t0) in Hclaims.
  assert (Hid0 : ticket_id_of parse_str debug_str c0 = TOk fresh) by apply minted_ticket_id.
  split_and!.
  - split.
    + intros [v Hv]. apply (verify_ticket_iff to_string parse_str debug_str) in Hv as (c & (Hc0 & _ & Hexp) & Hg).
      rewrite Hj, Hclaims in Hc0. injection Hc0 as <-. by apply Hgate in Hg as [Hle _].
    + intros [Hexp Hle]. eexists. apply (verify_ticket_iff to_string parse_str debug_str). exists c0. unfold token_live. rewrite Hj.
      split; [split_and!; [apply Hclaims|exact (Z.lt_le_incl _ _ Hpos)|exact Hexp]|]. by apply Hgate.
  - intros k' Hk'. apply (renew_iff to_string parse_str debug_str) in Hk' as (c & v & Hc0 & Hg & Hmint).
    rewrite Hj, Hclaims in Hc0. injection Hc0 as <-. apply Hgate in Hg as [Hle ->]; [|done|done].
    apply mint_claims in Hmint as (Hkk' & Hpos' & Hclaims'); [|by unfold well_keyed; rewrite Hj, Hc]. cbn [verified_id verified_identity] in *.
    rewrite Hkk'. split_and!; [done|done|done|]. intros Httl. eexists.
    apply (verify_ticket_iff to_string parse_str debug_str). eexists.
    split; [split_and!; [apply Hclaims'|exact (Z.lt_le_incl _ _ Hpos')|]|].
    + cbn [exp minted_claims]. rewrite Hc. unfold unix_seconds.
      assert (now / nanos_per_sec ≤ (now + access_ttl (config m)) / nanos_per_sec)%Z; [|lia].
      apply Z.div_le_mono; [done|lia].
    + apply Hgate; [done|apply minted_ticket_id|done].
  - intros Hover t c Hct Hid. apply (closed_gate_refuses to_string parse_str debug_str m' t c now Hct).
    intros v Hg. assert (Htyp : typ c = TICKET_TOKEN_TYPE) by (by destruct Hg as (? & ? & ? & ? & _)).
    apply Hgate in Hg as [Hle _]; [lia|done|done].
Qed.

(** Dead on issue.  [new] refuses durations that are not positive in a
    debug build only.  In a release build the tickets of a lifetime that is
    zero, or negative by less than a minute, are not dead on issue: the
    leeway of the check accepts them at once, though a ticket whose window
    is over is refused. *)
Theorem nonpositive_lifetime_accepted (st : InMemoryVisitorTicketStore) (c : VisitorTicketConfig) fresh now :
  (access_ttl c ≤ 0)%Z → (-60 * nanos_per_sec ≤ access_ttl c)%Z → (0 ≤ inactivity_window c)%Z →
  (0 < unix_seconds (now + access_ttl c))%Z → fresh ∉ revoked_ids st →
  VisitorTickets_new true st c = None ∧
  ∃ m, VisitorTickets_new false st c = Some m ∧
    ∀ k m1, issue to_string debug_identity m fresh now = (TOk k, m1) → ∃ v, verified m1 (token k) now = TOk v.
Proof.
  intros Httl Hleeway Hwin Hpos Hr. split.
  { unfold VisitorTickets_new. by destruct (Z.leb_spec (access_ttl c) 0); [|lia]. }
  eexists. split; [reflexivity|]. intros k m1 Hissue. unfold issue in Hissue.
  cbn [create_temporary memory_ticket_store mem_create_temporary temporary_id] in Hissue.
  injection Hissue as Hmint <-. apply mint_claims in Hmint as (Hkk & Hexp & Hclaims); [|done].
  eexists. apply (verify_ticket_iff to_string parse_str debug_str). eexists.
  split; [split_and!; [apply Hclaims|exact (Z.lt_le_incl _ _ Hexp)|]|].
  - cbn [exp minted_claims config with_ticket_store]. unfold unix_seconds.
    apply Z.le_trans with ((now - 60 * nanos_per_sec) / nanos_per_sec)%Z; [|apply Z.div_le_mono; [done|lia]].
    replace (now - 60 * nanos_per_sec)%Z with (now + (-60) * nanos_per_sec)%Z by lia. rewrite Z.div_add by done. lia.
  - apply (gate_memory _ _ fresh (now + inactivity_window c)); [done|apply minted_ticket_id|apply lookup_insert_eq|done|].
    split; [lia|reflexivity].
Qed.
End Memory.
End Histories.

(** ** A concrete library

    A token is the key and the claims; the laws hold of it. *)
Module ToyTickets.
Import Seal.

Definition ticket_fields (c : VisitorTicketClaims) : list positive :=
  [countable.encode (sub c); countable.encode (typ c); countable.encode (tier c); countable.encode (iat c);
   countable.encode (exp c)].
Definition of_ticket_fields (l : list positive) : option VisitorTicketClaims :=
  match l with
  | [p1; p2; p3; p4; p5] =>
      f1 ← countable.decode p1; f2 ← countable.decode p2; f3 ← countable.decode p3;
      f4 ← countable.decode p4; f5 ← countable.decode p5;
      Some {| sub := f1; typ := f2; tier := f3; iat := f4; exp := f5 |}
  | _ => None
  end.

Lemma ticket_of_fields c : of_ticket_fields (ticket_fields c) = Some c.
Proof.
  destruct c. unfold of_ticket_fields, ticket_fields. cbn -[countable.encode countable.decode].
  by repeat (rewrite decode_encode; cbn -[countable.encode countable.decode]).
Qed.

Definition toy_encode (c : VisitorTicketClaims) (k : string) : string + JwtLibError :=
  inl (seal [countable.encode k; countable.encode (ticket_fields c)]).
Definition toy_open (token : string) : option (string * VisitorTicketClaims) :=
  l ← unseal token;
  match l with
  | [pk; pf] => k ← countable.decode pk; f ← countable.decode pf; c ← of_ticket_fields f; Some (k, c)
  | _ => None
  end.
Definition toy_decode (token k : string) (v : Validation) (now : Z) : VisitorTicketClaims + JwtLibError :=
  match toy_open token with
  | None => inr {| kind := OtherKind; message := "InvalidToken" |}
  | Some (k', c) =>
      if negb (bool_decide (k' = k)) then inr {| kind := OtherKind; message := "InvalidSignature" |}
      else if validate_exp v && (exp c <? 0)%Z
           then inr {| kind := OtherKind; message := "InvalidClaimFormat(exp)" |}
      else if validate_exp v && (exp c <? now - leeway v)%Z
           then inr {| kind := ExpiredSignature; message := "ExpiredSignature" |} else inl c
  end.

#[local] Instance toy_libs : LocalJwtLibs VisitorTicketClaims := {|
  EncodingKey := string; DecodingKey := string; encoding_from_secret := λ s, s; decoding_from_secret := λ s, s;
  encode := toy_encode; decode := toy_decode;
  malformed_exp := {| kind := OtherKind; message := "InvalidClaimFormat(exp)" |} |}.

#[local] Instance toy_laws : LocalJwtLaws VisitorTicketClaims.
Proof.
  constructor; simpl.
  - intros k c token now [= <-]. unfold toy_decode, toy_open. rewrite unseal_seal.
    cbn -[countable.decode countable.encode of_ticket_fields ticket_fields].
    repeat (rewrite decode_encode; cbn -[countable.decode countable.encode of_ticket_fields ticket_fields]).
    rewrite ticket_of_fields. cbn. by rewrite bool_decide_true.
  - intros token k l now now'. unfold toy_decode. destruct (toy_open token) as [[k' c]|]; [|done].
    by case_bool_decide.
  - done.
  - done.
  - intros token k now e. unfold toy_decode. destruct (toy_open token) as [[k' c]|]; [|by intros [= <-]].
    case_bool_decide; [done|]. by intros [= <-].
Qed.

Definition manager : VisitorTickets (S := InMemoryVisitorTicketStore) := {|
  jwt := from_secret "k"; store := InMemoryVisitorTicketStore_new; config := VisitorTicketConfig_new "k" |}.
Definition day : Z := 86400 * nanos_per_sec.
Definition shown (i : Identity) : string := "".
Definition issued : TicketResult IssuedTicket * VisitorTickets := issue Strokes.show shown manager 3%N day.
Definition ticket_token : string := match issued.1 with TOk k => token k | TErr _ => "" end.

Lemma not_revoked (id : Uuid) : id ∉ revoked_ids (store manager).
Proof. by apply not_elem_of_empty. Qed.

(** Issued on day 1, the token verifies that day, no longer on day 3, when it
    can still be renewed, and nothing is left of it on day 92. *)
Lemma ticket_life_witness :
  let verified t := verify_ticket Strokes.show Strokes.read (λ s, s) issued.2 ticket_token t in
  (∃ v, verified day = TOk v) ∧ verified (3 * day)%Z = TErr Expired ∧ verified (92 * day)%Z = TErr Expired ∧
  (∀ k', renew Strokes.show Strokes.read (λ s, s) issued.2 ticket_token (3 * day)%Z = TOk k' → ticket_id k' = 3%N).
Proof.
  intros verified. destruct issued as [r m1] eqn:Hissue.
  assert (Hr : ∃ k, r = TOk k) by (vm_compute in Hissue; injection Hissue as <- _; by eexists). destruct Hr as [k ->].
  assert (Htok : ticket_token = token k) by (unfold ticket_token; by rewrite Hissue).
  assert (Hlife := λ t, ticket_life Strokes.show Strokes.read Strokes.read_show (λ s, s) shown manager 3%N day k m1 [] t
    eq_refl (not_revoked 3%N) Hissue (List.Forall_nil _)).
  split_and!.
  - unfold verified. rewrite Htok. apply (proj1 (Hlife day)). split; by vm_compute.
  - unfold verified. rewrite Htok. vm_compute in Hissue. injection Hissue as <- <-. by vm_compute.
  - unfold verified. rewrite Htok. vm_compute in Hissue. injection Hissue as <- <-. by vm_compute.
  - intros k'. rewrite Htok. intros Hk'. exact (proj1 (proj1 (proj2 (Hlife (3 * day)%Z)) k' Hk')).
Defined.

Lemma ticket_gate_witness :
  let m := issued.2 in
  ∃ v, verify_ticket Strokes.show Strokes.read (λ s, s) m ticket_token day = TOk v ∧
    renew Strokes.show Strokes.read (λ s, s) m ticket_token day =
      mint Strokes.show m (verified_id v) (verified_identity v) day.
Proof.
  intros m. eexists. split; [vm_compute; reflexivity|].
  by apply (ticket_gate Strokes.show Strokes.read (λ s, s) m ticket_token day); vm_compute.
Defined.

Lemma revoked_ticket_stays_dead_witness :
  ¬ ∃ v, verify_ticket Strokes.show Strokes.read (λ s, s) (revoke issued.2 3%N).2 ticket_token day = TOk v.
Proof.
  intros [v Hv]. revert Hv.
  refine (proj1 (revoked_ticket_stays_dead Strokes.show Strokes.read (λ s, s) shown issued.2 3%N (revoke issued.2 3%N).2 [] ticket_token
    {| sub := "visitor:|||"; typ := "temporary"; tier := "anon"; iat := 86400; exp := 172800 |} day _ _ _) v); by vm_compute.
Defined.

Lemma nonpositive_lifetime_accepted_witness :
  let c := with_access_ttl (VisitorTicketConfig_new "k") 0 in
  VisitorTickets_new true InMemoryVisitorTicketStore_new c = None ∧
  ∃ m, VisitorTickets_new false InMemoryVisitorTicketStore_new c = Some m ∧
    ∀ k m1, issue Strokes.show shown m 3%N day = (TOk k, m1) →
      ∃ v, verify_ticket Strokes.show Strokes.read (λ s, s) m1 (token k) day = TOk v.
Proof.
  intros c. apply (nonpositive_lifetime_accepted Strokes.show Strokes.read Strokes.read_show (λ s, s) shown
    InMemoryVisitorTicketStore_new c 3%N day); [by vm_compute..|apply (not_revoked 3%N)].
Defined.
End ToyTickets.
