(* ===== verification/Password.v ===== *)
(** * Passwords: src/src/rbac/policy.rs,
    src/src/auth/passport/static_password.rs (the generator) and
    [validate_password] of src/src/service/login/mod.rs

    - the age and bootstrap rules, their store, the bootstrap credential;
    - [generate_temporary_password] over a stream of random draws;
    - [validate_password] on the UTF-8 bytes of the password.

    Instants are nanoseconds, a [u32] is a [Z] below [2^32].  Hashing
    (argon2) is a library and is not modelled. *)

From S2P Require Import Prelude.

(** ** The policy *)

Definition u32_max : Z := 2 ^ 32 - 1.
Definition nanos_per_day : Z := 86400 * 10 ^ 9.

Inductive PasswordChangeReason :=
  | InitialPassword
  | Expired (age_days max_age_days : Z).

Definition reason_as_str (r : PasswordChangeReason) : string :=
  match r with
  | InitialPassword => "initial_password"
  | Expired _ _ => "expired"
  end.

(** [Display] *)
Definition reason_display (r : PasswordChangeReason) : string :=
  match r with
  | InitialPassword => reason_as_str r
  | Expired age max => reason_as_str r +:+ "(" +:+ pretty age +:+ "/" +:+ pretty max +:+ "d)"
  end.

Record PasswordPolicy := {
  enabled : bool;
  force_change_on_first_login : bool;
  max_age_days : option Z;
}.

Definition PasswordPolicy_new (force : bool) (max_age : option Z) : PasswordPolicy := {|
  enabled := true;
  force_change_on_first_login := force;
  max_age_days := max_age;
|}.

Definition PasswordPolicy_disabled : PasswordPolicy := {|
  enabled := false;
  force_change_on_first_login := false;
  max_age_days := None;
|}.

Definition from_config (en force : bool) (max_age : option Z) : result PasswordPolicy :=
  if bool_decide (max_age = Some 0%Z) then
    Err (Kirino (Validation
      "password policy max_age_days must be at least 1 day; omit it to disable expiration"))
  else Ok {| enabled := en; force_change_on_first_login := force; max_age_days := max_age |}.

Definition with_enabled (p : PasswordPolicy) (en : bool) : PasswordPolicy := {|
  enabled := en;
  force_change_on_first_login := force_change_on_first_login p;
  max_age_days := max_age_days p;
|}.
Definition with_force_change_on_first_login (p : PasswordPolicy) (force : bool)
    : PasswordPolicy := {|
  enabled := enabled p;
  force_change_on_first_login := force;
  max_age_days := max_age_days p;
|}.
Definition with_max_age_days (p : PasswordPolicy) (days : Z) : PasswordPolicy := {|
  enabled := enabled p;
  force_change_on_first_login := force_change_on_first_login p;
  max_age_days := Some days;
|}.
Definition PasswordPolicy_default : PasswordPolicy := PasswordPolicy_new true None.

(** ** The recorded state *)

Record PasswordState := {
  is_initial : bool;
  changed_at : Z;
}.

Definition state_initial (at_ : Z) : PasswordState := {| is_initial := true; changed_at := at_ |}.
Definition state_rotated (at_ : Z) : PasswordState := {| is_initial := false; changed_at := at_ |}.
Definition from_parts (at_ : Z) (initial : bool) : PasswordState :=
  {| is_initial := initial; changed_at := at_ |}.

(** [num_days] truncates towards zero; [try_from(..).unwrap_or(u32::MAX)]. *)
Definition age_days (s : PasswordState) (now : Z) : Z :=
  let days := (((now - changed_at s) `quot` nanos_per_day) `max` 0)%Z in
  if (days <=? u32_max)%Z then days else u32_max.

Definition change_requirement (p : PasswordPolicy) (s : PasswordState) (now : Z)
    : option PasswordChangeReason :=
  if negb (enabled p) then None
  else if force_change_on_first_login p && is_initial s then Some InitialPassword
  else
    match max_age_days p with
    | Some max =>
        let age := age_days s now in
        if (max <=? age)%Z then Some (Expired age max) else None
    | None => None
    end.

Definition PasswordStateStore : Type := gmap N PasswordState.
Definition state_store_new : PasswordStateStore := ∅.
Definition state_get (st : PasswordStateStore) (account : N) : result (option PasswordState) :=
  Ok (st !! account).
Definition state_put (st : PasswordStateStore) (account : N) (s : PasswordState)
    : result unit * PasswordStateStore :=
  (Ok tt, <[account := s]> st).

(** ** The generator of temporary passwords *)

Definition TEMPORARY_PASSWORD_LEN : nat := 20.
Definition TEMP_UPPER : list N := str_codes "ABCDEFGHJKLMNPQRSTUVWXYZ".
Definition TEMP_LOWER : list N := str_codes "abcdefghijkmnopqrstuvwxyz".
Definition TEMP_DIGIT : list N := str_codes "23456789".
Definition TEMP_SYMBOL : list N := str_codes "-_.=,".
Definition pools : list (list N) := [TEMP_UPPER; TEMP_LOWER; TEMP_DIGIT; TEMP_SYMBOL].

Section Generator.
(** [draw k n] is the result of the [k]-th call [random_range(0..n)]. *)
Variable draw : nat → nat → nat.

(** An index out of range panics: [None]. *)
Definition pick (k : nat) (pool : list N) : option N := pool !! draw k (length pool).

Fixpoint first_picks (k : nat) (ps : list (list N)) : option (list N) :=
  match ps with
  | [] => Some []
  | pool :: ps =>
      c ← pick k pool;
      rest ← first_picks (S k) ps;
      Some (c :: rest)
  end.

(** [n] turns of the [while] loop. *)
Fixpoint fill_picks (k n : nat) (all : list N) (chars : list N) : option (list N) :=
  match n with
  | O => Some chars
  | S n =>
      c ← pick k all;
      fill_picks (S k) n all (chars ++ [c])
  end.

Definition swap (i j : nat) (l : list N) : option (list N) :=
  x ← l !! i;
  y ← l !! j;
  Some (<[j := x]> (<[i := y]> l)).

(** [for i in (1..len).rev()]: [i], [i - 1], ..., [1]. *)
Fixpoint shuffle (k i : nat) (l : list N) : option (list N) :=
  match i with
  | O => Some l
  | S i' =>
      l ← swap i (draw k (S i)) l;
      shuffle (S k) i' l
  end.

Definition generate_temporary_password : option (list N) :=
  chars ← first_picks 0 pools;
  let n := TEMPORARY_PASSWORD_LEN - length chars in
  chars ← fill_picks (length pools) n (concat pools) chars;
  shuffle (length pools + n) (length chars - 1) chars.
End Generator.

(** ** The bootstrap credential *)

Record BootstrapCredential := {
  username : string;
  password : list N;
  bootstrap_state : PasswordState;
}.

Definition bootstrap_credential (draw : nat → nat → nat) (user : string) (now : Z)
    : option BootstrapCredential :=
  pw ← generate_temporary_password draw;
  Some {| username := user; password := pw; bootstrap_state := state_initial now |}.

(** ** The strength rule *)

Definition MIN_PASSWORD_LEN : nat := 8.
Definition MAX_PASSWORD_LEN : nat := 128.

(** [str::chars] on valid UTF-8. *)
Fixpoint utf8_chars (bytes : list N) : list N :=
  match bytes with
  | [] => []
  | b :: r1 =>
      if (b <? 128)%N then b :: utf8_chars r1
      else
        match r1 with
        | [] => []
        | c1 :: r2 =>
            if (b <? 224)%N then (b `mod` 32 * 64 + c1 `mod` 64)%N :: utf8_chars r2
            else
              match r2 with
              | [] => []
              | c2 :: r3 =>
                  if (b <? 240)%N then
                    ((b `mod` 16 * 64 + c1 `mod` 64) * 64 + c2 `mod` 64)%N :: utf8_chars r3
                  else
                    match r3 with
                    | [] => []
                    | c3 :: r4 =>
                        (((b `mod` 8 * 64 + c1 `mod` 64) * 64 + c2 `mod` 64) * 64 +
                           c3 `mod` 64)%N :: utf8_chars r4
                    end
              end
        end
  end.

Definition ascii_upper (c : N) : bool := ((65 <=? c) && (c <=? 90))%N.
Definition ascii_lower (c : N) : bool := ((97 <=? c) && (c <=? 122))%N.
Definition ascii_digit (c : N) : bool := ((48 <=? c) && (c <=? 57))%N.

Section Strength.
(** The Unicode tables behind [char::is_uppercase], [is_lowercase] and
    [is_alphanumeric]; on ASCII they are the letters and digits. *)
Variables is_uppercase is_lowercase is_alphanumeric : N → bool.

Definition categories (chars : list N) : nat :=
  length (filter (λ b : bool, b = true)
    [existsb is_uppercase chars; existsb is_lowercase chars; existsb ascii_digit chars;
     existsb (λ c, negb (is_alphanumeric c)) chars]).

Definition validate_password (bytes : list N) : result unit :=
  if bool_decide (length bytes < MIN_PASSWORD_LEN) then
    Err (Kirino (Validation ("password must be at least " +:+ pretty MIN_PASSWORD_LEN +:+
      " characters")))
  else if bool_decide (MAX_PASSWORD_LEN < length bytes) then
    Err (Kirino (Validation ("password must be at most " +:+ pretty MAX_PASSWORD_LEN +:+
      " characters")))
  else if bool_decide (categories (utf8_chars bytes) < 3) then
    Err (Kirino (Validation
      "password must contain at least 3 of: uppercase, lowercase, digit, special character"))
  else Ok tt.
End Strength.

(** ** The generated password *)

Section GeneratorCorrect.
Variable draw : nat → nat → nat.
(** [random_range(0..n)] is below [n]. *)
Hypothesis draw_lt : ∀ k n, 0 < n → draw k n < n.

Lemma pick_in k pool : pool ≠ [] → ∃ c, pick draw k pool = Some c ∧ c ∈ pool.
Proof.
  intros Hne. unfold pick. destruct (lookup_lt_is_Some_2 pool (draw k (length pool))) as [c Hc].
  { apply draw_lt. by destruct pool; simpl; [|lia]. }
  exists c. split; [done|]. by eapply list_elem_of_lookup_2.
Qed.

Lemma first_picks_in k ps :
  Forall (λ pool, pool ≠ []) ps →
  ∃ cs, first_picks draw k ps = Some cs ∧ Forall2 (λ c pool, c ∈ pool) cs ps.
Proof.
  intros Hne. revert k. induction Hne as [|pool ps Hpool _ IH]; intros k; simpl.
  { exists []. by split. }
  destruct (pick_in k pool Hpool) as (c & -> & Hc). destruct (IH (S k)) as (cs & Hcs & Hall).
  exists (c :: cs). simpl. rewrite Hcs. split; [done|]. by constructor.
Qed.

Lemma fill_picks_in k n all chars :
  all ≠ [] →
  ∃ extra, fill_picks draw k n all chars = Some (chars ++ extra) ∧ length extra = n ∧
    Forall (λ c, c ∈ all) extra.
Proof.
  intros Hne. revert k chars. induction n as [|n IH]; intros k chars; simpl.
  { exists []. by rewrite app_nil_r. }
  destruct (pick_in k all Hne) as (c & -> & Hc). simpl.
  destruct (IH (S k) (chars ++ [c])) as (extra & -> & Hlen & Hall).
  exists (c :: extra). rewrite <- app_assoc. simpl. split_and!; [done|lia|by constructor].
Qed.

Lemma swap_perm i j l : i < length l → j < length l → ∃ l', swap i j l = Some l' ∧ l' ≡ₚ l.
Proof.
  intros [x Hx]%lookup_lt_is_Some_2 [y Hy]%lookup_lt_is_Some_2.
  exists (<[j := x]> (<[i := y]> l)). unfold swap. rewrite Hx. simpl. rewrite Hy.
  split; [done|]. by apply Permutation_insert_swap.
Qed.

Lemma shuffle_perm k i l : i < length l → ∃ l', shuffle draw k i l = Some l' ∧ l' ≡ₚ l.
Proof.
  revert k l. induction i as [|i IH]; intros k l Hi; cbn [shuffle]; [by eauto|].
  destruct (swap_perm (S i) (draw k (S (S i))) l) as (l1 & -> & Hl1); [lia| |].
  { pose proof (draw_lt k (S (S i))). lia. }
  cbn. destruct (IH (S k) l1) as (l2 & -> & Hl2); [rewrite Hl1; lia|].
  exists l2. split; [done|]. by rewrite Hl2.
Qed.

Definition in_pools (c : N) : Prop := c ∈ concat pools.

(** The generator never panics, and covers every pool. *)
Lemma generate_spec :
  ∃ pw, generate_temporary_password draw = Some pw ∧ length pw = TEMPORARY_PASSWORD_LEN ∧
    Forall in_pools pw ∧ Forall (λ pool, ∃ c, c ∈ pw ∧ c ∈ pool) pools.
Proof.
  unfold generate_temporary_password.
  destruct (first_picks_in 0 pools) as (cs & -> & Hcs); [by repeat constructor|].
  cbn [mbind option_bind].
  pose proof (Forall2_length _ _ _ Hcs) as Hlen. change (length pools) with 4 in *.
  destruct (fill_picks_in 4 (TEMPORARY_PASSWORD_LEN - length cs) (concat pools) cs)
    as (extra & -> & Hextra & Hin); [done|].
  cbn [mbind option_bind].
  destruct (shuffle_perm (4 + (TEMPORARY_PASSWORD_LEN - length cs)) (length (cs ++ extra) - 1)
              (cs ++ extra)) as (pw & -> & Hpw).
  { rewrite length_app, Hlen, Hextra, Hlen. unfold TEMPORARY_PASSWORD_LEN. lia. }
  exists pw. split; [done|]. split_and!.
  - rewrite Hpw, length_app, Hextra, Hlen. done.
  - rewrite Hpw, Forall_app. split; [|done].
    eapply Forall2_Forall_l; [exact Hcs|]. apply Forall_forall. intros pool Hpool c Hc.
    apply list_elem_of_In, in_concat. exists pool. by rewrite <- !list_elem_of_In.
  - apply Forall_forall. intros pool Hpool.
    apply list_elem_of_lookup_1 in Hpool as [i Hi].
    destruct (Forall2_lookup_r _ _ _ _ _ Hcs Hi) as (c & Hc & Hcp). exists c. split; [|done].
    rewrite Hpw, elem_of_app. left. by eapply list_elem_of_lookup_2.
Qed.
End GeneratorCorrect.

(** ASCII bytes are their own characters. *)
Lemma utf8_chars_ascii l : Forall (λ b, (b < 128)%N) l → utf8_chars l = l.
Proof.
  induction 1 as [|b l Hb _ IH]; simpl; [done|].
  assert ((b <? 128)%N = true) as -> by by apply N.ltb_lt. by rewrite IH.
Qed.

(** ** The age rule *)

Lemma age_days_ge s now max :
  (1 ≤ max ≤ u32_max)%Z →
  (max ≤ age_days s now ↔ changed_at s + max * nanos_per_day ≤ now)%Z.
Proof.
  intros Hmax. unfold age_days. set (e := (now - changed_at s)%Z).
  assert (Hquot : (max ≤ (e `quot` nanos_per_day) `max` 0 ↔ max * nanos_per_day ≤ e)%Z).
  { assert (Hd : (0 < nanos_per_day)%Z) by (unfold nanos_per_day; lia).
    destruct (Z.le_gt_cases 0 e) as [Hpos|Hneg].
    - rewrite Z.quot_div_nonneg by lia. pose proof (Z.div_pos e nanos_per_day Hpos Hd).
      rewrite Z.max_l by lia. split; intros Hle.
      + pose proof (Z.mul_div_le e nanos_per_day Hd). nia.
      + apply Z.div_le_lower_bound; lia.
    - pose proof (Z.quot_opp_l e nanos_per_day ltac:(lia)) as Hopp.
      pose proof (Z.quot_pos (- e) nanos_per_day ltac:(lia) Hd). lia. }
  destruct (Z.leb_spec ((e `quot` nanos_per_day) `max` 0) u32_max); unfold e in *; lia.
Qed.

(** ** Properties *)

(** A policy built by [from_config] never has a zero age.  Under it, a
    bootstrap password is refused for as long as the rule is on; a chosen
    one is accepted exactly until it is [max_age] whole days old, and once it
    is due it stays due. *)
Theorem password_rules en force max_age p at_ now :
  from_config en force max_age = Ok p → (∀ m, max_age = Some m → 0 ≤ m ≤ u32_max)%Z →
  (change_requirement p (state_initial at_) now = Some InitialPassword ↔
     en = true ∧ force = true) ∧
  (change_requirement p (state_rotated at_) now = None ↔
     en = false ∨ max_age = None ∨
     ∃ m, max_age = Some m ∧ (now < at_ + m * nanos_per_day)%Z) ∧
  (∀ s now', (now ≤ now')%Z → change_requirement p s now ≠ None →
     change_requirement p s now' ≠ None).
Proof.
  unfold from_config. case_bool_decide as Hzero; [done|]. intros [= <-] Hu32.
  assert (Hdue : ∀ s t m, max_age = Some m →
    ((m <=? age_days s t)%Z = true ↔ (changed_at s + m * nanos_per_day ≤ t)%Z)).
  { intros s t m Hm. rewrite Z.leb_le. apply age_days_ge. specialize (Hu32 m Hm).
    assert (m ≠ 0%Z) by congruence. lia. }
  unfold change_requirement. cbn [enabled Password.force_change_on_first_login Password.max_age_days].
  split_and!.
  - destruct en, force; simpl; try (split; [intros H|intros [??]]; try done);
      destruct max_age; try done; by destruct (_ <=? _)%Z.
  - rewrite andb_false_r. destruct en; simpl; [|split; auto].
    destruct max_age as [m|]; [|split; auto].
    specialize (Hdue (state_rotated at_) now m eq_refl). simpl in Hdue.
    destruct (m <=? age_days (state_rotated at_) now)%Z; split; try done.
    + intros [?|[?|(m' & [= <-] & Hlt)]]; [done|done|]. destruct Hdue as [Hd _].
      specialize (Hd eq_refl). lia.
    + intros _. right; right. exists m. split; [done|]. apply Z.nle_gt. rewrite <- Hdue. done.
  - intros s now' Hle. destruct en; simpl; [|done].
    destruct (force && is_initial s); simpl; [done|]. destruct max_age as [m|]; [|done].
    pose proof (Hdue s now m eq_refl) as H1. pose proof (Hdue s now' m eq_refl) as H2.
    destruct (m <=? age_days s now)%Z; [|done]. destruct (m <=? age_days s now')%Z; [done|].
    intros _. exfalso. destruct H1 as [H1 _]. specialize (H1 eq_refl).
    destruct H2 as [_ H2]. by specialize (H2 ltac:(lia)).
Qed.

(** A minted bootstrap password is accepted by the strength rule, whatever
    the random draws, and the account it is stored with must change it under
    the default policy. *)
Theorem bootstrap_password_accepted (draw : nat → nat → nat)
    (is_uppercase is_lowercase is_alphanumeric : N → bool) user now :
  (∀ k n, 0 < n → draw k n < n) →
  (∀ c, (c < 128)%N → is_uppercase c = ascii_upper c ∧ is_lowercase c = ascii_lower c ∧
     is_alphanumeric c = (ascii_upper c || ascii_lower c || ascii_digit c)) →
  ∃ b, bootstrap_credential draw user now = Some b ∧ length (password b) = TEMPORARY_PASSWORD_LEN ∧
    validate_password is_uppercase is_lowercase is_alphanumeric (password b) = Ok tt ∧
    ∀ later, change_requirement PasswordPolicy_default (bootstrap_state b) later
             = Some InitialPassword.
Proof.
  intros Hdraw Hascii. destruct (generate_spec draw Hdraw) as (pw & Hpw & Hlen & Hin & Hall).
  unfold bootstrap_credential. rewrite Hpw. eexists. split; [reflexivity|]. simpl.
  split_and!; [done| |done].
  assert (Hlow : Forall (λ b, (b < 128)%N) pw).
  { eapply Forall_impl; [exact Hin|]. intros c Hc. revert c Hc. unfold in_pools.
    apply Forall_forall. apply (bool_decide_eq_true_1 _). by vm_compute. }
  assert (Hhas : ∀ pool (f : N → bool), pool ∈ pools → Forall (λ c, f c = true ∧ (c < 128)%N) pool →
            ∃ c, c ∈ pw ∧ (c < 128)%N ∧ f c = true).
  { intros pool f Hpool Hf. rewrite Forall_forall in Hall. rewrite Forall_forall in Hf.
    destruct (Hall pool Hpool) as (c & Hc & Hcp). destruct (Hf c Hcp). eauto. }
  unfold validate_password. rewrite Hlen, utf8_chars_ascii by done.
  rewrite !bool_decide_eq_false_2; [done| |unfold TEMPORARY_PASSWORD_LEN, MAX_PASSWORD_LEN; lia
    |unfold TEMPORARY_PASSWORD_LEN, MIN_PASSWORD_LEN; lia].
  unfold categories.
  assert (existsb is_uppercase pw = true) as ->.
  { apply existsb_elem. destruct (Hhas TEMP_UPPER ascii_upper) as (c & ? & Hc & ?);
      [by repeat constructor|by apply (bool_decide_eq_true_1 _); vm_compute|].
    exists c. by rewrite (proj1 (Hascii c Hc)). }
  assert (existsb is_lowercase pw = true) as ->.
  { apply existsb_elem. destruct (Hhas TEMP_LOWER ascii_lower) as (c & ? & Hc & ?);
      [by repeat constructor|by apply (bool_decide_eq_true_1 _); vm_compute|].
    exists c. by rewrite (proj1 (proj2 (Hascii c Hc))). }
  assert (existsb ascii_digit pw = true) as ->.
  { apply existsb_elem. destruct (Hhas TEMP_DIGIT ascii_digit) as (c & ? & Hc & ?);
      [by repeat constructor|by apply (bool_decide_eq_true_1 _); vm_compute|]. by exists c. }
  simpl. destruct (existsb _ pw); simpl; lia.
Qed.

Lemma password_rules_witness :
  ∃ p, from_config true true (Some 90%Z) = Ok p ∧
    change_requirement p (state_rotated 0) (90 * nanos_per_day - 1) = None.
Proof.
  eexists. split; [reflexivity|].
  apply (password_rules true true (Some 90%Z) _ 0 (90 * nanos_per_day - 1)).
  - reflexivity.
  - intros m [= <-]. unfold u32_max. lia.
  - right; right. exists 90%Z. split; [done|lia].
Defined.

Lemma bootstrap_password_accepted_witness :
  ∃ b, bootstrap_credential (λ k n, k `mod` n) "admin" 0 = Some b ∧
    validate_password ascii_upper ascii_lower (λ c, ascii_upper c || ascii_lower c || ascii_digit c)
      (password b) = Ok tt.
Proof.
  destruct (bootstrap_password_accepted (λ k n, k `mod` n) ascii_upper ascii_lower
    (λ c, ascii_upper c || ascii_lower c || ascii_digit c) "admin" 0) as (b & Hb & _ & Hok & _).
  - intros k n Hn. apply Nat.mod_upper_bound. lia.
  - done.
  - exists b. exact (conj Hb Hok).
Defined.
