(* ===== verification/RateLimit.v ===== *)
(** * The login rate limiter: [LoginRateLimiter] of
    src/src/service/login/mod.rs and [PasswordLoginPolicy] of
    src/src/service/login/policy.rs

    [Instant]s are nanoseconds of a monotonic clock and a configured number
    of seconds is below [2^63], so that window and lockout add without
    overflow.  [str::trim] and [str::to_lowercase] rest on the Unicode
    tables: the key normalisation is the argument [normalize]. *)

From S2P Require Import Prelude Catalog.

(** ** Whether password login is offered *)

Inductive PasswordLoginPolicy := PolicyEnabled | PolicyDisabled.

Definition policy_is_enabled (p : PasswordLoginPolicy) : bool :=
  match p with
  | PolicyEnabled => true
  | PolicyDisabled => false
  end.

Definition policy_as_str (p : PasswordLoginPolicy) : string :=
  match p with
  | PolicyEnabled => "enabled"
  | PolicyDisabled => "disabled"
  end.

(** [to_ascii_lowercase] maps each character. *)
Fixpoint ascii_lowercase_str (s : string) : string :=
  match s with
  | EmptyString => EmptyString
  | String c s => String (Macro.to_ascii_lowercase c) (ascii_lowercase_str s)
  end.

Definition policy_parse (trim : string → string) (raw : string) : option PasswordLoginPolicy :=
  let s := ascii_lowercase_str (trim raw) in
  if decide (s ∈ ["enabled"; "on"; "1"; "true"]) then Some PolicyEnabled
  else if decide (s ∈ ["disabled"; "off"; "0"; "false"]) then Some PolicyDisabled
  else None.

(** ** The limiter *)

Definition RATE_LIMITER_MAX_ENTRIES : nat := 10 * 1000.

Record RateLimitEntry := {
  attempts : Z;
  window_start : Z;
}.

Record LoginRateLimiter := {
  max_attempts : Z;
  window_secs : Z;
  lockout_secs : Z;
  limiter_policy : PasswordLoginPolicy;
  entries : gmap string RateLimitEntry;
}.

Definition LoginRateLimiter_new (max window lockout : Z) : LoginRateLimiter := {|
  max_attempts := max;
  window_secs := window;
  lockout_secs := lockout;
  limiter_policy := PolicyEnabled;
  entries := ∅;
|}.

(** [with_policy], and [set_policy], which keeps the recorded state. *)
Definition with_policy (l : LoginRateLimiter) (p : PasswordLoginPolicy) : LoginRateLimiter := {|
  max_attempts := max_attempts l;
  window_secs := window_secs l;
  lockout_secs := lockout_secs l;
  limiter_policy := p;
  entries := entries l;
|}.

Definition with_entries (l : LoginRateLimiter) (es : gmap string RateLimitEntry)
    : LoginRateLimiter := {|
  max_attempts := max_attempts l;
  window_secs := window_secs l;
  lockout_secs := lockout_secs l;
  limiter_policy := limiter_policy l;
  entries := es;
|}.

Definition secs (n : Z) : Z := n * 10 ^ 9.
Definition window_duration (l : LoginRateLimiter) : Z := secs (window_secs l).
Definition total_window (l : LoginRateLimiter) : Z := secs (window_secs l + lockout_secs l).
(** [Instant::duration_since] saturates at zero. *)
Definition elapsed_since (start now : Z) : Z := ((now - start) `max` 0)%Z.

(** The purge at the cap. *)
Definition purge (l : LoginRateLimiter) (now : Z) : gmap string RateLimitEntry :=
  if bool_decide (RATE_LIMITER_MAX_ENTRIES ≤ size (entries l)) then
    filter (λ row : string * RateLimitEntry,
              (elapsed_since (window_start row.2) now ≤ total_window l)%Z) (entries l)
  else entries l.

(** What happens to one entry; [None] in place of an error leaves the entry
    as the first part has made it. *)
Definition should_reset (l : LoginRateLimiter) (e : RateLimitEntry) (now : Z) : bool :=
  let elapsed := elapsed_since (window_start e) now in
  (total_window l <? elapsed)%Z ||
  ((window_duration l <? elapsed)%Z && (attempts e <? max_attempts l)%Z).

Definition count_attempt (l : LoginRateLimiter) (e : RateLimitEntry) (now : Z)
    : result unit * RateLimitEntry :=
  let elapsed := elapsed_since (window_start e) now in
  let e := if should_reset l e now then {| attempts := 0; window_start := now |} else e in
  if (max_attempts l <=? attempts e)%Z then
    (* [total_window.saturating_sub(elapsed)] *)
    let remaining := ((total_window l - elapsed) `max` 0)%Z in
    if (0 <? remaining)%Z then
      (Err (Kirino (Validation ("too many login attempts, try again in " +:+
         pretty (remaining / 10 ^ 9)%Z +:+ " seconds"))), e)
    else (Ok tt, {| attempts := 1; window_start := now |})
  else (Ok tt, {| attempts := attempts e + 1; window_start := window_start e |}).

Section Limiter.
(** [key.trim().to_lowercase()] *)
Variable normalize : string → string.

Definition check_and_record_failure (l : LoginRateLimiter) (key : string) (now : Z)
    : result unit * LoginRateLimiter :=
  if negb (policy_is_enabled (limiter_policy l)) then (Ok tt, l)
  else
    let key := normalize key in
    let es := purge l now in
    let e := default {| attempts := 0; window_start := now |} (es !! key) in
    let r := count_attempt l e now in
    (r.1, with_entries l (<[key := r.2]> es)).

Definition reset (l : LoginRateLimiter) (key : string) : LoginRateLimiter :=
  if negb (policy_is_enabled (limiter_policy l)) then l
  else with_entries l (delete (normalize key) (entries l)).

(** Configured with at least one attempt and a window. *)
Definition configured (l : LoginRateLimiter) : Prop :=
  (1 ≤ max_attempts l)%Z ∧ (1 ≤ window_secs l)%Z ∧ (0 ≤ lockout_secs l)%Z ∧
  limiter_policy l = PolicyEnabled.

Lemma windows_ordered l : configured l →
  (0 < window_duration l)%Z ∧ (window_duration l ≤ total_window l)%Z.
Proof. unfold configured, window_duration, total_window, secs. lia. Qed.

(** *** One attempt *)

(** The entry is exhausted and its lockout has not run out. *)
Definition locked (l : LoginRateLimiter) (e : RateLimitEntry) (now : Z) : Prop :=
  (max_attempts l ≤ attempts e)%Z ∧ (elapsed_since (window_start e) now < total_window l)%Z.

Lemma count_attempt_locked l e now :
  configured l → locked l e now →
  (∃ err, (count_attempt l e now).1 = Err err) ∧ (count_attempt l e now).2 = e.
Proof.
  intros Hl [Hatt Hel]. pose proof (windows_ordered l Hl) as [_ Hw].
  unfold count_attempt, should_reset.
  destruct (Z.ltb_spec (total_window l) (elapsed_since (window_start e) now)); [lia|].
  destruct (Z.ltb_spec (attempts e) (max_attempts l)); [lia|]. rewrite andb_false_r. simpl.
  destruct (Z.leb_spec (max_attempts l) (attempts e)); [|lia].
  destruct (Z.ltb_spec 0 ((total_window l - elapsed_since (window_start e) now) `max` 0)%Z);
    [|lia]. simpl. eauto.
Qed.

Lemma count_attempt_open l e now :
  configured l → ¬ locked l e now →
  (count_attempt l e now).1 = Ok tt ∧
  ((count_attempt l e now).2 = {| attempts := 1; window_start := now |} ∧
     (window_duration l ≤ elapsed_since (window_start e) now)%Z ∨
   (attempts e < max_attempts l)%Z ∧
     (count_attempt l e now).2 = {| attempts := attempts e + 1; window_start := window_start e |}).
Proof.
  intros Hl Hopen. pose proof (windows_ordered l Hl) as [_ Hw]. destruct Hl as (Hmax & _).
  unfold locked in Hopen. unfold count_attempt, should_reset.
  destruct (Z.ltb_spec (total_window l) (elapsed_since (window_start e) now)); simpl.
  { destruct (Z.leb_spec (max_attempts l) 0); [lia|]. simpl. split; [done|]. left. split; [done|lia]. }
  destruct (Z.ltb_spec (attempts e) (max_attempts l)) as [Hlt|Hge].
  - destruct (Z.ltb_spec (window_duration l) (elapsed_since (window_start e) now)); simpl.
    + destruct (Z.leb_spec (max_attempts l) 0); [lia|]. simpl. split; [done|]. left.
      split; [done|lia].
    + destruct (Z.leb_spec (max_attempts l) (attempts e)); [lia|]. simpl. split; [done|]. by right.
  - rewrite andb_false_r. simpl.
    destruct (Z.leb_spec (max_attempts l) (attempts e)); [|lia].
    destruct (Z.ltb_spec 0 ((total_window l - elapsed_since (window_start e) now) `max` 0)%Z).
    + exfalso. apply Hopen. lia.
    + simpl. split; [done|]. left. split; [done|]. lia.
Qed.

(** *** The purge is invisible *)

Lemma purge_lookup l now k e :
  purge l now !! k = Some e → entries l !! k = Some e.
Proof.
  unfold purge. case_bool_decide; [|done]. by intros [? _]%map_lookup_filter_Some.
Qed.

(** An entry that the purge drops is one that would be reset. *)
Lemma purge_dropped l now k e :
  configured l → entries l !! k = Some e → purge l now !! k = None →
  ¬ locked l e now ∧ (window_duration l ≤ elapsed_since (window_start e) now)%Z.
Proof.
  intros Hl He. pose proof (windows_ordered l Hl) as [_ Hw]. unfold purge.
  case_bool_decide; [|congruence]. rewrite map_lookup_filter_None. simpl.
  intros [?|Hdrop]; [congruence|]. specialize (Hdrop e He). unfold locked. lia.
Qed.

(** *** One call *)

(** The call on one key: refused while the stored entry is locked, accepted
    otherwise; every other key is kept or, when idle, dropped. *)
Lemma call_same_key l key now :
  configured l →
  let r := check_and_record_failure l key now in
  (r.1 = Ok tt ↔ ∀ e, entries l !! normalize key = Some e → ¬ locked l e now) ∧
  (r.1 ≠ Ok tt → entries r.2 !! normalize key = entries l !! normalize key) ∧
  (r.1 = Ok tt →
     (∃ e, entries l !! normalize key = Some e ∧ (attempts e < max_attempts l)%Z ∧
        entries r.2 !! normalize key =
          Some {| attempts := attempts e + 1; window_start := window_start e |}) ∨
     (entries r.2 !! normalize key = Some {| attempts := 1; window_start := now |} ∧
      ∀ e, entries l !! normalize key = Some e →
        (window_duration l ≤ elapsed_since (window_start e) now)%Z)).
Proof.
  intros Hl. unfold check_and_record_failure. destruct Hl as (? & ? & ? & Hpol).
  rewrite Hpol. simpl. assert (Hl : configured l) by by split_and!.
  assert (Hfresh : ¬ locked l {| attempts := 0; window_start := now |} now).
  { unfold locked. simpl. lia. }
  assert (Hnew : count_attempt l {| attempts := 0; window_start := now |} now =
                   (Ok tt, {| attempts := 1; window_start := now |})).
  { destruct (count_attempt_open l _ now Hl Hfresh) as [Hr1 [[Hr2 _]|[_ Hr2]]];
      rewrite (surjective_pairing (count_attempt _ _ _)), Hr1, Hr2; done. }
  rewrite lookup_insert_eq.
  destruct (purge l now !! normalize key) as [e|] eqn:He; simpl.
  - apply purge_lookup in He as ->.
    destruct (decide (max_attempts l ≤ attempts e ∧
                      elapsed_since (window_start e) now < total_window l)%Z) as [Hlock|Hopen].
    + destruct (count_attempt_locked l e now Hl Hlock) as [[err ->] ->].
      split_and!; [|done|done]. split; [done|]. intros Hno. by destruct (Hno e).
    + destruct (count_attempt_open l e now Hl Hopen) as [-> Hcase].
      split_and!; [|done|].
      * split; [|done]. by intros _ ? [= <-].
      * intros _. destruct Hcase as [[-> Hw]|[Hlt ->]]; [right|left; eauto].
        split; [done|]. by intros ? [= <-].
  - rewrite Hnew. simpl. split_and!; [|done|].
    + split; [|done]. intros _ e Hsome. by eapply purge_dropped.
    + intros _. right. split; [done|]. intros e Hsome. by eapply purge_dropped.
Qed.

Lemma call_other_key l key now k :
  configured l → k ≠ normalize key →
  let l' := (check_and_record_failure l key now).2 in
  entries l' !! k = entries l !! k ∨
  (entries l' !! k = None ∧
   ∀ e, entries l !! k = Some e → (window_duration l ≤ elapsed_since (window_start e) now)%Z).
Proof.
  intros Hl Hk. unfold check_and_record_failure. pose proof Hl as (_ & _ & _ & Hpol).
  rewrite Hpol. simpl. rewrite lookup_insert_ne by done.
  destruct (purge l now !! k) as [e|] eqn:He; [left; symmetry; by apply purge_lookup in He|].
  right. split; [done|]. intros e Hsome. by eapply purge_dropped.
Qed.

Lemma call_keeps_config l key now :
  configured l → configured (check_and_record_failure l key now).2 ∧
  max_attempts (check_and_record_failure l key now).2 = max_attempts l ∧
  window_duration (check_and_record_failure l key now).2 = window_duration l.
Proof. unfold check_and_record_failure. intros (? & ? & ? & Hpol). by rewrite Hpol. Qed.

Lemma reset_other_key l key k :
  configured l → k ≠ normalize key →
  configured (reset l key) ∧ entries (reset l key) !! k = entries l !! k.
Proof.
  unfold reset. intros (? & ? & ? & Hpol) Hk. rewrite Hpol. simpl.
  by rewrite lookup_delete_ne.
Qed.

(** *** Histories of one key *)

(** From a limiter with no entry for [k] at [t0]: any calls and any resets
    of other keys; [n] attempts on [k] were accepted, the last event at [t]. *)
Inductive history (k : string) (t0 : Z) : LoginRateLimiter → Z → Z → Prop :=
  | history_start l : configured l → entries l !! k = None → history k t0 l t0 0
  | history_attempt l t n key now :
      history k t0 l t n → (t ≤ now)%Z →
      let r := check_and_record_failure l key now in
      history k t0 r.2 now
        (if decide (normalize key = k ∧ r.1 = Ok tt) then n + 1 else n)%Z
  | history_reset l t n key :
      history k t0 l t n → normalize key ≠ k → history k t0 (reset l key) t n.

(** [w] windows of [k] are over; the current one has taken [attempts]. *)
Definition accounted (k : string) (t0 : Z) (l : LoginRateLimiter) (t n : Z) : Prop :=
  ∃ w, (0 ≤ w)%Z ∧
    match entries l !! k with
    | None => (n ≤ max_attempts l * w ∧ t0 + w * window_duration l ≤ t)%Z
    | Some e =>
        (n ≤ max_attempts l * w + attempts e ∧ attempts e ≤ max_attempts l ∧
         t0 + w * window_duration l ≤ window_start e ≤ t)%Z
    end.

Lemma history_accounted k t0 l t n :
  history k t0 l t n → configured l ∧ accounted k t0 l t n.
Proof.
  induction 1 as [l Hl Hnone|l t n key now _ [Hl (w & Hw & Hacc)] Hle r|l t n key _ [Hl (w & Hw & Hacc)] Hk].
  - split; [done|]. exists 0%Z. rewrite Hnone. lia.
  - destruct (call_keeps_config l key now Hl) as (Hl' & Hmax & Hdur).
    pose proof (windows_ordered l Hl) as [Hpos _]. pose proof (proj1 Hl) as Hone.
    fold r in Hl', Hmax, Hdur. split; [done|].
    destruct (decide (normalize key = k)) as [Hkey|Hkey].
    2: { rewrite decide_False by naive_solver.
      destruct (call_other_key l key now k Hl) as [Hsame|[Hnone Hold]]; [done| |].
      - exists w. split; [done|]. fold r in Hsame. rewrite Hsame, Hmax, Hdur.
        destruct (entries l !! k); lia.
      - fold r in Hnone. unfold accounted. rewrite Hnone, Hmax, Hdur.
        destruct (entries l !! k) as [e|]; [|by exists w; lia].
        specialize (Hold e eq_refl). unfold elapsed_since in Hold. exists (w + 1)%Z. nia. }
    destruct (call_same_key l key now Hl) as (_ & Hrefused & Haccepted). fold r in Hrefused, Haccepted.
    rewrite Hkey in *. destruct (decide (r.1 = Ok tt)) as [Hok|Hno].
    + rewrite decide_True by done. unfold accounted. rewrite Hmax, Hdur.
      destruct (Haccepted Hok) as [(e & He & Hlt & ->)|[-> Hold]].
      * rewrite He in Hacc. exists w. simpl. lia.
      * destruct (entries l !! k) as [e|].
        -- specialize (Hold e eq_refl). unfold elapsed_since in Hold. exists (w + 1)%Z. simpl. nia.
        -- exists w. simpl. lia.
    + rewrite decide_False by naive_solver. unfold accounted. rewrite Hmax, Hdur, (Hrefused Hno).
      exists w. split; [done|]. destruct (entries l !! k); lia.
  - destruct (reset_other_key l key k Hl ltac:(congruence)) as [Hl' Hsame]. split; [done|].
    exists w. split; [done|]. rewrite Hsame. unfold reset.
    destruct (policy_is_enabled (limiter_policy l)); done.
Qed.
End Limiter.

(** ** Properties *)

(** An attempt is refused exactly while the entry of its normalised key
    has used up its attempts and its window and lockout have not both run
    out; a refusal does not extend the lockout.  Purging idle entries at the
    cap never changes an answer. *)
Theorem lockout_spec normalize l key now :
  configured l →
  let r := check_and_record_failure normalize l key now in
  (r.1 = Ok tt ↔ ∀ e, entries l !! normalize key = Some e → ¬ locked l e now) ∧
  (r.1 ≠ Ok tt → entries r.2 !! normalize key = entries l !! normalize key).
Proof. intros Hl r. destruct (call_same_key normalize l key now Hl) as (H1 & H2 & _). by split. Qed.

(** C40: the guessing budget: whatever other keys do, and unless the key is
    reset, at most [max_attempts] attempts are accepted per window begun, so
    [max_attempts * (1 + T / window)] in a time [T]. *)
Theorem guess_budget normalize k t0 l t n :
  history normalize k t0 l t n →
  (n ≤ max_attempts l * (1 + (t - t0) / window_duration l))%Z.
Proof.
  intros Hh. destruct (history_accounted normalize k t0 l t n Hh) as [Hl (w & Hw & Hacc)].
  destruct (windows_ordered l Hl) as [Hpos _]. destruct Hl as (Hone & _).
  assert (Hbound : (w * window_duration l ≤ t - t0)%Z).
  { destruct (entries l !! k); lia. }
  assert (Hq : (w ≤ (t - t0) / window_duration l)%Z) by (apply Z.div_le_lower_bound; lia).
  destruct (entries l !! k) as [e|]; nia.
Qed.

(** Five attempts a minute, then five minutes of lockout. *)
Module Gate.
Definition gate0 : LoginRateLimiter := LoginRateLimiter_new 5 60 300.
Definition normalize (s : string) : string := ascii_lowercase_str s.
Definition attempt (l : LoginRateLimiter) (now : Z) : LoginRateLimiter :=
  (check_and_record_failure normalize l "Admin" now).2.
Definition gate5 : LoginRateLimiter := attempt (attempt (attempt (attempt (attempt gate0 1) 2) 3) 4) 5.

Lemma gate0_configured : configured gate0.
Proof. by repeat split. Qed.
End Gate.

Lemma lockout_spec_witness :
  (check_and_record_failure Gate.normalize Gate.gate5 "ADMIN" (secs 300)).1 ≠ Ok tt.
Proof.
  assert (Hconf : configured Gate.gate5) by by repeat split.
  intros Hok. apply (lockout_spec Gate.normalize Gate.gate5 "ADMIN" (secs 300) Hconf)
    with (e := {| attempts := 5; window_start := 1 |}) in Hok.
  - apply Hok. split; vm_compute; done.
  - by vm_compute.
Defined.

Lemma guess_budget_witness : (1 ≤ 5 * (1 + (1 - 1) / secs 60))%Z.
Proof.
  assert (Hh : history Gate.normalize "admin" 1 (Gate.attempt Gate.gate0 1) 1 1).
  { apply (history_attempt Gate.normalize "admin" 1 Gate.gate0 1 0 "Admin" 1); [|done].
    apply history_start; [apply Gate.gate0_configured|done]. }
  apply (guess_budget Gate.normalize "admin" 1 (Gate.attempt Gate.gate0 1) 1 1 Hh).
Defined.
