(* ===== verification/Replay.v ===== *)
(** * Replay protection: src/packages/session/src/revocation.rs and one_shot.rs

    - [RefreshRevocationStore]: which refresh tokens have been rotated;
    - [OneShotStore]: which token ids have been used.

    Unix seconds are integers; readings of the clock are arguments.  Each
    store is one lock around one map, so an operation is one step. *)

From S2P Require Import Prelude.

(** ** Rotated refresh tokens *)

Definition REVOCATION_MAX_ENTRIES : nat := 10 * 1000.
Definition VERIFY_LEEWAY_SECS : Z := 60.

Record RefreshRevocationStore := {
  refresh_ttl_secs : Z;
  revoked : gmap string Z;
}.

Definition RefreshRevocationStore_new (ttl : Z) : RefreshRevocationStore := {|
  refresh_ttl_secs := ttl;
  revoked := ∅;
|}.

Definition with_revoked (st : RefreshRevocationStore) (m : gmap string Z)
    : RefreshRevocationStore := {|
  refresh_ttl_secs := refresh_ttl_secs st;
  revoked := m;
|}.

Definition record_entry (entries : gmap string Z) (session_id : string) (now window : Z)
    : gmap string Z :=
  let entries := <[session_id := now]> entries in
  if bool_decide (REVOCATION_MAX_ENTRIES < size entries) then
    let cutoff := (now - window)%Z in
    filter (λ row : string * Z, (cutoff ≤ row.2)%Z) entries
  else entries.

Definition window_secs (st : RefreshRevocationStore) : Z :=
  refresh_ttl_secs st + VERIFY_LEEWAY_SECS.

Definition revoke (st : RefreshRevocationStore) (session_id : string) (now : Z)
    : RefreshRevocationStore :=
  with_revoked st (record_entry (revoked st) session_id now (window_secs st)).

Definition check_and_revoke (st : RefreshRevocationStore) (session_id : string) (now : Z)
    : bool * RefreshRevocationStore :=
  let window := window_secs st in
  match revoked st !! session_id with
  | Some ts =>
      if (now <=? ts + window)%Z then (false, st)
      else (true, with_revoked st (record_entry (revoked st) session_id now window))
  | None => (true, with_revoked st (record_entry (revoked st) session_id now window))
  end.

Definition is_revoked (st : RefreshRevocationStore) (session_id : string) (now : Z) : bool :=
  match revoked st !! session_id with
  | Some ts => (now <=? ts + window_secs st)%Z
  | None => false
  end.

Definition cleanup (st : RefreshRevocationStore) (now : Z) : RefreshRevocationStore :=
  with_revoked st
    (filter (λ row : string * Z, (now ≤ row.2 + window_secs st)%Z) (revoked st)).

(** *** Histories *)

(** Any calls on one store with a clock that does not go back; [uses sid]
    lists the instants at which [sid] passed [check_and_revoke], latest
    first. *)
Inductive rotations : RefreshRevocationStore → Z → (string → list Z) → Prop :=
  | rotations_new ttl t : (0 ≤ ttl)%Z → rotations (RefreshRevocationStore_new ttl) t (λ _, [])
  | rotations_check st t uses sid now :
      rotations st t uses → (t ≤ now)%Z →
      let r := check_and_revoke st sid now in
      rotations r.2 now (λ s, if decide (s = sid ∧ r.1 = true) then now :: uses s else uses s)
  | rotations_revoke st t uses sid now :
      rotations st t uses → (t ≤ now)%Z → rotations (revoke st sid now) now uses
  | rotations_cleanup st t uses now :
      rotations st t uses → (t ≤ now)%Z → rotations (cleanup st now) now uses.

(** The last use of a session id is remembered for a whole window: an entry
    at least as recent is stored, or the window is over. *)
Definition remembered (st : RefreshRevocationStore) (t : Z) (uses : string → list Z) : Prop :=
  (0 ≤ refresh_ttl_secs st)%Z ∧
  ∀ sid last, head (uses sid) = Some last →
    (last ≤ t)%Z ∧
    ((last + window_secs st < t)%Z ∨ ∃ ts, revoked st !! sid = Some ts ∧ (last ≤ ts)%Z).

Lemma record_entry_lookup m sid now window s :
  (0 ≤ window)%Z →
  (s = sid ∧ record_entry m sid now window !! s = Some now) ∨
  (s ≠ sid ∧ (record_entry m sid now window !! s = m !! s ∨
              record_entry m sid now window !! s = None ∧
              ∀ ts, m !! s = Some ts → (ts + window < now)%Z)).
Proof.
  intros Hw. unfold record_entry. destruct (decide (s = sid)) as [->|Hne]; [left|right];
    (split; [done|]); case_bool_decide.
  - apply map_lookup_filter_Some. rewrite lookup_insert_eq. split; [done|]. simpl. lia.
  - by rewrite lookup_insert_eq.
  - destruct (m !! s) as [ts|] eqn:Hs.
    + destruct (decide (now - window ≤ ts)%Z) as [Hkeep|Hdrop].
      * left. apply map_lookup_filter_Some. by rewrite lookup_insert_ne.
      * right. split; [|intros ? [= <-]; lia]. apply map_lookup_filter_None. right.
        intros x Hx. rewrite lookup_insert_ne in Hx by done. simpl. by simplify_eq.
    + left. apply map_lookup_filter_None. left. by rewrite lookup_insert_ne.
  - left. by rewrite lookup_insert_ne.
Qed.

(** Recording a session id keeps what is remembered of the others. *)
Lemma remembered_record st t uses sid now :
  remembered st t uses → (t ≤ now)%Z →
  remembered (with_revoked st (record_entry (revoked st) sid now (window_secs st))) now uses.
Proof.
  intros [Httl Hrem] Hle. split; [done|]. intros s last Hlast.
  assert (Hw : (0 ≤ window_secs st)%Z) by (unfold window_secs, VERIFY_LEEWAY_SECS; lia).
  destruct (Hrem s last Hlast) as [Hl Hcase]. split; [lia|].
  change (window_secs (with_revoked _ _)) with (window_secs st). cbn [revoked with_revoked].
  destruct (record_entry_lookup (revoked st) sid now (window_secs st) s Hw)
    as [[-> Hs]|[Hne [Hs|[Hs Hold]]]]; rewrite Hs.
  - right. exists now. split; [done|lia].
  - destruct Hcase as [?|?]; [left; lia|by right].
  - destruct Hcase as [?|(ts & Hts & ?)]; [left; lia|]. left. specialize (Hold ts Hts). lia.
Qed.

Lemma remembered_use st now uses sid :
  remembered st now uses → (∃ ts, revoked st !! sid = Some ts ∧ (now ≤ ts)%Z) →
  remembered st now (λ s, if decide (s = sid ∧ true = true) then now :: uses s else uses s).
Proof.
  intros [Httl Hrem] Hsid. split; [done|]. intros s last. case_decide as Hs; [|apply Hrem].
  destruct Hs as [-> _]. intros [= <-]. split; [done|]. by right.
Qed.

Lemma rotations_remembered st t uses : rotations st t uses → remembered st t uses.
Proof.
  induction 1 as [ttl t Httl|st t uses sid now _ IH Hle|st t uses sid now _ IH Hle
    |st t uses now _ IH Hle].
  - split; [done|]. by intros ? ?.
  - assert (Hlater : remembered st now uses).
    { destruct IH as [Httl Hrem]. split; [done|]. intros s last Hlast.
      destruct (Hrem s last Hlast) as [? [?|?]]; (split; [lia|]); [left; lia|by right]. }
    assert (Hrec : remembered (with_revoked st (record_entry (revoked st) sid now (window_secs st)))
              now (λ s, if decide (s = sid ∧ true = true) then now :: uses s else uses s)).
    { apply remembered_use; [by eapply remembered_record|]. exists now. split; [|done].
      assert (Hw : (0 ≤ window_secs st)%Z).
      { destruct IH. unfold window_secs, VERIFY_LEEWAY_SECS. lia. }
      by destruct (record_entry_lookup (revoked st) sid now (window_secs st) sid Hw)
        as [[_ ?]|[? _]]. }
    subst r. unfold check_and_revoke. destruct (revoked st !! sid) as [ts|]; [|exact Hrec].
    destruct (now <=? ts + window_secs st)%Z; [|exact Hrec].
    destruct Hlater as [Httl Hrem]. split; [done|]. intros s last.
    rewrite decide_False by by intros [_ ?]. apply Hrem.
  - by eapply remembered_record.
  - destruct IH as [Httl Hrem]. split; [done|]. intros s last Hlast.
    destruct (Hrem s last Hlast) as [Hl Hcase]. split; [lia|].
    change (window_secs (cleanup st now)) with (window_secs st).
    destruct Hcase as [?|(ts & Hts & Hle')]; [left; lia|].
    destruct (decide (now ≤ ts + window_secs st)%Z) as [Hkeep|Hdrop]; [right|left; lia].
    exists ts. split; [|done]. simpl. by apply map_lookup_filter_Some.
Qed.

(** ** One-shot token ids *)

Definition DEFAULT_MAX_JTIS : nat := Z.to_nat 1000000.
Definition PRUNE_INTERVAL_SECS : Z := 60.

(** [poisoned]: a thread panicked while it held the lock. *)
Record OneShotStore := {
  used : gmap string Z;
  last_prune : Z;
  max_jtis : nat;
  poisoned : bool;
}.

Definition with_max_jtis (n : nat) : OneShotStore := {|
  used := ∅;
  last_prune := 0;
  max_jtis := n `max` 1;
  poisoned := false;
|}.
Definition OneShotStore_new : OneShotStore := with_max_jtis DEFAULT_MAX_JTIS.

(** [map.retain(|_, exp| *exp > now)] *)
Definition unexpired (m : gmap string Z) (now : Z) : gmap string Z :=
  filter (λ row : string * Z, (now < row.2)%Z) m.

Definition with_used (s : OneShotStore) (m : gmap string Z) : OneShotStore := {|
  used := m; last_prune := last_prune s; max_jtis := max_jtis s; poisoned := poisoned s |}.

(** The map's lock is held: the compare-exchange cannot lose. *)
Definition maybe_prune (s : OneShotStore) (now : Z) : OneShotStore :=
  if (now - last_prune s <? PRUNE_INTERVAL_SECS)%Z then s
  else {| used := unexpired (used s) now; last_prune := now;
          max_jtis := max_jtis s; poisoned := poisoned s |}.

(** [true] is "replay". *)
Definition check_and_mark (s : OneShotStore) (jti : string) (expiry now : Z)
    : bool * OneShotStore :=
  if poisoned s then (true, s)
  else
    let s := maybe_prune s now in
    let mark := λ s : OneShotStore,
      (bool_decide (is_Some (used s !! jti)), with_used s (<[jti := expiry]> (used s))) in
    if bool_decide (max_jtis s ≤ size (used s)) then
      let s := with_used s (unexpired (used s) now) in
      if bool_decide (max_jtis s ≤ size (used s)) then (true, s)
      else mark s
    else mark s.

(** [self.used.lock().map(|m| m.len()).unwrap_or(0)] *)
Definition one_shot_len (s : OneShotStore) : nat :=
  if poisoned s then 0 else size (used s).
Definition one_shot_is_empty (s : OneShotStore) : bool := bool_decide (one_shot_len s = 0).

(** A purge at [now] keeps an id that has not expired. *)
Lemma unexpired_keeps m now jti e :
  (now < e)%Z → m !! jti = Some e → unexpired m now !! jti = Some e.
Proof. intros. unfold unexpired. by apply map_lookup_filter_Some. Qed.

Lemma maybe_prune_keeps s now jti e :
  (now < e)%Z → used s !! jti = Some e → used (maybe_prune s now) !! jti = Some e.
Proof. unfold maybe_prune. intros. case_match; [done|]. by apply unexpired_keeps. Qed.

(** A marked, unexpired id stays marked, and is answered "replay". *)
Lemma check_and_mark_keeps s jti e other exp now :
  (now < e)%Z → used s !! jti = Some e → (other = jti → exp = e) →
  used (check_and_mark s other exp now).2 !! jti = Some e ∧
  (other = jti → (check_and_mark s other exp now).1 = true).
Proof.
  intros Hlt Hjti Hsame. unfold check_and_mark. destruct (poisoned s); [done|].
  pose proof (maybe_prune_keeps s now jti e Hlt Hjti) as Hp.
  pose proof (unexpired_keeps _ now jti e Hlt Hp) as Hu.
  assert (Hmark : ∀ m : gmap string Z, m !! jti = Some e → <[other := exp]> m !! jti = Some e ∧
            (other = jti → bool_decide (is_Some (m !! other)) = true)).
  { intros m Hm. split.
    - destruct (decide (other = jti)) as [Heq|]; [|by rewrite lookup_insert_ne].
      rewrite (Hsame Heq), Heq. by rewrite lookup_insert_eq.
    - intros ->. apply bool_decide_eq_true_2. by exists e. }
  case_bool_decide; [case_bool_decide|]; simpl; [by split|..]; by apply Hmark.
Qed.

(** An accepted id is marked with its expiry. *)
Lemma check_and_mark_marks s jti e now :
  (check_and_mark s jti e now).1 = false → used (check_and_mark s jti e now).2 !! jti = Some e.
Proof.
  unfold check_and_mark. destruct (poisoned s); [done|].
  case_bool_decide; [case_bool_decide|]; simpl; try done; intros _; by rewrite lookup_insert_eq.
Qed.

(** *** Histories *)

(** Calls with a clock that does not go back, the id [jti] always presented
    with the expiry [e]; the flag tells whether it has been accepted. *)
Inductive one_shot_run (jti : string) (e : Z) : OneShotStore → Z → bool → Prop :=
  | one_shot_start s t : one_shot_run jti e s t false
  | one_shot_call s t accepted other exp now :
      one_shot_run jti e s t accepted → (t ≤ now)%Z → (other = jti → exp = e) →
      let r := check_and_mark s other exp now in
      one_shot_run jti e r.2 now
        (accepted || (bool_decide (other = jti) && negb r.1)).

Lemma one_shot_marked jti e s t accepted :
  one_shot_run jti e s t accepted → accepted = true → (t < e)%Z → used s !! jti = Some e.
Proof.
  induction 1 as [s t|s t accepted other exp now Hrun IH Hle Hsame r]; [done|].
  intros Hacc Hlt. subst r. destruct accepted.
  - apply check_and_mark_keeps; [done|apply IH; [done|lia]|done].
  - simpl in Hacc. apply andb_true_iff in Hacc as [->%bool_decide_eq_true Hno%negb_true_iff].
    rewrite (Hsame eq_refl) in *. by apply check_and_mark_marks.
Qed.

(** ** Properties *)

(** In any history of one revocation store, rotations of one session id
    are more than a rejection window (refresh lifetime plus verify leeway)
    apart, prunes and cleanups included: a check inside the window of an
    earlier use is refused. *)
Theorem refresh_reuse_is_detected st t uses sid last now :
  rotations st t uses → head (uses sid) = Some last → (t ≤ now)%Z →
  (now ≤ last + window_secs st)%Z → (check_and_revoke st sid now).1 = false.
Proof.
  intros Hrun Hlast Hle Hwin. destruct (rotations_remembered st t uses Hrun) as [_ Hrem].
  destruct (Hrem sid last Hlast) as [Hl [?|(ts & Hts & Hle')]]; [lia|].
  unfold check_and_revoke. rewrite Hts.
  assert ((now <=? ts + window_secs st)%Z = true) as -> by (apply Z.leb_le; lia). done.
Qed.

(** A one-shot id that was accepted is refused until its expiry, whatever
    other ids, purges and the ceiling do; at its expiry a purge forgets it,
    and the same id is accepted again. *)
Theorem one_shot_rejects_replays jti e s t now :
  one_shot_run jti e s t true → (t ≤ now)%Z →
  ((now < e)%Z → (check_and_mark s jti e now).1 = true) ∧
  (used s !! jti = Some e → (e ≤ now)%Z → (PRUNE_INTERVAL_SECS ≤ now - last_prune s)%Z →
   poisoned s = false → size (unexpired (used s) now) < max_jtis s →
   (check_and_mark s jti e now).1 = false).
Proof.
  intros Hrun Hle. split.
  - intros Hlt. assert (Hm : used s !! jti = Some e).
    { apply (one_shot_marked jti e s t true Hrun eq_refl). lia. }
    by apply (check_and_mark_keeps s jti e jti e now Hlt Hm).
  - intros Hm Hexp Hint Hpois Hroom. unfold check_and_mark, maybe_prune. rewrite Hpois.
    assert ((now - last_prune s <? PRUNE_INTERVAL_SECS)%Z = false) as -> by (apply Z.ltb_ge; lia).
    simpl. rewrite bool_decide_eq_false_2 by lia. simpl. apply bool_decide_eq_false_2.
    unfold unexpired. intros [x Hx]. apply map_lookup_filter_Some in Hx as [Hx Hlt].
    simpl in Hlt. simplify_eq. lia.
Qed.

(** A store for tokens of ten minutes, and a rotation at [100]. *)
Module Rotation.
Definition store0 : RefreshRevocationStore := RefreshRevocationStore_new 600.
Definition store1 : RefreshRevocationStore := (check_and_revoke store0 "sid-1" 100).2.
Definition shots0 : OneShotStore := with_max_jtis 8.
Definition shots1 : OneShotStore := (check_and_mark shots0 "jti-1" 130 100).2.
End Rotation.

Lemma refresh_reuse_is_detected_witness :
  (check_and_revoke Rotation.store1 "sid-1" 760).1 = false.
Proof.
  apply (refresh_reuse_is_detected Rotation.store1 100
    (λ s, if decide (s = "sid-1" ∧ true = true) then [100%Z] else []) "sid-1" 100 760).
  - apply (rotations_check Rotation.store0 0 (λ _, []) "sid-1" 100); [by constructor|done].
  - reflexivity.
  - done.
  - done.
Defined.

Lemma one_shot_rejects_replays_witness :
  (check_and_mark Rotation.shots1 "jti-1" 130 129).1 = true ∧
  (check_and_mark Rotation.shots1 "jti-1" 130 160).1 = false.
Proof.
  assert (Hrun : one_shot_run "jti-1" 130 Rotation.shots1 100 true).
  { apply (one_shot_call "jti-1" 130 Rotation.shots0 100 false "jti-1" 130 100); [|done..].
    apply one_shot_start. }
  split.
  - by apply (one_shot_rejects_replays "jti-1" 130 Rotation.shots1 100 129 Hrun).
  - apply (one_shot_rejects_replays "jti-1" 130 Rotation.shots1 100 160 Hrun);
      [done|by vm_compute|done|by vm_compute|done|].
    apply Nat.ltb_lt. by vm_compute.
Defined.
