(* ===== verification/Presence.v ===== *)
(** * Online presence: src/packages/session/src/presence.rs

    A [PresenceRegistry] is one mutex around one map; every method is one
    step.  Instants (monotonic) and dates are integers and the readings of
    both clocks are arguments; dropping a [PresenceLease] is [remove].
    [checked_sub] on an instant fails only below the clock's origin, taken
    as [0]. *)

From S2P Require Import Prelude Traits.

Definition DEFAULT_IDLE_TIMEOUT : Z := 90 * 10 ^ 9.

Record Entry := {
  entry_user : option string;
  entry_scope : option string;
  entry_connected_at : Z;
  last_activity : Z;
}.

Record PresenceRegistry := {
  entries : gmap Uuid Entry;
  idle_timeout : Z;
}.

Record PresenceRecord := {
  record_id : Uuid;
  record_user : option string;
  record_scope : option string;
  record_connected_at : Z;
  last_seen_at : Z;
}.

Definition PresenceRegistry_new : PresenceRegistry := {|
  entries := ∅; idle_timeout := DEFAULT_IDLE_TIMEOUT |}.
Definition with_idle_timeout (timeout : Z) : PresenceRegistry := {|
  entries := ∅; idle_timeout := timeout `max` 10 ^ 6 |}.

Definition with_entries (r : PresenceRegistry) (es : gmap Uuid Entry) : PresenceRegistry := {|
  entries := es; idle_timeout := idle_timeout r |}.

(** [id]: the fresh [Uuid::now_v7]; [now] and [date]: the two clocks. *)
Definition connect (r : PresenceRegistry) (id : Uuid) (now date : Z) (user scope : option string)
    : PresenceRegistry :=
  with_entries r (<[id := {| entry_user := user; entry_scope := scope;
                             entry_connected_at := date; last_activity := now |}]> (entries r)).

Definition touch (r : PresenceRegistry) (id : Uuid) (now : Z) : bool * PresenceRegistry :=
  match entries r !! id with
  | Some e =>
      (true, with_entries r (<[id := {| entry_user := entry_user e; entry_scope := entry_scope e;
                entry_connected_at := entry_connected_at e; last_activity := now |}]> (entries r)))
  | None => (false, r)
  end.

Definition remove (r : PresenceRegistry) (id : Uuid) : PresenceRegistry :=
  with_entries r (delete id (entries r)).

Definition idle_cutoff (r : PresenceRegistry) (now : Z) : Z :=
  if (idle_timeout r <=? now)%Z then now - idle_timeout r else now.

Definition is_live (r : PresenceRegistry) (now : Z) (e : Entry) : bool :=
  (idle_cutoff r now <? last_activity e)%Z.

Definition sweep (r : PresenceRegistry) (now : Z) : nat * PresenceRegistry :=
  let kept := filter (λ row : Uuid * Entry, is_live r now row.2 = true) (entries r) in
  (size (entries r) - size kept, with_entries r kept).

(** [values().filter(..)] *)
Definition live (r : PresenceRegistry) (now : Z) : list (Uuid * Entry) :=
  filter (λ row : Uuid * Entry, is_live r now row.2 = true) (map_to_list (entries r)).

Definition connection_count (r : PresenceRegistry) (now : Z) : nat := length (live r now).

Definition online_users (r : PresenceRegistry) (now : Z) : list string :=
  omap (λ row : Uuid * Entry, entry_user row.2) (live r now).

Definition user_count (r : PresenceRegistry) (now : Z) : nat :=
  size (string_set (online_users r now)).

Definition anonymous_count (r : PresenceRegistry) (now : Z) : nat :=
  length (filter (λ row : Uuid * Entry, entry_user row.2 = None) (live r now)).

Definition count_user (counts : gmap string nat) (user : string) : gmap string nat :=
  <[user := S (default 0 (counts !! user))]> counts.

Definition per_user_counts (r : PresenceRegistry) (now : Z) : gmap string nat :=
  foldl (λ counts row,
    if is_live r now row.2 then
      match entry_user row.2 with
      | Some user => count_user counts user
      | None => counts
      end
    else counts) ∅ (map_to_list (entries r)).

Definition scope_ids (r : PresenceRegistry) (now : Z) : gset string :=
  string_set (omap (λ row : Uuid * Entry, entry_scope row.2) (live r now)).

Definition scope_online (r : PresenceRegistry) (now : Z) (scope : string) : bool :=
  existsb (λ row : Uuid * Entry, is_live r now row.2 && bool_decide (entry_scope row.2 = Some scope))
    (map_to_list (entries r)).

Definition snapshot (r : PresenceRegistry) (now date : Z) : list PresenceRecord :=
  sort_by_key record_connected_at
    ((λ row : Uuid * Entry,
       {| record_id := row.1; record_user := entry_user row.2; record_scope := entry_scope row.2;
          record_connected_at := entry_connected_at row.2; last_seen_at := date |}) <$> live r now).

(** ** Counting *)

Lemma live_elem r now id e :
  (id, e) ∈ live r now ↔ entries r !! id = Some e ∧ is_live r now e = true.
Proof.
  unfold live. rewrite list_elem_of_filter, elem_of_map_to_list. by rewrite (comm and).
Qed.

Definition total (counts : gmap string nat) : nat := map_fold (λ _ n s, n + s) 0 counts.

Lemma total_count_user counts user : total (count_user counts user) = S (total counts).
Proof.
  unfold count_user, total. destruct (counts !! user) as [n|] eqn:Hu; simpl.
  - rewrite <- insert_delete_eq. rewrite map_fold_insert_L; [|lia|by rewrite lookup_delete_eq].
    rewrite (map_fold_delete_L _ _ user n counts) by (done || lia). lia.
  - rewrite map_fold_insert_L; [done|lia|done].
Qed.

Lemma per_user_counts_live r now :
  per_user_counts r now = foldl count_user ∅ (online_users r now).
Proof.
  unfold per_user_counts, online_users, live.
  generalize (∅ : gmap string nat) as counts. intros counts. revert counts.
  induction (map_to_list (entries r)) as [|[id e] l IH]; intros counts; [done|].
  simpl foldl. rewrite IH, filter_cons. simpl.
  destruct (is_live r now e) eqn:Hl.
  - rewrite decide_True by done. simpl. by destruct (entry_user e).
  - by rewrite decide_False by done.
Qed.

Lemma foldl_count_user counts users :
  total (foldl count_user counts users) = total counts + length users ∧
  dom (foldl count_user counts users) = dom counts ∪ string_set users.
Proof.
  revert counts. induction users as [|u users IH]; intros counts; simpl.
  { split; [lia|]. set_solver. }
  destruct (IH (count_user counts u)) as [-> ->]. rewrite total_count_user. split; [lia|].
  unfold count_user, string_set. rewrite dom_insert_L. set_solver.
Qed.

Lemma live_users r now :
  connection_count r now = length (online_users r now) + anonymous_count r now.
Proof.
  unfold connection_count, online_users, anonymous_count.
  induction (live r now) as [|[id e] l IH]; [done|]. rewrite filter_cons. simpl.
  unfold omap in *. destruct (entry_user e); simpl; lia.
Qed.

Lemma snapshot_perm r now date :
  snapshot r now date ≡ₚ (λ row : Uuid * Entry,
       {| record_id := row.1; record_user := entry_user row.2; record_scope := entry_scope row.2;
          record_connected_at := entry_connected_at row.2; last_seen_at := date |}) <$> live r now.
Proof. apply sort_by_key_perm. Qed.

(** ** Properties *)

(** At one instant the queries agree: the live connections are the
    anonymous ones and those of the per-user counts together; the users
    counted are those with a count; a scope is online when it is listed; and
    the snapshot lists each live connection once, oldest first. *)
Theorem presence_queries_agree r now date scope :
  connection_count r now = total (per_user_counts r now) + anonymous_count r now ∧
  user_count r now = size (dom (per_user_counts r now)) ∧
  (scope_online r now scope = true ↔ scope ∈ scope_ids r now) ∧
  length (snapshot r now date) = connection_count r now ∧
  StronglySorted (key_le record_connected_at) (snapshot r now date) ∧
  (∀ x, x ∈ snapshot r now date → ∃ e, entries r !! record_id x = Some e ∧ is_live r now e = true).
Proof.
  rewrite per_user_counts_live.
  destruct (foldl_count_user ∅ (online_users r now)) as [Htotal Hdom].
  split_and!.
  - rewrite Htotal, live_users. done.
  - unfold user_count. rewrite Hdom, dom_empty_L. f_equal. set_solver.
  - unfold scope_online, scope_ids, string_set. rewrite existsb_elem, elem_of_list_to_set.
    rewrite list_elem_of_omap. split.
    + intros ([id e] & Hin & [Hl Hs%bool_decide_eq_true]%andb_true_iff). exists (id, e).
      split; [|done]. unfold live. by apply list_elem_of_filter.
    + intros ([id e] & [Hl Hin]%list_elem_of_filter & Hs). exists (id, e).
      split; [done|]. apply andb_true_iff. split; [done|]. by apply bool_decide_eq_true.
  - rewrite snapshot_perm, length_fmap. done.
  - apply sort_by_key_sorted.
  - intros x. rewrite snapshot_perm, list_elem_of_fmap.
    intros ([id e] & -> & [? ?]%live_elem). by exists e.
Qed.

(** The life of a connection, with a clock above the idle timeout: it
    counts from [connect] or [touch] until the idle timeout has passed,
    never after its lease is dropped; a quiet entry that was not swept is
    revived by [touch], a swept or dropped one is not. *)
Theorem connection_lifecycle r id now date user scope later :
  (0 < idle_timeout r)%Z → (idle_timeout r ≤ now ≤ later)%Z →
  let r1 := connect r id now date user scope in
  ((∃ e, (id, e) ∈ live r1 later) ↔ (later < now + idle_timeout r)%Z) ∧
  (∀ t e, (id, e) ∉ live (remove r1 id) t) ∧
  ((now + idle_timeout r ≤ later)%Z →
     (∃ e, (id, e) ∈ live (touch r1 id later).2 later) ∧
     (touch (sweep r1 later).2 id later).1 = false) ∧
  (touch (remove r1 id) id later).1 = false.
Proof.
  intros Hpos Hle r1.
  assert (Hcut : idle_cutoff r1 later = (later - idle_timeout r)%Z).
  { unfold idle_cutoff. simpl. destruct (Z.leb_spec (idle_timeout r) later); lia. }
  assert (Hid : entries r1 !! id = Some {| entry_user := user; entry_scope := scope;
            entry_connected_at := date; last_activity := now |}).
  { simpl. by rewrite lookup_insert_eq. }
  split_and!.
  - setoid_rewrite live_elem. rewrite Hid. unfold is_live. rewrite Hcut. split.
    + intros (e & [= <-] & Hlt%Z.ltb_lt). simpl in Hlt. lia.
    + intros Hlt. eexists. split; [done|]. apply Z.ltb_lt. simpl. lia.
  - intros t e. rewrite live_elem. simpl. rewrite lookup_delete_eq. by intros [? _].
  - intros Hidle. split.
    + unfold touch. rewrite Hid. setoid_rewrite live_elem. cbn [snd entries with_entries].
      rewrite lookup_insert_eq. eexists. split; [done|]. unfold is_live.
      change (idle_cutoff (with_entries r1 _) later) with (idle_cutoff r1 later).
      rewrite Hcut. apply Z.ltb_lt. simpl. lia.
    + unfold touch, sweep. cbn [snd entries with_entries].
      assert (filter (λ row : Uuid * Entry, is_live r1 later row.2 = true) (entries r1) !! id
                = None) as ->; [|done].
      apply map_lookup_filter_None. right. intros e He. rewrite Hid in He. injection He as <-.
      simpl. unfold is_live. rewrite Hcut. simpl. rewrite Z.ltb_lt. lia.
  - unfold touch, remove. cbn [entries with_entries]. by rewrite lookup_delete_eq.
Qed.

Lemma connection_lifecycle_witness :
  let r := connect (with_idle_timeout 1000000000) 7%N 5000000000 0 (Some "ann") None in
  (∃ e, (7%N, e) ∈ live r 5900000000).
Proof.
  apply (connection_lifecycle (with_idle_timeout 1000000000) 7%N 5000000000 0 (Some "ann") None
           5900000000); simpl; lia.
Defined.
