(* ===== verification/Tokens.v ===== *)
(** * Bearer tokens: src/packages/session/src/token.rs, config.rs and manager.rs

    [TokenManager]: key-profile selection, signing, verification, refresh
    and rotation.  The libraries below it are parameters: jsonwebtoken
    ([encode], [decode], the key constructors), ml_dsa, base64, serde_json,
    the printing and parsing of a [Uuid], and [str::trim]; the laws that some
    theorems assume of them are the hypotheses [*_law].  Claims
    hold unsigned seconds, and the sums and casts of 64-bit integers wrap as
    in a release build; clock readings and fresh ids are arguments. *)

From S2P Require Import Prelude Traits Replay.

(** ** Errors *)

Inductive JwtError := ExpiredSignature | OtherJwtError (message : string).

Inductive SessionError :=
  | Jwt (e : JwtError)
  | InvalidToken (message : string)
  | TokenExpired (now : Z)
  | Revoked
  | SigningUnavailable
  | Keys (message : string)
  | OtherSessionError (message : string).

Inductive SessionResult (A : Type) :=
  | SOk (a : A)
  | SErr (e : SessionError).
Arguments SOk {A} a.
Arguments SErr {A} e.

#[export] Instance session_result_bind : MBind SessionResult := λ A B f r,
  match r with
  | SOk a => f a
  | SErr e => SErr e
  end.

Lemma sbind_ok {A B} (f : A → SessionResult B) (r : SessionResult A) (b : B) :
  r ≫= f = SOk b ↔ ∃ a, r = SOk a ∧ f a = SOk b.
Proof. destruct r as [a|e]; cbn; split; [by eauto|by intros (? & [= ->] & ?)|done|by intros (? & ? & _)]. Qed.

Lemma sbind_ret {A B} (f : A → SessionResult B) (a : A) : SOk a ≫= f = f a.
Proof. done. Qed.

(** ** Claims *)

Inductive TokenType := Access | Refresh.
#[export] Instance TokenType_eq_dec : EqDecision TokenType.
Proof. solve_decision. Defined.

Record TokenClaims := {
  sub : string;
  claims_username : string;
  token_type : TokenType;
  iat : N;
  exp : N;
  iss : string;
  jti : string;
  sid : option string;
  claims_roles : list string;
  claims_user_id : option string;
  tenant_id : option string;
  relay_id : option string;
  claims_workspace_id : option string;
  claims_permissions : list string;
  aud : option string;
}.

(** [TokenClaims::new] at [now] with the fresh id [id]; [uuid] is the
    printed user id.  [usize] is 64 bits wide, and the sum wraps. *)
Definition TokenClaims_new (uuid username : string) (ty : TokenType) (ttl_secs : Z)
    (issuer : string) (now : Z) (id : string) : TokenClaims := {|
  sub := uuid;
  claims_username := username;
  token_type := ty;
  iat := Z.to_N (now `mod` u64_modulus);
  exp := Z.to_N (wrapping_add_u64 (now `mod` u64_modulus) ttl_secs);
  iss := issuer;
  jti := id;
  sid := None;
  claims_roles := [];
  claims_user_id := None;
  tenant_id := None;
  relay_id := None;
  claims_workspace_id := None;
  claims_permissions := [];
  aud := None;
|}.

Definition with_session (c : TokenClaims) (s : string) : TokenClaims := {|
  sub := sub c; claims_username := claims_username c; token_type := token_type c;
  iat := iat c; exp := exp c; iss := iss c; jti := jti c; sid := Some s;
  claims_roles := claims_roles c; claims_user_id := claims_user_id c;
  tenant_id := tenant_id c; relay_id := relay_id c;
  claims_workspace_id := claims_workspace_id c;
  claims_permissions := claims_permissions c; aud := aud c |}.

Definition with_roles (c : TokenClaims) (roles : list string) : TokenClaims := {|
  sub := sub c; claims_username := claims_username c; token_type := token_type c;
  iat := iat c; exp := exp c; iss := iss c; jti := jti c; sid := sid c;
  claims_roles := roles; claims_user_id := claims_user_id c;
  tenant_id := tenant_id c; relay_id := relay_id c;
  claims_workspace_id := claims_workspace_id c;
  claims_permissions := claims_permissions c; aud := aud c |}.

Definition with_audience (c : TokenClaims) (a : string) : TokenClaims := {|
  sub := sub c; claims_username := claims_username c; token_type := token_type c;
  iat := iat c; exp := exp c; iss := iss c; jti := jti c; sid := sid c;
  claims_roles := claims_roles c; claims_user_id := claims_user_id c;
  tenant_id := tenant_id c; relay_id := relay_id c;
  claims_workspace_id := claims_workspace_id c;
  claims_permissions := claims_permissions c; aud := Some a |}.

Definition with_user_id (c : TokenClaims) (u : string) : TokenClaims := {|
  sub := sub c; claims_username := claims_username c; token_type := token_type c; iat := iat c;
  exp := exp c; iss := iss c; jti := jti c; sid := sid c; claims_roles := claims_roles c;
  claims_user_id := Some u; tenant_id := tenant_id c; relay_id := relay_id c;
  claims_workspace_id := claims_workspace_id c; claims_permissions := claims_permissions c;
  aud := aud c |}.

Definition with_tenant (c : TokenClaims) (t : string) : TokenClaims := {|
  sub := sub c; claims_username := claims_username c; token_type := token_type c; iat := iat c;
  exp := exp c; iss := iss c; jti := jti c; sid := sid c; claims_roles := claims_roles c;
  claims_user_id := claims_user_id c; tenant_id := Some t; relay_id := relay_id c;
  claims_workspace_id := claims_workspace_id c; claims_permissions := claims_permissions c;
  aud := aud c |}.

Definition with_relay (c : TokenClaims) (r : string) : TokenClaims := {|
  sub := sub c; claims_username := claims_username c; token_type := token_type c; iat := iat c;
  exp := exp c; iss := iss c; jti := jti c; sid := sid c; claims_roles := claims_roles c;
  claims_user_id := claims_user_id c; tenant_id := tenant_id c; relay_id := Some r;
  claims_workspace_id := claims_workspace_id c; claims_permissions := claims_permissions c;
  aud := aud c |}.

Definition with_workspace (c : TokenClaims) (w : string) : TokenClaims := {|
  sub := sub c; claims_username := claims_username c; token_type := token_type c; iat := iat c;
  exp := exp c; iss := iss c; jti := jti c; sid := sid c; claims_roles := claims_roles c;
  claims_user_id := claims_user_id c; tenant_id := tenant_id c; relay_id := relay_id c;
  claims_workspace_id := Some w; claims_permissions := claims_permissions c; aud := aud c |}.

Definition with_permissions (c : TokenClaims) (ps : list string) : TokenClaims := {|
  sub := sub c; claims_username := claims_username c; token_type := token_type c; iat := iat c;
  exp := exp c; iss := iss c; jti := jti c; sid := sid c; claims_roles := claims_roles c;
  claims_user_id := claims_user_id c; tenant_id := tenant_id c; relay_id := relay_id c;
  claims_workspace_id := claims_workspace_id c; claims_permissions := ps; aud := aud c |}.

Definition claims_is_expired (c : TokenClaims) (now : Z) : bool :=
  (Z.of_N (exp c) <=? now `mod` u64_modulus)%Z.

Definition sub_uuid (c : TokenClaims) : string := sub c.
Definition sub_username (c : TokenClaims) : string := claims_username c.

Record TokenPair := {
  access_token : string;
  refresh_token : string;
  pair_token_type : string;
  expires_in : Z;
}.

(** ** Configuration *)

Definition MIN_SECRET_BYTES : nat := 32.

Record Ed25519Keys := {
  signing_pem : option string;
  verifying_pems : list string;
}.

(** Seeds and public keys are byte strings. *)
Record MlDsa65Keys := {
  signing_seed : option string;
  ml_verifying : list string;
}.

Record SessionConfig := {
  secret : string;
  ed25519 : Ed25519Keys;
  mldsa65 : MlDsa65Keys;
  access_ttl_secs : Z;
  refresh_ttl : Z;
  issuer : string;
  audience : option string;
  kid : option string;
}.

Definition from_secret (s : string) : SessionConfig := {|
  secret := s;
  ed25519 := {| signing_pem := None; verifying_pems := [] |};
  mldsa65 := {| signing_seed := None; ml_verifying := [] |};
  access_ttl_secs := 900;
  refresh_ttl := 604800;
  issuer := "kirino";
  audience := None;
  kid := None;
|}.

Definition SessionConfig_new (s : string) : SessionConfig := from_secret s.

Definition try_new (s : string) : SessionResult SessionConfig :=
  if decide (s = "") then
    SErr (OtherSessionError "shared secret is empty; refusing to configure HS256 without a key")
  else if bool_decide (String.length s < MIN_SECRET_BYTES) then
    SErr (OtherSessionError ("shared secret is " +:+ pretty (String.length s) +:+
      " bytes; HS256 needs at least " +:+ pretty MIN_SECRET_BYTES))
  else SOk (from_secret s).

Definition with_keys (c : SessionConfig) (ed : Ed25519Keys) (ml : MlDsa65Keys)
    : SessionConfig := {|
  secret := secret c; ed25519 := ed; mldsa65 := ml; access_ttl_secs := access_ttl_secs c;
  refresh_ttl := refresh_ttl c; issuer := issuer c; audience := audience c; kid := kid c |}.

Definition with_ttl (c : SessionConfig) (access refresh : Z) : SessionConfig := {|
  secret := secret c; ed25519 := ed25519 c; mldsa65 := mldsa65 c; access_ttl_secs := access;
  refresh_ttl := refresh; issuer := issuer c; audience := audience c; kid := kid c |}.
Definition with_issuer (c : SessionConfig) (i : string) : SessionConfig := {|
  secret := secret c; ed25519 := ed25519 c; mldsa65 := mldsa65 c;
  access_ttl_secs := access_ttl_secs c; refresh_ttl := refresh_ttl c; issuer := i;
  audience := audience c; kid := kid c |}.
Definition config_with_audience (c : SessionConfig) (a : string) : SessionConfig := {|
  secret := secret c; ed25519 := ed25519 c; mldsa65 := mldsa65 c;
  access_ttl_secs := access_ttl_secs c; refresh_ttl := refresh_ttl c; issuer := issuer c;
  audience := Some a; kid := kid c |}.
Definition with_kid (c : SessionConfig) (k : string) : SessionConfig := {|
  secret := secret c; ed25519 := ed25519 c; mldsa65 := mldsa65 c;
  access_ttl_secs := access_ttl_secs c; refresh_ttl := refresh_ttl c; issuer := issuer c;
  audience := audience c; kid := Some k |}.
Definition with_ed25519_signing_key (c : SessionConfig) (pem : string) : SessionConfig :=
  with_keys c {| signing_pem := Some pem; verifying_pems := verifying_pems (ed25519 c) |}
    (mldsa65 c).
Definition add_ed25519_verifying_key (c : SessionConfig) (pem : string) : SessionConfig :=
  with_keys c {| signing_pem := signing_pem (ed25519 c);
                 verifying_pems := verifying_pems (ed25519 c) ++ [pem] |} (mldsa65 c).
Definition with_mldsa65_signing_seed (c : SessionConfig) (seed : string) : SessionConfig :=
  with_keys c (ed25519 c) {| signing_seed := Some seed; ml_verifying := ml_verifying (mldsa65 c) |}.
Definition add_mldsa65_verifying_key (c : SessionConfig) (key : string) : SessionConfig :=
  with_keys c (ed25519 c) {| signing_seed := signing_seed (mldsa65 c);
                             ml_verifying := ml_verifying (mldsa65 c) ++ [key] |}.

(** ** The libraries *)

Inductive Algorithm := HS256 | EdDSA.

Record Header := {
  h_alg : Algorithm;
  h_kid : option string;
}.

(** What the code sets of [jsonwebtoken::Validation]: the algorithm, the
    issuer, whether expiry is checked, and the required audience. *)
Record Validation := {
  v_algorithm : Algorithm;
  v_issuer : string;
  v_exp : bool;
  v_audience : option string;
}.

Class TokenLibs := {
  EncodingKey : Type;
  DecodingKey : Type;
  encoding_from_secret : string → EncodingKey;
  decoding_from_secret : string → DecodingKey;
  encoding_from_ed_pem : string → EncodingKey + string;
  decoding_from_ed_pem : string → DecodingKey + string;
  encode : Header → TokenClaims → EncodingKey → string + JwtError;
  decode : string → DecodingKey → Validation → Z → TokenClaims + JwtError;
  insecure_decode : string → TokenClaims + JwtError;
  MlSigningKey : Type;
  MlVerifyingKey : Type;
  MlSignature : Type;
  ml_from_seed : string → MlSigningKey;
  ml_decode_key : string → MlVerifyingKey;
  ml_encode_key : MlVerifyingKey → string;
  ml_sign : MlSigningKey → string → string;
  ml_signature : string → option MlSignature;
  ml_verify : MlVerifyingKey → string → MlSignature → bool;
  (** base64, serde_json, and the shape test of a blank line *)
  b64u_encode : string → string;
  b64u_decode_lib : string → string + string;
  b64_standard_decode : string → option string;
  write_header : string → string → option string → string;
  write_claims : TokenClaims → string + string;
  read_header : string → (option string * option string) + string;
  read_claims : string → TokenClaims + string;
  is_blank : string → bool;
  debug_str : string → string;
  (** [Uuid] *)
  uuid_to_string : Uuid → string;
  uuid_parse_str : string → option Uuid;
}.

Section Manager.
Context `{TokenLibs}.
(** The [mldsa] feature of the build. *)
Variable mldsa : bool.

Definition of_jwt {A} (r : A + JwtError) : SessionResult A :=
  match r with
  | inl a => SOk a
  | inr e => SErr (Jwt e)
  end.

(** ** Key profiles *)

Inductive KeySet :=
  | SharedSecret (encoding : EncodingKey) (decoding : DecodingKey)
  | Ed25519 (encoding : option EncodingKey) (decoding : list DecodingKey)
      (verifying_raw : list string)
  | MlDsa65 (signing : option MlSigningKey) (verifying : list MlVerifyingKey)
  | Broken (message : string).

Definition newline : Ascii.ascii := Ascii.ascii_of_N 10.
Definition carriage_return : Ascii.ascii := Ascii.ascii_of_N 13.

(** [str::lines]: a line feed ends a line and takes a carriage return before
    it along; what follows the last line feed is a line as it is, unless it
    is empty. *)
Definition strip_cr (l : list Ascii.ascii) : list Ascii.ascii :=
  match last l with
  | Some c => if decide (c = carriage_return) then removelast l else l
  | None => l
  end.
Definition lines (s : string) : list string :=
  let pieces := split_at newline (String.list_ascii_of_string s) in
  let rest := match last pieces with
              | Some [] | None => []
              | Some piece => [piece]
              end in
  String.string_of_list_ascii <$> ((strip_cr <$> removelast pieces) ++ rest).

Definition contains (s pattern : string) : bool :=
  match String.index 0 pattern s with
  | Some _ => true
  | None => false
  end.

(** [take_while(..)] *)
Fixpoint take_while {A} (f : A → bool) (l : list A) : list A :=
  match l with
  | [] => []
  | x :: l => if f x then x :: take_while f l else []
  end.

Definition ED25519_SPKI_PREFIX : string :=
  String.string_of_list_ascii (Ascii.ascii_of_N <$>
    [48; 42; 48; 5; 6; 3; 43; 101; 112; 3; 33; 0])%N.

Definition ed25519_spki_raw32 (pem : string) : option string :=
  match lines pem with
  | [] => None
  | first :: rest =>
      if negb (contains first "BEGIN PUBLIC KEY") then None
      else
        let body := String.concat "" (filter (λ l, is_blank l = false)
          (take_while (λ l, negb (contains l "END PUBLIC KEY")) rest)) in
        der ← b64_standard_decode body;
        if bool_decide (String.length der ≠ 44) ||
           bool_decide (String.substring 0 12 der ≠ ED25519_SPKI_PREFIX) then None
        else Some (String.substring 12 32 der)
  end.

(** The loop over the verifying PEMs; [i] counts from one. *)
Fixpoint resolve_pems (i : nat) (pems : list string) : (list DecodingKey * list string) + string :=
  match pems with
  | [] => inl ([], [])
  | pem :: pems =>
      match decoding_from_ed_pem pem, ed25519_spki_raw32 pem with
      | inl key, Some raw =>
          match resolve_pems (S i) pems with
          | inl (keys, raws) => inl (key :: keys, raw :: raws)
          | inr msg => inr msg
          end
      | inr e, _ =>
          inr ("Ed25519 verifying key #" +:+ pretty i +:+ " is not a valid PEM key: " +:+ e)
      | inl _, None =>
          inr ("Ed25519 verifying key #" +:+ pretty i +:+
               " is not a raw Ed25519 SubjectPublicKeyInfo block")
      end
  end.

Definition ed_configured (ed : Ed25519Keys) : bool :=
  bool_decide (is_Some (signing_pem ed)) || negb (bool_decide (verifying_pems ed = [])).
Definition ml_configured (ml : MlDsa65Keys) : bool :=
  bool_decide (is_Some (signing_seed ml)) || negb (bool_decide (ml_verifying ml = [])).

(** The Ed25519 and shared-secret half of [KeySet::resolve]. *)
Definition resolve_ed (ed : Ed25519Keys) (secret : string) : KeySet :=
  if bool_decide (is_Some (signing_pem ed)) && bool_decide (verifying_pems ed = []) then
    Broken ("an Ed25519 signing key is configured but no verifying key is: " +:+
            "add the matching public key with `add_ed25519_verifying_key`")
  else if bool_decide (verifying_pems ed = []) then
    SharedSecret (encoding_from_secret secret) (decoding_from_secret secret)
  else
    match resolve_pems 1 (verifying_pems ed) with
    | inr msg => Broken msg
    | inl (decoding, raws) =>
        match signing_pem ed with
        | None => Ed25519 None decoding raws
        | Some pem =>
            match encoding_from_ed_pem pem with
            | inl key => Ed25519 (Some key) decoding raws
            | inr e => Broken ("Ed25519 signing key is not a valid PEM key: " +:+ e)
            end
        end
    end.

Definition KeySet_resolve (ed : Ed25519Keys) (ml : MlDsa65Keys) (secret : string) : KeySet :=
  if ed_configured ed && ml_configured ml then
    Broken ("both Ed25519 and ML-DSA-65 key material is configured; a manager pins " +:+
            "exactly one profile — remove one of the two key sets")
  else if mldsa then
    if bool_decide (is_Some (signing_seed ml)) && bool_decide (ml_verifying ml = []) then
      Broken ("an ML-DSA-65 signing seed is configured but no verifying key is: " +:+
              "add the matching public key with `add_mldsa65_verifying_key`")
    else if negb (bool_decide (ml_verifying ml = [])) then
      MlDsa65 (ml_from_seed <$> signing_seed ml) (ml_decode_key <$> ml_verifying ml)
    else resolve_ed ed secret
  else if ml_configured ml then
    Broken ("ML-DSA-65 key material is configured but this build of kirino-session " +:+
            "lacks the `mldsa` feature; refusing to fall back to the HS256 " +:+
            "shared-secret profile")
  else resolve_ed ed secret.

Definition algorithm (ks : KeySet) : Algorithm :=
  match ks with
  | SharedSecret _ _ => HS256
  | Ed25519 _ _ _ | MlDsa65 _ _ | Broken _ => EdDSA
  end.

(** ** The manager *)

Record TokenManager := {
  config : SessionConfig;
  keys : KeySet;
}.

Definition TokenManager_new (c : SessionConfig) : TokenManager := {|
  config := c;
  keys := KeySet_resolve (ed25519 c) (mldsa65 c) (secret c);
|}.

Definition ML_DSA_65_ALG : string := "ML-DSA-65".

Definition sign_mldsa65_compact (sk : MlSigningKey) (claims : TokenClaims) (kid : option string)
    : SessionResult string :=
  let header_bytes := write_header ML_DSA_65_ALG "JWT" kid in
  match write_claims claims with
  | inr e => SErr (OtherSessionError ("failed to serialize token claims: " +:+ e))
  | inl payload_bytes =>
      let signing_input := b64u_encode header_bytes +:+ "." +:+ b64u_encode payload_bytes in
      SOk (signing_input +:+ "." +:+ b64u_encode (ml_sign sk signing_input))
  end.

Definition sign (m : TokenManager) (claims : TokenClaims) : SessionResult string :=
  match keys m with
  | SharedSecret encoding _ => of_jwt (encode {| h_alg := HS256; h_kid := None |} claims encoding)
  | Ed25519 (Some key) _ _ =>
      of_jwt (encode {| h_alg := EdDSA; h_kid := kid (config m) |} claims key)
  | Ed25519 None _ _ => SErr SigningUnavailable
  | MlDsa65 signing _ =>
      match signing with
      | Some sk => sign_mldsa65_compact sk claims (kid (config m))
      | None => SErr SigningUnavailable
      end
  | Broken msg => SErr (Keys msg)
  end.

(** The loop over the decoding keys, with the error of the last one. *)
Fixpoint try_keys (token : string) (v : Validation) (now : Z) (decoding : list DecodingKey)
    (last_err : option JwtError) : TokenClaims + option JwtError :=
  match decoding with
  | [] => inr last_err
  | key :: rest =>
      match decode token key v now with
      | inl claims => inl claims
      | inr e => try_keys token v now rest (Some e)
      end
  end.

Definition verify_jsonwebtoken (m : TokenManager) (token : string) (decoding : list DecodingKey)
    (check_exp : bool) (now : Z) : SessionResult TokenClaims :=
  let validation := {| v_algorithm := algorithm (keys m); v_issuer := issuer (config m);
                       v_exp := check_exp; v_audience := audience (config m) |} in
  match try_keys token validation now decoding None with
  | inl claims => SOk claims
  | inr (Some ExpiredSignature) => SErr (TokenExpired now)
  | inr (Some e) => SErr (Jwt e)
  | inr None => SErr (Keys "no verifying keys configured")
  end.

Definition b64u_decode (segment : string) : SessionResult string :=
  match b64u_decode_lib segment with
  | inl bytes => SOk bytes
  | inr e => SErr (InvalidToken ("invalid base64url segment: " +:+ e))
  end.

Definition ok_of {A E} (r : A + E) : option A :=
  match r with
  | inl a => Some a
  | inr _ => None
  end.

Definition debug_option (o : option string) : string :=
  match o with
  | Some s => "Some(" +:+ debug_str s +:+ ")"
  | None => "None"
  end.

(** [token.split('.')] *)
Definition segments (token : string) : list string :=
  String.string_of_list_ascii <$> split_at dot (String.list_ascii_of_string token).

Definition invalid {A} (message : string) : SessionResult A := SErr (InvalidToken message).
Definition check (b : bool) (e : SessionError) : SessionResult unit := if b then SOk tt else SErr e.

Definition read_json {A} (what : string) (r : A + string) : SessionResult A :=
  match r with
  | inl a => SOk a
  | inr e => invalid ("malformed " +:+ what +:+ ": " +:+ e)
  end.

(** The [kid] targeting. *)
Definition kid_matches (configured presented : option string) : bool :=
  match configured, presented with
  | Some c, Some p => bool_decide (c = p)
  | _, _ => true
  end.

(** [claims.exp as i64 + VERIFY_LEEWAY_SECS] *)
Definition deadline (c : TokenClaims) : Z := i64_of (i64_of (Z.of_N (exp c)) + VERIFY_LEEWAY_SECS).

Definition verify_mldsa65 (m : TokenManager) (token : string) (verifying : list MlVerifyingKey)
    (check_exp : bool) (now : Z) : SessionResult TokenClaims :=
  match segments token with
  | [h_b64; p_b64; s_b64] =>
      header_bytes ← b64u_decode h_b64;
      header ← read_json "JOSE header" (read_header header_bytes);
      _ ← check (bool_decide (header.1 = Some ML_DSA_65_ALG))
            (InvalidToken ("algorithm " +:+ debug_option header.1 +:+
               " is not accepted: this manager only takes " +:+ ML_DSA_65_ALG +:+ " tokens"));
      _ ← check (kid_matches (kid (config m)) header.2)
            (InvalidToken ("token kid " +:+ default "" (debug_str <$> header.2) +:+
               " does not match the configured kid " +:+
               default "" (debug_str <$> kid (config m))));
      payload ← b64u_decode p_b64;
      claims ← read_json "token claims" (read_claims payload);
      _ ← check (bool_decide (iss claims = issuer (config m)))
            (InvalidToken ("token issuer " +:+ debug_str (iss claims) +:+
               " does not match the configured issuer " +:+ debug_str (issuer (config m))));
      _ ← check (match audience (config m) with
                 | Some expected => bool_decide (aud claims = Some expected)
                 | None => true
                 end)
            (InvalidToken "token audience is missing or does not match the configured one");
      _ ← check (negb (check_exp && (deadline claims <? now)%Z))
            (TokenExpired now);
      sig_bytes ← b64u_decode s_b64;
      match ml_signature sig_bytes with
      | None => invalid "malformed ML-DSA-65 signature"
      | Some sig =>
          let signing_input := h_b64 +:+ "." +:+ p_b64 in
          if existsb (λ key, ml_verify key signing_input sig) verifying then SOk claims
          else invalid "signature verification failed against every configured ML-DSA-65 key"
      end
  | _ => invalid "not a compact JWS"
  end.

Definition verify_with (m : TokenManager) (token : string) (check_exp : bool) (now : Z)
    : SessionResult TokenClaims :=
  match keys m with
  | MlDsa65 _ verifying => verify_mldsa65 m token verifying check_exp now
  | SharedSecret _ decoding => verify_jsonwebtoken m token [decoding] check_exp now
  | Ed25519 _ decoding _ => verify_jsonwebtoken m token decoding check_exp now
  | Broken msg => SErr (Keys msg)
  end.

Definition verify (m : TokenManager) (token : string) (now : Z) : SessionResult TokenClaims :=
  verify_with m token true now.
Definition verify_lenient (m : TokenManager) (token : string) (now : Z)
    : SessionResult TokenClaims :=
  verify_with m token false now.

(** [None]: not clearly an ML-DSA-65 token. *)
Definition mldsa65_claims_unverified (token : string) : option TokenClaims :=
  h_b64 ← head (segments token);
  header_bytes ← ok_of (b64u_decode_lib h_b64);
  header ← ok_of (read_header header_bytes);
  if bool_decide (header.1 ≠ Some ML_DSA_65_ALG) then None
  else
    p_b64 ← segments token !! 1;
    payload ← ok_of (b64u_decode_lib p_b64);
    ok_of (read_claims payload).

Definition decode_unverified (token : string) : SessionResult TokenClaims :=
  match (if mldsa then mldsa65_claims_unverified token else None) with
  | Some claims => SOk claims
  | None => of_jwt (insecure_decode token)
  end.

(** A JSON object of strings. *)
Definition with_jwk_kid (m : TokenManager) (jwk : gmap string string) : gmap string string :=
  match kid (config m) with
  | Some k => <["kid" := k]> jwk
  | None => jwk
  end.

Definition okp_jwk (m : TokenManager) (raw : string) : gmap string string :=
  with_jwk_kid m (<["use" := "sig"]> (<["alg" := "EdDSA"]> (<["x" := b64u_encode raw]>
    (<["crv" := "Ed25519"]> (<["kty" := "OKP"]> ∅))))).
Definition akp_jwk (m : TokenManager) (key : MlVerifyingKey) : gmap string string :=
  with_jwk_kid m (<["use" := "sig"]> (<["pub" := b64u_encode (ml_encode_key key)]>
    (<["alg" := ML_DSA_65_ALG]> (<["kty" := "AKP"]> ∅)))).

(** The ["keys"] of the JWK set. *)
Definition jwks (m : TokenManager) : list (gmap string string) :=
  match keys m with
  | SharedSecret _ _ | Broken _ => []
  | Ed25519 _ _ verifying_raw => okp_jwk m <$> verifying_raw
  | MlDsa65 _ verifying => akp_jwk m <$> verifying
  end.

(** The ids and clock readings [issue_pair] draws. *)
Record IssueDraws := {
  draw_sid : string;
  draw_access_jti : string;
  draw_refresh_jti : string;
  now_access : Z;
  now_refresh : Z;
}.

(** [stamp] *)
Definition stamp (m : TokenManager) (c : TokenClaims) : TokenClaims :=
  match audience (config m) with
  | Some a => with_audience c a
  | None => c
  end.

Definition access_claims (m : TokenManager) (d : IssueDraws) (user : Uuid) (username : string)
    (roles : list string) : TokenClaims :=
  stamp m (with_roles (with_session (TokenClaims_new (uuid_to_string user) username Access
    (access_ttl_secs (config m)) (issuer (config m)) (now_access d) (draw_access_jti d))
    (draw_sid d)) roles).
Definition refresh_claims (m : TokenManager) (d : IssueDraws) (user : Uuid) (username : string)
    (roles : list string) : TokenClaims :=
  stamp m (with_roles (with_session (TokenClaims_new (uuid_to_string user) username Refresh
    (refresh_ttl (config m)) (issuer (config m)) (now_refresh d) (draw_refresh_jti d))
    (draw_sid d)) roles).

Definition issue_pair (m : TokenManager) (d : IssueDraws) (user : Uuid) (username : string)
    (roles : list string) : SessionResult TokenPair :=
  access ← sign m (access_claims m d user username roles);
  refresh ← sign m (refresh_claims m d user username roles);
  SOk {| access_token := access; refresh_token := refresh; pair_token_type := "Bearer";
         expires_in := access_ttl_secs (config m) |}.

Definition verify_refresh_claims (m : TokenManager) (token : string) (now : Z)
    : SessionResult (Uuid * TokenClaims) :=
  claims ← verify m token now;
  if bool_decide (token_type claims ≠ Refresh) then invalid "expected refresh token"
  else
    match uuid_parse_str (sub claims) with
    | None => invalid "invalid user id in token"
    | Some user_id => SOk (user_id, claims)
    end.

Definition refresh (m : TokenManager) (d : IssueDraws) (token : string) (now : Z)
    : SessionResult TokenPair :=
  uc ← verify_refresh_claims m token now;
  issue_pair m d uc.1 (claims_username uc.2) (claims_roles uc.2).

(** [now]: the reading of the verifier; [now']: that of the rotation. *)
Definition refresh_rotating (m : TokenManager) (d : IssueDraws) (token : string)
    (revocations : RefreshRevocationStore) (now now' : Z)
    : SessionResult TokenPair * RefreshRevocationStore :=
  match verify_refresh_claims m token now with
  | SErr e => (SErr e, revocations)
  | SOk (user_id, claims) =>
      match sid claims with
      | None => (invalid "refresh token has no session id", revocations)
      | Some s =>
          let r := check_and_revoke revocations s now' in
          if r.1 then (issue_pair m d user_id (claims_username claims) (claims_roles claims), r.2)
          else (SErr Revoked, r.2)
      end
  end.

(** ** Which keys a manager accepts *)

Lemma try_keys_ok token v now decoding last_err c :
  try_keys token v now decoding last_err = inl c ↔
  ∃ pre key post, decoding = pre ++ key :: post ∧ decode token key v now = inl c ∧
    Forall (λ k, ∃ e, decode token k v now = inr e) pre.
Proof.
  revert last_err. induction decoding as [|key rest IH]; intros last_err; simpl.
  { split; [done|]. by intros ([] & ? & ? & ? & _). }
  destruct (decode token key v now) as [c'|e] eqn:Hd.
  - split.
    + intros [= ->]. by exists [], key, rest.
    + intros ([|k pre] & key' & post & Heq & Hk & Hpre); simplify_list_eq; [congruence|].
      apply Forall_cons in Hpre as [[e He] _]. congruence.
  - rewrite IH. split.
    + intros (pre & key' & post & -> & Hk & Hpre). exists (key :: pre), key', post.
      split_and!; [done|done|]. constructor; [by exists e|done].
    + intros ([|k pre] & key' & post & Heq & Hk & Hpre); simplify_list_eq; [congruence|].
      apply Forall_cons in Hpre as [_ Hpre]. by exists pre, key', post.
Qed.

Lemma verify_jsonwebtoken_ok m token decoding check_exp now c :
  verify_jsonwebtoken m token decoding check_exp now = SOk c ↔
  try_keys token {| v_algorithm := algorithm (keys m); v_issuer := issuer (config m);
                    v_exp := check_exp; v_audience := audience (config m) |} now decoding None
    = inl c.
Proof.
  unfold verify_jsonwebtoken. destruct (try_keys _ _ _ _ _) as [c'|[[|]|]]; split; congruence.
Qed.

Lemma sbind_check {A} (f : unit → SessionResult A) b e : b = true → check b e ≫= f = f tt.
Proof. by intros ->. Qed.

Lemma check_ok b e : check b e = SOk tt ↔ b = true.
Proof. by destruct b. Qed.

Lemma deadline_le c : (deadline c ≤ Z.of_N (exp c) + VERIFY_LEEWAY_SECS)%Z.
Proof.
  unfold deadline, VERIFY_LEEWAY_SECS. pose proof (i64_of_range (Z.of_N (exp c))).
  pose proof (i64_of_le (i64_of (Z.of_N (exp c)) + 60)). pose proof (i64_of_le (Z.of_N (exp c))). lia.
Qed.

Lemma deadline_small c : (Z.of_N (exp c) + VERIFY_LEEWAY_SECS < 2 ^ 63)%Z →
  deadline c = (Z.of_N (exp c) + VERIFY_LEEWAY_SECS)%Z.
Proof.
  unfold deadline, VERIFY_LEEWAY_SECS. intros ?. rewrite !i64_of_small by (rewrite ?i64_of_small; lia).
  done.
Qed.

(** What the ML-DSA-65 path has checked of a token it accepts. *)
Lemma verify_mldsa65_ok m token verifying check_exp now c :
  verify_mldsa65 m token verifying check_exp now = SOk c →
  ∃ h p s header_bytes kid' payload,
    segments token = [h; p; s] ∧ b64u_decode_lib h = inl header_bytes ∧
    read_header header_bytes = inl (Some ML_DSA_65_ALG, kid') ∧
    b64u_decode_lib p = inl payload ∧ read_claims payload = inl c ∧
    iss c = issuer (config m) ∧ (∀ a, audience (config m) = Some a → aud c = Some a) ∧
    (check_exp = true → (now ≤ Z.of_N (exp c) + VERIFY_LEEWAY_SECS)%Z) ∧
    ∃ sig key, key ∈ verifying ∧ ml_verify key (h +:+ "." +:+ p) sig = true.
Proof.
  unfold verify_mldsa65, b64u_decode, read_json, invalid.
  destruct (segments token) as [|h [|p [|s [|]]]]; try done.
  destruct (b64u_decode_lib h) as [hb|] eqn:Hh; [|done]. simpl.
  destruct (read_header hb) as [[alg kid']|] eqn:Hr; [|done]. simpl.
  intros ([] & Halg%check_ok & ([] & _ & Hrest)%sbind_ok)%sbind_ok.
  apply bool_decide_eq_true in Halg as ->.
  destruct (b64u_decode_lib p) as [pb|] eqn:Hp; [|done]. simpl in Hrest.
  destruct (read_claims pb) as [c'|] eqn:Hc; [|done]. simpl in Hrest.
  apply sbind_ok in Hrest as ([] & Hiss%check_ok%bool_decide_eq_true & Hrest).
  apply sbind_ok in Hrest as ([] & Haud%check_ok & Hrest).
  apply sbind_ok in Hrest as ([] & Hexp%check_ok & Hrest).
  destruct (b64u_decode_lib s) as [sb|]; [|done]. simpl in Hrest.
  destruct (ml_signature sb) as [sig|]; [|done].
  destruct (existsb _ verifying) eqn:Hkeys; [|done]. injection Hrest as ->.
  apply existsb_elem in Hkeys as (key & Hkey & Hver).
  exists h, p, s, hb, kid', pb. split_and!; try done.
  - intros a Ha. rewrite Ha in Haud. by apply bool_decide_eq_true in Haud.
  - intros ->. apply negb_true_iff in Hexp. simpl in Hexp. apply Z.ltb_ge in Hexp.
    pose proof (deadline_le c). lia.
  - by exists sig, key.
Qed.

Lemma resolve_pems_keys i pems ks raws :
  resolve_pems i pems = inl (ks, raws) →
  Forall2 (λ key pem, decoding_from_ed_pem pem = inl key) ks pems ∧ length raws = length ks.
Proof.
  revert i ks raws. induction pems as [|pem pems IH]; intros i ks raws; simpl.
  { intros [= <- <-]. by split. }
  destruct (decoding_from_ed_pem pem) as [key|] eqn:Hk; [|done].
  destruct (ed25519_spki_raw32 pem); [|done].
  destruct (resolve_pems (S i) pems) as [[ks' raws']|] eqn:Hr; [|done].
  intros [= <- <-]. destruct (IH _ _ _ Hr). simpl. split; [by constructor|by f_equal].
Qed.

(** The three working profiles. *)
Lemma resolve_cases ed ml s :
  match KeySet_resolve ed ml s with
  | SharedSecret enc dec =>
      ed_configured ed = false ∧ ml_configured ml = false ∧
      enc = encoding_from_secret s ∧ dec = decoding_from_secret s
  | Ed25519 enc dec raws =>
      ml_configured ml = false ∧ verifying_pems ed ≠ [] ∧
      Forall2 (λ key pem, decoding_from_ed_pem pem = inl key) dec (verifying_pems ed) ∧
      length raws = length dec ∧ (is_Some enc ↔ is_Some (signing_pem ed))
  | MlDsa65 sk vks =>
      ed_configured ed = false ∧ ml_verifying ml ≠ [] ∧ vks = ml_decode_key <$> ml_verifying ml ∧
      sk = ml_from_seed <$> signing_seed ml
  | Broken _ => True
  end.
Proof.
  assert (Hed : ml_configured ml = false →
    match resolve_ed ed s with
    | SharedSecret enc dec => ed_configured ed = false ∧ ml_configured ml = false ∧
        enc = encoding_from_secret s ∧ dec = decoding_from_secret s
    | Ed25519 enc dec raws => ml_configured ml = false ∧ verifying_pems ed ≠ [] ∧
        Forall2 (λ key pem, decoding_from_ed_pem pem = inl key) dec (verifying_pems ed) ∧
        length raws = length dec ∧ (is_Some enc ↔ is_Some (signing_pem ed))
    | MlDsa65 _ _ => False
    | Broken _ => True
    end).
  { intros Hml. unfold resolve_ed, ed_configured.
    destruct (decide (verifying_pems ed = [])) as [Hv|Hv].
    - rewrite !(bool_decide_eq_true_2 (verifying_pems ed = [])) by done.
      case_bool_decide; simpl; [done|]. by split_and!.
    - rewrite !(bool_decide_eq_false_2 (verifying_pems ed = [])) by done.
      rewrite andb_false_r. destruct (resolve_pems 1 (verifying_pems ed)) as [[dec raws]|] eqn:Hp;
        [|done]. apply resolve_pems_keys in Hp as [Hall Hlen].
      destruct (signing_pem ed) as [pem|]; [destruct (encoding_from_ed_pem pem); [|done]|];
        split_and!; try done; split; by intros [? ?]. }
  unfold KeySet_resolve. destruct (ed_configured ed) eqn:Hedc, (ml_configured ml) eqn:Hmlc; simpl;
    try done.
  - unfold ml_configured in Hmlc. apply orb_false_iff in Hmlc as [Hs Hv].
    rewrite Hs, Hv. simpl. specialize (Hed eq_refl). destruct mldsa; by destruct (resolve_ed ed s).
  - unfold ml_configured in Hmlc. destruct mldsa; [|done].
    destruct (decide (ml_verifying ml = [])) as [Hv|Hv].
    + rewrite (bool_decide_eq_true_2 (ml_verifying ml = [])) in * by done.
      rewrite orb_false_r in Hmlc. by rewrite Hmlc.
    + rewrite (bool_decide_eq_false_2 (ml_verifying ml = [])) by done. rewrite andb_false_r. simpl.
      by split_and!.
  - unfold ml_configured in Hmlc. apply orb_false_iff in Hmlc as [Hs Hv].
    rewrite Hs, Hv. simpl. specialize (Hed eq_refl). destruct mldsa; by destruct (resolve_ed ed s).
Qed.

(** ** Properties *)

(** C27: alg-confusion and fallback: a token a manager accepts is signed under
    a key of the one profile its configuration selects.  It was accepted with
    the shared secret only if no asymmetric key material at all is
    configured; with the EdDSA whitelist and one of the configured public
    keys; or, with the exact [ML-DSA-65] header, the configured issuer and
    audience and one of the configured ML-DSA keys. *)
Theorem accepted_token_uses_configured_profile (c : SessionConfig) token check_exp now claims :
  let m := TokenManager_new c in
  let v alg := {| v_algorithm := alg; v_issuer := issuer c; v_exp := check_exp;
                  v_audience := audience c |} in
  verify_with m token check_exp now = SOk claims →
  (ed_configured (ed25519 c) = false ∧ ml_configured (mldsa65 c) = false ∧
     decode token (decoding_from_secret (secret c)) (v HS256) now = inl claims) ∨
  (ml_configured (mldsa65 c) = false ∧
     ∃ pem key, pem ∈ verifying_pems (ed25519 c) ∧ decoding_from_ed_pem pem = inl key ∧
       decode token key (v EdDSA) now = inl claims) ∨
  (ed_configured (ed25519 c) = false ∧
     ∃ h p s header_bytes kid' raw sig, segments token = [h; p; s] ∧
       b64u_decode_lib h = inl header_bytes ∧
       read_header header_bytes = inl (Some ML_DSA_65_ALG, kid') ∧
       iss claims = issuer c ∧ raw ∈ ml_verifying (mldsa65 c) ∧
       ml_verify (ml_decode_key raw) (h +:+ "." +:+ p) sig = true).
Proof.
  intros m v. unfold verify_with. pose proof (resolve_cases (ed25519 c) (mldsa65 c) (secret c)) as Hk.
  change (keys m) with (KeySet_resolve (ed25519 c) (mldsa65 c) (secret c)).
  destruct (KeySet_resolve _ _ _) as [enc dec|enc dec raws|sk vks|msg] eqn:Hkeys; [..|done].
  - destruct Hk as (Hed & Hml & _ & ->).
    intros (pre & key & post & Heq & Hd & _)%verify_jsonwebtoken_ok%try_keys_ok. left.
    apply (f_equal length) in Heq as Hlen. rewrite length_app in Hlen. simpl in Hlen.
    destruct pre; simpl in *; [|lia]. injection Heq as <- _.
    change (keys m) with (KeySet_resolve (ed25519 c) (mldsa65 c) (secret c)) in Hd.
    rewrite Hkeys in Hd. by split_and!.
  - destruct Hk as (Hml & _ & Hall & _).
    intros (pre & key & post & -> & Hd & _)%verify_jsonwebtoken_ok%try_keys_ok. right; left.
    split; [done|]. destruct (Forall2_lookup_l _ _ _ (length pre) key Hall) as (pem & Hpem & Hkey).
    { by apply list_lookup_middle. }
    exists pem, key. split_and!; [by eapply list_elem_of_lookup_2|done|].
    change (keys m) with (KeySet_resolve (ed25519 c) (mldsa65 c) (secret c)) in Hd.
    by rewrite Hkeys in Hd.
  - destruct Hk as (Hed & _ & -> & _).
    intros (h & p & s & hb & kid' & pb & Hseg & Hh & Hr & _ & _ & Hiss & _ & _ & sig & key & Hin & Hv)
      %verify_mldsa65_ok. right; right. split; [done|].
    apply list_elem_of_fmap in Hin as (raw & -> & Hraw). by exists h, p, s, hb, kid', raw, sig.
Qed.

Section Laws.
(** A token carries one set of claims, and [decode] refuses it once its
    expiry is more than the default leeway of 60 seconds past. *)
Hypothesis decode_payload_law : ∀ token k1 k2 v1 v2 n1 n2 c1 c2,
  decode token k1 v1 n1 = inl c1 → decode token k2 v2 n2 = inl c2 → c1 = c2.
Hypothesis decode_exp_law : ∀ token k v now c,
  decode token k v now = inl c → v_exp v = true → (now ≤ Z.of_N (exp c) + VERIFY_LEEWAY_SECS)%Z.
(** What was encoded decodes under a matching key and validation. *)
Variable key_pair : EncodingKey → DecodingKey → Prop.
Hypothesis decode_encode_law : ∀ h c ek dk v now token,
  key_pair ek dk → encode h c ek = inl token →
  v_algorithm v = h_alg h → v_issuer v = iss c → v_audience v = aud c →
  (v_exp v = true → now ≤ Z.of_N (exp c) + VERIFY_LEEWAY_SECS)%Z → decode token dk v now = inl c.
(** base64url uses no dot and decodes what it encoded; so does the JSON of
    headers and claims; a matching ML-DSA-65 key accepts a signature. *)
Hypothesis b64_law : ∀ s, b64u_decode_lib (b64u_encode s) = inl s.
Hypothesis b64_dot_law : ∀ s, dot ∉ String.list_ascii_of_string (b64u_encode s).
Hypothesis header_law : ∀ alg typ k, read_header (write_header alg typ k) = inl (Some alg, k).
Hypothesis claims_law : ∀ c p, write_claims c = inl p → read_claims p = inl c.
Variable ml_pair : MlSigningKey → MlVerifyingKey → Prop.
Hypothesis ml_law : ∀ sk vk msg, ml_pair sk vk →
  ∃ sig, ml_signature (ml_sign sk msg) = Some sig ∧ ml_verify vk msg sig = true.
Hypothesis uuid_law : ∀ u, uuid_parse_str (uuid_to_string u) = Some u.

Lemma verify_exp m token now c :
  verify m token now = SOk c → (now ≤ Z.of_N (exp c) + VERIFY_LEEWAY_SECS)%Z.
Proof.
  unfold verify, verify_with. destruct (keys m) as [enc dec|enc dec raws|sk vks|msg]; [..|done].
  1,2: intros (pre & key & post & _ & Hd & _)%verify_jsonwebtoken_ok%try_keys_ok;
    by apply (decode_exp_law _ _ _ _ _ Hd).
  intros (? & ? & ? & ? & ? & ? & _ & _ & _ & _ & _ & _ & _ & Hexp & _)%verify_mldsa65_ok. auto.
Qed.

Lemma verify_deterministic m token n1 n2 c1 c2 :
  verify m token n1 = SOk c1 → verify m token n2 = SOk c2 → c1 = c2.
Proof.
  unfold verify, verify_with. destruct (keys m) as [enc dec|enc dec raws|sk vks|msg]; [..|done].
  1,2: intros (? & ? & ? & _ & Hd1 & _)%verify_jsonwebtoken_ok%try_keys_ok
    (? & ? & ? & _ & Hd2 & _)%verify_jsonwebtoken_ok%try_keys_ok;
    exact (decode_payload_law _ _ _ _ _ _ _ _ _ Hd1 Hd2).
  intros (h1 & p1 & s1 & ? & ? & pb1 & Hseg1 & _ & _ & Hp1 & Hc1 & _)%verify_mldsa65_ok
    (h2 & p2 & s2 & ? & ? & pb2 & Hseg2 & _ & _ & Hp2 & Hc2 & _)%verify_mldsa65_ok.
  rewrite Hseg1 in Hseg2. injection Hseg2 as <- <- <-. congruence.
Qed.

(** The manager signs with a key one of its verifying keys matches. *)
Definition can_verify_own (m : TokenManager) : Prop :=
  match keys m with
  | SharedSecret enc dec => key_pair enc dec
  | Ed25519 (Some enc) dec _ => ∃ key, key ∈ dec ∧ key_pair enc key
  | MlDsa65 (Some sk) vks => ∃ key, key ∈ vks ∧ ml_pair sk key
  | _ => False
  end.

Lemma try_keys_signed h c ek token v now decoding last_err :
  encode h c ek = inl token → (∃ key, key ∈ decoding ∧ key_pair ek key) →
  v_algorithm v = h_alg h → v_issuer v = iss c → v_audience v = aud c →
  (v_exp v = true → now ≤ Z.of_N (exp c) + VERIFY_LEEWAY_SECS)%Z →
  try_keys token v now decoding last_err = inl c.
Proof.
  intros Henc (key & Hin & Hpair) Halg Hiss Haud Hexp.
  assert (Hdec : decode token key v now = inl c) by by eapply decode_encode_law.
  revert last_err. induction decoding as [|k rest IH]; intros last_err; simpl.
  { by apply not_elem_of_nil in Hin. }
  destruct (decode token k v now) as [c'|e] eqn:Hk.
  - f_equal. exact (decode_payload_law _ _ _ _ _ _ _ _ _ Hk Hdec).
  - apply IH. apply elem_of_cons in Hin as [->|]; [congruence|done].
Qed.

Lemma segments_joined h p s :
  (∀ x, x ∈ [h; p; s] → dot ∉ String.list_ascii_of_string x) →
  segments (h +:+ "." +:+ p +:+ "." +:+ s) = [h; p; s].
Proof.
  intros Hno. unfold segments. rewrite !list_ascii_of_string_app. simpl.
  rewrite split_at_app, split_at_app, split_at_no_sep by (apply Hno; set_solver). simpl.
  by rewrite !String.string_of_list_ascii_of_string.
Qed.

Lemma kid_matches_refl k : kid_matches k k = true.
Proof. destruct k; [|done]. by apply bool_decide_eq_true. Qed.

Lemma decode_encoded s : b64u_decode (b64u_encode s) = SOk s.
Proof. unfold b64u_decode. by rewrite b64_law. Qed.

Lemma verify_signed_mldsa65 m c token now sk vks :
  (Z.of_N (exp c) + VERIFY_LEEWAY_SECS < 2 ^ 63)%Z →
  (∃ key, key ∈ vks ∧ ml_pair sk key) →
  sign_mldsa65_compact sk c (kid (config m)) = SOk token →
  iss c = issuer (config m) → aud c = audience (config m) →
  (now ≤ Z.of_N (exp c) + VERIFY_LEEWAY_SECS)%Z → verify_mldsa65 m token vks true now = SOk c.
Proof.
  intros Hfit (key & Hin & Hpair) Hsign Hiss Haud Hexp. unfold sign_mldsa65_compact in Hsign.
  destruct (write_claims c) as [pb|] eqn:Hpb; [|done]. injection Hsign as <-.
  set (h := b64u_encode _). set (p := b64u_encode pb). set (msg := h +:+ "." +:+ p).
  assert (Hseg : segments (msg +:+ "." +:+ b64u_encode (ml_sign sk msg)) =
            [h; p; b64u_encode (ml_sign sk msg)]).
  { unfold msg. rewrite !string_app_assoc. apply segments_joined.
    intros x Hx. subst h p. set_unfold in Hx. destruct_or! Hx; subst; apply b64_dot_law. }
  unfold verify_mldsa65. rewrite Hseg. subst h p.
  rewrite !decode_encoded, !sbind_ret, header_law. cbn [read_json]. rewrite sbind_ret.
  rewrite sbind_check by by apply bool_decide_eq_true. rewrite sbind_check by apply kid_matches_refl.
  rewrite (claims_law _ _ Hpb). cbn [read_json]. rewrite sbind_ret.
  rewrite sbind_check by by apply bool_decide_eq_true.
  rewrite sbind_check by (rewrite <- Haud; destruct (aud c); [by apply bool_decide_eq_true|done]).
  rewrite sbind_check by (apply negb_true_iff, andb_false_iff; right; rewrite deadline_small by done;
    apply Z.ltb_ge; lia).
  destruct (ml_law sk key msg Hpair) as (sig & Hsig & Hver).
  rewrite sbind_ret, Hsig. assert (existsb (λ k, ml_verify k msg sig) vks = true) as Hex.
  { apply existsb_elem. by exists key. }
  change (existsb _ vks) with (existsb (λ k, ml_verify k msg sig) vks). by rewrite Hex.
Qed.

Lemma verify_signed m c token now :
  (Z.of_N (exp c) + VERIFY_LEEWAY_SECS < 2 ^ 63)%Z →
  can_verify_own m → sign m c = SOk token → iss c = issuer (config m) → aud c = audience (config m) →
  (now ≤ Z.of_N (exp c) + VERIFY_LEEWAY_SECS)%Z → verify m token now = SOk c.
Proof.
  unfold can_verify_own, sign, verify, verify_with. intros Hfit Hown Hsign Hiss Haud Hexp.
  destruct (keys m) as [enc dec|[enc|] dec raws|[sk|] vks|msg] eqn:Hkeys; try done.
  3: by eapply verify_signed_mldsa65.
  all: apply verify_jsonwebtoken_ok; rewrite Hkeys;
    destruct (encode _ c enc) as [t|] eqn:Henc; simpl in Hsign; try done; injection Hsign as <-;
    eapply try_keys_signed; try done; simpl; auto; try congruence.
  exists dec. by split; [left|].
Qed.

Lemma stamped_claims m c :
  iss (stamp m c) = iss c ∧ exp (stamp m c) = exp c ∧ sub (stamp m c) = sub c ∧
  token_type (stamp m c) = token_type c ∧ claims_username (stamp m c) = claims_username c ∧
  claims_roles (stamp m c) = claims_roles c ∧
  (aud c = None → aud (stamp m c) = audience (config m)).
Proof. unfold stamp. by destruct (audience (config m)) eqn:?; split_and!. Qed.

(** The expiry of a token issued at [now] does not wrap. *)
Definition lifetime_fits (now ttl : Z) : Prop :=
  (0 ≤ now)%Z ∧ (0 ≤ ttl)%Z ∧ (now + ttl + VERIFY_LEEWAY_SECS < 2 ^ 63)%Z.

Lemma new_claims_exp uuid username ty ttl issuer now id :
  lifetime_fits now ttl →
  Z.of_N (exp (TokenClaims_new uuid username ty ttl issuer now id)) = (now + ttl)%Z.
Proof.
  unfold lifetime_fits, VERIFY_LEEWAY_SECS. intros (? & ? & ?). simpl.
  unfold wrapping_add_u64, u64_modulus. rewrite (Z.mod_small now), Z.mod_small by lia. lia.
Qed.

(** C28: an issued pair passes the issuing manager's own verifier until its
    lifetime and the leeway have passed, configured audience included; its
    refresh token refreshes to a pair of the same user and roles, and its
    access token never does.  The manager must hold a verifying key of its
    signing key, and the lifetimes must not wrap. *)
Theorem issued_pair_verifies m d d' user username roles pair now :
  can_verify_own m → lifetime_fits (now_access d) (access_ttl_secs (config m)) →
  lifetime_fits (now_refresh d) (refresh_ttl (config m)) →
  issue_pair m d user username roles = SOk pair →
  ((now ≤ now_access d + access_ttl_secs (config m) + VERIFY_LEEWAY_SECS)%Z →
     verify m (access_token pair) now = SOk (access_claims m d user username roles) ∧
     refresh m d' (access_token pair) now = invalid "expected refresh token") ∧
  ((now ≤ now_refresh d + refresh_ttl (config m) + VERIFY_LEEWAY_SECS)%Z →
     verify m (refresh_token pair) now = SOk (refresh_claims m d user username roles) ∧
     refresh m d' (refresh_token pair) now = issue_pair m d' user username roles).
Proof.
  unfold issue_pair. intros Hown Hf1 Hf2 (access & Ha & (ref & Hr & [= <-])%sbind_ok)%sbind_ok. simpl.
  destruct (stamped_claims m (with_roles (with_session (TokenClaims_new (uuid_to_string user) username
    Access (access_ttl_secs (config m)) (issuer (config m)) (now_access d) (draw_access_jti d))
    (draw_sid d)) roles)) as (Hi1 & He1 & _ & Ht1 & _ & _ & Hu1).
  destruct (stamped_claims m (with_roles (with_session (TokenClaims_new (uuid_to_string user) username
    Refresh (refresh_ttl (config m)) (issuer (config m)) (now_refresh d) (draw_refresh_jti d))
    (draw_sid d)) roles)) as (Hi2 & He2 & Hs2 & Ht2 & Hn2 & Hro2 & Hu2).
  split; intros Hexp.
  - assert (Hv : verify m access now = SOk (access_claims m d user username roles)).
    { assert (He : Z.of_N (exp (access_claims m d user username roles)) =
              (now_access d + access_ttl_secs (config m))%Z).
      { unfold access_claims. rewrite He1. by apply new_claims_exp. }
      destruct Hf1 as (_ & _ & ?).
      eapply verify_signed; [by rewrite He|done|exact Ha|exact Hi1|by apply Hu1|by rewrite He]. }
    split; [done|]. unfold refresh, verify_refresh_claims. rewrite Hv. simpl.
    by rewrite bool_decide_eq_true_2 by (unfold access_claims; rewrite Ht1; done).
  - assert (Hv : verify m ref now = SOk (refresh_claims m d user username roles)).
    { assert (He : Z.of_N (exp (refresh_claims m d user username roles)) =
              (now_refresh d + refresh_ttl (config m))%Z).
      { unfold refresh_claims. rewrite He2. by apply new_claims_exp. }
      destruct Hf2 as (_ & _ & ?).
      eapply verify_signed; [by rewrite He|done|exact Hr|exact Hi2|by apply Hu2|by rewrite He]. }
    split; [done|]. unfold refresh, verify_refresh_claims. rewrite Hv. simpl.
    rewrite bool_decide_eq_false_2 by (unfold refresh_claims; rewrite Ht2; by intros []).
    assert (uuid_parse_str (sub (refresh_claims m d user username roles)) = Some user) as ->.
    { unfold refresh_claims. rewrite Hs2. simpl. apply uuid_law. }
    simpl. unfold refresh_claims. by rewrite Hn2, Hro2.
Qed.

(** A presentation of a token whose session id was used at [last], in a
    history of the store: the clock is read twice, by the verifier ([nv]) and
    for the rotation ([nr]), and the rotation is refused unless the first
    reading lies within the rejection window and the second beyond it. *)
Lemma rotation_refused m token c s st t uses last t0 d nv nr :
  verify m token t0 = SOk c → sid c = Some s →
  rotations st t uses → head (uses s) = Some last → (t ≤ nr)%Z →
  (Z.of_N (exp c) ≤ last + refresh_ttl_secs st)%Z →
  (nr ≤ last + window_secs st ∨ last + window_secs st < nv)%Z →
  ∃ e, refresh_rotating m d token st nv nr = (SErr e, st).
Proof.
  intros Hver Hsid Hrot Hlast Hle Hlife Hedge. unfold refresh_rotating, verify_refresh_claims.
  destruct (verify m token nv) as [c'|e] eqn:Hv; simpl; [|by eexists].
  pose proof (verify_exp m token nv c' Hv) as Hexp.
  rewrite <- (verify_deterministic m token t0 nv c c' Hver Hv) in *.
  case_bool_decide; simpl; [by eexists|].
  destruct (uuid_parse_str (sub c)) as [user|]; simpl; [|by eexists]. rewrite Hsid.
  destruct (rotations_remembered st t uses Hrot) as [_ Hrem].
  destruct (Hrem s last Hlast) as [Hl Hcase]. unfold window_secs in *.
  destruct Hcase as [?|(ts & Hts & Hle')]; [lia|].
  unfold check_and_revoke, window_secs. rewrite Hts. rewrite (proj2 (Z.leb_le _ _)) by lia. by eexists.
Qed.

(** C12: When a used refresh token rotates again.  Let the session id of a
    token have been used at [last], in any history of rotations, prunes and
    cleanups of a store whose lifetime covers the token's from then on.  A
    later presentation is refused and leaves the store as it was, except
    when its two readings of the clock straddle the end of the rejection
    window: the verifier reads at most [last] plus the window and the
    rotation reads more.  A refresh token that passes the verifier with the
    first reading then does yield a second pair, unless a [revoke] has
    renewed the entry.  In particular no presentation with one reading
    rotates again. *)
Theorem refresh_token_rotates_once m token c s st t uses last t0 d nv nr :
  verify m token t0 = SOk c → sid c = Some s →
  rotations st t uses → head (uses s) = Some last → (t ≤ nr)%Z →
  (Z.of_N (exp c) ≤ last + refresh_ttl_secs st)%Z →
  ((nr ≤ last + window_secs st ∨ last + window_secs st < nv)%Z →
     ∃ e, refresh_rotating m d token st nv nr = (SErr e, st)) ∧
  (∀ user, verify m token nv = SOk c → token_type c = Refresh → uuid_parse_str (sub c) = Some user →
     (∀ ts, revoked st !! s = Some ts → ts + window_secs st < nr)%Z →
     (refresh_rotating m d token st nv nr).1 = issue_pair m d user (claims_username c) (claims_roles c)).
Proof.
  intros Hver Hsid Hrot Hlast Hle Hlife. split.
  - by eapply rotation_refused.
  - intros user Hv Hty Huser Hold. unfold refresh_rotating, verify_refresh_claims. rewrite Hv. simpl.
    rewrite Hty, bool_decide_eq_false_2 by (by intros []). simpl. rewrite Huser, Hsid. simpl.
    unfold check_and_revoke. destruct (revoked st !! s) as [ts|]; [|done].
    by rewrite (proj2 (Z.leb_gt _ _)) by by apply Hold.
Qed.
End Laws.
End Manager.

(** ** A library of tokens

    Tokens that carry the claims and the key they were signed with, as a
    string of bits: the laws of the theorems hold of it. *)
Module Toy.
Import Seal.
#[local] Instance algorithm_eq_dec : EqDecision Algorithm.
Proof. solve_decision. Defined.
#[local] Program Instance algorithm_countable : Countable Algorithm :=
  inj_countable' (λ a, match a with HS256 => true | EdDSA => false end)
    (λ b : bool, if b then HS256 else EdDSA) _.
Next Obligation. by intros []. Qed.
#[local] Program Instance token_type_countable : Countable TokenType :=
  inj_countable' (λ a, match a with Access => true | Refresh => false end)
    (λ b : bool, if b then Access else Refresh) _.
Next Obligation. by intros []. Qed.

Definition fields (c : TokenClaims) : list positive :=
  [countable.encode (sub c); countable.encode (claims_username c); countable.encode (token_type c);
   countable.encode (iat c); countable.encode (exp c); countable.encode (iss c); countable.encode (jti c);
   countable.encode (sid c); countable.encode (claims_roles c); countable.encode (claims_user_id c);
   countable.encode (tenant_id c); countable.encode (relay_id c); countable.encode (claims_workspace_id c);
   countable.encode (claims_permissions c); countable.encode (aud c)].

Definition of_fields (l : list positive) : option TokenClaims :=
  match l with
  | [p1; p2; p3; p4; p5; p6; p7; p8; p9; p10; p11; p12; p13; p14; p15] =>
      f1 ← countable.decode p1; f2 ← countable.decode p2; f3 ← countable.decode p3;
      f4 ← countable.decode p4; f5 ← countable.decode p5; f6 ← countable.decode p6;
      f7 ← countable.decode p7; f8 ← countable.decode p8; f9 ← countable.decode p9;
      f10 ← countable.decode p10; f11 ← countable.decode p11; f12 ← countable.decode p12;
      f13 ← countable.decode p13; f14 ← countable.decode p14; f15 ← countable.decode p15;
      Some {| sub := f1; claims_username := f2; token_type := f3; iat := f4; exp := f5;
              iss := f6; jti := f7; sid := f8; claims_roles := f9; claims_user_id := f10;
              tenant_id := f11; relay_id := f12; claims_workspace_id := f13;
              claims_permissions := f14; aud := f15 |}
  | _ => None
  end.

Lemma of_fields_fields c : of_fields (fields c) = Some c.
Proof. destruct c. unfold of_fields, fields. cbn -[countable.encode countable.decode].
  by repeat (rewrite decode_encode; cbn -[countable.encode countable.decode]). Qed.

Definition toy_encode (h : Header) (c : TokenClaims) (k : string) : string + JwtError :=
  inl (seal [countable.encode (h_alg h); countable.encode k; countable.encode (fields c)]).

(** Algorithm, key and claims of a token. *)
Definition toy_open (token : string) : option (Algorithm * string * TokenClaims) :=
  l ← unseal token;
  match l with
  | [pa; pk; pf] =>
      a ← countable.decode pa;
      k ← countable.decode pk;
      f ← countable.decode pf;
      c ← of_fields f;
      Some (a, k, c)
  | _ => None
  end.

Definition toy_decode (token k : string) (v : Validation) (now : Z) : TokenClaims + JwtError :=
  match toy_open token with
  | None => inr (OtherJwtError "malformed")
  | Some (a, k', c) =>
      if negb (bool_decide (k' = k ∧ a = v_algorithm v ∧ iss c = v_issuer v ∧
                 (v_audience v = None ∨ v_audience v = aud c)))
      then inr (OtherJwtError "refused")
      else if v_exp v && (Z.of_N (exp c) + VERIFY_LEEWAY_SECS <? now)%Z then inr ExpiredSignature
      else inl c
  end.

Lemma toy_open_encode h c k token :
  toy_encode h c k = inl token → toy_open token = Some (h_alg h, k, c).
Proof.
  intros [= <-]. unfold toy_open. rewrite unseal_seal.
  cbn -[countable.decode countable.encode of_fields fields].
  repeat (rewrite decode_encode; cbn -[countable.decode countable.encode of_fields fields]).
  by rewrite of_fields_fields.
Qed.

Definition unseal_string (s : string) : string + string :=
  match unseal s with
  | Some [p] => match countable.decode p with
                | Some x => inl x
                | None => inr "malformed"
                end
  | _ => inr "malformed"
  end.

#[local] Instance libs : TokenLibs := {|
  EncodingKey := string;
  DecodingKey := string;
  encoding_from_secret := λ s, s;
  decoding_from_secret := λ s, s;
  encoding_from_ed_pem := λ s, inl s;
  decoding_from_ed_pem := λ s, inl s;
  encode := toy_encode;
  decode := toy_decode;
  insecure_decode := λ t, match toy_open t with
                          | Some (_, _, c) => inl c
                          | None => inr (OtherJwtError "malformed")
                          end;
  MlSigningKey := string;
  MlVerifyingKey := string;
  MlSignature := string;
  ml_from_seed := λ s, s;
  ml_decode_key := λ s, s;
  ml_encode_key := λ s, s;
  ml_sign := λ sk msg, seal [countable.encode sk; countable.encode msg];
  ml_signature := λ s, Some s;
  ml_verify := λ vk msg sig, bool_decide (sig = seal [countable.encode vk; countable.encode msg]);
  b64u_encode := λ s, seal [countable.encode s];
  b64u_decode_lib := unseal_string;
  b64_standard_decode := λ s, Some s;
  write_header := λ alg typ k, seal [countable.encode (alg, k)];
  write_claims := λ c, inl (seal (fields c));
  read_header := λ s, match unseal s with
                      | Some [p] => match countable.decode p with
                                    | Some (alg, k) => inl (Some alg, k)
                                    | None => inr "malformed"
                                    end
                      | _ => inr "malformed"
                      end;
  read_claims := λ s, match unseal s ≫= of_fields with
                      | Some c => inl c
                      | None => inr "malformed"
                      end;
  is_blank := λ s, bool_decide (s = "");
  debug_str := λ s, s;
  uuid_to_string := λ u, bits (N.succ_pos u);
  uuid_parse_str := λ s, Pos.pred_N <$> of_bits s;
|}.

(** An HS256 manager that requires an audience. *)
Definition cfg : SessionConfig := config_with_audience (from_secret "a secret") "api".
Definition manager : TokenManager := TokenManager_new true cfg.
Definition draws : IssueDraws := {|
  draw_sid := "s"; draw_access_jti := "a"; draw_refresh_jti := "r";
  now_access := 1000; now_refresh := 1000 |}.
Definition pair : TokenPair :=
  match issue_pair manager draws 7 "ann" ["editor"] with
  | SOk p => p
  | SErr _ => {| access_token := ""; refresh_token := ""; pair_token_type := ""; expires_in := 0 |}
  end.

(** *** The laws *)

Lemma toy_decode_inv token k v now c :
  toy_decode token k v now = inl c →
  (∃ a k', toy_open token = Some (a, k', c)) ∧
  (v_exp v = true → (now ≤ Z.of_N (exp c) + VERIFY_LEEWAY_SECS)%Z).
Proof.
  unfold toy_decode. destruct (toy_open token) as [[[a k'] c']|]; [|done].
  destruct (negb _); [done|]. destruct (v_exp v); simpl.
  - destruct (Z.ltb_spec (Z.of_N (exp c') + VERIFY_LEEWAY_SECS) now); [done|]. intros [= <-]. by eauto.
  - intros [= <-]. split; [by eauto|done].
Qed.

Lemma payload_law token k1 k2 v1 v2 n1 n2 c1 c2 :
  toy_decode token k1 v1 n1 = inl c1 → toy_decode token k2 v2 n2 = inl c2 → c1 = c2.
Proof.
  intros [(a1 & k1' & H1) _]%toy_decode_inv [(a2 & k2' & H2) _]%toy_decode_inv. congruence.
Qed.

Lemma exp_law token k v now c :
  toy_decode token k v now = inl c → v_exp v = true → (now ≤ Z.of_N (exp c) + VERIFY_LEEWAY_SECS)%Z.
Proof. by intros [_ ?]%toy_decode_inv. Qed.

Lemma roundtrip_law h c ek dk v now token :
  ek = dk → toy_encode h c ek = inl token →
  v_algorithm v = h_alg h → v_issuer v = iss c → v_audience v = aud c →
  (v_exp v = true → now ≤ Z.of_N (exp c) + VERIFY_LEEWAY_SECS)%Z → toy_decode token dk v now = inl c.
Proof.
  intros -> Henc Ha Hi Hu Hexp. unfold toy_decode. rewrite (toy_open_encode _ _ _ _ Henc).
  rewrite bool_decide_eq_true_2 by (split_and!; [done..|by right]). simpl.
  destruct (v_exp v); simpl; [|done].
  destruct (Z.ltb_spec (Z.of_N (exp c) + VERIFY_LEEWAY_SECS) now); [|done]. specialize (Hexp eq_refl). lia.
Qed.

Lemma toy_b64_law (s : string) : unseal_string (seal [countable.encode s]) = inl s.
Proof. unfold unseal_string. by rewrite unseal_seal, decode_encode. Qed.

Lemma toy_b64_dot_law (s : string) : dot ∉ String.list_ascii_of_string (seal [countable.encode s]).
Proof.
  unfold seal. generalize (countable.encode [countable.encode s]). intros p.
  induction p as [p IH|p IH|]; cbn; [..|by apply not_elem_of_nil];
    (apply not_elem_of_cons; split; [discriminate|exact IH]).
Qed.

Lemma toy_header_law (alg typ : string) (k : option string) :
  read_header (write_header alg typ k) = inl (Some alg, k).
Proof. cbn -[countable.decode countable.encode seal unseal]. by rewrite unseal_seal, decode_encode. Qed.

Lemma toy_claims_law c p : write_claims c = inl p → read_claims p = inl c.
Proof.
  intros [= <-]. cbn -[countable.decode countable.encode seal unseal of_fields fields].
  rewrite unseal_seal. cbn -[of_fields fields]. by rewrite of_fields_fields.
Qed.

Lemma toy_ml_law (sk vk msg : string) : sk = vk →
  ∃ sig, ml_signature (ml_sign sk msg) = Some sig ∧ ml_verify vk msg sig = true.
Proof. intros ->. eexists. split; [done|]. by apply bool_decide_eq_true. Qed.

Lemma toy_uuid_law u : uuid_parse_str (uuid_to_string u) = Some u.
Proof. cbn. rewrite of_bits_bits. cbn. by rewrite N.pos_pred_succ. Qed.
End Toy.

Section Witnesses.
#[local] Existing Instance Toy.libs.

Lemma accepted_token_uses_configured_profile_witness :
  ed_configured (ed25519 Toy.cfg) = false ∧ ml_configured (mldsa65 Toy.cfg) = false ∧
  decode (access_token Toy.pair) (decoding_from_secret "a secret")
    {| v_algorithm := HS256; v_issuer := "kirino"; v_exp := true; v_audience := Some "api" |} 1200
  = inl (access_claims Toy.manager Toy.draws 7 "ann" ["editor"]).
Proof.
  destruct (accepted_token_uses_configured_profile (H := Toy.libs) true Toy.cfg (access_token Toy.pair) true 1200
    (access_claims Toy.manager Toy.draws 7 "ann" ["editor"])) as [H|[(_ & pem & key & Hin & _)|
    (_ & ? & ? & ? & ? & ? & raw & ? & _ & _ & _ & _ & Hin & _)]].
  - by vm_compute.
  - exact H.
  - by apply not_elem_of_nil in Hin.
  - by apply not_elem_of_nil in Hin.
Defined.

Lemma issued_pair_verifies_witness :
  verify Toy.manager (access_token Toy.pair) 1900 =
    SOk (access_claims Toy.manager Toy.draws 7 "ann" ["editor"]) ∧
  refresh Toy.manager Toy.draws (refresh_token Toy.pair) 1900 =
    issue_pair Toy.manager Toy.draws 7 "ann" ["editor"].
Proof.
  destruct (issued_pair_verifies (H := Toy.libs) Toy.payload_law Toy.exp_law eq Toy.roundtrip_law Toy.toy_b64_law
    Toy.toy_b64_dot_law Toy.toy_header_law Toy.toy_claims_law eq Toy.toy_ml_law Toy.toy_uuid_law
    Toy.manager Toy.draws Toy.draws 7 "ann" ["editor"] Toy.pair 1900) as [Ha Hr].
  - reflexivity.
  - unfold lifetime_fits. by vm_compute.
  - unfold lifetime_fits. by vm_compute.
  - by vm_compute.
  - split; [apply Ha|apply Hr]; vm_compute; discriminate.
Defined.

(** The refresh token of the pair, whose lifetime ends at 605800, used at
    1000.  It is refused at 1200; verified at the last instant of the window
    and rotated one second later it yields a second pair. *)
Lemma refresh_token_rotates_once_witness :
  let st := (check_and_revoke (RefreshRevocationStore_new 604800) "s" 1000).2 in
  let present := refresh_rotating Toy.manager Toy.draws (refresh_token Toy.pair) st in
  (∃ e, present 1200%Z 1200%Z = (SErr e, st)) ∧
  (present 605860 605861)%Z.1 = issue_pair Toy.manager Toy.draws 7 "ann" ["editor"].
Proof.
  intros st present.
  assert (Hrot : rotations st 1000 (λ x, if decide (x = "s" ∧ true = true) then [1000%Z] else [])).
  { apply (rotations_check (RefreshRevocationStore_new 604800) 0 (λ _, []) "s" 1000); [by constructor|done]. }
  pose proof (λ nv nr, refresh_token_rotates_once (H := Toy.libs) Toy.payload_law Toy.exp_law Toy.manager
    (refresh_token Toy.pair) (refresh_claims Toy.manager Toy.draws 7 "ann" ["editor"]) "s" _ _ _ 1000 1050
    Toy.draws nv nr ltac:(by vm_compute) eq_refl Hrot eq_refl) as Hall.
  split.
  - apply (Hall 1200 1200)%Z; [done|by vm_compute|left; by vm_compute].
  - apply (Hall 605860 605861)%Z; [done|by vm_compute..|]. intros ts Hts. vm_compute in Hts. injection Hts as <-. by vm_compute.
Defined.
End Witnesses.
