(* ===== verification/Middleware.v ===== *)
(** * HTTP middleware: src/packages/session/src/middleware/mod.rs, axum.rs
    and actix.rs

    How a request becomes verified claims: the token is found in a header, a
    cookie or a query parameter, and [TokenManager::verify] decides.  The
    frameworks are what they hand over: a request has its extensions, the
    [to_str] of its headers and its query string.  A header that [to_str]
    accepts is visible ASCII, spaces and tabs; [is_whitespace] is white space
    within ASCII. *)

From S2P Require Import Prelude Traits Replay Tokens.

Abbreviation chars := (list Ascii.ascii).

Definition code (c : Ascii.ascii) : N := Ascii.N_of_ascii c.
Definition is_whitespace (c : Ascii.ascii) : bool := ((9 <=? code c) && (code c <=? 13))%N || (code c =? 32)%N.

Fixpoint trim_start (s : chars) : chars :=
  match s with
  | c :: rest => if is_whitespace c then trim_start rest else s
  | [] => []
  end.
Definition str_trim (s : chars) : chars := reverse (trim_start (reverse (trim_start s))).

(** [str::split_once] at a character. *)
Fixpoint split_once (sep : Ascii.ascii) (s : chars) : option (chars * chars) :=
  match s with
  | [] => None
  | c :: rest =>
      if decide (c = sep) then Some ([], rest)
      else '(before, after) ← split_once sep rest; Some (c :: before, after)
  end.
(** [str::strip_prefix]. *)
Fixpoint strip (prefix s : chars) : option chars :=
  match prefix, s with
  | [], _ => Some s
  | c :: prefix, d :: s => if decide (c = d) then strip prefix s else None
  | _ :: _, [] => None
  end.

Definition ascii_lower_code (c : Ascii.ascii) : N := (if (65 <=? code c) && (code c <=? 90) then code c + 32 else code c)%N.
Definition eq_ignore_ascii_case (a b : chars) : bool := bool_decide (ascii_lower_code <$> a = ascii_lower_code <$> b).

Definition space : Ascii.ascii := Ascii.ascii_of_N 32.
Definition semicolon : Ascii.ascii := Ascii.ascii_of_N 59.
Definition ampersand : Ascii.ascii := Ascii.ascii_of_N 38.
Definition equals : Ascii.ascii := Ascii.ascii_of_N 61.

Definition bearer_token (header_value : chars) : option chars :=
  '(scheme, token) ← split_once space header_value;
  let token := trim_start token in
  if eq_ignore_ascii_case scheme (String.list_ascii_of_string "bearer") && negb (bool_decide (token = []))
  then Some token else None.

(** ** Sources of a token *)

Inductive AuthSource := Bearer | Cookie (name : string) | Query (name : string).
Record MultiJwtConfig := { sources : list AuthSource }.

Inductive AuthRejection := MissingHeader | InvalidFormat | Invalid | Expired | MissingManager.

Definition into_response (r : AuthRejection) : Z * string :=
  match r with
  | MissingHeader => (401%Z, "missing credentials")
  | InvalidFormat => (401%Z, "invalid credential format")
  | Invalid => (401%Z, "invalid token")
  | Expired => (401%Z, "token expired")
  | MissingManager => (500%Z, "auth not configured")
  end.

Definition auth_rejection (e : SessionError) : AuthRejection :=
  match e with
  | TokenExpired _ => Expired
  | _ => Invalid
  end.

Section Middleware.
Context `{TokenLibs}.

(** A request of axum. *)
Record Parts := {
  extension_manager : option TokenManager;
  extension_config : option MultiJwtConfig;
  headers : string → option string;
  uri_query : option string;
}.

Definition extract_token (source : AuthSource) (parts : Parts) : option string :=
  match source with
  | Bearer =>
      v ← headers parts "Authorization";
      String.string_of_list_ascii <$> bearer_token (String.list_ascii_of_string v)
  | Cookie name =>
      raw ← headers parts "Cookie";
      String.string_of_list_ascii <$>
        head (omap (strip (String.list_ascii_of_string (name +:+ "="))) (str_trim <$> split_at semicolon (String.list_ascii_of_string raw)))
  | Query name =>
      query ← uri_query parts;
      kv ← list_find (λ kv, kv.1 = String.list_ascii_of_string name)
        (omap (split_once equals) (split_at ampersand (String.list_ascii_of_string query)));
      Some (String.string_of_list_ascii kv.2.2)
  end.

Definition verify_claims (m : TokenManager) (token : string) (now : Z) : TokenClaims + AuthRejection :=
  match verify m token now with
  | SOk claims => inl claims
  | SErr e => inr (auth_rejection e)
  end.

(** [JwtClaims::from_request_parts]. *)
Definition jwt_claims_from_parts (parts : Parts) (now : Z) : TokenClaims + AuthRejection :=
  match extension_manager parts with
  | None => inr MissingManager
  | Some manager =>
      match (v ← headers parts "Authorization"; bearer_token (String.list_ascii_of_string v)) with
      | None => inr MissingHeader
      | Some token => verify_claims manager (String.string_of_list_ascii token) now
      end
  end.

(** [MultiJwt::from_request_parts]. *)
Definition multi_jwt_from_parts (parts : Parts) (now : Z) : TokenClaims + AuthRejection :=
  match extension_manager parts with
  | None => inr MissingManager
  | Some manager =>
      match extension_config parts with
      | None => inr MissingManager
      | Some config =>
          match head (omap (λ s, extract_token s parts) (sources config)) with
          | None => inr MissingHeader
          | Some token => verify_claims manager token now
          end
      end
  end.

(** ** Actix *)

Record ServiceRequest := {
  app_data : option TokenManager;
  req_headers : string → option string;
  extensions : option TokenClaims;
}.
Definition insert_claims (req : ServiceRequest) (claims : TokenClaims) : ServiceRequest := {|
  app_data := app_data req; req_headers := req_headers req; extensions := Some claims |}.

(** An answer, or [ErrorUnauthorized] with its text. *)
Definition middleware_call {R} (service : ServiceRequest → R + string) (req : ServiceRequest) (now : Z) : R + string :=
  match app_data req with
  | Some manager =>
      match (v ← req_headers req "Authorization"; bearer_token (String.list_ascii_of_string v)) with
      | Some auth =>
          match verify manager (String.string_of_list_ascii auth) now with
          | SOk claims => service (insert_claims req claims)
          | SErr (TokenExpired _) => inr "token expired"
          | SErr _ => inr "invalid token"
          end
      | None => service req
      end
  | None => service req
  end.

(** [TokenClaims::from_request]. *)
Definition claims_from_request (req : ServiceRequest) : TokenClaims + string :=
  match extensions req with
  | Some claims => inl claims
  | None => inr "authentication required"
  end.

(** A route whose handler takes the claims. *)
Definition claims_route {R} (handler : TokenClaims → R + string) (req : ServiceRequest) : R + string :=
  match claims_from_request req with
  | inl claims => handler claims
  | inr e => inr e
  end.
End Middleware.

(** ** Text *)

Lemma split_once_Some sep s a b : split_once sep s = Some (a, b) ↔ s = a ++ sep :: b ∧ sep ∉ a.
Proof.
  revert a. induction s as [|c s IH]; intros a; cbn [split_once]; [split; [done|intros [Hs _]; by destruct a]|].
  destruct (decide (c = sep)) as [->|Hne].
  - split; [intros [= <- <-]; split; [done|apply not_elem_of_nil]|]. intros [Hs Ha].
    destruct a as [|x a]; [by injection Hs as ->|]. injection Hs as <- Hs. exfalso. apply Ha. by left.
  - split.
    + intros ([before after] & Hb & [= <- <-])%bind_Some. apply IH in Hb as [-> Hb]. split; [done|].
      apply not_elem_of_cons. by split.
    + intros [Hs Ha]. destruct a as [|x a]; [by injection Hs as -> _|]. injection Hs as <- Hs. apply not_elem_of_cons in Ha as [_ Ha].
      assert (He : split_once sep s = Some (a, b)) by (by apply IH). by rewrite He.
Qed.

Lemma strip_Some prefix s r : strip prefix s = Some r ↔ s = prefix ++ r.
Proof.
  revert s. induction prefix as [|c prefix IH]; intros s; cbn [strip app]; [split; congruence|].
  destruct s as [|d s]; [done|]. destruct (decide (c = d)) as [->|Hne]; [rewrite IH; split; congruence|split; congruence].
Qed.

(** The white space in front, and a rest that does not begin with any. *)
Definition starts_clean (s : chars) : Prop := match s with c :: _ => is_whitespace c = false | [] => True end.

Lemma trim_start_app ws s : Forall (λ c, is_whitespace c = true) ws → starts_clean s → trim_start (ws ++ s) = s.
Proof.
  intros Hws Hs. induction Hws as [|c ws Hc Hws IH]; cbn [app trim_start]; [|by rewrite Hc].
  destruct s as [|c s]; [done|]. cbn in *. by rewrite Hs.
Qed.
Lemma trim_start_split s : ∃ ws, s = ws ++ trim_start s ∧ Forall (λ c, is_whitespace c = true) ws ∧ starts_clean (trim_start s).
Proof.
  induction s as [|c s (ws & Hs & Hws & Hc)]; [by exists []|]. cbn [trim_start]. destruct (is_whitespace c) eqn:Hw.
  - exists (c :: ws). split; [cbn; congruence|]. split; [by constructor|done].
  - exists []. split_and!; [done|constructor|done].
Qed.

(** The bearer header.  A header yields a token exactly when it is the
    scheme bearer, in any case, a space, any further white space and the
    token, which is not empty and does not begin with white space. *)
Theorem bearer_token_iff v token :
  bearer_token v = Some token ↔
  token ≠ [] ∧ starts_clean token ∧
  ∃ scheme ws, v = scheme ++ space :: ws ++ token ∧
    eq_ignore_ascii_case scheme (String.list_ascii_of_string "bearer") = true ∧ Forall (λ c, is_whitespace c = true) ws.
Proof.
  unfold bearer_token. split.
  - intros ([scheme rest] & [Hv Hsp]%split_once_Some & Ht)%bind_Some. destruct (trim_start_split rest) as (ws & Hrest & Hws & Hclean).
    destruct (eq_ignore_ascii_case _ _) eqn:Hscheme; [|done]. case_bool_decide as Hne; [done|]. injection Ht as <-.
    split_and!; [done|done|]. exists scheme, ws. by rewrite <- Hrest.
  - intros (Hne & Hclean & scheme & ws & -> & Hscheme & Hws).
    assert (Hsp : space ∉ scheme).
    { apply bool_decide_eq_true in Hscheme. intros Hin. assert (Hc : ascii_lower_code space ∈ ascii_lower_code <$> scheme).
      { apply list_elem_of_fmap. by exists space. }
      rewrite Hscheme in Hc. by apply (bool_decide_eq_true_2 (ascii_lower_code space ∈ ascii_lower_code <$> String.list_ascii_of_string "bearer")) in Hc. }
    assert (Hso : split_once space (scheme ++ space :: ws ++ token) = Some (scheme, ws ++ token)) by (by apply split_once_Some).
    rewrite Hso. cbn [mbind option_bind]. rewrite Hscheme, trim_start_app by done. by rewrite bool_decide_false.
Qed.

(** ** Cookies and query parameters *)

(** [name=value] *)
Definition binding (nv : chars * chars) : chars := nv.1 ++ equals :: nv.2.

Fixpoint joined (sep : chars) (l : list (chars * chars)) : chars :=
  match l with
  | [] => []
  | [nv] => binding nv
  | nv :: rest => binding nv ++ sep ++ joined sep rest
  end.
Definition assoc (name : chars) (l : list (chars * chars)) : option chars :=
  (λ x, x.2.2) <$> list_find (λ nv, nv.1 = name) l.

(** A name without the equals sign, and neither the separator nor white
    space in the name or the value. *)
Definition binding_ok (sep : Ascii.ascii) (nv : chars * chars) : Prop :=
  (equals ∉ nv.1) ∧ sep ∉ binding nv ∧ Forall (λ c, is_whitespace c = false) (binding nv).

Lemma binding_split n v name r : equals ∉ n → equals ∉ name → n ++ equals :: v = name ++ equals :: r → n = name ∧ v = r.
Proof.
  intros Hn Hname Heq. assert (H1 : split_once equals (n ++ equals :: v) = Some (n, v)) by (by apply split_once_Some).
  assert (H2 : split_once equals (n ++ equals :: v) = Some (name, r)) by (by apply split_once_Some). rewrite H1 in H2. by injection H2.
Qed.

Lemma trim_start_id s : Forall (λ c, is_whitespace c = false) s → trim_start s = s.
Proof. destruct s as [|c s]; [done|]. intros [Hc _]%Forall_cons. cbn. by rewrite Hc. Qed.
Lemma str_trim_id s : Forall (λ c, is_whitespace c = false) s → str_trim s = s.
Proof. intros Hs. unfold str_trim. rewrite (trim_start_id s) by done. rewrite trim_start_id by (by apply Forall_reverse). apply reverse_involutive. Qed.

(** A space behind a separator is trimmed away. *)
Lemma split_space s : str_trim <$> split_at semicolon (space :: s) = str_trim <$> split_at semicolon s.
Proof.
  cbn [split_at]. rewrite decide_False by done. destruct (split_at semicolon s) as [|piece pieces] eqn:Hs; [|done].
  exfalso. destruct s as [|c s]; cbn [split_at] in Hs; [done|]. destruct (decide _); [done|]. by destruct (split_at semicolon s).
Qed.

Lemma split_cookies l : Forall (binding_ok semicolon) l → l ≠ [] →
  str_trim <$> split_at semicolon (joined [semicolon; space] l) = binding <$> l.
Proof.
  induction 1 as [|nv l (Heq & Hsep & Hws) Hl IH]; [done|]. intros _. destruct l as [|nv' l].
  - cbn. rewrite split_at_no_sep by done. cbn. by rewrite str_trim_id.
  - change (joined _ (nv :: nv' :: l)) with (binding nv ++ semicolon :: space :: joined [semicolon; space] (nv' :: l)).
    rewrite split_at_app by done. rewrite fmap_cons, split_space, IH by done. by rewrite str_trim_id.
Qed.
Lemma split_query l : Forall (binding_ok ampersand) l → l ≠ [] → split_at ampersand (joined [ampersand] l) = binding <$> l.
Proof.
  induction 1 as [|nv l (Heq & Hsep & Hws) Hl IH]; [done|]. intros _. destruct l as [|nv' l].
  - cbn. by rewrite split_at_no_sep.
  - change (joined _ (nv :: nv' :: l)) with (binding nv ++ ampersand :: joined [ampersand] (nv' :: l)).
    rewrite split_at_app by done. by rewrite IH.
Qed.


Lemma strip_bindings name l : equals ∉ name → Forall (binding_ok semicolon) l →
  head (omap (strip (name ++ [equals])) (binding <$> l)) = assoc name l.
Proof.
  intros Hname. induction 1 as [|[m v] l (Heq & Hsep & Hws) Hl IH]; [done|]. unfold assoc in *. rewrite fmap_cons. cbn [omap list_omap].
  cbn [list_find]. case_decide as Hm; cbn [fst snd fmap option_fmap option_map] in *.
  - subst m. assert (Hs : strip (name ++ [equals]) (binding (name, v)) = Some v) by (apply strip_Some; by rewrite <- app_assoc).
    by rewrite Hs.
  - assert (Hs : strip (name ++ [equals]) (binding (m, v)) = None).
    { destruct (strip _ _) as [r|] eqn:Hs; [|done]. apply strip_Some in Hs. rewrite <- app_assoc in Hs.
      by destruct (binding_split m v name r Heq Hname Hs). }
    rewrite Hs, IH. by destruct (list_find _ l) as [[]|].
Qed.
Lemma find_binding name l : Forall (binding_ok ampersand) l →
  (λ x, x.2.2) <$> list_find (λ kv, kv.1 = name) (omap (split_once equals) (binding <$> l)) = assoc name l.
Proof.
  intros Hl. unfold assoc. assert (Homap : omap (split_once equals) (binding <$> l) = l); [|by rewrite Homap].
  induction Hl as [|[m v] l (Heq & Hsep & Hws) Hl IH]; [done|]. rewrite fmap_cons. cbn [omap list_omap].
  assert (Hs : split_once equals (binding (m, v)) = Some (m, v)) by (by apply split_once_Some). by rewrite Hs, IH.
Qed.

(** Cookies and parameters.  From a Cookie header that carries the
    bindings [l], in the usual form, a cookie source yields the value of the
    first binding of its name, and nothing when there is none; and so does a
    parameter source from a query string.  An empty value is a value. *)
Theorem source_is_first_binding `{TokenLibs} parts name l :
  equals ∉ String.list_ascii_of_string name →
  (Forall (binding_ok semicolon) l →
   headers parts "Cookie" = Some (String.string_of_list_ascii (joined [semicolon; space] l)) →
   extract_token (Cookie name) parts = String.string_of_list_ascii <$> assoc (String.list_ascii_of_string name) l) ∧
  (Forall (binding_ok ampersand) l →
   uri_query parts = Some (String.string_of_list_ascii (joined [ampersand] l)) →
   extract_token (Query name) parts = String.string_of_list_ascii <$> assoc (String.list_ascii_of_string name) l).
Proof.
  intros Hname. set (n := String.list_ascii_of_string name) in *. split; intros Hl Hparts; cbn [extract_token]; rewrite Hparts;
    cbn [mbind option_bind]; rewrite String.list_ascii_of_string_of_list_ascii.
  - f_equal. rewrite list_ascii_of_string_app. change (String.list_ascii_of_string "=") with [equals]. fold n.
    destruct (decide (l = [])) as [->|Hne]; [cbn; by destruct n|]. rewrite split_cookies by done. by apply strip_bindings.
  - destruct (decide (l = [])) as [->|Hne]; [done|]. rewrite split_query by done. fold n. rewrite <- find_binding by done.
    by destruct (list_find _ _) as [[i [k v]]|].
Qed.

(** ** Verdicts *)

Lemma head_omap_Some {A B} (f : A → option B) l b :
  head (omap f l) = Some b ↔ ∃ before x after, l = before ++ x :: after ∧ Forall (λ y, f y = None) before ∧ f x = Some b.
Proof.
  split.
  - induction l as [|x l IH]; [done|]. cbn [omap list_omap]. destruct (f x) as [y|] eqn:Hx.
    + intros [= <-]. exists [], x, l. by split_and!.
    + intros (before & z & after & -> & Hb & Hz)%IH. exists (x :: before), z, after. split_and!; [done|by constructor|done].
  - intros (before & x & after & -> & Hb & Hx). induction Hb as [|y before Hy Hb IH]; cbn [app omap list_omap]; [by rewrite Hx|]. by rewrite Hy.
Qed.

Section Verdicts.
Context `{TokenLibs}.

Lemma verify_claims_ok m token now c : verify_claims m token now = inl c ↔ verify m token now = SOk c.
Proof. unfold verify_claims. destruct (verify m token now); split; by intros [= ->]. Qed.

(** The extractor of several sources.  It yields claims exactly when the
    manager and the configuration are there and the token of the first
    source, in the order of the configuration, that has one verifies to
    them; what the later sources hold does not matter.  Without any token
    the answer is 401 "missing credentials", without manager or
    configuration it is 500. *)
Theorem multi_jwt_spec parts now :
  (∀ c, multi_jwt_from_parts parts now = inl c ↔
    ∃ m config before source after token, extension_manager parts = Some m ∧ extension_config parts = Some config ∧
      sources config = before ++ source :: after ∧ Forall (λ s, extract_token s parts = None) before ∧
      extract_token source parts = Some token ∧ verify m token now = SOk c) ∧
  (multi_jwt_from_parts parts now = inr MissingHeader ↔
    ∃ m config, extension_manager parts = Some m ∧ extension_config parts = Some config ∧
      Forall (λ s, extract_token s parts = None) (sources config)) ∧
  (multi_jwt_from_parts parts now = inr MissingManager ↔ extension_manager parts = None ∨ extension_config parts = None).
Proof.
  unfold multi_jwt_from_parts. destruct (extension_manager parts) as [m|]; [|naive_solver].
  destruct (extension_config parts) as [config|]; [|naive_solver].
  destruct (head _) as [token|] eqn:Hhead.
  - apply head_omap_Some in Hhead as (before & source & after & Hl & Hb & Hs). split_and!.
    + intros c. rewrite verify_claims_ok. split; [intros Hv; by exists m, config, before, source, after, token|].
      intros (? & ? & before' & source' & after' & token' & [= <-] & [= <-] & Hl' & Hb' & Hs' & Hv).
      assert (H1 : head (omap (λ s, extract_token s parts) (sources config)) = Some token) by (apply head_omap_Some; by exists before, source, after).
      assert (H2 : head (omap (λ s, extract_token s parts) (sources config)) = Some token') by (apply head_omap_Some; by exists before', source', after').
      congruence.
    + split; [unfold verify_claims; destruct (verify m token now) as [|[]]; done|].
      intros (? & ? & [= <-] & [= <-] & Hall). rewrite Hl in Hall. apply Forall_app in Hall as [_ Hall]. apply Forall_cons in Hall as [Hn _].
      congruence.
    + split; [unfold verify_claims; destruct (verify m token now) as [|[]]; done|naive_solver].
  - assert (Hall : Forall (λ s, extract_token s parts = None) (sources config)).
    { clear -Hhead. induction (sources config) as [|s l IH]; [constructor|]. cbn [omap list_omap] in Hhead.
      destruct (extract_token s parts) eqn:Hs; [done|]. constructor; [done|]. by apply IH. }
    split_and!.
    + intros c. split; [done|]. intros (? & ? & before & source & after & token & [= <-] & [= <-] & Hl & Hb & Hs & Hv).
      rewrite Hl in Hall. apply Forall_app in Hall as [_ Hall]. apply Forall_cons in Hall as [Hn _]. congruence.
    + split; [intros _; by exists m, config|done].
    + split; [done|naive_solver].
Qed.

(** An empty cookie hides the sources after it.  When the first source
    is a cookie and the request sends it empty, the empty token is verified,
    and what the other sources hold does not matter. *)
Theorem empty_cookie_hides_sources parts m config name l rest now :
  extension_manager parts = Some m → extension_config parts = Some config → sources config = Cookie name :: rest →
  equals ∉ String.list_ascii_of_string name → Forall (binding_ok semicolon) l →
  headers parts "Cookie" = Some (String.string_of_list_ascii (joined [semicolon; space] l)) →
  assoc (String.list_ascii_of_string name) l = Some [] →
  multi_jwt_from_parts parts now = verify_claims m "" now.
Proof.
  intros Hm Hc Hs Hname Hl Hcookie Hempty. unfold multi_jwt_from_parts. rewrite Hm, Hc, Hs. cbn [omap list_omap].
  destruct (source_is_first_binding parts name l Hname) as [Hsource _]. by rewrite (Hsource Hl Hcookie), Hempty.
Qed.

(** What the loop over the keys keeps when none accepts. *)
Lemma try_keys_refused token v now ks k e last : Forall (λ k, ∃ e, decode token k v now = inr e) ks → decode token k v now = inr e →
  try_keys token v now (ks ++ [k]) last = inr (Some e).
Proof.
  intros Hks Hk. revert last. induction Hks as [|k' ks [e' He'] Hks IH]; intros last; cbn [app try_keys]; [by rewrite Hk|]. by rewrite He'.
Qed.

(** The answer to a refused bearer token.  With several keys, as during a
    rotation, it is the verdict of the last one: "token expired" exactly when
    that key finds the token expired, so that the expired token of any other
    key is answered "invalid token". *)
Theorem refusal_is_of_last_key parts m encoding ks k raws v e now token :
  extension_manager parts = Some m → keys m = Ed25519 encoding (ks ++ [k]) raws →
  v = {| v_algorithm := EdDSA; v_issuer := issuer (config m); v_exp := true; v_audience := audience (config m) |} →
  (header ← headers parts "Authorization"; bearer_token (String.list_ascii_of_string header)) = Some (String.list_ascii_of_string token) →
  Forall (λ k, ∃ e, decode token k v now = inr e) ks → decode token k v now = inr e →
  jwt_claims_from_parts parts now = inr (match e with ExpiredSignature => Expired | _ => Invalid end).
Proof.
  intros Hm Hk -> Hh Hks Hlast. unfold jwt_claims_from_parts. rewrite Hm, Hh, String.string_of_list_ascii_of_string.
  unfold verify_claims, verify, verify_with. rewrite Hk. unfold verify_jsonwebtoken. rewrite Hk. cbn [algorithm].
  rewrite (try_keys_refused _ _ _ _ _ _ _ Hks Hlast). by destruct e.
Qed.

(** C14: Nobody reaches a handler unauthenticated.  Behind the middleware, a
    handler that takes the claims runs exactly when the manager is there and
    the Authorization header carries a bearer token that verifies now, and
    it gets the claims of that token - for requests that come in without
    claims in their extensions; every other request is refused: with
    "token expired", "invalid token", or, without a manager or a bearer
    header, "authentication required". *)
Theorem handler_sees_verified_claims {R} (handler : TokenClaims → R + string) req now :
  extensions req = None →
  let auth := header ← req_headers req "Authorization"; bearer_token (String.list_ascii_of_string header) in
  middleware_call (claims_route handler) req now =
    match app_data req, String.string_of_list_ascii <$> auth with
    | Some m, Some token =>
        match verify m token now with
        | SOk claims => handler claims
        | SErr e => inr (into_response (auth_rejection e)).2
        end
    | _, _ => inr "authentication required"
    end.
Proof.
  intros Hext auth. unfold middleware_call. fold auth. unfold claims_route, claims_from_request.
  destruct (app_data req) as [m|]; [|by rewrite Hext]. destruct auth as [t|]; [|by rewrite Hext].
  cbn [fmap option_fmap option_map]. by destruct (verify m _ now) as [|[]].
Qed.
End Verdicts.

(** ** Concrete requests *)

Module Requests.
#[local] Existing Instance Toy.libs.

Definition no_header : string → option string := λ _, None.
Definition with_header (name value : string) : string → option string := λ n, if String.eqb n name then Some value else None.
Definition claims : TokenClaims := access_claims Toy.manager Toy.draws 7 "ann" ["editor"].

Definition signed_in : ServiceRequest := {|
  app_data := Some Toy.manager; req_headers := with_header "Authorization" ("bEARER  " +:+ access_token Toy.pair); extensions := None |}.
Definition echo (c : TokenClaims) : string + string := inl (claims_username c).

Lemma handler_sees_verified_claims_witness :
  middleware_call (claims_route echo) signed_in 1200 = inl "ann" ∧
  middleware_call (claims_route echo) signed_in 5000 = inr "token expired" ∧
  middleware_call (claims_route echo) {| app_data := Some Toy.manager; req_headers := no_header; extensions := None |} 1200 =
    inr "authentication required".
Proof.
  split_and!; (rewrite handler_sees_verified_claims; [vm_compute; reflexivity|reflexivity]).
Defined.

Definition cookies : list (chars * chars) :=
  [(String.list_ascii_of_string "theme", String.list_ascii_of_string "dark"); (String.list_ascii_of_string "wsat", [])].
Definition config_two : MultiJwtConfig := {| sources := [Cookie "wsat"; Query "token"] |}.
Definition with_cookies : Parts := {|
  extension_manager := Some Toy.manager; extension_config := Some config_two;
  headers := with_header "Cookie" "theme=dark; wsat="; uri_query := Some ("page=2&token=" +:+ access_token Toy.pair) |}.
Definition without_cookies : Parts := {|
  extension_manager := Some Toy.manager; extension_config := Some config_two;
  headers := no_header; uri_query := uri_query with_cookies |}.

Lemma cookies_ok : Forall (binding_ok semicolon) cookies.
Proof.
  apply Forall_forall. intros nv [->|[->|Hn%not_elem_of_nil]%elem_of_cons]%elem_of_cons; [| |done];
    (unfold binding_ok; split_and!; compute_done).
Qed.

Lemma source_is_first_binding_witness :
  extract_token (Cookie "wsat") with_cookies = Some "" ∧ extract_token (Cookie "page") with_cookies = None.
Proof.
  split.
  - rewrite (proj1 (source_is_first_binding with_cookies "wsat" cookies ltac:(compute_done)) cookies_ok eq_refl).
    reflexivity.
  - rewrite (proj1 (source_is_first_binding with_cookies "page" cookies ltac:(compute_done)) cookies_ok eq_refl).
    reflexivity.
Defined.

(** The parameter alone signs in; with the empty cookie it is not read. *)
Lemma empty_cookie_hides_sources_witness :
  multi_jwt_from_parts without_cookies 1200 = inl claims ∧ multi_jwt_from_parts with_cookies 1200 = inr Invalid.
Proof.
  split; [vm_compute; reflexivity|].
  rewrite (empty_cookie_hides_sources with_cookies Toy.manager config_two "wsat" cookies [Query "token"] 1200 eq_refl eq_refl eq_refl
    ltac:(compute_done) cookies_ok eq_refl eq_refl).
  vm_compute. reflexivity.
Defined.

Lemma multi_jwt_spec_witness :
  ∃ source token, extract_token source without_cookies = Some token ∧ verify Toy.manager token 1200 = SOk claims.
Proof.
  destruct (proj1 (proj1 (multi_jwt_spec without_cookies 1200) claims) ltac:(vm_compute; reflexivity))
    as (m & config & before & source & after & token & Hm & Hc & Hs & Hb & Ht & Hv).
  injection Hm as <-. by exists source, token.
Defined.

(** A rotation: the keys "new" and "old", in this order. *)
Definition rotating (ks : list string) : TokenManager := {|
  config := config_with_audience (from_secret "") "api"; keys := Ed25519 (Some "new") ks ["a"; "b"] |}.
Definition token_of (k : string) : string :=
  match encode {| h_alg := EdDSA; h_kid := None |} claims k with
  | inl t => t
  | inr _ => ""
  end.
Definition presenting (token : string) (ks : list string) : Parts := {|
  extension_manager := Some (rotating ks); extension_config := None;
  headers := with_header "Authorization" ("Bearer " +:+ token); uri_query := None |}.

Definition validating : Validation := {| v_algorithm := EdDSA; v_issuer := "kirino"; v_exp := true; v_audience := Some "api" |}.

(** The same expired token is expired or invalid, by the order of the keys. *)
Lemma refusal_is_of_last_key_witness :
  jwt_claims_from_parts (presenting (token_of "new") ["new"; "old"]) 9000 = inr Invalid ∧
  jwt_claims_from_parts (presenting (token_of "new") ["old"; "new"]) 9000 = inr Expired.
Proof.
  split.
  - apply (refusal_is_of_last_key _ (rotating ["new"; "old"]) (Some "new") ["new"] "old" ["a"; "b"] validating (OtherJwtError "refused") 9000 (token_of "new"));
      try reflexivity.
    constructor; [|constructor]. exists ExpiredSignature. vm_compute. reflexivity.
  - apply (refusal_is_of_last_key _ (rotating ["old"; "new"]) (Some "new") ["old"] "new" ["a"; "b"] validating ExpiredSignature 9000 (token_of "new"));
      try reflexivity.
    constructor; [|constructor]. exists (OtherJwtError "refused"). vm_compute. reflexivity.
Defined.
End Requests.
