(* ===== verification/TokenSessions.v ===== *)
(** * Sessions of bearer tokens: src/packages/session/src/store.rs

    [SessionStore] sends six statements to the table [kirino_sessions].  The
    database is a parameter: a class with one operation per statement, and a
    class of laws for what the statements do to the rows, which are unique by
    session id.  A statement that fails may or may not have taken effect.
    [NOW()] and [Utc::now()] are the argument [now]. *)

From S2P Require Import Prelude Traits Replay Tokens.

Abbreviation DbErr := string.
(** What [try_get_by_index] makes of the two selected columns. *)
Definition Columns : Type := (Uuid + DbErr) * (string + DbErr).

Class SessionRows (D : Type) := {
  insert_session : D → Uuid → Uuid → Uuid → string → Z → Z → (nat + DbErr) * D;
  set_revoked_session : D → Uuid → Z → (nat + DbErr) * D;
  set_revoked_user : D → Uuid → Z → (nat + DbErr) * D;
  select_valid : D → Uuid → Z → option unit + DbErr;
  select_session : D → Uuid → Z → option Columns + DbErr;
  delete_expired_before : D → Z → (nat + DbErr) * D;
}.

Section SessionStore.
Context {D : Type} `{!SessionRows D}.

(** [map_err(|e| SessionError::Other(what))] *)
Definition or_other {A} (what : string) (r : A + DbErr) : SessionResult A :=
  match r with
  | inl a => SOk a
  | inr _ => SErr (OtherSessionError what)
  end.

(** [id] is the fresh id of the row. *)
Definition store_create_session (d : D) (id session_id user_id : Uuid) (token_hash : string) (expires_at now : Z)
    : SessionResult unit * D :=
  let r := insert_session d id session_id user_id token_hash expires_at now in
  (_ ← or_other "session insert failed" r.1; SOk tt, r.2).

Definition store_revoke_session (d : D) (session_id : Uuid) (now : Z) : SessionResult bool * D :=
  let r := set_revoked_session d session_id now in
  (rows_affected ← or_other "session revoke failed" r.1; SOk (0 <? rows_affected), r.2).

Definition store_revoke_all_for_user (d : D) (user_id : Uuid) (now : Z) : SessionResult nat * D :=
  let r := set_revoked_user d user_id now in (or_other "session revoke all failed" r.1, r.2).

Definition is_session_valid (d : D) (session_id : Uuid) (now : Z) : SessionResult bool :=
  result ← or_other "session check failed" (select_valid d session_id now);
  SOk (bool_decide (is_Some result)).

Definition find_session (d : D) (session_id : Uuid) (now : Z) : SessionResult (option (Uuid * string)) :=
  result ← or_other "session find failed" (select_session d session_id now);
  match result with
  | Some row =>
      uid ← or_other "get user_id failed" row.1;
      hash ← or_other "get token_hash failed" row.2;
      SOk (Some (uid, hash))
  | None => SOk None
  end.

(** [older_than] in the unit of the instants. *)
Definition prune_expired (d : D) (older_than now : Z) : SessionResult nat * D :=
  let r := delete_expired_before d (now - older_than) in (or_other "session prune failed" r.1, r.2).
End SessionStore.

(** ** The rows *)

Record StoredSession := { s_user : Uuid; s_hash : string; s_expires : Z; s_revoked : bool }.
Definition revoke_row (s : StoredSession) : StoredSession := {|
  s_user := s_user s; s_hash := s_hash s; s_expires := s_expires s; s_revoked := true |}.

(** [revoked_at IS NULL AND expires_at > NOW()] *)
Definition live (now : Z) (s : StoredSession) : Prop := s_revoked s = false ∧ (now < s_expires s)%Z.
#[export] Instance live_decision now s : Decision (live now s).
Proof. unfold live. apply _. Defined.

(** [took e r d d' after]: the statement answered [r] on [d]; it took effect
    when it answered, and perhaps when it failed. *)
Definition took {A D} (rows : D → gmap Uuid StoredSession) (r : (A + DbErr) * D) (d : D) (after : gmap Uuid StoredSession) : Prop :=
  match r.1 with
  | inl _ => rows r.2 = after
  | inr _ => rows r.2 = rows d ∨ rows r.2 = after
  end.

Class SessionRowsLaws (D : Type) `{SessionRows D} := {
  srows : D → gmap Uuid StoredSession;
  insert_unique : ∀ d id sid uid hash exp now s n, srows d !! sid = Some s → (insert_session d id sid uid hash exp now).1 ≠ inl n;
  insert_took : ∀ d id sid uid hash exp now,
    (srows d !! sid = None → took srows (insert_session d id sid uid hash exp now) d
       (<[sid := {| s_user := uid; s_hash := hash; s_expires := exp; s_revoked := false |}]> (srows d))) ∧
    (srows d !! sid ≠ None → srows (insert_session d id sid uid hash exp now).2 = srows d);
  revoke_session_took : ∀ d sid now,
    took srows (set_revoked_session d sid now) d (alter revoke_row sid (srows d)) ∧
    ∀ n, (set_revoked_session d sid now).1 = inl n → (0 < n ↔ ∃ s, srows d !! sid = Some s ∧ s_revoked s = false);
  revoke_user_took : ∀ d uid now,
    took srows (set_revoked_user d uid now) d ((λ s, if decide (s_user s = uid) then revoke_row s else s) <$> srows d);
  select_valid_law : ∀ d sid now o, select_valid d sid now = inl o → (is_Some o ↔ ∃ s, srows d !! sid = Some s ∧ live now s);
  select_session_law : ∀ d sid now o, select_session d sid now = inl o →
    match o with
    | Some (uid, hash) => ∃ s, srows d !! sid = Some s ∧ live now s ∧ (∀ u, uid = inl u → u = s_user s) ∧ (∀ h, hash = inl h → h = s_hash s)
    | None => ¬ ∃ s, srows d !! sid = Some s ∧ live now s
    end;
  delete_took : ∀ d cutoff, took srows (delete_expired_before d cutoff) d (filter (λ e, cutoff ≤ s_expires e.2)%Z (srows d));
}.

(** ** Histories *)

Inductive session_op :=
  | OpCreate (id session_id user_id : Uuid) (token_hash : string) (expires_at : Z)
  | OpRevokeSession (session_id : Uuid)
  | OpRevokeUser (user_id : Uuid)
  | OpPrune (older_than : Z).

Section Histories.
Context {D : Type} `{SessionRowsLaws D}.

Definition session_step (d : D) (ev : session_op * Z) : D :=
  match ev.1 with
  | OpCreate id sid uid hash exp => (store_create_session d id sid uid hash exp ev.2).2
  | OpRevokeSession sid => (store_revoke_session d sid ev.2).2
  | OpRevokeUser uid => (store_revoke_all_for_user d uid ev.2).2
  | OpPrune age => (prune_expired d age ev.2).2
  end.
Definition session_run (d : D) (evs : list (session_op * Z)) : D := foldl session_step d evs.

Lemma took_cases {A} (r : (A + DbErr) * D) d after : took srows r d after → srows r.2 = srows d ∨ srows r.2 = after.
Proof. unfold took. destruct r.1; naive_solver. Qed.

(** Neither its session nor its user is revoked, and no pruning reaches it. *)
Definition spares_session (sid uid : Uuid) (exp : Z) (ev : session_op * Z) : Prop :=
  match ev.1 with
  | OpCreate _ _ _ _ _ => True
  | OpRevokeSession sid' => sid' ≠ sid
  | OpRevokeUser uid' => uid' ≠ uid
  | OpPrune age => (ev.2 - age ≤ exp)%Z
  end.
Definition recreates (sid : Uuid) (ev : session_op * Z) : Prop :=
  match ev.1 with
  | OpCreate _ sid' _ _ _ => sid' = sid
  | _ => False
  end.

Lemma step_leaves d ev sid s : spares_session sid (s_user s) (s_expires s) ev → srows d !! sid = Some s → srows (session_step d ev) !! sid = Some s.
Proof.
  destruct ev as [[id sid' uid' hash' exp'|sid'|uid'|age] t]; unfold spares_session, session_step; cbn; intros Hl Hs.
  - destruct (insert_took d id sid' uid' hash' exp' t) as [Hnew Hold]. destruct (srows d !! sid') as [s'|] eqn:Hs'.
    + by rewrite Hold.
    + specialize (Hnew eq_refl). apply took_cases in Hnew as [->| ->]; [done|]. rewrite lookup_insert_ne by congruence. done.
  - destruct (revoke_session_took d sid' t) as [[->| ->]%took_cases _]; [done|]. by rewrite lookup_alter_ne.
  - destruct (took_cases _ _ _ (revoke_user_took d uid' t)) as [->| ->]; [done|]. rewrite lookup_fmap, Hs. cbn. by rewrite decide_False.
  - destruct (took_cases _ _ _ (delete_took d (t - age))) as [->| ->]; [done|]. apply map_lookup_filter_Some. split; [done|]. cbn. lia.
Qed.

(** Gone, or revoked. *)
Definition dead (d : D) (sid : Uuid) : Prop := ∀ s, srows d !! sid = Some s → s_revoked s = true.

Lemma step_dead d ev sid : ¬ recreates sid ev → dead d sid → dead (session_step d ev) sid.
Proof.
  destruct ev as [[id sid' uid' hash' exp'|sid'|uid'|age] t]; unfold recreates, session_step; cbn; intros Hr Hd s.
  - destruct (insert_took d id sid' uid' hash' exp' t) as [Hnew Hold]. destruct (srows d !! sid') as [s'|] eqn:Hs'.
    + rewrite Hold by done. apply Hd.
    + specialize (Hnew eq_refl). apply took_cases in Hnew as [->| ->]; [apply Hd|]. rewrite lookup_insert_ne by done. apply Hd.
  - destruct (revoke_session_took d sid' t) as [[->| ->]%took_cases _]; [apply Hd|].
    intros [(-> & s' & _ & ->)|[_ Hs]]%lookup_alter_Some; [done|by apply Hd].
  - destruct (took_cases _ _ _ (revoke_user_took d uid' t)) as [->| ->]; [apply Hd|]. rewrite lookup_fmap.
    intros (s' & Hs' & ->)%fmap_Some. case_decide; [done|by apply Hd].
  - destruct (took_cases _ _ _ (delete_took d (t - age))) as [->| ->]; [apply Hd|]. intros [Hs _]%map_lookup_filter_Some. by apply Hd.
Qed.

Lemma valid_law d sid now b : is_session_valid d sid now = SOk b → (b = true ↔ ∃ s, srows d !! sid = Some s ∧ live now s).
Proof.
  unfold is_session_valid. destruct (select_valid d sid now) as [o|e] eqn:Hsel; [|done]. cbn. intros [= <-].
  by rewrite bool_decide_eq_true, (select_valid_law d sid now o).
Qed.

(** The life of a stored session.  Once it has been created, whatever
    other sessions and users are created, revoked and pruned, with statements
    that fail among them, every check that answers says that it is valid
    until it expires, and every lookup that answers finds its user and the
    hash of its token.  Once it, or its user, has been revoked, no check says
    that it is valid and no lookup finds it, until a session of the same id
    is created. *)
Theorem stored_session_life d id sid uid hash exp t evs now :
  ((store_create_session d id sid uid hash exp t).1 = SOk tt →
   Forall (spares_session sid uid exp) evs →
   let d' := session_run (store_create_session d id sid uid hash exp t).2 evs in
   (∀ b, is_session_valid d' sid now = SOk b → b = (now <? exp)%Z) ∧
   (∀ o, find_session d' sid now = SOk o → o = if (now <? exp)%Z then Some (uid, hash) else None)) ∧
  (∀ d1, ((∃ b, store_revoke_session d sid t = (SOk b, d1)) ∨
          (∃ n, store_revoke_all_for_user d uid t = (SOk n, d1) ∧ ∀ s, srows d !! sid = Some s → s_user s = uid)) →
   Forall (λ ev, ¬ recreates sid ev) evs →
   is_session_valid (session_run d1 evs) sid now ≠ SOk true ∧ ∀ x, find_session (session_run d1 evs) sid now ≠ SOk (Some x)).
Proof.
  split.
  - intros Hc Hevs. cbn zeta. set (s := {| s_user := uid; s_hash := hash; s_expires := exp; s_revoked := false |}).
    assert (Hrow : srows (session_run (store_create_session d id sid uid hash exp t).2 evs) !! sid = Some s).
    { assert (H1 : srows (store_create_session d id sid uid hash exp t).2 !! sid = Some s).
      { unfold store_create_session in *. cbn [fst snd] in *. destruct (insert_took d id sid uid hash exp t) as [Hnew _].
        destruct (insert_session d id sid uid hash exp t).1 as [n|e] eqn:Hins; [|done].
        destruct (srows d !! sid) as [s'|] eqn:Hs'; [by destruct (insert_unique d id sid uid hash exp t s' n Hs')|].
        specialize (Hnew eq_refl). unfold took in Hnew. rewrite Hins in Hnew. rewrite Hnew. apply lookup_insert_eq. }
      revert H1. generalize (store_create_session d id sid uid hash exp t).2. clear Hc. induction Hevs as [|ev evs Hev Hevs IH]; intros d0 H1; [done|].
      cbn [session_run foldl]. apply IH. by apply step_leaves. }
    assert (Hlive : live now s ↔ (now < exp)%Z) by (unfold live; cbn; naive_solver). split.
    + intros b Hb%valid_law. apply eq_bool_prop_intro. rewrite !Is_true_true, Hb, Z.ltb_lt, <- Hlive, Hrow. naive_solver.
    + intros o. unfold find_session. destruct (select_session _ sid now) as [[[u h]|]|e] eqn:Hsel; [| |done]; cbn; apply select_session_law in Hsel.
      * destruct Hsel as (s' & Hs' & Hl & Hu & Hh). rewrite Hrow in Hs'. injection Hs' as <-.
        destruct u as [u|]; [|done]. destruct h as [h|]; [|done]. cbn. intros [= <-]. rewrite (Hu u eq_refl), (Hh h eq_refl).
        apply Hlive, Z.ltb_lt in Hl. by rewrite Hl.
      * intros [= <-]. destruct (Z.ltb_spec now exp) as [Hlt|]; [|done]. exfalso. apply Hsel. exists s. split; [exact Hrow|by apply Hlive].
  - intros d1 Hrev Hevs. assert (Hdead : dead (session_run d1 evs) sid).
    { assert (H1 : dead d1 sid).
      { destruct Hrev as [[b Hb]|(n & Hn & Huser)].
        - unfold store_revoke_session in Hb. destruct (revoke_session_took d sid t) as [Htook _]. unfold took in Htook.
          destruct (set_revoked_session d sid t) as [[n|e] d2]; [|done]. cbn in *. injection Hb as _ <-. intros s. rewrite Htook.
          intros [(_ & s' & _ & ->)|[? _]]%lookup_alter_Some; done.
        - unfold store_revoke_all_for_user in Hn. pose proof (revoke_user_took d uid t) as Htook. unfold took in Htook.
          destruct (set_revoked_user d uid t) as [[k|e] d2]; [|done]. cbn in *. injection Hn as _ <-. intros s. rewrite Htook, lookup_fmap.
          intros (s' & Hs' & ->)%fmap_Some. by rewrite decide_True by (by apply Huser). }
      clear Hrev. revert d1 H1. induction Hevs as [|ev evs Hev Hevs IH]; intros d1 H1; [done|].
      cbn [session_run foldl]. exact (IH _ (step_dead d1 ev sid Hev H1)). }
    split.
    + intros Hv. apply valid_law in Hv as [Hv _]. destruct (Hv eq_refl) as (s & Hs & [Hl _]). by rewrite (Hdead s Hs) in Hl.
    + intros x. unfold find_session. destruct (select_session _ sid now) as [[[u h]|]|e] eqn:Hsel; cbn; [|done|done].
      apply select_session_law in Hsel as (s & Hs & [Hl _] & _). by rewrite (Hdead s Hs) in Hl.
Qed.
End Histories.

(** ** A concrete table *)

Module Rows.
Abbreviation db := (gmap Uuid StoredSession).

#[local] Instance rows : SessionRows db := {|
  insert_session := λ d id sid uid hash exp now,
    match d !! sid with
    | Some _ => (inr "duplicate key", d)
    | None => (inl 1, <[sid := {| s_user := uid; s_hash := hash; s_expires := exp; s_revoked := false |}]> d)
    end;
  set_revoked_session := λ d sid now,
    (inl (match d !! sid with Some s => if s_revoked s then 0 else 1 | None => 0 end), alter revoke_row sid d);
  set_revoked_user := λ d uid now, (inl 1, (λ s, if decide (s_user s = uid) then revoke_row s else s) <$> d);
  select_valid := λ d sid now, inl (match d !! sid with Some s => if decide (live now s) then Some tt else None | None => None end);
  select_session := λ d sid now, inl (match d !! sid with Some s => if decide (live now s) then Some (inl (s_user s), inl (s_hash s)) else None | None => None end);
  delete_expired_before := λ d cutoff, (inl 0, filter (λ e, cutoff ≤ s_expires e.2)%Z d);
|}.

#[local] Program Instance rows_laws : SessionRowsLaws db := {| srows := λ d, d |}.
Next Obligation. intros d id sid uid hash exp now s n Hs. cbn. by rewrite Hs. Qed.
Next Obligation. intros d id sid uid hash exp now. cbn. destruct (d !! sid); (split; [|try done]); [done|]. intros _. reflexivity. Qed.
Next Obligation.
  intros d sid now. split; [reflexivity|]. cbn. intros n [= <-]. destruct (d !! sid) as [s|]; [|split; [lia|naive_solver]].
  destruct (s_revoked s) eqn:Hs; split; [lia|intros (s' & [= <-] & ?); congruence|intros _; by exists s|lia].
Qed.
Next Obligation. reflexivity. Qed.
Next Obligation.
  intros d sid now o [= <-]. destruct (d !! sid) as [s|]; [|split; [by intros [? ?]|naive_solver]].
  destruct (decide (live now s)); split; [by exists s|done|by intros [? ?]|naive_solver].
Qed.
Next Obligation.
  intros d sid now o [= <-]. destruct (d !! sid) as [s|]; [|naive_solver]. destruct (decide (live now s)); [|naive_solver].
  exists s. naive_solver.
Qed.
Next Obligation. reflexivity. Qed.

Definition created := store_create_session (∅ : db) 9%N 1%N 7%N "hash" 100 0.
Lemma stored_session_life_witness :
  is_session_valid (session_run created.2 [(OpCreate 8%N 2%N 7%N "other" 50, 5); (OpRevokeSession 2%N, 6)]%Z) 1%N 99 = SOk true ∧
  is_session_valid (session_run (store_revoke_session created.2 1%N 10).2 [(OpPrune 5, 20)]%Z) 1%N 30 ≠ SOk true.
Proof.
  split.
  - assert (Hb : ∃ b, is_session_valid (session_run created.2 [(OpCreate 8%N 2%N 7%N "other" 50, 5); (OpRevokeSession 2%N, 6)]%Z) 1%N 99 = SOk b)
      by (eexists; vm_compute; reflexivity).
    destruct Hb as [b Hb]. rewrite Hb. f_equal.
    refine (proj1 (proj1 (stored_session_life (∅ : db) 9%N 1%N 7%N "hash" 100 0 _ 99) eq_refl _) b Hb).
    repeat constructor; cbn; done.
  - refine (proj1 (proj2 (stored_session_life created.2 9%N 1%N 7%N "hash" 100 10 _ 30) _ _ _)).
    + left. exists true. apply injective_projections; [vm_compute; reflexivity|reflexivity].
    + repeat constructor. cbn. tauto.
Defined.
End Rows.
