(* ===== verification/Invitation.v ===== *)
(** * Invitations: src/src/invitation/types.rs and store.rs

    [InMemoryInvitationStore] keeps the invitations by id and an index from
    tokens to ids; every method is one step.  Instants are integers
    (nanoseconds); the clock, the fresh id and the fresh token are arguments.
    The locks are never poisoned: no method panics while it holds one, since
    the redemption count stays within its [u16] ([redemption_budget]). *)

From S2P Require Import Prelude Traits.

(** ** Data *)

Inductive InvitationMode := Approval | Direct.
#[export] Instance InvitationMode_eq_dec : EqDecision InvitationMode.
Proof. solve_decision. Defined.

Inductive InvitationStatus := Pending | Opened | Accepted | Expired | Revoked | Exhausted.
#[export] Instance InvitationStatus_eq_dec : EqDecision InvitationStatus.
Proof. solve_decision. Defined.

Definition status_as_str (s : InvitationStatus) : string :=
  match s with
  | Pending => "pending"
  | Opened => "opened"
  | Accepted => "accepted"
  | Expired => "expired"
  | Revoked => "revoked"
  | Exhausted => "exhausted"
  end.

Record Invitation := {
  invitation_id : Uuid;
  token : string;
  group_id : Uuid;
  invited_by : Uuid;
  mode : InvitationMode;
  invitee_email : option string;
  role : string;
  max_uses : Z;
  use_count : Z;
  allow_multi_ip : bool;
  status : InvitationStatus;
  opened_at : option Z;
  opened_ip : option string;
  opened_ua : option string;
  expires_at : Z;
  accepted_at : option Z;
  accepted_by : option Uuid;
  created_at : Z;
}.

Record CreateInvitationParams := {
  p_group_id : Uuid;
  p_mode : InvitationMode;
  p_invitee_email : option string;
  p_role : option string;
  p_max_uses : option Z;
  p_allow_multi_ip : option bool;
  p_ttl_secs : option Z;
  p_open_window_secs : option Z;
}.

Record AcceptInvitationParams := {
  a_token : string;
  a_username : string;
  a_password : string;
  a_email : option string;
  client_ip : option string;
  client_ua : option string;
}.

Record OpenInvitationResult := {
  r_token : string;
  r_group_id : Uuid;
  group_name : option string;
  invited_by_name : option string;
  window_remaining_secs : Z;
}.

Inductive InvitationError :=
  | NotFoundInvitation
  | AlreadyUsed
  | ExpiredInvitation
  | OpenWindowExpired (remaining : Z)
  | IpMismatch
  | MultiIpDenied
  | InvalidStatus (s : InvitationStatus)
  | OtherInvitationError (message : string).

(** ** The store *)

Record InMemoryInvitationStore := {
  inner : gmap Uuid Invitation;
  token_index : gmap string Uuid;
}.

Definition InMemoryInvitationStore_new : InMemoryInvitationStore := {|
  inner := ∅; token_index := ∅ |}.

(** [None] is a panic: of [Duration::seconds], or of an addition that leaves
    chrono's range of dates.  [tok] and [id] are freshly drawn. *)
Definition create (min_date max_date : Z) (st : InMemoryInvitationStore) (by_ : Uuid)
    (params : CreateInvitationParams) (tok : string) (id : Uuid) (now : Z)
    : option (Invitation * InMemoryInvitationStore) :=
  ttl ← duration_seconds (i64_of (default 604800%Z (p_ttl_secs params)));
  if ((now + ttl <? min_date) || (max_date <? now + ttl))%Z then None else
  let invitation := {|
    invitation_id := id;
    token := tok;
    group_id := p_group_id params;
    invited_by := by_;
    mode := p_mode params;
    invitee_email := p_invitee_email params;
    role := default "member" (p_role params);
    max_uses := default 1%Z (p_max_uses params);
    use_count := 0;
    allow_multi_ip := default true (p_allow_multi_ip params);
    status := Pending;
    opened_at := None;
    opened_ip := None;
    opened_ua := None;
    expires_at := now + ttl;
    accepted_at := None;
    accepted_by := None;
    created_at := now;
  |} in
  Some (invitation, {| inner := <[id := invitation]> (inner st);
                       token_index := <[tok := id]> (token_index st) |}).

Definition set_status (i : Invitation) (s : InvitationStatus) : Invitation := {|
  invitation_id := invitation_id i; token := token i; group_id := group_id i;
  invited_by := invited_by i; mode := mode i; invitee_email := invitee_email i; role := role i;
  max_uses := max_uses i; use_count := use_count i; allow_multi_ip := allow_multi_ip i;
  status := s; opened_at := opened_at i; opened_ip := opened_ip i; opened_ua := opened_ua i;
  expires_at := expires_at i; accepted_at := accepted_at i; accepted_by := accepted_by i;
  created_at := created_at i |}.

Definition set_opened (i : Invitation) (t : Z) (ip ua : option string) : Invitation := {|
  invitation_id := invitation_id i; token := token i; group_id := group_id i;
  invited_by := invited_by i; mode := mode i; invitee_email := invitee_email i; role := role i;
  max_uses := max_uses i; use_count := use_count i; allow_multi_ip := allow_multi_ip i;
  status := Opened; opened_at := Some t; opened_ip := ip; opened_ua := ua;
  expires_at := expires_at i; accepted_at := accepted_at i; accepted_by := accepted_by i;
  created_at := created_at i |}.

(** The redemption: the count, the status once it is used up, and who. *)
Definition redeem (i : Invitation) (now : Z) (user : Uuid) : Invitation :=
  let count := (use_count i + 1)%Z in {|
  invitation_id := invitation_id i; token := token i; group_id := group_id i;
  invited_by := invited_by i; mode := mode i; invitee_email := invitee_email i; role := role i;
  max_uses := max_uses i; use_count := count; allow_multi_ip := allow_multi_ip i;
  status := if (max_uses i <=? count)%Z then Accepted else status i;
  opened_at := opened_at i; opened_ip := opened_ip i; opened_ua := opened_ua i;
  expires_at := expires_at i; accepted_at := Some now; accepted_by := Some user;
  created_at := created_at i |}.

Definition window_secs : Z := 300.

(** The body of [open] on the invitation found. *)
Definition open_found (inv : Invitation) (tok : string) (ip ua : option string) (now : Z)
    : (OpenInvitationResult + InvitationError) * Invitation :=
  if decide (mode inv ≠ Direct) then
    (inr (OtherInvitationError "open is only valid for Direct-mode invitations"), inv)
  else if (expires_at inv <? now)%Z then (inr ExpiredInvitation, set_status inv Expired)
  else if decide (status inv ≠ Pending ∧ status inv ≠ Opened) then
    (inr (InvalidStatus (status inv)), inv)
  else
    let '(opened, inv) :=
      match opened_at inv with
      | Some t => (t, inv)
      | None => (now, set_opened inv now ip ua)
      end in
    let remaining := (window_secs - num_seconds (now - opened))%Z in
    if (remaining <=? 0)%Z then (inr (OpenWindowExpired remaining), set_status inv Expired)
    else (inl {| r_token := tok; r_group_id := group_id inv; group_name := None;
                 invited_by_name := None; window_remaining_secs := remaining |}, inv).

(** [stored_ip != req_ip], when both are known. *)
Definition ip_mismatch (stored req : option string) : bool :=
  match stored, req with
  | Some s, Some r => bool_decide (s ≠ r)
  | _, _ => false
  end.

Definition window_over (inv : Invitation) (now : Z) : bool :=
  match opened_at inv with
  | Some t => (window_secs <? num_seconds (now - t))%Z
  | None => false
  end.

(** The body of [accept] on the invitation found; [user] is a fresh id. *)
Definition accept_found (inv : Invitation) (params : AcceptInvitationParams) (now : Z) (user : Uuid)
    : (Uuid * string + InvitationError) * Invitation :=
  match status inv with
  | Accepted | Revoked | Exhausted => (inr AlreadyUsed, inv)
  | Expired => (inr ExpiredInvitation, inv)
  | Pending | Opened =>
      if (expires_at inv <? now)%Z then (inr ExpiredInvitation, set_status inv Expired)
      else if bool_decide (mode inv = Direct) && window_over inv now then
        (inr (OpenWindowExpired 0), set_status inv Expired)
      else if bool_decide (mode inv = Direct) && ip_mismatch (opened_ip inv) (client_ip params) then
        (inr IpMismatch, inv)
      else (inl (group_id inv, role inv), redeem inv now user)
  end.

Definition find (st : InMemoryInvitationStore) (tok : string) : option (Uuid * Invitation) :=
  id ← token_index st !! tok;
  inv ← inner st !! id;
  Some (id, inv).

Definition write (st : InMemoryInvitationStore) (id : Uuid) (inv : Invitation)
    : InMemoryInvitationStore := {|
  inner := <[id := inv]> (inner st);
  token_index := token_index st;
|}.

Definition open (st : InMemoryInvitationStore) (tok : string) (ip ua : option string) (now : Z)
    : (OpenInvitationResult + InvitationError) * InMemoryInvitationStore :=
  match find st tok with
  | None => (inr NotFoundInvitation, st)
  | Some (id, inv) => let r := open_found inv tok ip ua now in (r.1, write st id r.2)
  end.

Definition accept (st : InMemoryInvitationStore) (params : AcceptInvitationParams) (now : Z)
    (user : Uuid) : (Uuid * string + InvitationError) * InMemoryInvitationStore :=
  match find st (a_token params) with
  | None => (inr NotFoundInvitation, st)
  | Some (id, inv) => let r := accept_found inv params now user in (r.1, write st id r.2)
  end.

Definition find_by_token (st : InMemoryInvitationStore) (tok : string) : option Invitation :=
  snd <$> find st tok.

(** The hash map's order is that of [map_to_list]. *)
Definition list_by_group (st : InMemoryInvitationStore) (group : Uuid) : list Invitation :=
  reverse (sort_by_key created_at
    (filter (λ i, group_id i = group) ((map_to_list (inner st)).*2))).

Definition revoke (st : InMemoryInvitationStore) (tok : string)
    : (unit + InvitationError) * InMemoryInvitationStore :=
  match find st tok with
  | None => (inr NotFoundInvitation, st)
  | Some (id, inv) => (inl tt, write st id (set_status inv Revoked))
  end.

Definition is_stale (now : Z) (inv : Invitation) : bool :=
  bool_decide (status inv = Pending ∨ status inv = Opened) && (expires_at inv <? now)%Z.

Definition expire_stale (st : InMemoryInvitationStore) (now : Z)
    : nat * InMemoryInvitationStore :=
  (size (filter (λ row : Uuid * Invitation, is_stale now row.2 = true) (inner st)),
   {| inner := (λ inv, if is_stale now inv then set_status inv Expired else inv) <$> inner st;
      token_index := token_index st |}).

(** ** One invitation *)

(** The statuses that can still be redeemed. *)
Definition live (i : Invitation) : Prop := status i = Pending ∨ status i = Opened.

(** A step that redeems nothing and brings nothing back. *)
Definition calm (i j : Invitation) : Prop :=
  token j = token i ∧ max_uses j = max_uses i ∧ use_count j = use_count i ∧ (live j → live i).

Lemma calm_refl i : calm i i.
Proof. done. Qed.

Lemma calm_set_status i s : (s ≠ Pending ∧ s ≠ Opened) → calm i (set_status i s).
Proof. intros [? ?]. split_and!; [done..|]. unfold live. simpl. intros [?|?]; congruence. Qed.
#[local] Hint Resolve calm_refl calm_set_status : core.

Lemma open_found_calm inv tok ip ua now : calm inv (open_found inv tok ip ua now).2.
Proof.
  unfold open_found. case_decide; [done|]. case_match; [by apply calm_set_status|].
  case_decide as Hst; [done|].
  assert (Hlive : live inv).
  { unfold live. destruct (decide (status inv = Pending)); [by left|].
    destruct (decide (status inv = Opened)); [by right|]. by contradict Hst. }
  destruct (opened_at inv); case_match; simpl; by split_and!.
Qed.

(** Every branch of [accept]. *)
Lemma accept_found_ok inv params now user r :
  (accept_found inv params now user).1 = inl r ↔
  r = (group_id inv, role inv) ∧ live inv ∧ (now ≤ expires_at inv)%Z ∧
  (mode inv = Direct → window_over inv now = false ∧
     ip_mismatch (opened_ip inv) (client_ip params) = false).
Proof.
  unfold accept_found, live. destruct (status inv) eqn:Hst; simpl;
    try (by split; [done|intros (_ & [?|?] & _); congruence]).
  all: destruct (Z.ltb_spec (expires_at inv) now); simpl;
    [split; [done|intros (_ & _ & ? & _); lia]|].
  all: destruct (decide (mode inv = Direct)) as [Hm|Hm];
    [rewrite (bool_decide_eq_true_2 _ Hm)|rewrite (bool_decide_eq_false_2 _ Hm)]; simpl.
  all: try (split; [intros [= <-]; by naive_solver|by intros (-> & _)]).
  all: destruct (window_over inv now); simpl;
    [split; [done|intros (_ & _ & _ & Hw); by destruct (Hw Hm)]|].
  all: destruct (ip_mismatch (opened_ip inv) (client_ip params)); simpl;
    [split; [done|intros (_ & _ & _ & Hw); by destruct (Hw Hm)]|].
  all: split; [intros [= <-]; by naive_solver|by intros (-> & _)].
Qed.

Lemma accept_found_writes inv params now user :
  match (accept_found inv params now user).1 with
  | inl _ => (accept_found inv params now user).2 = redeem inv now user
  | inr _ => (accept_found inv params now user).2 = inv ∨
             (accept_found inv params now user).2 = set_status inv Expired ∧ live inv ∧
             ((expires_at inv < now)%Z ∨ mode inv = Direct ∧ window_over inv now = true)
  end.
Proof.
  unfold accept_found, live. destruct (status inv) eqn:Hst; simpl; auto.
  all: destruct (Z.ltb_spec (expires_at inv) now); simpl; [naive_solver|].
  all: destruct (bool_decide (mode inv = Direct) && window_over inv now) eqn:Hw; simpl;
    [apply andb_true_iff in Hw as [?%bool_decide_eq_true ?]; naive_solver|].
  all: destruct (bool_decide _ && ip_mismatch _ _); simpl; auto.
Qed.

(** ** Histories

    [n]: the redemptions of each invitation so far; [rv]: the invitations
    revoked so far.  A creation draws an unused id and token, and its
    [max_uses] is a [u16]. *)
Inductive history : InMemoryInvitationStore → (Uuid → Z) → gset Uuid → Prop :=
  | history_new : history InMemoryInvitationStore_new (λ _, 0%Z) ∅
  | history_create min_date max_date st n rv by_ params tok id now inv st' :
      history st n rv → inner st !! id = None → token_index st !! tok = None →
      (0 ≤ default 1%Z (p_max_uses params) < 2 ^ 16)%Z →
      create min_date max_date st by_ params tok id now = Some (inv, st') → history st' n rv
  | history_open st n rv tok ip ua now :
      history st n rv → history (open st tok ip ua now).2 n rv
  | history_accept st n rv params now user :
      history st n rv →
      let r := accept st params now user in
      history r.2
        (λ i, if decide (token_index st !! a_token params = Some i ∧ is_inl r.1 = true)
              then (n i + 1)%Z else n i) rv
  | history_revoke st n rv tok :
      history st n rv →
      history (revoke st tok).2 n
        (match token_index st !! tok with Some id => {[id]} ∪ rv | None => rv end)
  | history_expire st n rv now :
      history st n rv → history (expire_stale st now).2 n rv.

Definition row_ok (n : Uuid → Z) (rv : gset Uuid) (id : Uuid) (i : Invitation) : Prop :=
  use_count i = n id ∧ (0 ≤ n id ≤ 1 `max` max_uses i)%Z ∧ (max_uses i < 2 ^ 16)%Z ∧
  (live i → (n id < 1 `max` max_uses i)%Z ∧ id ∉ rv).

Definition store_ok (st : InMemoryInvitationStore) (n : Uuid → Z) (rv : gset Uuid) : Prop :=
  (∀ id i, inner st !! id = Some i → row_ok n rv id i) ∧
  (∀ id, inner st !! id = None → n id = 0%Z ∧ id ∉ rv) ∧
  (∀ tok id, token_index st !! tok = Some id → ∃ i, inner st !! id = Some i ∧ token i = tok).

Lemma find_some st tok id i :
  find st tok = Some (id, i) ↔ token_index st !! tok = Some id ∧ inner st !! id = Some i.
Proof.
  unfold find. destruct (token_index st !! tok) as [id'|] eqn:Ht; simpl; [|naive_solver].
  destruct (inner st !! id') as [i'|] eqn:Hi; simpl; naive_solver.
Qed.

Lemma row_calm n rv id i j : row_ok n rv id i → calm i j → row_ok n rv id j.
Proof.
  intros (Hu & Hn & Hm & Hl) (_ & Hmax & Huse & Hlive). unfold row_ok. rewrite Huse, Hmax.
  naive_solver.
Qed.

Lemma row_other n n' rv rv' id i :
  row_ok n rv id i → n' id = n id → (id ∈ rv' → id ∈ rv) → row_ok n' rv' id i.
Proof. unfold row_ok. intros (? & ? & ? & Hl) -> Hrv. naive_solver. Qed.

Lemma write_ok st n rv n' rv' id i j :
  store_ok st n rv → inner st !! id = Some i → token j = token i → row_ok n' rv' id j →
  (∀ id', id' ≠ id → n' id' = n id' ∧ (id' ∈ rv' → id' ∈ rv)) →
  store_ok (write st id j) n' rv'.
Proof.
  intros (Hrow & Hnone & Hidx) Hi Htok Hj Hother. unfold store_ok, write. simpl. split_and!.
  - intros id' i'. destruct (decide (id' = id)) as [->|Hne].
    + rewrite lookup_insert_eq. by intros [= <-].
    + rewrite lookup_insert_ne by done. intros Hi'. destruct (Hother id' Hne).
      by apply (row_other n _ rv); [apply Hrow|..].
  - intros id'. destruct (decide (id' = id)) as [->|Hne]; [by rewrite lookup_insert_eq|].
    rewrite lookup_insert_ne by done. intros Hi'. destruct (Hother id' Hne) as [-> Hrv].
    destruct (Hnone id' Hi'). naive_solver.
  - intros tok id' Ht. destruct (Hidx tok id' Ht) as (i' & Hi' & Hti').
    destruct (decide (id' = id)) as [->|Hne].
    + rewrite lookup_insert_eq. exists j. split; [done|]. congruence.
    + rewrite lookup_insert_ne by done. by exists i'.
Qed.

Lemma write_calm st n rv id i j :
  store_ok st n rv → inner st !! id = Some i → calm i j → store_ok (write st id j) n rv.
Proof.
  intros Hok Hi Hcalm. eapply write_ok; [done|done|by destruct Hcalm| |done].
  eapply row_calm; [|done]. by apply Hok.
Qed.

Lemma create_ok min_date max_date st n rv by_ params tok id now inv st' :
  store_ok st n rv → inner st !! id = None → token_index st !! tok = None →
  (0 ≤ default 1%Z (p_max_uses params) < 2 ^ 16)%Z →
  create min_date max_date st by_ params tok id now = Some (inv, st') → store_ok st' n rv.
Proof.
  intros (Hrow & Hnone & Hidx) Hid Htok Hmax. unfold create.
  destruct (duration_seconds _) as [ttl|]; [|done]. simpl. case_match; [done|]. intros [= <- <-].
  destruct (Hnone id Hid) as [Hn Hrv]. unfold store_ok. simpl. split_and!.
  - intros id' i'. destruct (decide (id' = id)) as [->|Hne].
    + rewrite lookup_insert_eq. intros [= <-]. unfold row_ok. simpl. rewrite Hn.
      split_and!; [done|lia|lia|lia|]. intros _. split; [lia|done].
    + rewrite lookup_insert_ne by done. apply Hrow.
  - intros id' [? ?]%lookup_insert_None. by apply Hnone.
  - intros tok' id'. destruct (decide (tok' = tok)) as [->|Hne].
    + rewrite lookup_insert_eq. intros [= <-]. rewrite lookup_insert_eq. by eexists.
    + rewrite lookup_insert_ne by done. intros Ht.
      destruct (Hidx tok' id' Ht) as (i' & Hi' & Hti'). exists i'. split; [|done].
      rewrite lookup_insert_ne; [done|]. congruence.
Qed.

Lemma accept_ok st n rv params now user :
  store_ok st n rv →
  let r := accept st params now user in
  store_ok r.2 (λ i, if decide (token_index st !! a_token params = Some i ∧ is_inl r.1 = true)
                     then (n i + 1)%Z else n i) rv.
Proof.
  intros Hok r. subst r. unfold accept. destruct (find st (a_token params)) as [[id i]|] eqn:Hf.
  - apply find_some in Hf as [Ht Hi]. rewrite Ht. simpl.
    pose proof (accept_found_writes i params now user) as Hw.
    destruct (accept_found i params now user).1 as [res|e] eqn:Hr; simpl.
    + rewrite Hw. apply accept_found_ok in Hr as (_ & Hlive & _).
      destruct (proj1 Hok id i Hi) as (Hu & Hn & Hm & Hl). destruct (Hl Hlive) as [Hlt Hrv].
      eapply write_ok; [done|done|done| |].
      * unfold row_ok, redeem, live. simpl. rewrite decide_True by done. split_and!; [lia..|].
        destruct (Z.leb_spec (max_uses i) (use_count i + 1)); [by intros [?|?]|].
        intros _. split; [lia|done].
      * intros id' Hne. rewrite decide_False by by intros [[= ->] _]. done.
    + assert (Hsame : store_ok (write st id (accept_found i params now user).2) n rv).
      { eapply write_calm; [done|done|]. destruct Hw as [->|(-> & _)]; [done|by apply calm_set_status]. }
      destruct Hsame as (H1 & H2 & H3). split_and!; [..|done].
      * intros id' i' Hi'. eapply row_other; [by apply H1| |done].
        by rewrite decide_False by by intros [_ ?].
      * intros id' Hi'. rewrite decide_False by by intros [_ ?]. by apply H2.
  - simpl. destruct Hok as (H1 & H2 & H3). split_and!; [..|done].
    + intros id' i' Hi'. eapply row_other; [by apply H1| |done].
      by rewrite decide_False by by intros [_ ?].
    + intros id' Hi'. rewrite decide_False by by intros [_ ?]. by apply H2.
Qed.

Lemma revoke_ok st n rv tok :
  store_ok st n rv →
  store_ok (revoke st tok).2 n
    (match token_index st !! tok with Some id => {[id]} ∪ rv | None => rv end).
Proof.
  intros Hok. unfold revoke. destruct (find st tok) as [[id i]|] eqn:Hf.
  - apply find_some in Hf as [-> Hi]. simpl. eapply write_ok; [done|done|done| |set_solver].
    destruct (proj1 Hok id i Hi) as (? & [? ?] & ? & _).
    unfold row_ok, live. simpl. split_and!; [done..|]. by intros [?|?].
  - destruct (token_index st !! tok) as [id|] eqn:Ht; [|done]. exfalso.
    destruct (proj2 (proj2 Hok) tok id Ht) as (i & Hi & _).
    assert (find st tok = Some (id, i)) by by apply find_some. congruence.
Qed.

Lemma expire_ok st n rv now : store_ok st n rv → store_ok (expire_stale st now).2 n rv.
Proof.
  intros (Hrow & Hnone & Hidx). unfold store_ok. simpl. split_and!.
  - intros id i' (i & <- & Hi)%lookup_fmap_Some. eapply row_calm; [by apply Hrow|].
    case_match; [by apply calm_set_status|done].
  - intros id. rewrite lookup_fmap, fmap_None. apply Hnone.
  - intros tok id Ht. destruct (Hidx tok id Ht) as (i & Hi & Hti). rewrite lookup_fmap, Hi. simpl.
    eexists. split; [done|]. by case_match.
Qed.

Lemma history_ok st n rv : history st n rv → store_ok st n rv.
Proof.
  induction 1 as [|min_date max_date st n rv by_ params tok id now inv st' _ IH Hid Htok Hmax Hc
    |st n rv tok ip ua now _ IH|st n rv params now user _ IH r|st n rv tok _ IH|st n rv now _ IH].
  - split_and!; [done|done|done].
  - by eapply create_ok.
  - unfold open. destruct (find st tok) as [[id i]|] eqn:Hf; [|done]. simpl.
    apply find_some in Hf as [_ Hi]. eapply write_calm; [done|done|apply open_found_calm].
  - by apply accept_ok.
  - by apply revoke_ok.
  - by apply expire_ok.
Qed.

Lemma find_write st tok id i j :
  find st tok = Some (id, i) → find (write st id j) tok = Some (id, j).
Proof.
  intros [Ht _]%find_some. apply find_some. simpl. split; [done|]. by rewrite lookup_insert_eq.
Qed.

Lemma ip_mismatch_refl ip : ip_mismatch ip ip = false.
Proof. destruct ip; [|done]. apply bool_decide_eq_false_2. by intros []. Qed.

(** A direct, redeemable invitation that was opened at [t0]. *)
Lemma reopen_found i t0 tok ip ua t :
  mode i = Direct → live i → opened_at i = Some t0 → (t0 ≤ t ≤ expires_at i)%Z →
  if (t <? t0 + 300 * nanos_per_sec)%Z
  then ∃ r, open_found i tok ip ua t = (inl r, i)
  else ∃ n, open_found i tok ip ua t = (inr (OpenWindowExpired n), set_status i Expired).
Proof.
  intros Hm Hl Ho Hle. unfold open_found. rewrite decide_False by by intros [].
  destruct (Z.ltb_spec (expires_at i) t); [lia|]. rewrite decide_False, Ho by (destruct Hl; naive_solver).
  pose proof (num_seconds_le (t - t0) 299). unfold window_secs.
  destruct (Z.leb_spec (300 - num_seconds (t - t0)) 0);
    destruct (Z.ltb_spec t (t0 + 300 * nanos_per_sec)); first [by eexists|lia].
Qed.

(** ** Properties *)

(** The redemption budget: over any history of one store, an invitation
    is redeemed at most [max_uses] times (once when [max_uses] is zero), so
    its [u16] count never overflows; and once it is used up or has been
    revoked, its token is refused for ever. *)
Theorem redemption_budget st n rv tok id i :
  history st n rv → token_index st !! tok = Some id → inner st !! id = Some i →
  (0 ≤ n id ≤ 1 `max` max_uses i)%Z ∧ (n id < 2 ^ 16)%Z ∧ find_by_token st tok = Some i ∧
  (n id = 1 `max` max_uses i ∨ id ∈ rv →
     ∀ params now user, a_token params = tok →
       ∃ e, (accept st params now user).1 = inr e)%Z.
Proof.
  intros Hh Ht Hi. destruct (proj1 (history_ok st n rv Hh) id i Hi) as (Hu & Hn & Hm & Hl).
  assert (Hf : find st tok = Some (id, i)) by by apply find_some.
  split_and!; [lia..| |].
  - unfold find_by_token. by rewrite Hf.
  - intros Hdone params now user <-. unfold accept. rewrite Hf. simpl.
    destruct (accept_found i params now user).1 as [r|e] eqn:Hr; [|by eexists].
    apply accept_found_ok in Hr as (_ & Hlive & _). destruct (Hl Hlive).
    destruct Hdone; [lia|done].
Qed.

(** [accept] redeems exactly a pending or opened invitation before its
    expiry, and in direct mode within the window of its opening and not from
    a known address other than the opener's; it answers the group and role,
    counts the use, and changes no other invitation.  A refusal leaves the
    store as it was, except that an invitation past its expiry or window is
    marked expired; an unknown token is not found. *)
Theorem accept_spec st params now user :
  match find st (a_token params) with
  | None => accept st params now user = (inr NotFoundInvitation, st)
  | Some (id, i) =>
      ((∃ r, (accept st params now user).1 = inl r) ↔
         live i ∧ (now ≤ expires_at i)%Z ∧
         (mode i = Direct → window_over i now = false ∧
            ip_mismatch (opened_ip i) (client_ip params) = false)) ∧
      match (accept st params now user).1 with
      | inl r => r = (group_id i, role i) ∧
                 (accept st params now user).2 = write st id (redeem i now user)
      | inr _ =>
          (accept st params now user).2 = st ∨
          (accept st params now user).2 = write st id (set_status i Expired) ∧ live i ∧
          ((expires_at i < now)%Z ∨ mode i = Direct ∧ window_over i now = true)
      end
  end.
Proof.
  destruct (find st (a_token params)) as [[id i]|] eqn:Hf; [|by unfold accept; rewrite Hf].
  unfold accept. rewrite Hf. simpl. apply find_some in Hf as [_ Hi]. split.
  - setoid_rewrite accept_found_ok. naive_solver.
  - pose proof (accept_found_writes i params now user) as Hw.
    destruct (accept_found i params now user).1 as [r|e] eqn:Hr.
    + apply accept_found_ok in Hr as [-> _]. by rewrite Hw.
    + destruct Hw as [->|(-> & ? & ?)]; [left|by right].
      unfold write. rewrite insert_id by done. by destruct st.
Qed.

(** The open window: after the first opening of a direct invitation, its
    opener can accept it during 301 seconds and open it again during 300
    seconds; opening it again after that expires the link, so that in the
    second in between an acceptance succeeds only if the link is not opened
    first. *)
Theorem open_window_edges st tok ip ua t0 t id i params user :
  find st tok = Some (id, i) → a_token params = tok → client_ip params = ip →
  mode i = Direct → live i → opened_at i = None → (t0 ≤ t ≤ expires_at i)%Z →
  let st1 := (open st tok ip ua t0).2 in
  (∃ r, (open st tok ip ua t0).1 = inl r ∧ window_remaining_secs r = 300%Z) ∧
  ((∃ r, (accept st1 params t user).1 = inl r) ↔ (t < t0 + 301 * nanos_per_sec)%Z) ∧
  ((∃ r, (open st1 tok ip ua t).1 = inl r) ↔ (t < t0 + 300 * nanos_per_sec)%Z) ∧
  ((t0 + 300 * nanos_per_sec ≤ t)%Z →
     (accept (open st1 tok ip ua t).2 params t user).1 = inr ExpiredInvitation).
Proof.
  intros Hf Htok Hip Hm Hl Ho Hle st1.
  set (j := set_opened i t0 ip ua).
  assert (Hopen : ∃ r, open_found i tok ip ua t0 = (inl r, j) ∧ window_remaining_secs r = 300%Z).
  { unfold open_found. rewrite decide_False by by intros [].
    destruct (Z.ltb_spec (expires_at i) t0); [lia|].
    rewrite decide_False by (destruct Hl; naive_solver). rewrite Ho, Z.sub_diag. by eexists. }
  destruct Hopen as (r0 & Hopen & Hr0).
  assert (Hst1 : st1 = write st id j) by (unfold st1, open; by rewrite Hf, Hopen).
  assert (Hf1 : find st1 tok = Some (id, j)) by (rewrite Hst1; by eapply find_write).
  assert (Hlj : live j) by by right.
  pose proof (reopen_found j t0 tok ip ua t Hm Hlj eq_refl Hle) as Hre.
  split_and!.
  - unfold open. rewrite Hf, Hopen. by exists r0.
  - unfold accept. rewrite Htok, Hf1. cbn [fst]. setoid_rewrite accept_found_ok.
    unfold window_over. simpl. rewrite Hip, ip_mismatch_refl. unfold window_secs.
    pose proof (num_seconds_le (t - t0) 300).
    destruct (Z.ltb_spec 300 (num_seconds (t - t0))); split.
    + intros (r & _ & _ & _ & Hw). by destruct (Hw Hm).
    + lia.
    + lia.
    + intros _. eexists. split_and!; [done|done|lia|done].
  - unfold open at 1. rewrite Hf1. cbn [fst].
    destruct (Z.ltb_spec t (t0 + 300 * nanos_per_sec)); destruct Hre as (r & ->); simpl;
      split; intros; [lia|by eexists|naive_solver|lia].
  - intros Hlate. unfold open at 1. rewrite Hf1. cbn [snd].
    destruct (Z.ltb_spec t (t0 + 300 * nanos_per_sec)); [lia|]. destruct Hre as (n & ->).
    unfold accept. rewrite Htok, (find_write st1 tok id j _ Hf1). done.
Qed.

(** ** Examples *)
Module Sample.
Definition params : CreateInvitationParams := {|
  p_group_id := 7; p_mode := Direct; p_invitee_email := None; p_role := None;
  p_max_uses := Some 1%Z; p_allow_multi_ip := None; p_ttl_secs := None;
  p_open_window_secs := None |}.
Definition latest : Z := 10 ^ 24.
Definition st1 : InMemoryInvitationStore :=
  match create 0 latest InMemoryInvitationStore_new 1%N params "tok" 2%N 0 with
  | Some (_, st) => st
  | None => InMemoryInvitationStore_new
  end.
Definition i1 : Invitation := {|
  invitation_id := 2; token := "tok"; group_id := 7; invited_by := 1; mode := Direct;
  invitee_email := None; role := "member"; max_uses := 1; use_count := 0;
  allow_multi_ip := true; status := Pending; opened_at := None; opened_ip := None;
  opened_ua := None; expires_at := 604800 * nanos_per_sec; accepted_at := None;
  accepted_by := None; created_at := 0 |}.
Definition acceptance : AcceptInvitationParams := {|
  a_token := "tok"; a_username := "ann"; a_password := "pw"; a_email := None;
  client_ip := Some "10.0.0.1"; client_ua := None |}.
Definition st2 : InMemoryInvitationStore := (accept st1 acceptance 5 9%N).2.
Definition i2 : Invitation := default i1 (inner st2 !! 2%N).
End Sample.

(** Redeemed once, refused afterwards. *)
Lemma redemption_budget_witness :
  ∃ e, (accept Sample.st2 Sample.acceptance 6 10%N).1 = inr e.
Proof.
  apply (redemption_budget Sample.st2
    (λ i, if decide (token_index Sample.st1 !! a_token Sample.acceptance = Some i ∧
                     is_inl (accept Sample.st1 Sample.acceptance 5 9%N).1 = true)
          then (0 + 1)%Z else 0%Z) ∅ "tok" 2 Sample.i2).
  - apply (history_accept Sample.st1 (λ _, 0%Z) ∅ Sample.acceptance 5 9).
    apply (history_create 0 Sample.latest InMemoryInvitationStore_new (λ _, 0%Z) ∅ 1 Sample.params "tok" 2 0
      Sample.i1); [constructor|done|done|done|by vm_compute].
  - by vm_compute.
  - by vm_compute.
  - left. by vm_compute.
  - done.
Defined.

Lemma open_window_edges_witness :
  (accept (open (open Sample.st1 "tok" (Some "10.0.0.1") None 0).2 "tok" (Some "10.0.0.1") None
     (300 * nanos_per_sec)).2 Sample.acceptance (300 * nanos_per_sec) 9).1
  = inr ExpiredInvitation.
Proof.
  apply (open_window_edges Sample.st1 "tok" (Some "10.0.0.1") None 0 (300 * nanos_per_sec) 2
    Sample.i1 Sample.acceptance 9).
  - by vm_compute.
  - done.
  - done.
  - by vm_compute.
  - left. by vm_compute.
  - by vm_compute.
  - split; by vm_compute.
  - by vm_compute.
Defined.
