(* ===== verification/Codec.v ===== *)
(** * Codecs: src/src/utils.rs and src/src/invitation/code.rs

    - [Base64Url]: the house base64url codec;
    - [constant_time_eq];
    - [Code]: invitation codes, typed by hand.

    A byte is an integer below 256 and a [u32] one below [2^32]; a [str] is
    its UTF-8 bytes where the code reads bytes, and its code points where it
    reads [char]s. *)

From S2P Require Import Prelude.

Definition is_u8 (b : Z) : Prop := (0 ≤ b < 256)%Z.
Definition u32 (z : Z) : Z := z `mod` 2 ^ 32.
Definition bytes_of (s : string) : list Z := Z.of_N <$> str_codes s.

(** The number bytes stand for, most significant byte first. *)
Definition be_value (hash : list Z) : Z := foldl (λ acc b, acc * 256 + b)%Z 0%Z hash.

Lemma be_value_cons b hash :
  be_value (b :: hash) = (b * 256 ^ Z.of_nat (length hash) + be_value hash)%Z.
Proof.
  unfold be_value. cbn [foldl]. rewrite Z.mul_0_l, Z.add_0_l. generalize b. induction hash as [|c hash IH]; intros a.
  - cbn [foldl length]. rewrite Z.pow_0_r. lia.
  - cbn [foldl length]. rewrite IH, (IH (0 * 256 + c)%Z). rewrite Nat2Z.inj_succ, Z.pow_succ_r by lia. lia.
Qed.

Lemma be_value_range hash : Forall is_u8 hash → (0 ≤ be_value hash < 256 ^ Z.of_nat (length hash))%Z.
Proof.
  induction 1 as [|b hash Hb _ IH]; [done|]. rewrite be_value_cons. cbn [length].
  rewrite Nat2Z.inj_succ, Z.pow_succ_r by lia. unfold is_u8 in Hb. nia.
Qed.

Module Base64Url.

(** ** The codec *)

Inductive Base64UrlDecodeError :=
  | InvalidLength
  | InvalidByte (index : nat) (byte : Z)
  | NonCanonicalTrailingBits.

Definition TABLE : list Z :=
  bytes_of "ABCDEFGHIJKLMNOPQRSTUVWXYZabcdefghijklmnopqrstuvwxyz0123456789-_".
Definition table_at (i : Z) : Z := default 0%Z (TABLE !! Z.to_nat i).

(** [chunks(3)] *)
Fixpoint chunks3 (bytes : list Z) : list (list Z) :=
  match bytes with
  | [] => []
  | [b0] => [[b0]]
  | [b0; b1] => [[b0; b1]]
  | b0 :: b1 :: b2 :: rest => [b0; b1; b2] :: chunks3 rest
  end.

Definition encode_chunk (chunk : list Z) : list Z :=
  let b0 := default 0%Z (chunk !! 0) in
  let b1 := default 0%Z (chunk !! 1) in
  let b2 := default 0%Z (chunk !! 2) in
  let n := Z.lor (Z.lor (Z.shiftl b0 16) (Z.shiftl b1 8)) b2 in
  [table_at (Z.land (Z.shiftr n 18) 63); table_at (Z.land (Z.shiftr n 12) 63)] ++
  (if bool_decide (1 < length chunk) then [table_at (Z.land (Z.shiftr n 6) 63)] else []) ++
  (if bool_decide (2 < length chunk) then [table_at (Z.land n 63)] else []).

Definition encode (bytes : list Z) : list Z := concat (encode_chunk <$> chunks3 bytes).

Definition val (c : Z) : option Z :=
  if ((65 <=? c) && (c <=? 90))%Z then Some (c - 65)%Z
  else if ((97 <=? c) && (c <=? 122))%Z then Some (c - 97 + 26)%Z
  else if ((48 <=? c) && (c <=? 57))%Z then Some (c - 48 + 52)%Z
  else if (c =? 45)%Z then Some 62%Z
  else if (c =? 95)%Z then Some 63%Z
  else None.

(** [trim_end_matches('=')] *)
Definition equals_sign : Z := 61.
Fixpoint trim_end (s : list Z) : list Z :=
  match s with
  | [] => []
  | c :: s =>
      match trim_end s with
      | [] => if (c =? equals_sign)%Z then [] else [c]
      | s => c :: s
      end
  end.

(** The loop, at index [i] of a trimmed input of length [len]. *)
Fixpoint decode_loop (len i : nat) (acc bits : Z) (out s : list Z)
    : list Z + Base64UrlDecodeError :=
  match s with
  | [] => inl out
  | c :: s =>
      match val c with
      | None => inr (InvalidByte i c)
      | Some v =>
          let acc := Z.lor (u32 (Z.shiftl acc 6)) v in
          let bits := (bits + 6)%Z in
          let '(bits, out) :=
            if (8 <=? bits)%Z
            then ((bits - 8)%Z, out ++ [Z.land (Z.shiftr acc (bits - 8)) 255])
            else (bits, out) in
          if bool_decide (i = len - 1) && (0 <? bits)%Z &&
             negb (Z.land acc (Z.shiftl 1 bits - 1) =? 0)%Z
          then inr NonCanonicalTrailingBits
          else decode_loop len (S i) acc bits out s
      end
  end.

Definition decode (s : list Z) : list Z + Base64UrlDecodeError :=
  if bool_decide (length s `mod` 4 = 1) then inr InvalidLength
  else let s := trim_end s in decode_loop (length s) 0 0 0 [] s.

(** The vectors of RFC 4648, section 10. *)
Example rfc4648_vectors :
  encode (bytes_of "foob") = bytes_of "Zm9vYg" ∧ decode (bytes_of "Zm9vYmE=") = inl (bytes_of "fooba") ∧
  decode (bytes_of "Zm9=") = inr NonCanonicalTrailingBits.
Proof. by vm_compute. Qed.

(** ** Bits as arithmetic *)

Lemma lor_shiftl_add a v k :
  (0 ≤ k)%Z → (0 ≤ v < 2 ^ k)%Z → Z.lor (Z.shiftl a k) v = (a * 2 ^ k + v)%Z.
Proof.
  intros Hk Hv. rewrite <- Z.shiftl_mul_pow2 by done.
  assert (Hland : Z.land (Z.shiftl a k) v = 0%Z).
  { apply Z.bits_inj'. intros n Hn. rewrite Z.land_spec, Z.bits_0.
    destruct (Z.lt_ge_cases n k) as [Hlt|Hge]; [by rewrite Z.shiftl_spec_low|].
    rewrite <- (Z.mod_small v (2 ^ k)) by done. rewrite Z.mod_pow2_bits_high by lia.
    apply andb_false_r. }
  rewrite <- Z.lxor_lor by done. by rewrite <- Z.add_nocarry_lxor.
Qed.

Lemma land_low z k : (0 ≤ k)%Z → Z.land z (Z.shiftl 1 k - 1) = (z `mod` 2 ^ k)%Z.
Proof.
  intros Hk. rewrite <- Z.land_ones by done. by rewrite Z.ones_equiv, Z.shiftl_1_l, Z.sub_1_r.
Qed.

(** The accumulator after one more value. *)
Lemma acc_step acc v :
  (0 ≤ v < 64)%Z → Z.lor (u32 (Z.shiftl acc 6)) v = (64 * (acc `mod` 2 ^ 26) + v)%Z.
Proof.
  intros Hv. unfold u32.
  assert (Z.shiftl acc 6 `mod` 2 ^ 32 = Z.shiftl (acc `mod` 2 ^ 26) 6)%Z as ->.
  { rewrite !Z.shiftl_mul_pow2 by done. change (2 ^ 32)%Z with (2 ^ 26 * 2 ^ 6)%Z.
    by rewrite Z.mul_mod_distr_r. }
  rewrite lor_shiftl_add by done. lia.
Qed.

Lemma byte_of z k : (0 ≤ k)%Z → Z.land (Z.shiftr z k) 255 = ((z / 2 ^ k) `mod` 256)%Z.
Proof.
  intros Hk. rewrite Z.shiftr_div_pow2 by done. change 255%Z with (Z.ones 8).
  by rewrite Z.land_ones.
Qed.

Lemma table_val i : (0 ≤ i < 64)%Z → val (table_at i) = Some i.
Proof.
  intros Hi.
  assert (Hall : forallb (λ k, bool_decide (val (table_at k) = Some k)) (seqZ 0 64) = true)
    by by vm_compute.
  rewrite forallb_forall in Hall. specialize (Hall i). rewrite bool_decide_eq_true in Hall.
  apply Hall, list_elem_of_In, elem_of_seqZ. lia.
Qed.

Lemma val_table c v : val c = Some v → (0 ≤ v < 64)%Z ∧ c = table_at v.
Proof.
  intros Hv. assert (Hr : (0 ≤ c < 256)%Z).
  { unfold val in Hv. repeat case_match; first [done|lia]. }
  assert (Hall : forallb (λ k, match val k with
                               | Some w => bool_decide (0 ≤ w < 64 ∧ k = table_at w)%Z
                               | None => true
                               end) (seqZ 0 256) = true) by by vm_compute.
  rewrite forallb_forall in Hall. specialize (Hall c). rewrite Hv, bool_decide_eq_true in Hall.
  apply Hall, list_elem_of_In, elem_of_seqZ. lia.
Qed.

(** ** One character

    Of the accumulator only the [bits] low bits, [r], are still to be
    written. *)
Definition bits_after (bits : Z) : Z := if decide (bits = 0%Z) then 6 else bits - 2.
Definition out_after (out : list Z) (bits r v : Z) : list Z :=
  if decide (bits = 0%Z) then out else out ++ [((r * 64 + v) / 2 ^ bits_after bits)%Z].

Lemma acc_rem acc v bits :
  bits = 0%Z ∨ bits = 2%Z ∨ bits = 4%Z ∨ bits = 6%Z → (0 ≤ v < 64)%Z →
  let acc' := (64 * (acc `mod` 2 ^ 26) + v)%Z in
  let total := ((acc `mod` 2 ^ bits) * 64 + v)%Z in
  (acc' `mod` 2 ^ bits_after bits = total `mod` 2 ^ bits_after bits)%Z ∧
  (bits ≠ 0 → (acc' / 2 ^ bits_after bits) `mod` 256 = total / 2 ^ bits_after bits)%Z.
Proof.
  intros Hbits Hv acc' total.
  assert (Hr : (acc `mod` 2 ^ bits = (acc `mod` 2 ^ 26) `mod` 2 ^ bits)%Z).
  { symmetry. apply Z.mod_mod_divide. destruct Hbits as [->|[->|[->| ->]]];
      [by exists (2 ^ 26)%Z|by exists (2 ^ 24)%Z|by exists (2 ^ 22)%Z|by exists (2 ^ 20)%Z]. }
  assert (Htotal : total = ((acc `mod` 2 ^ 26) `mod` 2 ^ bits * 64 + v)%Z).
  { unfold total. by rewrite Hr. }
  clearbody total. subst acc' total. generalize (acc `mod` 2 ^ 26)%Z. intros a. clear Hr acc.
  assert (Hpow : (0 < 2 ^ bits)%Z) by (apply Z.pow_pos_nonneg; lia).
  pose proof (Z.div_mod a (2 ^ bits) ltac:(lia)) as Ha. pose proof (Z.mod_pos_bound a (2 ^ bits) Hpow) as Hrb.
  revert Ha Hrb. generalize (a / 2 ^ bits)%Z (a `mod` 2 ^ bits)%Z. intros q r Ha Hrb.
  replace (64 * a + v)%Z with (r * 64 + v + q * (2 ^ bits * 64))%Z by (rewrite Ha; ring). clear Ha.
  set (B := (2 ^ bits_after bits)%Z).
  assert (HK : ∃ K, (2 ^ bits * 64 = K * B ∧ 0 < B ∧ (bits ≠ 0 → K = 256))%Z).
  { destruct Hbits as [->|[->|[->| ->]]]; [exists 1%Z|exists 256%Z..]; by vm_compute. }
  destruct HK as (K & HK & HB & HK256). rewrite HK, Z.mul_assoc. clearbody B.
  rewrite Z.mod_add, Z.div_add by lia. split; [done|].
  intros Hne. rewrite (HK256 Hne) in *. rewrite Z.mod_add by lia.
  apply Z.mod_small. split; [apply Z.div_pos; lia|]. apply Z.div_lt_upper_bound; lia.
Qed.

Lemma loop_cons len i acc bits out c v s :
  val c = Some v → bits = 0%Z ∨ bits = 2%Z ∨ bits = 4%Z ∨ bits = 6%Z →
  let total := ((acc `mod` 2 ^ bits) * 64 + v)%Z in
  ∃ acc', (acc' `mod` 2 ^ bits_after bits = total `mod` 2 ^ bits_after bits)%Z ∧
    decode_loop len i acc bits out (c :: s) =
      if decide (i = len - 1 ∧ (total `mod` 2 ^ bits_after bits)%Z ≠ 0%Z)
      then inr NonCanonicalTrailingBits
      else decode_loop len (S i) acc' (bits_after bits) (out_after out bits (acc `mod` 2 ^ bits) v) s.
Proof.
  intros Hc Hbits total. destruct (val_table c v Hc) as [Hv _].
  destruct (acc_rem acc v bits Hbits Hv) as [Hrem Hbyte]. fold total in Hrem, Hbyte.
  eexists. split; [exact Hrem|]. simpl. rewrite Hc, acc_step by done.
  assert (Hsplit : (if (8 <=? bits + 6)%Z
            then ((bits + 6 - 8)%Z, out ++ [Z.land (Z.shiftr (64 * (acc `mod` 2 ^ 26) + v)
                                                      (bits + 6 - 8)) 255])
            else ((bits + 6)%Z, out)) =
          (bits_after bits, out_after out bits (acc `mod` 2 ^ bits) v)).
  { unfold out_after. case_decide as Hb0.
    - unfold bits_after. rewrite decide_True by done. by rewrite Hb0.
    - fold total. rewrite <- Hbyte by done.
      assert (Hba : bits_after bits = (bits + 6 - 8)%Z).
      { unfold bits_after. rewrite decide_False by done. lia. }
      rewrite <- byte_of by (rewrite Hba; lia). rewrite Hba.
      destruct (Z.leb_spec 8 (bits + 6)); [done|lia]. }
  rewrite Hsplit. clear Hsplit. rewrite land_low by (unfold bits_after; case_decide; lia).
  rewrite Hrem. case_decide as Hlast.
  - destruct Hlast as [-> Hne]. rewrite bool_decide_eq_true_2 by done.
    destruct (Z.ltb_spec 0 (bits_after bits)) as [|Hz].
    + rewrite (proj2 (Z.eqb_neq _ _) Hne). done.
    + exfalso. apply Hne. assert (bits_after bits = 0%Z) as ->.
      { unfold bits_after in *. case_decide; lia. }
      apply Z.mod_1_r.
  - destruct (bool_decide_reflect (i = len - 1)) as [->|]; [|done].
    destruct (Z.eqb_spec (total `mod` 2 ^ bits_after bits) 0) as [|Hne]; [|by contradict Hlast].
    by rewrite andb_false_r.
Qed.

(** ** Groups of four characters *)

(** The bytes of a group of values. *)
Definition byte0 (v0 v1 : Z) : Z := v0 * 4 + v1 / 16.
Definition byte1 (v1 v2 : Z) : Z := (v1 `mod` 16) * 16 + v2 / 4.
Definition byte2 (v2 v3 : Z) : Z := (v2 `mod` 4) * 64 + v3.

(** One character whose predecessors left [r] unwritten. *)
Lemma loop_char len i acc bits out c v s r :
  val c = Some v → bits = 0%Z ∨ bits = 2%Z ∨ bits = 4%Z ∨ bits = 6%Z → (acc `mod` 2 ^ bits = r)%Z →
  ∃ acc', (acc' `mod` 2 ^ bits_after bits = (r * 64 + v) `mod` 2 ^ bits_after bits)%Z ∧
    decode_loop len i acc bits out (c :: s) =
      if decide (i = len - 1 ∧ ((r * 64 + v) `mod` 2 ^ bits_after bits)%Z ≠ 0%Z)
      then inr NonCanonicalTrailingBits
      else decode_loop len (S i) acc' (bits_after bits) (out_after out bits r v) s.
Proof. intros Hc Hb <-. by apply loop_cons. Qed.

Lemma loop_first len i acc out c v s :
  val c = Some v →
  ∃ acc', (acc' `mod` 2 ^ 6 = v)%Z ∧
    decode_loop len i acc 0 out (c :: s) =
      if decide (i = len - 1 ∧ v ≠ 0%Z) then inr NonCanonicalTrailingBits
      else decode_loop len (S i) acc' 6 out s.
Proof.
  intros Hc. destruct (val_table c v Hc) as [Hv _].
  destruct (loop_char len i acc 0 out c v s 0 Hc) as (acc' & Hr & Heq); [by left|apply Z.mod_1_r|].
  change (0 * 64 + v)%Z with v in *. change (bits_after 0) with 6%Z in *.
  rewrite (Z.mod_small v (2 ^ 6)) in Hr, Heq by (cbn; lia). by exists acc'.
Qed.

Lemma group_split r v B K :
  (0 < B)%Z → (64 = K * B)%Z →
  ((r * 64 + v) `mod` B = v `mod` B)%Z ∧ ((r * 64 + v) / B = r * K + v / B)%Z.
Proof.
  intros HB ->. replace (r * (K * B) + v)%Z with (v + (r * K) * B)%Z by ring.
  rewrite Z.mod_add, Z.div_add by lia. split; [done|lia].
Qed.

Lemma loop_second len i acc out c v s r :
  val c = Some v → (acc `mod` 2 ^ 6 = r)%Z →
  ∃ acc', (acc' `mod` 2 ^ 4 = v `mod` 16)%Z ∧
    decode_loop len i acc 6 out (c :: s) =
      if decide (i = len - 1 ∧ (v `mod` 16)%Z ≠ 0%Z) then inr NonCanonicalTrailingBits
      else decode_loop len (S i) acc' 4 (out ++ [byte0 r v]) s.
Proof.
  intros Hc Hr0. destruct (loop_char len i acc 6 out c v s r Hc) as (acc' & Hr & Heq);
    [by right; right; right|done|]. change (bits_after 6) with 4%Z in *. change (2 ^ 4)%Z with 16%Z in *.
  destruct (group_split r v 16 4 ltac:(done) ltac:(done)) as [Hm Hd]. rewrite Hm in Hr, Heq.
  exists acc'. split; [done|]. rewrite Heq.
  assert (out_after out 6 r v = out ++ [byte0 r v]) as ->; [|done].
  unfold out_after, byte0. rewrite decide_False by done. change (2 ^ bits_after 6)%Z with 16%Z.
  by rewrite Hd.
Qed.

Lemma loop_third len i acc out c v s r :
  val c = Some v → (acc `mod` 2 ^ 4 = r)%Z →
  ∃ acc', (acc' `mod` 2 ^ 2 = v `mod` 4)%Z ∧
    decode_loop len i acc 4 out (c :: s) =
      if decide (i = len - 1 ∧ (v `mod` 4)%Z ≠ 0%Z) then inr NonCanonicalTrailingBits
      else decode_loop len (S i) acc' 2 (out ++ [r * 16 + v / 4])%Z s.
Proof.
  intros Hc Hr0. destruct (loop_char len i acc 4 out c v s r Hc) as (acc' & Hr & Heq);
    [by right; right; left|done|]. change (bits_after 4) with 2%Z in *. change (2 ^ 2)%Z with 4%Z in *.
  destruct (group_split r v 4 16 ltac:(done) ltac:(done)) as [Hm Hd]. rewrite Hm in Hr, Heq.
  exists acc'. split; [done|]. rewrite Heq.
  assert (out_after out 4 r v = out ++ [(r * 16 + v / 4)%Z]) as ->; [|done].
  unfold out_after. rewrite decide_False by done. change (2 ^ bits_after 4)%Z with 4%Z.
  by rewrite Hd.
Qed.

Lemma loop_fourth len i acc out c v s r :
  val c = Some v → (acc `mod` 2 ^ 2 = r)%Z →
  ∃ acc', decode_loop len i acc 2 out (c :: s) =
    decode_loop len (S i) acc' 0 (out ++ [r * 64 + v])%Z s.
Proof.
  intros Hc Hr0. destruct (loop_char len i acc 2 out c v s r Hc) as (acc' & _ & Heq);
    [by right; left|done|]. change (bits_after 2) with 0%Z in *. change (2 ^ 0)%Z with 1%Z in *.
  rewrite Z.mod_1_r in Heq.
  exists acc'. rewrite Heq, decide_False by by intros [_ ?]. unfold out_after.
  rewrite decide_False by done. change (2 ^ bits_after 2)%Z with 1%Z. by rewrite Z.div_1_r.
Qed.

Lemma loop_quad len i acc out c0 c1 c2 c3 v0 v1 v2 v3 s :
  val c0 = Some v0 → val c1 = Some v1 → val c2 = Some v2 → val c3 = Some v3 →
  len = i + S (S (S (S (length s)))) →
  ∃ acc', decode_loop len i acc 0 out (c0 :: c1 :: c2 :: c3 :: s) =
    decode_loop len (i + 4) acc' 0 (out ++ [byte0 v0 v1; byte1 v1 v2; byte2 v2 v3]) s.
Proof.
  intros H0 H1 H2 H3 Hlen.
  destruct (loop_first len i acc out c0 v0 (c1 :: c2 :: c3 :: s) H0) as (a1 & R1 & ->).
  rewrite decide_False by lia.
  destruct (loop_second len (S i) a1 out c1 v1 (c2 :: c3 :: s) _ H1 R1) as (a2 & R2 & ->).
  rewrite decide_False by lia.
  destruct (loop_third len (S (S i)) a2 (out ++ [byte0 v0 v1]) c2 v2 (c3 :: s) _ H2 R2) as (a3 & R3 & ->).
  rewrite decide_False by lia.
  destruct (loop_fourth len (S (S (S i))) a3 ((out ++ [byte0 v0 v1]) ++ [byte1 v1 v2]) c3 v3 s _ H3 R3)
    as (a4 & Heq).
  exists a4. unfold byte1 in *. rewrite Heq, <- !app_assoc. by rewrite (Nat.add_comm i 4).
Qed.

(** The last one, two or three characters. *)
Lemma loop_tail1 len i acc out c0 v0 :
  val c0 = Some v0 → len = i + 1 →
  decode_loop len i acc 0 out [c0] =
    if decide (v0 = 0%Z) then inl out else inr NonCanonicalTrailingBits.
Proof.
  intros H0 ->. destruct (loop_first (i + 1) i acc out c0 v0 [] H0) as (a1 & _ & ->).
  case_decide; case_decide; try done; naive_solver lia.
Qed.

Lemma loop_tail2 len i acc out c0 c1 v0 v1 :
  val c0 = Some v0 → val c1 = Some v1 → len = i + 2 →
  decode_loop len i acc 0 out [c0; c1] =
    if decide (v1 `mod` 16 = 0)%Z then inl (out ++ [byte0 v0 v1]) else inr NonCanonicalTrailingBits.
Proof.
  intros H0 H1 ->. destruct (loop_first (i + 2) i acc out c0 v0 [c1] H0) as (a1 & R1 & ->).
  rewrite decide_False by lia.
  destruct (loop_second (i + 2) (S i) a1 out c1 v1 [] _ H1 R1) as (a2 & _ & ->).
  case_decide; case_decide; try done; naive_solver lia.
Qed.

Lemma loop_tail3 len i acc out c0 c1 c2 v0 v1 v2 :
  val c0 = Some v0 → val c1 = Some v1 → val c2 = Some v2 → len = i + 3 →
  decode_loop len i acc 0 out [c0; c1; c2] =
    if decide (v2 `mod` 4 = 0)%Z then inl (out ++ [byte0 v0 v1; byte1 v1 v2])
    else inr NonCanonicalTrailingBits.
Proof.
  intros H0 H1 H2 ->. destruct (loop_first (i + 3) i acc out c0 v0 [c1; c2] H0) as (a1 & R1 & ->).
  rewrite decide_False by lia.
  destruct (loop_second (i + 3) (S i) a1 out c1 v1 [c2] _ H1 R1) as (a2 & R2 & ->).
  rewrite decide_False by lia.
  destruct (loop_third (i + 3) (S (S i)) a2 (out ++ [byte0 v0 v1]) c2 v2 [] _ H2 R2) as (a3 & _ & ->).
  rewrite <- app_assoc. unfold byte1. case_decide; case_decide; try done; naive_solver lia.
Qed.

(** ** The encoder, group by group *)

Definition quad_of (b0 b1 b2 : Z) : list Z :=
  table_at <$> [b0 / 4; (b0 `mod` 4) * 16 + b1 / 16; (b1 `mod` 16) * 4 + b2 / 64; b2 `mod` 64]%Z.

Lemma sextets b0 b1 b2 :
  is_u8 b0 → is_u8 b1 → is_u8 b2 →
  let n := Z.lor (Z.lor (Z.shiftl b0 16) (Z.shiftl b1 8)) b2 in
  (Z.land (Z.shiftr n 18) 63 = b0 / 4 ∧
   Z.land (Z.shiftr n 12) 63 = (b0 `mod` 4) * 16 + b1 / 16 ∧
   Z.land (Z.shiftr n 6) 63 = (b1 `mod` 16) * 4 + b2 / 64 ∧
   Z.land n 63 = b2 `mod` 64)%Z.
Proof.
  intros H0 H1 H2 n. unfold is_u8 in *.
  assert (Hn : n = (b0 * 65536 + b1 * 256 + b2)%Z).
  { unfold n. rewrite (lor_shiftl_add b0) by (rewrite ?Z.shiftl_mul_pow2; lia).
    rewrite Z.shiftl_mul_pow2 by done.
    replace (b0 * 2 ^ 16 + b1 * 2 ^ 8)%Z with (Z.shiftl (b0 * 256 + b1) 8)
      by (rewrite Z.shiftl_mul_pow2 by done; lia).
    rewrite lor_shiftl_add by lia. lia. }
  clearbody n. subst n. change 63%Z with (Z.ones 6). rewrite !Z.land_ones, !Z.shiftr_div_pow2 by done.
  cbn [Z.pow Z.pow_pos Pos.iter Z.mul Pos.mul]. split_and!; Z.to_euclidean_division_equations; lia.
Qed.

Lemma encode_quad b0 b1 b2 bs :
  is_u8 b0 → is_u8 b1 → is_u8 b2 → encode (b0 :: b1 :: b2 :: bs) = quad_of b0 b1 b2 ++ encode bs.
Proof.
  intros H0 H1 H2. destruct (sextets b0 b1 b2 H0 H1 H2) as (S0 & S1 & S2 & S3).
  unfold encode. cbn [chunks3 fmap list_fmap concat]. f_equal. unfold encode_chunk, quad_of.
  cbn [lookup list_lookup default from_option].
  unfold id. cbv zeta in *. by rewrite S0, S1, S2, S3.
Qed.

Lemma encode_one b0 : is_u8 b0 → encode [b0] = take 2 (quad_of b0 0 0).
Proof.
  intros H0. destruct (sextets b0 0 0 H0) as (S0 & S1 & _); [by unfold is_u8; lia..|].
  unfold encode. cbn [chunks3 fmap list_fmap concat]. unfold encode_chunk, quad_of.
  cbn [lookup list_lookup default from_option length]. unfold id. cbv zeta in *.
  rewrite !bool_decide_eq_false_2 by lia. by rewrite S0, S1.
Qed.

Lemma encode_two b0 b1 : is_u8 b0 → is_u8 b1 → encode [b0; b1] = take 3 (quad_of b0 b1 0).
Proof.
  intros H0 H1. destruct (sextets b0 b1 0 H0 H1) as (S0 & S1 & S2 & _); [by unfold is_u8; lia|].
  unfold encode. cbn [chunks3 fmap list_fmap concat]. unfold encode_chunk, quad_of.
  cbn [lookup list_lookup default from_option length]. unfold id. cbv zeta in *.
  rewrite (bool_decide_eq_false_2 (2 < 2)) by lia. rewrite bool_decide_eq_true_2 by lia.
  by rewrite S0, S1, S2.
Qed.

(** A group of values and the group of its bytes. *)
Lemma quad_roundtrip b0 b1 b2 :
  is_u8 b0 → is_u8 b1 → is_u8 b2 →
  let v0 := (b0 / 4)%Z in let v1 := ((b0 `mod` 4) * 16 + b1 / 16)%Z in
  let v2 := ((b1 `mod` 16) * 4 + b2 / 64)%Z in let v3 := (b2 `mod` 64)%Z in
  val (table_at v0) = Some v0 ∧ val (table_at v1) = Some v1 ∧ val (table_at v2) = Some v2 ∧
  val (table_at v3) = Some v3 ∧
  byte0 v0 v1 = b0 ∧ byte1 v1 v2 = b1 ∧ byte2 v2 v3 = b2.
Proof.
  intros H0 H1 H2 v0 v1 v2 v3. unfold is_u8, byte0, byte1, byte2 in *.
  split_and!; try apply table_val; subst v0 v1 v2 v3; Z.to_euclidean_division_equations; lia.
Qed.

Lemma values_roundtrip v0 v1 v2 v3 :
  (0 ≤ v0 < 64)%Z → (0 ≤ v1 < 64)%Z → (0 ≤ v2 < 64)%Z → (0 ≤ v3 < 64)%Z →
  is_u8 (byte0 v0 v1) ∧ is_u8 (byte1 v1 v2) ∧ is_u8 (byte2 v2 v3) ∧
  quad_of (byte0 v0 v1) (byte1 v1 v2) (byte2 v2 v3) = table_at <$> [v0; v1; v2; v3].
Proof.
  intros H0 H1 H2 H3. unfold is_u8, byte0, byte1, byte2, quad_of.
  split_and!; [Z.to_euclidean_division_equations; lia..|]. cbn [fmap list_fmap].
  repeat f_equal; Z.to_euclidean_division_equations; lia.
Qed.

(** ** The decoder inverts the encoder, and nothing else is accepted *)

Lemma triple_ind {A} (P : list A → Prop) :
  P [] → (∀ a, P [a]) → (∀ a b, P [a; b]) → (∀ a b c l, P l → P (a :: b :: c :: l)) → ∀ l, P l.
Proof.
  intros H0 H1 H2 H3 l.
  enough (P l ∧ (∀ a, P (a :: l)) ∧ (∀ a b, P (a :: b :: l))) by naive_solver.
  induction l as [|c l (IH0 & IH1 & IH2)]; split_and!; auto.
Qed.

Lemma length_encode bs :
  length (encode bs) `mod` 4 =
    match length bs `mod` 3 with
    | 0 => 0
    | 1 => 2
    | _ => 3
    end.
Proof.
  induction bs as [|b0|b0 b1|b0 b1 b2 bs IH] using triple_ind; [done..|].
  change (length (encode (b0 :: b1 :: b2 :: bs))) with (4 + length (encode bs)).
  change (length (b0 :: b1 :: b2 :: bs)) with (3 + length bs).
  rewrite (Nat.add_comm 4), (Nat.add_comm 3).
  rewrite <- (Nat.mul_1_l 4) at 1. rewrite Nat.Div0.mod_add, IH.
  rewrite <- (Nat.mul_1_l 3) at 2. by rewrite Nat.Div0.mod_add.
Qed.

(** [decode_loop] on an encoding, with an optional ["A"] after it. *)
Lemma loop_encode len bs rest i acc out :
  Forall is_u8 bs → rest = [] ∨ rest = [65%Z] ∧ length bs `mod` 3 = 0 →
  len = i + length (encode bs ++ rest) →
  decode_loop len i acc 0 out (encode bs ++ rest) = inl (out ++ bs).
Proof.
  intros Hbs Hrest. revert i acc out Hbs Hrest.
  induction bs as [|b0|b0 b1|b0 b1 b2 bs IH] using triple_ind; intros i acc out Hbs Hrest Hlen.
  - simpl. rewrite app_nil_r. destruct Hrest as [->|[-> _]]; [done|].
    by rewrite (loop_tail1 _ _ _ _ 65 0).
  - destruct Hrest as [->|[_ ?]]; [|done]. rewrite !app_nil_r in *.
    apply Forall_cons in Hbs as [Hb0 _]. rewrite encode_one in * by done.
    destruct (quad_roundtrip b0 0 0) as (V0 & V1 & _ & _ & B0 & _); [by unfold is_u8 in *; lia..|].
    unfold quad_of in *. cbn [fmap list_fmap take] in *.
    rewrite (loop_tail2 _ _ _ _ _ _ _ _ V0 V1 Hlen). rewrite decide_True, B0; [done|].
    unfold is_u8 in *. Z.to_euclidean_division_equations; lia.
  - destruct Hrest as [->|[_ ?]]; [|done]. rewrite !app_nil_r in *.
    apply Forall_cons in Hbs as [Hb0 [Hb1 _]%Forall_cons]. rewrite encode_two in * by done.
    destruct (quad_roundtrip b0 b1 0) as (V0 & V1 & V2 & _ & B0 & B1 & _);
      [by unfold is_u8 in *; lia..|].
    unfold quad_of in *. cbn [fmap list_fmap take] in *.
    rewrite (loop_tail3 _ _ _ _ _ _ _ _ _ _ V0 V1 V2 Hlen). rewrite decide_True, B0, B1; [done|].
    unfold is_u8 in *. Z.to_euclidean_division_equations; lia.
  - apply Forall_cons in Hbs as [Hb0 [Hb1 [Hb2 Hbs]%Forall_cons]%Forall_cons].
    rewrite encode_quad in * by done. rewrite <- app_assoc in *.
    destruct (quad_roundtrip b0 b1 b2 Hb0 Hb1 Hb2) as (V0 & V1 & V2 & V3 & B0 & B1 & B2).
    unfold quad_of in *. cbn [fmap list_fmap app] in *.
    destruct (loop_quad len i acc out _ _ _ _ _ _ _ _ (encode bs ++ rest) V0 V1 V2 V3) as (acc' & ->).
    { cbn [length] in Hlen. lia. }
    rewrite B0, B1, B2, IH; [by rewrite <- app_assoc|done| |cbn [length] in Hlen; lia].
    destruct Hrest as [|[-> Hm]]; [by left|right]. split; [done|].
    change (length (b0 :: b1 :: b2 :: bs)) with (3 + length bs) in Hm.
    rewrite (Nat.add_comm 3), <- (Nat.mul_1_l 3) in Hm at 1. by rewrite Nat.Div0.mod_add in Hm.
Qed.

Lemma loop_vals len i acc bits out s bs :
  decode_loop len i acc bits out s = inl bs → Forall (λ c, is_Some (val c)) s.
Proof.
  revert i acc bits out. induction s as [|c s IH]; intros i acc bits out; simpl; [done|].
  destruct (val c) eqn:Hc; [|done]. repeat case_match; intros; try done; constructor; eauto.
Qed.

Lemma quad_list_ind {A} (P : list A → Prop) :
  P [] → (∀ a, P [a]) → (∀ a b, P [a; b]) → (∀ a b c, P [a; b; c]) →
  (∀ a b c d l, P l → P (a :: b :: c :: d :: l)) → ∀ l, P l.
Proof.
  intros H0 H1 H2 H3 H4 l.
  enough (P l ∧ (∀ a, P (a :: l)) ∧ (∀ a b, P (a :: b :: l)) ∧ (∀ a b c, P (a :: b :: c :: l)))
    by naive_solver.
  induction l as [|c l (IH0 & IH1 & IH2 & IH3)]; split_and!; auto.
Qed.

(** What an accepted input encodes. *)
Definition encodes (s bs : list Z) : Prop :=
  s = encode bs ∨ length bs `mod` 3 = 0 ∧ s = encode bs ++ [65%Z].

Lemma encodes_quad v0 v1 v2 v3 s bs :
  (0 ≤ v0 < 64)%Z → (0 ≤ v1 < 64)%Z → (0 ≤ v2 < 64)%Z → (0 ≤ v3 < 64)%Z →
  encodes s bs →
  encodes (table_at v0 :: table_at v1 :: table_at v2 :: table_at v3 :: s)
    (byte0 v0 v1 :: byte1 v1 v2 :: byte2 v2 v3 :: bs).
Proof.
  intros H0 H1 H2 H3. destruct (values_roundtrip v0 v1 v2 v3 H0 H1 H2 H3) as (B0 & B1 & B2 & Hq).
  unfold encodes. rewrite encode_quad, Hq by done. cbn [fmap list_fmap app].
  intros [->|[Hm ->]]; [by left|right]. split; [|done].
  change (length (byte0 v0 v1 :: byte1 v1 v2 :: byte2 v2 v3 :: bs)) with (3 + length bs).
  rewrite (Nat.add_comm 3), <- (Nat.mul_1_l 3) at 1. by rewrite Nat.Div0.mod_add.
Qed.

Lemma loop_encodes len i acc out s res :
  len = i + length s → decode_loop len i acc 0 out s = inl res →
  ∃ bs, res = out ++ bs ∧ Forall is_u8 bs ∧ encodes s bs.
Proof.
  intros Hlen Hres. pose proof (loop_vals _ _ _ _ _ _ _ Hres) as Hvals. revert i acc out Hlen Hres.
  induction s as [|c0|c0 c1|c0 c1 c2|c0 c1 c2 c3 s IH] using quad_list_ind;
    intros i acc out Hlen Hres; repeat (apply Forall_cons in Hvals as [[? ?] Hvals]).
  - injection Hres as <-. exists []. rewrite app_nil_r. split_and!; [done|done|by left].
  - rewrite (loop_tail1 _ _ _ _ c0 x) in Hres by done. case_decide as Hz; [|done].
    injection Hres as <-. exists []. rewrite app_nil_r. split_and!; [done|done|right].
    subst. by destruct (val_table c0 0) as [_ ->].
  - rewrite (loop_tail2 _ _ _ _ c0 c1 x x0) in Hres by done. case_decide as Hz; [|done].
    injection Hres as <-. exists [byte0 x x0].
    destruct (val_table c0 x) as [Hx ->]; [done|]. destruct (val_table c1 x0) as [Hx0 ->]; [done|].
    destruct (values_roundtrip x x0 0 0) as (B0 & B1 & _ & Hq); [lia..|].
    assert (byte1 x0 0 = 0%Z) as Hb1 by (unfold byte1; rewrite Hz; done).
    rewrite Hb1 in Hq. change (byte2 0 0) with 0%Z in Hq. split_and!; [done|by constructor|left]. rewrite encode_one by done. by rewrite Hq.
  - rewrite (loop_tail3 _ _ _ _ c0 c1 c2 x x0 x1) in Hres by done. case_decide as Hz; [|done].
    injection Hres as <-. exists [byte0 x x0; byte1 x0 x1].
    destruct (val_table c0 x) as [Hx ->]; [done|]. destruct (val_table c1 x0) as [Hx0 ->]; [done|].
    destruct (val_table c2 x1) as [Hx1 ->]; [done|].
    destruct (values_roundtrip x x0 x1 0) as (B0 & B1 & B2 & Hq); [lia..|].
    assert (byte2 x1 0 = 0%Z) as Hb2 by (unfold byte2; rewrite Hz; done).
    rewrite Hb2 in Hq. split_and!; [done|constructor; [done|by apply Forall_singleton]|left].
    rewrite encode_two by done. by rewrite Hq.
  - destruct (loop_quad len i acc out c0 c1 c2 c3 x x0 x1 x2 s) as (acc' & Heq); [done..|].
    rewrite Heq in Hres. apply IH in Hres as (bs & -> & Hbs & Henc); [|done|simpl in Hlen; lia].
    destruct (val_table c0 x) as [Hx ->]; [done|]. destruct (val_table c1 x0) as [Hx0 ->]; [done|].
    destruct (val_table c2 x1) as [Hx1 ->]; [done|]. destruct (val_table c3 x2) as [Hx2 ->]; [done|].
    exists (byte0 x x0 :: byte1 x0 x1 :: byte2 x1 x2 :: bs). rewrite <- app_assoc.
    destruct (values_roundtrip x x0 x1 x2) as (B0 & B1 & B2 & _); [done..|].
    split_and!; [done|by do 3 (constructor; [done|])|by apply encodes_quad].
Qed.

(** ** The trimmed input *)

Lemma trim_end_last s c : c ≠ equals_sign → trim_end (s ++ [c]) = s ++ [c].
Proof.
  intros Hc. induction s as [|d s IH]; simpl.
  - by rewrite (proj2 (Z.eqb_neq _ _) Hc).
  - rewrite IH. by destruct s.
Qed.

Lemma trim_end_pad s n : trim_end (s ++ replicate n equals_sign) = trim_end s.
Proof.
  induction s as [|d s IH]; simpl; [|by rewrite IH].
  induction n as [|n IH]; simpl; [done|]. by rewrite IH.
Qed.

Lemma encode_alphabet bs : Forall is_u8 bs → Forall (λ c, is_Some (val c)) (encode bs).
Proof.
  intros Hbs. induction bs as [|b0|b0 b1|b0 b1 b2 bs IH] using triple_ind; [done|..];
    repeat (apply Forall_cons in Hbs as [? Hbs]).
  - rewrite encode_one by done. apply Forall_take.
    destruct (quad_roundtrip b0 0 0) as (V0 & V1 & V2 & V3 & _); [by unfold is_u8 in *; lia..|].
    unfold quad_of. cbn [fmap list_fmap]. by repeat constructor.
  - rewrite encode_two by done. apply Forall_take.
    destruct (quad_roundtrip b0 b1 0) as (V0 & V1 & V2 & V3 & _); [by unfold is_u8 in *; lia..|].
    unfold quad_of. cbn [fmap list_fmap]. by repeat constructor.
  - rewrite encode_quad by done. apply Forall_app. split; [|by apply IH].
    destruct (quad_roundtrip b0 b1 b2) as (V0 & V1 & V2 & V3 & _); [done..|].
    unfold quad_of. cbn [fmap list_fmap]. by repeat constructor.
Qed.

Lemma trim_end_alphabet s : Forall (λ c, is_Some (val c)) s → trim_end s = s.
Proof.
  intros Hs. destruct s as [|c s _] using rev_ind; [done|].
  apply Forall_app in Hs as [_ [[v Hv] _]%Forall_cons]. apply trim_end_last. by intros ->.
Qed.

Lemma decode_accepts s bs :
  decode s = inl bs ↔ length s `mod` 4 ≠ 1 ∧ Forall is_u8 bs ∧ encodes (trim_end s) bs.
Proof.
  unfold decode. case_bool_decide as Hlen; [naive_solver|]. split.
  - intros Hd. apply loop_encodes in Hd as (bs' & -> & ? & ?); [done|done].
  - intros (_ & Hbs & Henc).
    assert (∃ rest, trim_end s = encode bs ++ rest ∧
              (rest = [] ∨ rest = [65%Z] ∧ length bs `mod` 3 = 0)) as (rest & Ht & Hrest).
    { destruct Henc as [->|[? ->]]; [exists []|exists [65%Z]]; rewrite ?app_nil_r; auto. }
    rewrite Ht. by apply loop_encode.
Qed.

(** ** Properties *)

(** Round trip and canonicity: [decode] inverts [encode] on every byte
    string, and the only input without trailing [=] that it accepts for some
    bytes is their encoding; hence distinct unpadded inputs never decode to
    the same bytes. *)
Theorem base64url_canonical s bs :
  Forall is_u8 bs → trim_end s = s → (decode s = inl bs ↔ s = encode bs).
Proof.
  intros Hbs Htrim. rewrite decode_accepts, Htrim. pose proof (length_encode bs) as Hl. split.
  - intros (Hlen & _ & [->|[Hm ->]]); [done|]. exfalso. apply Hlen. rewrite Hm in Hl.
    rewrite length_app. change (length [65%Z]) with 1. by rewrite <- Nat.Div0.add_mod_idemp_l, Hl.
  - intros ->. split_and!; [|done|by left]. rewrite Hl. repeat case_match; lia.
Qed.

(** With padding the decoder is not injective on inputs of one length:
    whole groups followed by ["A==="] or by ["===="] decode to the same
    bytes, although a lone character carries no byte and its length is
    refused without the padding. *)
Theorem base64url_padded_alias bs :
  Forall is_u8 bs → length bs `mod` 3 = 0 →
  decode (encode bs ++ bytes_of "A===") = inl bs ∧
  decode (encode bs ++ bytes_of "====") = inl bs ∧
  decode (encode bs ++ bytes_of "A") = inr InvalidLength.
Proof.
  intros Hbs Hm. pose proof (length_encode bs) as Hl. rewrite Hm in Hl.
  pose proof (encode_alphabet bs Hbs) as Halpha.
  assert (H4 : (length (encode bs) + 4) `mod` 4 = 0).
  { by rewrite <- Nat.Div0.add_mod_idemp_l, Hl. }
  rewrite !decode_accepts. split_and!; try done.
  - rewrite length_app. change (length (bytes_of "A===")) with 4. by rewrite H4.
  - change (bytes_of "A===") with ([65%Z] ++ replicate 3 equals_sign).
    rewrite app_assoc, trim_end_pad, trim_end_last by done. by right.
  - rewrite length_app. change (length (bytes_of "====")) with 4. by rewrite H4.
  - change (bytes_of "====") with (replicate 4 equals_sign).
    rewrite trim_end_pad, trim_end_alphabet by done. by left.
  - unfold decode. rewrite bool_decide_eq_true_2; [done|]. rewrite length_app. change (length (bytes_of "A")) with 1.
    by rewrite <- Nat.Div0.add_mod_idemp_l, Hl.
Qed.

Lemma base64url_canonical_witness :
  decode (bytes_of "Zm9vYg") = inl (bytes_of "foob").
Proof.
  apply (base64url_canonical (bytes_of "Zm9vYg") (bytes_of "foob")).
  - change (bytes_of "foob") with [102; 111; 111; 98]%Z. unfold is_u8. by repeat constructor.
  - by vm_compute.
  - by vm_compute.
Defined.

Lemma base64url_padded_alias_witness :
  decode (bytes_of "Zm9vA===") = inl (bytes_of "foo") ∧
  decode (bytes_of "Zm9v====") = inl (bytes_of "foo").
Proof.
  destruct (base64url_padded_alias (bytes_of "foo")) as (Ha & Hb & _).
  - change (bytes_of "foo") with [102; 111; 111]%Z. unfold is_u8. by repeat constructor.
  - by vm_compute.
  - split; [exact Ha|exact Hb].
Defined.
End Base64Url.

(** ** Constant-time comparison *)

Definition byte_at (s : list Z) (i : nat) : Z := default 0%Z (s !! i).

Definition constant_time_eq (a b : list Z) : bool :=
  let diff := if bool_decide (length a ≠ length b) then 1%Z else 0%Z in
  let diff := foldl (λ diff i, Z.lor diff (Z.lxor (byte_at a i) (byte_at b i))) diff
                (seq 0 (length a `max` length b)) in
  (diff =? 0)%Z.

Lemma foldl_lor_zero (f : nat → Z) l d :
  foldl (λ diff i, Z.lor diff (f i)) d l = 0%Z ↔ d = 0%Z ∧ Forall (λ i, f i = 0%Z) l.
Proof.
  revert d. induction l as [|i l IH]; intros d; simpl; [by split; [|intros []]|].
  rewrite IH, Z.lor_eq_0_iff, Forall_cons. tauto.
Qed.

Lemma constant_time_eq_spec a b : constant_time_eq a b = true ↔ a = b.
Proof.
  unfold constant_time_eq. rewrite Z.eqb_eq, foldl_lor_zero, Forall_forall. split.
  - intros [Hlen Hall]. case_bool_decide as Hl; [done|]. apply list_eq_same_length with (length a);
      [lia|done|].
    intros i x y Hi Hx Hy. specialize (Hall i). rewrite Z.lxor_eq_0_iff in Hall.
    unfold byte_at in Hall. rewrite Hx, Hy in Hall. apply Hall, elem_of_seq. lia.
  - intros ->. rewrite bool_decide_eq_false_2 by by intros []. split; [done|].
    intros i _. apply Z.lxor_nilpotent.
Qed.

Module Code.

(** ** Invitation codes *)

Definition CODE_ALPHABET : list Z := bytes_of "0123456789ABCDEFGHJKMNPQRSTVWXYZ".

(** [generate_code] on the random bytes drawn. *)
Definition generate_code (draws : list Z) : list Z :=
  (λ b, default 0%Z (CODE_ALPHABET !! Z.to_nat (Z.land b 31))) <$> draws.

(** [char::is_whitespace]: Unicode's [White_Space]. *)
Definition is_whitespace (c : Z) : bool :=
  ((9 <=? c) && (c <=? 13) || (c =? 32) || (c =? 133) || (c =? 160) || (c =? 5760) ||
   (8192 <=? c) && (c <=? 8202) || (c =? 8232) || (c =? 8233) || (c =? 8239) || (c =? 8287) ||
   (c =? 12288))%Z.

Definition separator (c : Z) : bool := (is_whitespace c || (c =? 45) || (c =? 95))%Z.

Definition to_ascii_uppercase (c : Z) : Z :=
  if ((97 <=? c) && (c <=? 122))%Z then (c - 32)%Z else c.

Definition normal_char (c : Z) : Z :=
  if decide (c ∈ bytes_of "iIlL") then 49%Z
  else if decide (c ∈ bytes_of "oO") then 48%Z
  else if decide (c ∈ bytes_of "uU") then 86%Z
  else to_ascii_uppercase c.

Definition normalize_code (raw : list Z) : list Z :=
  normal_char <$> filter (λ c, separator c = false) raw.

(** A [char] is a code point; its UTF-8 form. *)
Definition is_char (c : Z) : Prop := (0 ≤ c < 1114112)%Z.
Definition utf8 (c : Z) : list Z :=
  if (c <? 128)%Z then [c]
  else if (c <? 2048)%Z then [192 + c / 64; 128 + c `mod` 64]%Z
  else if (c <? 65536)%Z then [224 + c / 4096; 128 + (c / 64) `mod` 64; 128 + c `mod` 64]%Z
  else [240 + c / 262144; 128 + (c / 4096) `mod` 64; 128 + (c / 64) `mod` 64; 128 + c `mod` 64]%Z.
Definition as_bytes (s : list Z) : list Z := concat (utf8 <$> s).

Definition verify_code (raw expected : list Z) : bool :=
  let candidate := normalize_code raw in
  let expected := normalize_code expected in
  constant_time_eq (as_bytes candidate) (as_bytes expected).

Lemma utf8_inj c d x y :
  is_char c → is_char d → utf8 c ++ x = utf8 d ++ y → c = d ∧ x = y.
Proof.
  unfold is_char, utf8. intros Hc Hd.
  repeat case_match; cbn [app]; intros Heq; simplify_list_eq; split; try done; try lia;
    Z.to_euclidean_division_equations; lia.
Qed.

Lemma utf8_nonempty c : utf8 c ≠ [].
Proof. unfold utf8. by repeat case_match. Qed.

Lemma as_bytes_inj a b : Forall is_char a → Forall is_char b → as_bytes a = as_bytes b → a = b.
Proof.
  unfold as_bytes. intros Ha. revert b.
  induction Ha as [|c a Hc Ha IH]; intros [|d b] Hb Heq; cbn [fmap list_fmap concat] in Heq.
  - done.
  - by destruct (utf8 d) eqn:Hd; [apply utf8_nonempty in Hd|].
  - by destruct (utf8 c) eqn:Hd; [apply utf8_nonempty in Hd|].
  - apply Forall_cons in Hb as [Hd Hb]. apply utf8_inj in Heq as [-> Heq]; [|done..].
    f_equal. by apply IH.
Qed.


Lemma normal_char_range c : is_char c → is_char (normal_char c).
Proof.
  unfold is_char, normal_char, to_ascii_uppercase. repeat case_match; lia.
Qed.

Lemma normalize_chars raw : Forall is_char raw → Forall is_char (normalize_code raw).
Proof.
  intros Hraw. unfold normalize_code. apply Forall_fmap. rewrite Forall_forall in *.
  intros c [_ Hc]%list_elem_of_filter. by apply normal_char_range, Hraw.
Qed.

Lemma verify_code_spec raw expected :
  Forall is_char raw → Forall is_char expected →
  verify_code raw expected = true ↔ normalize_code raw = normalize_code expected.
Proof.
  intros Hr He. unfold verify_code. rewrite constant_time_eq_spec. split; [|by intros ->].
  by apply as_bytes_inj; apply normalize_chars.
Qed.

(** *** What may be typed for a code *)

(** The spellings of one character of the alphabet: itself, its lower case,
    and its look-alikes. *)
Definition spellings (d : Z) : list Z :=
  [d] ++ (if ((65 <=? d) && (d <=? 90))%Z then [d + 32]%Z else []) ++
  (if decide (d = 49%Z) then bytes_of "iIlL" else []) ++
  (if decide (d = 48%Z) then bytes_of "oO" else []) ++
  (if decide (d = 86%Z) then bytes_of "uU" else []).

(** [raw] is a spelling of [code] with separators anywhere. *)
Inductive typed : list Z → list Z → Prop :=
  | typed_nil : typed [] []
  | typed_separator c raw code : separator c = true → typed raw code → typed (c :: raw) code
  | typed_char c d raw code : c ∈ spellings d → typed raw code → typed (c :: raw) (d :: code).

Lemma spellings_spec c d :
  d ∈ CODE_ALPHABET → (c ∈ spellings d ↔ separator c = false ∧ normal_char c = d).
Proof.
  intros Hd. destruct (decide (0 ≤ c < 128)%Z) as [Hc|Hc].
  - assert (Hall : forallb (λ d, forallb (λ c,
        eqb (bool_decide (c ∈ spellings d))
            (negb (separator c) && bool_decide (normal_char c = d))) (seqZ 0 128))
        CODE_ALPHABET = true) by by vm_compute.
    rewrite forallb_forall in Hall. specialize (Hall d (proj1 (list_elem_of_In _ _) Hd)).
    rewrite forallb_forall in Hall. specialize (Hall c).
    rewrite eqb_true_iff in Hall. rewrite <- (bool_decide_eq_true (c ∈ spellings d)), Hall.
    + by rewrite andb_true_iff, negb_true_iff, bool_decide_eq_true.
    + apply list_elem_of_In, elem_of_seqZ. lia.
  - assert (Hlow : ∀ l, forallb (λ k, (0 <=? k) && (k <? 128))%Z l = true → c ∉ l).
    { intros l Hl Hin. rewrite forallb_forall in Hl.
      specialize (Hl c (proj1 (list_elem_of_In _ _) Hin)). lia. }
    assert (Hrange : forallb (λ d, (0 <=? d) && (d <? 128) &&
              forallb (λ k, (0 <=? k) && (k <? 128)) (spellings d))%Z CODE_ALPHABET = true)
      by by vm_compute.
    rewrite forallb_forall in Hrange. specialize (Hrange d (proj1 (list_elem_of_In _ _) Hd)).
    apply andb_true_iff in Hrange as [Hdr Hsp]. split.
    + intros Hin. by destruct (Hlow _ Hsp).
    + intros [_ Hn]. exfalso. revert Hn. unfold normal_char, to_ascii_uppercase.
      rewrite !decide_False by (by apply Hlow; vm_compute). case_match; lia.
Qed.

Lemma typed_normalize raw code :
  Forall (λ d, d ∈ CODE_ALPHABET) code → (typed raw code ↔ normalize_code raw = code).
Proof.
  intros Hcode. unfold normalize_code. split.
  - induction 1 as [|c raw code Hc Ht IH|c d raw code Hc Ht IH]; [done|..].
    + rewrite filter_cons_False by congruence. by apply IH.
    + apply Forall_cons in Hcode as [Hd Hcode]. apply spellings_spec in Hc as [Hs Hn]; [|done].
      rewrite filter_cons_True by done. cbn [fmap list_fmap]. by rewrite Hn, IH.
  - revert code Hcode. induction raw as [|c raw IH]; intros code Hcode.
    { intros <-. constructor. }
    destruct (separator c) eqn:Hs.
    + rewrite filter_cons_False by congruence. intros Heq. constructor; [done|by apply IH].
    + rewrite filter_cons_True by done. cbn [fmap list_fmap]. intros <-.
      apply Forall_cons in Hcode as [Hd Hcode]. constructor; [|by apply IH].
      by apply spellings_spec.
Qed.

Lemma generate_code_alphabet draws : Forall (λ d, d ∈ CODE_ALPHABET) (generate_code draws).
Proof.
  unfold generate_code. apply Forall_fmap, Forall_forall. intros b _. simpl.
  assert (Hb : (0 ≤ Z.land b 31 < 32)%Z).
  { change 31%Z with (Z.ones 5). rewrite Z.land_ones by done. by apply Z.mod_pos_bound. }
  destruct (lookup_lt_is_Some_2 CODE_ALPHABET (Z.to_nat (Z.land b 31))) as [d Hd].
  { change (length CODE_ALPHABET) with 32. lia. }
  rewrite Hd. by eapply list_elem_of_lookup_2.
Qed.

Lemma alphabet_chars code : Forall (λ d, d ∈ CODE_ALPHABET) code → Forall is_char code.
Proof.
  intros Hcode. eapply Forall_impl; [exact Hcode|]. intros d Hd.
  assert (Hall : forallb (λ d, (0 <=? d) && (d <? 128))%Z CODE_ALPHABET = true) by by vm_compute.
  rewrite forallb_forall in Hall. specialize (Hall d (proj1 (list_elem_of_In _ _) Hd)).
  unfold is_char. lia.
Qed.

(** A generated code is verified exactly against its spellings: the code
    in any letter case, with [i], [l] for [1], [o] for [0], [u] for [V], and
    white space, hyphens or underscores anywhere; nothing else passes. *)
Theorem generated_code_spellings draws raw :
  Forall is_char raw →
  (verify_code raw (generate_code draws) = true ↔ typed raw (generate_code draws)).
Proof.
  intros Hraw. pose proof (generate_code_alphabet draws) as Hcode.
  rewrite verify_code_spec by (try done; by apply alphabet_chars).
  assert (normalize_code (generate_code draws) = generate_code draws) as ->.
  { apply typed_normalize; [done|].
    induction Hcode as [|d code Hd Hcode IH]; [constructor|]. constructor; [|done].
    apply list_elem_of_here. }
  by rewrite typed_normalize.
Qed.

Lemma generated_code_spellings_witness :
  typed (bytes_of "o i-v") (generate_code [0; 33; 27]%Z).
Proof.
  apply (generated_code_spellings [0; 33; 27]%Z (bytes_of "o i-v")).
  - unfold is_char. repeat constructor; by vm_compute.
  - by vm_compute.
Defined.
End Code.

(** ** Hexadecimal: src/src/auth/credential/service.rs, src/src/invitation/token.rs *)

Definition hex_digit (d : Z) : Ascii.ascii := Ascii.ascii_of_N (Z.to_N (if d <? 10 then 48 + d else 87 + d)%Z).
Definition hex_of (bytes : list Z) : string :=
  String.string_of_list_ascii (concat ((λ b, [hex_digit (b / 16); hex_digit (b `mod` 16)]%Z) <$> bytes)).

(** [generate_token] of an invitation; the 32 bytes are the draw. *)
Definition generate_invitation_token (bytes : list Z) : string := hex_of bytes.

Lemma hex_digit_inj d d' : (0 ≤ d < 16)%Z → (0 ≤ d' < 16)%Z → hex_digit d = hex_digit d' → d = d'.
Proof.
  intros Hd Hd' He. apply (f_equal Ascii.N_of_ascii) in He. unfold hex_digit in He.
  rewrite !Ascii.N_ascii_embedding in He by (repeat case_match; lia).
  destruct (Z.ltb_spec d 10), (Z.ltb_spec d' 10); lia.
Qed.

Lemma hex_of_inj bs bs' : Forall is_u8 bs → Forall is_u8 bs' → hex_of bs = hex_of bs' → bs = bs'.
Proof.
  intros Hbs. revert bs'. unfold hex_of. induction Hbs as [|b bs Hb _ IH]; intros l; destruct 1 as [|b' bs' Hb' Hbs']; try done.
  cbn [fmap list_fmap concat app String.string_of_list_ascii]. intros [= H1 H2 Hrest].
  apply IH in Hrest; [|done]. unfold is_u8 in *. apply hex_digit_inj in H1; [|by split; [apply Z.div_pos|apply Z.div_lt_upper_bound]; lia..].
  apply hex_digit_inj in H2; [|by apply Z.mod_pos_bound..]. f_equal; [|done].
  rewrite (Z.div_mod b 16), (Z.div_mod b' 16) by lia. congruence.
Qed.

Lemma hex_of_length bs : String.length (hex_of bs) = 2 * length bs.
Proof. unfold hex_of. induction bs as [|b bs IH]; [done|]. cbn in *. lia. Qed.

(** An invitation token has 64 hexadecimal digits, and different draws of
    32 bytes give different tokens: all 256 bits of the draw are in it. *)
Theorem invitation_token_spec bs bs' :
  length bs = 32 → Forall is_u8 bs → Forall is_u8 bs' →
  String.length (generate_invitation_token bs) = 64 ∧
  Forall (λ c, let n := Ascii.N_of_ascii c in (48 ≤ n ≤ 57 ∨ 97 ≤ n ≤ 102)%N) (String.list_ascii_of_string (generate_invitation_token bs)) ∧
  (generate_invitation_token bs = generate_invitation_token bs' ↔ bs = bs').
Proof.
  intros Hlen Hbs Hbs'. split_and!.
  - unfold generate_invitation_token. rewrite hex_of_length. lia.
  - clear Hlen. unfold generate_invitation_token, hex_of. rewrite String.list_ascii_of_string_of_list_ascii.
    assert (Hd : ∀ d, (0 ≤ d < 16)%Z → let n := Ascii.N_of_ascii (hex_digit d) in (48 ≤ n ≤ 57 ∨ 97 ≤ n ≤ 102)%N).
    { intros d Hd. cbn zeta. unfold hex_digit. destruct (Z.ltb_spec d 10); rewrite Ascii.N_ascii_embedding by lia; lia. }
    induction Hbs as [|b bs Hb Hbs IH]; [constructor|]. unfold is_u8 in Hb. rewrite fmap_cons. cbn [concat app].
    pose proof (Z.mod_pos_bound b 16). constructor; [|constructor; [|done]]; apply Hd; [|lia].
    split; [apply Z.div_pos; lia|apply Z.div_lt_upper_bound; lia].
  - split; [by apply hex_of_inj|by intros ->].
Qed.

Lemma invitation_token_spec_witness : String.length (generate_invitation_token (repeat 171%Z 32)) = 64.
Proof.
  assert (H8 : Forall is_u8 (repeat 171%Z 32)) by (apply Forall_forall; intros x Hx%list_elem_of_In%List.repeat_spec; subst; split; lia).
  apply (invitation_token_spec (repeat 171%Z 32) (repeat 171%Z 32) eq_refl H8 H8).
Defined.
