(* ===== verification/AuthData.v ===== *)
(** * Authenticator data: src/src/auth/passport/webauthn/auth_data.rs

    - [cbor_item_len], the walk that finds the end of a CBOR item, against a
      grammar of items;
    - [AuthenticatorData::parse], against the serialisation of its fields.

    A byte is an integer below 256.  A slice is the list of its bytes; a
    borrowed field is a copy of its bytes. *)

From stdpp Require Import pretty.
From S2P Require Import Prelude Codec.

Definition FLAG_UP : Z := 0x01.
Definition FLAG_UV : Z := 0x04.
Definition FLAG_BE : Z := 0x08.
Definition FLAG_BS : Z := 0x10.
Definition FLAG_AT : Z := 0x40.
Definition FLAG_ED : Z := 0x80.

Definition HEADER_LEN : nat := 37.
Definition AAGUID_LEN : nat := 16.
Definition MAX_CREDENTIAL_ID_LEN : nat := 2048.
Definition MAX_CBOR_DEPTH : nat := 32.

(** [s.get(..k)] and [s.get(k..)] *)
Definition get_to (k : nat) (s : list Z) : option (list Z) := if k <=? length s then Some (take k s) else None.
Definition get_from (k : nat) (s : list Z) : option (list Z) := if k <=? length s then Some (drop k s) else None.

(** ** The CBOR walk *)

(** The size and the value of the argument that follows the initial byte. *)
Definition cbor_arg (info : Z) (rest : list Z) : option (nat * Z) :=
  if (info <=? 23)%Z then Some (0, info)
  else if (info =? 24)%Z then b ← head rest; Some (1, b)
  else if (info =? 25)%Z then bs ← get_to 2 rest; Some (2, be_value bs)
  else if (info =? 26)%Z then bs ← get_to 4 rest; Some (4, be_value bs)
  else if (info =? 27)%Z then bs ← get_to 8 rest; Some (8, be_value bs)
  else None.

(** [for _ in 0..value], with the bytes consumed so far as its state. *)
Fixpoint cbor_loop (step : nat → option nat) (fuel : nat) (value : Z) (consumed : nat) : option nat :=
  if (value <=? 0)%Z then Some consumed
  else match fuel with
       | 0 => None
       | S fuel => consumed ← step consumed; cbor_loop step fuel (value - 1) consumed
       end.

(** The body of the loop over an array, and over the pairs of a map. *)
Definition one_item (measure : list Z → option nat) (input : list Z) (consumed : nat) : option nat :=
  rest ← get_from consumed input; n ← measure rest; Some (consumed + n).
Definition two_items (measure : list Z → option nat) (input : list Z) (consumed : nat) : option nat :=
  consumed ← one_item measure input consumed; one_item measure input consumed.

(** [levels] is what remains of the depth: [MAX_CBOR_DEPTH + 1 - depth].  The
    loops end by themselves within [length input] rounds, since every item
    has a byte. *)
Fixpoint cbor_item_len_depth (levels : nat) (input : list Z) : option nat :=
  match levels with
  | 0 => None
  | S levels =>
      match input with
      | [] => None
      | first :: rest =>
          let major := Z.shiftr first 5 in
          let info := Z.land first 31 in
          '(hdr_extra, value) ← cbor_arg info rest;
          let payload_start := 1 + hdr_extra in
          if (Z.of_nat (length input) <? value)%Z && ((major =? 2) || (major =? 3))%Z then None
          else
            total ←
              (if (major =? 0)%Z || (major =? 1)%Z || (major =? 7)%Z then Some payload_start
               else if (major =? 2)%Z || (major =? 3)%Z then Some (payload_start + Z.to_nat value)
               else if (major =? 4)%Z then
                 cbor_loop (one_item (cbor_item_len_depth levels) input) (S (length input)) value payload_start
               else if (major =? 6)%Z then
                 rest ← get_from hdr_extra rest; n ← cbor_item_len_depth levels rest; Some (payload_start + n)
               else if (major =? 5)%Z then
                 cbor_loop (two_items (cbor_item_len_depth levels) input) (S (length input)) value payload_start
               else None);
            if length input <? total then None else Some total
      end
  end.
Definition cbor_item_len (input : list Z) : option nat := cbor_item_len_depth (S MAX_CBOR_DEPTH) input.

(** ** [AuthenticatorData::parse] *)

Record AttestedCredentialData := {
  aaguid : list Z;
  credential_id : list Z;
  credential_public_key_cbor : list Z;
}.

Record AuthenticatorData := {
  raw : list Z;
  rp_id_hash : list Z;
  flags : Z;
  sign_count : Z;
  attested : option AttestedCredentialData;
}.

Definition has_flag (flags flag : Z) : bool := negb (Z.land flags flag =? 0)%Z.
Definition user_present (d : AuthenticatorData) : bool := has_flag (flags d) FLAG_UP.
Definition user_verified (d : AuthenticatorData) : bool := has_flag (flags d) FLAG_UV.
Definition backup_eligible (d : AuthenticatorData) : bool := has_flag (flags d) FLAG_BE.
Definition backup_state (d : AuthenticatorData) : bool := has_flag (flags d) FLAG_BS.
Definition attested_credential_data (d : AuthenticatorData) : option AttestedCredentialData := attested d.

(** [ok_or_else] *)
Definition or_err {A} (o : option A) (message : string) : result A :=
  match o with
  | Some a => Ok a
  | None => Err (Anyhow message)
  end.

(** The attested credential data at [cursor], and the cursor behind it. *)
Definition parse_attested (raw : list Z) (cursor : nat) : result (AttestedCredentialData * nat) :=
  if length raw <? cursor + AAGUID_LEN + 2 then Err (Anyhow "attested credential data truncated at AAGUID")
  else
    let aaguid := take AAGUID_LEN (drop cursor raw) in
    let cursor := cursor + AAGUID_LEN in
    let cred_len := Z.to_nat (be_value [byte_at raw cursor; byte_at raw (cursor + 1)]) in
    if cred_len =? 0 then Err (Anyhow "credential id must not be empty")
    else if MAX_CREDENTIAL_ID_LEN <? cred_len then
      Err (Anyhow ("credential id length " +:+ pretty cred_len +:+ " exceeds limit"))
    else
      let cursor := cursor + 2 in
      credential_id ← or_err (rest ← get_from cursor raw; get_to cred_len rest) "attested credential id truncated";
      let cursor := cursor + cred_len in
      n ← or_err (cbor_item_len (drop cursor raw)) "credential public key CBOR truncated";
      key_slice ← or_err (rest ← get_from cursor raw; get_to n rest) "credential public key CBOR overruns buffer";
      Ok ({| aaguid := aaguid; credential_id := credential_id; credential_public_key_cbor := key_slice |}, cursor + n).

Definition auth_data_parse (raw : list Z) : result AuthenticatorData :=
  if length raw <? HEADER_LEN then
    Err (Anyhow ("authenticatorData too short: " +:+ pretty (length raw) +:+ " < " +:+ pretty HEADER_LEN))
  else
    let flags := byte_at raw 32 in
    let sign_count := be_value [byte_at raw 33; byte_at raw 34; byte_at raw 35; byte_at raw 36] in
    '(attested, cursor) ←
      (if has_flag flags FLAG_AT then '(a, cursor) ← parse_attested raw HEADER_LEN; Ok (Some a, cursor)
       else Ok (None, HEADER_LEN));
    cursor ←
      (if has_flag flags FLAG_ED then
         n ← or_err (cbor_item_len (drop cursor raw)) "extension data CBOR truncated"; Ok (cursor + n)
       else Ok cursor);
    if negb (cursor =? length raw) then
      Err (Anyhow ("trailing bytes after authenticatorData: " +:+ pretty (length raw - cursor) +:+ " extra"))
    else
      Ok {| raw := raw; rp_id_hash := take 32 raw; flags := flags; sign_count := sign_count; attested := attested |}.

(** ** The grammar of items *)

(** The bytes [a] after an initial byte with low bits [info] give [v]. *)
Definition argument (info : Z) (a : list Z) (v : Z) : Prop :=
  (info ≤ 23)%Z ∧ a = [] ∧ v = info ∨
  ∃ k, k ≤ 3 ∧ info = (24 + Z.of_nat k)%Z ∧ length a = 2 ^ k ∧ v = be_value a.

(** An initial byte and its argument. *)
Definition header (major v : Z) (h : list Z) : Prop :=
  ∃ b a, h = b :: a ∧ Z.shiftr b 5 = major ∧ argument (Z.land b 31) a v.

(** Items of at most [d] levels: integers and simple values, byte and text
    strings, arrays, maps and tags, of definite length. *)
Inductive cbor_item : nat → list Z → Prop :=
  | item_simple d h major v : header major v h → (major = 0 ∨ major = 1 ∨ major = 7)%Z → cbor_item (S d) h
  | item_string d h major v s :
      header major v h → (major = 2 ∨ major = 3)%Z → Z.of_nat (length s) = v → cbor_item (S d) (h ++ s)
  | item_array d h v items :
      header 4 v h → Z.of_nat (length items) = v → Forall (cbor_item d) items → cbor_item (S d) (h ++ concat items)
  | item_map d h v items :
      header 5 v h → Z.of_nat (length items) = (2 * v)%Z → Forall (cbor_item d) items →
      cbor_item (S d) (h ++ concat items)
  | item_tag d h v item : header 6 v h → cbor_item d item → cbor_item (S d) (h ++ item).

(** ** The walk against the grammar *)

Lemma get_to_Some k s r : get_to k s = Some r ↔ k ≤ length s ∧ r = take k s.
Proof. unfold get_to. destruct (Nat.leb_spec k (length s)); naive_solver lia. Qed.
Lemma get_from_Some k s r : get_from k s = Some r ↔ k ≤ length s ∧ r = drop k s.
Proof. unfold get_from. destruct (Nat.leb_spec k (length s)); naive_solver lia. Qed.

Lemma cbor_arg_sound info rest k v : cbor_arg info rest = Some (k, v) →
  k ≤ length rest ∧ argument info (take k rest) v.
Proof.
  unfold cbor_arg, argument. destruct (Z.leb_spec info 23); [intros [= <- <-]; split; [lia|by left]|].
  destruct (Z.eqb_spec info 24) as [->|].
  { destruct rest as [|b rest]; [done|]. cbn. intros [= <- <-]. split; [lia|]. right. exists 0.
    change (take 1 (b :: rest)) with [b]. unfold be_value. cbn [foldl]. split_and!; (done || lia). }
  destruct (Z.eqb_spec info 25) as [->|].
  { rewrite bind_Some. intros (bs & [Hl ->]%get_to_Some & [= <- <-]). split; [done|]. right. exists 1.
    rewrite length_take, Nat.min_l by done. split_and!; (done || lia). }
  destruct (Z.eqb_spec info 26) as [->|].
  { rewrite bind_Some. intros (bs & [Hl ->]%get_to_Some & [= <- <-]). split; [done|]. right. exists 2.
    rewrite length_take, Nat.min_l by done. split_and!; (done || lia). }
  destruct (Z.eqb_spec info 27) as [->|]; [|done].
  rewrite bind_Some. intros (bs & [Hl ->]%get_to_Some & [= <- <-]). split; [done|]. right. exists 3.
  rewrite length_take, Nat.min_l by done. split_and!; (done || lia).
Qed.

Lemma cbor_arg_complete info a rest v : argument info a v → cbor_arg info (a ++ rest) = Some (length a, v).
Proof.
  unfold cbor_arg. intros [(Hi & -> & ->)|(k & Hk & -> & Hl & ->)].
  { by rewrite (proj2 (Z.leb_le _ _) Hi). }
  assert (Hg : get_to (length a) (a ++ rest) = Some a).
  { apply get_to_Some. rewrite length_app, take_app_length. split; [lia|done]. }
  assert (k = 0 ∨ k = 1 ∨ k = 2 ∨ k = 3) as [->|[->|[->| ->]]] by lia; cbn [Nat.pow Nat.mul Nat.add] in Hl; rewrite Hl in Hg |- *;
    cbn -[get_to be_value app]; rewrite ?Hg; [|done..].
  destruct a as [|b [|]]; try done.
Qed.

Lemma cbor_loop_step step fuel value c : (0 < value)%Z →
  cbor_loop step (S fuel) value c = (c ← step c; cbor_loop step fuel (value - 1) c).
Proof. intros Hv. cbn [cbor_loop]. by rewrite (proj2 (Z.leb_gt _ _) Hv). Qed.
Lemma cbor_loop_done step fuel value c : (value ≤ 0)%Z → cbor_loop step fuel value c = Some c.
Proof. intros Hv. destruct fuel; cbn [cbor_loop]; by rewrite (proj2 (Z.leb_le _ _) Hv). Qed.

(** A loop over pairs is a loop over twice as many items. *)
Lemma cbor_loop_pairs measure input fuel value c :
  cbor_loop (two_items measure input) fuel value c = cbor_loop (one_item measure input) (2 * fuel) (2 * value) c.
Proof.
  revert value c. induction fuel as [|fuel IH]; intros value c.
  { cbn. destruct (Z.leb_spec value 0); destruct (Z.leb_spec (2 * value) 0); (done || lia). }
  destruct (Z.leb_spec value 0); [by rewrite !cbor_loop_done by lia|].
  replace (2 * S fuel) with (S (S (2 * fuel))) by lia. rewrite !cbor_loop_step by lia.
  change (two_items measure input c) with (c' ← one_item measure input c; one_item measure input c').
  destruct (one_item measure input c) as [c1|]; [|done]. cbn [mbind option_bind]. rewrite cbor_loop_step by lia.
  destruct (one_item measure input c1) as [c2|]; [|done]. cbn [mbind option_bind]. rewrite IH. f_equal. lia.
Qed.

(** What a loop over items has consumed, when [measure] finds items. *)
Lemma cbor_loop_sound measure (item : list Z → Prop) input fuel value c n :
  (∀ s k, Forall is_u8 s → measure s = Some k → ∃ i r, s = i ++ r ∧ length i = k ∧ item i) →
  Forall is_u8 input → c ≤ length input →
  cbor_loop (one_item measure input) fuel value c = Some n →
  ∃ items r, drop c input = concat items ++ r ∧ n = c + length (concat items) ∧
    Forall item items ∧ Z.of_nat (length items) = Z.max 0 value.
Proof.
  intros Hm Hu8. revert value c. induction fuel as [|fuel IH]; intros value c Hc.
  { cbn. destruct (Z.leb_spec value 0); [|done]. intros [= <-]. exists [], (drop c input). cbn. split_and!; (done || lia || by constructor). }
  destruct (Z.leb_spec value 0) as [Hv|Hv].
  { rewrite cbor_loop_done by done. intros [= <-]. exists [], (drop c input). cbn. split_and!; (done || lia || by constructor). }
  rewrite cbor_loop_step by done. rewrite bind_Some. intros (c' & Hs & Hloop).
  apply bind_Some in Hs as (s & [_ ->]%get_from_Some & Hs). apply bind_Some in Hs as (k & Hk & [= <-]).
  apply Hm in Hk as (i & r & Hd & <- & Hi); [|by apply Forall_drop].
  assert (Hlen : c + length i ≤ length input).
  { apply (f_equal length) in Hd. rewrite length_drop, length_app in Hd. lia. }
  destruct (IH _ _ Hlen Hloop) as (items & r' & Hd' & -> & Hall & Hcount).
  exists (i :: items), r'. cbn [concat length]. rewrite length_app. split_and!; [|lia|by constructor|lia].
  rewrite <- drop_drop, Hd, drop_app_length in Hd'. by rewrite Hd, Hd', app_assoc.
Qed.

Lemma cbor_loop_complete measure input fuel items r c :
  drop c input = concat items ++ r → c ≤ length input → length items ≤ fuel →
  Forall (λ i, ∀ s, measure (i ++ s) = Some (length i)) items →
  cbor_loop (one_item measure input) fuel (Z.of_nat (length items)) c = Some (c + length (concat items)).
Proof.
  intros Hd Hc Hf Hall. revert fuel c Hd Hc Hf. induction Hall as [|i items Hi Hall IH]; intros fuel c Hd Hc Hf.
  { rewrite cbor_loop_done by (cbn; lia). cbn. f_equal. lia. }
  destruct fuel as [|fuel]; [cbn in Hf; lia|]. rewrite cbor_loop_step by (cbn; lia). cbn [concat] in *. rewrite <- app_assoc in Hd.
  change (one_item measure input c) with (rest ← get_from c input; n ← measure rest; Some (c + n)).
  rewrite (proj2 (get_from_Some c input (i ++ concat items ++ r))) by done. cbn [mbind option_bind].
  rewrite Hi. cbn [mbind option_bind].
  assert (Hlen : c + length i ≤ length input).
  { apply (f_equal length) in Hd. rewrite length_drop, !length_app in Hd. lia. }
  replace (Z.of_nat (length (i :: items)) - 1)%Z with (Z.of_nat (length items)) by (cbn [length]; lia).
  rewrite (IH fuel (c + length i)); [rewrite length_app; f_equal; lia| |done|cbn in Hf; lia].
  by rewrite <- drop_drop, Hd, drop_app_length.
Qed.

Lemma header_length major v h : header major v h → 1 ≤ length h.
Proof. intros (b & a & -> & _). cbn. lia. Qed.
Lemma item_nonempty d i : cbor_item d i → 1 ≤ length i.
Proof. destruct 1; rewrite ?length_app; match goal with H : header _ _ _ |- _ => apply header_length in H; lia end. Qed.
Lemma concat_nonempty d items : Forall (cbor_item d) items → length items ≤ length (concat items).
Proof. induction 1 as [|i items Hi _ IH]; [done|]. cbn. rewrite length_app. apply item_nonempty in Hi. lia. Qed.

Lemma argument_range info a v : (0 ≤ info)%Z → Forall is_u8 a → argument info a v → (0 ≤ v)%Z.
Proof. intros Hi Ha [(_ & _ & ->)|(k & _ & _ & _ & ->)]; [done|]. by apply be_value_range. Qed.

Lemma cbor_sound d input n : Forall is_u8 input → cbor_item_len_depth d input = Some n →
  ∃ item r, input = item ++ r ∧ length item = n ∧ cbor_item d item.
Proof.
  revert input n. induction d as [|d IH]; intros input n Hu8; [done|]. cbn [cbor_item_len_depth].
  destruct input as [|b rest]; [done|]. rewrite bind_Some. intros ([k v] & Harg & Hrest).
  apply cbor_arg_sound in Harg as [Hk Harg]. set (h := b :: take k rest).
  assert (Hv : (0 ≤ v)%Z).
  { eapply argument_range; [|by apply Forall_take, (Forall_cons_1 _ _ _ Hu8)|exact Harg]. apply Z.land_nonneg. lia. }
  assert (Hh : header (Z.shiftr b 5) v h) by (exists b, (take k rest); done). clear Harg.
  assert (Hinput : b :: rest = h ++ drop k rest) by (unfold h; cbn; by rewrite take_drop).
  assert (Hlh : length h = 1 + k) by (unfold h; cbn; rewrite length_take; lia). clearbody h.
  destruct ((_ <? v)%Z && _) eqn:Hover; [done|]. apply bind_Some in Hrest as (total & Htot & Hlen).
  destruct (Nat.ltb_spec (length (b :: rest)) total) as [|Hle]; [done|]. injection Hlen as <-.
  generalize dependent (Z.shiftr b 5). intros major Hover Htot Hh.
  destruct ((major =? 0)%Z || (major =? 1)%Z || (major =? 7)%Z) eqn:H017.
  { injection Htot as <-. exists h, (drop k rest). split_and!; [done|done|]. eapply item_simple; [exact Hh|lia]. }
  destruct ((major =? 2)%Z || (major =? 3)%Z) eqn:H23.
  { injection Htot as <-. cbn [length] in Hle. exists (h ++ take (Z.to_nat v) (drop k rest)), (drop (Z.to_nat v) (drop k rest)).
    rewrite <- app_assoc, take_drop, length_app, length_take, length_drop. split_and!; [done|lia|].
    eapply item_string; [exact Hh|lia|]. rewrite length_take, length_drop. lia. }
  assert (Hloop : ∀ fuel value, cbor_loop (one_item (cbor_item_len_depth d) (b :: rest)) fuel value (1 + k) = Some total →
    ∃ items r, drop k rest = concat items ++ r ∧ total = 1 + k + length (concat items) ∧
      Forall (cbor_item d) items ∧ Z.of_nat (length items) = Z.max 0 value).
  { intros fuel value. apply (cbor_loop_sound _ _ (b :: rest)); [done|done|cbn; lia]. }
  destruct (Z.eqb_spec major 4) as [->|].
  { apply Hloop in Htot as (items & r & Hd & -> & Hall & Hc). exists (h ++ concat items), r.
    rewrite length_app, <- app_assoc, <- Hd. split_and!; [done|lia|]. eapply item_array; [exact Hh|lia|done]. }
  destruct (Z.eqb_spec major 6) as [->|].
  { apply bind_Some in Htot as (s & [_ ->]%get_from_Some & Htot). apply bind_Some in Htot as (m & Hn & [= <-]).
    apply IH in Hn as (item & r & Hd & <- & Hi); [|by apply Forall_drop, (Forall_cons_1 _ _ _ Hu8)].
    exists (h ++ item), r. rewrite length_app, <- app_assoc, <- Hd. split_and!; [done|lia|]. by eapply item_tag. }
  destruct (Z.eqb_spec major 5) as [->|]; [|done].
  rewrite cbor_loop_pairs in Htot. apply Hloop in Htot as (items & r & Hd & -> & Hall & Hc). exists (h ++ concat items), r.
  rewrite length_app, <- app_assoc, <- Hd. split_and!; [done|lia|]. eapply item_map; [exact Hh|lia|done].
Qed.

Lemma cbor_complete d item r : cbor_item d item → cbor_item_len_depth d (item ++ r) = Some (length item).
Proof.
  revert item r. induction d as [|d IH]; intros item r Hitem; [inversion Hitem|].
  assert (Hloop : ∀ h items fuel r, length items ≤ fuel → Forall (cbor_item d) items →
    cbor_loop (one_item (cbor_item_len_depth d) (h ++ concat items ++ r)) fuel (Z.of_nat (length items)) (length h) =
      Some (length h + length (concat items))).
  { intros h items fuel r' Hf Hall. apply (cbor_loop_complete _ _ _ _ r'); [by rewrite drop_app_length|rewrite length_app; lia|done|].
    eapply Forall_impl; [exact Hall|]. intros i Hi s. by apply IH. }
  assert (Hhead : ∀ major v h s, header major v h → ∃ b a, h = b :: a ∧ Z.shiftr b 5 = major ∧
    cbor_arg (Z.land b 31) (a ++ s) = Some (length a, v)).
  { intros major v h s (b & a & -> & Hm & Harg). exists b, a. split_and!; [done|done|]. by apply cbor_arg_complete. }
  assert (Hfits : ∀ m n, (m + n <? m) = false) by (intros; apply Nat.ltb_ge; lia).
  inversion Hitem as [? h major v Hh Hm|? h major v s Hh Hm Hl|? h v items Hh Hl Hall|? h v items Hh Hl Hall|? h v i Hh Hi]; subst.
  - destruct (Hhead _ _ _ r Hh) as (b & a & -> & <- & Harg). cbn [cbor_item_len_depth app]. rewrite Harg. cbn [mbind option_bind].
    replace ((Z.shiftr b 5 =? 2)%Z || (Z.shiftr b 5 =? 3)%Z) with false by (symmetry; destruct Hm as [->|[->| ->]]; done).
    rewrite andb_false_r.
    replace ((Z.shiftr b 5 =? 0)%Z || (Z.shiftr b 5 =? 1)%Z || (Z.shiftr b 5 =? 7)%Z) with true by (symmetry; destruct Hm as [->|[->| ->]]; done).
    cbn [mbind option_bind length]. rewrite length_app. by rewrite (proj2 (Nat.ltb_ge _ _)) by lia.
  - destruct (Hhead _ _ _ (s ++ r) Hh) as (b & a & -> & <- & Harg). rewrite <- app_assoc. cbn [cbor_item_len_depth app]. rewrite Harg.
    cbn [mbind option_bind]. rewrite (proj2 (Z.ltb_ge _ _)) by (cbn [length]; rewrite !length_app; lia). cbn [andb].
    replace ((Z.shiftr b 5 =? 0)%Z || (Z.shiftr b 5 =? 1)%Z || (Z.shiftr b 5 =? 7)%Z) with false by (symmetry; destruct Hm as [->| ->]; done).
    replace ((Z.shiftr b 5 =? 2)%Z || (Z.shiftr b 5 =? 3)%Z) with true by (symmetry; destruct Hm as [->| ->]; done).
    cbn [mbind option_bind length]. rewrite !length_app, Nat2Z.id, (proj2 (Nat.ltb_ge _ _)) by lia. f_equal.
  - pose proof (concat_nonempty _ _ Hall). destruct (Hhead _ _ _ (concat items ++ r) Hh) as (b & a & -> & Hb & Harg).
    specialize (Hloop (b :: a) items (S (length ((b :: a) ++ concat items ++ r))) r ltac:(rewrite !length_app; lia) Hall).
    rewrite <- app_assoc. cbn [cbor_item_len_depth app] in *. rewrite Harg, Hb. cbn [mbind option_bind]. rewrite andb_false_r.
    cbn [orb Z.eqb Pos.eqb]. change (1 + length a) with (length (b :: a)). rewrite Hloop. cbn [mbind option_bind length].
    rewrite !length_app, (proj2 (Nat.ltb_ge _ _)) by lia. done.
  - pose proof (concat_nonempty _ _ Hall). destruct (Hhead _ _ _ (concat items ++ r) Hh) as (b & a & -> & Hb & Harg).
    specialize (Hloop (b :: a) items (2 * S (length ((b :: a) ++ concat items ++ r))) r ltac:(rewrite !length_app; lia) Hall).
    rewrite <- app_assoc. cbn [cbor_item_len_depth app] in *. rewrite Harg, Hb. cbn [mbind option_bind]. rewrite andb_false_r.
    cbn [orb Z.eqb Pos.eqb]. change (1 + length a) with (length (b :: a)). rewrite cbor_loop_pairs, <- Hl, Hloop. cbn [mbind option_bind length].
    rewrite !length_app, (proj2 (Nat.ltb_ge _ _)) by lia. done.
  - destruct (Hhead _ _ _ (i ++ r) Hh) as (b & a & -> & Hb & Harg). rewrite <- app_assoc. cbn [cbor_item_len_depth app]. rewrite Harg, Hb.
    cbn [mbind option_bind]. rewrite andb_false_r. cbn [orb Z.eqb Pos.eqb].
    rewrite (proj2 (get_from_Some _ _ (i ++ r))) by (by rewrite length_app, drop_app_length; split; [lia|]).
    cbn [mbind option_bind]. rewrite IH by done. cbn [mbind option_bind length]. rewrite !length_app, (proj2 (Nat.ltb_ge _ _)) by lia. done.
Qed.

(** C30: The CBOR walk.  On bytes, [cbor_item_len] answers the length of the
    first item exactly when the input begins with a well-formed item of
    definite lengths and at most 33 levels, and nothing otherwise: it never
    runs past the item, whatever lengths its headers claim. *)
Theorem cbor_item_len_spec input n : Forall is_u8 input →
  cbor_item_len input = Some n ↔ ∃ item rest, input = item ++ rest ∧ length item = n ∧ cbor_item 33 item.
Proof.
  intros Hu8. split; [by apply cbor_sound|]. intros (item & rest & -> & <- & Hitem). by apply cbor_complete.
Qed.

(** ** The layout of authenticator data *)

Definition be16 (v : Z) : list Z := [v / 256; v `mod` 256]%Z.
Definition be32 (v : Z) : list Z := [v / 2 ^ 24; (v / 2 ^ 16) `mod` 256; (v / 2 ^ 8) `mod` 256; v `mod` 256]%Z.

Definition attested_bytes (a : AttestedCredentialData) : list Z :=
  aaguid a ++ be16 (Z.of_nat (length (credential_id a))) ++ credential_id a ++ credential_public_key_cbor a.
Definition attested_ok (a : AttestedCredentialData) : Prop :=
  length (aaguid a) = 16 ∧ 1 ≤ length (credential_id a) ≤ 2048 ∧ cbor_item 33 (credential_public_key_cbor a).

Definition auth_data_bytes (d : AuthenticatorData) (extensions : list Z) : list Z :=
  rp_id_hash d ++ flags d :: be32 (sign_count d) ++ default [] (attested_bytes <$> attested d) ++ extensions.
Definition auth_data_ok (d : AuthenticatorData) (extensions : list Z) : Prop :=
  length (rp_id_hash d) = 32 ∧ (0 ≤ sign_count d < 2 ^ 32)%Z ∧
  match attested d with
  | Some a => has_flag (flags d) FLAG_AT = true ∧ attested_ok a
  | None => has_flag (flags d) FLAG_AT = false
  end ∧
  if has_flag (flags d) FLAG_ED then cbor_item 33 extensions else extensions = [].

Lemma be16_value x y : is_u8 x → is_u8 y → be16 (be_value [x; y]) = [x; y] ∧ (0 ≤ be_value [x; y] < 2 ^ 16)%Z.
Proof.
  unfold is_u8, be16, be_value. cbn [foldl]. intros Hx Hy. replace (0 * 256 + x)%Z with x by lia.
  rewrite Z.div_add_l, Z.div_small, Z.add_0_r by lia. rewrite Z.add_comm, Z_mod_plus_full, Z.mod_small by lia. split; [done|lia].
Qed.
Lemma be_value_be16 v : (0 ≤ v)%Z → be_value (be16 v) = v.
Proof. intros. unfold be16, be_value. cbn [foldl]. pose proof (Z.div_mod v 256). lia. Qed.

Lemma be32_value a b c d : is_u8 a → is_u8 b → is_u8 c → is_u8 d →
  be32 (be_value [a; b; c; d]) = [a; b; c; d] ∧ (0 ≤ be_value [a; b; c; d] < 2 ^ 32)%Z.
Proof.
  unfold is_u8, be32, be_value. cbn [foldl]. intros Ha Hb Hc Hd.
  replace ((((0 * 256 + a) * 256 + b) * 256 + c) * 256 + d)%Z with (a * 2 ^ 24 + b * 2 ^ 16 + c * 2 ^ 8 + d)%Z by lia.
  split; [|lia]. f_equal; [|f_equal; [|f_equal; [|f_equal]]].
  - symmetry. apply (Z.div_unique_pos _ _ _ (b * 2 ^ 16 + c * 2 ^ 8 + d)); lia.
  - rewrite <- (Z.mod_unique_pos ((a * 2 ^ 24 + b * 2 ^ 16 + c * 2 ^ 8 + d) / 2 ^ 16) 256 a b); [done|lia|].
    symmetry. apply (Z.div_unique_pos _ _ _ (c * 2 ^ 8 + d)); lia.
  - rewrite <- (Z.mod_unique_pos ((a * 2 ^ 24 + b * 2 ^ 16 + c * 2 ^ 8 + d) / 2 ^ 8) 256 (a * 256 + b) c); [done|lia|].
    symmetry. apply (Z.div_unique_pos _ _ _ d); lia.
  - symmetry. apply (Z.mod_unique_pos _ _ (a * 2 ^ 16 + b * 2 ^ 8 + c)); lia.
Qed.
Lemma be_value_be32 v : (0 ≤ v < 2 ^ 32)%Z → be_value (be32 v) = v.
Proof.
  intros. unfold be32, be_value. cbn [foldl].
  pose proof (Z.div_mod v 256). pose proof (Z.div_mod (v / 2 ^ 8) 256). pose proof (Z.div_mod (v / 2 ^ 16) 256).
  assert (v / 2 ^ 16 = v / 2 ^ 8 / 256)%Z by (rewrite Z.div_div by lia; done).
  assert (v / 2 ^ 24 = v / 2 ^ 16 / 256)%Z by (rewrite Z.div_div by lia; done).
  change (2 ^ 8)%Z with 256%Z in *. lia.
Qed.

Lemma byte_at_app pre l i : byte_at (pre ++ l) (length pre + i) = byte_at l i.
Proof. unfold byte_at. rewrite lookup_app_r by lia. do 2 f_equal. lia. Qed.
Lemma drop_beyond {A} (pre l : list A) i : drop (length pre + i) (pre ++ l) = drop i l.
Proof. by rewrite <- drop_drop, drop_app_length. Qed.
Lemma get_from_app pre l : get_from (length pre) (pre ++ l) = Some l.
Proof. apply get_from_Some. rewrite length_app, drop_app_length. split; [lia|done]. Qed.
Lemma get_to_app pre l : get_to (length pre) (pre ++ l) = Some pre.
Proof. apply get_to_Some. rewrite length_app, take_app_length. split; [lia|done]. Qed.

Lemma or_err_Ok {A} (o : option A) m a : or_err o m = Ok a ↔ o = Some a.
Proof. destruct o; naive_solver. Qed.

Lemma parse_attested_eq pre aa x y tail : length aa = 16 →
  parse_attested (pre ++ aa ++ x :: y :: tail) (length pre) =
    let k := Z.to_nat (be_value [x; y]) in
    if k =? 0 then Err (Anyhow "credential id must not be empty")
    else if 2048 <? k then Err (Anyhow ("credential id length " +:+ pretty k +:+ " exceeds limit"))
    else
      id ← or_err (get_to k tail) "attested credential id truncated";
      n ← or_err (cbor_item_len (drop k tail)) "credential public key CBOR truncated";
      key ← or_err (get_to n (drop k tail)) "credential public key CBOR overruns buffer";
      Ok ({| aaguid := aa; credential_id := id; credential_public_key_cbor := key |}, length pre + 18 + k + n).
Proof.
  intros Haa. unfold parse_attested, AAGUID_LEN, MAX_CREDENTIAL_ID_LEN. set (raw := pre ++ aa ++ x :: y :: tail).
  assert (Hlen : length raw = length pre + 16 + 2 + length tail) by (unfold raw; rewrite !length_app; cbn [length]; lia).
  rewrite (proj2 (Nat.ltb_ge _ _)) by lia.
  assert (E0 : byte_at raw (length pre + 16) = x) by (unfold raw; by rewrite byte_at_app, <- Haa, <- (Nat.add_0_r (length aa)), byte_at_app).
  assert (E1 : byte_at raw (length pre + 16 + 1) = y).
  { unfold raw. rewrite <- Nat.add_assoc, byte_at_app, <- Haa, byte_at_app. done. }
  assert (E2 : ∀ k, drop (length pre + 16 + 2 + k) raw = drop k tail).
  { intros k. unfold raw. rewrite <- !Nat.add_assoc, drop_beyond, <- Haa, drop_beyond. done. }
  assert (E3 : get_from (length pre + 16 + 2) raw = Some tail).
  { apply get_from_Some. split; [lia|]. specialize (E2 0). by rewrite Nat.add_0_r, drop_0 in E2. }
  rewrite E0, E1, E3. unfold raw at 1. rewrite drop_app_length, <- Haa, take_app_length, Haa. cbv zeta. cbn [mbind option_bind].
  destruct (_ =? 0); [done|]. destruct (2048 <? _); [done|]. set (k := Z.to_nat (be_value [x; y])).
  destruct (get_to k tail) as [id|] eqn:Hid; [|done]. apply get_to_Some in Hid as [Hk ->]. cbn [or_err mbind result_bind].
  rewrite E2. destruct (cbor_item_len (drop k tail)) as [n|]; [|done]. cbn [or_err mbind result_bind].
  rewrite (proj2 (get_from_Some _ raw (drop k tail))) by (split; [lia|done]). cbn [mbind option_bind].
  destruct (get_to n (drop k tail)); [|done]. cbn. do 2 f_equal. lia.
Qed.

(** The attested section, behind any prefix. *)
Lemma parse_attested_spec pre rest a c : Forall is_u8 rest →
  parse_attested (pre ++ rest) (length pre) = Ok (a, c) ↔
  ∃ ext, rest = attested_bytes a ++ ext ∧ attested_ok a ∧ c = length pre + length (attested_bytes a).
Proof.
  intros Hu8. split.
  - intros Hp. assert (16 + 2 ≤ length rest) as Hlen.
    { revert Hp. unfold parse_attested, AAGUID_LEN. rewrite length_app. destruct (Nat.ltb_spec (length pre + length rest) (length pre + 16 + 2)); [done|lia]. }
    assert (∃ aa x y tail, rest = aa ++ x :: y :: tail ∧ length aa = 16) as (aa & x & y & tail & -> & Haa).
    { exists (take 16 rest). destruct (drop 16 rest) as [|x [|y tail]] eqn:Hd;
        [apply (f_equal length) in Hd; rewrite length_drop in Hd; cbn in Hd; lia..|].
      exists x, y, tail. rewrite <- Hd, take_drop, length_take. split; [done|lia]. }
    apply Forall_app in Hu8 as [_ Hu8]. apply Forall_cons in Hu8 as [Hx Hu8]. apply Forall_cons in Hu8 as [Hy Hu8].
    rewrite parse_attested_eq in Hp by done. cbv zeta in Hp. destruct (be16_value x y Hx Hy) as [Hbe Hrange].
    set (k := Z.to_nat (be_value [x; y])) in *.
    destruct (Nat.eqb_spec k 0) as [|Hk0]; [done|]. destruct (Nat.ltb_spec 2048 k) as [|Hk]; [done|].
    apply bind_ok in Hp as (id & [Hkl ->]%or_err_Ok%get_to_Some & Hp). apply bind_ok in Hp as (n & Hn%or_err_Ok & Hp).
    apply cbor_sound in Hn as (key & ext & Hkey & <- & Hitem); [|by apply Forall_drop].
    apply bind_ok in Hp as (key' & Hkey'%or_err_Ok & [= <- <-]). rewrite Hkey, get_to_app in Hkey'. injection Hkey' as <-.
    exists ext. unfold attested_bytes, attested_ok. cbn [aaguid credential_id credential_public_key_cbor].
    rewrite !length_app, !length_take, !Nat.min_l by lia. replace (Z.of_nat k) with (be_value [x; y]) by (unfold k; lia).
    rewrite Hbe. cbn [length]. split_and!; [|done|lia|lia|done|lia]. cbn [app]. rewrite <- !app_assoc. cbn [app]. by rewrite <- ?app_assoc, <- Hkey, take_drop.
  - intros (ext & -> & (Haa & Hid & Hkey) & ->). unfold attested_bytes in *. destruct a as [aa id key].
    cbn [aaguid credential_id credential_public_key_cbor] in *. rewrite <- !app_assoc. cbn [be16 app].
    rewrite parse_attested_eq by done. cbv zeta. fold (be16 (Z.of_nat (length id))). rewrite be_value_be16, Nat2Z.id by lia.
    rewrite (proj2 (Nat.eqb_neq _ _)), (proj2 (Nat.ltb_ge _ _)) by lia. rewrite get_to_app. cbn [or_err mbind result_bind].
    rewrite drop_app_length. rewrite (cbor_complete 33 key ext Hkey : cbor_item_len (key ++ ext) = _).
    cbn [or_err mbind result_bind]. rewrite get_to_app. cbn [or_err mbind result_bind].
    rewrite !length_app. cbn [length]. rewrite length_app. do 2 f_equal. lia.
Qed.

Lemma auth_data_parse_eq rp f b0 b1 b2 b3 rest : length rp = 32 →
  let pre := rp ++ [f; b0; b1; b2; b3] in
  length pre = 37 ∧
  auth_data_parse (pre ++ rest) =
    ('(att, cursor) ←
      (if has_flag f FLAG_AT then '(a, cursor) ← parse_attested (pre ++ rest) (length pre); Ok (Some a, cursor)
       else Ok (None, length pre));
    cursor ←
      (if has_flag f FLAG_ED then
         n ← or_err (cbor_item_len (drop cursor (pre ++ rest))) "extension data CBOR truncated"; Ok (cursor + n)
       else Ok cursor);
    if negb (cursor =? length (pre ++ rest)) then
      Err (Anyhow ("trailing bytes after authenticatorData: " +:+ pretty (length (pre ++ rest) - cursor) +:+ " extra"))
    else
      Ok {| raw := pre ++ rest; rp_id_hash := rp; flags := f; sign_count := be_value [b0; b1; b2; b3]; attested := att |}).
Proof.
  intros Hrp pre. assert (Hpre : length pre = 37) by (unfold pre; rewrite length_app; cbn; lia). split; [done|].
  unfold auth_data_parse, HEADER_LEN. rewrite (proj2 (Nat.ltb_ge _ _)) by (rewrite length_app; lia).
  assert (Eb : ∀ i, byte_at (pre ++ rest) (32 + i) = byte_at ([f; b0; b1; b2; b3] ++ rest) i).
  { intros i. unfold pre. rewrite <- app_assoc, <- Hrp. apply byte_at_app. }
  rewrite (Eb 0 : byte_at _ 32 = f), (Eb 1 : byte_at _ 33 = b0), (Eb 2 : byte_at _ 34 = b1), (Eb 3 : byte_at _ 35 = b2),
    (Eb 4 : byte_at _ 36 = b3), <- Hpre.
  assert (Et : take 32 (pre ++ rest) = rp) by (unfold pre; by rewrite <- app_assoc, <- Hrp, take_app_length).
  by rewrite Et.
Qed.

Lemma auth_data_parse_sound raw' d : Forall is_u8 raw' → auth_data_parse raw' = Ok d →
  raw d = raw' ∧ ∃ extensions, raw' = auth_data_bytes d extensions ∧ auth_data_ok d extensions.
Proof.
  intros Hu8 Hparse. assert (37 ≤ length raw') as Hlen.
  { revert Hparse. unfold auth_data_parse, HEADER_LEN. destruct (Nat.ltb_spec (length raw') 37); [done|lia]. }
  revert Hparse. assert (∃ rp f b0 b1 b2 b3 rest, raw' = rp ++ f :: b0 :: b1 :: b2 :: b3 :: rest ∧ length rp = 32)
    as (rp & f & b0 & b1 & b2 & b3 & rest & -> & Hrp).
  { exists (take 32 raw'). destruct (drop 32 raw') as [|f [|b0 [|b1 [|b2 [|b3 rest]]]]] eqn:Hd;
      [apply (f_equal length) in Hd; rewrite length_drop in Hd; cbn in Hd; lia..|].
    exists f, b0, b1, b2, b3, rest. rewrite <- Hd, take_drop, length_take. split; [done|lia]. }
  pose proof Hu8 as Hall. rewrite Forall_app, !Forall_cons in Hall. destruct Hall as (_ & Hf & H0 & H1 & H2 & H3 & Hrest).
  destruct (be32_value b0 b1 b2 b3 H0 H1 H2 H3) as [Hbe Hrange].
  replace (rp ++ f :: b0 :: b1 :: b2 :: b3 :: rest) with ((rp ++ [f; b0; b1; b2; b3]) ++ rest) by (by rewrite <- app_assoc).
  destruct (auth_data_parse_eq rp f b0 b1 b2 b3 rest Hrp) as [Hpre ->]. set (pre := rp ++ [f; b0; b1; b2; b3]) in *.
  set (count := be_value [b0; b1; b2; b3]) in *.
  intros Hp. apply bind_ok in Hp as ([att cursor] & Hatt & Hp).
  assert (Hsec : ∃ ext, rest = default [] (attested_bytes <$> att) ++ ext ∧ cursor = length pre + length (default [] (attested_bytes <$> att)) ∧
    match att with Some a => has_flag f FLAG_AT = true ∧ attested_ok a | None => has_flag f FLAG_AT = false end).
  { destruct (has_flag f FLAG_AT).
    - apply bind_ok in Hatt as ([a c] & Ha & [= <- <-]). apply parse_attested_spec in Ha as (ext & -> & Hok & ->); [|done]. by exists ext.
    - injection Hatt as <- <-. exists rest. cbn. split_and!; [done|lia|done]. }
  destruct Hsec as (ext & -> & -> & Hflag). apply bind_ok in Hp as (cursor' & Hext & Hp). rewrite drop_beyond, drop_app_length in Hext.
  destruct (negb _) eqn:Hend; [done|]. injection Hp as <-. apply negb_false_iff, Nat.eqb_eq in Hend. subst cursor'.
  split; [done|]. exists ext. split.
  + unfold auth_data_bytes, pre. cbn [rp_id_hash flags sign_count attested]. by rewrite Hbe, <- app_assoc.
  + unfold auth_data_ok. cbn [rp_id_hash flags sign_count attested]. split_and!; [done|lia|lia|done|].
    destruct (has_flag f FLAG_ED).
    * apply bind_ok in Hext as (n & Hn%or_err_Ok & [= Hl]). apply cbor_sound in Hn as (item & r & -> & <- & Hi);
        [|by apply Forall_app in Hrest as [_ ?]].
      assert (r = []) as -> by (apply length_zero_iff_nil; rewrite !length_app in Hl; lia). by rewrite app_nil_r.
    * injection Hext as Hl. apply length_zero_iff_nil. rewrite !length_app in Hl. lia.
Qed.

Lemma auth_data_parse_complete raw' d : Forall is_u8 raw' →
  (raw d = raw' ∧ ∃ extensions, raw' = auth_data_bytes d extensions ∧ auth_data_ok d extensions) →
  auth_data_parse raw' = Ok d.
Proof.
  intros Hu8 (<- & ext & Hraw & Hrp & Hcount & Hatt & Hext). destruct d as [raw rp f count att]. unfold auth_data_bytes in Hraw.
  cbn [AuthData.raw rp_id_hash flags sign_count attested] in *.
  set (rest := default [] (attested_bytes <$> att) ++ ext) in *.
  assert (Hraw' : raw = (rp ++ [f; count / 2 ^ 24; (count / 2 ^ 16) `mod` 256; (count / 2 ^ 8) `mod` 256; count `mod` 256]%Z) ++ rest)
    by (by rewrite Hraw, <- app_assoc).
  pose proof Hu8 as Hrest. rewrite Hraw', Forall_app in Hrest. destruct Hrest as [_ Hrest].
  rewrite Hraw'. destruct (auth_data_parse_eq rp f (count / 2 ^ 24) ((count / 2 ^ 16) `mod` 256) ((count / 2 ^ 8) `mod` 256)
    (count `mod` 256) rest Hrp) as [Hpre ->].
  fold (be32 count). rewrite be_value_be32 by done. clear Hraw. subst raw. set (pre := rp ++ _) in *.
  assert (Hsec : (if has_flag f FLAG_AT then '(a, cursor) ← parse_attested (pre ++ rest) (length pre); Ok (Some a, cursor)
                  else Ok (None, length pre)) = Ok (att, length pre + length (default [] (attested_bytes <$> att)))).
  { destruct att as [a|]; [destruct Hatt as [-> Hok]|rewrite Hatt]; [|cbn; by rewrite Nat.add_0_r].
    rewrite (proj2 (parse_attested_spec pre rest a (length pre + length (attested_bytes a)) Hrest)); [done|by exists ext]. }
  rewrite Hsec. cbn [mbind result_bind]. rewrite drop_beyond. unfold rest. rewrite drop_app_length.
  assert (Htail : (if has_flag f FLAG_ED then n ← or_err (cbor_item_len ext) "extension data CBOR truncated";
      Ok (length pre + length (default [] (attested_bytes <$> att)) + n)
    else Ok (length pre + length (default [] (attested_bytes <$> att)))) = Ok (length (pre ++ rest))).
  { unfold rest. rewrite !length_app. destruct (has_flag f FLAG_ED).
    - pose proof (cbor_complete 33 ext [] Hext) as Hc. rewrite app_nil_r in Hc. rewrite (Hc : cbor_item_len ext = _).
      cbn. f_equal. lia.
    - rewrite Hext. cbn. f_equal. lia. }
  rewrite Htail. cbn [mbind result_bind]. fold rest. rewrite Nat.eqb_refl. cbn [negb]. done.
Qed.

(** C29: Parsing is the inverse of the layout.  [AuthenticatorData::parse]
    accepts exactly the byte strings that are laid out as documented - RP id
    hash, flags, counter, the attested section when the AT flag is set, one
    CBOR item of extensions when the ED flag is set, and nothing behind - and
    returns the fields they were laid out from, so a parsed value serialises
    back to the bytes the signature covers. *)
Theorem auth_data_parse_spec raw' d : Forall is_u8 raw' →
  auth_data_parse raw' = Ok d ↔
  raw d = raw' ∧ ∃ extensions, raw' = auth_data_bytes d extensions ∧ auth_data_ok d extensions.
Proof. split; [by apply auth_data_parse_sound|by apply auth_data_parse_complete]. Qed.

(** ** A registration response *)

Module Sample.

(** AT and UP are set, the counter is 9, the credential id is 5, 6 and the
    key is the map from 1 to 2. *)
Definition sample : list Z :=
  (replicate 32 7 ++ [0x41; 0; 0; 0; 9] ++ replicate 16 1 ++ [0; 2; 5; 6] ++ [0xa1; 1; 2])%Z.
Definition sample_data : AuthenticatorData := {|
  raw := sample; rp_id_hash := replicate 32 7%Z; flags := 0x41; sign_count := 9;
  attested := Some {| aaguid := replicate 16 1%Z; credential_id := [5; 6]%Z; credential_public_key_cbor := [0xa1; 1; 2]%Z |} |}.

Lemma sample_bytes : Forall is_u8 sample.
Proof. unfold sample. cbn. repeat (constructor; [done|]). constructor. Qed.

Lemma cbor_item_len_spec_witness :
  ∃ item rest : list Z, [0xa1; 1; 2; 9]%Z = item ++ rest ∧ length item = 3 ∧ cbor_item 33 item.
Proof.
  apply (cbor_item_len_spec [0xa1; 1; 2; 9]%Z 3); [repeat (constructor; [done|]); constructor|by vm_compute].
Defined.

Lemma auth_data_parse_spec_witness : ∃ extensions, sample = auth_data_bytes sample_data extensions.
Proof.
  destruct (proj1 (auth_data_parse_spec sample sample_data sample_bytes) ltac:(by vm_compute)) as (_ & ext & H & _).
  by exists ext.
Defined.

(** A flag without its section, trailing bytes and an empty credential id are
    refused. *)
Example refused :
  is_ok (auth_data_parse (take 37 sample)) = false ∧ is_ok (auth_data_parse (sample ++ [0%Z])) = false ∧
  is_ok (auth_data_parse (<[54 := 0%Z]> sample)) = false.
Proof. by vm_compute. Qed.
End Sample.
