(* ===== verification/WebAuthn.v ===== *)
(** * WebAuthn ceremonies: src/src/auth/passport/webauthn/

    - the challenge store (challenge.rs);
    - client data and what a ceremony expects of it (client_data.rs);
    - stored keys and the counter-only verifier (assertion_legacy.rs);
    - registration under the none policy (attestation.rs);
    - assertions (assertion.rs), one by one and as a history of the stored
      counter.

    JSON, CBOR, COSE and ECDSA are libraries: [WebAuthnLibs], with the shapes
    of the values the code takes apart.  IANA numbers are those of the COSE
    registries.  Instants are integers; a method behind a lock is one step. *)

From stdpp Require Import pretty.
From S2P Require Import Prelude Codec AuthData.

(** ** The challenge store *)

Inductive ChallengePurpose := Register | Authenticate.
#[export] Instance ChallengePurpose_eq_dec : EqDecision ChallengePurpose.
Proof. solve_decision. Defined.

Inductive WebAuthnChallengeError := ChallengeNotFound | ChallengeExpired | PurposeMismatch | UserMismatch.
#[export] Instance WebAuthnChallengeError_eq_dec : EqDecision WebAuthnChallengeError.
Proof. solve_decision. Defined.

Definition challenge_error_display (e : WebAuthnChallengeError) : string :=
  match e with
  | ChallengeNotFound => "challenge invalid or already used"
  | ChallengeExpired => "challenge expired"
  | PurposeMismatch => "challenge purpose mismatch"
  | UserMismatch => "challenge user binding mismatch"
  end.

Record Entry := { issued_at : Z; purpose : ChallengePurpose; bound_user : option string }.

Record WebAuthnChallengeStore := { entries : gmap string Entry; ttl : Z; cap : nat }.

Definition challenge_store_with_limits (ttl : Z) (cap : nat) : WebAuthnChallengeStore := {|
  entries := ∅; ttl := ttl; cap := cap |}.
Definition WebAuthnChallengeStore_new : WebAuthnChallengeStore :=
  challenge_store_with_limits (180 * nanos_per_sec) (10 * 1000).
Definition with_entries (s : WebAuthnChallengeStore) (m : gmap string Entry) : WebAuthnChallengeStore := {|
  entries := m; ttl := ttl s; cap := cap s |}.

Definition challenge_prune (s : WebAuthnChallengeStore) (now : Z) : WebAuthnChallengeStore :=
  with_entries s (filter (λ e, now - issued_at e.2 ≤ ttl s)%Z (entries s)).

(** The oldest entries, as many as it takes to make room for one. *)
Definition evict_oldest (s : WebAuthnChallengeStore) : WebAuthnChallengeStore :=
  if cap s <=? size (entries s) then
    let v := sort_by_key (λ e : string * Entry, issued_at e.2) (map_to_list (entries s)) in
    let drop_n := length v - (cap s - 1) in
    with_entries s (foldl (λ m k, delete k m) (entries s) (take drop_n v).*1)
  else s.

Definition base64url_encode (bytes : list Z) : string :=
  String.string_of_list_ascii (Ascii.ascii_of_N ∘ Z.to_N <$> Base64Url.encode bytes).

(** [raw] is what the generator draws; the challenge is its digest. *)
Definition challenge_issue (sha256 : list Z → list Z) (s : WebAuthnChallengeStore) (raw : list Z)
    (purpose : ChallengePurpose) (user_id : option string) (now : Z) : string * WebAuthnChallengeStore :=
  let s := challenge_prune s now in
  let encoded := base64url_encode (sha256 raw) in
  let s := evict_oldest s in
  (encoded, with_entries s (<[encoded := {| issued_at := now; purpose := purpose; bound_user := user_id |}]> (entries s))).

Definition challenge_verify (s : WebAuthnChallengeStore) (challenge_b64 : string) (expected_purpose : ChallengePurpose)
    (expected_user : option string) (now : Z) : (unit + WebAuthnChallengeError) * WebAuthnChallengeStore :=
  let consumed := with_entries s (delete challenge_b64 (entries s)) in
  (match entries s !! challenge_b64 with
   | None => inr ChallengeNotFound
   | Some e =>
       if (ttl s <? now - issued_at e)%Z then inr ChallengeExpired
       else if negb (bool_decide (purpose e = expected_purpose)) then inr PurposeMismatch
       else
         match bound_user e, expected_user with
         | Some bound, Some want => if bool_decide (bound = want) then inl tt else inr UserMismatch
         | Some _, None | None, Some _ => inr UserMismatch
         | None, None => inl tt
         end
   end, consumed).

Definition challenge_len (s : WebAuthnChallengeStore) : nat := size (entries s).

(** [base64url_decode] hides what is wrong with its input. *)
Definition base64url_decode (s : string) : list Z + WebAuthnChallengeError :=
  match Base64Url.decode (bytes_of s) with
  | inl bytes => inl bytes
  | inr _ => inr ChallengeNotFound
  end.

(** ** Client data *)

Definition TYPE_CREATE : string := "webauthn.create".
Definition TYPE_GET : string := "webauthn.get".

Record ClientData := { typ : string; challenge : string; origin : string; cross_origin : bool }.

Definition lower (c : Ascii.ascii) : Ascii.ascii :=
  let n := Ascii.N_of_ascii c in
  if ((65 <=? n) && (n <=? 90))%N then Ascii.ascii_of_N (n + 32) else c.
Definition to_ascii_lowercase (s : string) : string :=
  String.string_of_list_ascii (lower <$> String.list_ascii_of_string s).

(** ** What the libraries decode *)

(** [coset::cbor::Value], as far as the code looks into it. *)
Inductive Value :=
  | VInteger (z : Z)
  | VBytes (b : list Z)
  | VText (s : string)
  | VMap (m : list (Value * Value))
  | VOther.

Inductive RegisteredLabel := Assigned (z : Z) | PrivateUse (z : Z) | TextLabel (s : string).
#[export] Instance RegisteredLabel_eq_dec : EqDecision RegisteredLabel.
Proof. solve_decision. Defined.
Inductive Label := LabelInt (z : Z) | LabelText (s : string).

Record CoseKey := { kty : RegisteredLabel; alg : option RegisteredLabel; params : list (Label * Value) }.

Definition EC2 : Z := 2.
Definition ES256 : Z := -7.
Definition Crv : Z := -1.
Definition ParamX : Z := -2.
Definition ParamY : Z := -3.
Definition P_256 : Z := 1.

(** An error with its [Display] and its [Debug] form. *)
Record LibError := { shown : string; debugged : string }.

Class WebAuthnLibs := {
  json_client_data : list Z → ClientData + LibError;
  cbor_from_reader : list Z → Value + LibError;
  cose_from_slice : list Z → CoseKey + LibError;
  VerifyingKey : Type;
  Signature : Type;
  from_sec1_bytes : list Z → VerifyingKey + LibError;
  signature_from_der : list Z → Signature + LibError;
  ecdsa_verify : VerifyingKey → list Z → Signature → unit + LibError;
  sha256 : list Z → list Z;
  debug_string : string → string;
  debug_label : RegisteredLabel → string;
}.

(** [map_err] into an [anyhow] error. *)
Definition or_anyhow {A} (r : A + LibError) (message : LibError → string) : result A :=
  match r with
  | inl a => Ok a
  | inr e => Err (Anyhow (message e))
  end.
Definition ensure (b : bool) (message : string) : result unit := if b then Ok tt else Err (Anyhow message).

Section Ceremonies.
Context `{WebAuthnLibs}.

Definition client_data_parse (bytes : list Z) : result ClientData :=
  or_anyhow (json_client_data bytes) (λ e, "invalid clientDataJSON: " +:+ shown e).

Definition decoded (s message : string) : result (list Z) :=
  match base64url_decode s with
  | inl bytes => Ok bytes
  | inr _ => Err (Anyhow message)
  end.

Definition verify_expectations (c : ClientData) (expected_type expected_challenge_b64 : string)
    (allowed_origins : list string) : result unit :=
  _ ← ensure (bool_decide (typ c = expected_type))
        ("clientData type mismatch: expected " +:+ expected_type +:+ ", got " +:+ typ c);
  issued ← decoded expected_challenge_b64 "issued challenge is not valid base64url";
  presented ← decoded (challenge c) "presented challenge is not valid base64url";
  _ ← ensure (constant_time_eq issued presented) "clientData challenge mismatch";
  _ ← ensure (negb (cross_origin c)) "cross_origin ceremonies are not accepted";
  let origin' := to_ascii_lowercase (origin c) in
  ensure (existsb (λ o, bool_decide (to_ascii_lowercase o = origin')) allowed_origins)
    ("origin " +:+ debug_string (origin c) +:+ " not in allowlist").

(** ** Stored keys *)

Definition assigned (a : option RegisteredLabel) : option Z :=
  match a with
  | Some (Assigned z) => Some z
  | _ => None
  end.

Definition check_es256 (alg : option RegisteredLabel) : result unit :=
  alg ← or_err (assigned alg) "missing or unassigned algorithm";
  ensure (alg =? ES256)%Z ("unsupported algorithm: expected ES256, got " +:+ pretty alg).
Definition validate_supported_key (key : CoseKey) : result unit := check_es256 (alg key).

Definition param (key : CoseKey) (label_int : Z) : option Value :=
  snd <$> List.find (λ p : Label * Value, match p.1 with LabelInt v => (v =? label_int)%Z | LabelText _ => false end)
            (params key).
Definition get_param_int (key : CoseKey) (label_int : Z) : option Z :=
  v ← param key label_int;
  match v with
  | VInteger z => if bool_decide (- 2 ^ 63 ≤ z < 2 ^ 63)%Z then Some z else None
  | _ => None
  end.
Definition get_param_bytes (key : CoseKey) (label_int : Z) : option (list Z) :=
  v ← param key label_int;
  match v with
  | VBytes b => Some b
  | _ => None
  end.

Definition key_from_cose (cose_key_bytes : list Z) : result VerifyingKey :=
  key ← or_anyhow (cose_from_slice cose_key_bytes) (λ e, "invalid COSE key: " +:+ shown e);
  _ ← ensure (bool_decide (kty key = Assigned EC2)) ("unsupported key type: expected EC2, got " +:+ debug_label (kty key));
  _ ← check_es256 (alg key);
  crv ← or_err (get_param_int key Crv) "missing curve parameter";
  _ ← ensure (crv =? P_256)%Z ("unsupported curve: expected P-256 (" +:+ pretty P_256 +:+ "), got " +:+ pretty crv);
  x ← or_err (get_param_bytes key ParamX) "missing EC x-coordinate";
  y ← or_err (get_param_bytes key ParamY) "missing EC y-coordinate";
  or_anyhow (from_sec1_bytes (4%Z :: x ++ y)) (λ e, "invalid EC public key: " +:+ shown e).

(** The signature over [authenticatorData || SHA256(clientDataJSON)]. *)
Definition check_signature (key : VerifyingKey) (authenticator_data client_data_json signature : list Z) : result unit :=
  sig ← or_anyhow (signature_from_der signature) (λ e, "invalid DER signature: " +:+ shown e);
  or_anyhow (ecdsa_verify key (authenticator_data ++ sha256 client_data_json) sig)
    (λ e, "signature verification failed: " +:+ shown e).

Definition MAX_SIGN_COUNT_GAP : Z := 1024.

(** The counter policy both verifiers apply. *)
Definition counter_policy (stored auth : Z) : result unit :=
  if negb (auth =? 0)%Z || negb (stored =? 0)%Z then
    _ ← ensure (negb (auth <=? stored)%Z)
          ("sign_count not incremented: stored=" +:+ pretty stored +:+ ", auth=" +:+ pretty auth);
    ensure (negb (MAX_SIGN_COUNT_GAP <? Z.max 0 (auth - stored))%Z)
      ("sign_count gap too large: stored=" +:+ pretty stored +:+ ", auth=" +:+ pretty auth)
  else Ok tt.

Record WebAuthnVerifier := { v_credential_id : list Z; public_key_cose : list Z; v_sign_count : Z }.

Definition WebAuthnVerifier_new (credential_id public_key_cose : list Z) (sign_count : Z) : WebAuthnVerifier := {|
  v_credential_id := credential_id; public_key_cose := public_key_cose; v_sign_count := sign_count |}.

Definition legacy_verify (v : WebAuthnVerifier) (credential_id authenticator_data client_data_json signature : list Z)
    (auth_sign_count : Z) : result Z :=
  _ ← ensure (constant_time_eq credential_id (v_credential_id v)) "credential_id mismatch";
  _ ← counter_policy (v_sign_count v) auth_sign_count;
  key ← key_from_cose (public_key_cose v);
  _ ← check_signature key authenticator_data client_data_json signature;
  Ok auth_sign_count.

(** ** Registration *)

Record AttestedCredential := {
  a_credential_id : list Z;
  a_public_key_cose : list Z;
  a_aaguid : list Z;
  a_backup_eligible : bool;
  a_backup_state : bool;
}.
Record RegistrationOutputs := {
  r_rp_id_hash : list Z;
  r_credential : AttestedCredential;
  r_sign_count : Z;
  r_user_verified : bool;
}.
Definition initial_sign_count (o : RegistrationOutputs) : Z := r_sign_count o.

Record AttestationPolicy := { require_user_verification : bool; policy_origins : list string }.

(** The fields of the map met so far: [fmt], whether an empty [attStmt] was
    seen, [authData]. *)
Record Fields := { f_fmt : option string; att_stmt_seen_empty : bool; f_auth_data : option (list Z) }.

Definition read_field (f : Fields) (k v : Value) : result Fields :=
  match k with
  | VText field =>
      if bool_decide (field = "fmt") then
        match v with
        | VText t => Ok {| f_fmt := Some t; att_stmt_seen_empty := att_stmt_seen_empty f; f_auth_data := f_auth_data f |}
        | _ => Err (Anyhow "fmt must be text")
        end
      else if bool_decide (field = "attStmt") then
        match v with
        | VMap [] => Ok {| f_fmt := f_fmt f; att_stmt_seen_empty := true; f_auth_data := f_auth_data f |}
        | _ => Err (Anyhow "attStmt must be an empty map for fmt=none")
        end
      else if bool_decide (field = "authData") then
        match v with
        | VBytes b => Ok {| f_fmt := f_fmt f; att_stmt_seen_empty := att_stmt_seen_empty f; f_auth_data := Some b |}
        | _ => Err (Anyhow "authData must be bytes")
        end
      else Ok f
  | _ => Err (Anyhow "non-text map key in attestationObject")
  end.
Fixpoint read_fields (f : Fields) (m : list (Value * Value)) : result Fields :=
  match m with
  | [] => Ok f
  | (k, v) :: m => f ← read_field f k v; read_fields f m
  end.

Definition parse_attestation_object (bytes : list Z) : result (string * list Z) :=
  value ← or_anyhow (cbor_from_reader bytes) (λ e, "attestationObject CBOR invalid: " +:+ debugged e);
  match value with
  | VMap m =>
      f ← read_fields {| f_fmt := None; att_stmt_seen_empty := false; f_auth_data := None |} m;
      match f_fmt f, att_stmt_seen_empty f, f_auth_data f with
      | Some fmt, true, Some auth_data => Ok (fmt, auth_data)
      | _, false, _ => Err (Anyhow "missing or non-empty attStmt for fmt=none")
      | None, _, _ => Err (Anyhow "missing fmt")
      | _, _, None => Err (Anyhow "missing authData")
      end
  | _ => Err (Anyhow "attestationObject is not a CBOR map")
  end.

(** The client data are a parameter the body does not read. *)
Definition verify_attestation_none (attestation_object : list Z) (_client_data : ClientData) (rp_id : string)
    : result RegistrationOutputs :=
  '(fmt, auth_data_bytes) ← parse_attestation_object attestation_object;
  _ ← ensure (bool_decide (fmt = "none")) ("unsupported attestation format " +:+ debug_string fmt +:+ " (policy: none)");
  ad ← auth_data_parse auth_data_bytes;
  _ ← ensure (user_present ad) "UP flag not set at registration";
  _ ← ensure (bool_decide (rp_id_hash ad = sha256 (bytes_of rp_id))) ("rpIdHash mismatch for RP " +:+ debug_string rp_id);
  _ ← ensure (has_flag (flags ad) FLAG_AT && bool_decide (is_Some (attested_credential_data ad)))
        "AT flag not set or credential data missing";
  attested ← or_err (attested_credential_data ad) "checked directly above";
  cose ← or_anyhow (cose_from_slice (credential_public_key_cbor attested))
           (λ e, "credential public key CBOR invalid: " +:+ debugged e);
  _ ← validate_supported_key cose;
  Ok {| r_rp_id_hash := rp_id_hash ad; r_sign_count := sign_count ad; r_user_verified := user_verified ad;
        r_credential := {| a_credential_id := credential_id attested;
                           a_public_key_cose := credential_public_key_cbor attested;
                           a_aaguid := aaguid attested;
                           a_backup_eligible := backup_eligible ad;
                           a_backup_state := backup_state ad |} |}.

Definition verify_attestation_none_with_policy (attestation_object : list Z) (client_data : ClientData) (rp_id : string)
    (policy : AttestationPolicy) : result RegistrationOutputs :=
  _ ← (match policy_origins policy with
       | [] => Ok tt
       | _ => verify_expectations client_data "webauthn.create" (challenge client_data) (policy_origins policy)
       end);
  outputs ← verify_attestation_none attestation_object client_data rp_id;
  if require_user_verification policy && negb (r_user_verified outputs) then Err (Anyhow "UV flag not set at registration")
  else Ok outputs.

(** ** Assertions *)

Record AssertionExpectations := {
  e_rp_id : string;
  e_challenge_b64 : string;
  e_allowed_origins : list string;
  e_require_user_verification : bool;
}.
Record AssertionOutcome := { o_sign_count : Z; o_user_verified : bool; o_backup_state : bool }.

Definition verify_assertion (stored_credential_id stored_public_key_cose : list Z) (stored_sign_count : Z)
    (response_credential_id authenticator_data signature client_data_json : list Z)
    (expectations : AssertionExpectations) : result AssertionOutcome :=
  cd ← client_data_parse client_data_json;
  _ ← verify_expectations cd TYPE_GET (e_challenge_b64 expectations) (e_allowed_origins expectations);
  ad ← auth_data_parse authenticator_data;
  _ ← ensure (user_present ad) "UP flag not set";
  _ ← ensure (negb (e_require_user_verification expectations && negb (user_verified ad))) "UV flag required but not set";
  _ ← ensure (bool_decide (rp_id_hash ad = sha256 (bytes_of (e_rp_id expectations))))
        ("rpIdHash mismatch for RP " +:+ debug_string (e_rp_id expectations));
  _ ← ensure (negb (bool_decide (response_credential_id = []) || bool_decide (stored_credential_id = [])))
        "credential id must not be empty";
  _ ← ensure (constant_time_eq response_credential_id stored_credential_id) "credential_id mismatch";
  key ← key_from_cose stored_public_key_cose;
  _ ← check_signature key (raw ad) client_data_json signature;
  _ ← counter_policy stored_sign_count (sign_count ad);
  let new_count := if negb (sign_count ad =? 0)%Z || negb (stored_sign_count =? 0)%Z then sign_count ad else 0%Z in
  Ok {| o_sign_count := new_count; o_user_verified := user_verified ad; o_backup_state := backup_state ad |}.
End Ceremonies.

(** ** What the checks accept *)

Lemma ensure_ok b m u : ensure b m = Ok u ↔ b = true.
Proof. destruct b, u; naive_solver. Qed.
Lemma or_anyhow_ok {A} (r : A + LibError) f a : or_anyhow r f = Ok a ↔ r = inl a.
Proof. destruct r; naive_solver. Qed.

(** One check in front of the others. *)
Lemma guard_ok {B} b m (k : unit → result B) v : (ensure b m ≫= k) = Ok v ↔ b = true ∧ k tt = Ok v.
Proof. destruct b; naive_solver. Qed.

Lemma decoded_ok s m bytes : decoded s m = Ok bytes ↔ Base64Url.decode (bytes_of s) = inl bytes.
Proof. unfold decoded, base64url_decode. destruct (Base64Url.decode _); naive_solver. Qed.

Lemma parse_raw raw' d : auth_data_parse raw' = Ok d → raw d = raw'.
Proof.
  unfold auth_data_parse. destruct (_ <? _); [done|]. intros ([att c] & _ & Hp)%bind_ok.
  apply bind_ok in Hp as (c' & _ & Hp). destruct (negb _); [done|]. by injection Hp as <-.
Qed.

(** The counter may stay at zero, or must grow by at most the gap. *)
Definition counter_ok (stored auth : Z) : Prop := (stored = 0 ∧ auth = 0)%Z ∨ (stored < auth ≤ stored + 1024)%Z.

Lemma counter_policy_ok stored auth u : counter_policy stored auth = Ok u ↔ counter_ok stored auth.
Proof.
  unfold counter_policy, counter_ok, MAX_SIGN_COUNT_GAP.
  destruct (Z.eqb_spec auth 0), (Z.eqb_spec stored 0); cbn [negb orb]; rewrite ?guard_ok, ?ensure_ok;
    destruct (Z.leb_spec auth stored), (Z.ltb_spec 1024 (Z.max 0 (auth - stored))); destruct u; cbn [negb]; split; intros; try done; try lia; naive_solver lia.
Qed.

Section Specs.
Context `{WebAuthnLibs}.

(** What a ceremony expects of its client data: exactly the type, a
    challenge that decodes to the same bytes as the issued one (padded or
    not), no cross-origin flag, and an origin of the list, upper and lower
    case of ASCII letters apart. *)
Theorem expectations_iff c ty ch origins :
  verify_expectations c ty ch origins = Ok tt ↔
  typ c = ty ∧
  (∃ bytes, Base64Url.decode (bytes_of ch) = inl bytes ∧ Base64Url.decode (bytes_of (challenge c)) = inl bytes) ∧
  cross_origin c = false ∧
  ∃ o, o ∈ origins ∧ to_ascii_lowercase o = to_ascii_lowercase (origin c).
Proof.
  unfold verify_expectations. rewrite guard_ok, bool_decide_eq_true, bind_ok. split.
  - intros (Hty & issued & Hi%decoded_ok & (presented & Hp%decoded_ok & Hrest)%bind_ok).
    apply guard_ok in Hrest as (Heq%constant_time_eq_spec & Hrest). subst presented.
    apply guard_ok in Hrest as (Hx%negb_true_iff & Ho%ensure_ok). apply existsb_elem in Ho as (o & Ho & Hl%bool_decide_eq_true).
    split_and!; [done|by exists issued|done|by exists o].
  - intros (Hty & (bytes & Hi & Hp) & Hx & o & Ho & Hl). split; [done|]. exists bytes. split; [by apply decoded_ok|].
    apply bind_ok. exists bytes. split; [by apply decoded_ok|]. rewrite !guard_ok, ensure_ok, Hx. split; [by apply constant_time_eq_spec|].
    split; [done|]. apply existsb_elem. exists o. split; [done|]. by apply bool_decide_eq_true.
Qed.

Lemma verify_assertion_iff sid skey stored rid adb sig cdj e out :
  verify_assertion sid skey stored rid adb sig cdj e = Ok out ↔
  ∃ cd ad key s,
    json_client_data cdj = inl cd ∧ verify_expectations cd TYPE_GET (e_challenge_b64 e) (e_allowed_origins e) = Ok tt ∧
    auth_data_parse adb = Ok ad ∧ user_present ad = true ∧
    (e_require_user_verification e = true → user_verified ad = true) ∧
    rp_id_hash ad = sha256 (bytes_of (e_rp_id e)) ∧
    rid = sid ∧ rid ≠ [] ∧
    key_from_cose skey = Ok key ∧ signature_from_der sig = inl s ∧ ecdsa_verify key (adb ++ sha256 cdj) s = inl tt ∧
    counter_ok stored (sign_count ad) ∧
    out = {| o_sign_count := sign_count ad; o_user_verified := user_verified ad; o_backup_state := backup_state ad |}.
Proof.
  assert (Hcount : ∀ ad, counter_ok stored (sign_count ad) →
    (if negb (sign_count ad =? 0)%Z || negb (stored =? 0)%Z then sign_count ad else 0%Z) = sign_count ad).
  { intros ad _. by destruct (Z.eqb_spec (sign_count ad) 0), (Z.eqb_spec stored 0). }
  unfold verify_assertion, client_data_parse. split.
  - intros (cd & Hcd%or_anyhow_ok & Hr)%bind_ok. apply bind_unit_ok in Hr as [Hexp Hr]. apply bind_ok in Hr as (ad & Had & Hr).
    rewrite !guard_ok in Hr. destruct Hr as (Hup & Huv & Hrp%bool_decide_eq_true & Hne & Hid%constant_time_eq_spec & Hr).
    apply bind_ok in Hr as (key & Hkey & Hr). apply bind_unit_ok in Hr as [Hsig Hr]. apply bind_unit_ok in Hr as [Hc%counter_policy_ok Hr].
    unfold check_signature in Hsig. apply bind_ok in Hsig as (s & Hs%or_anyhow_ok & Hv%or_anyhow_ok).
    rewrite (parse_raw _ _ Had) in Hv. injection Hr as <-. rewrite (Hcount ad Hc). exists cd, ad, key, s.
    apply negb_true_iff, orb_false_iff in Hne as [Hne _]. apply bool_decide_eq_false in Hne.
    split_and!; try done. intros Hreq. rewrite Hreq in Huv. by destruct (user_verified ad).
  - intros (cd & ad & key & s & Hcd & Hexp & Had & Hup & Huv & Hrp & -> & Hne & Hkey & Hs & Hv & Hc & ->).
    rewrite Hcd. cbn [or_anyhow mbind result_bind]. rewrite Hexp, Had. cbn [mbind result_bind].
    rewrite !guard_ok. split_and!; [done| |by apply bool_decide_eq_true| |by apply constant_time_eq_spec|].
    + destruct (e_require_user_verification e); [by rewrite Huv|done].
    + by rewrite bool_decide_false.
    + rewrite Hkey. cbn [mbind result_bind]. unfold check_signature. rewrite Hs, (parse_raw _ _ Had). cbn [or_anyhow mbind result_bind].
      rewrite Hv. cbn [or_anyhow mbind result_bind]. rewrite (proj2 (counter_policy_ok _ _ tt) Hc). cbn [mbind result_bind]. by rewrite Hcount.
Qed.

(** C13: Assertions.  A login is accepted exactly when the client data meet
    the expectations of the ceremony, the authenticator data are well formed,
    made for this relying party, with the user present (and verified, when
    required), the credential is the stored one, the stored key is a P-256
    key for ES256 and verifies the signature over the authenticator data as
    presented followed by the digest of the client data as presented, and
    the counter passes; the outcome is read from the signed bytes. *)
Theorem assertion_accepts_iff sid skey stored rid adb sig cdj e out :
  verify_assertion sid skey stored rid adb sig cdj e = Ok out ↔
  ∃ cd ad key s,
    json_client_data cdj = inl cd ∧ verify_expectations cd TYPE_GET (e_challenge_b64 e) (e_allowed_origins e) = Ok tt ∧
    auth_data_parse adb = Ok ad ∧ user_present ad = true ∧
    (e_require_user_verification e = true → user_verified ad = true) ∧
    rp_id_hash ad = sha256 (bytes_of (e_rp_id e)) ∧
    rid = sid ∧ rid ≠ [] ∧
    key_from_cose skey = Ok key ∧ signature_from_der sig = inl s ∧ ecdsa_verify key (adb ++ sha256 cdj) s = inl tt ∧
    counter_ok stored (sign_count ad) ∧
    out = {| o_sign_count := sign_count ad; o_user_verified := user_verified ad; o_backup_state := backup_state ad |}.
Proof. apply verify_assertion_iff. Qed.

(** ** Histories of one credential *)

Record Attempt := {
  t_credential_id : list Z;
  t_authenticator_data : list Z;
  t_signature : list Z;
  t_client_data_json : list Z;
  t_expectations : AssertionExpectations;
}.
Definition attempt (sid skey : list Z) (stored : Z) (a : Attempt) : result AssertionOutcome :=
  verify_assertion sid skey stored (t_credential_id a) (t_authenticator_data a) (t_signature a) (t_client_data_json a)
    (t_expectations a).

(** The relying party stores the counter of every accepted assertion. *)
Definition attempt_step (sid skey : list Z) (stored : Z) (a : Attempt) : Z :=
  match attempt sid skey stored a with
  | Ok out => o_sign_count out
  | Err _ => stored
  end.
Definition attempts_run (sid skey : list Z) (stored : Z) (l : list Attempt) : Z := foldl (attempt_step sid skey) stored l.

Lemma attempt_counter sid skey stored a out : attempt sid skey stored a = Ok out →
  counter_ok stored (o_sign_count out) ∧
  ∃ ad, auth_data_parse (t_authenticator_data a) = Ok ad ∧ o_sign_count out = sign_count ad.
Proof.
  intros (cd & ad & key & s & _ & _ & Had & _ & _ & _ & _ & _ & _ & _ & _ & Hc & ->)%verify_assertion_iff.
  split; [done|]. by exists ad.
Qed.

Lemma attempts_run_bounds sid skey stored l :
  (stored ≤ attempts_run sid skey stored l ≤ stored + 1024 * Z.of_nat (length l))%Z.
Proof.
  revert stored. induction l as [|a l IH]; intros stored; [cbn; lia|].
  cbn [attempts_run foldl length]. fold (attempts_run sid skey (attempt_step sid skey stored a) l).
  assert (Hs : (stored ≤ attempt_step sid skey stored a ≤ stored + 1024)%Z).
  { unfold attempt_step. destruct (attempt _ _ _ _) as [out|] eqn:Ha; [|lia].
    apply attempt_counter in Ha as [[[-> ->]|?] _]; lia. }
  specialize (IH (attempt_step sid skey stored a)). lia.
Qed.

(** C20: No replay.  Once an assertion with a counter other than zero has been
    accepted, the same authenticator data are refused for ever - under any
    signature, client data and expectations, and whatever assertions come in
    between; the stored counter never decreases, and grows by at most 1024
    with each attempt. *)
Theorem assertion_replay_refused sid skey stored a out later b :
  attempt sid skey stored a = Ok out → o_sign_count out ≠ 0%Z → t_authenticator_data b = t_authenticator_data a →
  let stored' := attempts_run sid skey (o_sign_count out) later in
  is_ok (attempt sid skey stored' b) = false ∧
  (stored ≤ o_sign_count out ≤ stored' ≤ stored + 1024 * Z.of_nat (S (length later)))%Z.
Proof.
  intros Ha Hne Hsame stored'. apply attempt_counter in Ha as (Hc & ad & Had & Hcount).
  pose proof (attempts_run_bounds sid skey (o_sign_count out) later) as Hb. fold stored' in Hb. split.
  - destruct (attempt sid skey stored' b) as [out'|] eqn:Hb'; [|done]. exfalso.
    apply attempt_counter in Hb' as (Hc' & ad' & Had' & Hcount'). rewrite Hsame, Had in Had'. injection Had' as <-.
    rewrite Hcount', <- Hcount in Hc'. destruct Hc' as [[? ?]|?]; lia.
  - destruct Hc as [[-> ?]|?]; lia.
Qed.
End Specs.

(** ** Registration *)

(** A field of an attestation object of the none format. *)
Definition field_typed (kv : Value * Value) : Prop :=
  ∃ t, kv.1 = VText t ∧ (t = "fmt" → ∃ s, kv.2 = VText s) ∧ (t = "attStmt" → kv.2 = VMap []) ∧
    (t = "authData" → ∃ b, kv.2 = VBytes b).

(** The value the loop keeps of the fields called [name]. *)
Fixpoint last_field (name : string) (m : list (Value * Value)) : option Value :=
  match m with
  | [] => None
  | (k, v) :: m =>
      match last_field name m with
      | Some x => Some x
      | None => match k with VText t => if bool_decide (t = name) then Some v else None | _ => None end
      end
  end.
Definition text_of (o : option Value) : option string := match o with Some (VText s) => Some s | _ => None end.
Definition bytes_in (o : option Value) : option (list Z) := match o with Some (VBytes b) => Some b | _ => None end.
Definition or_old {A} (o old : option A) : option A := match o with Some a => Some a | None => old end.
Definition seen_in (m : list (Value * Value)) : bool := bool_decide (is_Some (last_field "attStmt" m)).

Lemma read_field_iff f k v f' : read_field f k v = Ok f' ↔ field_typed (k, v) ∧
  f' = {| f_fmt := or_old (text_of (last_field "fmt" [(k, v)])) (f_fmt f);
          att_stmt_seen_empty := att_stmt_seen_empty f || seen_in [(k, v)];
          f_auth_data := or_old (bytes_in (last_field "authData" [(k, v)])) (f_auth_data f) |}.
Proof.
  unfold read_field, field_typed, seen_in. destruct f as [x y z]. cbn [last_field fst snd f_fmt att_stmt_seen_empty f_auth_data].
  destruct k as [| |t| |]; try (split; [done|by intros [(? & [=] & _) _]]).
  destruct (decide (t = "fmt")) as [->|H1].
  { rewrite !bool_decide_true by done. cbn. rewrite orb_false_r. split.
    - destruct v; try done. intros [= <-]. split; [|done]. eexists. split; [done|]. naive_solver.
    - intros [(t & [= <-] & Hf & _) ->]. destruct (Hf eq_refl) as [s ->]. done. }
  rewrite (bool_decide_false (t = "fmt")) by done.
  destruct (decide (t = "attStmt")) as [->|H2].
  { rewrite !bool_decide_true by done. cbn. rewrite orb_true_r. split.
    - destruct v as [| | |[]|]; try done. intros [= <-]. split; [|done]. eexists. split; [done|]. naive_solver.
    - intros [(t & [= <-] & _ & Hf & _) ->]. by rewrite Hf. }
  rewrite (bool_decide_false (t = "attStmt")) by done. rewrite (bool_decide_false (is_Some None)) by (by intros []). rewrite orb_false_r.
  destruct (decide (t = "authData")) as [->|H3].
  { rewrite !bool_decide_true by done. cbn. split.
    - destruct v; try done. intros [= <-]. split; [|done]. eexists. split; [done|]. naive_solver.
    - intros [(t & [= <-] & _ & _ & Hf) ->]. destruct (Hf eq_refl) as [b ->]. done. }
  rewrite (bool_decide_false (t = "authData")) by done. cbn. split; [intros [= <-]|by intros [_ ->]].
  split; [|done]. exists t. split; [done|]. naive_solver.
Qed.

Lemma read_fields_iff f m f' : read_fields f m = Ok f' ↔ Forall field_typed m ∧
  f' = {| f_fmt := or_old (text_of (last_field "fmt" m)) (f_fmt f);
          att_stmt_seen_empty := att_stmt_seen_empty f || seen_in m;
          f_auth_data := or_old (bytes_in (last_field "authData" m)) (f_auth_data f) |}.
Proof.
  revert f. induction m as [|[k v] m IH]; intros f; cbn [read_fields].
  { unfold seen_in. cbn. rewrite orb_false_r. destruct f. split; [intros [= <-]; by split|by intros [_ ->]]. }
  rewrite bind_ok, Forall_cons.
  assert (Hcomb : ∀ (Hm : Forall field_typed m) (Hk : field_typed (k, v)),
    or_old (text_of (last_field "fmt" ((k, v) :: m))) (f_fmt f) =
      or_old (text_of (last_field "fmt" m)) (or_old (text_of (last_field "fmt" [(k, v)])) (f_fmt f)) ∧
    or_old (bytes_in (last_field "authData" ((k, v) :: m))) (f_auth_data f) =
      or_old (bytes_in (last_field "authData" m)) (or_old (bytes_in (last_field "authData" [(k, v)])) (f_auth_data f)) ∧
    att_stmt_seen_empty f || seen_in ((k, v) :: m) = att_stmt_seen_empty f || seen_in [(k, v)] || seen_in m).
  { intros Hm _.
    assert (Htyped : ∀ name x, last_field name m = Some x → (name = "fmt" → ∃ s, x = VText s) ∧ (name = "authData" → ∃ b, x = VBytes b)).
    { clear -Hm. intros name x. induction Hm as [|[k v] m (t & Hk & Hf & _ & Hb) _ IH]; [done|]. cbn [last_field]. cbn [fst snd] in *.
      destruct (last_field name m); [done|]. subst k. case_bool_decide; [|done]. intros [= <-]. subst t. by split. }
    unfold seen_in. cbn [last_field]. split_and!.
    - destruct (last_field "fmt" m) as [x|] eqn:E; [|done]. destruct (proj1 (Htyped _ _ E) eq_refl) as [s ->]. done.
    - destruct (last_field "authData" m) as [x|] eqn:E; [|done]. destruct (proj2 (Htyped _ _ E) eq_refl) as [s ->]. done.
    - rewrite <- orb_assoc. f_equal. destruct (last_field "attStmt" m).
      + rewrite (bool_decide_true (is_Some (Some v0))) by done. by rewrite orb_true_r.
      + rewrite (bool_decide_false (is_Some (A := Value) None)) by (by intros []). by rewrite orb_false_r. }
  split.
  - intros (f1 & [Hk ->]%read_field_iff & [Hm ->]%IH). cbn [f_fmt att_stmt_seen_empty f_auth_data].
    destruct (Hcomb Hm Hk) as (-> & -> & ->). done.
  - intros [[Hk Hm] ->]. eexists. split; [by apply read_field_iff|]. apply IH. cbn [f_fmt att_stmt_seen_empty f_auth_data].
    destruct (Hcomb Hm Hk) as (-> & -> & ->). done.
Qed.

Lemma parse_attested_flag raw' d : auth_data_parse raw' = Ok d → is_Some (attested d) → has_flag (flags d) FLAG_AT = true.
Proof.
  unfold auth_data_parse. destruct (_ <? _); [done|]. intros ([att c] & Hatt & Hp)%bind_ok.
  apply bind_ok in Hp as (c' & _ & Hp). destruct (negb _); [done|]. injection Hp as <-. cbn [attested flags].
  destruct (has_flag _ _); [done|]. injection Hatt as <- _. by intros [].
Qed.

Section Registration.
Context `{WebAuthnLibs}.

(** Attestation objects.  The bytes are taken apart exactly when they are
    a CBOR map with text keys whose format fields are text, whose statements
    are the empty map - at least one - and whose authenticator data are
    bytes; of a repeated field the last counts. *)
Theorem attestation_object_iff obj fmt adb :
  parse_attestation_object obj = Ok (fmt, adb) ↔
  ∃ m, cbor_from_reader obj = inl (VMap m) ∧ Forall field_typed m ∧ last_field "fmt" m = Some (VText fmt) ∧
    is_Some (last_field "attStmt" m) ∧ last_field "authData" m = Some (VBytes adb).
Proof.
  unfold parse_attestation_object. rewrite bind_ok. setoid_rewrite or_anyhow_ok. split.
  - intros (value & Hv & Hr). destruct value as [| | |m|]; try done. apply bind_ok in Hr as (f & [Hm ->]%read_fields_iff & Hr).
    cbn [f_fmt att_stmt_seen_empty f_auth_data orb] in Hr. exists m. split; [done|]. split; [done|].
    unfold seen_in in Hr. destruct (last_field "fmt" m) as [[]|]; destruct (last_field "authData" m) as [[]|];
      case_bool_decide; simplify_eq/=; try done; by split_and!.
  - intros (m & Hm & Htyped & Hf & Hs & Hb). exists (VMap m). split; [done|]. rewrite bind_ok.
    eexists. split; [by apply read_fields_iff|]. cbn [f_fmt att_stmt_seen_empty f_auth_data orb]. unfold seen_in.
    by rewrite Hf, Hb, bool_decide_true by done.
Qed.

Lemma verify_attestation_iff obj cd rp pol out :
  verify_attestation_none_with_policy obj cd rp pol = Ok out ↔
  (policy_origins pol ≠ [] → verify_expectations cd TYPE_CREATE (challenge cd) (policy_origins pol) = Ok tt) ∧
  ∃ adb ad att cose,
    parse_attestation_object obj = Ok ("none", adb) ∧ auth_data_parse adb = Ok ad ∧ user_present ad = true ∧
    (require_user_verification pol = true → user_verified ad = true) ∧
    rp_id_hash ad = sha256 (bytes_of rp) ∧ attested_credential_data ad = Some att ∧
    cose_from_slice (credential_public_key_cbor att) = inl cose ∧ assigned (alg cose) = Some ES256 ∧
    out = {| r_rp_id_hash := rp_id_hash ad; r_sign_count := sign_count ad; r_user_verified := user_verified ad;
             r_credential := {| a_credential_id := credential_id att;
                                a_public_key_cose := credential_public_key_cbor att; a_aaguid := aaguid att;
                                a_backup_eligible := backup_eligible ad; a_backup_state := backup_state ad |} |}.
Proof.
  unfold verify_attestation_none_with_policy, verify_attestation_none. rewrite bind_unit_ok.
  assert (Hpol : (match policy_origins pol with [] => Ok tt
      | _ => verify_expectations cd "webauthn.create" (challenge cd) (policy_origins pol) end) = Ok tt ↔
    (policy_origins pol ≠ [] → verify_expectations cd TYPE_CREATE (challenge cd) (policy_origins pol) = Ok tt)).
  { destruct (policy_origins pol); [done|]. split; [done|]. intros Hx. by apply Hx. }
  rewrite Hpol. apply and_iff_compat_l. split.
  - intros (o & Ho & Huv)%bind_ok. apply bind_ok in Ho as ([fmt adb] & Hobj & Ho).
    apply guard_ok in Ho as [->%bool_decide_eq_true Ho]. apply bind_ok in Ho as (ad & Had & Ho). rewrite !guard_ok in Ho.
    destruct Ho as (Hup & Hrp%bool_decide_eq_true & _ & Ho). apply bind_ok in Ho as (att & Hatt%or_err_Ok & Ho).
    apply bind_ok in Ho as (cose & Hcose%or_anyhow_ok & Ho). apply bind_unit_ok in Ho as [Hkey [= <-]].
    unfold validate_supported_key, check_es256 in Hkey. apply bind_ok in Hkey as (a & Ha%or_err_Ok & He%ensure_ok%Z.eqb_eq). subst a.
    cbn [r_user_verified] in Huv. destruct (_ && _) eqn:Hreq; [done|]. injection Huv as <-.
    exists adb, ad, att, cose. split_and!; try done. intros Hq. rewrite Hq in Hreq. cbn [andb] in Hreq. by apply negb_false_iff in Hreq.
  - intros (adb & ad & att & cose & Hobj & Had & Hup & Huv & Hrp & Hatt & Hcose & Halg & ->).
    apply bind_ok. eexists. split.
    + rewrite Hobj. cbn [mbind result_bind]. rewrite guard_ok, bool_decide_eq_true. split; [done|]. rewrite Had. cbn [mbind result_bind].
      rewrite !guard_ok, bool_decide_eq_true. split; [done|]. split; [done|]. split.
      { rewrite (parse_attested_flag _ _ Had) by (by exists att). apply bool_decide_eq_true. by exists att. }
      rewrite Hatt. cbn [or_err mbind result_bind]. rewrite Hcose. cbn [or_anyhow mbind result_bind].
      unfold validate_supported_key, check_es256. rewrite Halg. cbn [or_err mbind result_bind]. done.
    + cbn [r_user_verified]. destruct (require_user_verification pol); [by rewrite Huv|done].
Qed.

(** C21: Registration under the none policy.  It succeeds exactly when the
    attestation object has the format none, its authenticator data are well
    formed, made for this relying party with the user present, and carry a
    credential whose key names the algorithm ES256 - and, under a policy,
    when the client data meet the origin list and the user was verified; the
    outputs are read from the authenticator data.  The client data count for
    nothing else: the documentation of [verify_attestation_none] says that
    their challenge is checked again against the authenticator data when
    extensions bind it, and the code makes no such check
    ([registration_ignores_client_data]). *)
Theorem registration_accepts_iff obj cd rp pol out :
  verify_attestation_none_with_policy obj cd rp pol = Ok out ↔
  (policy_origins pol ≠ [] → verify_expectations cd TYPE_CREATE (challenge cd) (policy_origins pol) = Ok tt) ∧
  ∃ adb ad att cose,
    parse_attestation_object obj = Ok ("none", adb) ∧ auth_data_parse adb = Ok ad ∧ user_present ad = true ∧
    (require_user_verification pol = true → user_verified ad = true) ∧
    rp_id_hash ad = sha256 (bytes_of rp) ∧ attested_credential_data ad = Some att ∧
    cose_from_slice (credential_public_key_cbor att) = inl cose ∧ assigned (alg cose) = Some ES256 ∧
    out = {| r_rp_id_hash := rp_id_hash ad; r_sign_count := sign_count ad; r_user_verified := user_verified ad;
             r_credential := {| a_credential_id := credential_id att;
                                a_public_key_cose := credential_public_key_cbor att; a_aaguid := aaguid att;
                                a_backup_eligible := backup_eligible ad; a_backup_state := backup_state ad |} |}.
Proof. apply verify_attestation_iff. Qed.

(** The client data are not compared with the authenticator data.  Without
    an origin list two responses of different ceremonies register the same
    credential alike, whatever extensions the authenticator data carry; with
    one, a response that fails its own check is refused and every other one
    is judged by the attestation object alone. *)
Theorem registration_ignores_client_data obj cd cd' rp pol :
  verify_attestation_none obj cd rp = verify_attestation_none obj cd' rp ∧
  (policy_origins pol = [] →
     verify_attestation_none_with_policy obj cd rp pol = verify_attestation_none_with_policy obj cd' rp pol) ∧
  (verify_expectations cd TYPE_CREATE (challenge cd) (policy_origins pol) = Ok tt →
   verify_expectations cd' TYPE_CREATE (challenge cd') (policy_origins pol) = Ok tt →
     verify_attestation_none_with_policy obj cd rp pol = verify_attestation_none_with_policy obj cd' rp pol).
Proof.
  unfold verify_attestation_none_with_policy. split_and!; [done|by intros ->|]. unfold TYPE_CREATE.
  intros Hcd Hcd'. destruct (policy_origins pol); [done|]. by rewrite Hcd, Hcd'.
Qed.

(** Registration looks at the algorithm of a key only.  A key of another
    type than EC2 that names ES256 passes it, and then no assertion with the
    registered credential is ever accepted. *)
Theorem unusable_key_is_registered obj cd rp pol out cose :
  verify_attestation_none_with_policy obj cd rp pol = Ok out →
  cose_from_slice (a_public_key_cose (r_credential out)) = inl cose → kty cose ≠ Assigned EC2 →
  assigned (alg cose) = Some ES256 ∧
  ∀ stored rid adb sig cdj e,
    is_ok (verify_assertion (a_credential_id (r_credential out)) (a_public_key_cose (r_credential out)) stored rid adb sig cdj e)
      = false.
Proof.
  intros (_ & adb & ad & att & cose' & _ & _ & _ & _ & _ & _ & Hcose & Halg & ->)%verify_attestation_iff Hc Hkty.
  cbn [r_credential a_public_key_cose a_credential_id] in *. rewrite Hcose in Hc. injection Hc as <-. split; [done|].
  intros stored rid adb' sig cdj e. destruct (verify_assertion _ _ _ _ _ _ _ _) as [out|] eqn:Hv; [|done]. exfalso.
  apply verify_assertion_iff in Hv as (? & ? & key & ? & _ & _ & _ & _ & _ & _ & _ & _ & Hkey & _).
  unfold key_from_cose in Hkey. rewrite Hcose in Hkey. cbn [or_anyhow mbind result_bind] in Hkey. by rewrite bool_decide_false in Hkey.
Qed.

(** The legacy verifier.  It accepts exactly the stored credential with
    an admissible counter and a signature of the stored key; the counter is
    whatever the caller says, so one signature is good for every admissible
    counter. *)
Theorem legacy_verify_iff v cid adb cdj sig n r :
  legacy_verify v cid adb cdj sig n = Ok r ↔
  cid = v_credential_id v ∧ counter_ok (v_sign_count v) n ∧ r = n ∧
  ∃ key s, key_from_cose (public_key_cose v) = Ok key ∧ signature_from_der sig = inl s ∧
    ecdsa_verify key (adb ++ sha256 cdj) s = inl tt.
Proof.
  unfold legacy_verify, check_signature. rewrite guard_ok, constant_time_eq_spec, bind_unit_ok, counter_policy_ok. split.
  - intros (-> & Hc & Hr). apply bind_ok in Hr as (key & Hkey & Hr). apply bind_unit_ok in Hr as [Hs [= ->]].
    apply bind_ok in Hs as (s & Hs%or_anyhow_ok & Hv%or_anyhow_ok). split_and!; [done..|by exists key, s].
  - intros (-> & Hc & -> & key & s & Hkey & Hs & Hv). split_and!; [done..|]. rewrite Hkey. cbn [mbind result_bind].
    rewrite Hs. cbn [or_anyhow mbind result_bind]. by rewrite Hv.
Qed.
End Registration.

(** ** Histories of the challenge store *)

Section Challenges.
Context (sha256 : list Z → list Z).

Inductive challenge_op :=
  | OpIssueChallenge (raw : list Z) (purpose : ChallengePurpose) (user : option string)
  | OpVerifyChallenge (c : string) (purpose : ChallengePurpose) (user : option string).
Definition challenge_step (s : WebAuthnChallengeStore) (ev : challenge_op * Z) : WebAuthnChallengeStore :=
  match ev.1 with
  | OpIssueChallenge raw p u => (challenge_issue sha256 s raw p u ev.2).2
  | OpVerifyChallenge c p u => (challenge_verify s c p u ev.2).2
  end.
Definition challenge_run (s : WebAuthnChallengeStore) (evs : list (challenge_op * Z)) : WebAuthnChallengeStore :=
  foldl challenge_step s evs.
Definition issues_challenge (c : string) (ev : challenge_op * Z) : Prop :=
  match ev.1 with
  | OpIssueChallenge raw _ _ => base64url_encode (sha256 raw) = c
  | OpVerifyChallenge _ _ _ => False
  end.

Lemma foldl_delete_size (ks : list string) (m : gmap string Entry) :
  NoDup ks → (∀ k, k ∈ ks → is_Some (m !! k)) → size (foldl (λ m k, delete k m) m ks) + length ks = size m.
Proof.
  intros Hnd. revert m. induction Hnd as [|k ks Hk Hnd IH]; intros m Hin; [cbn; lia|]. cbn [foldl length].
  destruct (Hin k ltac:(by left)) as [e He].
  rewrite Nat.add_succ_r, IH.
  - rewrite map_size_delete, He. cbn. assert (size m ≠ 0); [|lia]. intros Hz%map_size_empty_iff. by rewrite Hz, lookup_empty in He.
  - intros k' Hk'. rewrite lookup_delete_ne by (intros ->; done). apply Hin. by right.
Qed.

Lemma sorted_keys (m : gmap string Entry) :
  NoDup (sort_by_key (λ e : string * Entry, issued_at e.2) (map_to_list m)).*1 ∧
  length (sort_by_key (λ e : string * Entry, issued_at e.2) (map_to_list m)) = size m ∧
  ∀ k, k ∈ (sort_by_key (λ e : string * Entry, issued_at e.2) (map_to_list m)).*1 → is_Some (m !! k).
Proof.
  pose proof (sort_by_key_perm (λ e : string * Entry, issued_at e.2) (map_to_list m)) as Hp. split_and!.
  - eapply NoDup_Permutation_proper; [by apply fmap_Permutation|]. apply NoDup_fst_map_to_list.
  - rewrite Hp. by rewrite length_map_to_list.
  - intros k ([k' e] & -> & Hk)%list_elem_of_fmap. rewrite Hp in Hk. apply elem_of_map_to_list in Hk. by exists e.
Qed.

(** Room is made for one more, unless the cap is zero. *)
Lemma evict_oldest_size s : size (entries (evict_oldest s)) ≤ size (entries s) ∧ size (entries (evict_oldest s)) ≤ cap s - 1.
Proof.
  unfold evict_oldest. destruct (Nat.leb_spec (cap s) (size (entries s))); [|split; lia]. cbn [entries with_entries].
  destruct (sorted_keys (entries s)) as (Hnd & Hlen & Hin). set (v := sort_by_key _ _) in *. rewrite Hlen.
  pose proof (foldl_delete_size (take (size (entries s) - (cap s - 1)) v).*1 (entries s)) as Hs.
  rewrite length_fmap, length_take, Hlen in Hs. enough (size (foldl (λ m k, delete k m) (entries s) (take (size (entries s) - (cap s - 1)) v).*1) +
    (size (entries s) - (cap s - 1)) `min` size (entries s) = size (entries s)) by lia.
  apply Hs; [rewrite fmap_take; by apply (sublist_NoDup _ _ Hnd), sublist_take|].
  intros k Hk. apply Hin. rewrite fmap_take in Hk. by eapply elem_of_take in Hk as (i & ? & _); eapply list_elem_of_lookup_2.
Qed.

Lemma evict_oldest_sub s c e : entries (evict_oldest s) !! c = Some e → entries s !! c = Some e.
Proof. unfold evict_oldest. case_match; [|done]. cbn [entries with_entries]. rewrite foldl_delete_lookup. by case_decide. Qed.
Lemma evict_oldest_static s : ttl (evict_oldest s) = ttl s ∧ cap (evict_oldest s) = cap s.
Proof. unfold evict_oldest. by case_match. Qed.

Lemma challenge_step_static s ev : ttl (challenge_step s ev) = ttl s ∧ cap (challenge_step s ev) = cap s.
Proof. destruct ev as [[] now]; cbn; [apply (evict_oldest_static (challenge_prune s now))|done]. Qed.

Lemma challenge_step_absent s ev c : ¬ issues_challenge c ev → entries s !! c = None → entries (challenge_step s ev) !! c = None.
Proof.
  intros Hev Hn. destruct ev as [[raw p u|c' p u] now]; cbn in *.
  - rewrite lookup_insert_ne by done. destruct (entries (evict_oldest _) !! c) as [e|] eqn:He; [|done].
    apply evict_oldest_sub in He. cbn in He. apply map_lookup_filter_Some in He as [He _]. congruence.
  - destruct (decide (c = c')) as [->|]; [apply lookup_delete_eq|by rewrite lookup_delete_ne].
Qed.

Lemma challenge_step_bounded s ev : size (entries s) ≤ cap s `max` 1 → size (entries (challenge_step s ev)) ≤ cap s `max` 1.
Proof.
  intros Hs. destruct ev as [[raw p u|c' p u] now]; cbn.
  - destruct (evict_oldest_size (challenge_prune s now)) as [_ Hz]. cbn [cap challenge_prune with_entries] in Hz.
    rewrite map_size_insert. destruct (_ !! _); cbn; lia.
  - rewrite map_size_delete. destruct (_ !! _); cbn; lia.
Qed.

(** C26: Challenges.  In every history a challenge is accepted exactly when it
    is stored, not older than the lifetime, was issued for the same purpose
    and bound to the same user or to none, as asked; whatever the outcome it
    is spent, and refused as unknown until it is issued again; and the store
    never holds more challenges than its cap, or one. *)
Theorem challenge_used_once lifetime c evs ch p u now :
  let s := challenge_run (challenge_store_with_limits lifetime c) evs in
  ((challenge_verify s ch p u now).1 = inl tt ↔
     ∃ e, entries s !! ch = Some e ∧ (now - issued_at e ≤ lifetime)%Z ∧ purpose e = p ∧ bound_user e = u) ∧
  (∀ later p' u' now', Forall (λ ev, ¬ issues_challenge ch ev) later →
     (challenge_verify (challenge_run (challenge_verify s ch p u now).2 later) ch p' u' now').1 = inr ChallengeNotFound) ∧
  challenge_len s ≤ c `max` 1.
Proof.
  intros s.
  assert (Hst : ttl s = lifetime ∧ size (entries s) ≤ c `max` 1).
  { assert (Hgen : ∀ evs s0, ttl s0 = lifetime ∧ cap s0 = c ∧ size (entries s0) ≤ c `max` 1 →
      ttl (challenge_run s0 evs) = lifetime ∧ cap (challenge_run s0 evs) = c ∧ size (entries (challenge_run s0 evs)) ≤ c `max` 1).
    { clear. induction evs as [|ev evs IH]; intros s0 H0; [done|]. apply IH. destruct H0 as (Ht & Hc & Hs).
      destruct (challenge_step_static s0 ev) as [-> ->]. split_and!; [done|done|]. rewrite <- Hc in *. by apply challenge_step_bounded. }
    destruct (Hgen evs (challenge_store_with_limits lifetime c)) as (? & _ & ?); [|done]. split_and!; [done|done|]. cbn. rewrite map_size_empty. lia. }
  destruct Hst as [Hlife Hsize]. split_and!; [| |exact Hsize].
  - unfold challenge_verify. cbn [fst]. rewrite Hlife. destruct (entries s !! ch) as [e|]; [|split; [done|by intros (? & ? & _)]].
    destruct (Z.ltb_spec lifetime (now - issued_at e)); [split; [done|intros (? & [= <-] & ? & _); lia]|].
    destruct (decide (purpose e = p)) as [Hp|Hp]; [rewrite bool_decide_true by done|rewrite bool_decide_false by done];
      cbn [negb]; [|split; [done|intros (? & [= <-] & _ & ? & _); done]].
    destruct (bound_user e) as [b|] eqn:Hb, u as [w|];
      [case_bool_decide; [subst w; split; [by exists e|done]|split; [done|intros (? & [= <-] & _ & _ & ?); congruence]]|..];
      split; try done; try (intros (? & [= <-] & _ & _ & ?); congruence). by exists e.
  - intros later p' u' now' Hlater.
    assert (Hgone : entries (challenge_verify s ch p u now).2 !! ch = None) by apply lookup_delete_eq.
    revert Hgone. generalize (challenge_verify s ch p u now).2. clear -Hlater.
    induction Hlater as [|ev later Hev _ IH]; intros q Hq; [unfold challenge_verify; cbn; by rewrite Hq|].
    by apply IH, challenge_step_absent.
Qed.
End Challenges.

(** ** A concrete library *)

Module ToyCeremony.
Import Sample.

(** Every payload is the same client data, an attestation object is its
    authenticator data, the key type is the last byte of a key, and every
    signature verifies. *)
#[local] Instance toy_webauthn : WebAuthnLibs := {|
  json_client_data := λ _, inl {| typ := "webauthn.get"; challenge := "AQ"; origin := "https://a.org"; cross_origin := false |};
  cbor_from_reader := λ b, inl (VMap [(VText "fmt", VText "none"); (VText "attStmt", VMap []); (VText "authData", VBytes b)]);
  cose_from_slice := λ b,
    match b with
    | [_; _; k]%Z => inl {| kty := Assigned k; alg := Some (Assigned ES256);
        params := [(LabelInt Crv, VInteger P_256); (LabelInt ParamX, VBytes [1%Z]); (LabelInt ParamY, VBytes [2%Z])] |}
    | _ => inr {| shown := "bad"; debugged := "Bad" |}
    end;
  VerifyingKey := list Z; Signature := list Z;
  from_sec1_bytes := inl; signature_from_der := inl; ecdsa_verify := λ _ _ _, inl tt;
  sha256 := λ _, replicate 32 7%Z; debug_string := λ s, s; debug_label := λ _, "label" |}.

Definition try_sample : Attempt := {|
  t_credential_id := [5; 6]%Z; t_authenticator_data := sample; t_signature := []; t_client_data_json := [];
  t_expectations := {| e_rp_id := "a.org"; e_challenge_b64 := "AQ=="; e_allowed_origins := ["HTTPS://A.org"];
                       e_require_user_verification := false |} |}.

(** Accepted once, at any stored counter below its own, and never again. *)
Lemma assertion_replay_refused_witness :
  attempt [5; 6]%Z [0xa1; 1; 2]%Z 0 try_sample =
    Ok {| o_sign_count := 9; o_user_verified := false; o_backup_state := false |} ∧
  is_ok (attempt [5; 6]%Z [0xa1; 1; 2]%Z (attempts_run [5; 6]%Z [0xa1; 1; 2]%Z 9 [try_sample]) try_sample) = false.
Proof.
  assert (Ha : attempt [5; 6]%Z [0xa1; 1; 2]%Z 0 try_sample =
    Ok {| o_sign_count := 9; o_user_verified := false; o_backup_state := false |}) by by vm_compute.
  split; [exact Ha|]. exact (proj1 (assertion_replay_refused _ _ _ _ _ [try_sample] try_sample Ha ltac:(done) eq_refl)).
Defined.

Definition okp_object : list Z := <[59 := 1%Z]> sample.
Definition no_policy : AttestationPolicy := {| require_user_verification := false; policy_origins := [] |}.
Definition any_client : ClientData := {| typ := ""; challenge := ""; origin := ""; cross_origin := false |}.

Lemma unusable_key_is_registered_witness :
  ∃ out, verify_attestation_none_with_policy okp_object any_client "a.org" no_policy = Ok out ∧
    ∀ stored rid adb sig cdj e,
      is_ok (verify_assertion (a_credential_id (r_credential out)) (a_public_key_cose (r_credential out)) stored rid adb sig cdj e)
        = false.
Proof.
  eexists. split; [vm_compute; reflexivity|].
  refine (proj2 (unusable_key_is_registered okp_object any_client "a.org" no_policy _ _ _ _ _));
    [vm_compute; reflexivity|vm_compute; reflexivity|done].
Defined.

Lemma challenge_used_once_witness :
  let s := challenge_run id (challenge_store_with_limits 100 2) [(OpIssueChallenge [1%Z] Register (Some "u"), 0%Z)] in
  (challenge_verify s "AQ" Register (Some "u") 50).1 = inl tt ∧
  (challenge_verify (challenge_verify s "AQ" Register (Some "u") 50).2 "AQ" Register (Some "u") 51).1 = inr ChallengeNotFound.
Proof.
  intros s. split; [by vm_compute|].
  exact (proj1 (proj2 (challenge_used_once id 100 2 [(OpIssueChallenge [1%Z] Register (Some "u"), 0%Z)] "AQ" Register (Some "u") 50))
    [] Register (Some "u") 51%Z (List.Forall_nil _)).
Defined.

(** The client data are checked against their own challenge, which still has
    to be base64url: under an origin list a registration whose challenge is
    not is refused. *)
Example own_challenge_is_decoded :
  is_ok (verify_attestation_none_with_policy sample
    {| typ := TYPE_CREATE; challenge := "A"; origin := "https://a.org"; cross_origin := false |} "a.org"
    {| require_user_verification := false; policy_origins := ["https://a.org"] |}) = false ∧
  is_ok (verify_attestation_none_with_policy sample
    {| typ := TYPE_CREATE; challenge := "AQ"; origin := "https://a.org"; cross_origin := false |} "a.org"
    {| require_user_verification := false; policy_origins := ["https://a.org"] |}) = true.
Proof. by vm_compute. Qed.
End ToyCeremony.
