(* ===== verification/Whitelist.v ===== *)
(** * Whitelists: src/src/auth/passport/temporary_whitelist.rs,
    src/src/service/verify/whitelist/network_source.rs,
    previous_credential.rs

    - [WhitelistVerifier]: client sources with an optional expiry;
    - [NetworkSourceVerifier]: address blocks in CIDR notation;
    - [PreviousCredentialVerifier]: the last credential hash of each user.

    An IP address is the number it stands for, of 32 or 128 bits.  The parser
    of IPv6 addresses is a parameter; those of IPv4 addresses and of [u32]
    follow the standard library.  Instants are integers; a method behind a
    lock is one step. *)

From S2P Require Import Prelude Codec.

Inductive IpAddr := V4 (bits : Z) | V6 (bits : Z).
#[export] Instance IpAddr_eq_dec : EqDecision IpAddr.
Proof. solve_decision. Defined.

(** ** Temporary whitelist *)

Inductive ClientSource := Ip (ip : IpAddr) | Mac (address : string).
#[export] Instance ClientSource_eq_dec : EqDecision ClientSource.
Proof. solve_decision. Defined.

Record WhitelistEntry := { source : ClientSource; expires_at : option Z }.
Record WhitelistVerifier := { entries : list WhitelistEntry }.

Definition WhitelistVerifier_new : WhitelistVerifier := {| entries := [] |}.

(** [None] never expires. *)
Definition unexpired_at (now : Z) (expires : option Z) : bool :=
  match expires with
  | Some e => (now <? e)%Z
  | None => true
  end.

Definition is_whitelisted (v : WhitelistVerifier) (src : ClientSource) (now : Z) : bool :=
  existsb (λ e, bool_decide (source e = src) && unexpired_at now (expires_at e)) (entries v).
Definition whitelist_remove (v : WhitelistVerifier) (src : ClientSource) : WhitelistVerifier := {|
  entries := filter (λ e, source e ≠ src) (entries v) |}.
Definition whitelist_add (v : WhitelistVerifier) (src : ClientSource) (ttl : option Z) (now : Z) : WhitelistVerifier := {|
  entries := entries (whitelist_remove v src) ++ [{| source := src; expires_at := (λ d, now + d)%Z <$> ttl |}] |}.
Definition whitelist_cleanup (v : WhitelistVerifier) (now : Z) : nat * WhitelistVerifier :=
  let kept := filter (λ e, unexpired_at now (expires_at e) = true) (entries v) in
  (if length (entries v) =? 0 then 0 else length (entries v) - length kept, {| entries := kept |}).
Definition whitelist_len (v : WhitelistVerifier) : nat := length (entries v).
Definition whitelist_is_empty (v : WhitelistVerifier) : bool := bool_decide (entries v = []).

Inductive whitelist_op :=
  | OpAdd (src : ClientSource) (ttl : option Z)
  | OpRemove (src : ClientSource)
  | OpWhitelistCleanup.
Definition whitelist_step (v : WhitelistVerifier) (ev : whitelist_op * Z) : WhitelistVerifier :=
  match ev.1 with
  | OpAdd src ttl => whitelist_add v src ttl ev.2
  | OpRemove src => whitelist_remove v src
  | OpWhitelistCleanup => (whitelist_cleanup v ev.2).2
  end.
Definition whitelist_run (v : WhitelistVerifier) (evs : list (whitelist_op * Z)) : WhitelistVerifier :=
  foldl whitelist_step v evs.

(** ** Network sources *)

Definition ascii_number (digits : list Ascii.ascii) : option Z :=
  foldl (λ acc c, n ← acc; let d := Ascii.N_of_ascii c in
    if ((48 <=? d) && (d <=? 57))%N then Some (n * 10 + (Z.of_N d - 48))%Z else None) (Some 0%Z) digits.

(** [str::parse::<u32>]: an optional plus sign and at least one digit. *)
Definition parse_u32 (s : list Ascii.ascii) : option Z :=
  let digits := match s with c :: rest => if bool_decide (c = Ascii.ascii_of_N 43) then rest else s | [] => [] end in
  match digits with
  | [] => None
  | _ => n ← ascii_number digits; if (n <? 2 ^ 32)%Z then Some n else None
  end.

(** [str::parse::<Ipv4Addr>]: four numbers below 256, without leading zeros. *)
Definition parse_octet (s : list Ascii.ascii) : option Z :=
  match s with
  | [] => None
  | c :: rest =>
      if bool_decide (c = Ascii.ascii_of_N 48) && negb (bool_decide (rest = [])) then None
      else if 3 <? length s then None
      else n ← ascii_number s; if (n <? 256)%Z then Some n else None
  end.
Definition parse_ipv4 (s : list Ascii.ascii) : option Z :=
  match split_at dot s with
  | [a; b; c; d] =>
      a ← parse_octet a; b ← parse_octet b; c ← parse_octet c; d ← parse_octet d;
      Some (a * 2 ^ 24 + b * 2 ^ 16 + c * 2 ^ 8 + d)%Z
  | _ => None
  end.

Inductive ParsedCidr :=
  | CidrV4 (network mask : Z)
  | CidrV6 (network mask : Z)
  | ExactIp (ip : IpAddr).

(** [!0 << (w - prefix_len)] on [w] bits, and 0 for the empty prefix. *)
Definition mask_of (w prefix_len : Z) : Z :=
  if (prefix_len =? 0)%Z then 0 else Z.shiftl (2 ^ w - 1) (w - prefix_len) `mod` 2 ^ w.

Section Networks.
Context (parse_ipv6 : list Ascii.ascii → option Z).

Definition slash : Ascii.ascii := Ascii.ascii_of_N 47.

Definition parse_cidr (cidr : string) : option ParsedCidr :=
  let text := String.list_ascii_of_string cidr in
  match split_at slash text with
  | [address; prefix] =>
      prefix_len ← parse_u32 prefix;
      match parse_ipv4 address with
      | Some network => if (32 <? prefix_len)%Z then None else Some (CidrV4 network (mask_of 32 prefix_len))
      | None =>
          network ← parse_ipv6 address;
          if (128 <? prefix_len)%Z then None else Some (CidrV6 network (mask_of 128 prefix_len))
      end
  | _ =>
      match parse_ipv4 text with
      | Some v4 => Some (ExactIp (V4 v4))
      | None => (λ v6, ExactIp (V6 v6)) <$> parse_ipv6 text
      end
  end.

Record NetworkSourceVerifier := { allowed_networks : list ParsedCidr }.

Definition NetworkSourceVerifier_new (cidrs : list string) : NetworkSourceVerifier := {|
  allowed_networks := omap parse_cidr cidrs |}.
Definition entry_allows (ip : IpAddr) (entry : ParsedCidr) : bool :=
  match entry, ip with
  | ExactIp a, _ => bool_decide (a = ip)
  | CidrV4 network mask, V4 bits => (Z.land bits mask =? Z.land network mask)%Z
  | CidrV6 network mask, V6 bits => (Z.land bits mask =? Z.land network mask)%Z
  | _, _ => false
  end.
Definition is_allowed (v : NetworkSourceVerifier) (ip : IpAddr) : bool := existsb (entry_allows ip) (allowed_networks v).
Definition allowed_networks_count (v : NetworkSourceVerifier) : nat := length (allowed_networks v).
End Networks.

(** ** Previous credentials *)

Record PreviousCredentialVerifier := { stored : gmap string string }.

Definition PreviousCredentialVerifier_new : PreviousCredentialVerifier := {| stored := ∅ |}.
Definition register_credential (v : PreviousCredentialVerifier) (user_id hash : string) : PreviousCredentialVerifier := {|
  stored := <[user_id := hash]> (stored v) |}.
Definition unregister_credential (v : PreviousCredentialVerifier) (user_id : string) : PreviousCredentialVerifier := {|
  stored := delete user_id (stored v) |}.
Definition verify_previous (v : PreviousCredentialVerifier) (user_id hash : string) : bool :=
  let bytes := default [] (bytes_of <$> stored v !! user_id) in
  constant_time_eq bytes (bytes_of hash) && negb (bool_decide (bytes = [])).

(** ** The whitelist over histories *)

(** What the last addition or removal of a source says of it: nothing, or
    its expiry. *)
Definition last_grant (src : ClientSource) (evs : list (whitelist_op * Z)) : option (option Z) :=
  foldl (λ g ev,
    match ev.1 with
    | OpAdd s ttl => if bool_decide (s = src) then Some ((λ d, ev.2 + d)%Z <$> ttl) else g
    | OpRemove s => if bool_decide (s = src) then None else g
    | OpWhitelistCleanup => g
    end) None evs.

(** The entries of a source, against the last grant, at times up to [now]. *)
Definition entry_of (v : WhitelistVerifier) (src : ClientSource) : list (option Z) :=
  expires_at <$> filter (λ e, source e = src) (entries v).
Definition grant_entries (now : Z) (g : option (option Z)) (l : list (option Z)) : Prop :=
  match g with
  | None => l = []
  | Some x => l = [x] ∨ (l = [] ∧ unexpired_at now x = false)
  end.

Lemma filter_filter_source (v : list WhitelistEntry) (P : WhitelistEntry → Prop) `{∀ e, Decision (P e)} src :
  filter (λ e, source e = src) (filter P v) = filter P (filter (λ e, source e = src) v).
Proof.
  induction v as [|e v IH]; [done|]. rewrite !filter_cons.
  destruct (decide (P e)), (decide (source e = src)); rewrite ?filter_cons, ?decide_True, ?decide_False by done; by rewrite ?IH.
Qed.

Lemma entry_remove (l : list WhitelistEntry) s src :
  filter (λ e, source e = src) (filter (λ e, source e ≠ s) l) = if decide (s = src) then [] else filter (λ e, source e = src) l.
Proof.
  induction l as [|e l IH]; [by destruct (decide _)|]. rewrite filter_cons. destruct (decide (source e ≠ s)) as [Hs|Hs%dec_stable].
  - rewrite !filter_cons, IH. destruct (decide (source e = src)) as [He|], (decide (s = src)); congruence.
  - rewrite IH, filter_cons. destruct (decide (source e = src)), (decide (s = src)); congruence.
Qed.

Lemma unexpired_mono now now' x : (now ≤ now')%Z → unexpired_at now x = false → unexpired_at now' x = false.
Proof. destruct x as [e|]; [|done]. cbn. rewrite !Z.ltb_ge. lia. Qed.

Lemma whitelist_run_entries evs src now : Forall (λ ev, ev.2 ≤ now)%Z evs →
  grant_entries now (last_grant src evs) (entry_of (whitelist_run WhitelistVerifier_new evs) src).
Proof.
  induction evs as [|[op t] evs IH] using rev_ind; [done|]. intros [Hevs Ht]%Forall_app. rewrite Forall_singleton in Ht. cbn in Ht.
  specialize (IH Hevs). unfold last_grant, whitelist_run in *. rewrite !foldl_app. cbn [foldl fst snd].
  set (v := foldl whitelist_step _ evs) in *. set (g := foldl _ None evs) in *. unfold entry_of in *.
  assert (Hremove : ∀ s, filter (λ e, source e = src) (entries (whitelist_remove v s)) =
    if decide (s = src) then [] else filter (λ e, source e = src) (entries v)).
  { intros s. cbn. apply entry_remove. }
  destruct op as [s ttl|s|]; cbn [whitelist_step fst snd].
  - cbn [whitelist_add entries]. rewrite filter_app, Hremove, fmap_app. destruct (decide (s = src)) as [->|Hs].
    + rewrite bool_decide_true by done. rewrite filter_cons_True by done. left. done.
    + rewrite bool_decide_false by done. rewrite filter_cons_False by done. cbn. by rewrite app_nil_r.
  - rewrite Hremove. destruct (decide (s = src)) as [->|Hs]; [by rewrite bool_decide_true|by rewrite bool_decide_false].
  - cbn [whitelist_cleanup snd entries]. rewrite filter_filter_source.
    set (l := filter (λ e, source e = src) (entries v)) in *. destruct g as [x|]; [|by apply fmap_nil_inv in IH as ->].
    destruct IH as [IH|[IH Hx]]; [|right; apply fmap_nil_inv in IH as ->; done].
    destruct l as [|e [|]]; try done. injection IH as <-. destruct (unexpired_at t (expires_at e)) eqn:He.
    + left. by rewrite filter_cons_True.
    + right. rewrite filter_cons_False by congruence. split; [done|]. by eapply unexpired_mono.
Qed.

(** The whitelist.  Whatever was added, removed and cleaned up before, a
    source is whitelisted exactly when the last addition of it, if no removal
    came later, never expires or has not expired yet. *)
Theorem whitelisted_iff evs src now : Forall (λ ev, ev.2 ≤ now)%Z evs →
  is_whitelisted (whitelist_run WhitelistVerifier_new evs) src now =
    match last_grant src evs with
    | Some x => unexpired_at now x
    | None => false
    end.
Proof.
  intros Hevs. pose proof (whitelist_run_entries evs src now Hevs) as Hg. unfold is_whitelisted, entry_of in *.
  assert (He : ∀ l, existsb (λ e, bool_decide (source e = src) && unexpired_at now (expires_at e)) l =
    existsb (unexpired_at now) (expires_at <$> filter (λ e, source e = src) l)).
  { clear. induction l as [|e l IH]; [done|]. cbn [existsb]. rewrite filter_cons, IH. case_decide; cbn;
      [by rewrite bool_decide_true|by rewrite bool_decide_false]. }
  rewrite He. destruct (last_grant src evs) as [x|]; cbn in Hg.
  - destruct Hg as [->|[-> ->]]; [|done]. cbn. by rewrite orb_false_r.
  - by rewrite Hg.
Qed.

(** ** Blocks *)

(** Masking keeps the first [p] of [w] bits. *)
Lemma land_mask w p x : (0 ≤ p ≤ w)%Z → (0 ≤ x < 2 ^ w)%Z → Z.land x (mask_of w p) = (x / 2 ^ (w - p) * 2 ^ (w - p))%Z.
Proof.
  intros Hp Hx. unfold mask_of. destruct (Z.eqb_spec p 0) as [->|Hne].
  { rewrite Z.land_0_r, Z.sub_0_r, Z.div_small by lia. lia. }
  set (k := (w - p)%Z). pose proof (Z.pow_pos_nonneg 2 k ltac:(lia) ltac:(lia)).
  pose proof (Z.pow_pos_nonneg 2 p ltac:(lia) ltac:(lia)).
  assert (Hw : (2 ^ w = 2 ^ p * 2 ^ k)%Z) by (rewrite <- Z.pow_add_r by lia; f_equal; lia).
  assert (Hm : (Z.shiftl (2 ^ w - 1) k `mod` 2 ^ w)%Z = Z.shiftl (Z.ones p) k).
  { rewrite !Z.shiftl_mul_pow2, Z.ones_equiv by lia. symmetry. apply (Z.mod_unique_pos _ _ (2 ^ k - 1)); nia. }
  rewrite Hm, <- Z.shiftl_mul_pow2, <- Z.shiftr_div_pow2 by lia.
  transitivity (Z.shiftl (Z.land (Z.shiftr x k) (Z.ones p)) k).
  - apply Z.bits_inj'. intros n Hn. rewrite Z.land_spec. destruct (Z.lt_ge_cases n k) as [Hlt|Hge].
    + rewrite !Z.shiftl_spec_low by lia. apply andb_false_r.
    + rewrite !Z.shiftl_spec, Z.land_spec, Z.shiftr_spec by lia. do 2 f_equal. lia.
  - rewrite Z.land_ones, Z.shiftr_div_pow2 by lia. rewrite Z.mod_small; [done|].
    split; [apply Z.div_pos; lia|]. apply Z.div_lt_upper_bound; lia.
Qed.

Lemma same_block w p x y : (0 ≤ p ≤ w)%Z → (0 ≤ x < 2 ^ w)%Z → (0 ≤ y < 2 ^ w)%Z →
  Z.land x (mask_of w p) = Z.land y (mask_of w p) ↔ (x / 2 ^ (w - p) = y / 2 ^ (w - p))%Z.
Proof.
  intros Hp Hx Hy. rewrite !land_mask by done. pose proof (Z.pow_pos_nonneg 2 (w - p) ltac:(lia) ltac:(lia)). split; [nia|by intros ->].
Qed.

Lemma ascii_number_nonneg l n : ascii_number l = Some n → (0 ≤ n)%Z.
Proof.
  unfold ascii_number. assert (Hgen : ∀ acc, (∀ a, acc = Some a → 0 ≤ a)%Z → ∀ n,
    foldl (λ acc c, n ← acc; let d := Ascii.N_of_ascii c in
      if ((48 <=? d) && (d <=? 57))%N then Some (n * 10 + (Z.of_N d - 48))%Z else None) acc l = Some n → (0 ≤ n)%Z).
  { induction l as [|c l IH]; intros acc Hacc m; [by apply Hacc|]. cbn [foldl]. apply IH. intros a.
    destruct acc as [b|]; [|done]. cbn. specialize (Hacc b eq_refl).
    destruct (N.leb_spec 48 (Ascii.N_of_ascii c)); [|done]. destruct (N.leb_spec (Ascii.N_of_ascii c) 57); [|done]. cbn. intros [= <-]. lia. }
  apply Hgen. intros a [= <-]. lia.
Qed.

Lemma parse_octet_range s n : parse_octet s = Some n → (0 ≤ n < 256)%Z.
Proof.
  unfold parse_octet. destruct s as [|c s]; [done|]. destruct (_ && _); [done|]. destruct (3 <? _); [done|].
  intros (m & Hm & Hn)%bind_Some. apply ascii_number_nonneg in Hm. destruct (Z.ltb_spec m 256); [|done]. injection Hn as <-. lia.
Qed.
Lemma parse_ipv4_range s n : parse_ipv4 s = Some n → (0 ≤ n < 2 ^ 32)%Z.
Proof.
  unfold parse_ipv4. destruct (split_at dot s) as [|a [|b [|c [|d []]]]]; try done.
  intros (na & Ha%parse_octet_range & (nb & Hb%parse_octet_range & (nc & Hc%parse_octet_range & (nd & Hd%parse_octet_range & [= <-])%bind_Some)%bind_Some)%bind_Some)%bind_Some.
  lia.
Qed.
Lemma parse_u32_range s n : parse_u32 s = Some n → (0 ≤ n < 2 ^ 32)%Z.
Proof.
  unfold parse_u32. destruct (match s with [] => [] | _ => _ end); [done|]. intros (m & Hm & Hn)%bind_Some.
  apply ascii_number_nonneg in Hm. destruct (Z.ltb_spec m (2 ^ 32)); [|done]. injection Hn as <-. lia.
Qed.

Section NetworkSpec.
Context (parse_ipv6 : list Ascii.ascii → option Z).

(** What an entry in CIDR notation says: an address, or the addresses that
    share the first [p] bits of one. *)
Definition cidr_contains (cidr : string) (ip : IpAddr) : Prop :=
  let text := String.list_ascii_of_string cidr in
  match split_at slash text with
  | [address; prefix] =>
      ∃ p, parse_u32 prefix = Some p ∧
        match parse_ipv4 address, ip with
        | Some n, V4 bits => (p ≤ 32 ∧ bits / 2 ^ (32 - p) = n / 2 ^ (32 - p))%Z
        | None, V6 bits => ∃ n, parse_ipv6 address = Some n ∧ (p ≤ 128 ∧ bits / 2 ^ (128 - p) = n / 2 ^ (128 - p))%Z
        | _, _ => False
        end
  | _ => match parse_ipv4 text with Some n => ip = V4 n | None => ∃ n, parse_ipv6 text = Some n ∧ ip = V6 n end
  end.
Definition ip_ok (ip : IpAddr) : Prop := match ip with V4 b => 0 ≤ b < 2 ^ 32 | V6 b => 0 ≤ b < 2 ^ 128 end%Z.

Lemma cidr_entry cidr ip : (∀ s n, parse_ipv6 s = Some n → 0 ≤ n < 2 ^ 128)%Z → ip_ok ip →
  cidr_contains cidr ip ↔ ∃ entry, parse_cidr parse_ipv6 cidr = Some entry ∧ entry_allows ip entry = true.
Proof.
  intros H6 Hip. unfold cidr_contains, parse_cidr. set (text := String.list_ascii_of_string cidr).
  assert (Hexact : (match parse_ipv4 text with Some n => ip = V4 n | None => ∃ n, parse_ipv6 text = Some n ∧ ip = V6 n end) ↔
    ∃ entry, (match parse_ipv4 text with Some v4 => Some (ExactIp (V4 v4)) | None => (λ v6, ExactIp (V6 v6)) <$> parse_ipv6 text end) = Some entry ∧
      entry_allows ip entry = true).
  { destruct (parse_ipv4 text) as [n|].
    - split; [intros ->; eexists; split; [done|by apply bool_decide_eq_true]|]. by intros (? & [= <-] & <-%bool_decide_eq_true).
    - split; [intros (n & -> & ->); eexists; split; [done|by apply bool_decide_eq_true]|].
      intros (e & (n & -> & ->)%fmap_Some & <-%bool_decide_eq_true). by exists n. }
  destruct (split_at slash text) as [|address [|prefix [|]]]; [exact Hexact|exact Hexact| |exact Hexact].
  destruct (parse_u32 prefix) as [p|] eqn:Hp; [|split; [by intros (? & ? & _)|by intros (? & ? & _)]].
  apply parse_u32_range in Hp. cbn [mbind option_bind]. destruct (parse_ipv4 address) as [n|] eqn:Hn.
  - apply parse_ipv4_range in Hn. destruct (Z.ltb_spec 32 p) as [Hlt|Hle]; split.
    + intros (? & [= <-] & Hc). destruct ip; [lia|done].
    + by intros (? & ? & _).
    + intros (? & [= <-] & Hc). destruct ip as [bits|]; [|done]. eexists. split; [done|]. cbn. apply Z.eqb_eq.
      apply same_block; [lia|done|done|apply Hc].
    + intros (? & [= <-] & Hc). exists p. split; [done|]. destruct ip as [bits|]; [|done]. cbn in Hc. apply Z.eqb_eq in Hc.
      split; [done|]. by apply same_block in Hc; [|lia|done..].
  - destruct (parse_ipv6 address) as [n|] eqn:Hn6; cycle 1.
    { split; [intros (? & _ & Hc); destruct ip; [done|by destruct Hc as (? & ? & _)]|by intros (? & ? & _)]. }
    apply H6 in Hn6. cbn [mbind option_bind]. destruct (Z.ltb_spec 128 p) as [Hlt|Hle]; split.
    + intros (? & [= <-] & Hc). destruct ip; [done|]. destruct Hc as (? & _ & ? & _). lia.
    + by intros (? & ? & _).
    + intros (? & [= <-] & Hc). destruct ip as [|bits]; [done|]. destruct Hc as (? & [= <-] & _ & Hc). eexists. split; [done|]. cbn. apply Z.eqb_eq.
      by apply same_block; [lia|done..|].
    + intros (? & [= <-] & Hc). exists p. split; [done|]. destruct ip as [|bits]; [done|]. cbn in Hc. apply Z.eqb_eq in Hc.
      exists n. split; [done|]. split; [done|]. by apply same_block in Hc; [|lia|done..].
Qed.

(** Network sources.  An address is allowed exactly when one of the
    configured strings, read as an address or as a block in CIDR notation,
    contains it: for a block, when it shares the first bits of the network,
    as many as the prefix says, 0 and the full width included.  Strings that
    do not parse allow nothing, and neither family matches the other. *)
Theorem network_allows_iff cidrs ip :
  (∀ s n, parse_ipv6 s = Some n → 0 ≤ n < 2 ^ 128)%Z → ip_ok ip →
  is_allowed (NetworkSourceVerifier_new parse_ipv6 cidrs) ip = true ↔ ∃ cidr, cidr ∈ cidrs ∧ cidr_contains cidr ip.
Proof.
  intros H6 Hip. unfold is_allowed. rewrite existsb_elem. cbn [allowed_networks NetworkSourceVerifier_new]. split.
  - intros (e & (cidr & Hc & He)%list_elem_of_omap & Ha). exists cidr. split; [done|]. apply cidr_entry; [done|done|by exists e].
  - intros (cidr & Hc & (e & He & Ha)%cidr_entry); [|done|done]. exists e. split; [|done]. apply list_elem_of_omap. by exists cidr.
Qed.
End NetworkSpec.

(** ** Previous credentials *)

(** A previous credential is recognised exactly when it is the hash last
    registered for the user, and not empty. *)
Theorem previous_recognised_iff v user_id hash other h :
  (verify_previous v user_id hash = true ↔ stored v !! user_id = Some hash ∧ hash ≠ "") ∧
  (verify_previous (register_credential v user_id h) user_id hash = bool_decide (hash = h ∧ h ≠ "")) ∧
  verify_previous (unregister_credential v user_id) user_id hash = false ∧
  (other ≠ user_id →
   verify_previous (register_credential v user_id h) other hash = verify_previous v other hash ∧
   verify_previous (unregister_credential v user_id) other hash = verify_previous v other hash).
Proof.
  assert (Hinj : ∀ s t, bytes_of s = bytes_of t ↔ s = t).
  { intros s t. unfold bytes_of. split; [|by intros ->]. intros He. apply (inj str_codes). by apply (inj (fmap Z.of_N)) in He. }
  assert (Hempty : ∀ s, bytes_of s = [] ↔ s = "") by (intros s; apply (Hinj s "")).
  assert (Hiff : ∀ v, verify_previous v user_id hash = true ↔ stored v !! user_id = Some hash ∧ hash ≠ "").
  { intros w. unfold verify_previous. rewrite andb_true_iff, constant_time_eq_spec, negb_true_iff, bool_decide_eq_false.
    destruct (stored w !! user_id) as [s|]; cbn [fmap option_fmap option_map default id].
    - rewrite Hinj, Hempty. naive_solver.
    - split; [by intros [_ ?]|by intros [? _]]. }
  split_and!.
  - apply Hiff.
  - apply eq_bool_prop_intro. rewrite !Is_true_true, Hiff, bool_decide_eq_true. cbn. rewrite lookup_insert_eq. naive_solver.
  - destruct (verify_previous _ _ _) eqn:E; [|done]. apply Hiff in E as [E _]. cbn in E. by rewrite lookup_delete_eq in E.
  - intros Hne. unfold verify_previous. cbn. by rewrite lookup_insert_ne, lookup_delete_ne.
Qed.

(** ** Concrete runs *)

Module Runs.
(** [::1] and [fe80::], and nothing else. *)
Definition parse_two (s : list Ascii.ascii) : option Z :=
  let text := String.string_of_list_ascii s in
  if String.eqb text "::1" then Some 1%Z else if String.eqb text "fe80::" then Some (65152 * 2 ^ 112)%Z else None.

Lemma parse_two_range s n : parse_two s = Some n → (0 ≤ n < 2 ^ 128)%Z.
Proof. unfold parse_two. destruct (String.eqb _ _); [by intros [= <-]|]. destruct (String.eqb _ _); [by intros [= <-]|done]. Qed.

Definition home : ClientSource := Ip (V4 3232235777).
Definition log : list (whitelist_op * Z) :=
  [(OpAdd home None, 1); (OpAdd home (Some 10), 5); (OpWhitelistCleanup, 9); (OpRemove (Mac "aa"), 11)]%Z.

Lemma whitelisted_iff_witness :
  is_whitelisted (whitelist_run WhitelistVerifier_new log) home 14 = true ∧
  is_whitelisted (whitelist_run WhitelistVerifier_new log) home 15 = false.
Proof.
  split.
  - rewrite (whitelisted_iff log home 14); [vm_compute; reflexivity|]. repeat constructor; vm_compute; discriminate.
  - rewrite (whitelisted_iff log home 15); [vm_compute; reflexivity|]. repeat constructor; vm_compute; discriminate.
Defined.

Definition configured : list string := ["10.0.0.0/8"; "192.168.1.7"; "fe80::/10"; "10.0.0.0/33"; "nonsense"].

(** 10.255.0.1 is inside the first block, 11.0.0.1 is not. *)
Lemma network_allows_iff_witness :
  is_allowed (NetworkSourceVerifier_new parse_two configured) (V4 184483841) = true ∧
  ¬ ∃ cidr, cidr ∈ configured ∧ cidr_contains parse_two cidr (V4 184549377).
Proof.
  split.
  - apply (network_allows_iff parse_two configured (V4 184483841)); [exact parse_two_range|split; vm_compute; [discriminate|reflexivity]|].
    exists "10.0.0.0/8". split; [by constructor|]. exists 8%Z. split; [reflexivity|]. split; [lia|reflexivity].
  - intros Hc. apply (network_allows_iff parse_two configured (V4 184549377)) in Hc;
      [vm_compute in Hc; discriminate|exact parse_two_range|split; vm_compute; [discriminate|reflexivity]].
Defined.

Example link_local_is_allowed : is_allowed (NetworkSourceVerifier_new parse_two configured) (V6 (65152 * 2 ^ 112 + 5)) = true.
Proof. vm_compute. reflexivity. Qed.
Example three_are_kept : allowed_networks_count (NetworkSourceVerifier_new parse_two configured) = 3.
Proof. vm_compute. reflexivity. Qed.
(** A leading zero is refused in an address and accepted in a prefix. *)
Example zeros : (parse_ipv4 (String.list_ascii_of_string "010.0.0.0"), parse_u32 (String.list_ascii_of_string "+08")) = (None, Some 8%Z).
Proof. reflexivity. Qed.

Lemma previous_recognised_iff_witness :
  verify_previous (register_credential PreviousCredentialVerifier_new "ada" "old") "bob" "old" = false.
Proof.
  destruct (previous_recognised_iff PreviousCredentialVerifier_new "ada" "old" "bob" "old") as (_ & _ & _ & Hother).
  destruct (Hother ltac:(discriminate)) as [H _]. rewrite H. reflexivity.
Defined.
End Runs.
