(* ===== verification/Float64.v ===== *)
(** * Binary64 numbers

    The [f64] of Rust is the [spec_float] of the Standard Library at
    precision 53 and exponent 1024.  This file holds the operations the code
    uses and what their proofs need: the order of two numbers is the order of
    their scaled values, and each operation rounds its exact result
    faithfully - the result lies on the same side of every representable
    bound as the exact value. *)

From Stdlib Require Import Floats.SpecFloat.
From S2P Require Import Prelude.

Abbreviation f64 := spec_float (only parsing).

(** ** The operations *)

Definition f64_add (a b : f64) : f64 := SFadd 53 1024 a b.
Definition f64_sub (a b : f64) : f64 := SFsub 53 1024 a b.
Definition f64_mul (a b : f64) : f64 := SFmul 53 1024 a b.
Definition f64_div (a b : f64) : f64 := SFdiv 53 1024 a b.
Definition f64_sqrt (a : f64) : f64 := SFsqrt 53 1024 a.
Definition f64_abs (a : f64) : f64 := SFabs a.

(** An integer [as f64]: the nearest number, ties to even. *)
Definition f64_of_Z (n : Z) : f64 := binary_normalize 53 1024 n 0 false.
Definition f64_of_nat (n : nat) : f64 := f64_of_Z (Z.of_nat n).

(** The literal [num / den]: the correctly rounded quotient of two integers
    that are numbers themselves. *)
Definition lit (num den : Z) : f64 := f64_div (f64_of_Z num) (f64_of_Z den).
Definition f64_zero : f64 := S754_zero false.
Definition f64_one : f64 := S754_finite false 4503599627370496 (-52).

(** [max] and [min]: a NaN gives way to the other argument. *)
Definition f64_max (a b : f64) : f64 :=
  if SFeqb a a then if SFltb a b then b else a else b.
Definition f64_min (a b : f64) : f64 :=
  if SFeqb a a then if SFltb b a then b else a else b.

(** [clamp]: a NaN stays. *)
Definition f64_clamp (x lo hi : f64) : f64 :=
  let x := if SFltb x lo then lo else x in
  if SFltb hi x then hi else x.

(** ** Finite numbers and their scaled values *)

Definition is_finite (x : f64) : bool :=
  match x with
  | S754_zero _ => true
  | S754_finite _ m e => bounded 53 1024 m e
  | _ => false
  end.

(** Every finite number is a multiple of 2 to the -1074. *)
Definition K : Z := 1074.
Definition sv (x : f64) : Z :=
  match x with
  | S754_finite s m e => cond_Zopp s (Z.pos m * 2 ^ (e + K))
  | _ => 0
  end.

(** A number of the unit interval. *)
Definition in_unit (x : f64) : Prop :=
  is_finite x = true ∧ SFleb f64_zero x = true ∧ SFleb x f64_one = true.

Lemma pow_pos_add (a b : Z) : (0 ≤ a)%Z → (0 ≤ b)%Z → (2 ^ (a + b) = 2 ^ a * 2 ^ b)%Z.
Proof. intros. by rewrite Z.pow_add_r. Qed.

Lemma pow_gt (a : Z) : (0 ≤ a → 0 < 2 ^ a)%Z.
Proof. intros. apply Z.pow_pos_nonneg; lia. Qed.

Lemma digits_bounds p :
  (2 ^ (Z.pos (digits2_pos p) - 1) ≤ Z.pos p < 2 ^ Z.pos (digits2_pos p))%Z.
Proof.
  induction p as [p IH|p IH|]; simpl digits2_pos; [| |done];
    rewrite Pos2Z.inj_succ; replace (Z.succ (Z.pos (digits2_pos p)) - 1)%Z with (1 + (Z.pos (digits2_pos p) - 1))%Z by lia;
    rewrite Z.pow_succ_r, pow_pos_add by lia; lia.
Qed.

Lemma digits_lt (m k : Z) : (0 ≤ m)%Z → (0 ≤ k)%Z → (Zdigits2 m ≤ k ↔ m < 2 ^ k)%Z.
Proof.
  intros Hm Hk. pose proof (pow_gt k Hk). destruct m as [|p|p]; simpl; [lia| |lia].
  pose proof (digits_bounds p) as [Hlo Hhi]. split.
  - intros Hd. eapply Z.lt_le_trans; [exact Hhi|]. by apply Z.pow_le_mono_r.
  - intros Hp. assert (2 ^ (Z.pos (digits2_pos p) - 1) < 2 ^ k)%Z as Hlt by lia.
    apply Z.pow_lt_mono_r_iff in Hlt; lia.
Qed.

Lemma digits_ge (m k : Z) : (0 < m)%Z → (0 ≤ k)%Z → (k < Zdigits2 m ↔ 2 ^ k ≤ m)%Z.
Proof. intros. pose proof (digits_lt m k). lia. Qed.

(** ** The order is the order of the scaled values *)

Lemma canonical_bounds m e : canonical_mantissa 53 1024 m e = true →
  (-1074 ≤ e)%Z ∧ (Z.pos m < 2 ^ 53)%Z ∧ (e = (-1074)%Z ∨ (2 ^ 52 ≤ Z.pos m)%Z).
Proof.
  unfold canonical_mantissa, fexp, emin. intros H%Z.eqb_eq.
  pose proof (digits_lt (Z.pos m) 53 ltac:(lia) ltac:(lia)).
  pose proof (digits_ge (Z.pos m) 52 ltac:(lia) ltac:(lia)). simpl Zdigits2 in *. lia.
Qed.

(** At the larger exponent a canonical number is the larger one. *)
Lemma canonical_exponent_lt m1 e1 m2 e2 :
  canonical_mantissa 53 1024 m1 e1 = true → canonical_mantissa 53 1024 m2 e2 = true →
  (e1 < e2)%Z → (Z.pos m1 * 2 ^ (e1 + K) < Z.pos m2 * 2 ^ (e2 + K))%Z.
Proof.
  intros (He1 & Hm1 & _)%canonical_bounds (He2 & _ & [->|Hm2])%canonical_bounds Hlt; [lia|].
  replace (e2 + K)%Z with ((e1 + K) + (1 + (e2 - e1 - 1)))%Z by lia.
  unfold K. rewrite (pow_pos_add (e1 + 1074)), (pow_pos_add 1) by lia.
  pose proof (pow_gt (e1 + 1074) ltac:(lia)). pose proof (pow_gt (e2 - e1 - 1) ltac:(lia)).
  apply Z.lt_le_trans with (2 ^ 53 * 2 ^ (e1 + 1074))%Z; [nia|].
  assert (2 ^ 52 ≤ Z.pos m2 * 2 ^ (e2 - e1 - 1))%Z by nia. change (2 ^ 1)%Z with 2%Z.
  replace (Z.pos m2 * (2 ^ (e1 + 1074) * (2 * 2 ^ (e2 - e1 - 1))))%Z
    with (Z.pos m2 * 2 ^ (e2 - e1 - 1) * 2 * 2 ^ (e1 + 1074))%Z by lia.
  apply Z.mul_le_mono_nonneg_r; lia.
Qed.

Lemma canonical_compare m1 e1 m2 e2 :
  canonical_mantissa 53 1024 m1 e1 = true → canonical_mantissa 53 1024 m2 e2 = true →
  match (e1 ?= e2)%Z with Lt => Lt | Eq => (m1 ?= m2)%positive | Gt => Gt end =
  (Z.pos m1 * 2 ^ (e1 + K) ?= Z.pos m2 * 2 ^ (e2 + K))%Z.
Proof.
  intros H1 H2. destruct (Z.compare_spec e1 e2) as [->|Hlt|Hlt].
  - pose proof (canonical_bounds _ _ H2) as (He & _). unfold K.
    pose proof (pow_gt (e2 + 1074) ltac:(lia)).
    change (m1 ?= m2)%positive with (Z.pos m1 ?= Z.pos m2)%Z.
    by rewrite <- Zmult_compare_compat_r by lia.
  - symmetry. apply Z.compare_lt_iff. by apply canonical_exponent_lt.
  - symmetry. apply Z.compare_gt_iff. by apply canonical_exponent_lt.
Qed.

Lemma sv_pos m e : canonical_mantissa 53 1024 m e = true → (0 < Z.pos m * 2 ^ (e + K))%Z.
Proof.
  intros (He & _)%canonical_bounds. unfold K. pose proof (pow_gt (e + 1074) ltac:(lia)). lia.
Qed.

Lemma is_finite_canonical s m e : is_finite (S754_finite s m e) = true →
  canonical_mantissa 53 1024 m e = true ∧ (e ≤ 971)%Z.
Proof. simpl. unfold bounded. rewrite andb_true_iff, Z.leb_le. done. Qed.

Lemma compare_sv x y : is_finite x = true → is_finite y = true →
  SFcompare x y = Some (sv x ?= sv y)%Z.
Proof.
  destruct x as [sx|sx| |sx mx ex], y as [sy|sy| |sy my ey]; try done; intros Hx Hy; cbn [sv SFcompare];
    repeat match goal with H : is_finite _ = true |- _ => apply is_finite_canonical in H as [H _] end.
  - apply sv_pos in Hy. destruct sy; cbn [cond_Zopp]; f_equal; symmetry; [apply Z.compare_gt_iff|apply Z.compare_lt_iff]; lia.
  - apply sv_pos in Hx. destruct sx; cbn [cond_Zopp]; f_equal; symmetry; [apply Z.compare_lt_iff|apply Z.compare_gt_iff]; lia.
  - pose proof (canonical_compare _ _ _ _ Hx Hy) as Hc. apply sv_pos in Hx, Hy.
    destruct sx, sy; cbn [cond_Zopp]; f_equal.
    + rewrite (Z.compare_opp (Z.pos mx * _)), (Z.compare_antisym (Z.pos mx * _)), <- Hc.
      change (Pos.compare_cont Eq mx my) with (mx ?= my)%positive. by destruct (ex ?= ey)%Z.
    + symmetry. apply Z.compare_lt_iff. lia.
    + symmetry. apply Z.compare_gt_iff. lia.
    + exact Hc.
Qed.

Lemma leb_sv x y : is_finite x = true → is_finite y = true → SFleb x y = (sv x <=? sv y)%Z.
Proof. intros. unfold SFleb. rewrite compare_sv by done. unfold Z.leb. by destruct (_ ?= _)%Z. Qed.
Lemma ltb_sv x y : is_finite x = true → is_finite y = true → SFltb x y = (sv x <? sv y)%Z.
Proof. intros. unfold SFltb. rewrite compare_sv by done. unfold Z.ltb. by destruct (_ ?= _)%Z. Qed.
Lemma eqb_refl x : is_finite x = true → SFeqb x x = true.
Proof. intros. unfold SFeqb. by rewrite compare_sv, Z.compare_refl. Qed.

Definition unit_sv : Z := 2 ^ K.
Lemma sv_one : sv f64_one = unit_sv. Proof. by vm_compute. Qed.
Lemma one_finite : is_finite f64_one = true. Proof. done. Qed.

Lemma in_unit_sv x : in_unit x ↔ is_finite x = true ∧ (0 ≤ sv x ≤ unit_sv)%Z.
Proof.
  unfold in_unit. split; intros (Hf & H).
  - rewrite !leb_sv, sv_one in H by done. rewrite !Z.leb_le in H. simpl in H. split; [done|lia].
  - rewrite !leb_sv, sv_one by done. rewrite !Z.leb_le. simpl. split_and!; [done|lia|lia].
Qed.

(** ** Rounding

    [binary_round_aux] shifts to the exponent of the result, rounds to the
    nearest integer, and renormalises. *)

Definition exact (r : shr_record) : Prop := shr_r r = false ∧ shr_s r = false.

Lemma shr_1_spec r : (0 ≤ shr_m r)%Z →
  shr_m (shr_1 r) = (shr_m r / 2)%Z ∧ (exact r → (2 | shr_m r)%Z → exact (shr_1 r)).
Proof.
  unfold exact. destruct r as [[|[p|p|]|p] r s]; simpl; intros H; try lia.
  - split; [done|]. by intros [-> ->].
  - split; [apply Z.div_unique with 1%Z; lia|]. intros _ [q Hq]. lia.
  - split; [apply Z.div_unique with 0%Z; lia|]. by intros [-> ->].
  - split; [done|]. intros _ [q Hq]. lia.
Qed.

(** A shift by one amount and then by another. *)
Lemma shr_compose n q r1 r2 r3 : (0 ≤ shr_m r1)%Z → (0 < n)%Z → (0 < q)%Z →
  shr_m r2 = (shr_m r1 / n)%Z ∧ (exact r1 → (n | shr_m r1)%Z → exact r2) →
  shr_m r3 = (shr_m r2 / q)%Z ∧ (exact r2 → (q | shr_m r2)%Z → exact r3) →
  shr_m r3 = (shr_m r1 / (n * q))%Z ∧ (exact r1 → (n * q | shr_m r1)%Z → exact r3).
Proof.
  intros H1 Hn Hq [Hm2 He2] [Hm3 He3]. split; [by rewrite Hm3, Hm2, Z.div_div by lia|].
  intros Hex [a Ha]. apply He3; [apply He2; [done|exists (a * q)%Z; lia]|].
  exists a. rewrite Hm2, Ha. rewrite (Z.mul_comm n q), Z.mul_assoc. apply Z.div_mul. lia.
Qed.

Lemma iter_shr_1 p r : (0 ≤ shr_m r)%Z →
  let r' := SpecFloat.iter_pos shr_1 p r in
  shr_m r' = (shr_m r / 2 ^ Z.pos p)%Z ∧ (exact r → (2 ^ Z.pos p | shr_m r)%Z → exact r').
Proof.
  revert r. induction p as [p IH|p IH|]; intros r Hr; simpl SpecFloat.iter_pos; cbv zeta in *.
  - pose proof (shr_1_spec r Hr) as H1. pose proof (pow_gt (Z.pos p) ltac:(lia)).
    assert (0 ≤ shr_m (shr_1 r))%Z by (rewrite (proj1 H1); apply Z.div_pos; lia).
    pose proof (IH (shr_1 r) ltac:(done)) as H2.
    assert (0 ≤ shr_m (SpecFloat.iter_pos shr_1 p (shr_1 r)))%Z by (rewrite (proj1 H2); apply Z.div_pos; lia).
    replace (2 ^ Z.pos p~1)%Z with (2 * (2 ^ Z.pos p * 2 ^ Z.pos p))%Z
      by (rewrite Pos2Z.inj_xI, <- Z.pow_add_r, <- Z.pow_succ_r by lia; f_equal; lia).
    eapply shr_compose; [done|lia|nia|exact H1|]. eapply shr_compose; [done|lia|lia|exact H2|]. by apply IH.
  - pose proof (IH r Hr) as H1. pose proof (pow_gt (Z.pos p) ltac:(lia)).
    assert (0 ≤ shr_m (SpecFloat.iter_pos shr_1 p r))%Z by (rewrite (proj1 H1); apply Z.div_pos; lia).
    replace (2 ^ Z.pos p~0)%Z with (2 ^ Z.pos p * 2 ^ Z.pos p)%Z
      by (rewrite Pos2Z.inj_xO, <- Z.pow_add_r by lia; f_equal; lia).
    eapply shr_compose; [done|lia|lia|exact H1|]. by apply IH.
  - by apply shr_1_spec.
Qed.

Lemma shr_spec r e n : (0 ≤ shr_m r)%Z →
  let '(r', e') := shr r e n in let k := Z.max n 0 in
  e' = (e + k)%Z ∧ shr_m r' = (shr_m r / 2 ^ k)%Z ∧ (exact r → (2 ^ k | shr_m r)%Z → exact r').
Proof.
  intros Hr. destruct n as [|p|p]; simpl; try (rewrite Z.div_1_r; split_and!; [lia|done|done]).
  split; [done|]. by apply (iter_shr_1 p r).
Qed.

Lemma round_spec r :
  let m := round_nearest_even (shr_m r) (loc_of_shr_record r) in
  m = shr_m r ∨ (m = shr_m r + 1)%Z ∧ ¬ exact r.
Proof.
  unfold exact. destruct r as [m [] []]; simpl; try destruct (Z.even m); auto; right; split; naive_solver.
Qed.

Lemma shr_fexp_aligned m e l : (0 ≤ m)%Z → (e ≤ fexp 53 1024 (Zdigits2 m + e))%Z →
  let e1 := fexp 53 1024 (Zdigits2 m + e) in
  ∃ r, shr_fexp 53 1024 m e l = (r, e1) ∧ shr_m r = (m / 2 ^ (e1 - e))%Z ∧
    (l = loc_Exact → (2 ^ (e1 - e) | m)%Z → exact r).
Proof.
  intros Hm Hle e1. unfold shr_fexp. fold e1.
  assert (Hrec : shr_m (shr_record_of_loc m l) = m) by (by destruct l as [|[]]).
  pose proof (shr_spec (shr_record_of_loc m l) e (e1 - e)) as Hspec. rewrite Hrec in Hspec.
  destruct (shr _ e (e1 - e)) as [r e']. destruct (Hspec Hm) as (-> & Hr & Hex). exists r.
  replace (Z.max (e1 - e) 0) with (e1 - e)%Z in * by lia. split_and!; [f_equal; lia|done|].
  intros ->. by apply Hex.
Qed.

(** The second shift only carries: 2 to the 53 becomes 2 to the 52 at the
    next exponent. *)
Definition renormalized (m e : Z) : Z * Z :=
  if (m =? 2 ^ 53)%Z then ((2 ^ 52)%Z, (e + 1)%Z) else (m, e).

Lemma shr_fexp_renormalize m e : (0 ≤ m ≤ 2 ^ 53)%Z → (-1074 ≤ e)%Z →
  let '(r, e') := shr_fexp 53 1024 m e loc_Exact in (shr_m r, e') = renormalized m e.
Proof.
  intros Hm He. unfold renormalized. destruct (Z.eqb_spec m (2 ^ 53)) as [->|Hne].
  - unfold shr_fexp. replace (fexp 53 1024 (Zdigits2 (2 ^ 53) + e) - e)%Z with 1%Z; [done|].
    change (Zdigits2 (2 ^ 53)) with 54%Z. unfold fexp, emin. lia.
  - assert (Hd : (Zdigits2 m ≤ 53)%Z) by (apply digits_lt; lia).
    unfold shr_fexp. assert (fexp 53 1024 (Zdigits2 m + e) - e ≤ 0)%Z as Hn by (unfold fexp, emin; lia).
    destruct (fexp 53 1024 (Zdigits2 m + e) - e)%Z; [done|lia|done].
Qed.

(** The number [m * 2 ^ e] with [m] at most 2 to the 53. *)
Definition pack (m e : Z) : f64 :=
  let '(m, e) := renormalized m e in
  match m with
  | Z.pos p => if (e <=? 971)%Z then S754_finite false p e else S754_infinity false
  | _ => S754_zero false
  end.

(** What the first shift and the rounding make of [m * 2 ^ e]. *)
Lemma round_aux_pack m e l : (0 ≤ m)%Z → (e ≤ fexp 53 1024 (Zdigits2 m + e))%Z →
  let e1 := fexp 53 1024 (Zdigits2 m + e) in let n := (e1 - e)%Z in
  ∃ m2, binary_round_aux 53 1024 false m e l = pack m2 e1 ∧ (0 ≤ m2 ≤ 2 ^ 53)%Z ∧
    (m2 = m / 2 ^ n ∨ m2 = m / 2 ^ n + 1 ∧ (l = loc_Exact → ¬ (2 ^ n | m)))%Z ∧
    (e1 = -1074 ∨ 2 ^ 52 ≤ m / 2 ^ n)%Z.
Proof.
  intros Hm Hle e1 n. assert (He1 : (-1074 ≤ e1)%Z) by (unfold e1, fexp, emin; lia).
  destruct (shr_fexp_aligned m e l Hm Hle) as (r & Hshr & Hr & Hex). fold e1 in Hshr, Hr, Hex. fold n in Hr, Hex.
  assert (0 ≤ n)%Z by (unfold n; lia). pose proof (pow_gt n ltac:(lia)) as Hpow.
  assert (Hd : (Zdigits2 m ≤ n + 53)%Z) by (unfold n, e1, fexp, emin; lia).
  assert (Hlt : (m < 2 ^ n * 2 ^ 53)%Z) by (rewrite <- pow_pos_add by lia; by apply digits_lt; lia).
  assert (Hq : (0 ≤ m / 2 ^ n < 2 ^ 53)%Z).
  { split; [apply Z.div_pos; lia|]. apply Z.div_lt_upper_bound; lia. }
  assert (Hbig : (e1 = -1074 ∨ 2 ^ 52 ≤ m / 2 ^ n)%Z).
  { destruct (decide (e1 = (-1074)%Z)) as [?|Hne]; [by left|right]. apply Z.div_le_lower_bound; [lia|].
    assert (Hde : (Zdigits2 m = n + 53)%Z) by (revert Hne; unfold n, e1, fexp, emin; lia).
    assert (0 < m)%Z by (destruct m; simpl in Hde; lia).
    rewrite <- pow_pos_add by lia. apply digits_ge; lia. }
  set (m2 := round_nearest_even (shr_m r) (loc_of_shr_record r)).
  assert (Hm2 : (m2 = m / 2 ^ n ∨ m2 = m / 2 ^ n + 1 ∧ (l = loc_Exact → ¬ (2 ^ n | m)))%Z).
  { destruct (round_spec r) as [Hrd|[Hrd Hne]]; fold m2 in Hrd; rewrite Hr in Hrd; [by left|right].
    split; [done|]. intros ? Hdiv. apply Hne. by apply Hex. }
  exists m2. split_and!; [|lia|lia|done|done].
  unfold binary_round_aux. rewrite Hshr. fold m2.
  pose proof (shr_fexp_renormalize m2 e1 ltac:(lia) He1) as Hrn.
  destruct (shr_fexp 53 1024 m2 e1 loc_Exact) as [r2 e2]. unfold pack. rewrite <- Hrn.
  destruct (shr_m r2) eqn:Hm3; try done. unfold renormalized in Hrn. case_match; simplify_eq; lia.
Qed.

Lemma bounds_canonical m e : (-1074 ≤ e)%Z → (Z.pos m < 2 ^ 53)%Z →
  (e = (-1074)%Z ∨ (2 ^ 52 ≤ Z.pos m)%Z) → canonical_mantissa 53 1024 m e = true.
Proof.
  intros He Hm Hor. unfold canonical_mantissa, fexp, emin. apply Z.eqb_eq.
  pose proof (digits_lt (Z.pos m) 53 ltac:(lia) ltac:(lia)).
  pose proof (digits_ge (Z.pos m) 52 ltac:(lia) ltac:(lia)). simpl Zdigits2 in *. lia.
Qed.

Lemma pack_spec S m e : (1074 ≤ S)%Z → (0 ≤ m ≤ 2 ^ 53)%Z → (-1074 ≤ e)%Z → (e = -1074 ∨ 2 ^ 52 ≤ m)%Z →
  (m = 0%Z ∧ pack m e = f64_zero) ∨
  ∃ p E, canonical_mantissa 53 1024 p E = true ∧ (Z.pos p * 2 ^ (E + S) = m * 2 ^ (e + S))%Z ∧
    pack m e = if (E <=? 971)%Z then S754_finite false p E else S754_infinity false.
Proof.
  intros HS Hm He Hor. unfold pack, renormalized. destruct (Z.eqb_spec m (2 ^ 53)) as [->|Hne].
  - right. exists (2 ^ 52)%positive, (e + 1)%Z. split_and!; [apply bounds_canonical; lia| |done].
    replace (e + 1 + S)%Z with (1 + (e + S))%Z by lia. rewrite pow_pos_add by lia. lia.
  - destruct m as [|p|p]; [by left|right|lia]. exists p, e. split_and!; [|done|done].
    apply bounds_canonical; lia.
Qed.

(** Rounding does not cross a representable bound. *)
Lemma round_aux_bounds S m e l m2 mb eb :
  (1074 ≤ S)%Z → (0 ≤ m)%Z → (0 ≤ e + S)%Z → (e ≤ fexp 53 1024 (Zdigits2 m + e))%Z →
  canonical_mantissa 53 1024 mb eb = true →
  let e1 := fexp 53 1024 (Zdigits2 m + e) in let n := (e1 - e)%Z in
  (m2 = m / 2 ^ n ∨ m2 = m / 2 ^ n + 1 ∧ (l = loc_Exact → ¬ (2 ^ n | m)))%Z →
  (e1 = -1074 ∨ 2 ^ 52 ≤ m / 2 ^ n)%Z →
  let B := (Z.pos mb * 2 ^ (eb + S))%Z in let v := (m * 2 ^ (e + S))%Z in
  let V := (m2 * 2 ^ (e1 + S))%Z in
  ((v ≤ B → (l = loc_Exact ∨ v < B) → V ≤ B) ∧ (B ≤ v → B ≤ V))%Z.
Proof.
  intros HS Hm HeS Hle Hcan e1 n Hm2 Hbig B v V.
  pose proof (canonical_bounds _ _ Hcan) as (Heb & Hmb & Hmb').
  assert (Hn : (0 ≤ n)%Z) by (unfold n; lia). pose proof (pow_gt n Hn) as Hpow.
  pose proof (pow_gt (e + S) HeS) as Hp1.
  assert (HV : V = (m2 * 2 ^ n * 2 ^ (e + S))%Z).
  { unfold V. replace (e1 + S)%Z with (n + (e + S))%Z by (unfold n; lia). rewrite pow_pos_add by lia. lia. }
  (* at an exponent not above that of the bound, the bound is an integer *)
  assert (Hscale : (e1 ≤ eb)%Z → B = (Z.pos mb * 2 ^ (eb - e1) * 2 ^ n * 2 ^ (e + S))%Z).
  { intros Hb. unfold B. replace (eb + S)%Z with ((eb - e1) + (n + (e + S)))%Z by (unfold n; lia).
    rewrite !pow_pos_add by lia. lia. }
  split.
  - intros HvB Hl. assert (Hexp : (e1 ≤ eb)%Z).
    { unfold e1, fexp, emin. apply Z.max_lub; [|lia].
      destruct (decide (Zdigits2 m + e - 53 ≤ eb)%Z) as [?|Hgt]; [done|exfalso].
      assert (0 < Zdigits2 m)%Z as Hd.
      { assert (0 ≤ Zdigits2 m)%Z by (destruct m; simpl; lia). revert Hle. unfold fexp, emin. lia. }
      pose proof (proj1 (digits_ge m (Zdigits2 m - 1) ltac:(destruct m; simpl in Hd; lia) ltac:(lia)) ltac:(lia)) as Hge.
      assert (2 ^ (53 + (eb + S)) ≤ v)%Z; [|unfold B in HvB; rewrite pow_pos_add in * by lia;
        pose proof (pow_gt (eb + S) ltac:(lia)); nia].
      apply Z.le_trans with (2 ^ (Zdigits2 m - 1 + (e + S)))%Z; [apply Z.pow_le_mono_r; lia|].
      rewrite pow_pos_add by lia. unfold v. apply Z.mul_le_mono_nonneg_r; lia. }
    rewrite HV, (Hscale Hexp). apply Z.mul_le_mono_nonneg_r; [lia|].
    apply Z.mul_le_mono_nonneg_r; [lia|]. set (Bq := (Z.pos mb * 2 ^ (eb - e1))%Z) in *.
    rewrite (Hscale Hexp) in HvB, Hl. unfold v in HvB, Hl. fold Bq in HvB, Hl.
    apply Z.mul_le_mono_pos_r in HvB; [|done]. rewrite <- Z.mul_lt_mono_pos_r in Hl by done.
    assert (Hmq : (m / 2 ^ n ≤ Bq)%Z) by (apply Z.div_le_upper_bound; lia).
    destruct Hm2 as [->|[-> Hdiv]]; [done|].
    assert (m < Bq * 2 ^ n)%Z.
    { destruct Hl as [Hl|Hl]; [|done]. apply Z.le_neq. split; [done|]. intros Heq.
      apply (Hdiv Hl). by exists Bq. }
    assert (m / 2 ^ n < Bq)%Z by (apply Z.div_lt_upper_bound; lia). lia.
  - intros HBv. assert (Hm1 : (m / 2 ^ n ≤ m2)%Z) by lia.
    destruct (Z.le_gt_cases e1 eb) as [Hexp|Hexp].
    + rewrite HV. rewrite (Hscale Hexp) in HBv |- *. apply Z.mul_le_mono_pos_r in HBv; [|done].
      apply Z.mul_le_mono_nonneg_r; [lia|]. apply Z.mul_le_mono_nonneg_r; [lia|].
      etransitivity; [|exact Hm1]. apply Z.div_le_lower_bound; lia.
    + destruct Hbig as [?|Hbig]; [lia|].
      unfold B, V. replace (e1 + S)%Z with (1 + (e1 - eb - 1) + (eb + S))%Z by lia.
      rewrite (pow_pos_add _ (eb + S)), (pow_pos_add 1), Z.mul_assoc by lia.
      apply Z.mul_le_mono_nonneg_r; [pose proof (pow_gt (eb + S)); lia|].
      pose proof (pow_gt (e1 - eb - 1) ltac:(lia)). change (2 ^ 1)%Z with 2%Z.
      apply Z.le_trans with (2 ^ 52 * (2 * 1))%Z; [lia|]. apply Z.mul_le_mono_nonneg; lia.
Qed.

(** [r] is the exact value [v / 2 ^ (K + k)] rounded: a number or an
    infinity, on the same side of every finite number as [v]. *)
Definition well_formed (r : f64) : Prop :=
  match r with
  | S754_nan => False
  | S754_finite _ m e => bounded 53 1024 m e = true
  | _ => True
  end.

Definition rounds (k v : Z) (r : f64) : Prop :=
  well_formed r ∧
  ∀ b, is_finite b = true →
    ((v ≤ sv b * 2 ^ k)%Z → SFleb r b = true) ∧ ((sv b * 2 ^ k ≤ v)%Z → SFleb b r = true).

Lemma rounds_between k v r lo hi : (0 ≤ k)%Z → rounds k v r →
  is_finite lo = true → is_finite hi = true → (sv lo * 2 ^ k ≤ v ≤ sv hi * 2 ^ k)%Z →
  is_finite r = true ∧ (sv lo ≤ sv r ≤ sv hi)%Z.
Proof.
  intros Hk [Hwf Hr] Hlo Hhi [Hl Hh]. pose proof (proj1 (Hr hi Hhi) Hh) as Hrh.
  pose proof (proj2 (Hr lo Hlo) Hl) as Hrl.
  assert (Hf : is_finite r = true).
  { destruct r as [|[]| |]; try done; [by destruct lo|by destruct hi]. }
  split; [done|]. rewrite leb_sv in Hrh, Hrl by done. rewrite Z.leb_le in *. done.
Qed.

Lemma sv_opp x : sv (SFopp x) = (- sv x)%Z.
Proof. destruct x as [[]|[]| |[] ? ?]; simpl; lia. Qed.
Lemma is_finite_opp x : is_finite (SFopp x) = is_finite x.
Proof. by destruct x. Qed.

Lemma rounds_opp k v r : rounds k v r → rounds k (- v) (SFopp r).
Proof.
  assert (Hopp : ∀ x y, SFleb (SFopp x) y = SFleb (SFopp y) x).
  { intros [[]|[]| |[] mx ex] [[]|[]| |[] my ey]; try done; unfold SFleb; simpl;
      rewrite (Z.compare_antisym ex ey); destruct (ex ?= ey)%Z; simpl; try done;
      change (Pos.compare_cont Eq ?a ?b) with (a ?= b)%positive; rewrite (Pos.compare_antisym mx my);
      by destruct (mx ?= my)%positive. }
  assert (Hinv : ∀ x, SFopp (SFopp x) = x) by (intros [[]|[]| |[] ? ?]; done).
  intros [Hwf Hr]. split; [by destruct r as [[]|[]| |[] ? ?]|]. intros b Hb.
  specialize (Hr (SFopp b)). rewrite is_finite_opp, sv_opp in Hr. destruct (Hr Hb) as [Hle Hge]. split; intros H.
  - rewrite Hopp. apply Hge. lia.
  - rewrite <- (Hinv b), Hopp, Hinv. apply Hle. lia.
Qed.

Lemma round_aux_opp m e l :
  binary_round_aux 53 1024 true m e l = SFopp (binary_round_aux 53 1024 false m e l).
Proof.
  unfold binary_round_aux. destruct (shr_fexp _ _ m e l) as [r e1].
  destruct (shr_fexp _ _ _ e1 loc_Exact) as [r2 e2]. destruct (shr_m r2); try done. by case_match.
Qed.

Lemma round_aux_rounds k m e : (0 ≤ k)%Z → (0 ≤ m)%Z → (0 ≤ e + K + k)%Z →
  (e ≤ fexp 53 1024 (Zdigits2 m + e))%Z →
  rounds k (m * 2 ^ (e + K + k)) (binary_round_aux 53 1024 false m e loc_Exact).
Proof.
  intros Hk Hm HeS Hle. rewrite <- Z.add_assoc. unfold K in *.
  destruct (round_aux_pack m e loc_Exact Hm Hle) as (m2 & -> & Hb & Hm2 & Hbig).
  set (e1 := fexp 53 1024 (Zdigits2 m + e)) in *.
  assert (He1 : (-1074 ≤ e1)%Z) by (unfold e1, fexp, emin; lia).
  assert (Hbig2 : (e1 = -1074 ∨ 2 ^ 52 ≤ m2)%Z) by (destruct Hbig, Hm2 as [|[]]; lia).
  set (S := (1074 + k)%Z). pose proof (pow_gt k Hk).
  assert (Hround : ∀ mb eb, canonical_mantissa 53 1024 mb eb = true →
    ((m * 2 ^ (e + S) ≤ Z.pos mb * 2 ^ (eb + S) → m2 * 2 ^ (e1 + S) ≤ Z.pos mb * 2 ^ (eb + S)) ∧
     (Z.pos mb * 2 ^ (eb + S) ≤ m * 2 ^ (e + S) → Z.pos mb * 2 ^ (eb + S) ≤ m2 * 2 ^ (e1 + S)))%Z).
  { intros mb eb Hc. edestruct (round_aux_bounds S m e loc_Exact m2 mb eb) as [Hup Hlow];
      try done; try lia. split; [|exact Hlow]. intros ?. apply Hup; [done|by left]. }
  assert (Hpos : (0 ≤ m * 2 ^ (e + S))%Z) by (pose proof (pow_gt (e + S)); lia).
  assert (Hzero : (m * 2 ^ (e + S) ≤ 0)%Z → m2 = 0%Z).
  { intros H0. assert (m = 0%Z) as -> by (pose proof (pow_gt (e + S)); nia).
    destruct Hm2 as [->|(_ & Hdiv)]; [by rewrite Z.div_0_l by (pose proof (pow_gt (e1 - e)); lia)|].
    exfalso. apply Hdiv; [done|]. apply Z.divide_0_r. }
  assert (Hsv : ∀ mb eb, (sv (S754_finite false mb eb) * 2 ^ k)%Z = (Z.pos mb * 2 ^ (eb + S))%Z ∨ (eb < -1074)%Z).
  { intros mb eb. destruct (Z.le_gt_cases (-1074) eb) as [Heb|]; [left|by right]. cbn [sv cond_Zopp].
    rewrite <- Z.mul_assoc, <- pow_pos_add by (unfold K; lia). do 2 f_equal. unfold S, K. lia. }
  destruct (pack_spec S m2 e1 ltac:(lia) Hb He1 Hbig2) as [[-> ->]|(p & E & Hcan & HV & ->)].
  - split; [done|]. intros [sb| | |[] mb eb] Hf; try done.
    + apply is_finite_canonical in Hf as [Hf _]. pose proof (sv_pos _ _ Hf). cbn [sv cond_Zopp]. split; [nia|done].
    + pose proof (is_finite_canonical _ _ _ Hf) as [Hc _]. pose proof (canonical_bounds _ _ Hc) as (? & _).
      split; [done|]. destruct (Hsv mb eb) as [->|]; [|lia]. intros HBv%(proj2 (Hround mb eb Hc)).
      pose proof (pow_gt (eb + S)). lia.
  - assert (Hm2pos : m2 ≠ 0%Z) by (intros ->; pose proof (canonical_bounds _ _ Hcan) as (? & _); pose proof (pow_gt (E + S)); lia).
    set (r := if (E <=? 971)%Z then _ else _).
    assert (Hr : well_formed r ∧ ∀ b, is_finite b = true → (sv b ≤ 0)%Z → SFleb b r = true).
    { unfold r. destruct (Z.leb_spec E 971) as [HE|HE]; (split; [|intros [sb| | |[] mb eb] Hf]; try done).
      1: simpl; unfold bounded; rewrite Hcan; apply Z.leb_le; lia.
      all: apply is_finite_canonical in Hf as [Hf%sv_pos _]; cbn [sv cond_Zopp]; lia. }
    split; [apply Hr|]. intros [sb| | |[] mb eb] Hf; try done.
    + split; [intros ?%Hzero; done|]. intros _. by apply Hr.
    + pose proof (is_finite_canonical _ _ _ Hf) as [Hc _]. pose proof (sv_pos _ _ Hc). cbn [sv cond_Zopp].
      split; [nia|]. intros _. apply Hr; [done|]. cbn [sv cond_Zopp]. lia.
    + pose proof (is_finite_canonical _ _ _ Hf) as [Hc Heb]. pose proof (canonical_bounds _ _ Hc) as (? & _).
      destruct (Hsv mb eb) as [->|]; [|lia]. destruct (Hround mb eb Hc) as [Hup Hlow]. rewrite <- HV in Hup, Hlow. clear Hround Hsv HV.
      assert (Hcmp : ∀ p1 E1 p2 E2, (-1074 ≤ E1)%Z → (-1074 ≤ E2)%Z →
        (Z.pos p1 * 2 ^ (E1 + S) ≤ Z.pos p2 * 2 ^ (E2 + S) ↔ Z.pos p1 * 2 ^ (E1 + K) ≤ Z.pos p2 * 2 ^ (E2 + K))%Z).
      { intros p1 E1 p2 E2 H1 H2. unfold S, K. rewrite !(Z.add_assoc _ 1074 k), !(pow_pos_add _ k), !Z.mul_assoc by lia.
        symmetry. by apply Z.mul_le_mono_pos_r. }
      pose proof (canonical_bounds _ _ Hcan) as (? & _). rewrite !Hcmp in Hup, Hlow by done.
      unfold r. destruct (Z.leb_spec E 971) as [HE|HE].
      * rewrite !leb_sv, !Z.leb_le by (done || (simpl; unfold bounded; rewrite Hcan; apply Z.leb_le; lia)).
        split; [exact Hup|exact Hlow].
      * split; [intros Hle'%Hup|done]. pose proof (canonical_exponent_lt _ _ _ _ Hc Hcan ltac:(lia)). lia.
Qed.

(** ** The operations round *)

Lemma shl_align_spec m e e0 : let '(m', e') := shl_align m e e0 in
  e' = Z.min e e0 ∧ Z.pos m' = (Z.pos m * 2 ^ (e - e'))%Z.
Proof.
  unfold shl_align. destruct (e0 - e)%Z as [|d|d] eqn:Hd.
  - split; [lia|]. rewrite Z.sub_diag, Z.mul_1_r. done.
  - split; [lia|]. rewrite Z.sub_diag, Z.mul_1_r. done.
  - split; [lia|]. replace (e - e0)%Z with (Z.pos d) by lia.
    clear. induction d as [|d IH] using Pos.peano_ind; [by rewrite Z.mul_comm|].
    rewrite Pos.iter_succ, Pos2Z.inj_succ, Z.pow_succ_r by lia. lia.
Qed.

Lemma digits_shift p q d : (0 ≤ d)%Z → Z.pos q = (Z.pos p * 2 ^ d)%Z →
  Zdigits2 (Z.pos q) = (Zdigits2 (Z.pos p) + d)%Z.
Proof.
  intros Hd Hq. pose proof (pow_gt d Hd). simpl Zdigits2.
  pose proof (digits_bounds p) as [Hlo Hhi]. set (dp := Z.pos (digits2_pos p)) in *.
  assert (0 < dp)%Z by (unfold dp; lia).
  assert (Zdigits2 (Z.pos q) ≤ dp + d)%Z.
  { apply digits_lt; [lia|lia|]. rewrite pow_pos_add by lia. rewrite Hq. by apply Z.mul_lt_mono_pos_r. }
  assert (dp - 1 + d < Zdigits2 (Z.pos q))%Z.
  { apply digits_ge; [lia|lia|]. rewrite pow_pos_add by lia. rewrite Hq. apply Z.mul_le_mono_nonneg_r; lia. }
  simpl Zdigits2 in *. lia.
Qed.

Lemma normalize_rounds k m e : (0 ≤ k)%Z → (0 ≤ e + K + k)%Z →
  rounds k (m * 2 ^ (e + K + k)) (binary_normalize 53 1024 m e false).
Proof.
  intros Hk He. assert (Hpos : ∀ p, rounds k (Z.pos p * 2 ^ (e + K + k)) (binary_round 53 1024 false p e)).
  { intros p. unfold binary_round.
    set (f := fexp 53 1024 (Z.pos (digits2_pos p) + e)).
    assert (Hf : (-1074 ≤ f)%Z) by (unfold f, fexp, emin; lia). unfold K in *.
    pose proof (shl_align_spec p e f) as Hs. destruct (shl_align p e f) as [q e'] eqn:Hsh.
    destruct Hs as [He' Hq].
    pose proof (digits_shift p q (e - e') ltac:(lia) Hq) as Hd. simpl Zdigits2 in Hd.
    replace (Z.pos p * 2 ^ (e + 1074 + k))%Z with (Z.pos q * 2 ^ (e' + 1074 + k))%Z.
    2: { rewrite Hq, <- Z.mul_assoc, <- pow_pos_add by lia. do 2 f_equal. lia. }
    apply round_aux_rounds; [done|lia|unfold K; lia|].
    simpl Zdigits2. rewrite Hd. replace (Z.pos (digits2_pos p) + (e - e') + e')%Z
      with (Z.pos (digits2_pos p) + e)%Z by lia. fold f. lia. }
  destruct m as [|p|p]; cbn [binary_normalize].
  - change (S754_zero false) with (binary_round_aux 53 1024 false 0 (-1074) loc_Exact).
    apply (round_aux_rounds k 0 (-1074)); unfold K; [done|done|lia|done].
  - apply Hpos.
  - replace (binary_round 53 1024 true p e) with (SFopp (binary_round 53 1024 false p e)).
    + rewrite <- Pos2Z.opp_pos, Z.mul_opp_l. apply rounds_opp, Hpos.
    + unfold binary_round. destruct (shl_align _ _ _). symmetry. apply round_aux_opp.
Qed.

Lemma rounds_exact k x : (0 ≤ k)%Z → is_finite x = true → rounds k (sv x * 2 ^ k) x.
Proof.
  intros Hk Hx. split; [by destruct x|]. intros b Hb. pose proof (pow_gt k Hk).
  rewrite !leb_sv, !Z.leb_le by done. rewrite <- !Z.mul_le_mono_pos_r by done. done.
Qed.

(** The signed mantissa of a finite number at a smaller exponent. *)
Lemma align_sv s m e ez : (- K ≤ ez ≤ e)%Z →
  (cond_Zopp s (Z.pos (fst (shl_align m e ez))) * 2 ^ (ez + K))%Z = sv (S754_finite s m e).
Proof.
  intros Hez. pose proof (shl_align_spec m e ez) as Hs. destruct (shl_align m e ez) as [q e'].
  destruct Hs as [-> Hq]. simpl fst. rewrite Hq, Z.min_r by lia. cbn [sv].
  replace (e + K)%Z with ((e - ez) + (ez + K))%Z by lia. rewrite (pow_pos_add (e - ez)) by lia.
  destruct s; simpl cond_Zopp; lia.
Qed.

Lemma add_rounds x y : is_finite x = true → is_finite y = true → rounds 0 (sv x + sv y) (f64_add x y).
Proof.
  intros Hx Hy. rewrite <- (Z.mul_1_r (_ + _)). change 1%Z with (2 ^ 0)%Z.
  assert (Hex : ∀ z, is_finite z = true → rounds 0 (sv z * 2 ^ 0) z) by (intros; by apply rounds_exact).
  destruct x as [sx|sx| |sx mx ex], y as [sy|sy| |sy my ey]; try done.
  - destruct sx, sy; by apply Hex.
  - by apply Hex.
  - simpl sv. rewrite Z.add_0_r. by apply Hex.
  - pose proof (is_finite_canonical _ _ _ Hx) as [(?&_)%canonical_bounds _].
    pose proof (is_finite_canonical _ _ _ Hy) as [(?&_)%canonical_bounds _].
    unfold f64_add. cbn [SFadd].
    rewrite <- (align_sv sx mx ex (Z.min ex ey)), <- (align_sv sy my ey (Z.min ex ey)) by (unfold K; lia).
    rewrite <- Z.mul_add_distr_r, Z.mul_1_r. rewrite <- (Z.add_0_r (Z.min ex ey + K)) at 1.
    apply normalize_rounds; unfold K; lia.
Qed.

Lemma sub_rounds x y : is_finite x = true → is_finite y = true → rounds 0 (sv x - sv y) (f64_sub x y).
Proof.
  intros Hx Hy. assert (Hopp : rounds 0 (sv x + sv (SFopp y)) (f64_add x (SFopp y))).
  { apply add_rounds; [done|]. by rewrite is_finite_opp. }
  rewrite sv_opp, Z.add_opp_r in Hopp.
  replace (f64_sub x y) with (f64_add x (SFopp y)); [done|].
  destruct x as [[]|[]| |sx mx ex], y as [[]|[]| |sy my ey]; try done. unfold f64_add, f64_sub. simpl.
  f_equal. destruct sy; simpl; lia.
Qed.

Lemma digits_mono p q : (Z.pos p ≤ Z.pos q)%Z → (Zdigits2 (Z.pos p) ≤ Zdigits2 (Z.pos q))%Z.
Proof.
  intros Hle. apply digits_lt; [lia|simpl; lia|]. eapply Z.le_lt_trans; [exact Hle|]. apply digits_bounds.
Qed.

Lemma mul_aligned mx ex my ey :
  canonical_mantissa 53 1024 mx ex = true → canonical_mantissa 53 1024 my ey = true →
  (ex + ey ≤ fexp 53 1024 (Zdigits2 (Z.pos (mx * my)) + (ex + ey)))%Z.
Proof.
  intros (? & _ & Hx)%canonical_bounds (? & _ & Hy)%canonical_bounds.
  assert (∀ p, (2 ^ 52 ≤ Z.pos p)%Z → (53 ≤ Zdigits2 (Z.pos p))%Z) as H53.
  { intros p Hp. pose proof (digits_ge (Z.pos p) 52). lia. }
  assert (53 ≤ Zdigits2 (Z.pos (mx * my)) ∨ (ex = -1074 ∧ ey = -1074))%Z as Hor.
  { destruct Hx as [?|Hx]; [destruct Hy as [?|Hy]; [by right|]|]; left; apply H53; nia. }
  unfold fexp, emin. lia.
Qed.

Lemma mul_rounds x y : is_finite x = true → is_finite y = true → rounds K (sv x * sv y) (f64_mul x y).
Proof.
  intros Hx Hy.
  assert (Hzero : ∀ s, rounds K 0 (S754_zero s)) by (intros; apply (rounds_exact K (S754_zero _)); done).
  destruct x as [sx|sx| |sx mx ex], y as [sy|sy| |sy my ey]; try done; unfold f64_mul; cbn [SFmul];
    try (cbn [sv]; rewrite ?Z.mul_0_r; apply Hzero).
  apply is_finite_canonical in Hx as [Hx _], Hy as [Hy _].
  pose proof (canonical_bounds _ _ Hx) as (? & _). pose proof (canonical_bounds _ _ Hy) as (? & _).
  pose proof (round_aux_rounds K (Z.pos (mx * my)) (ex + ey) ltac:(done) ltac:(done) ltac:(unfold K; lia)
    (mul_aligned _ _ _ _ Hx Hy)) as Hr.
  replace (ex + ey + K + K)%Z with ((ex + K) + (ey + K))%Z in Hr by lia.
  rewrite pow_pos_add, Pos2Z.inj_mul in Hr by (unfold K; lia).
  replace (Z.pos mx * Z.pos my * (2 ^ (ex + K) * 2 ^ (ey + K)))%Z
    with (sv (S754_finite false mx ex) * sv (S754_finite false my ey))%Z in Hr by (cbn [sv cond_Zopp]; lia).
  assert (Hs : ∀ m e, sv (S754_finite true m e) = (- sv (S754_finite false m e))%Z) by done.
  destruct sx, sy; cbn [xorb]; rewrite ?Hs, ?Z.mul_opp_opp, ?Z.mul_opp_l, ?Z.mul_opp_r, ?round_aux_opp;
    try done; by apply rounds_opp.
Qed.

Lemma of_Z_rounds n : rounds 0 (n * unit_sv) (f64_of_Z n).
Proof. apply (normalize_rounds 0 n 0); unfold K; lia. Qed.

Lemma round_aux_below S m e l mb eb : (1074 ≤ S)%Z → (0 ≤ m)%Z → (0 ≤ e + S)%Z →
  (e ≤ fexp 53 1024 (Zdigits2 m + e))%Z → canonical_mantissa 53 1024 mb eb = true → (eb ≤ 971)%Z →
  (m * 2 ^ (e + S) ≤ Z.pos mb * 2 ^ (eb + S))%Z →
  l = loc_Exact ∨ (m * 2 ^ (e + S) < Z.pos mb * 2 ^ (eb + S))%Z →
  let r := binary_round_aux 53 1024 false m e l in
  is_finite r = true ∧ (0 ≤ sv r ≤ sv (S754_finite false mb eb))%Z.
Proof.
  intros HS Hm HeS Hle Hc Heb Hv Hl r. unfold r. clear r.
  destruct (round_aux_pack m e l Hm Hle) as (m2 & -> & Hb & Hm2 & Hbig).
  set (e1 := fexp 53 1024 (Zdigits2 m + e)) in *.
  assert (He1 : (-1074 ≤ e1)%Z) by (unfold e1, fexp, emin; lia).
  pose proof (proj1 (round_aux_bounds S m e l m2 mb eb HS Hm HeS Hle Hc Hm2 Hbig) Hv Hl) as HV.
  cbv zeta in HV. fold e1 in HV. pose proof (canonical_bounds _ _ Hc) as (Heb' & _).
  pose proof (sv_pos _ _ Hc). cbn [sv cond_Zopp].
  destruct (pack_spec S m2 e1 HS Hb He1 ltac:(destruct Hbig, Hm2 as [|[]]; lia))
    as [[-> ->]|(p & E & Hcan & HVp & ->)]; [cbn [sv is_finite f64_zero]; split; [done|lia]|].
  rewrite <- HVp in HV. pose proof (canonical_bounds _ _ Hcan) as (HE & _).
  replace S with (K + (S - K))%Z in HV by lia. unfold K in HV.
  rewrite !(Z.add_assoc _ 1074), !(pow_pos_add _ (S - 1074)), !Z.mul_assoc in HV by lia.
  apply Z.mul_le_mono_pos_r in HV; [|apply pow_gt; lia].
  assert (HE971 : (E ≤ 971)%Z).
  { destruct (Z.le_gt_cases E 971) as [|HE']; [done|].
    pose proof (canonical_exponent_lt _ _ _ _ Hc Hcan ltac:(lia)). unfold K in *. lia. }
  rewrite (proj2 (Z.leb_le E 971)) by done. cbn [sv is_finite cond_Zopp]. unfold bounded. rewrite Hcan.
  split; [apply Z.leb_le; lia|]. pose proof (sv_pos _ _ Hcan). unfold K in *. lia.
Qed.

(** A quotient comes with enough digits to be rounded. *)
Lemma div_aligned d1 d2 (m' mc q e1 e2 e' s : Z) :
  e' = Z.min (fexp 53 1024 (d1 + e1 - (d2 + e2))) (e1 - e2) → s = (e1 - e2 - e')%Z →
  (0 < d1)%Z → (0 ≤ d2)%Z → (2 ^ (d1 - 1 + s) ≤ m')%Z → (0 < mc < 2 ^ d2)%Z → (m' < mc * (q + 1))%Z → (0 ≤ q)%Z →
  (e' ≤ fexp 53 1024 (Zdigits2 q + e'))%Z.
Proof.
  intros He' Hs Hd1 Hd2 Hm' Hmc Hq Hq0.
  assert (Hdig : (d1 + s - d2 ≤ Zdigits2 q)%Z).
  { destruct (Z.le_gt_cases (d1 + s - d2) 0) as [?|Hpos]; [by (destruct q; simpl; lia)|].
    assert (Hlt : (2 ^ (d1 + s - d2 - 1) < q + 1)%Z).
    { apply (Z.mul_lt_mono_pos_l (2 ^ d2)); [apply pow_gt; lia|]. rewrite <- pow_pos_add by lia.
      replace (d2 + (d1 + s - d2 - 1))%Z with (d1 - 1 + s)%Z by lia. nia. }
    pose proof (pow_gt (d1 + s - d2 - 1) ltac:(lia)).
    pose proof (digits_ge q (d1 + s - d2 - 1) ltac:(lia) ltac:(lia)). lia. }
  revert He'. unfold fexp, emin. lia.
Qed.

Lemma div_core_spec ma ea mc ec :
  let '(q, e', l) := SFdiv_core_binary 53 1024 (Z.pos ma) ea (Z.pos mc) ec in
  ∃ s r, s = (ea - ec - e')%Z ∧ (0 ≤ s)%Z ∧ (Z.pos ma * 2 ^ s = Z.pos mc * q + r)%Z ∧
    (0 ≤ r < Z.pos mc)%Z ∧ (l = loc_Exact ∨ (0 < r)%Z) ∧ (0 ≤ q)%Z ∧
    (e' ≤ fexp 53 1024 (Zdigits2 q + e'))%Z ∧ (Z.min (-1074) (ea - ec) ≤ e')%Z.
Proof.
  unfold SFdiv_core_binary. set (d1 := Zdigits2 (Z.pos ma)). set (d2 := Zdigits2 (Z.pos mc)).
  set (e' := Z.min (fexp 53 1024 (d1 + ea - (d2 + ec))) (ea - ec)). set (s := (ea - ec - e')%Z).
  assert (Hs : (0 ≤ s)%Z) by (unfold s, e'; lia).
  replace (match s with Z0 => Z.pos ma | Z.pos _ => Z.shiftl (Z.pos ma) s | Z.neg _ => 0%Z end)
    with (Z.pos ma * 2 ^ s)%Z by (destruct s; [lia|by rewrite Z.shiftl_mul_pow2|lia]).
  pose proof (Z_div_mod (Z.pos ma * 2 ^ s) (Z.pos mc) ltac:(lia)) as Hdm.
  destruct (Z.div_eucl (Z.pos ma * 2 ^ s) (Z.pos mc)) as [q r]. destruct Hdm as [Hqr Hr].
  pose proof (digits_bounds ma) as [Hma _]. pose proof (digits_bounds mc) as [_ Hmc].
  change (Z.pos (digits2_pos ma)) with d1 in Hma. change (Z.pos (digits2_pos mc)) with d2 in Hmc.
  assert (Hd1 : (0 < d1)%Z) by (unfold d1; simpl; lia). assert (Hd2 : (0 < d2)%Z) by (unfold d2; simpl; lia).
  pose proof (pow_gt s Hs) as Hps. assert (Hq : (0 ≤ q)%Z) by nia.
  exists s, r. split_and!; try done; [lia|lia| | |].
  - unfold new_location, new_location_even, new_location_odd.
    destruct (Z.even _), (Z.eqb_spec r 0); auto; right; lia.
  - apply (div_aligned d1 d2 (Z.pos ma * 2 ^ s) (Z.pos mc) q ea ec e' s); try done; try lia; [].
    rewrite pow_pos_add by lia. apply Z.mul_le_mono_nonneg_r; lia.
  - unfold e', fexp, emin. lia.
Qed.

(** Division of a nonnegative number by one that is at least 1. *)
Lemma div_rounds_down a c : is_finite a = true → (0 ≤ sv a)%Z → is_finite c = true → (unit_sv ≤ sv c)%Z →
  is_finite (f64_div a c) = true ∧ (0 ≤ sv (f64_div a c) ≤ sv a)%Z.
Proof.
  intros Ha Ha0 Hc Hc1.
  destruct c as [|?| |sc mc ec]; try done.
  apply is_finite_canonical in Hc as [Hc Hec]. pose proof (canonical_bounds _ _ Hc) as (Hec' & _).
  assert (sc = false) as -> by (destruct sc; [|done]; cbn [sv cond_Zopp] in Hc1; pose proof (sv_pos _ _ Hc); unfold unit_sv in *; lia).
  destruct a as [sa|?| |sa ma ea]; try done.
  apply is_finite_canonical in Ha as [Ha Hea]. pose proof (canonical_bounds _ _ Ha) as (Hea' & _).
  assert (sa = false) as -> by (destruct sa; [|done]; cbn [sv cond_Zopp] in Ha0; pose proof (sv_pos _ _ Ha); lia).
  unfold f64_div. cbn [SFdiv xorb]. pose proof (div_core_spec ma ea mc ec) as Hcore.
  destruct (SFdiv_core_binary _ _ _ _ _ _) as [[q e'] l].
  destruct Hcore as (s & r & Hs & Hs0 & Hqr & Hr & Hl & Hq & Hal & He').
  pose proof (pow_gt (ec + K) ltac:(unfold K; lia)) as Hpc.
  pose proof (pow_gt (e' + 3000) ltac:(lia)) as Hpe. pose proof (pow_gt K ltac:(done)) as HpK.
  assert (Hscaled : (q * 2 ^ (e' + 3000) * 2 ^ K ≤ Z.pos ma * 2 ^ (ea + 3000) * 2 ^ K - r * 2 ^ (ec + K) * 2 ^ (e' + 3000))%Z).
  { replace (Z.pos ma * 2 ^ (ea + 3000) * 2 ^ K)%Z with (Z.pos ma * 2 ^ s * (2 ^ (ec + K) * 2 ^ (e' + 3000)))%Z.
    - rewrite Hqr. cbn [sv cond_Zopp] in Hc1. unfold unit_sv in Hc1.
      assert (q * 2 ^ K ≤ q * (Z.pos mc * 2 ^ (ec + K)))%Z by (apply Z.mul_le_mono_nonneg_l; lia). nia.
    - rewrite <- !Z.mul_assoc, <- !pow_pos_add by (unfold K; lia). do 2 f_equal. lia. }
  apply (round_aux_below 3000); try done; try lia; [nia|]. destruct Hl as [?|Hl]; [by left|right]. nia.
Qed.

(** ** Every result is a binary64 number, given binary64 arguments *)

Definition is_f64 (x : f64) : Prop := valid_binary 53 1024 x = true.

Lemma is_f64_cases x : is_f64 x → x = S754_nan ∨ well_formed x.
Proof. intros H. destruct x; [by right|by right|by left|by right]. Qed.
Lemma well_formed_f64 x : well_formed x → is_f64 x.
Proof. by destruct x. Qed.
Lemma is_f64_opp x : is_f64 x → is_f64 (SFopp x).
Proof. by destruct x. Qed.

Lemma round_aux_f64 s m e l : (0 ≤ m)%Z → (e ≤ fexp 53 1024 (Zdigits2 m + e))%Z →
  is_f64 (binary_round_aux 53 1024 s m e l).
Proof.
  intros Hm Hle. destruct s; [rewrite round_aux_opp; apply is_f64_opp|];
    destruct (round_aux_pack m e l Hm Hle) as (m2 & -> & Hb & Hm2 & Hbig);
    set (e1 := fexp 53 1024 (Zdigits2 m + e)) in *;
    (destruct (pack_spec 1074 m2 e1) as [[_ ->]|(p & E & Hcan & _ & ->)];
      [done|done|unfold e1, fexp, emin; lia|destruct Hbig, Hm2 as [|[]]; lia|done|]);
    destruct (Z.leb_spec E 971); try done; unfold is_f64; simpl; unfold bounded; rewrite Hcan;
    apply Z.leb_le; lia.
Qed.

Lemma f64_add_valid x y : is_f64 x → is_f64 y → is_f64 (f64_add x y).
Proof.
  intros Hx Hy. destruct (is_finite x) eqn:Hfx, (is_finite y) eqn:Hfy.
  1: by apply well_formed_f64, (add_rounds x y).
  all: destruct x as [[]|[]| |[] ? ?], y as [[]|[]| |[] ? ?]; try done; unfold is_f64 in *; simpl in *; congruence.
Qed.

Lemma f64_sub_valid x y : is_f64 x → is_f64 y → is_f64 (f64_sub x y).
Proof.
  intros Hx Hy. destruct (is_finite x) eqn:Hfx, (is_finite y) eqn:Hfy.
  1: by apply well_formed_f64, (sub_rounds x y).
  all: destruct x as [[]|[]| |[] ? ?], y as [[]|[]| |[] ? ?]; try done; unfold is_f64 in *; simpl in *; congruence.
Qed.

Lemma f64_mul_valid x y : is_f64 x → is_f64 y → is_f64 (f64_mul x y).
Proof.
  intros Hx Hy. destruct (is_finite x) eqn:Hfx, (is_finite y) eqn:Hfy.
  1: by apply well_formed_f64, (mul_rounds x y).
  all: destruct x as [[]|[]| |[] ? ?], y as [[]|[]| |[] ? ?]; try done; unfold is_f64 in *; simpl in *; congruence.
Qed.

Lemma f64_div_valid x y : is_f64 x → is_f64 y → is_f64 (f64_div x y).
Proof.
  intros Hx Hy. destruct x as [[]|[]| |sx mx ex], y as [[]|[]| |sy my ey]; try done.
  unfold f64_div. cbn [SFdiv]. pose proof (div_core_spec mx ex my ey) as Hcore.
  destruct (SFdiv_core_binary _ _ _ _ _ _) as [[q e'] l].
  destruct Hcore as (s & r & _ & _ & _ & _ & _ & Hq & Hal & _). by apply round_aux_f64.
Qed.

Lemma f64_sqrt_valid x : is_f64 x → is_f64 (f64_sqrt x).
Proof.
  intros Hx. destruct x as [[]|[]| |[] m e]; try done. unfold f64_sqrt. cbn [SFsqrt]. unfold SFsqrt_core_binary.
  set (d := Zdigits2 (Z.pos m)). set (e' := Z.min (fexp 53 1024 (Z.div2 (d + e + 1))) (Z.div2 e)).
  set (s := (e - 2 * e')%Z).
  assert (Hs : (0 ≤ s)%Z) by (unfold s, e'; pose proof (Z.div2_odd e); destruct (Z.odd e); simpl in *; lia).
  replace (match s with Z0 => Z.pos m | Z.pos _ => Z.shiftl (Z.pos m) s | Z.neg _ => 0%Z end)
    with (Z.pos m * 2 ^ s)%Z by (destruct s; [lia|by rewrite Z.shiftl_mul_pow2|lia]).
  pose proof (pow_gt s Hs) as Hps.
  pose proof (Z.sqrtrem_spec (Z.pos m * 2 ^ s) ltac:(lia)) as Hsq.
  destruct (Z.sqrtrem (Z.pos m * 2 ^ s)) as [q r]. destruct Hsq as [Hqr Hr].
  assert (Hq : (0 ≤ q)%Z) by lia. apply round_aux_f64; [done|].
  assert (Hdig : (Z.div2 (d + s + 1) ≤ Zdigits2 q)%Z).
  { pose proof (digits_bounds m) as [Hm _]. change (Z.pos (digits2_pos m)) with d in Hm.
    assert (Hd : (0 < d)%Z) by (unfold d; simpl; lia). set (k := Z.div2 (d + s + 1)).
    assert (Hk : (1 ≤ k ∧ 2 * k ≤ d + s + 1)%Z)
      by (unfold k; pose proof (Z.div2_odd (d + s + 1)); destruct (Z.odd (d + s + 1)); simpl in *; lia).
    assert (2 ^ (k - 1) ≤ q)%Z.
    { apply Z.lt_succ_r, Z.square_lt_simpl_nonneg; [lia|].
      apply Z.le_lt_trans with (Z.pos m * 2 ^ s)%Z; [|nia]. rewrite <- pow_pos_add by lia.
      apply Z.le_trans with (2 ^ (d - 1 + s))%Z; [apply Z.pow_le_mono_r; lia|].
      rewrite pow_pos_add by lia. apply Z.mul_le_mono_nonneg_r; lia. }
    pose proof (pow_gt (k - 1) ltac:(lia)). pose proof (digits_ge q (k - 1) ltac:(lia) ltac:(lia)). lia. }
  assert (Hd2 : (Z.div2 (d + s + 1) = Z.div2 (d + e + 1) - e')%Z).
  { unfold s. rewrite !Z.div2_div. replace (d + (e - 2 * e') + 1)%Z with ((d + e + 1) + (- e') * 2)%Z by lia.
    rewrite Z.div_add by lia. lia. }
  assert (He' : (e' ≤ fexp 53 1024 (Z.div2 (d + e + 1)))%Z) by (unfold e'; lia).
  revert He'. unfold fexp, emin. lia.
Qed.

Lemma f64_max_valid x y : is_f64 x → is_f64 y → is_f64 (f64_max x y).
Proof. intros. unfold f64_max. by repeat case_match. Qed.
Lemma f64_min_valid x y : is_f64 x → is_f64 y → is_f64 (f64_min x y).
Proof. intros. unfold f64_min. by repeat case_match. Qed.
Lemma f64_abs_valid x : is_f64 x → is_f64 (f64_abs x).
Proof. by destruct x. Qed.
Lemma f64_of_Z_valid n : is_f64 (f64_of_Z n).
Proof. apply well_formed_f64, of_Z_rounds. Qed.
Lemma lit_valid num den : is_f64 (lit num den).
Proof. apply f64_div_valid; apply f64_of_Z_valid. Qed.

Lemma f64_one_valid : is_f64 f64_one. Proof. done. Qed.
Lemma f64_zero_valid : is_f64 f64_zero. Proof. done. Qed.

#[export] Hint Resolve f64_one_valid f64_zero_valid f64_add_valid f64_sub_valid f64_mul_valid f64_div_valid f64_sqrt_valid
  f64_max_valid f64_min_valid f64_abs_valid f64_of_Z_valid lit_valid : kirino.

(** ** Bounds on results *)

Lemma add_between x y lo hi : is_finite x = true → is_finite y = true →
  is_finite lo = true → is_finite hi = true → (sv lo ≤ sv x + sv y ≤ sv hi)%Z →
  is_finite (f64_add x y) = true ∧ (sv lo ≤ sv (f64_add x y) ≤ sv hi)%Z.
Proof.
  intros Hx Hy Hlo Hhi H. apply (rounds_between 0 (sv x + sv y)); try done; [by apply add_rounds|].
  rewrite !Z.mul_1_r. done.
Qed.

Lemma sub_between x y lo hi : is_finite x = true → is_finite y = true →
  is_finite lo = true → is_finite hi = true → (sv lo ≤ sv x - sv y ≤ sv hi)%Z →
  is_finite (f64_sub x y) = true ∧ (sv lo ≤ sv (f64_sub x y) ≤ sv hi)%Z.
Proof.
  intros Hx Hy Hlo Hhi H. apply (rounds_between 0 (sv x - sv y)); try done; [by apply sub_rounds|].
  rewrite !Z.mul_1_r. done.
Qed.

Lemma mul_between x y lo hi : is_finite x = true → is_finite y = true →
  is_finite lo = true → is_finite hi = true →
  (sv lo * unit_sv ≤ sv x * sv y ≤ sv hi * unit_sv)%Z →
  is_finite (f64_mul x y) = true ∧ (sv lo ≤ sv (f64_mul x y) ≤ sv hi)%Z.
Proof. intros. apply (rounds_between K (sv x * sv y)); try done. by apply mul_rounds. Qed.

Lemma unit_pos : (0 < unit_sv)%Z.
Proof. apply (pow_gt K). done. Qed.

Lemma of_Z_between n hi : (0 ≤ n)%Z → is_finite hi = true → (n * unit_sv ≤ sv hi)%Z →
  is_finite (f64_of_Z n) = true ∧ (0 ≤ sv (f64_of_Z n) ≤ sv hi)%Z.
Proof.
  intros Hn Hhi H. apply (rounds_between 0 (n * unit_sv) _ f64_zero hi); try done; [apply of_Z_rounds|].
  rewrite !Z.mul_1_r. pose proof unit_pos. simpl (sv f64_zero). lia.
Qed.

Lemma mul_unit_below x y : in_unit x → is_finite y = true → (0 ≤ sv y)%Z →
  is_finite (f64_mul x y) = true ∧ (0 ≤ sv (f64_mul x y) ≤ sv y)%Z.
Proof.
  rewrite in_unit_sv. intros [Hx ?] Hy ?. pose proof unit_pos. apply (mul_between x y f64_zero y); try done.
  simpl (sv f64_zero). nia.
Qed.

Lemma mul_unit x y : in_unit x → in_unit y → in_unit (f64_mul x y).
Proof.
  intros Hx Hy. rewrite in_unit_sv in Hy |- *. destruct Hy as [Hy ?].
  destruct (mul_unit_below x y Hx Hy) as [??]; [lia|]. split; [done|lia].
Qed.

Lemma max_finite x y : is_finite x = true → is_finite y = true →
  is_finite (f64_max x y) = true ∧ sv (f64_max x y) = Z.max (sv x) (sv y).
Proof.
  intros Hx Hy. unfold f64_max. rewrite eqb_refl, ltb_sv by done.
  destruct (Z.ltb_spec (sv x) (sv y)); split; (done || lia).
Qed.

Lemma min_finite x y : is_finite x = true → is_finite y = true →
  is_finite (f64_min x y) = true ∧ sv (f64_min x y) = Z.min (sv x) (sv y).
Proof.
  intros Hx Hy. unfold f64_min. rewrite eqb_refl, ltb_sv by done.
  destruct (Z.ltb_spec (sv y) (sv x)); split; (done || lia).
Qed.

Lemma clamp_finite x lo hi : is_finite x = true → is_finite lo = true → is_finite hi = true →
  (sv lo ≤ sv hi)%Z →
  is_finite (f64_clamp x lo hi) = true ∧ (sv lo ≤ sv (f64_clamp x lo hi) ≤ sv hi)%Z ∧
  ((sv lo ≤ sv x ≤ sv hi)%Z → f64_clamp x lo hi = x).
Proof.
  intros Hx Hlo Hhi Hle. unfold f64_clamp. rewrite (ltb_sv x lo) by done.
  destruct (Z.ltb_spec (sv x) (sv lo)); rewrite ltb_sv by done.
  - destruct (Z.ltb_spec (sv hi) (sv lo)); split_and!; (done || lia).
  - destruct (Z.ltb_spec (sv hi) (sv x)); split_and!; (done || lia).
Qed.

(** A number or an infinity clamped to the unit interval lies in it. *)
Lemma clamp_unit x : well_formed x → in_unit (f64_clamp x f64_zero f64_one).
Proof.
  intros Hx. destruct x as [[]|[]| |s m e]; [split_and!; reflexivity..|destruct Hx|].
  apply in_unit_sv. destruct (clamp_finite (S754_finite s m e) f64_zero f64_one Hx eq_refl eq_refl) as (? & ? & _);
    rewrite sv_one in *; simpl (sv f64_zero) in *; [pose proof unit_pos; lia|by split].
Qed.

Lemma finite_well_formed x : is_finite x = true → well_formed x.
Proof. by destruct x. Qed.

Lemma unit_finite x : in_unit x → is_finite x = true.
Proof. by intros [? _]. Qed.

#[export] Hint Resolve finite_well_formed unit_finite mul_unit : kirino.

(** ** Nonnegative numbers, infinity included *)

Definition nonneg (x : f64) : Prop := well_formed x ∧ SFleb f64_zero x = true.

Lemma nonneg_finite x : is_finite x = true → (0 ≤ sv x)%Z → nonneg x.
Proof. intros Hx H. split; [by apply finite_well_formed|]. rewrite leb_sv by done. by apply Z.leb_le. Qed.

Lemma nonneg_cases x : nonneg x → x = S754_infinity false ∨ is_finite x = true ∧ (0 ≤ sv x)%Z.
Proof.
  intros [Hwf Hx]. destruct (is_finite x) eqn:Hf.
  - right. split; [done|]. rewrite leb_sv in Hx by done. by apply Z.leb_le in Hx.
  - left. destruct x as [[]|[]| |[] m e]; try done; simpl in *; by rewrite Hwf in Hf.
Qed.

Lemma unit_nonneg x : in_unit x → nonneg x.
Proof. rewrite in_unit_sv. intros [? ?]. apply nonneg_finite; [done|lia]. Qed.

Lemma rounds_nonneg k v r : rounds k v r → (0 ≤ v)%Z → nonneg r.
Proof. intros [Hwf Hr] Hv. split; [done|]. apply (Hr f64_zero); [done|]. simpl. lia. Qed.

Lemma add_nonneg x y : nonneg x → nonneg y → nonneg (f64_add x y).
Proof.
  intros Hx Hy. destruct (nonneg_cases x Hx) as [->|[Hfx ?]], (nonneg_cases y Hy) as [->|[Hfy ?]].
  - done.
  - by destruct y as [| | |[]].
  - by destruct x as [| | |[]].
  - apply (rounds_nonneg 0 (sv x + sv y)); [by apply add_rounds|lia].
Qed.

Lemma mul_nonneg x y : is_finite x = true → (0 < sv x)%Z → nonneg y → nonneg (f64_mul x y).
Proof.
  intros Hx Hpos Hy. destruct (nonneg_cases y Hy) as [->|[Hfy ?]].
  - destruct x as [| | |[] m e]; try done; simpl in Hpos; lia.
  - apply (rounds_nonneg K (sv x * sv y)); [by apply mul_rounds|nia].
Qed.

(** [(x - y).max(0.0)] stays below a bound on the exact difference. *)
Lemma sub_floor x y hi : is_finite x = true → nonneg y → is_finite hi = true → (0 ≤ sv hi)%Z →
  (sv x - sv y ≤ sv hi)%Z →
  is_finite (f64_max (f64_sub x y) f64_zero) = true ∧ (0 ≤ sv (f64_max (f64_sub x y) f64_zero) ≤ sv hi)%Z.
Proof.
  intros Hx Hy Hhi Hhi0 Hle. destruct (nonneg_cases y Hy) as [->|[Hfy Hy0]].
  { destruct x as [| | |[]]; try done; simpl; lia. }
  destruct (sub_rounds x y Hx Hfy) as [Hwf Hr]. pose proof (proj1 (Hr hi Hhi) ltac:(lia)) as Hup.
  destruct (is_finite (f64_sub x y)) eqn:Hf.
  - destruct (max_finite (f64_sub x y) f64_zero Hf eq_refl) as [? ->]. split; [done|].
    rewrite leb_sv in Hup by done. apply Z.leb_le in Hup. simpl (sv f64_zero). lia.
  - destruct (f64_sub x y) as [| [] | | s m e]; try done; [by destruct hi|].
    simpl in Hwf, Hf. by rewrite Hwf in Hf.
Qed.

Lemma nonneg_sv x : nonneg x → (0 ≤ sv x)%Z.
Proof. intros [->|[_ ?]]%nonneg_cases; [done|lia]. Qed.

Lemma mul_comm x y : f64_mul x y = f64_mul y x.
Proof.
  destruct x as [[]|[]| |[]], y as [[]|[]| |[]]; try done; unfold f64_mul; simpl;
    by rewrite Pos.mul_comm, Z.add_comm.
Qed.

(** [x.min(1.0)] of a nonnegative number is in the unit interval. *)
Lemma min_unit x hi : nonneg x → in_unit hi → in_unit (f64_min x hi).
Proof.
  rewrite (in_unit_sv hi). intros Hx [Hhi ?]. apply in_unit_sv. destruct (nonneg_cases x Hx) as [->|[Hf ?]].
  - unfold f64_min. simpl. replace (SFltb hi (S754_infinity false)) with true by (by destruct hi). split; [done|lia].
  - destruct (min_finite x hi Hf Hhi) as [? ->]. split; [done|lia].
Qed.

Lemma sub_floor_unit x y : in_unit x → nonneg y → in_unit (f64_max (f64_sub x y) f64_zero).
Proof.
  rewrite !in_unit_sv. intros [Hx ?] Hy. rewrite <- sv_one.
  pose proof unit_pos. pose proof (nonneg_sv y Hy). apply sub_floor; rewrite ?sv_one; (done || lia).
Qed.

(** [max(.., 0.0)] of anything is nonnegative, a NaN included. *)
Lemma max_zero_nonneg x : well_formed x ∨ x = S754_nan → nonneg (f64_max x f64_zero).
Proof.
  intros [Hx| ->]; [|done]. destruct (is_finite x) eqn:Hf.
  - destruct (max_finite x f64_zero Hf eq_refl) as [? Hs]. apply nonneg_finite; [done|]. rewrite Hs. simpl. lia.
  - destruct x as [[]|[]| |[] m e]; try done; simpl in *; by rewrite Hx in Hf.
Qed.

(** [1.0 - x] stays in the unit interval. *)
Lemma one_minus_unit x : in_unit x → in_unit (f64_sub f64_one x).
Proof.
  rewrite !in_unit_sv. intros [Hx ?]. rewrite <- sv_one.
  apply (sub_between f64_one x f64_zero f64_one); rewrite ?sv_one; try done. simpl. lia.
Qed.

#[export] Hint Resolve unit_nonneg add_nonneg mul_nonneg min_unit sub_floor_unit one_minus_unit : kirino.

(** ** Nonnegative or not a number *)

Definition nonneg_nan (x : f64) : Prop := nonneg x ∨ x = S754_nan.

Lemma abs_nonneg_nan x : is_f64 x → nonneg_nan (f64_abs x).
Proof. intros Hx. destruct x; [by left|by left|by right|left; by split]. Qed.

Lemma add_nonneg_nan x y : nonneg_nan x → nonneg_nan y → nonneg_nan (f64_add x y).
Proof.
  intros [Hx| ->] [Hy| ->]; [left; by apply add_nonneg|right|by right|by right].
  by destruct x as [[]|[]| |[]].
Qed.

Lemma div_nonneg_nan x c : nonneg_nan x → is_finite c = true → (unit_sv ≤ sv c)%Z → nonneg_nan (f64_div x c).
Proof.
  intros [Hx| ->] Hc Hc1; [left|by right]. apply nonneg_cases in Hx as [->|[Hf H]].
  - pose proof unit_pos. destruct c as [| | |[] m e]; try done; simpl in Hc1; lia.
  - destruct (div_rounds_down x c Hf H Hc Hc1) as [??]. apply nonneg_finite; [done|lia].
Qed.

Lemma min_one_unit x : nonneg_nan x → in_unit (f64_min x f64_one).
Proof. intros [Hx| ->]; [|by split_and!]. apply min_unit; [done|by split_and!]. Qed.

#[global] Arguments f64_add _ _ : simpl never.
#[global] Arguments f64_sub _ _ : simpl never.
#[global] Arguments f64_mul _ _ : simpl never.
#[global] Arguments f64_div _ _ : simpl never.
#[global] Arguments f64_sqrt _ : simpl never.
#[global] Arguments f64_of_Z _ : simpl never.
#[global] Arguments f64_max _ _ : simpl never.
#[global] Arguments f64_min _ _ : simpl never.
#[global] Arguments f64_clamp _ _ _ : simpl never.
#[global] Arguments lit _ _ : simpl never.
