(* ===== verification/Challenges.v ===== *)
(** * One-shot secrets: src/src/auth/credential/one_time.rs,
    src/src/auth/passport/pow.rs, captcha.rs,
    src/src/service/verify/verification/

    - one-time credentials and their store of hashed tokens;
    - proof-of-work challenges;
    - arithmetic captchas;
    - verification codes, behind the e-mail and SMS verifiers.

    Instants are integers (nanoseconds), read once per call ([now]); a
    method behind a lock is one step.  SHA-256, [hex::encode] and
    [str::trim] are parameters, random draws and fresh ids arguments.  The spawned cleanup
    task of the captchas is the sequence of its ticks. *)

From stdpp Require Import pretty.
From S2P Require Import Prelude Codec.

(** Strings compared in constant time are compared. *)
Definition same (s t : string) : bool := constant_time_eq (bytes_of s) (bytes_of t).

Lemma same_spec s t : same s t = bool_decide (s = t).
Proof.
  unfold same. apply eq_bool_prop_intro. rewrite !Is_true_true, constant_time_eq_spec, bool_decide_eq_true.
  unfold bytes_of. split; [|by intros ->]. intros He. apply (inj str_codes). by apply (inj (fmap Z.of_N)) in He.
Qed.

(** ** One-time credentials *)

Record OneTimeCredential := { credential_token : string; used : bool }.

Definition TOKEN_LENGTH : nat := 32.
Definition TOKEN_CHARSET : list Ascii.ascii :=
  String.list_ascii_of_string "ABCDEFGHIJKLMNOPQRSTUVWXYZabcdefghijklmnopqrstuvwxyz0123456789".

(** [draws] are the indices drawn below the size of the alphabet. *)
Definition generate_token (draws : list nat) : string :=
  String.string_of_list_ascii ((λ i, default Ascii.zero (TOKEN_CHARSET !! i)) <$> draws).

Definition OneTimeCredential_new (token : string) : OneTimeCredential := {|
  credential_token := token; used := false |}.
Definition OneTimeCredential_generate (draws : list nat) : OneTimeCredential := {|
  credential_token := generate_token (take TOKEN_LENGTH draws); used := false |}.
Definition is_used (c : OneTimeCredential) : bool := used c.

(** The [compare_exchange] takes the flag from false to true. *)
Definition one_time_verify (c : OneTimeCredential) (token : string) : bool * OneTimeCredential :=
  if negb (same (credential_token c) token) then (false, c)
  else (negb (used c), {| credential_token := credential_token c; used := true |}).

Section OneTimeStore.
Context (sha256 : list Z → list Z) (hex_encode : list Z → string).

Definition hash_token (token : string) : string := hex_encode (sha256 (bytes_of token)).

(** The expiry of each pending token, by the hash of the token. *)
Record InMemoryOneTimeStore := { tokens : gmap string Z }.

Definition InMemoryOneTimeStore_new : InMemoryOneTimeStore := {| tokens := ∅ |}.

Definition pending_at (now : Z) (m : gmap string Z) : gmap string Z :=
  filter (λ e, now < e.2)%Z m.

Definition one_time_cleanup (s : InMemoryOneTimeStore) (now : Z) : nat * InMemoryOneTimeStore :=
  let kept := pending_at now (tokens s) in
  (size (tokens s) - size kept, {| tokens := kept |}).

Definition claim (s : InMemoryOneTimeStore) (token : string) (now : Z) : bool * InMemoryOneTimeStore :=
  let hash := hash_token token in
  (match tokens s !! hash with
   | Some expires_at => (now <? expires_at)%Z
   | None => false
   end, {| tokens := delete hash (tokens s) |}).

Definition one_time_issue (s : InMemoryOneTimeStore) (draws : list nat) (ttl_secs : Z) (now : Z)
    : string * InMemoryOneTimeStore :=
  let token := credential_token (OneTimeCredential_generate draws) in
  (token, {| tokens := <[hash_token token := (now + ttl_secs * nanos_per_sec)%Z]> (pending_at now (tokens s)) |}).

Inductive one_time_op :=
  | OpClaim (token : string)
  | OpIssueToken (draws : list nat) (ttl_secs : Z)
  | OpCleanup.

Definition one_time_step (s : InMemoryOneTimeStore) (ev : one_time_op * Z) : InMemoryOneTimeStore :=
  match ev.1 with
  | OpClaim token => (claim s token ev.2).2
  | OpIssueToken draws ttl => (one_time_issue s draws ttl ev.2).2
  | OpCleanup => (one_time_cleanup s ev.2).2
  end.
Definition one_time_run (s : InMemoryOneTimeStore) (evs : list (one_time_op * Z)) : InMemoryOneTimeStore :=
  foldl one_time_step s evs.

(** The hash an operation issues or claims. *)
Definition issues_hash (h : string) (ev : one_time_op * Z) : Prop :=
  match ev.1 with
  | OpIssueToken draws _ => hash_token (credential_token (OneTimeCredential_generate draws)) = h
  | _ => False
  end.
Definition claims_hash (h : string) (ev : one_time_op * Z) : Prop :=
  match ev.1 with
  | OpClaim token => hash_token token = h
  | _ => False
  end.

Lemma pending_lookup now m h : pending_at now m !! h = e ← m !! h; if (now <? e)%Z then Some e else None.
Proof.
  unfold pending_at. destruct (m !! h) as [e|] eqn:He; simpl.
  - destruct (Z.ltb_spec now e).
    + apply map_lookup_filter_Some. by split.
    + apply map_lookup_filter_None. right. intros e'. rewrite He. intros [= <-]. simpl. lia.
  - apply map_lookup_filter_None. by left.
Qed.

(** Without an issue of the same hash a pending token can only vanish. *)
Lemma one_time_step_entry h s ev e :
  ¬ issues_hash h ev → tokens (one_time_step s ev) !! h = Some e → tokens s !! h = Some e.
Proof.
  intros Hev. destruct ev as [[token|draws ttl|] now]; cbn in *.
  - by intros [_ ?]%lookup_delete_Some.
  - rewrite lookup_insert_ne by done. rewrite pending_lookup. destruct (tokens s !! h); simpl; [|done].
    by case_match.
  - rewrite pending_lookup. destruct (tokens s !! h); simpl; [|done]. by case_match.
Qed.

Lemma one_time_run_entry h s evs e :
  Forall (λ ev, ¬ issues_hash h ev) evs → tokens (one_time_run s evs) !! h = Some e → tokens s !! h = Some e.
Proof.
  intros Hevs. revert s. induction Hevs as [|ev evs Hev _ IH]; intros s He; [done|].
  eapply one_time_step_entry; [exact Hev|]. by apply IH.
Qed.

(** A token that is neither claimed nor issued again stays until it expires. *)
Lemma one_time_run_present h e s evs now :
  Forall (λ ev, ¬ issues_hash h ev ∧ ¬ claims_hash h ev ∧ (ev.2 ≤ now)%Z) evs → (now < e)%Z →
  tokens s !! h = Some e → tokens (one_time_run s evs) !! h = Some e.
Proof.
  intros Hevs Hnow. revert s. induction Hevs as [|ev evs (Hi & Hc & Ht) _ IH]; intros s Hs; [done|]. apply IH.
  destruct ev as [[token|draws ttl|] t]; cbn in *.
  - by rewrite lookup_delete_ne.
  - rewrite lookup_insert_ne by done. rewrite pending_lookup, Hs. simpl. by destruct (Z.ltb_spec t e); [|lia].
  - rewrite pending_lookup, Hs. simpl. by destruct (Z.ltb_spec t e); [|lia].
Qed.

(** One claim.  A token handed out by [issue] is claimed successfully at
    the first claim made before its time to live has passed, whatever the
    store does to other tokens meanwhile; and after a claim - successful or
    late - every further claim fails, until a token with the same hash is
    issued again. *)
Theorem token_claimed_once s draws ttl t0 evs1 now evs2 t2 :
  let '(token, s0) := one_time_issue s draws ttl t0 in
  let h := hash_token token in
  Forall (λ ev, ¬ issues_hash h ev ∧ ¬ claims_hash h ev ∧ (ev.2 ≤ now)%Z) evs1 →
  Forall (λ ev, ¬ issues_hash h ev) evs2 →
  let '(first, s1) := claim (one_time_run s0 evs1) token now in
  first = (now <? t0 + ttl * nanos_per_sec)%Z ∧ (claim (one_time_run s1 evs2) token t2).1 = false.
Proof.
  cbn [one_time_issue]. set (token := credential_token _). set (s0 := {| tokens := _ |}). intros H1 H2.
  cbn [claim fst]. assert (Hs0 : tokens s0 !! hash_token token = Some (t0 + ttl * nanos_per_sec)%Z)
    by apply lookup_insert_eq.
  split.
  - destruct (tokens (one_time_run s0 evs1) !! hash_token token) as [e|] eqn:He.
    + apply one_time_run_entry in He; [congruence|]. eapply Forall_impl; [exact H1|]. by intros ev (? & _).
    + destruct (Z.ltb_spec now (t0 + ttl * nanos_per_sec)) as [Hlt|]; [|done].
      by rewrite (one_time_run_present _ _ s0 evs1 now H1 Hlt Hs0) in He.
  - destruct (tokens (one_time_run _ evs2) !! hash_token token) as [e|] eqn:He; [|done].
    apply one_time_run_entry in He; [|done]. simpl in He. by rewrite lookup_delete_eq in He.
Qed.

(** A one-time credential verifies once.  Over any sequence of attempts,
    in any order of the calls, exactly the first attempt with the right
    token succeeds. *)
Theorem one_time_verifies_once (token : string) (before after : list string) :
  Forall (λ t, t ≠ token) before →
  let attempt cs t := let '(r, c) := one_time_verify cs.2 t in (cs.1 ++ [r], c) in
  let c0 := OneTimeCredential_new token in
  (foldl attempt ([], c0) (before ++ token :: after)).1 =
    replicate (length before) false ++ true :: replicate (length after) false.
Proof.
  intros Hb attempt c0.
  assert (Hwrong : ∀ l rs, Forall (λ t, t ≠ token) l →
            foldl attempt (rs, c0) l = (rs ++ replicate (length l) false, c0)).
  { induction l as [|t l IH]; intros rs Hl; [by rewrite app_nil_r|]. apply Forall_cons in Hl as [Ht Hl]. cbn [foldl].
    unfold attempt at 2, one_time_verify. cbn [snd fst c0 OneTimeCredential_new credential_token].
    rewrite same_spec, bool_decide_false by done. cbn [negb]. rewrite IH by done. by rewrite <- app_assoc. }
  assert (Hspent : ∀ l rs c, used c = true → (foldl attempt (rs, c) l).1 = rs ++ replicate (length l) false).
  { induction l as [|t l IH]; intros rs c Hc; [by rewrite app_nil_r|]. cbn [foldl].
    unfold attempt at 2, one_time_verify. cbn [snd fst]. destruct (same _ t); cbn [negb].
    - rewrite IH by done. rewrite Hc. by rewrite <- app_assoc.
    - rewrite IH by done. by rewrite <- app_assoc. }
  rewrite foldl_app, Hwrong by done. cbn [foldl]. unfold attempt at 2, one_time_verify.
  cbn [snd fst c0 OneTimeCredential_new credential_token used]. rewrite same_spec, bool_decide_true by done. cbn [negb].
  rewrite Hspent by done. by rewrite <- app_assoc.
Qed.
End OneTimeStore.

(** ** Proof of work *)

Inductive PowError := InvalidSeed | PowExpired | InsufficientWork | InvalidBits.

Record PowChallenge := {
  seeds : gmap string Z;
  pow_ttl : Z;
  cap : nat;
}.

Definition DEFAULT_POW_BITS : Z := 12.
Definition SEED_TTL_SECS : Z := 120.
Definition SEED_STORE_CAP : nat := 10 * 1000.

Definition with_limits (ttl : Z) (c : nat) : PowChallenge := {| seeds := ∅; pow_ttl := ttl; cap := c |}.
Definition PowChallenge_new : PowChallenge := with_limits (SEED_TTL_SECS * nanos_per_sec) SEED_STORE_CAP.
Definition with_seeds (p : PowChallenge) (m : gmap string Z) : PowChallenge := {|
  seeds := m; pow_ttl := pow_ttl p; cap := cap p |}.

Definition prune (p : PowChallenge) (now : Z) : PowChallenge :=
  with_seeds p (filter (λ e, now - e.2 ≤ pow_ttl p)%Z (seeds p)).

(** [drain], [sort_by_key], [rev().take(cap)] and [extend]. *)
Definition keep_newest (n : nat) (m : gmap string Z) : gmap string Z :=
  list_to_map (take n (reverse (sort_by_key snd (map_to_list m)))).

(** [seed] is the hexadecimal digest of the random bytes. *)
Definition pow_issue (p : PowChallenge) (seed : string) (bits : Z) (now : Z)
    : (string * Z + PowError) * PowChallenge :=
  if negb ((4 <=? bits)%Z && (bits <=? 32)%Z) then (inr InvalidBits, p)
  else
    let p := prune p now in
    let store := if cap p <=? size (seeds p) then keep_newest (cap p) (seeds p) else seeds p in
    (inl (seed, bits), with_seeds p (<[seed := now]> store)).

(** [u8::leading_zeros] of a byte that is not zero. *)
Definition byte_leading_zeros (b : Z) : Z := 7 - Z.log2 b.

Fixpoint leading_zero_bits (hash : list Z) : Z :=
  match hash with
  | [] => 0
  | b :: hash => if (b =? 0)%Z then 8 + leading_zero_bits hash else byte_leading_zeros b
  end.

Definition pow_len (p : PowChallenge) : nat := size (seeds p).

Section Pow.
Context (sha256 : list Z → list Z).

Definition pow_hash (seed : string) (counter : N) : list Z := sha256 (bytes_of seed ++ bytes_of (pretty counter)).

Definition pow_verify (p : PowChallenge) (seed : string) (counter : N) (bits : Z) (now : Z)
    : (unit + PowError) * PowChallenge :=
  match seeds p !! seed with
  | None => (inr InvalidSeed, p)
  | Some issued_at =>
      let p := with_seeds p (delete seed (seeds p)) in
      if (pow_ttl p <? now - issued_at)%Z then (inr PowExpired, p)
      else if (leading_zero_bits (pow_hash seed counter) <? bits)%Z then (inr InsufficientWork, p)
      else (inl tt, p)
  end.

Inductive pow_op :=
  | OpPowIssue (seed : string) (bits : Z)
  | OpPowVerify (seed : string) (counter : N) (bits : Z).

Definition pow_step (p : PowChallenge) (ev : pow_op * Z) : PowChallenge :=
  match ev.1 with
  | OpPowIssue seed bits => (pow_issue p seed bits ev.2).2
  | OpPowVerify seed counter bits => (pow_verify p seed counter bits ev.2).2
  end.
Definition pow_run (p : PowChallenge) (evs : list (pow_op * Z)) : PowChallenge := foldl pow_step p evs.

(** Leading zeros.  [leading_zero_bits] of a digest reaches [k] exactly
    when the number the digest stands for is below two to the number of its
    bits less [k]: it is the difficulty the documentation describes. *)
Theorem leading_zero_bits_spec hash k :
  Forall is_u8 hash → (0 ≤ k ≤ 8 * Z.of_nat (length hash))%Z →
  (0 ≤ leading_zero_bits hash ≤ 8 * Z.of_nat (length hash))%Z ∧
  (k ≤ leading_zero_bits hash ↔ be_value hash < 2 ^ (8 * Z.of_nat (length hash) - k))%Z.
Proof.
  intros Hall. revert k. induction Hall as [|b hash Hb Hall IH]; intros k Hk.
  { simpl in Hk. replace k with 0%Z by lia. by split; [|simpl]. }
  cbn [length leading_zero_bits] in *. rewrite Nat2Z.inj_succ in *. set (n := Z.of_nat (length hash)) in *.
  pose proof (be_value_range hash Hall) as Hr. fold n in Hr. rewrite be_value_cons. fold n.
  assert (H256 : (256 ^ n = 2 ^ (8 * n))%Z) by (rewrite Z.pow_mul_r by lia; done). rewrite H256 in *.
  assert (Hpos : (0 < 2 ^ (8 * n))%Z) by (apply Z.pow_pos_nonneg; lia).
  destruct (Z.eqb_spec b 0) as [->|Hne].
  - destruct (IH 0%Z ltac:(lia)) as [Hlz _]. split; [lia|]. rewrite Z.mul_0_l, Z.add_0_l.
    destruct (Z.le_gt_cases k 8) as [Hk8|Hk8].
    + assert (2 ^ (8 * n) ≤ 2 ^ (8 * Z.succ n - k))%Z by (apply Z.pow_le_mono_r; lia). lia.
    + destruct (IH (k - 8)%Z ltac:(lia)) as [_ IH']. replace (8 * Z.succ n - k)%Z with (8 * n - (k - 8))%Z by lia.
      rewrite <- IH'. lia.
  - unfold byte_leading_zeros, is_u8 in *.
    assert (Hlog : (0 ≤ Z.log2 b < 8)%Z) by (split; [apply Z.log2_nonneg|apply Z.log2_lt_pow2; lia]).
    split; [lia|]. destruct (Z.log2_spec b ltac:(lia)) as [Hlo Hhi].
    assert (Hdiv : (b * 2 ^ (8 * n) + be_value hash < 2 ^ (8 * Z.succ n - k) ↔ k ≤ 8 ∧ b < 2 ^ (8 - k))%Z).
    { destruct (Z.le_gt_cases k 8) as [Hk8|Hk8].
      - replace (8 * Z.succ n - k)%Z with ((8 - k) + 8 * n)%Z by lia. rewrite Z.pow_add_r by lia.
        assert (0 < 2 ^ (8 - k))%Z by (apply Z.pow_pos_nonneg; lia). split; [intros; split; [done|nia]|intros; nia].
      - assert (2 ^ (8 * Z.succ n - k) ≤ 2 ^ (8 * n))%Z by (apply Z.pow_le_mono_r; lia). split; [nia|lia]. }
    rewrite Hdiv. split.
    + intros Hle. split; [lia|]. eapply Z.lt_le_trans; [exact Hhi|]. apply Z.pow_le_mono_r; lia.
    + intros [Hk8 Hlt]. assert (2 ^ Z.log2 b < 2 ^ (8 - k))%Z as Hp by lia. apply Z.pow_lt_mono_r_iff in Hp; lia.
Qed.

Lemma keep_newest_size n m : size (keep_newest n m) ≤ n.
Proof.
  unfold keep_newest. set (l := take n _). assert (length l ≤ n) by (unfold l; rewrite length_take; lia).
  etrans; [|done]. clear. induction l as [|[k v] l IH]; simpl; [by rewrite map_size_empty|].
  rewrite map_size_insert. destruct (list_to_map l !! k); simpl; lia.
Qed.

Lemma pow_step_bounded c p ev : cap p = c ∧ pow_len p ≤ S c → cap (pow_step p ev) = c ∧ pow_len (pow_step p ev) ≤ S c.
Proof.
  unfold pow_len. intros [<- Hs]. destruct ev as [[seed bits|seed counter bits] now]; unfold pow_step; cbn [fst snd].
  - unfold pow_issue. case_match; [done|]. cbn [snd cap seeds with_seeds prune]. split; [done|].
    set (m := filter _ _). assert (Hm : size (if cap p <=? size m then keep_newest (cap p) m else m) ≤ cap p).
    { destruct (Nat.leb_spec (cap p) (size m)); [apply keep_newest_size|lia]. }
    rewrite map_size_insert. destruct (_ !! seed); simpl; lia.
  - unfold pow_verify. destruct (seeds p !! seed) eqn:Hseed; [|done].
    assert (size (delete seed (seeds p)) ≤ S (cap p)) by (rewrite map_size_delete_Some by (by rewrite Hseed); lia).
    by repeat case_match.
Qed.

Lemma keep_newest_sub n m seed t : keep_newest n m !! seed = Some t → m !! seed = Some t.
Proof.
  intros Ht%elem_of_list_to_map_2. apply elem_of_map_to_list. rewrite <- (sort_by_key_perm snd (map_to_list m)).
  apply elem_of_take in Ht as (i & Hi & _). apply list_elem_of_lookup_2 in Hi. by rewrite elem_of_reverse in Hi.
Qed.

Lemma pow_step_static p ev : pow_ttl (pow_step p ev) = pow_ttl p.
Proof.
  destruct ev as [[seed b|seed k b] t]; unfold pow_step; cbn [fst snd].
  - unfold pow_issue. by destruct (negb _).
  - unfold pow_verify. by repeat case_match.
Qed.

(** A consumed seed stays away until it is issued again. *)
Lemma pow_step_absent p ev seed :
  match ev.1 with OpPowIssue seed' _ => seed' ≠ seed | _ => True end →
  seeds p !! seed = None → seeds (pow_step p ev) !! seed = None.
Proof.
  destruct ev as [[seed' b|seed' k b] t]; unfold pow_step; cbn [fst snd]; intros Hev Hp.
  - unfold pow_issue. destruct (negb _); [done|]. cbn [snd seeds with_seeds]. rewrite lookup_insert_ne by done.
    assert (Hprune : seeds (prune p t) !! seed = None).
    { cbn [seeds prune with_seeds]. apply map_lookup_filter_None. by left. }
    case_match; [|done]. destruct (keep_newest _ _ !! seed) eqn:Hk; [|done].
    apply keep_newest_sub in Hk. congruence.
  - unfold pow_verify. destruct (seeds p !! seed'); [|done]. repeat case_match; cbn [snd seeds with_seeds];
      rewrite lookup_delete_None; auto.
Qed.

Lemma pow_verify_accepts p seed counter bits now :
  (pow_verify p seed counter bits now).1 = inl tt ↔
    ∃ issued_at, seeds p !! seed = Some issued_at ∧ (now - issued_at ≤ pow_ttl p)%Z ∧
      (bits ≤ leading_zero_bits (pow_hash seed counter))%Z.
Proof.
  unfold pow_verify. destruct (seeds p !! seed) as [t|] eqn:Ht; cbn [fst]; [|by split; [|intros (? & ? & _)]].
  cbn [pow_ttl with_seeds]. destruct (Z.ltb_spec (pow_ttl p) (now - t)).
  { split; [done|]. intros (t' & [= <-] & ? & _). lia. }
  destruct (Z.ltb_spec (leading_zero_bits (pow_hash seed counter)) bits).
  { split; [done|]. intros (t' & [= <-] & _ & ?). lia. }
  split; [|done]. intros _. by exists t.
Qed.

(** C25: A proof is used once, and the store is bounded.  A solution is
    accepted exactly when its seed is stored, not older than the time to
    live, and its hash has the asked number of leading zeros; right or wrong,
    the first attempt consumes the seed, and every further attempt is
    refused as an invalid seed until the seed is issued again.  From a new
    store no history keeps more seeds than the cap and one. *)
Theorem proof_used_once ttl c evs seed counter bits now :
  let p := pow_run (with_limits ttl c) evs in
  ((pow_verify p seed counter bits now).1 = inl tt ↔
     ∃ issued_at, seeds p !! seed = Some issued_at ∧ (now - issued_at ≤ ttl)%Z ∧
       (bits ≤ leading_zero_bits (pow_hash seed counter))%Z) ∧
  (∀ later counter' bits' now',
     Forall (λ ev, match ev.1 with OpPowIssue seed' _ => seed' ≠ seed | _ => True end) later →
     (pow_verify (pow_run (pow_verify p seed counter bits now).2 later) seed counter' bits' now').1 = inr InvalidSeed) ∧
  pow_len p ≤ S c.
Proof.
  intros p. split_and!.
  - rewrite pow_verify_accepts. assert (Httl : pow_ttl p = ttl); [|by rewrite Httl].
    unfold p. generalize (eq_refl : pow_ttl (with_limits ttl c) = ttl). generalize (with_limits ttl c).
    clear p. induction evs as [|ev evs IH]; intros p Hp; [done|]. apply IH. by rewrite pow_step_static.
  - intros later counter' bits' now' Hlater.
    assert (Hgone : seeds (pow_verify p seed counter bits now).2 !! seed = None).
    { unfold pow_verify. destruct (seeds p !! seed) eqn:Ht; [|done]. repeat case_match; apply lookup_delete_eq. }
    revert Hgone. generalize (pow_verify p seed counter bits now).2. clear -Hlater.
    induction Hlater as [|ev later Hev _ IH]; intros q Hq; [by unfold pow_verify; cbn; rewrite Hq|].
    by apply IH, pow_step_absent.
  - assert (Hgen : ∀ evs p, cap p = c ∧ pow_len p ≤ S c → cap (pow_run p evs) = c ∧ pow_len (pow_run p evs) ≤ S c).
    { clear. induction evs as [|ev evs IH]; intros p Hp; [done|]. by apply IH, pow_step_bounded. }
    apply Hgen. split; [done|]. unfold pow_len. simpl. rewrite map_size_empty. lia.
Qed.

(** The cap is exceeded by one, already by the second seed at a cap of 1. *)
Lemma cap_exceeded_by_one :
  pow_len (pow_run (with_limits nanos_per_sec 1) [(OpPowIssue "a" 12, 0%Z); (OpPowIssue "b" 12, 1%Z)]) = 2.
Proof. by vm_compute. Qed.
End Pow.

(** ** Verification codes *)

Record PendingCode := {
  pending_code : string;
  code_expires_at : Z;
  code_attempts : nat;
  code_max : nat;
}.

Record VerificationCodeStore := { codes : gmap string PendingCode }.

Definition VerificationCodeStore_new : VerificationCodeStore := {| codes := ∅ |}.

Definition store_with_attempts (s : VerificationCodeStore) (key code : string) (ttl : Z) (max_attempts : nat)
    (now : Z) : VerificationCodeStore := {|
  codes := <[key := {| pending_code := code; code_expires_at := now + ttl; code_attempts := 0;
                       code_max := max_attempts `max` 1 |}]>
             (filter (λ e, now < code_expires_at e.2)%Z (codes s)) |}.
Definition store_code (s : VerificationCodeStore) (key code : string) (ttl now : Z) : VerificationCodeStore :=
  store_with_attempts s key code ttl 3 now.

Definition verify_code (s : VerificationCodeStore) (key code : string) (now : Z) : bool * VerificationCodeStore :=
  let dropped := {| codes := delete key (codes s) |} in
  match codes s !! key with
  | None => (false, s)
  | Some p =>
      if (code_expires_at p <=? now)%Z then (false, dropped)
      else
        let p := {| pending_code := pending_code p; code_expires_at := code_expires_at p;
                    code_attempts := S (code_attempts p); code_max := code_max p |} in
        if code_max p <? code_attempts p then (false, dropped)
        else if same (pending_code p) code then (true, dropped)
        else (false, {| codes := <[key := p]> (codes s) |})
  end.

(** [draws] are the digits drawn. *)
Definition generate_numeric_code (draws : list nat) : string :=
  String.string_of_list_ascii ((λ d, Ascii.ascii_of_nat (48 + d)) <$> draws).

(** [EmailVerifier] and [SmsVerifier] alike: the address is the key; the
    message itself is never sent by this crate. *)
Record CodeVerifier := { sender : string; code_store : VerificationCodeStore }.
Definition DEFAULT_TTL : Z := 300 * nanos_per_sec.

Definition CodeVerifier_new (s : string) : CodeVerifier := {|
  sender := s; code_store := VerificationCodeStore_new |}.
Definition send_code_with_ttl (v : CodeVerifier) (address code : string) (ttl now : Z) : result unit * CodeVerifier :=
  (Ok tt, {| sender := sender v; code_store := store_code (code_store v) address code ttl now |}).
Definition send_code (v : CodeVerifier) (address code : string) (now : Z) : result unit * CodeVerifier :=
  send_code_with_ttl v address code DEFAULT_TTL now.
Definition check_code (v : CodeVerifier) (address code : string) (now : Z) : result bool * CodeVerifier :=
  let '(r, s) := verify_code (code_store v) address code now in
  (Ok r, {| sender := sender v; code_store := s |}).

Inductive code_op :=
  | OpStore (key code : string) (ttl : Z) (max_attempts : nat)
  | OpGuess (key code : string).

Definition code_step (s : VerificationCodeStore) (ev : code_op * Z) : VerificationCodeStore :=
  match ev.1 with
  | OpStore key code ttl max => store_with_attempts s key code ttl max ev.2
  | OpGuess key code => (verify_code s key code ev.2).2
  end.
Definition code_run (s : VerificationCodeStore) (evs : list (code_op * Z)) : VerificationCodeStore := foldl code_step s evs.

Definition stores_key (key : string) (ev : code_op * Z) : Prop :=
  match ev.1 with OpStore k _ _ _ => k = key | _ => False end.
Definition guesses_key (key : string) (ev : code_op * Z) : bool :=
  match ev.1 with OpGuess k _ => bool_decide (k = key) | _ => false end.
Definition guesses_right (key code : string) (ev : code_op * Z) : bool :=
  match ev.1 with OpGuess k c => bool_decide (k = key) && bool_decide (c = code) | _ => false end.

Lemma retained_code (m : gmap string PendingCode) now key p :
  filter (λ e, now < code_expires_at e.2)%Z m !! key = Some p ↔ m !! key = Some p ∧ (now < code_expires_at p)%Z.
Proof. by rewrite map_lookup_filter_Some. Qed.

(** What one operation does to the entry of a key it does not store. *)
Lemma code_step_none s ev key : ¬ stores_key key ev → codes s !! key = None → codes (code_step s ev) !! key = None.
Proof.
  intros Hev Hn. destruct ev as [[k c ttl mx|k c] t]; unfold code_step; cbn [fst snd stores_key] in *.
  - cbn. rewrite lookup_insert_ne by done. apply map_lookup_filter_None. by left.
  - unfold verify_code. destruct (decide (k = key)) as [->|Hne]; [by rewrite Hn|].
    destruct (codes s !! k); [|done]. repeat case_match; cbn [snd codes];
      rewrite ?lookup_delete_ne, ?lookup_insert_ne by done; done.
Qed.

Lemma code_step_some s ev key p : ¬ stores_key key ev → codes s !! key = Some p →
  let s' := code_step s ev in
  (codes s' !! key = None ∧ ((code_expires_at p ≤ ev.2)%Z ∨ guesses_right key (pending_code p) ev = true ∨
                             code_max p ≤ code_attempts p)) ∨
  (guesses_right key (pending_code p) ev = false ∧
   codes s' !! key = Some {| pending_code := pending_code p; code_expires_at := code_expires_at p;
     code_attempts := (if guesses_key key ev then 1 else 0) + code_attempts p; code_max := code_max p |}).
Proof.
  intros Hev Hp. destruct p as [code expires n mx].
  destruct ev as [[k c ttl mx'|k c] t]; unfold code_step, guesses_right, guesses_key, stores_key in *; cbn [fst snd] in *.
  - cbn. rewrite lookup_insert_ne by done. destruct (Z.ltb_spec t expires) as [Hlt|Hge].
    + right. split; [done|]. by apply retained_code.
    + left. split; [|by left]. apply map_lookup_filter_None. right. intros p' Hp'. simpl. rewrite Hp in Hp'.
      injection Hp' as <-. simpl. lia.
  - unfold verify_code. destruct (decide (k = key)) as [->|Hne].
    + rewrite Hp, !bool_decide_true by done. cbn [code_expires_at pending_code code_attempts code_max andb].
      destruct (Z.leb_spec expires t); [left; split; [apply lookup_delete_eq|by left]|].
      destruct (Nat.ltb_spec mx (S n)); [left; split; [apply lookup_delete_eq|right; right; lia]|].
      rewrite same_spec. destruct (decide (c = code)) as [->|Hc].
      * rewrite !bool_decide_true by done. left. split; [apply lookup_delete_eq|by right; left].
      * rewrite !bool_decide_false by done. right. split; [done|]. apply lookup_insert_eq.
    + rewrite !bool_decide_false by done. cbn [andb]. right. split; [done|]. cbn [Nat.add].
      destruct (codes s !! k); [|done]. repeat case_match; cbn [snd codes];
        rewrite ?lookup_delete_ne, ?lookup_insert_ne by done; done.
Qed.

Definition guesses (key : string) (evs : list (code_op * Z)) : nat := length (filter (λ ev, guesses_key key ev = true) evs).

Lemma code_run_none s evs key :
  Forall (λ ev, ¬ stores_key key ev) evs → codes s !! key = None → codes (code_run s evs) !! key = None.
Proof.
  intros Hevs. revert s. induction Hevs as [|ev evs Hev _ IH]; intros s Hn; [done|]. by apply IH, code_step_none.
Qed.

(** The entry of a key after a history: there until it expires, is guessed
    or runs out of attempts. *)
Lemma code_run_some s evs key p now :
  Forall (λ ev, ¬ stores_key key ev ∧ (ev.2 ≤ now)%Z) evs → codes s !! key = Some p →
  match codes (code_run s evs) !! key with
  | Some q => q = {| pending_code := pending_code p; code_expires_at := code_expires_at p;
                     code_attempts := guesses key evs + code_attempts p; code_max := code_max p |} ∧
              existsb (guesses_right key (pending_code p)) evs = false
  | None => (code_expires_at p ≤ now)%Z ∨ existsb (guesses_right key (pending_code p)) evs = true ∨
            code_max p ≤ guesses key evs + code_attempts p
  end.
Proof.
  intros Hevs. revert s p. induction Hevs as [|ev evs (Hev & Ht) Hevs IH]; intros s p Hp.
  { cbn. rewrite Hp. by destruct p. }
  assert (Hns : Forall (λ ev, ¬ stores_key key ev) evs) by (eapply Forall_impl; [exact Hevs|]; by intros ? []).
  cbn [code_run foldl existsb]. fold (code_run (code_step s ev) evs).
  assert (Hg : guesses key (ev :: evs) = (if guesses_key key ev then 1 else 0) + guesses key evs).
  { unfold guesses. rewrite filter_cons. destruct (guesses_key key ev); by rewrite ?decide_True, ?decide_False by done. }
  destruct (code_step_some s ev key p Hev Hp) as [[Hn Hwhy]|[Hwrong Hs]].
  - rewrite (code_run_none _ _ _ Hns Hn), Hg. destruct Hwhy as [?|[->|?]]; [left; lia|by right; left|right; right; lia].
  - specialize (IH _ _ Hs). cbn [pending_code code_expires_at code_attempts code_max] in IH. rewrite Hg, Hwrong. cbn [orb].
    destruct (codes (code_run _ _) !! key) as [q|].
    + destruct IH as [-> ->]. split; [|done]. f_equal. lia.
    + destruct IH as [?|[?|?]]; [by left|by right; left|right; right; lia].
Qed.

(** The life of a verification code.  After a code has been stored for a
    key, and until one is stored for it again, a guess is accepted exactly
    when it is the code, the code has not been accepted before, it has not
    expired, and fewer than the allowed number of guesses were made for the
    key - whatever happens to other keys meanwhile. *)
Theorem code_accepted_iff s key code ttl max_attempts t0 evs guess now :
  Forall (λ ev, ¬ stores_key key ev ∧ (ev.2 ≤ now)%Z) evs →
  let s' := code_run (store_with_attempts s key code ttl max_attempts t0) evs in
  (verify_code s' key guess now).1 = true ↔
    guess = code ∧ (now < t0 + ttl)%Z ∧ guesses key evs < max_attempts `max` 1 ∧
    existsb (guesses_right key code) evs = false.
Proof.
  intros Hevs s'.
  pose proof (code_run_some (store_with_attempts s key code ttl max_attempts t0) evs key
    {| pending_code := code; code_expires_at := t0 + ttl; code_attempts := 0; code_max := max_attempts `max` 1 |}
    now Hevs (lookup_insert_eq _ _ _)) as Hrun. fold s' in Hrun. unfold verify_code.
  cbn [pending_code code_expires_at code_attempts code_max] in Hrun. rewrite Nat.add_0_r in Hrun.
  destruct (codes s' !! key) as [q|].
  - destruct Hrun as [-> Hright]. cbn [pending_code code_expires_at code_attempts code_max]. rewrite Hright.
    destruct (Z.leb_spec (t0 + ttl) now); [split; [done|intros (_ & ? & _); lia]|].
    destruct (Nat.ltb_spec (max_attempts `max` 1) (S (guesses key evs))); [split; [done|intros (_ & _ & ? & _); lia]|].
    rewrite same_spec. destruct (decide (code = guess)) as [->|Hne].
    + rewrite bool_decide_true by done. cbn. split; [|done]. intros _. split_and!; [done|lia|lia|done].
    + rewrite bool_decide_false by done. cbn. split; [done|]. intros (-> & _). done.
  - cbn. split; [done|]. intros (_ & Hlt & Hg & Hr). destruct Hrun as [?|[Hr'|?]]; [lia|congruence|lia].
Qed.

(** ** Captchas *)

Record ChallengeEntry := { answer : string; created_at : Z; attempts : nat }.

Record CaptchaVerifier := {
  challenges : gmap string ChallengeEntry;
  captcha_ttl : Z;
  max_attempts : nat;
  has_cleanup_task : bool;
}.

Definition DEFAULT_CAPTCHA_TTL_SECS : Z := 300.
Definition DEFAULT_CAPTCHA_MAX_ATTEMPTS : nat := 3.
Definition CAPTCHA_CLEANUP_THRESHOLD : nat := 1000.

Definition CaptchaVerifier_new : CaptchaVerifier := {|
  challenges := ∅; captcha_ttl := DEFAULT_CAPTCHA_TTL_SECS * nanos_per_sec;
  max_attempts := DEFAULT_CAPTCHA_MAX_ATTEMPTS; has_cleanup_task := false |}.
Definition captcha_with_options (ttl : Z) (max : nat) : CaptchaVerifier := {|
  challenges := ∅; captcha_ttl := ttl; max_attempts := max `max` 1; has_cleanup_task := false |}.
Definition with_background_cleanup (v : CaptchaVerifier) : CaptchaVerifier := {|
  challenges := challenges v; captcha_ttl := captcha_ttl v; max_attempts := max_attempts v; has_cleanup_task := true |}.
Definition with_challenges (v : CaptchaVerifier) (m : gmap string ChallengeEntry) : CaptchaVerifier := {|
  challenges := m; captcha_ttl := captcha_ttl v; max_attempts := max_attempts v; has_cleanup_task := has_cleanup_task v |}.

(** [retain(|_, entry| now.duration_since(entry.created_at) <= ttl)] *)
Definition unexpired (ttl now : Z) (m : gmap string ChallengeEntry) : gmap string ChallengeEntry :=
  filter (λ e, now - created_at e.2 ≤ ttl)%Z m.

(** Also a tick of the spawned cleanup task. *)
Definition captcha_cleanup (v : CaptchaVerifier) (now : Z) : CaptchaVerifier :=
  with_challenges v (unexpired (captcha_ttl v) now (challenges v)).

Record CaptchaChallenge := { captcha_id : string; challenge_data : string }.

(** [a] and [b] are drawn between 1 and 99. *)
Definition generate_challenge (v : CaptchaVerifier) (id : string) (a b : N) (now : Z)
    : result CaptchaChallenge * CaptchaVerifier :=
  (Ok {| captcha_id := id; challenge_data := pretty a +:+ " + " +:+ pretty b +:+ " = ?" |},
   with_challenges v (<[id := {| answer := pretty (a + b)%N; created_at := now; attempts := 0 |}]>
                        (unexpired (captcha_ttl v) now (challenges v)))).

Definition active_challenge_count (v : CaptchaVerifier) : nat := size (challenges v).

Section Captcha.
Context (trim : string → string).

Definition captcha_verify (v : CaptchaVerifier) (id response : string) (now : Z) : result bool * CaptchaVerifier :=
  let dropped := with_challenges v (delete id (challenges v)) in
  match challenges v !! id with
  | None => (Err (Anyhow "challenge not found or expired"), v)
  | Some e =>
      if (captcha_ttl v <? now - created_at e)%Z then (Err (Anyhow "challenge expired"), dropped)
      else if max_attempts v <=? attempts e then
        (Err (Anyhow ("too many attempts (max " +:+ pretty (max_attempts v) +:+ ")")), dropped)
      else
        let e := {| answer := answer e; created_at := created_at e; attempts := S (attempts e) |} in
        let correct := same (answer e) (trim response) in
        let m := if correct then delete id (challenges v) else <[id := e]> (challenges v) in
        (Ok correct,
         with_challenges v (if CAPTCHA_CLEANUP_THRESHOLD <? size m then unexpired (captcha_ttl v) now m else m))
  end.

Inductive captcha_op :=
  | OpGenerate (id : string) (a b : N)
  | OpAnswer (id response : string)
  | OpCaptchaCleanup.

Definition captcha_step (v : CaptchaVerifier) (ev : captcha_op * Z) : CaptchaVerifier :=
  match ev.1 with
  | OpGenerate id a b => (generate_challenge v id a b ev.2).2
  | OpAnswer id response => (captcha_verify v id response ev.2).2
  | OpCaptchaCleanup => captcha_cleanup v ev.2
  end.
Definition captcha_run (v : CaptchaVerifier) (evs : list (captcha_op * Z)) : CaptchaVerifier := foldl captcha_step v evs.

Definition generates (id : string) (ev : captcha_op * Z) : Prop :=
  match ev.1 with OpGenerate i _ _ => i = id | _ => False end.
Definition answers_id (id : string) (ev : captcha_op * Z) : bool :=
  match ev.1 with OpAnswer i _ => bool_decide (i = id) | _ => false end.
Definition answers_right (id right : string) (ev : captcha_op * Z) : bool :=
  match ev.1 with OpAnswer i r => bool_decide (i = id) && bool_decide (trim r = right) | _ => false end.
Definition tries (id : string) (evs : list (captcha_op * Z)) : nat := length (filter (λ ev, answers_id id ev = true) evs).

Lemma captcha_step_static v ev :
  captcha_ttl (captcha_step v ev) = captcha_ttl v ∧ max_attempts (captcha_step v ev) = max_attempts v.
Proof.
  destruct ev as [[] now]; unfold captcha_step; cbn [fst snd]; try done. unfold captcha_verify.
  destruct (challenges v !! id); [|done]. by repeat case_match.
Qed.

Lemma unexpired_keep ttl now m id e : m !! id = Some e → (now - created_at e ≤ ttl)%Z →
  unexpired ttl now m !! id = Some e.
Proof. intros. unfold unexpired. by apply map_lookup_filter_Some. Qed.
Lemma unexpired_cases ttl now m id e : m !! id = Some e →
  unexpired ttl now m !! id = None ∧ (ttl < now - created_at e)%Z ∨ unexpired ttl now m !! id = Some e.
Proof.
  intros He. destruct (Z.le_gt_cases (now - created_at e) ttl); [right; by apply unexpired_keep|left].
  split; [|lia]. apply map_lookup_filter_None. right. intros e' He'. rewrite He in He'. injection He' as <-. simpl. lia.
Qed.
Lemma unexpired_none ttl now m id : m !! id = None → unexpired ttl now m !! id = None.
Proof. intros. apply map_lookup_filter_None. by left. Qed.

Lemma captcha_step_none v ev id : ¬ generates id ev → challenges v !! id = None → challenges (captcha_step v ev) !! id = None.
Proof.
  intros Hev Hn. destruct ev as [[i a b|i r|] now]; unfold captcha_step; cbn [fst snd generates] in *.
  - cbn. rewrite lookup_insert_ne by done. by apply unexpired_none.
  - unfold captcha_verify. destruct (decide (i = id)) as [->|Hne]; [by rewrite Hn|].
    destruct (challenges v !! i); [|done]. destruct (_ <? _)%Z; [|destruct (_ <=? _); [|destruct (same _ _)]];
      cbn [snd challenges with_challenges]; repeat case_match; try apply unexpired_none;
      rewrite ?lookup_delete_ne, ?lookup_insert_ne by done; done.
  - cbn. by apply unexpired_none.
Qed.

Lemma captcha_run_none v evs id :
  Forall (λ ev, ¬ generates id ev) evs → challenges v !! id = None → challenges (captcha_run v evs) !! id = None.
Proof.
  intros Hevs. revert v. induction Hevs as [|ev evs Hev _ IH]; intros v Hn; [done|]. by apply IH, captcha_step_none.
Qed.

Lemma captcha_step_some v ev id e : ¬ generates id ev → challenges v !! id = Some e →
  let v' := captcha_step v ev in
  (challenges v' !! id = None ∧ ((captcha_ttl v < ev.2 - created_at e)%Z ∨ answers_right id (answer e) ev = true ∨
                                 max_attempts v ≤ attempts e)) ∨
  (answers_right id (answer e) ev = false ∧
   challenges v' !! id = Some {| answer := answer e; created_at := created_at e;
     attempts := (if answers_id id ev then 1 else 0) + attempts e |}).
Proof.
  intros Hev He. destruct e as [ans t0 n].
  destruct ev as [[i a b|i r|] now]; unfold captcha_step, answers_right, answers_id, generates in *; cbn [fst snd] in *.
  - cbn. rewrite lookup_insert_ne by done. destruct (unexpired_cases (captcha_ttl v) now _ _ _ He) as [[? ?]| ->]; [left; auto|by right].
  - unfold captcha_verify. destruct (decide (i = id)) as [->|Hne].
    + rewrite He, !bool_decide_true by done. cbn [created_at answer attempts andb].
      destruct (Z.ltb_spec (captcha_ttl v) (now - t0)); [left; split; [apply lookup_delete_eq|by left]|].
      destruct (Nat.leb_spec (max_attempts v) n); [left; split; [apply lookup_delete_eq|right; by right]|].
      rewrite same_spec. destruct (decide (ans = trim r)) as [->|Hc].
      * rewrite !bool_decide_true by done. left. split; [|by right; left]. cbn.
        case_match; [apply unexpired_none|]; apply lookup_delete_eq.
      * rewrite !bool_decide_false by congruence. right. split; [done|]. cbn.
        case_match; [apply unexpired_keep; [|done]|]; apply lookup_insert_eq.
    + rewrite !bool_decide_false by done. cbn [andb Nat.add]. destruct (challenges v !! i); [|by right].
      assert (Hother : ∀ m, m !! id = Some {| answer := ans; created_at := t0; attempts := n |} →
        let m' := if CAPTCHA_CLEANUP_THRESHOLD <? size m then unexpired (captcha_ttl v) now m else m in
        (m' !! id = None ∧ (captcha_ttl v < now - t0)%Z) ∨ m' !! id = Some {| answer := ans; created_at := t0; attempts := n |}).
      { intros m Hm. cbn. case_match; [|by right]. by apply (unexpired_cases _ _ _ _ _ Hm). }
      destruct (_ <? now - _)%Z; [right; cbn; by rewrite lookup_delete_ne|].
      destruct (_ <=? attempts c); [right; cbn; by rewrite lookup_delete_ne|]. cbn [snd challenges with_challenges].
      destruct (Hother (if same (answer c) (trim r) then delete i (challenges v) else
        <[i := {| answer := answer c; created_at := created_at c; attempts := S (attempts c) |}]> (challenges v)))
        as [[??]|?]; [by case_match; rewrite ?lookup_delete_ne, ?lookup_insert_ne|left; auto|by right].
  - cbn. destruct (unexpired_cases (captcha_ttl v) now _ _ _ He) as [[? ?]| ->]; [left; auto|by right].
Qed.

Lemma captcha_run_some v evs id e now :
  Forall (λ ev, ¬ generates id ev ∧ (ev.2 ≤ now)%Z) evs → challenges v !! id = Some e →
  match challenges (captcha_run v evs) !! id with
  | Some q => q = {| answer := answer e; created_at := created_at e; attempts := tries id evs + attempts e |} ∧
              existsb (answers_right id (answer e)) evs = false
  | None => (captcha_ttl v < now - created_at e)%Z ∨ existsb (answers_right id (answer e)) evs = true ∨
            max_attempts v ≤ tries id evs + attempts e
  end.
Proof.
  intros Hevs. revert v e. induction Hevs as [|ev evs (Hev & Ht) Hevs IH]; intros v e He.
  { cbn. rewrite He. by destruct e. }
  assert (Hns : Forall (λ ev, ¬ generates id ev) evs) by (eapply Forall_impl; [exact Hevs|]; by intros ? []).
  cbn [captcha_run foldl existsb]. fold (captcha_run (captcha_step v ev) evs).
  assert (Hg : tries id (ev :: evs) = (if answers_id id ev then 1 else 0) + tries id evs).
  { unfold tries. rewrite filter_cons. destruct (answers_id id ev); by rewrite ?decide_True, ?decide_False by done. }
  destruct (captcha_step_some v ev id e Hev He) as [[Hn Hwhy]|[Hwrong Hs]].
  - rewrite (captcha_run_none _ _ _ Hns Hn), Hg. destruct Hwhy as [?|[->|?]]; [left; lia|by right; left|right; right; lia].
  - specialize (IH _ _ Hs). cbn [answer created_at attempts] in IH. destruct (captcha_step_static v ev) as [-> ->] in IH.
    rewrite Hg, Hwrong. cbn [orb]. destruct (challenges (captcha_run _ _) !! id) as [q|].
    + destruct IH as [-> ->]. split; [|done]. f_equal. lia.
    + destruct IH as [?|[?|?]]; [by left|by right; left|right; right; lia].
Qed.

(** The life of a captcha.  Until its id is drawn again, a response to an
    issued captcha is accepted exactly when it is, trimmed, the sum asked for,
    the challenge is not older than the lifetime, fewer than the allowed
    number of responses were given and none of them was right; an answer that
    meets the last three conditions and is wrong gets [Ok false], every other
    response an error. *)
Theorem captcha_solved_iff v id a b t0 evs response now :
  Forall (λ ev, ¬ generates id ev ∧ (ev.2 ≤ now)%Z) evs →
  let right := pretty (a + b)%N in
  let v' := captcha_run (generate_challenge v id a b t0).2 evs in
  let open := (now - t0 ≤ captcha_ttl v)%Z ∧ tries id evs < max_attempts v ∧
              existsb (answers_right id right) evs = false in
  ((captcha_verify v' id response now).1 = Ok true ↔ open ∧ trim response = right) ∧
  ((captcha_verify v' id response now).1 = Ok false ↔ open ∧ trim response ≠ right).
Proof.
  intros Hevs right v' open.
  pose proof (captcha_run_some (generate_challenge v id a b t0).2 evs id
    {| answer := right; created_at := t0; attempts := 0 |} now Hevs (lookup_insert_eq _ _ _)) as Hrun.
  fold v' in Hrun. cbn [answer created_at attempts] in Hrun. rewrite Nat.add_0_r in Hrun.
  assert (Hst : captcha_ttl v' = captcha_ttl v ∧ max_attempts v' = max_attempts v).
  { subst v'. clear. change (captcha_ttl v) with (captcha_ttl (generate_challenge v id a b t0).2).
    change (max_attempts v) with (max_attempts (generate_challenge v id a b t0).2).
    generalize (generate_challenge v id a b t0).2. induction evs as [|ev evs IH]; intros u; [done|].
    destruct (IH (captcha_step u ev)) as [Ht Hm]. destruct (captcha_step_static u ev) as [<- <-]. done. }
  destruct Hst as [Httl Hmax]. unfold captcha_verify. rewrite Httl, Hmax. subst open.
  change (captcha_ttl (generate_challenge v id a b t0).2) with (captcha_ttl v) in Hrun.
  change (max_attempts (generate_challenge v id a b t0).2) with (max_attempts v) in Hrun.
  destruct (challenges v' !! id) as [q|].
  - destruct Hrun as [-> Hr]. cbn [answer created_at attempts]. rewrite Hr.
    destruct (Z.ltb_spec (captcha_ttl v) (now - t0)); [split; (split; [done|]); intros [(? & _) _]; lia|].
    destruct (Nat.leb_spec (max_attempts v) (tries id evs)); [split; (split; [done|]); intros [(_ & ? & _) _]; lia|].
    cbn [fst]. rewrite same_spec.
    destruct (bool_decide_reflect (right = trim response)); split; (split; [intros [=]|intros [_ ?]]); try congruence; split; try done; congruence.
  - cbn [fst]. split; (split; [done|]); intros [(? & ? & ?) _]; destruct Hrun as [?|[?|?]]; first [lia|congruence].
Qed.
End Captcha.

(** ** Concrete runs *)

Module Runs.

Definition toy_hex (bs : list Z) : string := String.string_of_list_ascii (Ascii.ascii_of_N ∘ Z.to_N <$> bs).
Definition draws : list nat := seq 0 32.
Definition other : one_time_op * Z := (OpIssueToken (seq 1 32) 5, nanos_per_sec).

Lemma token_claimed_once_witness :
  let s0 := (one_time_issue id toy_hex InMemoryOneTimeStore_new draws 60 0).2 in
  let token := generate_token draws in
  let '(first, s1) := claim id toy_hex (one_time_run id toy_hex s0 [other]) token (30 * nanos_per_sec) in
  first = true ∧ (claim id toy_hex (one_time_run id toy_hex s1 [other]) token (31 * nanos_per_sec)).1 = false.
Proof.
  apply (token_claimed_once id toy_hex InMemoryOneTimeStore_new draws 60 0 [other] (30 * nanos_per_sec) [other]
    (31 * nanos_per_sec)); repeat constructor; by vm_compute.
Defined.

Lemma one_time_verifies_once_witness :
  let attempt cs t := let '(r, c) := one_time_verify cs.2 t in (cs.1 ++ [r], c) in
  (foldl attempt ([], OneTimeCredential_new "secret") ["guess"; "secret"; "secret"]).1 = [false; true; false].
Proof. apply (one_time_verifies_once "secret" ["guess"] ["secret"]). by repeat constructor. Defined.

Lemma leading_zero_bits_spec_witness :
  leading_zero_bits [0; 31; 255]%Z = 11%Z ∧ (11 ≤ leading_zero_bits [0; 31; 255] ↔ be_value [0; 31; 255] < 2 ^ 13)%Z.
Proof. split; [by vm_compute|]. apply (leading_zero_bits_spec [0; 31; 255]%Z 11); [by repeat constructor|done]. Defined.

(** Under a digest that is its input, a seed that starts with a zero byte has
    nine leading zeros; it is spent by the first attempt. *)
Definition seed : string := String.String Ascii.zero "0".
Lemma proof_used_once_witness :
  let p := pow_run id (with_limits 60 3) [(OpPowIssue seed 8, 0%Z)] in
  (pow_verify id p seed 1 9 30).1 = inl tt ∧
  (pow_verify id (pow_verify id p seed 1 9 30).2 seed 1 9 31).1 = inr InvalidSeed.
Proof.
  intros p. split; [by vm_compute|].
  exact (proj1 (proj2 (proof_used_once id 60 3 [(OpPowIssue seed 8, 0%Z)] seed 1 9 30)) [] 1%N 9%Z 31%Z (List.Forall_nil _)).
Defined.

Definition others : list (code_op * Z) :=
  [(OpStore "bob" "111111" (60 * nanos_per_sec) 5, 1%Z); (OpGuess "alice" "000000", 2%Z)].
Lemma code_accepted_iff_witness :
  (verify_code (code_run (store_with_attempts VerificationCodeStore_new "alice" "123456" 60 2 0) others) "alice" "123456" 3).1
    = true.
Proof.
  apply (code_accepted_iff VerificationCodeStore_new "alice" "123456" 60 2 0 others "123456" 3);
    [repeat constructor; by vm_compute|by vm_compute].
Defined.

Definition tried : list (captcha_op * Z) := [(OpGenerate "d" 1 2, 1%Z); (OpAnswer "c" "13", 2%Z)].
Lemma captcha_solved_iff_witness :
  (captcha_verify id (captcha_run id (generate_challenge CaptchaVerifier_new "c" 5 7 0).2 tried) "c" "12" 3).1 = Ok true.
Proof.
  assert (Hevs : Forall (λ ev, ¬ generates "c" ev ∧ (ev.2 ≤ 3)%Z) tried).
  { repeat (apply Forall_cons; split; [split; [by (intros [=] || intros [])|done]|]); by apply Forall_nil. }
  apply (proj1 (captcha_solved_iff id CaptchaVerifier_new "c" 5 7 0 tried "12" 3 Hevs)). split_and!; by vm_compute; (done || lia).
Defined.
End Runs.
