(* ===== verification/Passports.v ===== *)
(** * Passports and keyed credentials: src/src/auth/passport/dynamic_password.rs,
    key_pair.rs, biometric.rs, src/src/auth/credential/service.rs

    - HOTP and TOTP codes: truncation, printing, the skew window of
      [TotpVerifier] and the counter of [HotpVerifier], a compare-and-exchange
      loop run by any number of callers at once;
    - the keyed verifiers [KeyPairVerifier] and [ServiceCredential];
    - the bit similarity of [BiometricVerifier], in binary64.

    HMAC-SHA1 and HMAC-SHA256 are parameters; the digests have 20 and 32
    bytes by their type.  Wall-clock seconds and random bytes are arguments.
    The [u64] counter wraps, as in a build without overflow checks. *)

From Stdlib Require Import Floats.SpecFloat.
From stdpp Require Import pretty.
From S2P Require Import Prelude Codec Float64.

(** ** HOTP codes *)

Definition MAX_DIGITS : Z := 9.

Definition to_be_bytes (counter : Z) : list Z :=
  (λ i, (counter / 256 ^ (7 - Z.of_nat i)) `mod` 256)%Z <$> seq 0 8.

Definition clamp_digits (digits : Z) : Z := Z.min (Z.max digits 1) MAX_DIGITS.

(** [format!("{:0>width$}")] *)
Definition format_code (code digits : Z) : string :=
  let s := pretty (Z.to_N code) in
  String.string_of_list_ascii (replicate (Z.to_nat digits - String.length s) (Ascii.ascii_of_N 48)) +:+ s.

(** [&mac\[19\] & 0x0f], and the four bytes from there on. *)
Definition truncate (mac : list Z) : Z :=
  let offset := Z.to_nat (Z.land (byte_at mac 19) 15) in
  Z.lor (Z.lor (Z.lor
    (Z.shiftl (Z.land (byte_at mac offset) 127) 24)
    (Z.shiftl (Z.land (byte_at mac (offset + 1)) 255) 16))
    (Z.shiftl (Z.land (byte_at mac (offset + 2)) 255) 8))
    (Z.land (byte_at mac (offset + 3)) 255).

Section Dynamic.
Context (hmac_sha1 : list Z → list Z → list Z + string).

Definition hotp_code (secret : list Z) (counter digits : Z) : result Z :=
  let digits := clamp_digits digits in
  match hmac_sha1 secret (to_be_bytes counter) with
  | inr e => Err (Anyhow ("HMAC init failed: " +:+ e))
  | inl mac => Ok (truncate mac `mod` 10 ^ digits)%Z
  end.

Record TotpVerifier := { totp_secret : list Z; digits : Z; period_secs : Z }.

Definition TotpVerifier_new (secret : list Z) : TotpVerifier := {|
  totp_secret := secret; digits := 6; period_secs := 30 |}.
Definition totp_with_options (secret : list Z) (digits period_secs : Z) : TotpVerifier := {|
  totp_secret := secret; digits := clamp_digits digits; period_secs := Z.max period_secs 1 |}.

Definition generate_at (v : TotpVerifier) (counter : Z) : result string :=
  code ← hotp_code (totp_secret v) counter (digits v);
  Ok (format_code code (digits v)).
Definition code_at (v : TotpVerifier) (counter : Z) : result string := generate_at v counter.

(** [timestamp() as u64 / period] *)
Definition time_step (v : TotpVerifier) (timestamp : Z) : Z := (timestamp `mod` u64_modulus / period_secs v)%Z.
Definition generate (v : TotpVerifier) (timestamp : Z) : result string := generate_at v (time_step v timestamp).

Definition saturating_sub_u64 (a b : Z) : Z := Z.max 0 (a - b).
Definition saturating_add_u64 (a b : Z) : Z := Z.min (u64_modulus - 1) (a + b).

Definition equal_codes (a b : string) : bool := constant_time_eq (bytes_of a) (bytes_of b).

Definition totp_verify (v : TotpVerifier) (code : string) (timestamp : Z) : result bool :=
  let step := time_step v timestamp in
  generated ← generate_at v step;
  generated_prev ← generate_at v (saturating_sub_u64 step 1);
  generated_next ← generate_at v (saturating_add_u64 step 1);
  Ok (equal_codes generated code || equal_codes generated_prev code || equal_codes generated_next code).

(** ** The counter of [HotpVerifier]

    A caller of [verify] is at the load of the loop, with the number of
    failed exchanges behind it, between the comparison and the
    compare-and-exchange, or has returned.  One step of a caller is one
    access to the shared counter. *)
Record HotpVerifier := { hotp_secret : list Z; counter : Z }.

Definition HotpVerifier_new (secret : list Z) (counter : Z) : HotpVerifier := {|
  hotp_secret := secret; counter := counter |}.
Definition MAX_VERIFY_RETRIES : nat := 3.

Inductive verify_pc :=
  | AtLoad (retries : nat)
  | AtExchange (retries : nat) (current : Z)
  | Returned (r : result bool).

Definition hotp_step (v : HotpVerifier) (code : string) (pc : verify_pc) : HotpVerifier * verify_pc :=
  match pc with
  | AtLoad retries =>
      let current := counter v in
      (v, match hotp_code (hotp_secret v) current 6 with
          | Err e => Returned (Err e)
          | Ok expected => if equal_codes (format_code expected 6) code then AtExchange retries current else Returned (Ok false)
          end)
  | AtExchange retries current =>
      if decide (counter v = current) then
        ({| hotp_secret := hotp_secret v; counter := wrapping_add_u64 current 1 |}, Returned (Ok true))
      else (v, if MAX_VERIFY_RETRIES <=? S retries then Returned (Ok false) else AtLoad (S retries))
  | Returned r => (v, Returned r)
  end.

(** The loop run by one caller alone: three rounds of two accesses. *)
Fixpoint hotp_loop (fuel : nat) (v : HotpVerifier) (code : string) (pc : verify_pc) : HotpVerifier * verify_pc :=
  match fuel with
  | 0 => (v, pc)
  | S fuel => let '(v, pc) := hotp_step v code pc in hotp_loop fuel v code pc
  end.
Definition hotp_verify (v : HotpVerifier) (code : string) : HotpVerifier * verify_pc := hotp_loop 6 v code (AtLoad 0).

(** Callers, each with the code it was given, and the accesses they make in
    the order [schedule]. *)
Record callers := { shared : HotpVerifier; calls : list (string * verify_pc) }.

Definition access (s : callers) (i : nat) : callers :=
  match calls s !! i with
  | None => s
  | Some (code, pc) =>
      let '(v, pc) := hotp_step (shared s) code pc in
      {| shared := v; calls := <[i := (code, pc)]> (calls s) |}
  end.
Definition interleave (s : callers) (schedule : list nat) : callers := foldl access s schedule.
Definition start (v : HotpVerifier) (codes : list string) : callers := {|
  shared := v; calls := (λ c, (c, AtLoad 0)) <$> codes |}.
End Dynamic.

(** ** Keyed verifiers *)

Section Keyed.
Context (hmac_sha256 : list Z → list Z → list Z + string).

Definition SECRET_KEY_LENGTH : nat := 64.
Definition PRIVATE_KEY_LENGTH : nat := 32.

Record KeyPairVerifier := { secret_key : list Z }.

Definition hmac_compute (key data : list Z) : result (list Z) :=
  match hmac_sha256 key data with
  | inr e => Err (Anyhow ("HMAC init failed: " +:+ e))
  | inl mac => Ok mac
  end.

(** [random] stands for the bytes the generator fills the buffer with. *)
Definition KeyPairVerifier_new (random : list Z) : KeyPairVerifier := {|
  secret_key := take SECRET_KEY_LENGTH random |}.
Definition with_secret_key (secret_key : list Z) : result KeyPairVerifier :=
  if bool_decide (secret_key = []) then Err (Anyhow "secret key must not be empty")
  else Ok {| secret_key := secret_key |}.
Definition sign_message (v : KeyPairVerifier) (message : list Z) : result (list Z) := hmac_compute (secret_key v) message.
Definition verify_signature (v : KeyPairVerifier) (message signature : list Z) : result bool :=
  expected ← hmac_compute (secret_key v) message;
  Ok (constant_time_eq expected signature).
Definition derive_public (v : KeyPairVerifier) (private_key : list Z) : result (list Z) :=
  hmac_compute (secret_key v) private_key.
Definition generate_keypair (v : KeyPairVerifier) (random : list Z) : result (list Z * list Z) :=
  let private_key := take PRIVATE_KEY_LENGTH random in
  public_key ← derive_public v private_key;
  Ok (public_key, private_key).

(** [{byte:02x}] *)
Definition hmac_sha256_hex (key data : list Z) : result string :=
  match hmac_sha256 key data with
  | inr _ => Err (Kirino (Validation "HMAC key must not be empty"))
  | inl mac => Ok (hex_of mac)
  end.

Record ServiceCredential := { token_hash : string; service_key : list Z }.

Definition from_shared_key (key : list Z) (token : string) : result ServiceCredential :=
  if bool_decide (key = []) then Err (Kirino (Validation "ServiceCredential key must not be empty"))
  else hash ← hmac_sha256_hex key (bytes_of token); Ok {| token_hash := hash; service_key := key |}.
Definition from_hash (token_hash : string) (key : list Z) : result ServiceCredential :=
  if bool_decide (key = []) then Err (Kirino (Validation "ServiceCredential key must not be empty"))
  else Ok {| token_hash := token_hash; service_key := key |}.
Definition service_verify (c : ServiceCredential) (token : string) : result bool :=
  computed ← hmac_sha256_hex (service_key c) (bytes_of token);
  Ok (equal_codes (token_hash c) computed).
End Keyed.

(** ** Bit similarity *)

Definition DEFAULT_BIOMETRIC_THRESHOLD : f64 := lit 85 100.

Record BiometricVerifier := { threshold : f64 }.

Definition BiometricVerifier_new : BiometricVerifier := {| threshold := DEFAULT_BIOMETRIC_THRESHOLD |}.
Definition with_threshold (threshold : f64) : BiometricVerifier := {|
  threshold := f64_clamp threshold f64_zero f64_one |}.

(** [u8::count_zeros] *)
Definition count_zeros (b : Z) : nat := length (filter (λ i, Z.testbit b (Z.of_nat i) = false) (seq 0 8)).

Definition matching_bits (a b : list Z) : nat :=
  foldl (λ acc i, acc + count_zeros (Z.lxor (byte_at a i) (byte_at b i))) 0 (seq 0 (length a `min` length b)).
Definition is_empty {A} (l : list A) : bool := match l with [] => true | _ => false end.
Definition compute_similarity (a b : list Z) : f64 :=
  if is_empty a || is_empty b then f64_zero
  else f64_div (f64_of_nat (matching_bits a b)) (f64_of_nat ((length a `max` length b) * 8)).
Definition biometric_verify (v : BiometricVerifier) (sample template : list Z) : result bool :=
  if is_empty sample || is_empty template then Ok false
  else Ok (SFleb (threshold v) (compute_similarity sample template)).

(** ** Printing *)

(** The number a string of decimal digits writes. *)
Definition number (s : string) : Z :=
  foldl (λ acc c, acc * 10 + (Z.of_N (Ascii.N_of_ascii c) - 48))%Z 0%Z (String.list_ascii_of_string s).
Definition decimal (s : string) : Prop :=
  Forall (λ c, (48 ≤ Ascii.N_of_ascii c ≤ 57)%N) (String.list_ascii_of_string s).

Lemma number_acc l acc : foldl (λ acc c, acc * 10 + (Z.of_N (Ascii.N_of_ascii c) - 48))%Z acc l =
  (acc * 10 ^ Z.of_nat (length l) + foldl (λ acc c, acc * 10 + (Z.of_N (Ascii.N_of_ascii c) - 48)) 0 l)%Z.
Proof.
  revert acc. induction l as [|c l IH]; intros acc; [cbn; lia|]. cbn [foldl length].
  rewrite IH, (IH (0 * 10 + _)%Z), Nat2Z.inj_succ, Z.pow_succ_r by lia. lia.
Qed.

Lemma number_cons c s :
  number (String.String c s) = ((Z.of_N (Ascii.N_of_ascii c) - 48) * 10 ^ Z.of_nat (String.length s) + number s)%Z.
Proof.
  unfold number. cbn [String.list_ascii_of_string foldl]. rewrite number_acc, Z.mul_0_l, Z.add_0_l.
  do 4 f_equal. induction s; simpl; [done|by rewrite IHs].
Qed.

Lemma pretty_char_code x : (x < 10)%N → Ascii.N_of_ascii (pretty_N_char x) = (48 + x)%N.
Proof. intros ?. assert (∃ n, x = N.of_nat n ∧ n < 10) as (n & -> & Hn) by (exists (N.to_nat x); lia). by do 10 (destruct n; [done|]); lia. Qed.

(** Printing puts the digits of the number in front. *)
Lemma pretty_go_spec (k : nat) (x : N) s : (x < 10 ^ N.of_nat k)%N → decimal s →
  let r := pretty_N_go x s in
  decimal r ∧ String.length s ≤ String.length r ≤ k + String.length s ∧
  number r = (Z.of_N x * 10 ^ Z.of_nat (String.length s) + number s)%Z.
Proof.
  revert x s. induction k as [|k IH]; intros x s Hx Hs r.
  { assert (x = 0%N) as -> by (change (10 ^ N.of_nat 0)%N with 1%N in Hx; lia). subst r. rewrite pretty_N_go_0. split_and!; [done|lia..]. }
  destruct (decide (x = 0%N)) as [->|Hne]; [subst r; rewrite pretty_N_go_0; split_and!; [done|lia..]|].
  subst r. rewrite pretty_N_go_step by lia.
  assert (Hc : Ascii.N_of_ascii (pretty_N_char (x `mod` 10)) = (48 + x `mod` 10)%N)
    by (apply pretty_char_code; apply N.mod_lt; lia).
  pose proof (N.mod_lt x 10 ltac:(lia)) as Hm. pose proof (N.div_mod x 10 ltac:(lia)) as Hdm.
  destruct (IH (x `div` 10)%N (String.String (pretty_N_char (x `mod` 10)) s)) as (Hd & Hl & Hv).
  - apply N.Div0.div_lt_upper_bound. rewrite <- N.pow_succ_r'. by replace (N.succ (N.of_nat k)) with (N.of_nat (S k)) by lia.
  - constructor; [cbv beta; rewrite Hc; generalize dependent (x `mod` 10)%N; clear; intros; lia|done].
  - cbn [String.length] in *. split_and!; [done|lia..|]. rewrite Hv, number_cons, Hc, Nat2Z.inj_succ, Z.pow_succ_r by lia.
    apply (f_equal Z.of_N) in Hdm. rewrite N2Z.inj_add, N2Z.inj_mul in Hdm. rewrite N2Z.inj_add. nia.
Qed.

Lemma pretty_spec (k : nat) (x : N) : 0 < k → (x < 10 ^ N.of_nat k)%N →
  decimal (pretty x) ∧ String.length (pretty x) ≤ k ∧ number (pretty x) = Z.of_N x.
Proof.
  intros Hk Hx. unfold pretty, pretty_N. case_decide as Hz; [subst x|].
  { split_and!; [by repeat constructor|simpl; lia|done]. }
  destruct (pretty_go_spec k x "" Hx) as (Hd & Hl & Hv); [by constructor|].
  split_and!; [done|cbn [String.length] in Hl; lia|]. rewrite Hv. cbn. lia.
Qed.

Lemma length_append s t : String.length (s +:+ t) = String.length s + String.length t.
Proof. induction s; [done|]. cbn. by rewrite <- IHs. Qed.

Lemma pad_spec n s : let p := String.string_of_list_ascii (replicate n (Ascii.ascii_of_N 48)) in
  decimal s → decimal (p +:+ s) ∧ String.length (p +:+ s) = n + String.length s ∧ number (p +:+ s) = number s.
Proof.
  intros p Hs. subst p. induction n as [|n IH]; [done|]. destruct IH as (Hd & Hl & Hv).
  cbn [replicate String.string_of_list_ascii]. split_and!.
  - constructor; [done|exact Hd].
  - rewrite length_append in *. cbn [String.length]. lia.
  - etransitivity; [apply number_cons|]. rewrite Z.mul_0_l, Z.add_0_l. exact Hv.
Qed.

(** A code below [10^digits] prints to exactly [digits] digits that write it. *)
Lemma format_code_spec code digits : (1 ≤ digits)%Z → (0 ≤ code < 10 ^ digits)%Z →
  let s := format_code code digits in
  decimal s ∧ Z.of_nat (String.length s) = digits ∧ number s = code.
Proof.
  intros Hd Hc s. destruct (pretty_spec (Z.to_nat digits) (Z.to_N code)) as (Hdec & Hl & Hv); [lia| |].
  { apply N2Z.inj_lt. rewrite Z2N.id, N2Z.inj_pow by lia. replace (Z.of_N (N.of_nat (Z.to_nat digits))) with digits by lia. lia. }
  destruct (pad_spec (Z.to_nat digits - String.length (pretty (Z.to_N code))) (pretty (Z.to_N code)) Hdec) as (Hdec' & Hl' & Hv').
  subst s. unfold format_code. split_and!; [exact Hdec'|rewrite Hl'; lia|rewrite Hv', Hv; lia].
Qed.

Lemma equal_codes_spec a b : equal_codes a b = bool_decide (a = b).
Proof.
  unfold equal_codes. apply eq_bool_prop_intro. rewrite !Is_true_true, constant_time_eq_spec, bool_decide_eq_true.
  unfold bytes_of. split; [|by intros ->]. intros He. apply (inj str_codes). by apply (inj (fmap Z.of_N)) in He.
Qed.

(** The truncation of RFC 4226: the low 31 bits of the four bytes at the
    offset, most significant first. *)
Lemma truncate_spec mac : length mac = 20 → Forall is_u8 mac →
  let offset := Z.to_nat (byte_at mac 19 `mod` 16) in
  offset + 3 < 19 ∧ truncate mac = (be_value (take 4 (drop offset mac)) `mod` 2 ^ 31)%Z.
Proof.
  intros Hlen Hmac offset.
  assert (Hoff : Z.to_nat (Z.land (byte_at mac 19) 15) = offset).
  { unfold offset. change 15%Z with (Z.ones 4). by rewrite Z.land_ones by lia. }
  assert (Hlt : offset < 16) by (unfold offset; pose proof (Z.mod_pos_bound (byte_at mac 19) 16 ltac:(lia)); lia).
  split; [lia|]. unfold truncate. rewrite Hoff. clear Hoff.
  assert (Hb : ∀ i, i < 20 → ∃ b, mac !! i = Some b ∧ (0 ≤ b < 256)%Z).
  { intros i Hi. destruct (lookup_lt_is_Some_2 mac i ltac:(lia)) as [b Hb]. exists b. split; [done|].
    by apply (Forall_lookup_1 _ _ _ _ Hmac) in Hb. }
  destruct (Hb offset ltac:(lia)) as (b0 & E0 & ?), (Hb (offset + 1) ltac:(lia)) as (b1 & E1 & ?),
    (Hb (offset + 2) ltac:(lia)) as (b2 & E2 & ?), (Hb (offset + 3) ltac:(lia)) as (b3 & E3 & ?).
  assert (Htake : take 4 (drop offset mac) = [b0; b1; b2; b3]).
  { rewrite (drop_S _ _ _ E0), (drop_S _ b1) by (by rewrite <- E1; f_equal; lia).
    rewrite (drop_S _ b2) by (by rewrite <- E2; f_equal; lia). rewrite (drop_S _ b3) by (by rewrite <- E3; f_equal; lia). done. }
  rewrite Htake. unfold byte_at. rewrite E0, E1, E2, E3. cbn [default id].
  change 127%Z with (Z.ones 7). change 255%Z with (Z.ones 8). rewrite !Z.land_ones by lia.
  rewrite !(Z.mod_small _ (2 ^ 8)) by lia. unfold be_value. cbn [foldl].
  pose proof (Z.mod_pos_bound b0 128 ltac:(lia)). change (2 ^ 7)%Z with 128%Z.
  set (c0 := (b0 `mod` 128)%Z) in *.
  assert (Hfold : ∀ a b k, (0 ≤ k)%Z → (0 ≤ b < 256)%Z →
    Z.lor (Z.shiftl a (k + 8)) (Z.shiftl b k) = Z.shiftl (a * 256 + b) k).
  { intros a b k Hk Hb'. replace (k + 8)%Z with (8 + k)%Z by lia. rewrite <- Z.shiftl_shiftl, <- Z.shiftl_lor by lia. f_equal.
    by apply (Base64Url.lor_shiftl_add a b 8%Z). }
  change 24%Z with (16 + 8)%Z. rewrite (Hfold c0 b1 16%Z) by lia. change 16%Z with (8 + 8)%Z. rewrite (Hfold _ b2 8%Z), (Base64Url.lor_shiftl_add _ b3 8%Z) by lia.
  change (2 ^ 8)%Z with 256%Z. change (2 ^ 31)%Z with (128 * 16777216)%Z.
  pose proof (Z.div_mod b0 128 ltac:(lia)) as Hdm. fold c0 in Hdm.
  apply (Z.mod_unique_pos _ _ (b0 / 128)); lia.
Qed.

Section Codes.
Context (hmac_sha1 : list Z → list Z → list Z + string).

Definition digest_bytes : Prop := ∀ key data mac, hmac_sha1 key data = inl mac → length mac = 20 ∧ Forall is_u8 mac.

Lemma clamp_digits_range d : (1 ≤ clamp_digits d ≤ 9)%Z.
Proof. unfold clamp_digits, MAX_DIGITS. lia. Qed.
Lemma clamp_digits_idem d : (1 ≤ d ≤ 9)%Z → clamp_digits d = d.
Proof. unfold clamp_digits, MAX_DIGITS. lia. Qed.

Lemma hotp_code_range secret counter d code : (1 ≤ d ≤ 9)%Z →
  hotp_code hmac_sha1 secret counter d = Ok code → (0 ≤ code < 10 ^ d)%Z.
Proof.
  intros Hd. unfold hotp_code. rewrite clamp_digits_idem by done. destruct (hmac_sha1 _ _); intros [= <-].
  apply Z.mod_pos_bound. apply Z.pow_pos_nonneg; lia.
Qed.

(** Codes.  For every configuration a TOTP code of a counter is a string
    of exactly as many decimal digits as configured, between 1 and 9; the
    number it writes is the truncation of RFC 4226 - the low 31 bits of the
    four bytes at the offset the last half-byte of the digest gives, most
    significant first - reduced to that many digits. *)
Theorem totp_code_shape secret d period counter mac :
  digest_bytes → hmac_sha1 secret (to_be_bytes counter) = inl mac →
  let v := totp_with_options secret d period in
  let offset := Z.to_nat (byte_at mac 19 `mod` 16) in
  (1 ≤ digits v ≤ 9)%Z ∧
  ∃ s, code_at hmac_sha1 v counter = Ok s ∧ decimal s ∧ Z.of_nat (String.length s) = digits v ∧
    number s = ((be_value (take 4 (drop offset mac)) `mod` 2 ^ 31) `mod` 10 ^ digits v)%Z.
Proof.
  intros Hbytes Hmac v offset. pose proof (clamp_digits_range d) as Hd. split; [done|].
  assert (Hcode : hotp_code hmac_sha1 secret counter (digits v) = Ok (truncate mac `mod` 10 ^ digits v)%Z).
  { unfold hotp_code. rewrite Hmac, clamp_digits_idem by done. done. }
  exists (format_code (truncate mac `mod` 10 ^ digits v) (digits v)).
  destruct (Hbytes _ _ _ Hmac) as [Hlen Hall]. destruct (truncate_spec mac Hlen Hall) as [_ Ht].
  destruct (format_code_spec (truncate mac `mod` 10 ^ digits v) (digits v)) as (Hdec & Hl & Hn);
    [cbn; lia|by apply (hotp_code_range secret counter)|].
  unfold code_at, generate_at. change (totp_secret v) with secret. rewrite Hcode. split_and!; [done..|]. by rewrite Hn, Ht.
Qed.

(** The window of [verify].  A code is accepted at a time exactly when it
    is the code of the current period, of the one before it or of the one
    after it. *)
Theorem totp_window v code timestamp :
  (∀ key data, is_inl (hmac_sha1 key data) = true) → (0 ≤ timestamp < 2 ^ 63)%Z → (1 ≤ period_secs v)%Z →
  let step := (timestamp / period_secs v)%Z in
  ∃ accepted, totp_verify hmac_sha1 v code timestamp = Ok accepted ∧
    (accepted = true ↔ ∃ k, (Z.max 0 (step - 1) ≤ k ≤ step + 1)%Z ∧ code_at hmac_sha1 v k = Ok code).
Proof.
  intros Hmac Ht Hp step.
  assert (Hgen : ∀ k, ∃ s, generate_at hmac_sha1 v k = Ok s).
  { intros k. unfold generate_at, hotp_code. specialize (Hmac (totp_secret v) (to_be_bytes k)).
    destruct (hmac_sha1 _ _); [by eexists|done]. }
  assert (Hstep : time_step v timestamp = step) by (unfold time_step; by rewrite Z.mod_small by (unfold u64_modulus; lia)).
  assert (Hs : (0 ≤ step ≤ timestamp)%Z).
  { split; [apply Z.div_pos; lia|]. apply Z.div_le_upper_bound; [lia|]. nia. }
  unfold totp_verify. rewrite Hstep. unfold saturating_sub_u64, saturating_add_u64, u64_modulus.
  rewrite (Z.min_r (2 ^ 64 - 1)) by lia.
  destruct (Hgen step) as [s Es], (Hgen (Z.max 0 (step - 1))) as [sp Esp], (Hgen (step + 1)%Z) as [sn Esn].
  rewrite Es, Esp, Esn. cbn [mbind result_bind]. eexists. split; [done|].
  rewrite !equal_codes_spec, !orb_true_iff, !bool_decide_eq_true. unfold code_at. split.
  - intros [[->| ->]| ->]; [exists step|exists (Z.max 0 (step - 1))|exists (step + 1)%Z]; split; (done || lia).
  - intros (k & Hk & Ek). assert (k = step ∨ k = Z.max 0 (step - 1) ∨ k = (step + 1)%Z) as [->|[->| ->]] by lia; [left; left|left; right|right]; congruence.
Qed.
End Codes.

(** ** Concurrent calls of [HotpVerifier::verify] *)

Section Counter.
Context (hmac_sha1 : list Z → list Z → list Z + string).

(** The six digits of a counter. *)
Definition code_of (secret : list Z) (k : Z) : result string :=
  code ← hotp_code hmac_sha1 secret k 6; Ok (format_code code 6).

(** What a caller that is at [pc] knows, when the counter started at [c0]. *)
Definition caller_ok (secret : list Z) (c0 c : Z) (code : string) (pc : verify_pc) : Prop :=
  match pc with
  | AtLoad r => r < 3 ∧ (c0 + Z.of_nat r ≤ c)%Z
  | AtExchange r cur => r < 3 ∧ (c0 + Z.of_nat r ≤ cur ≤ c)%Z ∧ code_of secret cur = Ok code
  | Returned (Ok false) => (∃ k, (c0 ≤ k ≤ c)%Z ∧ code_of secret k ≠ Ok code) ∨ (c0 + 3 ≤ c)%Z
  | Returned _ => True
  end.

Lemma caller_ok_mono secret c0 c c' code pc : (c ≤ c')%Z → caller_ok secret c0 c code pc → caller_ok secret c0 c' code pc.
Proof.
  intros Hc. destruct pc as [r|r cur|[[]|]]; simpl; try done; [intros []; split; [done|lia]|intros (? & ? & ?); split_and!; (done || lia)|].
  intros [(k & ? & ?)|?]; [left; exists k; split; [lia|done]|right; lia].
Qed.

(** One access of one caller. *)
Lemma hotp_step_spec v c0 code pc v' pc' : (c0 ≤ counter v)%Z → (counter v + 1 < u64_modulus)%Z → (0 ≤ counter v)%Z →
  caller_ok (hotp_secret v) c0 (counter v) code pc → hotp_step hmac_sha1 v code pc = (v', pc') →
  hotp_secret v' = hotp_secret v ∧ caller_ok (hotp_secret v) c0 (counter v') code pc' ∧
  ((counter v' = counter v ∧ (pc = Returned (Ok true) ↔ pc' = Returned (Ok true))) ∨
   (counter v' = counter v + 1 ∧ pc ≠ Returned (Ok true) ∧ pc' = Returned (Ok true) ∧ code_of (hotp_secret v) (counter v) = Ok code))%Z.
Proof.
  intros Hc Hmax H0 Hok. destruct pc as [r|r cur|res]; cbn [hotp_step].
  - destruct Hok as [Hr Hle]. destruct (hotp_code _ _ _ _) as [e|e] eqn:He; [|intros [= <- <-]; split_and!; [done|done|left; split; [done|split; congruence]]].
    assert (Hcode : code_of (hotp_secret v) (counter v) = Ok (format_code e 6)) by (unfold code_of; by rewrite He).
    rewrite equal_codes_spec. case_bool_decide as Heq; intros [= <- <-]; (split; [done|]; split; [|left; split; [done|split; congruence]]).
    + split_and!; [done|lia..|]. by rewrite Hcode, Heq.
    + left. exists (counter v). split; [lia|]. rewrite Hcode. congruence.
  - destruct Hok as (Hr & Hle & Hcode). case_decide as Heq.
    + intros [= <- <-]. cbn [hotp_secret counter caller_ok]. split_and!; [done|done|]. right.
      split_and!; [|done|done|by rewrite Heq]. unfold wrapping_add_u64. rewrite Z.mod_small; lia.
    + destruct (Nat.leb_spec MAX_VERIFY_RETRIES (S r)); intros [= <- <-]; unfold MAX_VERIFY_RETRIES in *;
        (split; [done|]; split; [|left; split; [done|split; congruence]]); [right|split]; lia.
  - intros [= <- <-]. split_and!; [done|done|left; split; [done|split; congruence]].
Qed.

Definition all_ok (v0 : HotpVerifier) (codes : list string) (s : callers) (accepted : list nat) : Prop :=
  hotp_secret (shared s) = hotp_secret v0 ∧ (calls s).*1 = codes ∧ NoDup accepted ∧
  counter (shared s) = (counter v0 + Z.of_nat (length accepted))%Z ∧
  (∀ i code pc, calls s !! i = Some (code, pc) →
     caller_ok (hotp_secret v0) (counter v0) (counter (shared s)) code pc ∧ (pc = Returned (Ok true) ↔ i ∈ accepted)) ∧
  (∀ k i, accepted !! k = Some i → ∃ code, codes !! i = Some code ∧ code_of (hotp_secret v0) (counter v0 + Z.of_nat k) = Ok code).

(** Fewer calls were accepted than there are callers, while one is not. *)
Lemma accepted_bound (codes : list string) (accepted : list nat) i : NoDup accepted → i < length codes → i ∉ accepted →
  (∀ j, j ∈ accepted → j < length codes) → length accepted < length codes.
Proof.
  intros Hnd Hi Hni Hall. rewrite <- (length_seq (length codes) 0). change (length (i :: accepted) ≤ length (seq 0 (length codes))).
  apply submseteq_length, NoDup_submseteq; [by constructor|]. intros j Hj. apply elem_of_seq.
  apply elem_of_cons in Hj as [->|Hj]; [lia|]. specialize (Hall j Hj). lia.
Qed.

Lemma access_ok v0 codes s accepted i : (0 ≤ counter v0)%Z → (counter v0 + Z.of_nat (length codes) < u64_modulus)%Z →
  all_ok v0 codes s accepted → ∃ accepted', all_ok v0 codes (access hmac_sha1 s i) accepted'.
Proof.
  intros H0 Hmax (Hsec & Hcodes & Hnd & Hcnt & Hcalls & Hacc). unfold access.
  destruct (calls s !! i) as [[code pc]|] eqn:Hi; [|by exists accepted]. destruct (Hcalls i code pc Hi) as [Hok Htrue].
  destruct (hotp_step hmac_sha1 (shared s) code pc) as [v' pc'] eqn:Hstep.
  assert (Hci : codes !! i = Some code) by (rewrite <- Hcodes, list_lookup_fmap, Hi; done).
  assert (Hbound : (counter (shared s) + 1 < u64_modulus)%Z ∨ pc = Returned (Ok true)).
  { destruct (decide (i ∈ accepted)) as [Hin|Hni]; [right; by apply Htrue|left].
    assert (length accepted < length codes); [|lia]. apply (accepted_bound codes accepted i); try done; [by eapply lookup_lt_Some|].
    intros j [k Hk]%list_elem_of_lookup_1. destruct (Hacc _ _ Hk) as (? & ? & _). by eapply lookup_lt_Some. }
  destruct Hbound as [Hb| ->]; cycle 1.
  { injection Hstep as <- <-. exists accepted. rewrite list_insert_id by done. by destruct s. }
  rewrite <- Hsec in Hok. apply (hotp_step_spec _ (counter v0)) in Hstep as (Hsec' & Hok' & Hcase); [|lia|lia|lia|done].
  assert (Hmono : (counter (shared s) ≤ counter v')%Z) by (destruct Hcase as [[]|[]]; lia).
  assert (Hfst : (<[i := (code, pc')]> (calls s)).*1 = codes).
  { rewrite list_fmap_insert, Hcodes. by apply list_insert_id. }
  destruct Hcase as [[Hc Hsame]|(Hc & Hpc & -> & Hcode)].
  - exists accepted. split_and!; cbn [shared calls]; [congruence|done|done|lia| |done].
    intros j c p Hj. apply list_lookup_insert_Some in Hj as [(<- & [= <- <-] & _)|[Hne Hj]].
    + split; [by rewrite <- Hsec|]. by rewrite <- Htrue.
    + destruct (Hcalls j c p Hj). split; [by eapply caller_ok_mono|done].
  - exists (accepted ++ [i]). assert (Hni : i ∉ accepted) by (by rewrite <- Htrue).
    split_and!; cbn [shared calls]; [congruence|done| | | |].
    + apply NoDup_app. split_and!; [done| |apply NoDup_singleton]. intros j Hj ->%list_elem_of_singleton. done.
    + rewrite length_app. simpl. lia.
    + intros j c p Hj. rewrite elem_of_app, list_elem_of_singleton.
      apply list_lookup_insert_Some in Hj as [(<- & [= <- <-] & _)|[Hne Hj]]; [split; [done|naive_solver]|].
      destruct (Hcalls j c p Hj). split; [by eapply caller_ok_mono|naive_solver].
    + intros k j. rewrite lookup_app_Some, list_lookup_singleton_Some. intros [Hk|(Hk & Hz & <-)]; [by apply Hacc|].
      exists code. split; [done|]. rewrite <- Hsec. replace (counter v0 + Z.of_nat k)%Z with (counter (shared s)) by lia. done.
Qed.

(** Accesses a caller still has before it returns. *)
Definition rank (pc : verify_pc) : nat :=
  match pc with
  | AtLoad r => 2 * (3 - r)
  | AtExchange r _ => 2 * (3 - r) - 1
  | Returned _ => 0
  end.
Definition rank_of (s : callers) (i : nat) : nat := default 0 ((λ c, rank c.2) <$> calls s !! i).
Definition retries_ok (s : callers) : Prop :=
  ∀ i code pc, calls s !! i = Some (code, pc) → match pc with AtLoad r | AtExchange r _ => r < 3 | Returned _ => True end.

Lemma access_rank s j : retries_ok s → retries_ok (access hmac_sha1 s j) ∧
  rank_of (access hmac_sha1 s j) j ≤ pred (rank_of s j) ∧
  ∀ i, i ≠ j → rank_of (access hmac_sha1 s j) i = rank_of s i.
Proof.
  intros Hs. unfold access. destruct (calls s !! j) as [[code pc]|] eqn:Hj; cycle 1.
  { split_and!; [done| |done]. unfold rank_of. by rewrite Hj. }
  destruct (hotp_step _ _ _ _) as [v' pc'] eqn:Hstep. specialize (Hs j code pc Hj) as Hpc.
  assert (Hpc' : match pc' with AtLoad r | AtExchange r _ => r < 3 | Returned _ => True end ∧ rank pc' ≤ pred (rank pc)).
  { destruct pc as [r|r cur|res]; cbn [hotp_step] in Hstep.
    - repeat case_match; simplify_eq; simpl; lia.
    - case_decide; simplify_eq; [simpl; lia|]. destruct (Nat.leb_spec MAX_VERIFY_RETRIES (S r)); unfold MAX_VERIFY_RETRIES in *; simpl; lia.
    - by simplify_eq. }
  destruct Hpc' as [Hr Hrank]. pose proof (lookup_lt_Some _ _ _ Hj). split_and!.
  - intros i c p Hi. cbn [calls] in Hi. apply list_lookup_insert_Some in Hi as [(_ & [= <- <-] & _)|[_ Hi]]; [done|by eapply Hs].
  - unfold rank_of. cbn [calls]. rewrite list_lookup_insert_eq, Hj by done. done.
  - intros i Hne. unfold rank_of. cbn [calls]. by rewrite list_lookup_insert_ne by done.
Qed.

Lemma interleave_rank s schedule i : retries_ok s →
  rank_of (interleave hmac_sha1 s schedule) i ≤ rank_of s i - count_occ Nat.eq_dec schedule i.
Proof.
  revert s. induction schedule as [|j schedule IH]; intros s Hs; [simpl; lia|].
  destruct (access_rank s j Hs) as (Hs' & Hj & Hi). cbn [interleave foldl count_occ]. fold (interleave hmac_sha1 (access hmac_sha1 s j) schedule).
  specialize (IH _ Hs'). destruct (Nat.eq_dec j i) as [->|Hne]; [lia|]. rewrite (Hi i) in IH by done. done.
Qed.

Lemma interleave_ok v0 codes s accepted schedule :
  (0 ≤ counter v0)%Z → (counter v0 + Z.of_nat (length codes) < u64_modulus)%Z →
  all_ok v0 codes s accepted → ∃ accepted', all_ok v0 codes (interleave hmac_sha1 s schedule) accepted'.
Proof.
  intros H0 Hmax. revert s accepted. induction schedule as [|i schedule IH]; intros s accepted Hs; [by exists accepted|].
  destruct (access_ok v0 codes s accepted i H0 Hmax Hs) as [acc' Hs']. by apply (IH _ acc').
Qed.

(** C19: HOTP codes are consumed once.  Any number of concurrent calls of
    [verify], interleaved in any way at the accesses to the counter: the
    accepted calls can be put in an order such that the k-th of them was
    given the code of the counter's initial value plus k, and the counter has
    moved by their number - no counter is accepted twice and none is skipped.
    A call that is refused was given a code that is not the code of some
    value the counter had, or three other calls were accepted; and every call
    returns by its sixth access. *)
Theorem hotp_consumes_once v0 codes schedule :
  (0 ≤ counter v0)%Z → (counter v0 + Z.of_nat (length codes) < u64_modulus)%Z →
  let s := interleave hmac_sha1 (start v0 codes) schedule in
  let c := counter (shared s) in
  ∃ accepted, NoDup accepted ∧ c = (counter v0 + Z.of_nat (length accepted))%Z ∧
    (∀ i, i ∈ accepted ↔ ∃ code, calls s !! i = Some (code, Returned (Ok true))) ∧
    (∀ k i, accepted !! k = Some i →
       ∃ code, codes !! i = Some code ∧ code_of (hotp_secret v0) (counter v0 + Z.of_nat k) = Ok code) ∧
    (∀ i code, calls s !! i = Some (code, Returned (Ok false)) →
       (∃ k, (counter v0 ≤ k ≤ c)%Z ∧ code_of (hotp_secret v0) k ≠ Ok code) ∨ 3 ≤ length accepted) ∧
    (∀ i, i < length codes → 6 ≤ count_occ Nat.eq_dec schedule i → ∃ code r, calls s !! i = Some (code, Returned r)).
Proof.
  intros H0 Hmax s c.
  assert (Hstart : all_ok v0 codes (start v0 codes) []).
  { split_and!; cbn [start shared calls]; [done| |constructor|cbn; lia| |done].
    - rewrite <- list_fmap_compose. by apply list_fmap_id.
    - intros i code pc Hi. rewrite list_lookup_fmap_Some in Hi. destruct Hi as (? & [= -> ->] & _).
      split; [cbn; lia|]. split; [done|]. by intros ?%not_elem_of_nil. }
  destruct (interleave_ok v0 codes _ [] schedule H0 Hmax Hstart) as (accepted & _ & Hcodes & Hnd & Hc & Hcalls & Hacc).
  fold s in Hcodes, Hc, Hcalls. exists accepted. split_and!; [done|done| |done| |].
  - intros i. split; [|intros [code Hi]; by apply (Hcalls _ _ _ Hi)]. intros Hin.
    pose proof Hin as [k Hk]%list_elem_of_lookup_1. destruct (Hacc _ _ Hk) as (code & Hi & _).
    rewrite <- Hcodes, list_lookup_fmap in Hi. destruct (calls s !! i) as [[code' pc]|] eqn:Hs; [|done].
    exists code'. by rewrite <- (proj2 (proj2 (Hcalls _ _ _ Hs)) Hin).
  - intros i code Hi. destruct (Hcalls _ _ _ Hi) as [[Hk|Hge] _]; [by left|right]. lia.
  - intros i Hi Hcount.
    assert (Hret : retries_ok (start v0 codes)).
    { intros j code pc Hj. cbn [start calls] in Hj. rewrite list_lookup_fmap_Some in Hj. destruct Hj as (? & [= -> ->] & _). lia. }
    pose proof (interleave_rank _ schedule i Hret) as Hrank. fold s in Hrank.
    assert (Hir : rank_of (start v0 codes) i ≤ 6).
    { unfold rank_of, start. cbn [calls]. rewrite list_lookup_fmap. destruct (codes !! i); simpl; lia. }
    rewrite <- Hcodes, length_fmap in Hi. destruct (lookup_lt_is_Some_2 _ _ Hi) as [[code pc] Hs]. exists code.
    destruct (Hcalls _ _ _ Hs) as [Hok _]. assert (Hz : rank pc ≤ 0) by (unfold rank_of in Hrank at 1; rewrite Hs in Hrank; change (rank pc ≤ rank_of (start v0 codes) i - count_occ Nat.eq_dec schedule i) in Hrank; lia).
    destruct pc as [r|r cur|res]; [| |by exists res]; exfalso; unfold rank in Hz; destruct Hok as [? _]; lia.
Qed.

(** Alone, [verify] accepts exactly the code of the counter and moves
    the counter by one then; it always returns. *)
Theorem hotp_verify_alone v code :
  hotp_verify hmac_sha1 v code =
    match code_of (hotp_secret v) (counter v) with
    | Err e => (v, Returned (Err e))
    | Ok expected =>
        if bool_decide (expected = code) then (HotpVerifier_new (hotp_secret v) ((counter v + 1) `mod` 2 ^ 64), Returned (Ok true))
        else (v, Returned (Ok false))
    end.
Proof.
  unfold hotp_verify, code_of. cbn [hotp_loop hotp_step]. destruct (hotp_code _ _ _ _) as [e|e]; [|done].
  rewrite equal_codes_spec. cbn [mbind result_bind]. case_bool_decide; [|done]. cbn [hotp_loop hotp_step].
  rewrite decide_True by done. done.
Qed.
End Counter.

(** ** Keyed verification *)

Section KeyedSpec.
Context (hmac_sha256 : list Z → list Z → list Z + string).

Definition hmac_bytes : Prop := ∀ key data, ∃ mac, hmac_sha256 key data = inl mac ∧ Forall is_u8 mac.

(** Service credentials.  A credential made from a non-empty key and a
    token accepts a token exactly when the two tokens have the same MAC under
    the key: printing the digests loses nothing.  Storing the printed digest
    and building the credential from it gives the same credential, and an
    empty key is refused both ways. *)
Theorem service_credential_spec key token hash :
  hmac_bytes →
  (key = [] → is_ok (from_shared_key hmac_sha256 key token) = false ∧ is_ok (from_hash hash key) = false) ∧
  (key ≠ [] → ∃ c, from_shared_key hmac_sha256 key token = Ok c ∧ from_hash (token_hash c) key = Ok c ∧
    ∀ token', service_verify hmac_sha256 c token' =
      Ok (bool_decide (hmac_sha256 key (bytes_of token') = hmac_sha256 key (bytes_of token)))).
Proof.
  intros Hmac. unfold from_shared_key, from_hash. split; [by intros ->|]. intros Hne. rewrite bool_decide_false by done.
  unfold hmac_sha256_hex. destruct (Hmac key (bytes_of token)) as (mac & Em & Hm). rewrite Em.
  eexists. split; [done|]. split; [done|]. intros token'.
  unfold service_verify, hmac_sha256_hex. cbn [service_key token_hash].
  destruct (Hmac key (bytes_of token')) as (mac' & -> & Hm'). cbn [mbind result_bind]. rewrite equal_codes_spec. f_equal.
  apply bool_decide_ext. split; [|by intros [= ->]]. intros He. f_equal. symmetry. by apply hex_of_inj.
Qed.

(** Signatures.  [verify_signature] accepts exactly the signature [sign]
    makes for the message under the verifier's key; the public key of a
    generated pair is the signature of its private key. *)
Theorem signature_verifies_iff v message signature random :
  hmac_bytes →
  (verify_signature hmac_sha256 v message signature = Ok true ↔ sign_message hmac_sha256 v message = Ok signature) ∧
  ∃ public private, generate_keypair hmac_sha256 v random = Ok (public, private) ∧
    length private ≤ PRIVATE_KEY_LENGTH ∧ verify_signature hmac_sha256 v private public = Ok true.
Proof.
  intros Hmac.
  assert (Hiff : ∀ m sg, verify_signature hmac_sha256 v m sg = Ok true ↔ sign_message hmac_sha256 v m = Ok sg).
  { intros m sg. unfold verify_signature, sign_message, hmac_compute. destruct (hmac_sha256 _ _) as [mac|e]; [|done].
    cbn [mbind result_bind]. split; [intros [= H]|intros [= ->]]; [by apply constant_time_eq_spec in H as ->|].
    f_equal. by apply constant_time_eq_spec. }
  split; [apply Hiff|]. unfold generate_keypair, derive_public.
  destruct (sign_message hmac_sha256 v (take PRIVATE_KEY_LENGTH random)) as [public|e] eqn:Hs; cycle 1.
  { unfold sign_message, hmac_compute in Hs. by destruct (Hmac (secret_key v) (take PRIVATE_KEY_LENGTH random)) as (? & E & _); rewrite E in Hs. }
  unfold sign_message in Hs. rewrite Hs. eexists _, _. split; [done|]. split; [rewrite length_take; lia|]. by apply Hiff.
Qed.
End KeyedSpec.

(** ** Similarity *)

Lemma count_zeros_bound b : count_zeros b ≤ 8.
Proof. unfold count_zeros. etransitivity; [apply length_filter|done]. Qed.

Lemma count_zeros_self b : count_zeros (Z.lxor b b) = 8.
Proof. by rewrite Z.lxor_nilpotent. Qed.

Lemma matching_bits_bound a b : matching_bits a b ≤ 8 * (length a `min` length b).
Proof.
  unfold matching_bits. generalize (length a `min` length b). intros n. rewrite <- (length_seq n 0) at 2.
  induction (seq 0 n) as [|i l IH] using rev_ind; [done|]. rewrite foldl_app, length_app. cbn [foldl length].
  pose proof (count_zeros_bound (Z.lxor (byte_at a i) (byte_at b i))). lia.
Qed.

Lemma matching_bits_self a : matching_bits a a = 8 * length a.
Proof.
  unfold matching_bits. rewrite Nat.min_id. rewrite <- (length_seq (length a) 0) at 2.
  induction (seq 0 (length a)) as [|i l IH] using rev_ind; [done|]. rewrite foldl_app, length_app. cbn [foldl length].
  rewrite count_zeros_self. lia.
Qed.

Lemma matching_bits_comm a b : matching_bits a b = matching_bits b a.
Proof.
  unfold matching_bits. rewrite Nat.min_comm. induction (seq 0 _) as [|i l IH] using rev_ind; [done|].
  rewrite !foldl_app. cbn [foldl]. by rewrite IH, Z.lxor_comm.
Qed.

(** Integers of at most 53 bits are exact. *)
Lemma of_Z_exact n : (0 < n < 2 ^ 53)%Z → is_finite (f64_of_Z n) = true ∧ sv (f64_of_Z n) = (n * unit_sv)%Z.
Proof.
  intros Hn. destruct n as [|p|p]; [lia| |lia].
  pose proof (digits_bounds p) as [Hlo Hhi]. set (d := Zdigits2 (Z.pos p)) in *. change (Z.pos (digits2_pos p)) with d in Hlo, Hhi.
  assert (Hd : (1 ≤ d ≤ 53)%Z).
  { split; [unfold d; simpl; lia|]. apply digits_lt; lia. }
  set (e := (d - 53)%Z).
  destruct (Z.pos p * 2 ^ (53 - d))%Z as [|q|q] eqn:Eq; [pose proof (pow_gt (53 - d)); nia| |pose proof (pow_gt (53 - d)); nia].
  assert (Hm : (2 ^ 52 ≤ Z.pos q < 2 ^ 53)%Z).
  { pose proof (pow_gt (53 - d) ltac:(lia)). rewrite <- Eq. replace (2 ^ 52)%Z with (2 ^ (d - 1) * 2 ^ (53 - d))%Z by (rewrite <- pow_pos_add by lia; f_equal; lia).
    replace (2 ^ 53)%Z with (2 ^ d * 2 ^ (53 - d))%Z by (rewrite <- pow_pos_add by lia; f_equal; lia). nia. }
  set (x := S754_finite false q e).
  assert (Hx : is_finite x = true).
  { unfold x, is_finite, bounded. rewrite (bounds_canonical q e); [apply Z.leb_le; unfold e; lia|unfold e; lia|lia|right; lia]. }
  assert (Hv : (sv x = Z.pos p * unit_sv)%Z).
  { unfold x. cbn [sv cond_Zopp]. rewrite <- Eq. unfold unit_sv. rewrite <- Z.mul_assoc, <- pow_pos_add by (unfold e, K; lia).
    do 2 f_equal. unfold e. lia. }
  destruct (rounds_between 0 (Z.pos p * unit_sv) (f64_of_Z (Z.pos p)) x x) as [Hf Hb]; [lia|apply of_Z_rounds|done|done|lia|].
  split; [done|lia].
Qed.

Lemma div_self x : is_finite x = true → (0 < sv x)%Z → f64_div x x = f64_one.
Proof.
  intros Hf Hpos. destruct x as [s|s| |s m e]; try done.
  assert (s = false) as -> by (apply is_finite_canonical in Hf as [Hc _]; apply sv_pos in Hc; destruct s; [cbn [sv cond_Zopp] in Hpos; lia|done]).
  unfold f64_div. cbn [SFdiv xorb]. unfold SFdiv_core_binary. rewrite !Z.sub_diag. cbv zeta. change (fexp 53 1024 0) with (-53)%Z.
  change (Z.min (-53) 0) with (-53)%Z. change (0 - -53)%Z with 53%Z. cbv iota beta.
  rewrite Z.shiftl_mul_pow2 by lia.
  assert (Hq : Z.div_eucl (Z.pos m * 2 ^ 53) (Z.pos m) = (2 ^ 53, 0)%Z).
  { pose proof (Z_div_mod_eq_full (Z.pos m * 2 ^ 53) (Z.pos m)). rewrite (surjective_pairing (Z.div_eucl _ _)).
    change (fst (Z.div_eucl ?a ?b)) with (a / b)%Z. change (snd (Z.div_eucl ?a ?b)) with (a mod b)%Z.
    f_equal; [rewrite Z.mul_comm; apply Z.div_mul; lia|rewrite Z.mul_comm; apply Z.mod_mul; lia]. }
  rewrite Hq. unfold new_location. by destruct (Z.even _).
Qed.

(** A quotient of a nonnegative number by one that is not smaller. *)
Lemma div_unit a c : is_finite a = true → is_finite c = true → (0 ≤ sv a ≤ sv c)%Z → (0 < sv c)%Z → in_unit (f64_div a c).
Proof.
  intros Ha Hc Hle Hpos.
  destruct c as [|?| |sc mc ec]; try done. apply is_finite_canonical in Hc as [Hc Hec].
  pose proof (canonical_bounds _ _ Hc) as (Hec' & _). pose proof (sv_pos _ _ Hc) as Hvc.
  assert (sc = false) as -> by (destruct sc; [cbn [sv cond_Zopp] in Hpos; lia|done]).
  destruct a as [[]|?| |sa ma ea]; try done. apply is_finite_canonical in Ha as [Ha Hea].
  pose proof (canonical_bounds _ _ Ha) as (Hea' & _). pose proof (sv_pos _ _ Ha) as Hva.
  assert (sa = false) as -> by (destruct sa; [cbn [sv cond_Zopp] in Hle; lia|done]).
  unfold f64_div. cbn [SFdiv xorb]. pose proof (div_core_spec ma ea mc ec) as Hcore.
  destruct (SFdiv_core_binary _ _ _ _ _ _) as [[q e'] l].
  destruct Hcore as (s & r & Hs & Hs0 & Hqr & Hr & Hl & Hq & Hal & He').
  pose proof (pow_gt (ec + K) ltac:(unfold K; lia)) as Hpc. pose proof (pow_gt (e' + 3000) ltac:(lia)) as Hpe.
  (* both sides of [a <= c], times 2 to the 3000 *)
  assert (Hscaled : ((Z.pos mc * q + r) * (2 ^ (ec + K) * 2 ^ (e' + 3000)) ≤ Z.pos mc * 2 ^ (ec + K) * 2 ^ 3000)%Z).
  { rewrite <- Hqr. replace (Z.pos ma * 2 ^ s * (2 ^ (ec + K) * 2 ^ (e' + 3000)))%Z with (Z.pos ma * 2 ^ (ea + K) * 2 ^ 3000)%Z.
    - apply Z.mul_le_mono_nonneg_r; [apply Z.pow_nonneg; lia|]. cbn [sv cond_Zopp] in Hle. lia.
    - rewrite <- !Z.mul_assoc, <- !pow_pos_add by (unfold K; lia). do 2 f_equal. lia. }
  assert (Hmain : ((Z.pos mc * q + r) * 2 ^ (e' + 3000) ≤ Z.pos mc * 2 ^ 3000)%Z) by nia.
  destruct (round_aux_below 3000 q e' l 4503599627370496 (-52)) as [Hf Hv];
    [lia|exact Hq|lia|exact Hal|done|lia| | |].
  - change (4503599627370496 * 2 ^ (-52 + 3000))%Z with (2 ^ 3000)%Z. generalize dependent (2 ^ 3000)%Z. intros. nia.
  - change (4503599627370496 * 2 ^ (-52 + 3000))%Z with (2 ^ 3000)%Z. destruct Hl as [?|Hl]; [by left|right].
    generalize dependent (2 ^ 3000)%Z. intros. nia.
  - apply in_unit_sv. split; [exact Hf|]. rewrite <- sv_one. exact Hv.
Qed.

Lemma similarity_unit a b : (Z.of_nat (length a) < 2 ^ 50)%Z → (Z.of_nat (length b) < 2 ^ 50)%Z → in_unit (compute_similarity a b).
Proof.
  intros Ha Hb. unfold compute_similarity. destruct (is_empty a) eqn:Ea; [by split_and!|].
  destruct (is_empty b) eqn:Eb; [by split_and!|]. cbn [orb].
  assert (0 < length a) by (destruct a; [done|simpl; lia]).
  destruct (of_Z_exact (Z.of_nat ((length a `max` length b) * 8))) as [Hf Hv]; [lia|].
  pose proof (matching_bits_bound a b) as Hm. pose proof unit_pos. unfold f64_of_nat.
  destruct (matching_bits a b) as [|k] eqn:Ek.
  - apply div_unit; [done|done| |]; rewrite Hv; [cbn [sv f64_of_Z]; vm_compute (sv _)|]; nia.
  - destruct (of_Z_exact (Z.of_nat (S k))) as [Hf' Hv']; [lia|]. apply div_unit; [done|done| |]; rewrite Hv, ?Hv'; nia.
Qed.

(** Similarity.  For samples of any practical size the similarity is a
    binary64 number of the unit interval and does not depend on the order of
    the arguments; equal samples have similarity exactly 1.0, and so a
    non-empty template is accepted as its own sample under every threshold
    that is a number, clamped as [with_threshold] does; under a threshold
    that is not a number nothing is accepted, and an empty sample or template
    never is. *)
Theorem biometric_similarity a b t :
  (Z.of_nat (length a) < 2 ^ 50)%Z → (Z.of_nat (length b) < 2 ^ 50)%Z → well_formed t →
  in_unit (compute_similarity a b) ∧ compute_similarity a b = compute_similarity b a ∧
  (a ≠ [] → compute_similarity a a = f64_one ∧ biometric_verify (with_threshold t) a a = Ok true) ∧
  biometric_verify (with_threshold S754_nan) a b = Ok false ∧
  ∀ v, biometric_verify v [] b = Ok false ∧ biometric_verify v a [] = Ok false.
Proof.
  intros Ha Hb Ht.
  assert (Hone : a ≠ [] → compute_similarity a a = f64_one).
  { intros Hne. unfold compute_similarity. replace (is_empty a) with false by (by destruct a). cbn [orb].
    rewrite matching_bits_self, Nat.max_id, Nat.mul_comm.
    destruct (of_Z_exact (Z.of_nat (length a * 8))) as [Hf Hv]; [destruct a; [done|simpl length in *; lia]|].
    apply div_self; [exact Hf|]. unfold f64_of_nat. rewrite Hv. pose proof unit_pos. destruct a; [done|simpl length; nia]. }
  split_and!.
  - by apply similarity_unit.
  - unfold compute_similarity. by rewrite orb_comm, matching_bits_comm, Nat.max_comm.
  - intros Hne. split; [by apply Hone|]. unfold biometric_verify. rewrite Hone by done.
    replace (is_empty a) with false by (by destruct a). cbn [orb]. f_equal. apply (clamp_unit t Ht).
  - unfold biometric_verify. by destruct (is_empty a || is_empty b).
  - intros v. unfold biometric_verify. by destruct (is_empty a).
Qed.

(** ** Concrete codes *)

Module ToyMac.

(** A MAC of twenty bytes whose last selects the offset. *)
Definition toy_sha1 (key data : list Z) : list Z + string :=
  inl ((λ i, (foldl Z.add (Z.of_nat i * 37) data + foldl Z.add 0 key) `mod` 256)%Z <$> seq 0 20).
Definition toy_sha256 (key data : list Z) : list Z + string :=
  inl ((λ b, (b + foldl Z.add 0 key) `mod` 256)%Z <$> data).

Lemma toy_sha1_bytes : digest_bytes toy_sha1.
Proof.
  intros key data mac [= <-]. split; [done|]. repeat (constructor; [by apply Z.mod_pos_bound|]). constructor.
Qed.
Lemma toy_sha256_bytes : hmac_bytes toy_sha256.
Proof.
  intros key data. eexists. split; [done|]. apply Forall_fmap, Forall_forall. intros b _. apply Z.mod_pos_bound. lia.
Qed.

Lemma totp_code_shape_witness : ∃ s, code_at toy_sha1 (totp_with_options [1; 2]%Z 8 30) 5 = Ok s ∧ Z.of_nat (String.length s) = 8%Z.
Proof.
  destruct (totp_code_shape toy_sha1 [1; 2]%Z 8 30 5 _ toy_sha1_bytes eq_refl) as (_ & s & Hs & _ & Hl & _).
  exists s. split; [exact Hs|exact Hl].
Defined.

Lemma totp_window_witness :
  ∃ accepted, totp_verify toy_sha1 (TotpVerifier_new [7]%Z) "000000" 100 = Ok accepted.
Proof.
  destruct (totp_window toy_sha1 (TotpVerifier_new [7]%Z) "000000" 100) as (r & Hr & _); [done|lia|cbn; lia|by exists r].
Defined.

Lemma hotp_consumes_once_witness :
  let v := HotpVerifier_new [7]%Z 3 in
  let s := interleave toy_sha1 (start v ["000000"; "000001"]) [0; 1; 0; 1] in
  ∃ accepted : list nat, counter (shared s) = (3 + Z.of_nat (length accepted))%Z.
Proof.
  destruct (hotp_consumes_once toy_sha1 (HotpVerifier_new [7]%Z 3) ["000000"; "000001"] [0; 1; 0; 1]) as (acc & _ & Hc & _);
    [cbn; lia|cbn; unfold u64_modulus; lia|by exists acc].
Defined.

Lemma service_credential_spec_witness :
  ∃ c, from_shared_key toy_sha256 [9]%Z "token" = Ok c ∧ service_verify toy_sha256 c "token" = Ok true.
Proof.
  destruct (proj2 (service_credential_spec toy_sha256 [9]%Z "token" "" toy_sha256_bytes) ltac:(done)) as (c & Hc & _ & Hv).
  exists c. split; [done|]. rewrite Hv. by vm_compute.
Defined.

Lemma signature_verifies_iff_witness :
  verify_signature toy_sha256 (KeyPairVerifier_new [1; 2]%Z) [5]%Z [8]%Z = Ok true.
Proof. apply (signature_verifies_iff toy_sha256 (KeyPairVerifier_new [1; 2]%Z) [5]%Z [8]%Z [] toy_sha256_bytes). by vm_compute. Defined.

Lemma biometric_similarity_witness : biometric_verify (with_threshold (lit 3 2)) [1; 2]%Z [1; 2]%Z = Ok true.
Proof.
  apply (biometric_similarity [1; 2]%Z [1; 2]%Z (lit 3 2)); [cbn; lia|cbn; lia|by vm_compute|done].
Defined.
End ToyMac.
