(* ===== verification/AuditLog.v ===== *)
(** * The audit log: src/src/rbac/audit.rs

    - the entries, the filter and the bounded in-memory sink;
    - the rules, their conditions and the in-memory policy engine;
    - the analyzer and [AuditLogger].

    An [f64] is a binary64 number ([Float64]); dates are integers
    (nanoseconds).  A handler is one step, except that [evaluate] is also
    given as the three sections between its awaits. *)

From Stdlib Require Import Floats.SpecFloat.
From S2P Require Import Prelude Float64.

(** The literal [0.6]. *)
Definition f64_six_tenths : f64 := lit 6 10.

(** ** Entries *)

Record AuditSubScores := {
  delegator_weight : f64;
  trust_penalty : f64;
  sensitivity : f64;
  domain_mismatch : f64;
  anomaly : f64;
}.

Record AuditVerdict := {
  autonomy_level : string;
  risk_score : f64;
  sub_scores : AuditSubScores;
  evidence : list string;
  mitigation : option string;
}.

Record AuditEntry := {
  entry_id : Z;
  entry_subject : string;
  subject_type : string;
  entry_permission : string;
  endpoint : string;
  granted : bool;
  entry_date : Z;
  verdict : option AuditVerdict;
}.

Definition is_denied (e : AuditEntry) : bool := negb (granted e).

(** [is_some_and] on the verdict; an unscored entry fails every test. *)
Definition verdict_is (e : AuditEntry) (f : AuditVerdict → bool) : bool :=
  match verdict e with
  | Some v => f v
  | None => false
  end.

Definition is_high_risk (e : AuditEntry) : bool :=
  verdict_is e (λ v, SFleb f64_six_tenths (risk_score v)).

(** [map_or(0.0, ..)] *)
Definition risk_of (e : AuditEntry) : f64 :=
  match verdict e with
  | Some v => risk_score v
  | None => f64_zero
  end.

(** ** Rules *)

Inductive AuditSeverity := Info | Warning | Critical.

Inductive AuditAction :=
  | Alert (message : string) (severity : AuditSeverity)
  | Notify (target message : string)
  | Countermeasure (action : string) (params : gmap string string).

Inductive LogicalOp := All | Any.

Inductive AuditCondition :=
  | Denied
  | HighRisk (threshold : f64)
  | CategorySensitive (min_weight : f64)
  | DomainMismatch (min_weight : f64)
  | RapidDenials (window_secs : Z) (min_count : nat)
  | TrustBelow (threshold : f64)
  | Composite (conditions : list AuditCondition) (operator : LogicalOp).

Record AuditRule := {
  rule_id : string;
  rule_name : string;
  enabled : bool;
  condition : AuditCondition;
  action : AuditAction;
  cooldown_secs : Z;
}.

Fixpoint cond_evaluate (c : AuditCondition) (e : AuditEntry) : bool :=
  match c with
  | Denied => is_denied e
  | HighRisk threshold => verdict_is e (λ v, SFleb threshold (risk_score v))
  | CategorySensitive w => verdict_is e (λ v, SFleb w (sensitivity (sub_scores v)))
  | DomainMismatch w => verdict_is e (λ v, SFleb w (domain_mismatch (sub_scores v)))
  | RapidDenials _ _ => false
  | TrustBelow threshold =>
      verdict_is e (λ v,
        let trust := f64_sub f64_one (trust_penalty (sub_scores v)) in SFleb trust threshold)
  | Composite conditions All => forallb (λ c, cond_evaluate c e) conditions
  | Composite conditions Any => existsb (λ c, cond_evaluate c e) conditions
  end.

Record AuditAlert := {
  alert_rule_id : string;
  alert_rule_name : string;
  alert_action : AuditAction;
  triggering_entry : AuditEntry;
  alert_date : Z;
}.

Record AuditFilter := {
  f_subject_id : option string;
  f_granted : option bool;
  f_permission : option string;
  since : option Z;
  until : option Z;
  min_risk : option f64;
  limit : option nat;
}.

Definition AuditFilter_default : AuditFilter := {|
  f_subject_id := None; f_granted := None; f_permission := None; since := None; until := None;
  min_risk := None; limit := None |}.

(** An absent field matches. *)
Definition field {A} (o : option A) (test : A → bool) : bool :=
  match o with
  | Some a => test a
  | None => true
  end.

Definition matches_filter (e : AuditEntry) (f : AuditFilter) : bool :=
  field (f_subject_id f) (λ s, bool_decide (entry_subject e = s)) &&
  field (f_granted f) (λ g, bool_decide (granted e = g)) &&
  field (f_permission f) (λ p, bool_decide (entry_permission e = p)) &&
  field (since f) (λ t, negb (entry_date e <? t)%Z) &&
  field (until f) (λ t, negb (t <? entry_date e)%Z) &&
  field (min_risk f) (λ r, negb (SFltb (risk_of e) r)).

(** ** The sink *)

(** [AuditSink] *)
Class AuditSink (Sk : Type) := {
  append : Sk → AuditEntry → Sk;
  query : Sk → AuditFilter → list AuditEntry;
  count : Sk → AuditFilter → nat;
}.

Definition DEFAULT_MAX_AUDIT_ENTRIES : nat := 10 * 1000.

Record InMemoryAuditSink := {
  entries : list AuditEntry;
  next_id : Z;
  max_entries : nat;
}.

Definition with_max_entries (n : nat) : InMemoryAuditSink := {|
  entries := []; next_id := 1; max_entries := n |}.
Definition InMemoryAuditSink_new : InMemoryAuditSink := with_max_entries DEFAULT_MAX_AUDIT_ENTRIES.

Definition with_id (e : AuditEntry) (id : Z) : AuditEntry := {|
  entry_id := id; entry_subject := entry_subject e; subject_type := subject_type e;
  entry_permission := entry_permission e; endpoint := endpoint e; granted := granted e;
  entry_date := entry_date e; verdict := verdict e |}.

(** [while entries.len() > max { entries.pop_front(); }] *)
Fixpoint evict (max : nat) (l : list AuditEntry) : list AuditEntry :=
  match l with
  | [] => []
  | _ :: rest => if bool_decide (max < length l) then evict max rest else l
  end.

Definition mem_append (s : InMemoryAuditSink) (e : AuditEntry) : InMemoryAuditSink := {|
  entries := evict (max_entries s) (entries s ++ [with_id e (next_id s)]);
  next_id := wrapping_add_u64 (next_id s) 1;
  max_entries := max_entries s;
|}.

Definition matching (s : InMemoryAuditSink) (f : AuditFilter) : list AuditEntry :=
  filter (λ e, matches_filter e f = true) (entries s).

(** Newest first: a stable sort on the reversed date. *)
Definition mem_query (s : InMemoryAuditSink) (f : AuditFilter) : list AuditEntry :=
  let result := sort_by_key (λ e, - entry_date e)%Z (matching s f) in
  match limit f with
  | Some n => take n result
  | None => result
  end.

Definition mem_count (s : InMemoryAuditSink) (f : AuditFilter) : nat := length (matching s f).

#[export] Instance mem_audit_sink : AuditSink InMemoryAuditSink := {|
  append := mem_append; query := mem_query; count := mem_count |}.

(** ** The policy engine *)

Record AuditPolicyEngine := {
  rules : list AuditRule;
  last_triggered : gmap string Z;
}.

Definition AuditPolicyEngine_new : AuditPolicyEngine := {|
  rules := []; last_triggered := ∅ |}.

Section Engine.
Context {Sk : Type} `{AuditSink Sk}.

(** [i64::try_from(w).unwrap_or(i64::MAX)] *)
Definition saturate_i64 (w : Z) : Z := if (w <=? i64_max)%Z then w else i64_max.

(** The filter of a [RapidDenials] rule. *)
Definition denial_filter (subject : string) (from : Z) : AuditFilter := {|
  f_subject_id := Some subject; f_granted := Some false; f_permission := None;
  since := Some from; until := None; min_risk := None; limit := None |}.

(** The earliest date of chrono. *)
Variable min_date : Z.

(** Does the rule match?  [None] is a panic: [Duration::seconds] refuses a
    window beyond [i64::MAX] milliseconds, and the subtraction a date before
    [min_date]. *)
Definition rule_matched (sink : option Sk) (c : AuditCondition) (e : AuditEntry) (now : Z)
    : option bool :=
  match c with
  | RapidDenials window min_count =>
      match sink with
      | None => Some false
      | Some sk =>
          window ← duration_seconds (saturate_i64 window);
          if (now - window <? min_date)%Z then None
          else Some (bool_decide (min_count ≤ count sk (denial_filter (entry_subject e) (now - window))))
      end
  | other => Some (cond_evaluate other e)
  end.

(** [continue] on the cooldown of the rule's id. *)
Definition cooling (last : gmap string Z) (r : AuditRule) (now : Z) : bool :=
  match last !! rule_id r with
  | Some last_time =>
      let elapsed_secs := num_seconds (now - last_time) in
      (elapsed_secs <? 0)%Z || (elapsed_secs <? cooldown_secs r)%Z
  | None => false
  end.

Definition alert_of (r : AuditRule) (e : AuditEntry) (now : Z) : AuditAlert := {|
  alert_rule_id := rule_id r;
  alert_rule_name := rule_name r;
  alert_action := action r;
  triggering_entry := e;
  alert_date := now;
|}.

(** The loop over the snapshot of the rules. *)
Fixpoint fire (sink : option Sk) (rs : list AuditRule) (last : gmap string Z) (e : AuditEntry)
    (now : Z) : option (gmap string Z * list AuditAlert) :=
  match rs with
  | [] => Some (last, [])
  | r :: rs =>
      if negb (enabled r) || cooling last r now then fire sink rs last e now
      else
        matched ← rule_matched sink (condition r) e now;
        if matched : bool then
          res ← fire sink rs (<[rule_id r := now]> last) e now;
          Some (res.1, alert_of r e now :: res.2)
        else fire sink rs last e now
  end.

(** The three sections of [evaluate]: what it reads of the engine, the loop,
    and the write-back of every entry of its snapshot. *)
Definition eval_read (en : AuditPolicyEngine) : list AuditRule * gmap string Z :=
  (rules en, last_triggered en).
Definition eval_write (en : AuditPolicyEngine) (last : gmap string Z) : AuditPolicyEngine := {|
  rules := rules en;
  last_triggered := last ∪ last_triggered en;
|}.

(** [None] is a panic. *)
Definition evaluate (en : AuditPolicyEngine) (sink : option Sk) (e : AuditEntry) (now : Z)
    : option (list AuditAlert * AuditPolicyEngine) :=
  let snapshot := eval_read en in
  res ← fire sink snapshot.1 snapshot.2 e now;
  Some (res.2, eval_write en res.1).

Definition add_rule (en : AuditPolicyEngine) (r : AuditRule) : AuditPolicyEngine := {|
  rules := rules en ++ [r];
  last_triggered := last_triggered en;
|}.

Definition remove_rule (en : AuditPolicyEngine) (id : string) : bool * AuditPolicyEngine :=
  let kept := filter (λ r, rule_id r ≠ id) (rules en) in
  (bool_decide (length kept < length (rules en)),
   {| rules := kept; last_triggered := last_triggered en |}).

Definition list_rules (en : AuditPolicyEngine) : list AuditRule := rules en.

(** ** The logger

    Its engine, if any, reads the sink [engine_sink]; [hooks] counts the
    registered callbacks, and the calls made are listed as (alert, hook): a
    hook that panics is caught and the others still run. *)
Record AuditLogger := {
  sink : Sk;
  policy_engine : option AuditPolicyEngine;
  hooks : nat;
}.

Definition AuditLogger_new (s : Sk) : AuditLogger := {|
  sink := s; policy_engine := None; hooks := 0 |}.
Definition with_policy_engine (l : AuditLogger) (en : AuditPolicyEngine) : AuditLogger := {|
  sink := sink l; policy_engine := Some en; hooks := hooks l |}.
Definition on_alert (l : AuditLogger) : AuditLogger := {|
  sink := sink l; policy_engine := policy_engine l; hooks := S (hooks l) |}.

(** [log], and the logger when its engine panics: the entry is in the sink
    either way. *)
Definition log (l : AuditLogger) (engine_sink : Sk → option Sk) (e : AuditEntry) (now : Z)
    : option (list AuditAlert * list (AuditAlert * nat)) * AuditLogger :=
  let sk := append (sink l) e in
  match policy_engine l with
  | None => (Some ([], []), {| sink := sk; policy_engine := None; hooks := hooks l |})
  | Some en =>
      match evaluate en (engine_sink sk) e now with
      | None => (None, {| sink := sk; policy_engine := Some en; hooks := hooks l |})
      | Some (fired, en') =>
          (Some (fired, a ← fired; h ← seq 0 (hooks l); [(a, h)]),
           {| sink := sk; policy_engine := Some en'; hooks := hooks l |})
      end
  end.
End Engine.

(** ** The analyzer *)

Record SubjectStats := {
  total : nat;
  denied : nat;
  avg_risk : f64;
  stats_max_risk : f64;
}.

Record AuditAnalysisResult := {
  total_entries : nat;
  denied_count : nat;
  denied_rate : f64;
  high_risk_count : nat;
  by_subject : gmap string SubjectStats;
  by_permission : gmap string nat;
  top_risk_entries : list AuditEntry;
}.

Definition SubjectStats_zero : SubjectStats := {|
  total := 0; denied := 0; avg_risk := f64_zero; stats_max_risk := f64_zero |}.

Definition add_entry (st : SubjectStats) (e : AuditEntry) : SubjectStats := {|
  total := S (total st);
  denied := if is_denied e then S (denied st) else denied st;
  avg_risk := f64_add (avg_risk st) (risk_of e);
  stats_max_risk := f64_max (stats_max_risk st) (risk_of e);
|}.

Definition count_entry (acc : gmap string SubjectStats * gmap string nat) (e : AuditEntry)
    : gmap string SubjectStats * gmap string nat :=
  (<[entry_subject e := add_entry (default SubjectStats_zero (acc.1 !! entry_subject e)) e]> acc.1,
   <[entry_permission e := S (default 0 (acc.2 !! entry_permission e))]> acc.2).

Definition average (st : SubjectStats) : SubjectStats := {|
  total := total st;
  denied := denied st;
  avg_risk := if bool_decide (0 < total st) then f64_div (avg_risk st) (f64_of_nat (total st))
              else avg_risk st;
  stats_max_risk := stats_max_risk st;
|}.

(** [sort_by] on descending risk: stable, and defined for comparisons that
    are total, that is for risks that are not NaN. *)
Fixpoint insert_by_risk (x : AuditEntry) (l : list AuditEntry) : list AuditEntry :=
  match l with
  | [] => [x]
  | y :: k => if SFltb (risk_of x) (risk_of y) then y :: insert_by_risk x k else x :: l
  end.

Definition analyze (es : list AuditEntry) : AuditAnalysisResult :=
  let counts := foldl count_entry (∅, ∅) es in
  let denied_count := length (filter (λ e, is_denied e = true) es) in {|
  total_entries := length es;
  denied_count := denied_count;
  denied_rate := if bool_decide (0 < length es)
                 then f64_div (f64_of_nat denied_count) (f64_of_nat (length es)) else f64_zero;
  high_risk_count := length (filter (λ e, is_high_risk e = true) es);
  by_subject := average <$> counts.1;
  by_permission := counts.2;
  top_risk_entries := take 10 (foldr insert_by_risk [] es);
|}.

(** ** Queries through the logger

    [AuditLogger] with its analyzer, any function of the entries: the trait
    object of [with_analyzer]. *)
Section Front.
Context {Sk : Type} `{AuditSink Sk}.

Record AnalyzedLogger := {
  logger : AuditLogger (Sk := Sk);
  analyzer : option (list AuditEntry → AuditAnalysisResult);
}.

Definition without_analyzer (l : AuditLogger (Sk := Sk)) : AnalyzedLogger := {| logger := l; analyzer := None |}.
Definition with_analyzer (l : AnalyzedLogger) (an : list AuditEntry → AuditAnalysisResult) : AnalyzedLogger := {|
  logger := logger l; analyzer := Some an |}.

Definition logger_query (l : AnalyzedLogger) (f : AuditFilter) : list AuditEntry := query (sink (logger l)) f.
Definition logger_count (l : AnalyzedLogger) (f : AuditFilter) : nat := count (sink (logger l)) f.
Definition analyze_recent (l : AnalyzedLogger) (f : AuditFilter) : option AuditAnalysisResult :=
  match analyzer l with
  | None => None
  | Some an => let entries := query (sink (logger l)) f in Some (an entries)
  end.
End Front.

(** ** The sink keeps the latest entries *)

(** The entries appended, with the ids the sink gives them. *)
Definition numbered (es : list AuditEntry) : list AuditEntry :=
  imap (λ i e, with_id e (Z.of_nat i + 1)) es.

Lemma evict_drop max l : evict max l = drop (length l - max) l.
Proof.
  induction l as [|e l IH]; [done|]. cbn [evict]. case_bool_decide as Hlen; cbn [length] in *.
  - rewrite IH. replace (S (length l) - max) with (S (length l - max)) by lia. done.
  - by replace (S (length l) - max) with 0 by lia.
Qed.

Lemma appended_sink max es :
  (Z.of_nat (length es) < u64_modulus - 1)%Z →
  let s := foldl append (with_max_entries max) es in
  entries s = drop (length es - max) (numbered es) ∧
  next_id s = (Z.of_nat (length es) + 1)%Z ∧ max_entries s = max.
Proof.
  induction es as [|e es IH] using rev_ind; [done|]. rewrite length_app. cbn [length]. intros Hlt.
  rewrite foldl_app. cbn [foldl]. destruct IH as (He & Hn & Hm); [lia|].
  set (s0 := foldl append _ es) in *. clearbody s0.
  cbn [append mem_audit_sink mem_append entries next_id max_entries]. rewrite Hm, Hn, He.
  split_and!; [|rewrite wrapping_succ_u64; unfold is_u64; lia|done].
  unfold numbered. rewrite imap_app. cbn [imap]. rewrite Nat.add_0_r.
  set (N := imap _ es). assert (HN : length N = length es) by apply length_imap.
  set (x := with_id e _). rewrite evict_drop, length_app, length_drop, HN. cbn [length].
  destruct (decide (max ≤ length es)) as [Hle|Hgt].
  - rewrite <- drop_app_le by lia. rewrite drop_drop. f_equal. lia.
  - replace (length es - max) with 0 by lia. rewrite !drop_0. f_equal. lia.
Qed.

(** *** The loop over the rules *)

Section Fire.
Context {Sk : Type} `{AuditSink Sk}.
Variable min_date : Z.

(** The cooldown of [r] allows a firing at [now]. *)
Definition allowed (last : gmap string Z) (r : AuditRule) (now : Z) : Prop :=
  ∀ t, last !! rule_id r = Some t →
    (0 ≤ num_seconds (now - t) ∧ cooldown_secs r ≤ num_seconds (now - t))%Z.

Lemma cooling_false last r now : cooling last r now = false ↔ allowed last r now.
Proof.
  unfold cooling, allowed. destruct (last !! rule_id r) as [t|]; [|naive_solver].
  rewrite orb_false_iff, !Z.ltb_ge. naive_solver.
Qed.

Lemma allowed_after_firing last r r' now :
  allowed last r now → allowed (<[rule_id r := now]> last) r' now →
  allowed last r' now ∧ (rule_id r' = rule_id r → (cooldown_secs r' ≤ 0)%Z).
Proof.
  unfold allowed. intros Hr Hr'. destruct (decide (rule_id r' = rule_id r)) as [Heq|Hne].
  - rewrite Heq in *. rewrite lookup_insert_eq in Hr'. specialize (Hr' now eq_refl).
    rewrite Z.sub_diag in Hr'. change (num_seconds 0) with 0%Z in Hr'. split; [|intros _; lia].
    intros t Ht. specialize (Hr t Ht). lia.
  - rewrite lookup_insert_ne in Hr' by done. by split.
Qed.

(** What one pass over the rules [rs] does to the cooldowns and reports. *)
Lemma fire_last sk rs last e now last' alerts :
  fire min_date sk rs last e now = Some (last', alerts) → ∀ id,
  last' !! id = if decide (id ∈ alert_rule_id <$> alerts) then Some now else last !! id.
Proof.
  revert last alerts. induction rs as [|r rs IH]; intros last alerts; cbn [fire].
  { intros [= <- <-] id. by rewrite decide_False by apply not_elem_of_nil. }
  destruct (negb (enabled r) || cooling last r now); [by apply IH|].
  destruct (rule_matched min_date sk (condition r) e now) as [[|]|]; cbn [mbind option_bind];
    [|by apply IH|done].
  destruct (fire min_date sk rs _ e now) as [[last1 alerts1]|] eqn:Hf; [|done].
  intros [= <- <-] id. rewrite (IH _ _ Hf id). cbn [fmap list_fmap].
  destruct (decide (id = rule_id r)) as [->|Hne].
  - rewrite lookup_insert_eq. rewrite (decide_True (P := rule_id r ∈ _ :: _)) by apply list_elem_of_here.
    by case_decide.
  - rewrite lookup_insert_ne by done. case_decide as Hin.
    + rewrite decide_True by by apply list_elem_of_further. done.
    + rewrite decide_False; [done|]. apply not_elem_of_cons. by split.
Qed.

Lemma fire_alerts sk rs last e now last' alerts a :
  fire min_date sk rs last e now = Some (last', alerts) → a ∈ alerts →
  ∃ r, r ∈ rs ∧ a = alert_of r e now ∧ enabled r = true ∧
    rule_matched min_date sk (condition r) e now = Some true ∧ allowed last r now.
Proof.
  revert last alerts. induction rs as [|r rs IH]; intros last alerts; cbn [fire].
  { intros [= _ <-]. by intros ?%not_elem_of_nil. }
  destruct (negb (enabled r) || cooling last r now) eqn:Hskip.
  { intros Hf Ha. destruct (IH _ _ Hf Ha) as (r' & ? & ?). exists r'. split; [by right|done]. }
  apply orb_false_iff in Hskip as [Hen%negb_false_iff Hcool%cooling_false].
  destruct (rule_matched min_date sk (condition r) e now) as [[|]|] eqn:Hm; cbn [mbind option_bind];
    [|intros Hf Ha; destruct (IH _ _ Hf Ha) as (r' & ? & ?); exists r'; split; [by right|done]|done].
  destruct (fire min_date sk rs _ e now) as [[last1 alerts1]|] eqn:Hf; [|done].
  intros [= <- <-] [->|Ha]%elem_of_cons.
  - exists r. split_and!; [by left|done..].
  - destruct (IH _ _ Hf Ha) as (r' & ? & ? & ? & ? & Hall). exists r'.
    destruct (allowed_after_firing _ _ _ _ Hcool Hall) as [? _]. split_and!; [by right|done..].
Qed.

Lemma fire_once sk rs last e now last' alerts :
  fire min_date sk rs last e now = Some (last', alerts) →
  Forall (λ r, 0 < cooldown_secs r)%Z rs → NoDup (alert_rule_id <$> alerts).
Proof.
  revert last alerts. induction rs as [|r rs IH]; intros last alerts; cbn [fire].
  { intros [= _ <-] _. constructor. }
  intros Hf [Hr Hrs]%Forall_cons. revert Hf.
  destruct (negb (enabled r) || cooling last r now) eqn:Hskip; [intros Hf; by eapply IH|].
  apply orb_false_iff in Hskip as [_ Hcool%cooling_false].
  destruct (rule_matched min_date sk (condition r) e now) as [[|]|]; cbn [mbind option_bind];
    [|intros Hf; by eapply IH|done].
  destruct (fire min_date sk rs _ e now) as [[last1 alerts1]|] eqn:Hf; [|done].
  intros [= -> <-]. cbn [fmap list_fmap]. constructor; [|by eapply IH].
  intros (a & Heq & Ha)%list_elem_of_fmap.
  destruct (fire_alerts _ _ _ _ _ _ _ _ Hf Ha) as (r' & Hr' & -> & _ & _ & Hall).
  destruct (allowed_after_firing _ _ _ _ Hcool Hall) as [_ Hcd].
  rewrite Forall_forall in Hrs. specialize (Hrs r' Hr'). specialize (Hcd (eq_sym Heq)). lia.
Qed.
End Fire.

(** *** Histories of one engine

    Evaluations one after the other, with a clock that does not go back, and
    any changes of the rules; [fired]: the rule ids that fired, with dates. *)
Section History.
Context {Sk : Type} `{AuditSink Sk}.
Variable min_date : Z.

Inductive audit_run : AuditPolicyEngine → Z → list (string * Z) → Prop :=
  | run_new t : audit_run AuditPolicyEngine_new t []
  | run_add en t fired r : audit_run en t fired → audit_run (add_rule en r) t fired
  | run_remove en t fired id : audit_run en t fired → audit_run (remove_rule en id).2 t fired
  | run_evaluate en t fired sk e now alerts en' :
      audit_run en t fired → (t ≤ now)%Z →
      evaluate min_date en sk e now = Some (alerts, en') →
      audit_run en' now (((λ a, (alert_rule_id a, now)) <$> alerts) ++ fired).

Lemma evaluate_inv (en : AuditPolicyEngine) sk e now alerts en' :
  evaluate min_date en sk e now = Some (alerts, en') →
  ∃ last', fire min_date sk (rules en) (last_triggered en) e now = Some (last', alerts) ∧
    rules en' = rules en ∧ last_triggered en' = last' ∪ last_triggered en.
Proof.
  unfold evaluate. cbn [fst snd eval_read].
  destruct (fire min_date sk (rules en) (last_triggered en) e now) as [[last' al]|]; [|done].
  intros [= <- <-]. by exists last'.
Qed.

Lemma evaluate_last en sk e now alerts en' id :
  evaluate min_date en sk e now = Some (alerts, en') →
  last_triggered en' !! id =
    if decide (id ∈ alert_rule_id <$> alerts) then Some now else last_triggered en !! id.
Proof.
  intros (last' & Hf & _ & ->)%evaluate_inv. pose proof (fire_last _ _ _ _ _ _ _ _ Hf id) as Hl.
  case_decide; [by apply lookup_union_Some_l|].
  destruct (last_triggered en !! id) as [t|] eqn:Hid.
  - by apply lookup_union_Some_l.
  - by apply lookup_union_None.
Qed.

Lemma audit_run_last en t fired :
  audit_run en t fired →
  (∀ id s, last_triggered en !! id = Some s → (s ≤ t)%Z) ∧
  (∀ id s, (id, s) ∈ fired → ∃ s', last_triggered en !! id = Some s' ∧ (s ≤ s')%Z).
Proof.
  induction 1 as [t|en t fired r _ IH|en t fired id _ IH|en t fired sk e now alerts en' _ IH Hle He];
    [|exact IH|exact IH|].
  { split; [done|]. by intros id s ?%not_elem_of_nil. }
  destruct IH as [Hold Hfired]. split.
  - intros id s. rewrite (evaluate_last _ _ _ _ _ _ id He). case_decide; [intros [= <-]; lia|].
    intros Hs. specialize (Hold id s Hs). lia.
  - intros id s [Hin|Hin]%elem_of_app.
    + apply list_elem_of_fmap in Hin as (a & [= -> ->] & Ha). exists now.
      rewrite (evaluate_last _ _ _ _ _ _ _ He), decide_True; [done|].
      apply list_elem_of_fmap. by exists a.
    + destruct (Hfired id s Hin) as (s' & Hs' & ?).
      rewrite (evaluate_last _ _ _ _ _ _ _ He). case_decide; [|by exists s'].
      exists now. split; [done|]. specialize (Hold id s' Hs'). lia.
Qed.

Lemma num_seconds_mono a b : (a ≤ b)%Z → (num_seconds a ≤ num_seconds b)%Z.
Proof. intros ?. unfold num_seconds. apply Z.quot_le_mono; unfold nanos_per_sec; lia. Qed.

(** Cooldowns hold per rule id: evaluations one after the other, an
    alert comes from an enabled rule that matches and whose id last fired,
    whichever rule carried it, at least the rule's cooldown ago; and when
    the cooldowns are positive one evaluation reports an id at most once,
    two rules of one id included. *)
Theorem cooldown_respected en t fired sk e now alerts en' :
  audit_run en t fired → (t ≤ now)%Z → evaluate min_date en sk e now = Some (alerts, en') →
  (∀ a, a ∈ alerts → ∃ r, r ∈ rules en ∧ a = alert_of r e now ∧ enabled r = true ∧
     rule_matched min_date sk (condition r) e now = Some true ∧
     ∀ s, (rule_id r, s) ∈ fired → (cooldown_secs r ≤ num_seconds (now - s))%Z) ∧
  (Forall (λ r, 0 < cooldown_secs r)%Z (rules en) → NoDup (alert_rule_id <$> alerts)).
Proof.
  intros Hrun Hle He. destruct (audit_run_last en t fired Hrun) as [Hold Hfired].
  destruct (evaluate_inv _ _ _ _ _ _ He) as (last' & Hf & _ & _). split.
  - intros a Ha. destruct (fire_alerts _ _ _ _ _ _ _ _ _ Hf Ha) as (r & ? & ? & ? & ? & Hall).
    exists r. split_and!; [done..|]. intros s Hs. destruct (Hfired _ _ Hs) as (s' & Hs' & Hss).
    destruct (Hall s' Hs') as [_ Hcd]. etrans; [exact Hcd|]. apply num_seconds_mono. lia.
  - by eapply fire_once.
Qed.

(** The cooldown is lost when evaluations overlap: an evaluation that
    read the cooldowns before another one fired a rule, and does not fire it
    itself, writes the old date back, so the rule may fire again at once. *)
Theorem overlapping_evaluations_forget_cooldown (en : AuditPolicyEngine) skA skB eA eB tA tB
    alertsA alertsB lastA en1 id t0 :
  last_triggered en !! id = Some t0 →
  fire min_date skA (eval_read en).1 (eval_read en).2 eA tA = Some (lastA, alertsA) →
  id ∉ alert_rule_id <$> alertsA →
  evaluate min_date en skB eB tB = Some (alertsB, en1) → id ∈ alert_rule_id <$> alertsB →
  last_triggered en1 !! id = Some tB ∧
  last_triggered (eval_write en1 lastA) !! id = Some t0.
Proof.
  intros Hid HA HnA HB HinB. split.
  - rewrite (evaluate_last _ _ _ _ _ _ _ HB). by rewrite decide_True.
  - cbn [eval_write last_triggered]. apply lookup_union_Some_l.
    by rewrite (fire_last _ _ _ _ _ _ _ _ HA), decide_False.
Qed.
End History.

(** ** Properties of the sink and the analyzer *)

(** The sink keeps exactly the latest [max_entries] entries, numbered
    from one in the order of their arrival; a query answers the kept entries
    that match, newest first, cut at the limit; [count] is the length of the
    query without limit. *)
Theorem sink_keeps_latest max es f :
  (Z.of_nat (length es) < u64_modulus - 1)%Z →
  let s := foldl append (with_max_entries max) es in
  entries s = drop (length es - max) (numbered es) ∧ length (entries s) = max `min` length es ∧
  StronglySorted (λ x y, entry_date y ≤ entry_date x)%Z (query s f) ∧
  (limit f = None →
     query s f ≡ₚ filter (λ e, matches_filter e f = true) (entries s) ∧
     length (query s f) = count s f) ∧
  (∀ n, limit f = Some n → length (query s f) = n `min` count s f).
Proof.
  intros Hlen s. destruct (appended_sink max es Hlen) as (He & _ & _). fold s in He.
  assert (Hsorted : StronglySorted (λ x y, entry_date y ≤ entry_date x)%Z
            (sort_by_key (λ e, - entry_date e)%Z (matching s f))).
  { eapply strongly_sorted_mono; [|apply sort_by_key_sorted]. unfold key_le. intros x y Hxy. lia. }
  assert (Hperm : sort_by_key (λ e, - entry_date e)%Z (matching s f) ≡ₚ matching s f)
    by apply sort_by_key_perm.
  split_and!; [done| | | |].
  - rewrite He, length_drop. unfold numbered. rewrite length_imap. lia.
  - cbn [query mem_audit_sink]. unfold mem_query. case_match; [|done].
    rewrite <- (take_drop n) in Hsorted. by apply StronglySorted_app_1_l in Hsorted.
  - intros Hlim. cbn [query count mem_audit_sink]. unfold mem_query, mem_count. rewrite Hlim.
    split; [done|]. by rewrite Hperm.
  - intros n Hlim. cbn [query count mem_audit_sink]. unfold mem_query, mem_count. rewrite Hlim.
    by rewrite length_take, Hperm.
Qed.

(** A log is reported back.  Whatever was logged before and whether or not
    the rule engine panics on it, a logged entry is among those a query
    without limit returns for its own subject, as the entry with the largest
    id, unless the sink keeps nothing; [count] counts it; and the attached
    analyzer is run on exactly the answer of the query. *)
Theorem logged_entry_is_reported min_date (l : AnalyzedLogger (Sk := InMemoryAuditSink)) es engine_sink e now an :
  let start := with_max_entries (max_entries (sink (logger l))) in
  sink (logger l) = foldl append start es → (Z.of_nat (length es) < u64_modulus - 2)%Z →
  0 < max_entries (sink (logger l)) → analyzer l = Some an →
  let l' := {| logger := (log min_date (logger l) engine_sink e now).2; analyzer := analyzer l |} in
  let f := {| f_subject_id := Some (entry_subject e); f_granted := None; f_permission := None; since := None;
              until := None; min_risk := None; limit := None |} in
  with_id e (Z.of_nat (length es) + 1) ∈ logger_query l' f ∧
  (∀ x, x ∈ logger_query l' f → entry_subject x = entry_subject e ∧ (entry_id x ≤ Z.of_nat (length es) + 1)%Z) ∧
  logger_count l' f = length (logger_query l' f) ∧
  analyze_recent l' f = Some (an (logger_query l' f)).
Proof.
  intros start Hstart Hlen Hmax Han l' f.
  assert (Hsink : sink (logger l') = foldl append start (es ++ [e])).
  { rewrite foldl_app, <- Hstart. cbn [l' logger foldl]. unfold log. by repeat case_match. }
  destruct (sink_keeps_latest (max_entries (sink (logger l))) (es ++ [e]) f) as (Hent & _ & _ & Hq & _);
    [rewrite length_app; cbn; lia|]. fold start in Hent, Hq. rewrite <- Hsink in Hent, Hq.
  destruct (Hq eq_refl) as [Hperm Hcount]. unfold logger_query, logger_count. split_and!.
  - rewrite Hperm, list_elem_of_filter, Hent. split; [unfold matches_filter; cbn; by rewrite bool_decide_true|].
    unfold numbered. rewrite imap_app, drop_app_le by (rewrite length_imap, length_app; cbn; lia).
    apply elem_of_app. right. cbn. rewrite Nat.add_0_r. apply list_elem_of_here.
  - intros x. rewrite Hperm, list_elem_of_filter, Hent. intros [Hmatch Hin]. split.
    + unfold matches_filter in Hmatch. cbn in Hmatch. by case_bool_decide.
    + apply list_elem_of_lookup in Hin as [i Hi]. rewrite lookup_drop in Hi. apply list_lookup_imap_Some in Hi as (y & Hy & ->).
      apply lookup_lt_Some in Hy. rewrite length_app in Hy |- *. cbn [length] in Hy. cbn [entry_id with_id length]. lia.
  - done.
  - unfold analyze_recent. cbn [l' analyzer]. by rewrite Han.
Qed.

(** *** The analyzer *)

Definition of_subject (s : string) (es : list AuditEntry) : list AuditEntry :=
  filter (λ e, entry_subject e = s) es.
Definition of_permission (p : string) (es : list AuditEntry) : list AuditEntry :=
  filter (λ e, entry_permission e = p) es.

Lemma count_entries es :
  let counts := foldl count_entry (∅, ∅) es in
  (∀ s, match counts.1 !! s with
        | Some st => total st = length (of_subject s es) ∧ 0 < total st ∧
                     denied st = length (filter (λ e, is_denied e = true) (of_subject s es))
        | None => of_subject s es = []
        end) ∧
  (∀ p, default 0 (counts.2 !! p) = length (of_permission p es)).
Proof.
  induction es as [|e es [IH1 IH2]] using rev_ind; [done|]. rewrite foldl_app. cbn [foldl].
  set (counts := foldl count_entry _ es) in *. clearbody counts. unfold count_entry. cbn [fst snd].
  unfold of_subject, of_permission in *. split.
  - intros s. rewrite filter_app, filter_cons, filter_nil. specialize (IH1 s).
    destruct (decide (entry_subject e = s)) as [<-|Hne].
    + rewrite lookup_insert_eq. cbn [total denied add_entry].
      rewrite filter_app, !length_app, filter_cons, filter_nil. cbn [length].
      destruct (counts.1 !! entry_subject e) as [st|]; cbn [default from_option id].
      * destruct IH1 as (-> & _ & ->). split_and!; [lia|lia|].
        destruct (is_denied e) eqn:Hd; [rewrite decide_True by done|rewrite decide_False by done];
          cbn [length]; lia.
      * rewrite IH1. cbn. destruct (is_denied e) eqn:Hd;
          [rewrite decide_True by done|rewrite decide_False by done]; cbn [length]; lia.
    + rewrite lookup_insert_ne by done. by rewrite app_nil_r.
  - intros p. rewrite filter_app, length_app, filter_cons, filter_nil.
    destruct (decide (entry_permission e = p)) as [<-|Hne].
    + rewrite lookup_insert_eq. cbn [default from_option id length]. specialize (IH2 (entry_permission e)).
      lia.
    + rewrite lookup_insert_ne by done. cbn [length]. specialize (IH2 p). lia.
Qed.

Lemma insert_by_risk_perm x l : insert_by_risk x l ≡ₚ x :: l.
Proof.
  induction l as [|y l IH]; simpl; [done|]. case_match; [|done]. rewrite IH. constructor.
Qed.

Lemma risk_sorted_perm l : foldr insert_by_risk [] l ≡ₚ l.
Proof. induction l as [|x l IH]; simpl; [done|]. by rewrite insert_by_risk_perm, IH. Qed.

(** The summary accounts for every entry once: the per-subject totals
    and denials and the per-permission counts are those of the batch, a
    subject or permission absent from them has no entry, denials and
    high-risk entries are counted over the batch, and the riskiest list has
    the ten (or all) entries it names, each as often as in the batch. *)
Theorem analyze_accounts es :
  let a := analyze es in
  total_entries a = length es ∧ denied_count a = length (filter (λ e, granted e = false) es) ∧
  (∀ s, match by_subject a !! s with
        | Some st => total st = length (of_subject s es) ∧ 0 < total st ∧
                     denied st = length (filter (λ e, is_denied e = true) (of_subject s es))
        | None => of_subject s es = []
        end) ∧
  (∀ p, default 0 (by_permission a !! p) = length (of_permission p es)) ∧
  length (top_risk_entries a) = 10 `min` length es ∧
  ∃ rest, top_risk_entries a ++ rest ≡ₚ es.
Proof.
  intros a. destruct (count_entries es) as [H1 H2]. unfold a, analyze. cbn [total_entries denied_count
    by_subject by_permission top_risk_entries]. split_and!.
  - done.
  - f_equal. apply list_filter_iff. intros e. unfold is_denied. by rewrite negb_true_iff.
  - intros s. rewrite lookup_fmap. specialize (H1 s).
    by destruct ((foldl count_entry (∅, ∅) es).1 !! s).
  - exact H2.
  - by rewrite length_take, risk_sorted_perm.
  - exists (drop 10 (foldr insert_by_risk [] es)). by rewrite take_drop, risk_sorted_perm.
Qed.

(** ** Examples *)
Module Sample.
Definition denial (t : Z) : AuditEntry := {|
  entry_id := 0; entry_subject := "ann"; subject_type := "user"; entry_permission := "user.read";
  endpoint := "/"; granted := false; entry_date := t; verdict := None |}.
Definition rule : AuditRule := {|
  rule_id := "r"; rule_name := "denials"; enabled := true; condition := Denied;
  action := Alert "denied" Warning; cooldown_secs := 60 |}.
Definition second : Z := 10 ^ 9.
Definition en0 : AuditPolicyEngine := add_rule AuditPolicyEngine_new rule.
Definition no_sink : option InMemoryAuditSink := None.
(** The engine after a denial at the date [t]. *)
Definition after (en : AuditPolicyEngine) (t : Z) : AuditPolicyEngine :=
  match evaluate 0 en no_sink (denial t) t with
  | Some (_, en') => en'
  | None => en
  end.
Definition en1 : AuditPolicyEngine := after en0 (100 * second).
(** A grant, which the rule does not match. *)
Definition grant : AuditEntry := {|
  entry_id := 0; entry_subject := "ann"; subject_type := "user"; entry_permission := "user.read";
  endpoint := "/"; granted := true; entry_date := 0; verdict := None |}.
End Sample.

Lemma sink_keeps_latest_witness :
  count (foldl append (with_max_entries 2) [Sample.denial 1; Sample.denial 2; Sample.denial 3])
    AuditFilter_default = 2.
Proof.
  destruct (sink_keeps_latest 2 [Sample.denial 1; Sample.denial 2; Sample.denial 3]
    AuditFilter_default) as (_ & _ & _ & Hcount & _); [by vm_compute|].
  destruct (Hcount eq_refl) as [_ <-]. by vm_compute.
Defined.

(** A second denial a minute after the first fires again. *)
Lemma cooldown_respected_witness :
  ∃ alerts en', evaluate 0 Sample.en1 Sample.no_sink (Sample.denial 0) (161 * Sample.second)
                  = Some (alerts, en') ∧ NoDup (alert_rule_id <$> alerts).
Proof.
  assert (Hrun : audit_run (Sk := InMemoryAuditSink) 0 Sample.en1 (100 * Sample.second) [("r", 100 * Sample.second)%Z]).
  { refine (run_evaluate 0 Sample.en0 0 [] Sample.no_sink (Sample.denial (100 * Sample.second))
      (100 * Sample.second) [alert_of Sample.rule (Sample.denial (100 * Sample.second))
        (100 * Sample.second)] Sample.en1 _ _ _).
    - apply run_add, run_new.
    - by vm_compute.
    - by vm_compute. }
  destruct (evaluate 0 Sample.en1 Sample.no_sink (Sample.denial 0) (161 * Sample.second))
    as [[alerts en']|] eqn:He; [|by vm_compute in He].
  exists alerts, en'. split; [done|].
  apply (cooldown_respected 0 _ _ _ _ _ _ _ _ Hrun) in He as [_ Hnodup]; [|by vm_compute].
  apply Hnodup. by constructor.
Defined.

Lemma overlapping_evaluations_forget_cooldown_witness :
  last_triggered (eval_write (Sample.after Sample.en1 (200 * Sample.second))
                    (last_triggered Sample.en1)) !! "r" = Some (100 * Sample.second)%Z.
Proof.
  apply (overlapping_evaluations_forget_cooldown 0 Sample.en1 Sample.no_sink Sample.no_sink
    Sample.grant (Sample.denial (200 * Sample.second)) (199 * Sample.second) (200 * Sample.second) []
    [alert_of Sample.rule (Sample.denial (200 * Sample.second)) (200 * Sample.second)]
    (last_triggered Sample.en1) (Sample.after Sample.en1 (200 * Sample.second)) "r"
    (100 * Sample.second)).
  - by vm_compute.
  - by vm_compute.
  - by apply not_elem_of_nil.
  - by vm_compute.
  - by apply list_elem_of_here.
Defined.
