(* ===== verification/Domain.v ===== *)
(** * Requests and task domains: src/src/rbac/dynamic/delegator.rs,
    metrics.rs, domain.rs

    Who asks (the delegator), for what (the action request), and the scope a
    request is measured against: the categories of a task domain and the
    prefixes its resource paths are confined to.  The JSON parameters of a
    request are opaque. *)

From Stdlib Require Import Floats.SpecFloat.
From S2P Require Import Prelude Float64.

(** ** Delegators *)

Inductive DelegatorType := Human | Agent | SubAgent | ExternalSystem | Scheduler.

Record Delegator := {
  delegator_id : string;
  delegator_type : DelegatorType;
  session_badge : string;
  parent_id : option string;
}.

Definition delegator_human (id badge : string) : Delegator := {|
  delegator_id := id; delegator_type := Human; session_badge := badge; parent_id := None |}.
Definition delegator_agent (id badge : string) : Delegator := {|
  delegator_id := id; delegator_type := Agent; session_badge := badge; parent_id := None |}.
Definition delegator_sub_agent (id badge parent : string) : Delegator := {|
  delegator_id := id; delegator_type := SubAgent; session_badge := badge; parent_id := Some parent |}.
Definition with_parent (d : Delegator) (parent : string) : Delegator := {|
  delegator_id := delegator_id d; delegator_type := delegator_type d;
  session_badge := session_badge d; parent_id := Some parent |}.

(** ** Actions *)

Inductive ActionCategory :=
  ReadOnly | StateWrite | FileWrite | NetworkEgress | ProcessExec | ContainerLifecycle | PrivilegedOp.

#[export] Instance ActionCategory_eq_dec : EqDecision ActionCategory.
Proof. solve_decision. Defined.
Definition category_code (c : ActionCategory) : nat :=
  match c with
  | ReadOnly => 0 | StateWrite => 1 | FileWrite => 2 | NetworkEgress => 3
  | ProcessExec => 4 | ContainerLifecycle => 5 | PrivilegedOp => 6
  end.
Definition category_of_code (n : nat) : ActionCategory :=
  match n with
  | 0 => ReadOnly | 1 => StateWrite | 2 => FileWrite | 3 => NetworkEgress
  | 4 => ProcessExec | 5 => ContainerLifecycle | _ => PrivilegedOp
  end.
#[export] Program Instance ActionCategory_countable : Countable ActionCategory :=
  inj_countable' category_code category_of_code _.
Next Obligation. by intros []. Qed.

Definition base_weight (c : ActionCategory) : f64 :=
  match c with
  | ReadOnly => lit 1 10
  | StateWrite => lit 3 10
  | FileWrite => lit 5 10
  | NetworkEgress => lit 7 10
  | ProcessExec => lit 8 10
  | ContainerLifecycle => lit 9 10
  | PrivilegedOp => f64_one
  end.

Record ActionSensitivity := {
  sens_action : string;
  sens_category : ActionCategory;
  sens_base_weight : f64;
}.

Definition ActionSensitivity_new (action : string) (c : ActionCategory) : ActionSensitivity := {|
  sens_action := action; sens_category := c; sens_base_weight := base_weight c |}.

Record ActionRequest (Value : Type) := {
  delegator : Delegator;
  action : string;
  category : ActionCategory;
  parameters : gmap string Value;
  resource_path : option string;
  timestamp : Z;
}.
Arguments delegator {_}. Arguments action {_}. Arguments category {_}.
Arguments parameters {_}. Arguments resource_path {_}. Arguments timestamp {_}.

Section Requests.
Context {Value : Type}.

Definition request_simple (d : Delegator) (act : string) (c : ActionCategory) (now : Z)
    : ActionRequest Value := {|
  delegator := d; action := act; category := c; parameters := ∅; resource_path := None;
  timestamp := now |}.
Definition with_resource (r : ActionRequest Value) (path : string) : ActionRequest Value := {|
  delegator := delegator r; action := action r; category := category r;
  parameters := parameters r; resource_path := Some path; timestamp := timestamp r |}.
Definition with_parameters (r : ActionRequest Value) (ps : gmap string Value) : ActionRequest Value := {|
  delegator := delegator r; action := action r; category := category r;
  parameters := ps; resource_path := resource_path r; timestamp := timestamp r |}.
End Requests.

(** ** Paths *)

Abbreviation component := (list Ascii.ascii) (only parsing).
Definition slash : Ascii.ascii := Ascii.ascii_of_N 47.

(** One step of the loop: skip empty and [.], pop on [..], push the rest. *)
Definition push_component (components : list component) (part : component) : list component :=
  if decide (part = [] ∨ part = [dot]) then components
  else if decide (part = [dot; dot]) then removelast components
  else components ++ [part].

Definition components (path : string) : list component :=
  foldl push_component [] (split_at slash (String.list_ascii_of_string path)).

Definition join (cs : list component) : list Ascii.ascii := cs ≫= λ c, slash :: c.

Definition normalize_path (path : string) : string :=
  match components path with
  | [] => "/"
  | cs => String.string_of_list_ascii (join cs)
  end.

(** ** Task domains *)

Definition DOMAIN_RESOURCE_MISMATCH_WEIGHT : f64 := lit 3 10.
Definition ADJACENT_DOMAIN_WEIGHT : f64 := lit 15 100.
Definition OUT_OF_DOMAIN_WEIGHT : f64 := lit 6 10.

Record TaskDomain := {
  domain_name : string;
  allowed_action_categories : gset ActionCategory;
  allowed_resource_prefixes : list string;
  trust_floor : f64;
}.

Definition TaskDomain_new (name : string) (categories : gset ActionCategory)
    (prefixes : list string) (floor : f64) : TaskDomain := {|
  domain_name := name;
  allowed_action_categories := categories;
  allowed_resource_prefixes := prefixes;
  trust_floor := f64_clamp floor f64_zero f64_one;
|}.

Definition is_resource_allowed (d : TaskDomain) (path : string) : bool :=
  match allowed_resource_prefixes d with
  | [] => true
  | prefixes =>
      let normalized := normalize_path path in
      existsb (λ prefix, String.prefix prefix normalized) prefixes
  end.

Record DomainScope := {
  current_task_domain : TaskDomain;
  adjacent_domains : list TaskDomain;
}.

Definition DomainScope_single (d : TaskDomain) : DomainScope := {|
  current_task_domain := d; adjacent_domains := [] |}.
Definition with_adjacent (d : TaskDomain) (adjacent : list TaskDomain) : DomainScope := {|
  current_task_domain := d; adjacent_domains := adjacent |}.

Inductive DomainMatch :=
  | InDomain
  | Adjacent (weight : f64)
  | DomainResourceMismatch (weight : f64)
  | OutOfDomain (weight : f64).

(** [match resource_path { Some(p) => .., None => true }] *)
Definition resource_ok (d : TaskDomain) (path : option string) : bool :=
  match path with
  | Some p => is_resource_allowed d p
  | None => true
  end.
Definition grants_category (d : TaskDomain) (c : ActionCategory) : bool :=
  bool_decide (c ∈ allowed_action_categories d).

Definition evaluate (s : DomainScope) (c : ActionCategory) (path : option string) : DomainMatch :=
  let in_domain := grants_category (current_task_domain s) c in
  let ok := resource_ok (current_task_domain s) path in
  if in_domain && ok then InDomain
  else if in_domain && negb ok then DomainResourceMismatch DOMAIN_RESOURCE_MISMATCH_WEIGHT
  else if existsb (λ d, grants_category d c) (adjacent_domains s) then
    if negb (existsb (λ d, grants_category d c && resource_ok d path) (adjacent_domains s)) then
      DomainResourceMismatch (f64_add ADJACENT_DOMAIN_WEIGHT DOMAIN_RESOURCE_MISMATCH_WEIGHT)
    else Adjacent ADJACENT_DOMAIN_WEIGHT
  else OutOfDomain OUT_OF_DOMAIN_WEIGHT.

Definition excess_weight (m : DomainMatch) : f64 :=
  match m with
  | InDomain => f64_zero
  | Adjacent w | DomainResourceMismatch w | OutOfDomain w => w
  end.

(** ** Normalisation *)

(** A component that normalisation keeps. *)
Definition clean (c : component) : Prop :=
  c ≠ [] ∧ c ≠ [dot] ∧ c ≠ [dot; dot] ∧ slash ∉ c.

Lemma split_at_pieces sep s : Forall (λ piece, sep ∉ piece) (split_at sep s).
Proof.
  induction s as [|c s IH]; simpl; [by apply Forall_singleton, not_elem_of_nil|].
  destruct (decide (c = sep)) as [->|Hne]; [constructor; [apply not_elem_of_nil|done]|].
  destruct (split_at sep s) as [|piece pieces]; [apply Forall_singleton, not_elem_of_cons; split; [done|apply not_elem_of_nil]|].
  inversion_clear IH. constructor; [|done]. by apply not_elem_of_cons.
Qed.

Lemma push_component_clean cs part : slash ∉ part → Forall clean cs → Forall clean (push_component cs part).
Proof.
  intros Hs Hcs. unfold push_component. repeat case_decide; [done| |].
  - clear -Hcs. induction Hcs as [|c cs Hc Hcs IH]; [done|]. destruct cs; [done|]. by constructor.
  - apply Forall_app. split; [done|]. constructor; [|done]. unfold clean. naive_solver.
Qed.

Lemma components_clean path : Forall clean (components path).
Proof.
  unfold components. pose proof (split_at_pieces slash (String.list_ascii_of_string path)) as Hp.
  assert (Hgen : ∀ acc, Forall clean acc →
    Forall clean (foldl push_component acc (split_at slash (String.list_ascii_of_string path)))); [|by apply Hgen].
  induction Hp as [|part parts Hpart Hparts IH]; intros acc Hacc; [done|]. by apply IH, push_component_clean.
Qed.

Lemma push_clean_all cs acc : Forall clean cs → foldl push_component acc cs = acc ++ cs.
Proof.
  intros Hcs. revert acc. induction Hcs as [|c cs (H1 & H2 & H3 & _) Hcs IH]; intros acc; simpl; [by rewrite app_nil_r|].
  rewrite IH. unfold push_component. rewrite !decide_False by naive_solver. by rewrite <- app_assoc.
Qed.

Lemma split_join c cs : slash ∉ c → Forall clean cs → split_at slash (c ++ join cs) = c :: cs.
Proof.
  intros Hc Hcs. revert c Hc. induction Hcs as [|d cs (_ & _ & _ & Hd) Hcs IH]; intros c Hc; simpl.
  - rewrite app_nil_r. by apply split_at_no_sep.
  - rewrite split_at_app by done. f_equal. by apply IH.
Qed.

Lemma components_join cs : Forall clean cs → components (String.string_of_list_ascii (join cs)) = cs.
Proof.
  intros Hcs. unfold components. rewrite String.list_ascii_of_string_of_list_ascii.
  rewrite (split_join [] cs (not_elem_of_nil _) Hcs : split_at slash (join cs) = _). simpl.
  exact (push_clean_all cs [] Hcs).
Qed.

Lemma components_normalize path : components (normalize_path path) = components path.
Proof.
  unfold normalize_path. pose proof (components_clean path) as Hc.
  destruct (components path) as [|c cs] eqn:Hcs; [done|]. by apply components_join.
Qed.

Lemma normalize_idempotent path : normalize_path (normalize_path path) = normalize_path path.
Proof. unfold normalize_path at 1 3. by rewrite components_normalize. Qed.

Lemma prefix_list_ascii p s :
  String.prefix p s = true ↔ ∃ t, String.list_ascii_of_string s = String.list_ascii_of_string p ++ t.
Proof.
  revert s. induction p as [|a p IH]; intros s; simpl; [destruct s; simpl; split; eauto|].
  destruct s as [|b s]; simpl; [by split; [|intros [? ?]]|].
  destruct (Ascii.ascii_dec a b) as [->|Hne]; [|split; [done|intros [??]; congruence]].
  rewrite IH. split; intros [t Ht]; exists t; congruence.
Qed.

(** The prefix that names a directory: its components, each after a slash,
    and a trailing slash. *)
Definition directory_prefix (dir : list component) : string :=
  String.string_of_list_ascii (join dir ++ [slash]).

(** A separator ends a component: of two joins that agree on a directory and
    its trailing slash, the components agree. *)
Lemma join_prefix dir cs t : Forall clean dir → Forall clean cs →
  join cs = join dir ++ slash :: t → ∃ c rest, cs = dir ++ c :: rest.
Proof.
  intros Hdir. revert cs. induction Hdir as [|d dir (_ & _ & _ & Hd) Hdir IH]; intros cs Hcs Hj.
  - destruct cs as [|c rest]; [done|]. by exists c, rest.
  - destruct Hcs as [|c cs (_ & _ & _ & Hc) Hcs]; [done|]. simpl in Hj. injection Hj as Hj.
    rewrite <- app_assoc in Hj. assert (Hsplit := split_join c cs Hc Hcs). rewrite Hj in Hsplit.
    assert (Hstart : ∃ u, join dir ++ slash :: t = slash :: u) by (destruct dir; simpl; eauto).
    destruct Hstart as [u Hu]. rewrite Hu, split_at_app in Hsplit by done. injection Hsplit as <- Hsp.
    apply app_inv_head in Hj. destruct (IH cs Hcs Hj) as (c' & rest & ->). by exists c', rest.
Qed.

(** Resource confinement.  The answer depends on the normal form of the
    path alone - no empty, [.] or [..] component is left in it - and under
    prefixes that name directories a path is allowed exactly when it lies
    strictly below one of them: its components are those of the directory
    and at least one more.  So no sequence of dots escapes, no sibling with
    a longer name slips through, and the directory itself is refused. *)
Theorem directory_confinement (d : TaskDomain) (dirs : list (list component)) (path : string) :
  dirs ≠ [] → Forall (Forall clean) dirs → allowed_resource_prefixes d = directory_prefix <$> dirs →
  Forall clean (components path) ∧
  is_resource_allowed d (normalize_path path) = is_resource_allowed d path ∧
  (is_resource_allowed d path = true ↔
     ∃ dir, dir ∈ dirs ∧ (dir = [] ∨ ∃ c rest, components path = dir ++ c :: rest)).
Proof.
  intros Hne Hclean Hd. pose proof (components_clean path) as Hc. split; [done|]. unfold is_resource_allowed.
  rewrite Hd, normalize_idempotent. split; [done|].
  destruct (directory_prefix <$> dirs) eqn:Hdirs; [by apply fmap_nil_inv in Hdirs|]. rewrite <- Hdirs.
  rewrite existsb_exists. setoid_rewrite prefix_list_ascii. split.
  - intros (prefix & Hin & t & Ht). apply list_elem_of_In, list_elem_of_fmap in Hin as (dir & -> & Hin).
    exists dir. split; [done|]. rewrite Forall_forall in Hclean. specialize (Hclean dir Hin).
    unfold directory_prefix in Ht. rewrite String.list_ascii_of_string_of_list_ascii, <- app_assoc in Ht.
    unfold normalize_path in Ht. destruct (components path) as [|c cs] eqn:Hcs.
    + left. destruct dir as [|c dir]; [done|]. exfalso. simpl in Ht. injection Ht as Ht.
      by destruct (c ++ join dir).
    + right. rewrite String.list_ascii_of_string_of_list_ascii in Ht. by apply (join_prefix dir (c :: cs) t).
  - intros (dir & Hin & Hdir). exists (directory_prefix dir).
    split; [by apply list_elem_of_In, list_elem_of_fmap_2|]. unfold directory_prefix, normalize_path.
    rewrite String.list_ascii_of_string_of_list_ascii. destruct Hdir as [->|(c & rest & ->)].
    + destruct (components path) as [|c cs]; [by exists []|]. exists (c ++ join cs).
      by rewrite String.list_ascii_of_string_of_list_ascii.
    + destruct (dir ++ c :: rest) as [|c0 cs] eqn:Happ; [by destruct dir|]. rewrite <- Happ.
      exists (c ++ join rest). rewrite String.list_ascii_of_string_of_list_ascii, <- app_assoc. unfold join.
      by rewrite bind_app.
Qed.

(** [/tank/../tank/x] under the prefix [/tank/]. *)
Lemma directory_confinement_witness :
  let tank := String.list_ascii_of_string "tank" in
  let d := TaskDomain_new "process-control" {[ReadOnly]} [directory_prefix [tank]] (lit 5 10) in
  (∀ path, is_resource_allowed d path = true ↔
     ∃ dir, dir ∈ [[tank]] ∧ (dir = [] ∨ ∃ c rest, components path = dir ++ c :: rest)) ∧
  is_resource_allowed d "/tank/../tank/./x" = true ∧ is_resource_allowed d "/tank/../etc/x" = false ∧
  is_resource_allowed d "/tank2/x" = false ∧ is_resource_allowed d "/tank/" = false.
Proof.
  split; [|by vm_compute]. intros path. apply directory_confinement; [done| |done].
  apply Forall_singleton, Forall_singleton. split_and!; [done|done|done|].
  refine (bool_decide_unpack (slash ∉ _) _). by vm_compute.
Defined.
