(* ===== verification/Trust.v ===== *)
(** * Trust records: src/src/rbac/dynamic/trust.rs

    The trust score of a delegator and its mutators, the store of scores
    with its in-memory implementation, and the decay worker.  Instants and
    durations are integers (nanoseconds); the clock readings are arguments.
    A store call is one step; the background task is the sequence of its
    cycles. *)

From Stdlib Require Import Floats.SpecFloat.
From S2P Require Import Prelude Float64.

(** ** The record *)

Record TrustScore := {
  value : f64;
  confidence : f64;
  evidence_count : Z;
  last_updated : Z;
  degradation_rate : f64;
}.

Definition TrustScore_default (now : Z) : TrustScore := {|
  value := f64_zero;
  confidence := f64_zero;
  evidence_count := 0;
  last_updated := now;
  degradation_rate := lit 1 100;
|}.

Definition TrustScore_new (initial_value : f64) (now : Z) : TrustScore := {|
  value := f64_clamp initial_value f64_zero f64_one;
  confidence := f64_min initial_value (lit 5 10);
  evidence_count := 0;
  last_updated := now;
  degradation_rate := lit 1 100;
|}.

Definition weighted (t : TrustScore) : f64 := f64_mul (value t) (confidence t).

(** [(1.0 - (1.0 / (1.0 + n as f64 / 100.0))).min(0.99)] *)
Definition evidence_confidence (n : Z) : f64 :=
  f64_min
    (f64_sub f64_one (f64_div f64_one (f64_add f64_one (f64_div (f64_of_Z n) (lit 100 1)))))
    (lit 99 100).

Definition on_compliant_behavior (t : TrustScore) (severity : f64) (now : Z) : TrustScore :=
  let delta := f64_mul (lit 1 100) severity in
  let n := wrapping_add_u64 (evidence_count t) 1 in {|
  value := f64_min (f64_add (value t) delta) f64_one;
  confidence := evidence_confidence n;
  evidence_count := n;
  last_updated := now;
  degradation_rate := degradation_rate t;
|}.

Definition violation_penalty (severity : f64) : f64 :=
  f64_add (f64_mul (lit 1 10) severity)
          (f64_mul (lit 2 10) (f64_max (f64_sub severity (lit 8 10)) f64_zero)).

Definition on_policy_violation (t : TrustScore) (severity : f64) (now : Z) : TrustScore :=
  let penalty := violation_penalty severity in
  let n := wrapping_add_u64 (evidence_count t) 1 in {|
  value := f64_max (f64_sub (value t) penalty) f64_zero;
  confidence := evidence_confidence n;
  evidence_count := n;
  last_updated := now;
  degradation_rate := degradation_rate t;
|}.

(** [Duration::as_secs_f64] of a number of nanoseconds. *)
Definition as_secs_f64 (d : Z) : f64 :=
  f64_add (f64_of_Z (d / nanos_per_sec)) (f64_div (f64_of_Z (d `mod` nanos_per_sec)) (lit nanos_per_sec 1)).

Definition decay_of (t : TrustScore) (elapsed : Z) : f64 :=
  let hours := f64_div (as_secs_f64 elapsed) (lit 3600 1) in
  f64_mul (degradation_rate t) hours.

Definition degrade (t : TrustScore) (elapsed now : Z) : TrustScore :=
  let decay := decay_of t elapsed in {|
  value := f64_max (f64_sub (value t) decay) f64_zero;
  confidence := f64_max (f64_sub (confidence t) (f64_mul decay (lit 5 10))) f64_zero;
  evidence_count := evidence_count t;
  last_updated := now;
  degradation_rate := degradation_rate t;
|}.

(** ** Stores *)

Class TrustScoreStore (TS : Type) := {
  trust_get : TS → string → result (option TrustScore);
  trust_set : TS → string → TrustScore → result unit * TS;
  trust_delete : TS → string → result unit * TS;
  trust_list_ids : TS → result (list string);
}.

Record InMemoryTrustScoreStore := { scores : gmap string TrustScore }.

Definition InMemoryTrustScoreStore_new : InMemoryTrustScoreStore := {| scores := ∅ |}.

Definition mem_get (s : InMemoryTrustScoreStore) (id : string) : result (option TrustScore) :=
  Ok (scores s !! id).
Definition mem_set (s : InMemoryTrustScoreStore) (id : string) (t : TrustScore)
    : result unit * InMemoryTrustScoreStore := (Ok tt, {| scores := <[id := t]> (scores s) |}).
Definition mem_delete (s : InMemoryTrustScoreStore) (id : string)
    : result unit * InMemoryTrustScoreStore := (Ok tt, {| scores := delete id (scores s) |}).
Definition mem_list_ids (s : InMemoryTrustScoreStore) : result (list string) :=
  Ok (map_to_list (scores s)).*1.

#[export] Instance memory_trust_store : TrustScoreStore InMemoryTrustScoreStore := {|
  trust_get := mem_get;
  trust_set := mem_set;
  trust_delete := mem_delete;
  trust_list_ids := mem_list_ids;
|}.

(** [chrono::Duration::from_std(..).unwrap_or_else(.. days(365))]: out of
    range beyond [i64::MAX] milliseconds. *)
Definition chrono_max_age (max_age : Z) : Z :=
  if (max_age <=? i64_max * 10 ^ 6)%Z then max_age else (365 * 86400 * nanos_per_sec)%Z.

(** [min_utc] is the earliest date of chrono; a subtraction that goes below
    it panics ([None]). *)
Definition mem_sweep_stale (min_utc : Z) (s : InMemoryTrustScoreStore) (max_age now : Z)
    : option (result (list string) * InMemoryTrustScoreStore) :=
  if (max_age =? 0)%Z then Some (Ok [], s)
  else
    let cutoff := (now - chrono_max_age max_age)%Z in
    if (cutoff <? min_utc)%Z then None
    else
      let stale := (filter (λ p, last_updated p.2 < cutoff)%Z (map_to_list (scores s))).*1 in
      Some (Ok stale, {| scores := foldl (λ m id, delete id m) (scores s) stale |}).

(** ** The decay worker *)

Record TrustDecayWorker := { interval : Z; decay_elapsed : Z }.

Definition TrustDecayWorker_new (interval decay_elapsed : Z) : TrustDecayWorker := {|
  interval := interval; decay_elapsed := decay_elapsed |}.
Definition hourly : TrustDecayWorker :=
  TrustDecayWorker_new (3600 * nanos_per_sec) (3600 * nanos_per_sec).

Section Worker.
Context {TS : Type} `{TrustScoreStore TS}.

(** The loop over the ids; [clock] dates the updates. *)
Fixpoint decay_ids (w : TrustDecayWorker) (clock : string → Z) (ids : list string) (st : TS) (decayed : nat)
    : result nat * TS :=
  match ids with
  | [] => (Ok decayed, st)
  | id :: ids =>
      match trust_get st id with
      | Err e => (Err e, st)
      | Ok None => decay_ids w clock ids st decayed
      | Ok (Some score) =>
          match trust_set st id (degrade score (decay_elapsed w) (clock id)) with
          | (Err e, st) => (Err e, st)
          | (Ok _, st) => decay_ids w clock ids st (S decayed)
          end
      end
  end.

Definition run_once (w : TrustDecayWorker) (clock : string → Z) (st : TS) : result nat * TS :=
  match trust_list_ids st with
  | Err e => (Err e, st)
  | Ok ids => decay_ids w clock ids st 0
  end.

(** [run] and the loop of [spawn_resilient]: a failed cycle is logged and
    the next tick goes on.  The list holds the clock of each tick. *)
Definition run_ticks (w : TrustDecayWorker) (ticks : list (string → Z)) (st : TS) : TS :=
  foldl (λ st clock, (run_once w clock st).2) st ticks.
End Worker.

(** The worker of [spawn_resilient]. *)
Definition spawn_resilient (interval : Z) : TrustDecayWorker := TrustDecayWorker_new interval interval.

(** ** Well-formed records *)

(** The documented ranges: value and confidence in the unit interval, a
    decay rate that is not negative. *)
Record trust_ok (t : TrustScore) : Prop := {
  ok_value : in_unit (value t);
  ok_confidence : in_unit (confidence t);
  ok_rate : is_finite (degradation_rate t) = true ∧ (0 ≤ sv (degradation_rate t))%Z;
}.

Lemma zero_unit : in_unit f64_zero. Proof. by split_and!. Qed.
Lemma one_unit : in_unit f64_one. Proof. by split_and!. Qed.
Lemma lit_unit (num den : Z) :
  is_finite (lit num den) = true → SFleb f64_zero (lit num den) = true →
  SFleb (lit num den) f64_one = true → in_unit (lit num den).
Proof. done. Qed.

Lemma default_rate_ok : is_finite (lit 1 100) = true ∧ (0 ≤ sv (lit 1 100))%Z.
Proof. split; [done|]. apply Z.leb_le. by vm_compute. Qed.

Lemma u64_sv : sv (f64_of_Z u64_modulus) = (u64_modulus * unit_sv)%Z.
Proof. by vm_compute. Qed.
Lemma twice_u64_sv : sv (f64_of_Z (2 ^ 65)) = (2 * u64_modulus * unit_sv)%Z.
Proof. by vm_compute. Qed.

Lemma evidence_confidence_unit n : is_u64 n → in_unit (evidence_confidence n).
Proof.
  intros Hn. unfold evidence_confidence, is_u64 in *.
  destruct (of_Z_between n (f64_of_Z u64_modulus)) as [Hf Hb]; [lia|done| |].
  { rewrite u64_sv. pose proof unit_pos. nia. }
  destruct (div_rounds_down (f64_of_Z n) (lit 100 1) Hf) as [Hqf Hq]; [lia|done|by apply Z.leb_le; vm_compute|].
  destruct (add_between f64_one (f64_div (f64_of_Z n) (lit 100 1)) f64_one (f64_of_Z (2 ^ 65))) as [Hsf Hs]; try done.
  { rewrite sv_one, twice_u64_sv. rewrite u64_sv in Hb.
    pose proof unit_pos. unfold u64_modulus in *. lia. }
  rewrite sv_one in Hs. destruct (div_rounds_down f64_one _ eq_refl ltac:(rewrite sv_one; pose proof unit_pos; lia) Hsf) as [Hif Hi]; [lia|].
  rewrite sv_one in Hi. apply min_unit; [|by apply lit_unit]. apply unit_nonneg, one_minus_unit, in_unit_sv. done.
Qed.

Lemma sub_well_formed x y : nonneg x → is_finite y = true → well_formed (f64_sub x y).
Proof.
  intros [->|[Hx _]]%nonneg_cases Hy; [by destruct y|]. by destruct (sub_rounds x y Hx Hy).
Qed.

Lemma violation_penalty_nonneg severity : nonneg severity → nonneg (violation_penalty severity).
Proof.
  intros Hs. unfold violation_penalty.
  apply add_nonneg; apply mul_nonneg; try done; try (apply Z.ltb_lt; by vm_compute).
  apply max_zero_nonneg. left. by apply sub_well_formed.
Qed.

Lemma hours_finite elapsed : (0 ≤ elapsed < u64_modulus * nanos_per_sec)%Z →
  let hours := f64_div (as_secs_f64 elapsed) (lit 3600 1) in
  is_finite hours = true ∧ (0 ≤ sv hours)%Z.
Proof.
  intros He. unfold as_secs_f64. assert (Hn : (0 < nanos_per_sec)%Z) by done.
  pose proof (Z.mod_pos_bound elapsed nanos_per_sec Hn) as Hmod.
  assert (Hdiv : (0 ≤ elapsed / nanos_per_sec < u64_modulus)%Z).
  { split; [apply Z.div_pos; lia|apply Z.div_lt_upper_bound; lia]. }
  assert (Hof : ∀ n, (0 ≤ n < u64_modulus)%Z →
    is_finite (f64_of_Z n) = true ∧ (0 ≤ sv (f64_of_Z n) ≤ u64_modulus * unit_sv)%Z).
  { intros n Hn'. rewrite <- u64_sv. apply of_Z_between; [lia|done|]. rewrite u64_sv. pose proof unit_pos. nia. }
  destruct (Hof _ Hdiv) as [Hf1 Hb1]. destruct (Hof (elapsed `mod` nanos_per_sec)%Z) as [Hf2 Hb2].
  { unfold u64_modulus, nanos_per_sec in *. lia. }
  destruct (div_rounds_down _ (lit nanos_per_sec 1) Hf2) as [Hf3 Hb3]; [lia|done|by apply Z.leb_le; vm_compute|].
  destruct (add_between _ _ f64_zero (f64_of_Z (2 ^ 65)) Hf1 Hf3) as [Hf4 Hb4]; try done.
  { rewrite twice_u64_sv. simpl (sv f64_zero). lia. }
  destruct (div_rounds_down _ (lit 3600 1) Hf4) as [Hf5 Hb5]; [simpl in Hb4; lia|done|by apply Z.leb_le; vm_compute|].
  split; [done|lia].
Qed.

Lemma decay_nonneg t elapsed : trust_ok t → (0 ≤ elapsed < u64_modulus * nanos_per_sec)%Z →
  nonneg (decay_of t elapsed).
Proof.
  intros [_ _ [Hrf Hr]] [Hhf Hh]%hours_finite. unfold decay_of.
  apply (rounds_nonneg K (sv (degradation_rate t) * sv (f64_div (as_secs_f64 elapsed) (lit 3600 1)))).
  - by apply mul_rounds.
  - nia.
Qed.

Lemma compliant_ok t severity now : trust_ok t → nonneg severity →
  trust_ok (on_compliant_behavior t severity now).
Proof.
  intros [Hv Hc Hr] Hs. constructor; simpl; [|apply evidence_confidence_unit, wrapping_add_u64_range|done].
  apply min_unit; [|exact one_unit]. apply add_nonneg; [by apply unit_nonneg|].
  apply mul_nonneg; [done|apply Z.ltb_lt; by vm_compute|done].
Qed.

Lemma violation_ok t severity now : trust_ok t → nonneg severity →
  trust_ok (on_policy_violation t severity now).
Proof.
  intros [Hv Hc Hr] Hs. constructor; simpl; [|apply evidence_confidence_unit, wrapping_add_u64_range|done].
  apply sub_floor_unit; [done|]. by apply violation_penalty_nonneg.
Qed.

Lemma degrade_ok t elapsed now : trust_ok t → (0 ≤ elapsed < u64_modulus * nanos_per_sec)%Z →
  trust_ok (degrade t elapsed now).
Proof.
  intros Hok He. pose proof (decay_nonneg t elapsed Hok He) as Hd. destruct Hok as [Hv Hc Hr].
  constructor; simpl; [by apply sub_floor_unit| |done].
  apply sub_floor_unit; [done|]. rewrite mul_comm. apply mul_nonneg; [done|apply Z.ltb_lt; by vm_compute|done].
Qed.

Lemma default_ok now : trust_ok (TrustScore_default now).
Proof. exact (Build_trust_ok (TrustScore_default now) zero_unit zero_unit default_rate_ok). Qed.

Lemma new_ok v now : nonneg v → trust_ok (TrustScore_new v now).
Proof.
  intros Hv. refine (Build_trust_ok (TrustScore_new v now) _ _ default_rate_ok); [apply clamp_unit, Hv|].
  by apply min_unit; [|apply lit_unit].
Qed.

Lemma weighted_unit t : trust_ok t → in_unit (weighted t).
Proof. intros [Hv Hc _]. by apply mul_unit. Qed.

(** ** The in-memory store and its decay *)

Lemma decay_ids_memory w clock ids st n : NoDup ids → (∀ id, id ∈ ids → is_Some (scores st !! id)) →
  ∃ st', decay_ids w clock ids st n = (Ok (n + length ids), st') ∧
    ∀ id, scores st' !! id =
      if decide (id ∈ ids) then (λ t, degrade t (decay_elapsed w) (clock id)) <$> scores st !! id
      else scores st !! id.
Proof.
  intros Hnd. revert st n. induction Hnd as [|id ids Hid Hnd IH]; intros st n Hin; cbn [decay_ids].
  { exists st. rewrite Nat.add_0_r. split; [done|]. intros id. by rewrite decide_False by apply not_elem_of_nil. }
  destruct (Hin id (list_elem_of_here _ _)) as [t Ht].
  cbn [trust_get trust_set memory_trust_store mem_get mem_set]. rewrite Ht.
  set (st1 := {| scores := <[id := degrade t (decay_elapsed w) (clock id)]> (scores st) |}).
  destruct (IH st1 (S n)) as (st' & -> & Hst').
  { intros i Hi. simpl. apply lookup_insert_is_Some'. right. apply Hin. by right. }
  exists st'. split; [by rewrite Nat.add_succ_comm|]. intros i. rewrite Hst'. simpl.
  destruct (decide (i = id)) as [->|Hne].
  - rewrite decide_False, decide_True, lookup_insert_eq, Ht by (done || by left). done.
  - rewrite lookup_insert_ne by done. destruct (decide (i ∈ ids)).
    + by rewrite decide_True by (by right).
    + by rewrite decide_False by (intros [?|?]%elem_of_cons; done).
Qed.

(** A cycle rewrites every record once and nothing else. *)
Lemma run_once_memory w clock (st : InMemoryTrustScoreStore) :
  ∃ st', run_once w clock st = (Ok (size (scores st)), st') ∧
    ∀ id, scores st' !! id = (λ t, degrade t (decay_elapsed w) (clock id)) <$> scores st !! id.
Proof.
  unfold run_once. cbn [trust_list_ids memory_trust_store mem_list_ids].
  destruct (decay_ids_memory w clock (map_to_list (scores st)).*1 st 0) as (st' & -> & Hst').
  - apply NoDup_fst_map_to_list.
  - intros id (p & -> & Hp)%list_elem_of_fmap. destruct p as [id t]. apply elem_of_map_to_list in Hp. by eexists.
  - exists st'. rewrite length_fmap, length_map_to_list. split; [done|]. intros id. rewrite Hst'.
    case_decide as Hin; [done|]. destruct (scores st !! id) as [t|] eqn:Ht; [|done].
    destruct Hin. apply list_elem_of_fmap. exists (id, t). by rewrite elem_of_map_to_list.
Qed.

(** The bound after [k] idle hours: [(128 - k) / 128] of full trust. *)
Definition idle_bound (k : nat) : f64 := lit (128 - Z.of_nat k) 128.

Lemma idle_bound_sv (k : nat) : k ≤ 128 →
  is_finite (idle_bound k) = true ∧ sv (idle_bound k) = ((128 - Z.of_nat k) * 2 ^ (K - 7))%Z.
Proof.
  intros Hk. assert (Hall : forallb (λ k, is_finite (idle_bound k) &&
    (sv (idle_bound k) =? (128 - Z.of_nat k) * 2 ^ (K - 7))%Z) (seq 0 129) = true) by (by vm_compute).
  rewrite forallb_forall in Hall. specialize (Hall k ltac:(apply in_seq; lia)).
  apply andb_true_iff in Hall as [? ?%Z.eqb_eq]. done.
Qed.

Lemma hourly_decay t : degradation_rate t = lit 1 100 →
  is_finite (decay_of t (decay_elapsed hourly)) = true ∧ (2 ^ (K - 7) ≤ sv (decay_of t (decay_elapsed hourly)))%Z.
Proof. unfold decay_of. intros ->. split; [by vm_compute|]. apply Z.leb_le. by vm_compute. Qed.

Definition idle_below (k : nat) (t : TrustScore) : Prop :=
  degradation_rate t = lit 1 100 ∧ is_finite (value t) = true ∧
  (0 ≤ sv (value t) ≤ sv (idle_bound (k `min` 128)))%Z.

Lemma degrade_idle k t now : idle_below k t → idle_below (S k) (degrade t (decay_elapsed hourly) now).
Proof.
  intros (Hr & Hf & Hv). split; [done|]. destruct (hourly_decay t Hr) as [Hdf Hd]. cbn [value degrade].
  destruct (idle_bound_sv (k `min` 128) ltac:(lia)) as [Hbf Hb].
  destruct (idle_bound_sv (S k `min` 128) ltac:(lia)) as [Hbf' Hb'].
  assert (Hpow : (0 < 2 ^ (K - 7))%Z) by (apply pow_gt; done). rewrite Hb in Hv.
  assert (Hk : (Z.of_nat (S k `min` 128) ≤ Z.of_nat (k `min` 128) + 1 ∧ Z.of_nat (S k `min` 128) ≤ 128)%Z) by lia.
  revert Hd Hb' Hpow Hv Hk. generalize (2 ^ (K - 7))%Z (Z.of_nat (k `min` 128)) (Z.of_nat (S k `min` 128)).
  intros P a b Hd Hb' Hpow Hv Hk.
  apply (sub_floor _ _ _ Hf ltac:(apply nonneg_finite; [exact Hdf|lia]) Hbf'); rewrite Hb'; nia.
Qed.

(** The first idle hour empties what is below zero or not a number. *)
Lemma first_idle_hour t now :
  is_f64 (value t) → SFltb f64_one (value t) = false → degradation_rate t = lit 1 100 →
  idle_below 1 (degrade t (decay_elapsed hourly) now).
Proof.
  intros Hv Hle Hr. split; [done|]. cbn [value degrade].
  destruct (hourly_decay t Hr) as [Hdf Hd]. destruct (idle_bound_sv 1 ltac:(lia)) as [Hbf Hb].
  replace (1 `min` 128) with 1 by done. assert (Hpow : (0 < 2 ^ (K - 7))%Z) by (apply pow_gt; done).
  assert (Hunit : unit_sv = (128 * 2 ^ (K - 7))%Z) by (by vm_compute).
  revert Hd Hb Hpow Hunit. generalize (2 ^ (K - 7))%Z. intros P Hd Hb Hpow Hunit.
  assert (Hzero : is_finite f64_zero = true ∧ (0 ≤ sv f64_zero ≤ sv (idle_bound 1))%Z).
  { split; [done|]. rewrite Hb. simpl (sv f64_zero). lia. }
  apply is_f64_cases in Hv as [->|Hwf]; [exact Hzero|].
  destruct (is_finite (value t)) eqn:Hf.
  - rewrite ltb_sv, sv_one in Hle by done. apply Z.ltb_ge in Hle.
    apply sub_floor; [done|apply nonneg_finite; [done|lia]|done|rewrite Hb; lia|]. rewrite Hb. lia.
  - assert (Hinf : value t = S754_infinity true).
    { clear - Hwf Hf Hle. destruct (value t) as [|[]| |s m e]; simpl in Hwf, Hf; [done|done| |done|by rewrite Hwf in Hf].
      by destruct Hle. }
    rewrite Hinf. clear - Hzero Hdf. destruct (decay_of t _) as [| | |]; [exact Hzero|done|done|exact Hzero].
Qed.

(** A run of cycles rewrites each record by itself. *)
Lemma run_ticks_memory (ticks : list (string → Z)) (st : InMemoryTrustScoreStore) id :
  scores (run_ticks hourly ticks st) !! id =
    (λ t, foldl (λ t clock, degrade t (decay_elapsed hourly) (clock id)) t ticks) <$> scores st !! id.
Proof.
  revert st. induction ticks as [|clock ticks IH]; intros st; 
    [change (run_ticks hourly [] st) with st; by destruct (scores st !! id)|].
  change (run_ticks hourly (clock :: ticks) st) with (run_ticks hourly ticks (run_once hourly clock st).2).
  destruct (run_once_memory hourly clock st) as (st1 & -> & Hst1). cbn [snd]. rewrite IH, Hst1.
  by destruct (scores st !! id).
Qed.

Lemma idle_hours (id : string) (ticks : list (string → Z)) k t : idle_below k t →
  idle_below (length ticks + k) (foldl (λ t clock, degrade t (decay_elapsed hourly) (clock id)) t ticks).
Proof.
  revert k t. induction ticks as [|clock ticks IH]; intros k t Ht; [done|]. cbn [foldl length].
  rewrite Nat.add_succ_comm. by apply IH, degrade_idle.
Qed.

(** C38: Idle trust expires.  In the in-memory store, after any 128 cycles of
    the hourly worker, a record at the default rate whose value was any
    number up to 1 - also a negative one - or not a number, whatever its
    confidence, is worth nothing: its value is zero.  The other records of
    the store do not matter, and no record is added or lost.  (Each cycle
    takes a little more than 1/128 of full trust; a value out of the
    documented range lasts longer, [excess_trust_lasts].) *)
Theorem idle_trust_expires (st : InMemoryTrustScoreStore) (ticks : list (string → Z)) :
  128 ≤ length ticks →
  let st' := run_ticks hourly ticks st in
  dom (scores st') = dom (scores st) ∧
  ∀ id t, scores st !! id = Some t → degradation_rate t = lit 1 100 →
    is_f64 (value t) → SFltb f64_one (value t) = false →
    ∃ t', scores st' !! id = Some t' ∧ SFeqb (value t') f64_zero = true.
Proof.
  intros Hlen st'. split.
  - unfold st'. apply set_eq. intros id. by rewrite !elem_of_dom, (run_ticks_memory ticks), fmap_is_Some.
  - intros id t Ht Hr Hv Hle. unfold st'. rewrite run_ticks_memory, Ht. eexists. split; [reflexivity|].
    destruct ticks as [|clock ticks]; [cbn in Hlen; lia|]. cbn [foldl length] in *.
    destruct (idle_hours id ticks 1 _ (first_idle_hour t (clock id) Hv Hle Hr)) as (_ & Hf & Hb).
    rewrite Nat.min_r in Hb by lia. replace (sv (idle_bound 128)) with 0%Z in Hb by (by vm_compute).
    unfold SFeqb. rewrite compare_sv by done. simpl (sv f64_zero).
    match goal with |- context [sv ?x] => replace (sv x) with 0%Z by lia end. done.
Qed.

(** A value beyond 1 is not bounded by that: the 100 of [out_of_range_trust]
    is still above 98 after 128 hours. *)
Theorem excess_trust_lasts (now : Z) :
  let t := on_policy_violation (TrustScore_default now) (f64_of_Z (-1000)) now in
  let t' := foldl (λ t (_ : nat), degrade t (decay_elapsed hourly) now) t (seq 0 128) in
  value t = f64_of_Z 100 ∧ degradation_rate t = lit 1 100 ∧ SFltb (f64_of_Z 98) (value t') = true.
Proof. by vm_compute. Qed.

(** Retention.  A zero age sweeps nothing; otherwise, unless the date
    arithmetic panics, the sweep returns exactly the ids whose record was
    last updated before the cutoff, each once, forgets these and keeps every
    other record unchanged; an age beyond the range of chrono counts as one
    year. *)
Theorem sweep_stale_spec (min_utc : Z) (st : InMemoryTrustScoreStore) (max_age now : Z) :
  mem_sweep_stale min_utc st 0 now = Some (Ok [], st) ∧
  (max_age ≠ 0%Z → (min_utc ≤ now - chrono_max_age max_age)%Z →
   ∃ stale st', mem_sweep_stale min_utc st max_age now = Some (Ok stale, st') ∧ NoDup stale ∧
     (∀ id, id ∈ stale ↔ ∃ t, scores st !! id = Some t ∧ (last_updated t < now - chrono_max_age max_age)%Z) ∧
     (∀ id, scores st' !! id = if decide (id ∈ stale) then None else scores st !! id)) ∧
  ((i64_max * 10 ^ 6 < max_age)%Z → chrono_max_age max_age = chrono_max_age (365 * 86400 * nanos_per_sec)).
Proof.
  split; [done|]. split.
  - intros Hne Hpanic. unfold mem_sweep_stale.
    destruct (Z.eqb_spec max_age 0); [done|]. destruct (Z.ltb_spec (now - chrono_max_age max_age) min_utc); [lia|].
    eexists _, _. split; [done|]. split_and!.
    + apply NoDup_fmap_fst; [|by apply NoDup_filter, NoDup_map_to_list].
      intros i t1 t2 [_ H1%elem_of_map_to_list]%list_elem_of_filter [_ H2%elem_of_map_to_list]%list_elem_of_filter.
      by simplify_eq.
    + intros id. rewrite list_elem_of_fmap. split.
      * intros ([i t] & -> & [Hold Hin%elem_of_map_to_list]%list_elem_of_filter). by exists t.
      * intros (t & Ht & Hold). exists (id, t). by rewrite list_elem_of_filter, elem_of_map_to_list.
    + intros id. simpl. apply foldl_delete_lookup.
  - intros Hbig. unfold chrono_max_age. destruct (Z.leb_spec max_age (i64_max * 10 ^ 6)); [lia|]. done.
Qed.

(** Values out of range forge trust.  A violation of negative severity
    raises the value, beyond 1; a record whose value is not a number becomes
    fully trusted with the first compliant observation, because [min] drops
    the NaN, while a violation empties it. *)
Theorem out_of_range_trust (t : TrustScore) (severity : f64) (now : Z) :
  value (on_policy_violation (TrustScore_default now) (f64_of_Z (-1000)) now) = f64_of_Z 100 ∧
  (value t = S754_nan → value (on_compliant_behavior t severity now) = f64_one ∧
     value (on_policy_violation t severity now) = f64_zero).
Proof.
  split; [by vm_compute|]. intros Hv. simpl. rewrite Hv. done.
Qed.

Lemma idle_trust_expires_witness :
  let t := TrustScore_new f64_one 0 in
  let st := {| scores := {["ann" := t]} |} in
  let ticks := replicate 128 (λ _ : string, 0%Z) in
  let st' := run_ticks hourly ticks st in
  dom (scores st') = dom (scores st) ∧
  ∃ t', scores st' !! "ann" = Some t' ∧ SFeqb (value t') f64_zero = true.
Proof.
  intros t st ticks. destruct (idle_trust_expires st ticks) as [Hdom Hzero]; [by apply Nat.leb_le|].
  split; [exact Hdom|]. by apply (Hzero "ann" t).
Defined.

Lemma sweep_stale_spec_witness :
  mem_sweep_stale 0 {| scores := {["ann" := TrustScore_default 5]} |} 10 100 =
    Some (Ok ["ann"], {| scores := ∅ |}) ∧
  (10 ≠ 0)%Z ∧ (0 ≤ 100 - chrono_max_age 10)%Z ∧
  ∃ stale st', mem_sweep_stale 0 {| scores := {["ann" := TrustScore_default 5]} |} 10 100 = Some (Ok stale, st') ∧
    NoDup stale.
Proof.
  split; [by vm_compute|]. split; [done|]. split; [done|].
  destruct (proj1 (proj2 (sweep_stale_spec 0 {| scores := {["ann" := TrustScore_default 5]} |} 10 100)))
    as (stale & st' & H & Hnd & _); [done|done|]. exists stale, st'. exact (conj H Hnd).
Defined.

Lemma out_of_range_trust_witness :
  let t := {| value := S754_nan; confidence := f64_one; evidence_count := 0; last_updated := 0;
              degradation_rate := f64_zero |} in
  value (on_compliant_behavior t f64_zero 0) = f64_one ∧ value (on_policy_violation t f64_zero 0) = f64_zero.
Proof. intros t. by apply (out_of_range_trust t f64_zero 0). Defined.
