(* ===== verification/Anomaly.v ===== *)
(** * Behavioural anomalies: src/src/rbac/dynamic/anomaly.rs

    The detector of one delegator: a sliding window of actions, the shares
    of the categories in it, and a baseline built from the first hundred
    observations.  The sums run over hash maps, whose iteration order is
    unspecified: it is a parameter ([HashOrder]), any permutation of the
    entries. *)

From Stdlib Require Import Floats.SpecFloat.
From S2P Require Import Prelude Float64 Domain.

(** The order in which a [HashMap<ActionCategory, f64>] is iterated. *)
Class HashOrder := {
  iter : gmap ActionCategory f64 → list (ActionCategory * f64);
  iter_perm m : iter m ≡ₚ map_to_list m;
}.

Definition DEFAULT_WINDOW_SIZE : nat := 20.
Definition BASELINE_MIN_SAMPLES : nat := 100.

Record AnomalyScore := { score_value : f64; reason : string }.

Record ActionRecord := {
  record_action : string;
  record_category : ActionCategory;
  record_timestamp : Z;
}.

Record BehaviorBaseline := {
  category_means : gmap ActionCategory f64;
  category_stdevs : gmap ActionCategory f64;
}.

Record AnomalyDetector := {
  recent_actions : list ActionRecord;
  window_size : nat;
  category_profile : gmap ActionCategory f64;
  baseline : option BehaviorBaseline;
  total_observed : Z;
  history : list ActionRecord;
}.

Definition AnomalyDetector_new (window : nat) : AnomalyDetector := {|
  recent_actions := [];
  window_size := window;
  category_profile := ∅;
  baseline := None;
  total_observed := 0;
  history := [];
|}.
Definition AnomalyDetector_default : AnomalyDetector := AnomalyDetector_new DEFAULT_WINDOW_SIZE.

Definition with_baseline (d : AnomalyDetector) (b : BehaviorBaseline) : AnomalyDetector := {|
  recent_actions := recent_actions d; window_size := window_size d;
  category_profile := category_profile d; baseline := Some b;
  total_observed := total_observed d; history := history d |}.

Definition is_baseline_ready (d : AnomalyDetector) : bool :=
  (Z.of_nat BASELINE_MIN_SAMPLES <=? total_observed d)%Z.

(** [*counts.entry(category).or_insert(0.0) += 1.0] *)
Definition count_record (counts : gmap ActionCategory f64) (r : ActionRecord) : gmap ActionCategory f64 :=
  <[record_category r := f64_add (default f64_zero (counts !! record_category r)) f64_one]> counts.
Definition count_records (rs : list ActionRecord) : gmap ActionCategory f64 := foldl count_record ∅ rs.

(** The shares of the categories among some records. *)
Definition profile_of (rs : list ActionRecord) : gmap ActionCategory f64 :=
  (λ c, f64_div c (f64_of_nat (length rs))) <$> count_records rs.

(** Clearing the map and counting again; an empty window leaves it empty. *)
Definition recompute_profile (d : AnomalyDetector) : AnomalyDetector := {|
  recent_actions := recent_actions d; window_size := window_size d;
  category_profile := match recent_actions d with [] => ∅ | rs => profile_of rs end;
  baseline := baseline d; total_observed := total_observed d; history := history d |}.

(** The deviation stored for a category seen [count] times among [n]. *)
Definition stdev_of (n count : f64) : f64 :=
  let p := f64_div count n in
  let sample_var :=
    if SFltb f64_one n
    then f64_div (f64_mul (f64_mul p (f64_sub f64_one p)) n) (f64_sub n f64_one)
    else f64_mul p (f64_sub f64_one p) in
  f64_max (f64_sqrt sample_var) (lit 1 100).

Definition baseline_of (rs : list ActionRecord) : BehaviorBaseline :=
  let n := f64_of_nat (length rs) in
  let counts := count_records rs in {|
  category_means := (λ c, f64_div c n) <$> counts;
  category_stdevs := stdev_of n <$> counts;
|}.

Definition build_baseline_from_history (d : AnomalyDetector) : AnomalyDetector :=
  if (total_observed d <? Z.of_nat BASELINE_MIN_SAMPLES)%Z then d
  else if SFeqb (f64_of_nat (length (history d))) f64_zero then d
  else with_baseline d (baseline_of (history d)).

(** ** The deviation *)

(** One term of the first loop. *)
Definition z_score (b : BehaviorBaseline) (cat : ActionCategory) (current_freq : f64) : f64 :=
  let mean := default f64_zero (category_means b !! cat) in
  let stdev := default (lit 1 10) (category_stdevs b !! cat) in
  if SFltb f64_zero stdev then f64_div (f64_sub current_freq mean) stdev
  else if SFltb (f64_abs (f64_sub current_freq mean)) (lit 1 (10 ^ 12)) then f64_zero
  else lit 2 1.

Section Deviation.
Context `{HashOrder}.

Definition add_deviation (b : BehaviorBaseline) (acc : f64 * Z) (e : ActionCategory * f64) : f64 * Z :=
  (f64_add acc.1 (f64_abs (z_score b e.1 e.2)), (acc.2 + 1)%Z).

(** The second loop: categories of the baseline that disappeared. *)
Definition add_missing (profile : gmap ActionCategory f64) (acc : f64 * Z) (e : ActionCategory * f64) : f64 * Z :=
  if bool_decide (profile !! e.1 = None) && SFltb (lit 1 100) e.2
  then (f64_add acc.1 (lit 2 1), (acc.2 + 1)%Z) else acc.

Definition pattern_deviation (d : AnomalyDetector) : f64 :=
  match baseline d with
  | None => f64_zero
  | Some b =>
      let acc := foldl (add_deviation b) (f64_zero, 0%Z) (iter (category_profile d)) in
      let '(total_deviation, count) := foldl (add_missing (category_profile d)) acc (iter (category_means b)) in
      if (count =? 0)%Z then f64_zero
      else
        let avg_deviation := f64_div total_deviation (f64_of_Z count) in
        f64_min (f64_div avg_deviation (lit 3 1)) f64_one
  end.

(** ** Observation *)

Definition record_of {V} (r : ActionRequest V) : ActionRecord := {|
  record_action := action r; record_category := category r; record_timestamp := timestamp r |}.

(** [pop_front] of a full window, then [push_back]. *)
Definition push_window (size : nat) (window : list ActionRecord) (r : ActionRecord) : list ActionRecord :=
  (if size <=? length window then tail window else window) ++ [r].

(** The state up to the profile: count, window, history. *)
Definition remember (d : AnomalyDetector) (r : ActionRecord) : AnomalyDetector := {|
  recent_actions := push_window (window_size d) (recent_actions d) r;
  window_size := window_size d;
  category_profile := category_profile d;
  baseline := baseline d;
  total_observed := wrapping_add_u64 (total_observed d) 1;
  history :=
    if bool_decide (baseline d = None) && (length (history d) <? BASELINE_MIN_SAMPLES)
    then history d ++ [r] else history d;
|}.

Definition clear_history (d : AnomalyDetector) : AnomalyDetector := {|
  recent_actions := recent_actions d; window_size := window_size d;
  category_profile := category_profile d; baseline := baseline d;
  total_observed := total_observed d; history := [] |}.

Definition label (deviation : f64) : AnomalyScore :=
  if SFltb (lit 7 10) deviation then {| score_value := deviation; reason := "high-pattern-deviation" |}
  else if SFltb (lit 4 10) deviation then {| score_value := deviation; reason := "moderate-pattern-deviation" |}
  else {| score_value := deviation; reason := "normal" |}.

Definition observe {V} (d : AnomalyDetector) (request : ActionRequest V) : AnomalyScore * AnomalyDetector :=
  let d := recompute_profile (remember d (record_of request)) in
  let d :=
    if is_baseline_ready d && bool_decide (baseline d = None)
    then clear_history (build_baseline_from_history d) else d in
  if negb (is_baseline_ready d) then ({| score_value := lit 1 10; reason := "insufficient-samples" |}, d)
  else (label (pattern_deviation d), d).

(** A sequence of observations. *)
Definition observe_all {V} (d : AnomalyDetector) (rs : list (ActionRequest V)) : AnomalyDetector :=
  foldl (λ d r, (observe d r).2) d rs.
End Deviation.

(** ** What a detector has after some observations *)

Section Observed.
Context `{HashOrder} {V : Type}.
Implicit Types (d : AnomalyDetector) (rs : list (ActionRequest V)).

(** The last [n] elements. *)
Definition last_of {A} (n : nat) (l : list A) : list A := drop (length l - n) l.

Lemma push_window_last n (l : list ActionRecord) r : 0 < n →
  push_window n (last_of n l) r = last_of n (l ++ [r]).
Proof.
  intros Hn. unfold push_window, last_of. rewrite length_drop, length_app. simpl.
  destruct (Nat.leb_spec n (length l - (length l - n))).
  - replace (tail (drop (length l - n) l)) with (drop (S (length l - n)) l).
    + rewrite drop_app_le by lia. do 2 f_equal. lia.
    + rewrite <- Nat.add_1_r, <- drop_drop. by destruct (drop _ l).
  - rewrite drop_app_le by lia. do 2 f_equal. lia.
Qed.

Lemma observe_all_snoc d rs r : observe_all d (rs ++ [r]) = (observe (observe_all d rs) r).2.
Proof. unfold observe_all. by rewrite foldl_app. Qed.

(** The state of a new detector after the observations [recs]. *)
Definition observed_state (window : nat) (recs : list ActionRecord) : AnomalyDetector := {|
  recent_actions := last_of window recs;
  window_size := window;
  category_profile := match last_of window recs with [] => ∅ | ws => profile_of ws end;
  baseline := if length recs <? BASELINE_MIN_SAMPLES then None
              else Some (baseline_of (take BASELINE_MIN_SAMPLES recs));
  total_observed := Z.of_nat (length recs);
  history := if length recs <? BASELINE_MIN_SAMPLES then recs else [];
|}.

Lemma observe_step window recs (r : ActionRequest V) : 0 < window →
  (Z.of_nat (S (length recs)) < u64_modulus)%Z →
  (observe (observed_state window recs) r).2 = observed_state window (recs ++ [record_of r]) ∧
  (observe (observed_state window recs) r).1 =
    if S (length recs) <? BASELINE_MIN_SAMPLES
    then {| score_value := lit 1 10; reason := "insufficient-samples" |}
    else label (pattern_deviation (observed_state window (recs ++ [record_of r]))).
Proof.
  intros Hw Hlen.
  assert (Hn : wrapping_add_u64 (Z.of_nat (length recs)) 1 = Z.of_nat (S (length recs))).
  { rewrite wrapping_succ_u64; unfold is_u64; lia. }
  unfold observe, observed_state, remember, recompute_profile, is_baseline_ready, build_baseline_from_history.
  cbn [recent_actions window_size category_profile baseline total_observed history].
  rewrite !push_window_last, Hn by done. rewrite !length_app. cbn [length]. rewrite !Nat.add_1_r.
  destruct (Nat.ltb_spec (length recs) BASELINE_MIN_SAMPLES) as [Hlt|Hge].
  - rewrite bool_decide_eq_true_2 by done. rewrite (proj2 (Nat.ltb_lt _ _) Hlt). cbn [andb].
    rewrite andb_true_r. destruct (Nat.ltb_spec (S (length recs)) BASELINE_MIN_SAMPLES) as [Hlt2|Hge2].
    + assert (Hz : (Z.of_nat BASELINE_MIN_SAMPLES <=? Z.of_nat (S (length recs)))%Z = false) by (apply Z.leb_gt; lia).
      rewrite Hz. cbn [total_observed]. rewrite Hz. done.
    + assert (Hfull : length (recs ++ [record_of r]) = BASELINE_MIN_SAMPLES) by (rewrite length_app; simpl; lia).
      assert (Hz : (Z.of_nat BASELINE_MIN_SAMPLES <=? Z.of_nat (S (length recs)))%Z = true) by (apply Z.leb_le; lia).
      assert (Hz2 : (Z.of_nat (S (length recs)) <? Z.of_nat BASELINE_MIN_SAMPLES)%Z = false) by (apply Z.ltb_ge; lia).
      rewrite Hz, Hz2, Hfull.
      change (SFeqb (f64_of_nat BASELINE_MIN_SAMPLES) f64_zero) with false. cbn [clear_history with_baseline total_observed].
      rewrite Hz. cbn [negb]. rewrite take_ge by lia. done.
  - rewrite bool_decide_eq_false_2 by done. rewrite andb_false_r. cbn [andb total_observed].
    assert (Hz : (Z.of_nat BASELINE_MIN_SAMPLES <=? Z.of_nat (S (length recs)))%Z = true) by (apply Z.leb_le; lia).
    rewrite (proj2 (Nat.ltb_ge (S (length recs)) _)), Hz by lia. cbn [negb fst snd].
    rewrite take_app_le by lia. done.
Qed.

Lemma observe_all_state window rs : 0 < window → (Z.of_nat (length rs) < u64_modulus)%Z →
  observe_all (AnomalyDetector_new window) rs = observed_state window (record_of <$> rs).
Proof.
  intros Hw. induction rs as [|r rs IH] using rev_ind; intros Hlen; [done|].
  rewrite length_app in Hlen. simpl in Hlen. rewrite observe_all_snoc, IH by lia.
  rewrite fmap_app. apply observe_step; [done|]. rewrite length_fmap. lia.
Qed.

(** ** The score is in the unit interval *)

Definition values_ok (m : gmap ActionCategory f64) : Prop := map_Forall (λ _ v, is_f64 v) m.
Definition baseline_ok (b : BehaviorBaseline) : Prop :=
  values_ok (category_means b) ∧ values_ok (category_stdevs b).
Definition detector_ok d : Prop :=
  values_ok (category_profile d) ∧ ∀ b, baseline d = Some b → baseline_ok b.

Lemma count_records_ok (rs : list ActionRecord) : values_ok (count_records rs).
Proof.
  unfold count_records. assert (Hgen : ∀ m, values_ok m → values_ok (foldl count_record m rs)).
  { induction rs as [|r rs IH]; intros m Hm; [done|]. apply IH. apply map_Forall_insert_2; [|done].
    apply f64_add_valid; [|done]. destruct (m !! record_category r) eqn:Hr; [by apply (Hm _ _ Hr)|done]. }
  apply Hgen, map_Forall_empty.
Qed.

Lemma values_ok_fmap (f : f64 → f64) m : (∀ v, is_f64 v → is_f64 (f v)) → values_ok m → values_ok (f <$> m).
Proof. intros Hf Hm k v. rewrite lookup_fmap_Some. intros (v0 & <- & Hv0). apply Hf, (Hm _ _ Hv0). Qed.

Lemma profile_of_ok (rs : list ActionRecord) : values_ok (profile_of rs).
Proof. apply values_ok_fmap; [|apply count_records_ok]. intros v Hv. apply f64_div_valid; [done|apply f64_of_Z_valid]. Qed.

Lemma baseline_of_ok (rs : list ActionRecord) : baseline_ok (baseline_of rs).
Proof.
  split; (apply values_ok_fmap; [|apply count_records_ok]); intros v Hv.
  - apply f64_div_valid; [done|apply f64_of_Z_valid].
  - unfold stdev_of. assert (is_f64 (f64_of_nat (length rs))) by apply f64_of_Z_valid.
    destruct (SFltb _ _); eauto 12 with kirino.
Qed.

Lemma observe_ok d (r : ActionRequest V) : detector_ok d → detector_ok (observe d r).2.
Proof.
  intros [Hp Hb]. assert (Hrec : detector_ok (recompute_profile (remember d (record_of r)))).
  { split; [|done]. simpl. destruct (push_window _ _ _) as [|x l]; [apply map_Forall_empty|apply profile_of_ok]. }
  unfold observe. set (d1 := recompute_profile _) in *.
  assert (Hd2 : detector_ok (if is_baseline_ready d1 && bool_decide (baseline d1 = None)
                             then clear_history (build_baseline_from_history d1) else d1)).
  { destruct (_ && _); [|done]. unfold build_baseline_from_history. repeat case_match; try done.
    split; [apply Hrec|]. intros b [= <-]. apply baseline_of_ok. }
  by destruct (negb _).
Qed.

Lemma z_score_f64 b cat v : baseline_ok b → is_f64 v → is_f64 (z_score b cat v).
Proof.
  intros [Hm Hs] Hv. unfold z_score.
  assert (Hmean : is_f64 (default f64_zero (category_means b !! cat))).
  { destruct (category_means b !! cat) eqn:He; [by apply (Hm _ _ He)|done]. }
  assert (Hsd : is_f64 (default (lit 1 10) (category_stdevs b !! cat))).
  { destruct (category_stdevs b !! cat) eqn:He; [by apply (Hs _ _ He)|apply lit_valid]. }
  repeat case_match; auto with kirino.
Qed.

Lemma deviation_sum d b : detector_ok d → baseline d = Some b →
  let '(total, n) := foldl (add_missing (category_profile d))
    (foldl (add_deviation b) (f64_zero, 0%Z) (iter (category_profile d))) (iter (category_means b)) in
  nonneg_nan total ∧ (0 ≤ n ≤ Z.of_nat (size (category_profile d) + size (category_means b)))%Z.
Proof.
  intros [Hp Hb] Hbase. pose proof (Hb b Hbase) as Hbok.
  assert (H1 : ∀ l acc, Forall (λ e, is_f64 e.2) l → nonneg_nan acc.1 → (0 ≤ acc.2)%Z →
    let acc' := foldl (add_deviation b) acc l in
    nonneg_nan acc'.1 ∧ (0 ≤ acc'.2 ≤ acc.2 + Z.of_nat (length l))%Z).
  { induction l as [|e l IH]; intros acc Hl Ha Hn; [by simpl; split; [|lia]|]. inversion_clear Hl.
    destruct (IH (add_deviation b acc e)) as [? ?]; [done| | |split; [done|]].
    - apply add_nonneg_nan; [done|]. by apply abs_nonneg_nan, z_score_f64.
    - simpl. lia.
    - cbn [foldl]. simpl in *. lia. }
  assert (H2 : ∀ l acc, nonneg_nan acc.1 → (0 ≤ acc.2)%Z →
    let acc' := foldl (add_missing (category_profile d)) acc l in
    nonneg_nan acc'.1 ∧ (0 ≤ acc'.2 ≤ acc.2 + Z.of_nat (length l))%Z).
  { induction l as [|e l IH]; intros acc Ha Hn; [by simpl; split; [|lia]|].
    assert (Hstep : nonneg_nan (add_missing (category_profile d) acc e).1 ∧
      (acc.2 ≤ (add_missing (category_profile d) acc e).2 ≤ acc.2 + 1)%Z).
    { unfold add_missing. destruct (_ && _); simpl; (split; [|lia]); [|done].
      apply add_nonneg_nan; [done|]. left. apply nonneg_finite; [done|apply Z.leb_le; by vm_compute]. }
    destruct Hstep as [Hs1 Hs2]. destruct (IH _ Hs1) as [? ?]; [lia|].
    cbn [foldl length]. split; [done|lia]. }
  specialize (H1 (iter (category_profile d)) (f64_zero, 0%Z)). cbv zeta in H1.
  destruct H1 as [Ht Hn]; [|by left|done|].
  { apply Forall_forall. intros [k v] Hin. rewrite iter_perm in Hin. apply elem_of_map_to_list in Hin.
    by apply (Hp k v). }
  specialize (H2 (iter (category_means b)) _ Ht (proj1 Hn)). cbv zeta in H2.
  destruct (foldl (add_missing _) _ _) as [total n]. destruct H2 as [? Hn2]. split; [done|].
  assert (Hlen : ∀ m, length (iter m) = size m)
    by (intros m; by rewrite (Permutation_length (iter_perm m)), length_map_to_list).
  rewrite !Hlen in *. simpl in *. lia.
Qed.

Lemma category_map_size {A} (m : gmap ActionCategory A) : size m ≤ 7.
Proof.
  rewrite <- size_dom.
  set (all := {[ReadOnly; StateWrite; FileWrite; NetworkEgress; ProcessExec; ContainerLifecycle; PrivilegedOp]} : gset ActionCategory).
  change 7 with (size all). apply subseteq_size. intros [] _; unfold all; set_solver.
Qed.

Lemma pattern_deviation_unit d : detector_ok d → in_unit (pattern_deviation d).
Proof.
  intros Hok. unfold pattern_deviation. destruct (baseline d) as [b|] eqn:Hb; [|by split_and!].
  pose proof (deviation_sum d b Hok Hb) as Hsum. destruct (foldl (add_missing _) _ _) as [total n].
  destruct Hsum as [Ht Hn]. destruct (Z.eqb_spec n 0) as [->|Hne]; [by split_and!|].
  apply min_one_unit. apply div_nonneg_nan; [|done|by apply Z.leb_le; vm_compute].
  pose proof (category_map_size (category_profile d)). pose proof (category_map_size (category_means b)).
  destruct (rounds_between 0 (n * unit_sv) (f64_of_Z n) f64_one (f64_of_Z 16)) as [Hf Hs]; try done.
  - apply of_Z_rounds.
  - rewrite sv_one, !Z.mul_1_r. replace (sv (f64_of_Z 16)) with (16 * unit_sv)%Z by (by vm_compute).
    pose proof unit_pos. nia.
  - apply div_nonneg_nan; [done|done|]. rewrite sv_one in Hs. lia.
Qed.

Lemma observe_all_ok d rs : detector_ok d → detector_ok (observe_all d rs).
Proof.
  revert d. induction rs as [|r rs IH]; intros d Hd; [done|]. apply (IH (observe d r).2). by apply observe_ok.
Qed.

Lemma observe_unit d (r : ActionRequest V) : detector_ok d → in_unit (score_value (observe d r).1).
Proof.
  intros Hd. pose proof (observe_ok d r Hd) as Hd'. unfold observe in *. destruct (negb _); [by split_and!|].
  pose proof (pattern_deviation_unit _ Hd') as Hu. simpl in *. unfold label. by repeat case_match.
Qed.

(** What a detector remembers.  After any number of observations (short
    of 2 to the 64) a new detector holds exactly the latest [window]
    requests, their category shares, and - from the hundredth observation
    on, and for ever after - the baseline of the first hundred: nothing
    later changes it.  Before that every score is the fixed 0.1 of a cold
    detector; from then on it is the labelled deviation of the present
    window from that baseline. *)
Theorem detector_state_spec (window : nat) rs (r : ActionRequest V) :
  0 < window → (Z.of_nat (S (length rs)) < u64_modulus)%Z →
  let d := observe_all (AnomalyDetector_new window) rs in
  d = observed_state window (record_of <$> rs) ∧
  (observe d r).1 =
    if S (length rs) <? BASELINE_MIN_SAMPLES
    then {| score_value := lit 1 10; reason := "insufficient-samples" |}
    else label (pattern_deviation (observed_state window (record_of <$> (rs ++ [r])))).
Proof.
  intros Hw Hlen d. assert (Hd : d = observed_state window (record_of <$> rs)) by (apply observe_all_state; [done|lia]).
  split; [done|]. rewrite Hd, fmap_app. rewrite <- (length_fmap record_of rs) in Hlen |- *.
  apply (observe_step window (record_of <$> rs) r Hw Hlen).
Qed.

(** Anomaly scores are in the unit interval.  However the baseline of a
    detector came about - learned, or supplied with any binary64 numbers,
    infinities and NaN included - and whatever it has observed, every score
    it gives lies between 0 and 1: an undefined deviation counts as 1. *)
Theorem anomaly_scores_in_unit (window : nat) (b : BehaviorBaseline) rs (r : ActionRequest V) :
  baseline_ok b →
  in_unit (score_value (observe (observe_all (AnomalyDetector_new window) rs) r).1) ∧
  in_unit (score_value (observe (observe_all (with_baseline (AnomalyDetector_new window) b) rs) r).1).
Proof.
  intros Hb. split; apply observe_unit, observe_all_ok; (split; [apply map_Forall_empty|]); [done|].
  by intros ? [= <-].
Qed.

(** A window of size 0 is not empty: it holds the latest request. *)
Lemma zero_window_keeps_one rs (r : ActionRequest V) :
  recent_actions (observe_all (AnomalyDetector_new 0) (rs ++ [r])) = [record_of r].
Proof.
  rewrite observe_all_snoc.
  assert (Hinv : ∀ d (r : ActionRequest V), window_size d = 0 → length (recent_actions d) ≤ 1 →
    window_size (observe d r).2 = 0 ∧ recent_actions (observe d r).2 = [record_of r]).
  { clear. intros d r Hw Hl. assert (Hr : recent_actions (remember d (record_of r)) = [record_of r]).
    { unfold remember, push_window. cbn [recent_actions]. rewrite Hw. simpl.
      by destruct (recent_actions d) as [|x [|y l]]; simpl in *; [| |lia]. }
    unfold observe, build_baseline_from_history. by repeat case_match. }
  assert (Hall : ∀ rs, window_size (observe_all (AnomalyDetector_new 0) rs) = 0 ∧
    length (recent_actions (observe_all (AnomalyDetector_new 0) rs)) ≤ 1).
  { clear rs. induction rs as [|r' rs [IH1 IH2]] using rev_ind; [by split; simpl; [|lia]|].
    rewrite observe_all_snoc. destruct (Hinv _ r' IH1 IH2) as [-> ->]. by split; simpl; [|lia]. }
  by apply Hinv; apply Hall.
Qed.
End Observed.

Section AnomalyWitnesses.
#[local] Instance entry_order : HashOrder := {| iter m := map_to_list m; iter_perm m := reflexivity _ |}.

Definition read_request : ActionRequest unit := request_simple (delegator_human "ann" "#1") "read" ReadOnly 0.
Definition exec_request : ActionRequest unit := request_simple (delegator_human "ann" "#1") "run" ProcessExec 0.

(** A hundred reads, then an execution: the window of 20 deviates. *)
Lemma detector_state_spec_witness :
  let rs := replicate 100 read_request in
  let d := observe_all (AnomalyDetector_new 20) rs in
  d = observed_state 20 (record_of <$> rs) ∧
  reason (observe d exec_request).1 = "high-pattern-deviation".
Proof.
  intros rs d. split; [|by vm_compute].
  refine (proj1 (detector_state_spec 20 rs exec_request _ _)); [lia|]. apply Z.ltb_lt. by vm_compute.
Defined.

Lemma anomaly_scores_in_unit_witness :
  let b := {| category_means := {[ReadOnly := S754_nan]}; category_stdevs := {[ReadOnly := S754_infinity true]} |} in
  in_unit (score_value (observe (observe_all (V := unit) (with_baseline (AnomalyDetector_new 20) b) []) read_request).1).
Proof.
  intros b. apply (anomaly_scores_in_unit 20 b [] read_request). split; by apply map_Forall_singleton.
Defined.
End AnomalyWitnesses.

