(* ===== verification/Policy.v ===== *)
(** * Verdicts and the risk policy: src/src/rbac/dynamic/verdict.rs, policy.rs

    The autonomy levels, strategies, scores and verdicts, and the policy that
    maps a risk to a level and a level to a strategy.  A [BTreeMap] keyed by
    level is a finite map listed in the order of the levels.  [display] is
    the shortest decimal rendering of a number, used in error messages
    only. *)

From Stdlib Require Import Floats.SpecFloat.
From stdpp Require Import pretty.
From S2P Require Import Prelude Float64.

(** ** Levels and strategies *)

Inductive AutonomyLevel := L0Frozen | L1Assisted | L2SemiAutonomous | L3Conditional | L4FullAutonomy.

#[export] Instance AutonomyLevel_eq_dec : EqDecision AutonomyLevel.
Proof. solve_decision. Defined.
Definition level_rank (l : AutonomyLevel) : nat :=
  match l with
  | L0Frozen => 0 | L1Assisted => 1 | L2SemiAutonomous => 2 | L3Conditional => 3 | L4FullAutonomy => 4
  end.
Definition level_of_rank (n : nat) : AutonomyLevel :=
  match n with
  | 0 => L0Frozen | 1 => L1Assisted | 2 => L2SemiAutonomous | 3 => L3Conditional | _ => L4FullAutonomy
  end.
#[export] Program Instance AutonomyLevel_countable : Countable AutonomyLevel :=
  inj_countable' level_rank level_of_rank _.
Next Obligation. by intros []. Qed.

Definition level_display (l : AutonomyLevel) : string :=
  match l with
  | L0Frozen => "L0-Frozen"
  | L1Assisted => "L1-Assisted"
  | L2SemiAutonomous => "L2-SemiAutonomous"
  | L3Conditional => "L3-Conditional"
  | L4FullAutonomy => "L4-FullAutonomy"
  end.
Definition level_debug (l : AutonomyLevel) : string :=
  match l with
  | L0Frozen => "L0Frozen"
  | L1Assisted => "L1Assisted"
  | L2SemiAutonomous => "L2SemiAutonomous"
  | L3Conditional => "L3Conditional"
  | L4FullAutonomy => "L4FullAutonomy"
  end.

Definition is_operational (l : AutonomyLevel) : bool := level_rank L2SemiAutonomous <=? level_rank l.

Inductive Strategy :=
  | Allow (auto_approve : bool)
  | Throttle (max_rate_per_min : N)
  | RequireConfirmation
  | Block (reason : string).

Definition strategy_display (s : Strategy) : string :=
  match s with
  | Allow auto_approve => "Allow(auto_approve=" +:+ (if auto_approve then "true" else "false") +:+ ")"
  | Throttle max_rate_per_min => "Throttle(max=" +:+ pretty max_rate_per_min +:+ "/min)"
  | RequireConfirmation => "RequireConfirmation"
  | Block reason => "Block(" +:+ reason +:+ ")"
  end.

(** ** Scores and verdicts *)

Record SubScores := {
  delegator_weight : f64;
  trust_penalty : f64;
  sensitivity : f64;
  domain_mismatch : f64;
  anomaly : f64;
}.

Record RiskScore := { risk_value : f64; sub_scores : SubScores }.

Inductive ActionOutcome :=
  | Success
  | Failure (error : string)
  | PolicyViolation (rule : string)
  | Anomalous (deviation : f64).

Record AuthorizationVerdict := {
  allowed : bool;
  autonomy_level : AutonomyLevel;
  verdict_risk : f64;
  verdict_sub_scores : SubScores;
  evidence : list string;
  mitigation : option Strategy;
  verdict_date : Z;
}.

Definition verdict_denied (level : AutonomyLevel) (risk : f64) (subs : SubScores) (reason : string)
    (now : Z) : AuthorizationVerdict := {|
  allowed := false;
  autonomy_level := level;
  verdict_risk := risk;
  verdict_sub_scores := subs;
  evidence := [reason];
  mitigation := Some (Block reason);
  verdict_date := now;
|}.

(** [{:.3}]: the exact value rounded to thousandths, ties to even. *)
Definition thousandths (m : positive) (e : Z) : Z :=
  if (0 <=? e)%Z then (Z.pos m * 2 ^ e * 1000)%Z
  else
    let d := (2 ^ (- e))%Z in
    let q := (Z.pos m * 1000 / d)%Z in
    let r := ((Z.pos m * 1000) `mod` d)%Z in
    if (d <? 2 * r)%Z || ((2 * r =? d)%Z && Z.odd q) then (q + 1)%Z else q.
Definition pad3 (n : Z) : string :=
  (if (n <? 100)%Z then "0" else "") +:+ (if (n <? 10)%Z then "0" else "") +:+ pretty (Z.to_N n).
Definition fixed3 (s : bool) (n : Z) : string :=
  (if s then "-" else "") +:+ pretty (Z.to_N (n / 1000)) +:+ "." +:+ pad3 (n `mod` 1000).
Definition display3 (x : f64) : string :=
  match x with
  | S754_nan => "NaN"
  | S754_infinity s => (if s then "-" else "") +:+ "inf"
  | S754_zero s => fixed3 s 0
  | S754_finite s m e => fixed3 s (thousandths m e)
  end.

(** ** Policies *)

Record DynamicPolicy := {
  dimension_weights : f64 * f64 * f64 * f64 * f64;
  autonomy_thresholds : gmap AutonomyLevel (f64 * f64);
  level_strategies : gmap AutonomyLevel Strategy;
}.

(** The entries of a [BTreeMap] in ascending order. *)
Definition levels : list AutonomyLevel := [L0Frozen; L1Assisted; L2SemiAutonomous; L3Conditional; L4FullAutonomy].
Definition ascending {A} (m : gmap AutonomyLevel A) : list (AutonomyLevel * A) :=
  omap (λ l, (l,.) <$> m !! l) levels.

Definition in_band (risk : f64) (band : f64 * f64) : bool := SFleb band.1 risk && SFltb risk band.2.

Fixpoint first_level (risk : f64) (bands : list (AutonomyLevel * (f64 * f64))) : AutonomyLevel :=
  match bands with
  | [] => L0Frozen
  | (level, band) :: bands => if in_band risk band then level else first_level risk bands
  end.

Definition map_to_level (p : DynamicPolicy) (risk : f64) : AutonomyLevel :=
  first_level risk (reverse (ascending (autonomy_thresholds p))).

Definition strategy_for (p : DynamicPolicy) (level : AutonomyLevel) : Strategy :=
  default (Block "no-strategy-defined") (level_strategies p !! level).

Section Validate.
Context (display : f64 → string).

Definition weights_list (p : DynamicPolicy) : list f64 :=
  let '(a, b, c, d, e) := dimension_weights p in [a; b; c; d; e].

Fixpoint validate_weights (ws : list f64) : result unit :=
  match ws with
  | [] => Ok tt
  | w :: ws =>
      if negb (SFleb f64_zero w && SFleb w f64_one)
      then Err (Anyhow ("dimension weight must be in [0, 1], got " +:+ display w))
      else validate_weights ws
  end.

Fixpoint validate_bands (p : DynamicPolicy) (bands : list (AutonomyLevel * (f64 * f64))) : result unit :=
  match bands with
  | [] => Ok tt
  | (level, (min, max)) :: bands =>
      if SFleb max min then
        Err (Anyhow ("threshold for " +:+ level_debug level +:+ " has min (" +:+ display min +:+
                     ") >= max (" +:+ display max +:+ ")"))
      else if SFltb min f64_zero || SFltb (lit 11 10) max then
        Err (Anyhow ("threshold for " +:+ level_debug level +:+ " out of range [" +:+ display min +:+
                     ", " +:+ display max +:+ ")"))
      else if bool_decide (level_strategies p !! level = None) then
        Err (Anyhow ("no strategy defined for " +:+ level_debug level))
      else validate_bands p bands
  end.

Definition weight_sum (p : DynamicPolicy) : f64 := foldl f64_add f64_zero (weights_list p).

Definition validate (p : DynamicPolicy) : result unit :=
  let w := weight_sum p in
  if SFltb (lit 5 100) (f64_abs (f64_sub w f64_one))
  then Err (Anyhow ("dimension weights must sum to ~1.0, got " +:+ display w))
  else
    _ ← validate_weights (weights_list p);
    validate_bands p (ascending (autonomy_thresholds p)).
End Validate.

Definition default_dynamic_policy : DynamicPolicy := {|
  dimension_weights := (lit 10 100, lit 30 100, lit 25 100, lit 25 100, lit 10 100);
  autonomy_thresholds := list_to_map [
    (L4FullAutonomy, (f64_zero, lit 15 100));
    (L3Conditional, (lit 15 100, lit 35 100));
    (L2SemiAutonomous, (lit 35 100, lit 60 100));
    (L1Assisted, (lit 60 100, lit 80 100));
    (L0Frozen, (lit 80 100, lit 101 100))];
  level_strategies := list_to_map [
    (L4FullAutonomy, Allow true);
    (L3Conditional, Throttle 30);
    (L2SemiAutonomous, RequireConfirmation);
    (L1Assisted, RequireConfirmation);
    (L0Frozen, Block "")];
|}.

(** [matches!(level, L4FullAutonomy | L3Conditional)], the test of the
    arbiter. *)
Definition level_allows (l : AutonomyLevel) : bool :=
  match l with
  | L4FullAutonomy | L3Conditional => true
  | _ => false
  end.

(** ** What a policy decides *)

Lemma elem_of_ascending {A} (m : gmap AutonomyLevel A) l x : (l, x) ∈ ascending m ↔ m !! l = Some x.
Proof.
  unfold ascending. rewrite list_elem_of_omap. split.
  - intros (l' & _ & (x' & Hx & [= <- <-])%fmap_Some). done.
  - intros Hx. exists l. rewrite Hx. split; [|done]. destruct l; set_solver.
Qed.

Lemma first_level_some risk bands :
  first_level risk bands = L0Frozen ∧ (∀ l b, (l, b) ∈ bands → in_band risk b = false) ∨
  ∃ before b after, bands = before ++ (first_level risk bands, b) :: after ∧ in_band risk b = true ∧
    ∀ l b', (l, b') ∈ before → in_band risk b' = false.
Proof.
  induction bands as [|[l b] bands IH]; simpl.
  - left. split; [done|]. by intros ?? ?%not_elem_of_nil.
  - destruct (in_band risk b) eqn:Hb.
    + right. exists [], b, bands. split_and!; [done|done|]. by intros ?? ?%not_elem_of_nil.
    + destruct IH as [[-> Hnone]|(before & b' & after & Heq & Hin & Hbefore)].
      * left. split; [done|]. intros l' b' [[= -> ->]|?]%elem_of_cons; [done|]. by apply (Hnone l').
      * right. exists ((l, b) :: before), b', after. split_and!; [simpl; by f_equal|done|].
        intros l2 b2 [[= -> ->]|?]%elem_of_cons; [done|]. by apply (Hbefore l2).
Qed.

(** [ascending] is ordered by rank. *)
Lemma ascending_ranks {A} (m : gmap AutonomyLevel A) :
  StronglySorted (λ x y, level_rank x.1 < level_rank y.1) (ascending m).
Proof.
  unfold ascending, levels. cbn [omap list_omap].
  destruct (m !! L0Frozen), (m !! L1Assisted), (m !! L2SemiAutonomous), (m !! L3Conditional), (m !! L4FullAutonomy);
    cbn; repeat (constructor; simpl; try lia).
Qed.

(** The level of a risk is the most autonomous one whose band holds it. *)
Lemma map_to_level_highest p risk :
  (map_to_level p risk = L0Frozen ∧ (∀ l b, autonomy_thresholds p !! l = Some b → in_band risk b = false)) ∨
  (∃ b, autonomy_thresholds p !! map_to_level p risk = Some b ∧ in_band risk b = true ∧
    ∀ l b', autonomy_thresholds p !! l = Some b' → level_rank (map_to_level p risk) < level_rank l →
      in_band risk b' = false).
Proof.
  pose proof (first_level_some risk (reverse (ascending (autonomy_thresholds p)))) as Hfirst.
  unfold map_to_level. revert Hfirst. generalize (first_level risk (reverse (ascending (autonomy_thresholds p)))).
  intros top [[Hl Hnone]|(before & b & after & Hsplit & Hb & Hbefore)].
  - left. split; [done|]. intros l b Hl'. apply (Hnone l). by rewrite elem_of_reverse, elem_of_ascending.
  - right. exists b. assert (Hin : (top, b) ∈ reverse (ascending (autonomy_thresholds p)))
      by (rewrite Hsplit; set_solver).
    rewrite elem_of_reverse, elem_of_ascending in Hin. split_and!; [done|done|].
    intros l' b' Hl' Hrank. apply (Hbefore l').
    assert (Hin' : (l', b') ∈ reverse (ascending (autonomy_thresholds p))) by (by rewrite elem_of_reverse, elem_of_ascending).
    rewrite Hsplit in Hin'. apply elem_of_app in Hin' as [?|[[= -> ->]|Hafter]%elem_of_cons]; [done|lia|].
    exfalso. pose proof (ascending_ranks (autonomy_thresholds p)) as Hsort.
    rewrite <- (reverse_involutive (ascending _)), Hsplit, reverse_app, reverse_cons, <- app_assoc in Hsort.
    apply StronglySorted_app_1_elem_of with (x1 := (l', b')) (x2 := (top, b)) in Hsort.
    + simpl in Hsort. lia.
    + by rewrite elem_of_reverse.
    + set_solver.
Qed.

(** The bands of the default policy, the most autonomous first. *)
Lemma default_bands : reverse (ascending (autonomy_thresholds default_dynamic_policy)) =
  [(L4FullAutonomy, (f64_zero, lit 15 100)); (L3Conditional, (lit 15 100, lit 35 100));
   (L2SemiAutonomous, (lit 35 100, lit 60 100)); (L1Assisted, (lit 60 100, lit 80 100));
   (L0Frozen, (lit 80 100, lit 101 100))].
Proof. by vm_compute. Qed.

Lemma default_ladder :
  (sv (lit 15 100) <? sv (lit 35 100))%Z && (sv (lit 35 100) <? sv (lit 60 100))%Z &&
  (sv (lit 60 100) <? sv (lit 80 100))%Z && (sv f64_one <? sv (lit 101 100))%Z = true.
Proof. by vm_compute. Qed.

Lemma default_level risk : in_unit risk →
  (∃ b, autonomy_thresholds default_dynamic_policy !! map_to_level default_dynamic_policy risk = Some b ∧
        in_band risk b = true) ∧
  level_allows (map_to_level default_dynamic_policy risk) = SFltb risk (lit 35 100).
Proof.
  rewrite in_unit_sv, <- sv_one. intros [Hf Hr].
  pose proof default_ladder as Hladder. rewrite !andb_true_iff, !Z.ltb_lt in Hladder.
  assert (Hin : ∀ l b, (l, b) ∈ reverse (ascending (autonomy_thresholds default_dynamic_policy)) →
            autonomy_thresholds default_dynamic_policy !! l = Some b)
    by (intros l b; by rewrite elem_of_reverse, elem_of_ascending).
  unfold map_to_level. rewrite default_bands in *. cbn [first_level].
  rewrite ltb_sv by done.
  assert (Hband : ∀ lo hi : f64, is_finite lo = true → is_finite hi = true →
            in_band risk (lo, hi) = true ↔ (sv lo ≤ sv risk < sv hi)%Z).
  { intros lo hi Hlo Hhi. unfold in_band. cbn [fst snd]. rewrite leb_sv, ltb_sv by done.
    by rewrite andb_true_iff, Z.leb_le, Z.ltb_lt. }
  pose proof (eq_refl : sv f64_zero = 0%Z).
  repeat case_match; rewrite <- ?not_true_iff_false, ?Hband in * by done; try lia;
    (split; [eexists; split; [apply Hin; repeat (apply list_elem_of_here || apply list_elem_of_further)
                             |apply Hband; (done || lia)]|]); cbn [level_allows]; symmetry;
    (apply Z.ltb_lt; lia) || (apply Z.ltb_ge; lia).
Qed.

(** The level of a risk is the most autonomous level whose half-open band
    holds it, and [L0Frozen] when none does; so a risk that is not a number
    is frozen under every policy.  Under the default policy the bands tile
    the unit interval: a risk in it is allowed (L3 or L4) exactly below
    0.35. *)
Theorem map_to_level_spec p risk :
  ((∃ b, autonomy_thresholds p !! map_to_level p risk = Some b ∧ in_band risk b = true ∧
      ∀ l b', autonomy_thresholds p !! l = Some b' → level_rank (map_to_level p risk) < level_rank l →
        in_band risk b' = false) ∨
   map_to_level p risk = L0Frozen ∧
     ∀ l b, autonomy_thresholds p !! l = Some b → in_band risk b = false) ∧
  map_to_level p S754_nan = L0Frozen ∧
  (in_unit risk →
     (∃ b, autonomy_thresholds default_dynamic_policy !! map_to_level default_dynamic_policy risk = Some b ∧
           in_band risk b = true) ∧
     level_allows (map_to_level default_dynamic_policy risk) = SFltb risk (lit 35 100)).
Proof.
  split_and!.
  - destruct (map_to_level_highest p risk) as [|]; [by right|by left].
  - unfold map_to_level. induction (reverse _) as [|[l [lo hi]] bands IH]; [done|]. simpl. unfold in_band. simpl.
    by replace (SFleb lo S754_nan) with false by (by destruct lo).
  - apply default_level.
Qed.

Lemma map_to_level_spec_witness :
  map_to_level default_dynamic_policy (lit 2 10) = L3Conditional ∧
  level_allows (map_to_level default_dynamic_policy (lit 2 10)) = SFltb (lit 2 10) (lit 35 100).
Proof.
  split; [by vm_compute|].
  refine (proj2 (proj2 (proj2 (map_to_level_spec default_dynamic_policy (lit 2 10))) _)).
  split_and!; by vm_compute.
Defined.

(** ** Validation *)

(** A band that passes: in order, in range, and its level has a strategy. *)
Definition band_ok (p : DynamicPolicy) (level : AutonomyLevel) (band : f64 * f64) : Prop :=
  SFleb band.2 band.1 = false ∧ SFltb band.1 f64_zero = false ∧ SFltb (lit 11 10) band.2 = false ∧
  is_Some (level_strategies p !! level).

Section Validation.
Context (display : f64 → string).

Lemma validate_weights_spec ws :
  match validate_weights display ws with
  | Ok _ => Forall (λ w, SFleb f64_zero w = true ∧ SFleb w f64_one = true) ws
  | Err e => ∃ w, w ∈ ws ∧ SFleb f64_zero w && SFleb w f64_one = false ∧
      e = Anyhow ("dimension weight must be in [0, 1], got " +:+ display w)
  end.
Proof.
  induction ws as [|w ws IH]; cbn [validate_weights]; [by constructor|].
  destruct (SFleb f64_zero w && SFleb w f64_one) eqn:Hw; cbn [negb].
  - destruct (validate_weights display ws); [|naive_solver (by right)].
    constructor; [by apply andb_true_iff|done].
  - exists w. split; [by left|done].
Qed.

Lemma validate_bands_spec p bands :
  match validate_bands display p bands with
  | Ok _ => Forall (λ e, band_ok p e.1 e.2) bands
  | Err e => ∃ l b, (l, b) ∈ bands ∧ ¬ band_ok p l b
  end.
Proof.
  induction bands as [|[l [lo hi]] bands IH]; cbn [validate_bands]; [by constructor|].
  destruct (SFleb hi lo) eqn:H1.
  { exists l, (lo, hi). split; [by left|]. intros (H & _). cbn in H. by rewrite H1 in H. }
  destruct (SFltb lo f64_zero) eqn:H2; cbn [orb].
  { exists l, (lo, hi). split; [by left|]. intros (_ & H & _). cbn in H. by rewrite H2 in H. }
  destruct (SFltb (lit 11 10) hi) eqn:H3.
  { exists l, (lo, hi). split; [by left|]. intros (_ & _ & H & _). cbn in H. by rewrite H3 in H. }
  case_bool_decide as H4.
  { exists l, (lo, hi). split; [by left|]. intros (_ & _ & _ & H). rewrite H4 in H. by apply is_Some_None in H. }
  destruct (validate_bands display p bands).
  - constructor; [|done]. split_and!; [done..|]. by apply not_eq_None_Some.
  - destruct IH as (l' & b' & ? & ?). exists l', b'. split; [by right|done].
Qed.

(** When a policy is accepted. *)
Definition policy_ok (p : DynamicPolicy) : Prop :=
  SFltb (lit 5 100) (f64_abs (f64_sub (weight_sum p) f64_one)) = false ∧
  Forall (λ w, SFleb f64_zero w = true ∧ SFleb w f64_one = true) (weights_list p) ∧
  ∀ l b, autonomy_thresholds p !! l = Some b → band_ok p l b.

Lemma validate_spec_iff p : validate display p = Ok tt ↔ policy_ok p.
Proof.
  unfold validate, policy_ok. destruct (SFltb (lit 5 100) _) eqn:Hsum; [by split; [|intros []]|].
  pose proof (validate_weights_spec (weights_list p)) as Hws.
  destruct (validate_weights display (weights_list p)) as [[]|e]; cbn [mbind result_bind].
  - pose proof (validate_bands_spec p (ascending (autonomy_thresholds p))) as Hbs.
    destruct (validate_bands display p _) as [[]|e].
    + split; [|done]. intros _. split_and!; [done|done|]. intros l b Hb%elem_of_ascending.
      by apply (proj1 (Forall_forall _ _) Hbs (l, b)).
    + split; [done|]. intros (_ & _ & Hb). destruct Hbs as (l & b & Hin & Hn).
      destruct Hn. apply Hb. by apply elem_of_ascending.
  - split; [done|]. intros (_ & Hws' & _). destruct Hws as (w & Hin & Hw & _).
    apply (proj1 (Forall_forall _ _) Hws') in Hin. by rewrite (proj1 Hin), (proj2 Hin) in Hw.
Qed.

(** Validation.  A policy is accepted exactly when its weights sum to 1
    up to 0.05 and each is in the unit interval, and each band is in order,
    in range, and belongs to a level with a strategy - so under an accepted
    policy a level reached through a band never falls back to the
    "no-strategy-defined" block.  The default policy is accepted.  The range
    tests fail open on a number that is not one: every band of an accepted
    policy may be replaced by one with two NaN bounds, which holds no risk. *)
Theorem validate_spec p :
  (validate display p = Ok tt ↔
     SFltb (lit 5 100) (f64_abs (f64_sub (weight_sum p) f64_one)) = false ∧
     Forall (λ w, SFleb f64_zero w = true ∧ SFleb w f64_one = true) (weights_list p) ∧
     ∀ l b, autonomy_thresholds p !! l = Some b → band_ok p l b) ∧
  (∀ risk b, validate display p = Ok tt → autonomy_thresholds p !! map_to_level p risk = Some b →
     level_strategies p !! map_to_level p risk = Some (strategy_for p (map_to_level p risk))) ∧
  validate display default_dynamic_policy = Ok tt ∧
  (∀ l, is_Some (level_strategies p !! l) → band_ok p l (S754_nan, S754_nan)) ∧
  (∀ risk, in_band risk (S754_nan, S754_nan) = false).
Proof.
  split; [apply validate_spec_iff|]. split_and!.
  - intros risk b (_ & _ & Hb)%validate_spec_iff Hl. apply Hb in Hl as (_ & _ & _ & [s Hs]).
    unfold strategy_for. by rewrite Hs.
  - by vm_compute.
  - intros l Hl. by split_and!.
  - intros risk. unfold in_band. by destruct risk as [[]|[]| |[]].
Qed.
End Validation.
