(* ===== verification/Arbiter.v ===== *)
(** * The authorization arbiter: src/src/rbac/dynamic/arbiter.rs

    The dynamic layer put together: a request is scored on five dimensions
    (delegator, trust, sensitivity, domain, anomaly), the risk is mapped to an
    autonomy level, and the verdict is audited.  [Domain], [Trust], [Anomaly]
    and [Policy] hold the parts, [AuditLog] the audit logger.

    One operation is one step that reads the clock once ([now]); the sections
    of [authorize] between its awaits are definitions of their own.  The
    trust store is any instance of [TrustScoreStore].  [engine_sink] is the
    sink the rule engine of the audit logger reads, [min_date] the earliest
    date of chrono.  Trace messages are not
    modelled. *)

From Stdlib Require Import Floats.SpecFloat.
From stdpp Require Import pretty.
From S2P Require Import Prelude Float64 Domain Trust Anomaly Policy.
From S2P Require AuditLog.

(** ** State *)

Definition MAX_ANOMALY_DETECTORS : nat := 10 * 1000.
Definition DEFAULT_ANOMALY_SCORE_WHEN_AT_CAPACITY : f64 := lit 15 100.
Definition LOCKDOWN_EVIDENCE_COUNT : Z := 999.

Record AuthorizationArbiter (TS Sk : Type) := {
  trust_store : TS;
  detectors : gmap string AnomalyDetector;
  max_detectors : nat;
  domain_scope : option DomainScope;
  policy : DynamicPolicy;
  frozen : gset string;
  audit : option (AuditLog.AuditLogger (Sk := Sk));
}.
Arguments trust_store {_ _}. Arguments detectors {_ _}. Arguments max_detectors {_ _}.
Arguments domain_scope {_ _}. Arguments policy {_ _}. Arguments frozen {_ _}. Arguments audit {_ _}.

(** [format!("{:?}", delegator_type)] *)
Definition delegator_debug (t : DelegatorType) : string :=
  match t with
  | Human => "Human" | Agent => "Agent" | SubAgent => "SubAgent"
  | ExternalSystem => "ExternalSystem" | Scheduler => "Scheduler"
  end.

Definition weight_of (t : DelegatorType) : f64 :=
  match t with
  | Human => f64_zero
  | Agent => lit 5 100
  | SubAgent => lit 15 100
  | ExternalSystem => lit 30 100
  | Scheduler => lit 2 100
  end.

(** [1.0 - trust.weighted()], clamped. *)
Definition trust_penalty_of (t : TrustScore) : f64 :=
  f64_clamp (f64_sub f64_one (weighted t)) f64_zero f64_one.

(** The surcharge below the floor of the current domain. *)
Definition floor_penalty (s : DomainScope) (t : TrustScore) (penalty : f64) : f64 :=
  let floor := trust_floor (current_task_domain s) in
  if SFltb f64_zero floor then
    let w := weighted t in
    if SFltb w floor then
      f64_min (f64_add penalty (f64_clamp (f64_sub floor w) f64_zero f64_one)) f64_one
    else penalty
  else penalty.

Definition domain_part {V} (scope : option DomainScope) (r : ActionRequest V) (t : TrustScore) (penalty : f64)
    : f64 * f64 :=
  match scope with
  | Some s => (excess_weight (Domain.evaluate s (category r) (resource_path r)), floor_penalty s t penalty)
  | None => (f64_zero, penalty)
  end.

Definition raw_risk (p : DynamicPolicy) (s : SubScores) : f64 :=
  let '(w0, w1, w2, w3, w4) := dimension_weights p in
  f64_add (f64_add (f64_add (f64_add
    (f64_mul (delegator_weight s) w0) (f64_mul (trust_penalty s) w1))
    (f64_mul (sensitivity s) w2)) (f64_mul (domain_mismatch s) w3)) (f64_mul (anomaly s) w4).

Definition score_of (p : DynamicPolicy) (s : SubScores) : RiskScore := {|
  risk_value := f64_clamp (raw_risk p s) f64_zero f64_one; sub_scores := s |}.

Section Arbiter.
Context {TS Sk V : Type} `{TrustScoreStore TS} `{AuditLog.AuditSink Sk} `{HashOrder}.
Context (min_date : Z) (engine_sink : Sk → option Sk) (display : f64 → string).
Implicit Types (a : AuthorizationArbiter TS Sk) (r : ActionRequest V).

Definition new (store : TS) (p : DynamicPolicy) : AuthorizationArbiter TS Sk := {|
  trust_store := store; detectors := ∅; max_detectors := MAX_ANOMALY_DETECTORS; domain_scope := None;
  policy := p; frozen := ∅; audit := None |}.
Definition with_max_detectors a (max : nat) : AuthorizationArbiter TS Sk := {|
  trust_store := trust_store a; detectors := detectors a; max_detectors := max;
  domain_scope := domain_scope a; policy := policy a; frozen := frozen a; audit := audit a |}.
Definition with_audit a (l : AuditLog.AuditLogger (Sk := Sk)) : AuthorizationArbiter TS Sk := {|
  trust_store := trust_store a; detectors := detectors a; max_detectors := max_detectors a;
  domain_scope := domain_scope a; policy := policy a; frozen := frozen a; audit := Some l |}.
Definition with_domain_scope a (s : DomainScope) : AuthorizationArbiter TS Sk := {|
  trust_store := trust_store a; detectors := detectors a; max_detectors := max_detectors a;
  domain_scope := Some s; policy := policy a; frozen := frozen a; audit := audit a |}.
Definition with_policy a (p : DynamicPolicy) : AuthorizationArbiter TS Sk := {|
  trust_store := trust_store a; detectors := detectors a; max_detectors := max_detectors a;
  domain_scope := domain_scope a; policy := p; frozen := frozen a; audit := audit a |}.
Definition with_store a (st : TS) : AuthorizationArbiter TS Sk := {|
  trust_store := st; detectors := detectors a; max_detectors := max_detectors a;
  domain_scope := domain_scope a; policy := policy a; frozen := frozen a; audit := audit a |}.
Definition with_detectors a (ds : gmap string AnomalyDetector) : AuthorizationArbiter TS Sk := {|
  trust_store := trust_store a; detectors := ds; max_detectors := max_detectors a;
  domain_scope := domain_scope a; policy := policy a; frozen := frozen a; audit := audit a |}.
Definition with_frozen a (f : gset string) : AuthorizationArbiter TS Sk := {|
  trust_store := trust_store a; detectors := detectors a; max_detectors := max_detectors a;
  domain_scope := domain_scope a; policy := policy a; frozen := f; audit := audit a |}.

Definition set_policy a (p : DynamicPolicy) : result unit * AuthorizationArbiter TS Sk :=
  match validate display p with
  | Err e => (Err e, a)
  | Ok _ => (Ok tt, with_policy a p)
  end.
Definition set_domain_scope a (s : DomainScope) : AuthorizationArbiter TS Sk := with_domain_scope a s.

(** ** Scoring *)

(** The record a score is computed from: an unavailable store counts as no
    trust at all. *)
Definition trust_for a (id : string) (now : Z) : TrustScore :=
  match trust_get (trust_store a) id with
  | Ok (Some score) => score
  | Ok None => TrustScore_default now
  | Err _ =>
      let t := TrustScore_default now in {|
        value := f64_zero; confidence := f64_one; evidence_count := evidence_count t;
        last_updated := last_updated t; degradation_rate := degradation_rate t |}
  end.

(** The observation in the detector of the delegator; above the cap a new
    delegator gets none. *)
Definition anomaly_part a r : f64 * gmap string AnomalyDetector :=
  let id := delegator_id (delegator r) in
  if (max_detectors a <=? size (detectors a)) && bool_decide (detectors a !! id = None)
  then (DEFAULT_ANOMALY_SCORE_WHEN_AT_CAPACITY, detectors a)
  else
    let d := default AnomalyDetector_default (detectors a !! id) in
    let '(s, d) := observe d r in
    (score_value s, <[id := d]> (detectors a)).

Definition sub_scores_of a r (now : Z) : SubScores :=
  let trust := trust_for a (delegator_id (delegator r)) now in
  let '(mismatch, penalty) := domain_part (domain_scope a) r trust (trust_penalty_of trust) in {|
    delegator_weight := weight_of (delegator_type (delegator r));
    trust_penalty := penalty;
    sensitivity := base_weight (category r);
    domain_mismatch := mismatch;
    anomaly := (anomaly_part a r).1;
  |}.

Definition risk_score a r (now : Z) : RiskScore * AuthorizationArbiter TS Sk :=
  (score_of (policy a) (sub_scores_of a r now), with_detectors a (anomaly_part a r).2).

(** ** Verdicts *)

Definition frozen_verdict r (now : Z) : AuthorizationVerdict := {|
  allowed := false;
  autonomy_level := L0Frozen;
  verdict_risk := f64_one;
  verdict_sub_scores := {|
    delegator_weight := f64_zero; trust_penalty := f64_one; sensitivity := f64_zero;
    domain_mismatch := f64_zero; anomaly := f64_zero |};
  evidence := ["delegator '" +:+ delegator_id (delegator r) +:+ "' is frozen (lockdown active)"];
  mitigation := Some (Block "lockdown");
  verdict_date := now;
|}.

Definition risk_line r (risk : RiskScore) (level : AutonomyLevel) : string :=
  "risk=" +:+ display3 (risk_value risk) +:+ " level=" +:+ level_display level +:+
  " delegator_type=" +:+ delegator_debug (delegator_type (delegator r)).
Definition sub_line (s : SubScores) : string :=
  "sub: delegator_w=" +:+ display3 (delegator_weight s) +:+ " trust_p=" +:+ display3 (trust_penalty s) +:+
  " sens=" +:+ display3 (sensitivity s) +:+ " domain=" +:+ display3 (domain_mismatch s) +:+
  " anomaly=" +:+ display3 (anomaly s).

Definition mitigation_of (ok : bool) (s : Strategy) : option Strategy :=
  if ok then match s with Throttle _ => Some s | _ => None end else Some s.

(** The verdict on a risk, under the policy read after scoring. *)
Definition decide_risk (p : DynamicPolicy) r (risk : RiskScore) (now : Z) : AuthorizationVerdict :=
  let level := map_to_level p (risk_value risk) in
  let strategy := strategy_for p level in
  let ok := level_allows level in {|
    allowed := ok;
    autonomy_level := level;
    verdict_risk := risk_value risk;
    verdict_sub_scores := sub_scores risk;
    evidence := [risk_line r risk level; sub_line (sub_scores risk)];
    mitigation := mitigation_of ok strategy;
    verdict_date := now;
  |}.

Definition audit_entry (v : AuthorizationVerdict) r : AuditLog.AuditEntry := {|
  AuditLog.entry_id := 0;
  AuditLog.entry_subject := delegator_id (delegator r);
  AuditLog.subject_type := delegator_debug (delegator_type (delegator r));
  AuditLog.entry_permission := action r;
  AuditLog.endpoint :=
    "dynamic:" +:+ level_display (autonomy_level v) +:+ ":risk=" +:+ display3 (verdict_risk v);
  AuditLog.granted := allowed v;
  AuditLog.entry_date := verdict_date v;
  AuditLog.verdict := Some {|
    AuditLog.autonomy_level := level_display (autonomy_level v);
    AuditLog.risk_score := verdict_risk v;
    AuditLog.sub_scores := {|
      AuditLog.delegator_weight := delegator_weight (verdict_sub_scores v);
      AuditLog.trust_penalty := trust_penalty (verdict_sub_scores v);
      AuditLog.sensitivity := sensitivity (verdict_sub_scores v);
      AuditLog.domain_mismatch := domain_mismatch (verdict_sub_scores v);
      AuditLog.anomaly := anomaly (verdict_sub_scores v) |};
    AuditLog.evidence := evidence v;
    AuditLog.mitigation := strategy_display <$> mitigation v |};
|}.

(** [true] when the call returns; [false] is a panic of the rule engine. *)
Definition log_verdict a (v : AuthorizationVerdict) r (now : Z) : bool * AuthorizationArbiter TS Sk :=
  match audit a with
  | None => (true, a)
  | Some l =>
      let '(res, l) := AuditLog.log min_date l engine_sink (audit_entry v r) now in
      (bool_decide (is_Some res), with_audit a l)
  end.

(** [None] is a panic while the verdict is logged. *)
Definition returned (v : AuthorizationVerdict) (res : bool * AuthorizationArbiter TS Sk)
    : option AuthorizationVerdict * AuthorizationArbiter TS Sk :=
  (if res.1 then Some v else None, res.2).

Definition authorize a r (now : Z) : option AuthorizationVerdict * AuthorizationArbiter TS Sk :=
  if bool_decide (delegator_id (delegator r) ∈ frozen a) then
    let v := frozen_verdict r now in returned v (log_verdict a v r now)
  else
    let '(risk, a) := risk_score a r now in
    let v := decide_risk (policy a) r risk now in
    returned v (log_verdict a v r now).

(** ** Feedback and operator control *)

Definition apply_outcome (t : TrustScore) (o : ActionOutcome) (now : Z) : TrustScore :=
  match o with
  | Success => on_compliant_behavior t (lit 5 10) now
  | Failure _ => on_policy_violation t (lit 2 10) now
  | PolicyViolation _ => on_policy_violation t (lit 8 10) now
  | Anomalous deviation => on_policy_violation t deviation now
  end.

(** A failed write is logged and dropped; the store is what the call left. *)
Definition set_trust a (id : string) (t : TrustScore) : AuthorizationArbiter TS Sk :=
  with_store a (trust_set (trust_store a) id t).2.

Definition feedback a r (o : ActionOutcome) (now : Z) : AuthorizationArbiter TS Sk :=
  let id := delegator_id (delegator r) in
  let trust :=
    match trust_get (trust_store a) id with
    | Ok (Some score) => score
    | _ => TrustScore_default now
    end in
  set_trust a id (apply_outcome trust o now).

Definition lockdown_trust (now : Z) : TrustScore :=
  let t := TrustScore_new f64_zero now in {|
    value := value t; confidence := f64_one; evidence_count := LOCKDOWN_EVIDENCE_COUNT;
    last_updated := last_updated t; degradation_rate := degradation_rate t |}.

Definition lockdown a (id : string) (now : Z) : AuthorizationArbiter TS Sk :=
  set_trust (with_frozen a ({[id]} ∪ frozen a)) id (lockdown_trust now).

Definition target_trust (l : AutonomyLevel) : f64 :=
  match l with
  | L4FullAutonomy => lit 95 100
  | L3Conditional => lit 8 10
  | L2SemiAutonomous => lit 6 10
  | L1Assisted => lit 4 10
  | L0Frozen => lit 1 10
  end.
Definition restored_trust (l : AutonomyLevel) (now : Z) : TrustScore :=
  let t := TrustScore_new (target_trust l) now in {|
    value := value t; confidence := lit 8 10; evidence_count := 10;
    last_updated := last_updated t; degradation_rate := degradation_rate t |}.

Definition restore a (id : string) (target : AutonomyLevel) (now : Z) : AuthorizationArbiter TS Sk :=
  let a := set_trust (with_frozen a (frozen a ∖ {[id]})) id (restored_trust target now) in
  with_detectors a (delete id (detectors a)).

(** The fields of the JSON summary. *)
Record StatusSummary := {
  enabled : bool;
  summary_delegator : string;
  summary_frozen : bool;
  trust_store_ok : bool;
  trust_score : f64;
  trust_confidence : f64;
  trust_evidence_count : Z;
  anomaly_baseline_ready : bool;
}.

Definition status_summary a (id : string) (now : Z) : StatusSummary :=
  let '(trust, store_ok) :=
    match trust_get (trust_store a) id with
    | Ok (Some score) => (score, true)
    | Ok None => (TrustScore_default now, true)
    | Err _ => (TrustScore_default now, false)
    end in {|
  enabled := true;
  summary_delegator := id;
  summary_frozen := bool_decide (id ∈ frozen a);
  trust_store_ok := store_ok;
  trust_score := weighted trust;
  trust_confidence := confidence trust;
  trust_evidence_count := evidence_count trust;
  anomaly_baseline_ready :=
    match detectors a !! id with
    | Some d => is_baseline_ready d
    | None => false
    end;
|}.

(** The worker of [spawn_trust_decay], one tick. *)
Definition decay_tick a (interval : Z) (clock : string → Z) : AuthorizationArbiter TS Sk :=
  with_store a (run_once (spawn_resilient interval) clock (trust_store a)).2.

(** ** Histories *)

Inductive arb_op :=
  | OpAuthorize r (now : Z)
  | OpScore r (now : Z)
  | OpFeedback r (o : ActionOutcome) (now : Z)
  | OpLockdown (id : string) (now : Z)
  | OpRestore (id : string) (target : AutonomyLevel) (now : Z)
  | OpSetPolicy (p : DynamicPolicy)
  | OpSetScope (s : DomainScope)
  | OpDecay (interval : Z) (clock : string → Z).

Definition arb_step a (op : arb_op) : AuthorizationArbiter TS Sk :=
  match op with
  | OpAuthorize r now => (authorize a r now).2
  | OpScore r now => (risk_score a r now).2
  | OpFeedback r o now => feedback a r o now
  | OpLockdown id now => lockdown a id now
  | OpRestore id target now => restore a id target now
  | OpSetPolicy p => (set_policy a p).2
  | OpSetScope s => set_domain_scope a s
  | OpDecay interval clock => decay_tick a interval clock
  end.
Definition arb_run a (ops : list arb_op) : AuthorizationArbiter TS Sk := foldl arb_step a ops.

(** A lockdown is lifted by [restore] of the same id only. *)
Definition restores (id : string) (op : arb_op) : bool :=
  match op with
  | OpRestore id' _ _ => bool_decide (id' = id)
  | _ => false
  end.
End Arbiter.

(** ** Verdicts and lockdown *)

Section Verdicts.
Context {TS Sk V : Type} `{TrustScoreStore TS} `{AuditLog.AuditSink Sk} `{HashOrder}.
Context (min_date : Z) (engine_sink : Sk → option Sk) (display : f64 → string).
Implicit Types (a : AuthorizationArbiter TS Sk) (r : ActionRequest V).
#[local] Abbreviation authorize := (authorize min_date engine_sink).
#[local] Abbreviation log_verdict := (log_verdict min_date engine_sink).
#[local] Abbreviation arb_step := (arb_step min_date engine_sink display).
#[local] Abbreviation arb_run := (arb_run min_date engine_sink display).

(** The fields of the state after an operation, the numbers left alone. *)
#[local] Ltac step_fields :=
  cbn [Arbiter.arb_step risk_score feedback lockdown restore set_trust with_store with_frozen with_detectors
       with_domain_scope with_policy set_domain_scope decay_tick snd restores
       frozen detectors max_detectors policy domain_scope trust_store].

(** Logging touches the audit logger and nothing else. *)
Lemma log_verdict_state a v r now : ∃ o,
  (log_verdict a v r now).2 = {|
    trust_store := trust_store a; detectors := detectors a; max_detectors := max_detectors a;
    domain_scope := domain_scope a; policy := policy a; frozen := frozen a; audit := o |}.
Proof.
  unfold Arbiter.log_verdict. destruct a as [st ds m sc p f [l|]]; cbn [audit].
  - destruct (AuditLog.log _ _ _ _ _) as [res l']. by exists (Some l').
  - by exists None.
Qed.

Lemma authorize_frozen a r now : frozen (authorize a r now).2 = frozen a.
Proof.
  unfold Arbiter.authorize, returned, risk_score. case_bool_decide.
  - by destruct (log_verdict_state a (frozen_verdict r now) r now) as [o ->].
  - by edestruct log_verdict_state as [o ->].
Qed.

Lemma authorize_verdict a r now v : (authorize a r now).1 = Some v →
  v = if bool_decide (delegator_id (delegator r) ∈ frozen a) then frozen_verdict r now
      else decide_risk (policy a) r (score_of (policy a) (sub_scores_of a r now)) now.
Proof.
  unfold Arbiter.authorize, returned, risk_score. case_bool_decide; cbn [fst]; case_match; by intros [= <-].
Qed.

Lemma step_frozen a (op : arb_op (V := V)) id :
  restores id op = false → id ∈ frozen a → id ∈ frozen (arb_step a op).
Proof.
  revert id. destruct op; intros i; step_fields; intros Hop Hid; try exact Hid.
  - by rewrite authorize_frozen.
  - set_solver.
  - case_bool_decide; set_solver.
  - unfold set_policy. by case_match.
Qed.

Lemma run_frozen a (ops : list (arb_op (V := V))) id :
  forallb (λ op, negb (restores id op)) ops = true → id ∈ frozen a → id ∈ frozen (arb_run a ops).
Proof.
  revert a. induction ops as [|op ops IH]; intros a; [done|]. simpl.
  rewrite andb_true_iff, negb_true_iff. intros [Hop Hops] Hid. apply IH; [done|]. by apply step_frozen.
Qed.

(** Lockdown holds.  After [lockdown], whatever follows - authorizations,
    feedback, decay, new policies and scopes, lockdowns and restores of
    others - as long as nobody restores this delegator, every [authorize] for
    it returns the frozen verdict: denied, L0, risk 1, blocked; without
    scoring, so that its detector, its trust and the policy play no part and
    only the audit log changes.  (A panic while the verdict is logged returns
    no verdict at all.) *)
Theorem lockdown_holds a r id (ops : list (arb_op (V := V))) t now :
  delegator_id (delegator r) = id → forallb (λ op, negb (restores id op)) ops = true →
  let a' := arb_run (lockdown a id t) ops in
  let res := authorize a' r now in
  (res.1 = None ∨ res.1 = Some (frozen_verdict r now)) ∧
  allowed (frozen_verdict r now) = false ∧ autonomy_level (frozen_verdict r now) = L0Frozen ∧
  (audit a' = None → res.1 = Some (frozen_verdict r now)) ∧
  trust_store res.2 = trust_store a' ∧ detectors res.2 = detectors a' ∧ frozen res.2 = frozen a'.
Proof.
  intros <- Hops a' res.
  assert (Hin : delegator_id (delegator r) ∈ frozen a') by (apply run_frozen; [done|]; simpl; set_solver).
  assert (Hres : res = returned (frozen_verdict r now) (log_verdict a' (frozen_verdict r now) r now)).
  { unfold res, Arbiter.authorize. by rewrite bool_decide_true by done. }
  destruct (log_verdict_state a' (frozen_verdict r now) r now) as [o Ho].
  rewrite Hres. unfold returned. cbn [fst snd]. rewrite Ho.
  split_and!; [case_match; auto|done|done| |done|done|done].
  intros Ha. unfold Arbiter.log_verdict. by rewrite Ha.
Qed.

(** C22: What a verdict is.  A delegator that is not frozen is allowed exactly
    when the policy maps its risk to L3 or L4; the strategy of the level is
    attached to every denial, and to an allowed verdict only as a throttle;
    the observation is the only other effect.  With an audit logger exactly
    one entry is appended to its sink, for the delegator and the action,
    carrying the decision - also when the rule engine then panics. *)
Theorem authorize_spec a r now :
  delegator_id (delegator r) ∉ frozen a →
  let risk := score_of (policy a) (sub_scores_of a r now) in
  let v := decide_risk (policy a) r risk now in
  let res := authorize a r now in
  (res.1 = None ∨ res.1 = Some v) ∧ (audit a = None → res.1 = Some v) ∧
  (allowed v = true ↔ map_to_level (policy a) (risk_value risk) ∈ [L3Conditional; L4FullAutonomy]) ∧
  mitigation v = (if allowed v then
      match strategy_for (policy a) (autonomy_level v) with Throttle n => Some (Throttle n) | _ => None end
    else Some (strategy_for (policy a) (autonomy_level v))) ∧
  detectors res.2 = (anomaly_part a r).2 ∧ trust_store res.2 = trust_store a ∧ policy res.2 = policy a ∧
  (∀ l, audit a = Some l → ∃ l', audit res.2 = Some l' ∧
     AuditLog.sink l' = AuditLog.append (AuditLog.sink l) (audit_entry v r) ∧
     AuditLog.entry_subject (audit_entry v r) = delegator_id (delegator r) ∧
     AuditLog.entry_permission (audit_entry v r) = action r ∧
     AuditLog.granted (audit_entry v r) = allowed v).
Proof.
  intros Hfree risk v res.
  assert (Hres : res = returned v (log_verdict (with_detectors a (anomaly_part a r).2) v r now)).
  { unfold res, Arbiter.authorize. by rewrite bool_decide_false by done. }
  destruct (log_verdict_state (with_detectors a (anomaly_part a r).2) v r now) as [o Ho].
  assert (Haudit : ∀ l, audit a = Some l → ∃ l', audit res.2 = Some l' ∧
            AuditLog.sink l' = AuditLog.append (AuditLog.sink l) (audit_entry v r)).
  { intros l Hl. rewrite Hres. unfold returned, Arbiter.log_verdict. cbn [audit with_detectors snd]. rewrite Hl.
    unfold AuditLog.log. repeat case_match; simplify_eq; by eexists. }
  rewrite Hres in *. unfold returned in *. cbn [fst snd] in *. rewrite Ho in *.
  split_and!; [case_match; auto| | | |done|done|done| ].
  - intros Ha. unfold Arbiter.log_verdict. cbn [audit with_detectors]. by rewrite Ha.
  - cbn [allowed v decide_risk]. destruct (map_to_level _ _); cbn [level_allows]; set_solver.
  - unfold v, decide_risk, mitigation_of. cbn [mitigation allowed autonomy_level].
    repeat case_match; simplify_eq; done.
  - intros l Hl. destruct (Haudit l Hl) as (l' & ? & ?). by exists l'.
Qed.

(** ** Detectors *)

Lemma anomaly_part_size a r :
  size (detectors a) ≤ max_detectors a → size (anomaly_part a r).2 ≤ max_detectors a.
Proof.
  intros Hle. unfold anomaly_part. destruct (detectors a !! _) as [d|] eqn:Hd.
  - rewrite bool_decide_false, andb_false_r by done. destruct (observe _ r) as [s d']. cbn [snd].
    by rewrite map_size_insert_Some by (by rewrite Hd).
  - rewrite bool_decide_true, andb_true_r by done. destruct (Nat.leb_spec (max_detectors a) (size (detectors a))); [done|].
    destruct (observe _ r) as [s d']. cbn [snd]. rewrite map_size_insert_None by done. lia.
Qed.

Definition capped (max : nat) a : Prop := max_detectors a = max ∧ size (detectors a) ≤ max.

Lemma step_capped max a (op : arb_op (V := V)) : capped max a → capped max (arb_step a op).
Proof.
  unfold capped. intros [Hm Hs]. pose proof (anomaly_part_size a) as Hpart. rewrite Hm in Hpart.
  destruct op; step_fields; try (split; [exact Hm|]); try exact Hs.
  - unfold Arbiter.authorize, returned, risk_score.
    case_bool_decide; edestruct log_verdict_state as [o ->]; step_fields; auto.
  - by apply Hpart.
  - etrans; [|exact Hs]. rewrite map_size_delete. destruct (detectors a !! _); [lia|reflexivity].
  - unfold set_policy. case_match; by split.
Qed.

Lemma run_capped max a (ops : list (arb_op (V := V))) : capped max a → capped max (arb_run a ops).
Proof. revert a. induction ops as [|op ops IH]; intros a Ha; [done|]. by apply IH, step_capped. Qed.

(** Detectors are bounded.  From a new arbiter, no history makes more
    detectors than the cap; a request of a delegator without one is then
    charged 0.15 and leaves no trace, and a delegator that has one keeps
    being observed. *)
Theorem detectors_capped (store : TS) p max (ops : list (arb_op (V := V))) r now :
  let a := arb_run (with_max_detectors (new store p) max) ops in
  max_detectors a = max ∧ size (detectors a) ≤ max ∧
  (size (detectors a) = max → detectors a !! delegator_id (delegator r) = None →
     anomaly (sub_scores_of a r now) = lit 15 100 ∧ detectors (risk_score a r now).2 = detectors a) ∧
  (∀ d, detectors a !! delegator_id (delegator r) = Some d →
     anomaly (sub_scores_of a r now) = score_value (observe d r).1 ∧
     detectors (risk_score a r now).2 !! delegator_id (delegator r) = Some (observe d r).2).
Proof.
  intros a. assert (Hinv : capped max a) by (apply run_capped; split; [done|]; apply Nat.le_0_l).
  destruct Hinv as [Hm Hs]. split_and!; [done|done| |]; unfold sub_scores_of, risk_score;
    destruct (domain_part _ _ _ _) as [mm pp]; cbn [anomaly snd detectors with_detectors]; unfold anomaly_part; rewrite Hm.
  - intros -> Hnone. rewrite bool_decide_true by done. by rewrite Nat.leb_refl.
  - intros d Hd. rewrite bool_decide_false by (by rewrite Hd). rewrite andb_false_r, Hd. cbn [default from_option id].
    destruct (observe d r) as [s d']. split; [done|]. apply lookup_insert_eq.
Qed.
End Verdicts.

Section ArbiterWitnesses.
#[local] Instance entry_order : HashOrder := {| iter m := map_to_list m; iter_perm m := reflexivity _ |}.
#[local] Existing Instance AuditLog.mem_audit_sink.
#[local] Abbreviation sink := AuditLog.InMemoryAuditSink.

Definition audited : AuthorizationArbiter InMemoryTrustScoreStore sink :=
  with_audit (new InMemoryTrustScoreStore_new default_dynamic_policy)
    (AuditLog.AuditLogger_new AuditLog.InMemoryAuditSink_new).
Definition agent_read : ActionRequest unit := request_simple (delegator_agent "bot" "#1") "read" ReadOnly 0.

(** Locked down, praised and given a new policy, still frozen. *)
Lemma lockdown_holds_witness :
  let ops := [OpFeedback agent_read Success 1; OpSetPolicy default_dynamic_policy; OpRestore "ann" L4FullAutonomy 2] in
  let a' := arb_run 0 Some (λ _, "") (lockdown audited "bot" 0) ops in
  let res := authorize 0 Some a' agent_read 5 in
  (res.1 = None ∨ res.1 = Some (frozen_verdict agent_read 5)) ∧
  (allowed <$> res.1 = Some false) ∧ (allowed <$> (authorize 0 Some audited agent_read 5).1 = Some true).
Proof.
  intros ops a' res. split; [|split; by vm_compute].
  exact (proj1 (lockdown_holds 0 Some (λ _, "") audited agent_read "bot" ops 0 5 eq_refl eq_refl)).
Defined.

Lemma authorize_spec_witness :
  let v := decide_risk default_dynamic_policy agent_read
             (score_of default_dynamic_policy (sub_scores_of audited agent_read 5)) 5 in
  ((authorize 0 Some audited agent_read 5).1 = None ∨ (authorize 0 Some audited agent_read 5).1 = Some v) ∧
  level_display (autonomy_level v) = "L3-Conditional".
Proof.
  intros v. split; [|by vm_compute].
  refine (proj1 (authorize_spec 0 Some audited agent_read 5 _)). by apply not_elem_of_empty.
Defined.
End ArbiterWitnesses.
