(* ===== verification/ArbiterScores.v ===== *)
(** * The scores of the arbiter: src/src/rbac/dynamic/arbiter.rs

    What the numbers of a verdict can be.  The dynamic layer is followed
    through histories over the in-memory trust store: every score stays in
    the unit interval, some requests are refused whatever the trust, and the
    ends of the trust scale - an unknown delegator, a lost store, a restored
    or a forged record - decide as computed here. *)

From Stdlib Require Import Floats.SpecFloat.
From S2P Require Import Prelude Float64 Domain Trust Anomaly Policy Arbiter.
From S2P Require AuditLog.

(** ** Sub-scores in the unit interval *)

Record sub_scores_ok (s : SubScores) : Prop := {
  ok_delegator_weight : in_unit (delegator_weight s);
  ok_trust_penalty : in_unit (trust_penalty s);
  ok_sensitivity : in_unit (sensitivity s);
  ok_domain_mismatch : in_unit (domain_mismatch s);
  ok_anomaly : in_unit (anomaly s);
}.

Definition weights_ok (p : DynamicPolicy) : Prop := Forall in_unit (weights_list p).

Lemma weight_of_unit t : in_unit (weight_of t).
Proof. destruct t; split_and!; by vm_compute. Qed.
Lemma base_weight_unit c : in_unit (base_weight c).
Proof. destruct c; split_and!; by vm_compute. Qed.
Lemma excess_weight_unit s c path : in_unit (excess_weight (Domain.evaluate s c path)).
Proof. unfold Domain.evaluate. repeat case_match; split_and!; by vm_compute. Qed.

Lemma trust_penalty_unit t : trust_ok t → in_unit (trust_penalty_of t).
Proof.
  intros Ht. unfold trust_penalty_of. apply clamp_unit, finite_well_formed, unit_finite, one_minus_unit.
  by apply weighted_unit.
Qed.

Lemma floor_penalty_unit s t penalty :
  is_f64 (trust_floor (current_task_domain s)) → trust_ok t → in_unit penalty →
  in_unit (floor_penalty s t penalty).
Proof.
  intros Hf Ht Hp. unfold floor_penalty. destruct (SFltb f64_zero _) eqn:Hpos; [|done]. case_match; [|done].
  apply min_unit; [|exact one_unit]. apply add_nonneg; [by apply unit_nonneg|].
  apply unit_nonneg, clamp_unit, sub_well_formed; [|apply unit_finite, weighted_unit, Ht].
  by destruct (is_f64_cases _ Hf) as [Hnan|Hwf]; [rewrite Hnan in Hpos|split; [|destruct (trust_floor _) as [[]|[]| |[]]]].
Qed.

Lemma raw_risk_nonneg p s : weights_ok p → sub_scores_ok s → nonneg (raw_risk p s).
Proof.
  unfold weights_ok, weights_list, raw_risk. destruct (dimension_weights p) as [[[[w0 w1] w2] w3] w4].
  rewrite !Forall_cons, Forall_nil. intros (H0 & H1 & H2 & H3 & H4 & _) [].
  repeat apply add_nonneg; apply unit_nonneg; by apply mul_unit.
Qed.

Lemma risk_value_unit p s : weights_ok p → sub_scores_ok s → in_unit (risk_value (score_of p s)).
Proof. intros Hw Hs. apply clamp_unit. apply (raw_risk_nonneg p s Hw Hs). Qed.

(** A weight that passes the range test is in the unit interval. *)
Lemma range_test_unit w : is_f64 w → SFleb f64_zero w = true → SFleb w f64_one = true → in_unit w.
Proof. intros Hw H0 H1. split_and!; [|done|done]. destruct w as [[]|[]| |[]]; done. Qed.

Lemma validated_weights display p : Forall is_f64 (weights_list p) →
  validate display p = Ok tt → weights_ok p.
Proof.
  intros Hf (_ & Hr & _)%(proj1 (validate_spec_iff display p)). unfold weights_ok.
  rewrite Forall_forall in *. intros w Hw. destruct (Hr w Hw). by apply range_test_unit; auto.
Qed.

Lemma default_weights : weights_ok default_dynamic_policy.
Proof. unfold weights_ok. repeat constructor; by vm_compute. Qed.

(** ** The invariant of a history *)

Section Histories.
Context {Sk V : Type} `{AuditLog.AuditSink Sk} `{HashOrder}.
Context (min_date : Z) (engine_sink : Sk → option Sk) (display : f64 → string).
#[local] Abbreviation arbiter := (AuthorizationArbiter InMemoryTrustScoreStore Sk).
Implicit Types (a : arbiter) (r : ActionRequest V).
#[local] Abbreviation arb_step := (arb_step min_date engine_sink display).
#[local] Abbreviation arb_run := (arb_run min_date engine_sink display).

Definition scope_ok (s : DomainScope) : Prop := is_f64 (trust_floor (current_task_domain s)).

Record arb_ok a : Prop := {
  arb_trust : map_Forall (λ _ t, trust_ok t) (scores (trust_store a));
  arb_detectors : map_Forall (λ _ d, detector_ok d) (detectors a);
  arb_scope : from_option scope_ok True (domain_scope a);
  arb_weights : weights_ok (policy a);
}.

(** The numbers an operation brings are machine numbers; a deviation is not
    negative, an interval is a [Duration]. *)
Definition op_ok (op : arb_op (V := V)) : Prop :=
  match op with
  | OpFeedback _ (Anomalous deviation) _ => nonneg deviation
  | OpSetPolicy p => Forall is_f64 (weights_list p)
  | OpSetScope s => scope_ok s
  | OpDecay interval _ => (0 ≤ interval < u64_modulus * nanos_per_sec)%Z
  | _ => True
  end.

Lemma trust_for_ok a id now : arb_ok a → trust_ok (trust_for a id now).
Proof.
  intros Ha. unfold trust_for. cbn [trust_get memory_trust_store mem_get].
  destruct (scores (trust_store a) !! id) eqn:Ht; [by apply (arb_trust a Ha id)|apply default_ok].
Qed.

Lemma detector_for_ok a id : arb_ok a → detector_ok (default AnomalyDetector_default (detectors a !! id)).
Proof.
  intros Ha. destruct (detectors a !! id) eqn:Hd; [by apply (arb_detectors a Ha id)|].
  by split; [apply map_Forall_empty|].
Qed.

Lemma anomaly_part_ok a r : arb_ok a →
  in_unit (anomaly_part a r).1 ∧ map_Forall (λ _ d, detector_ok d) (anomaly_part a r).2.
Proof.
  intros Ha. unfold anomaly_part. case_match; [split; [split_and!; by vm_compute|apply Ha]|].
  pose proof (detector_for_ok a (delegator_id (delegator r)) Ha) as Hd.
  pose proof (observe_unit _ r Hd) as Hu. apply (observe_ok _ r) in Hd.
  destruct (observe _ r) as [s d]. split; [exact Hu|]. apply map_Forall_insert_2; [exact Hd|apply Ha].
Qed.

Lemma sub_scores_unit a r now : arb_ok a → sub_scores_ok (sub_scores_of a r now).
Proof.
  intros Ha. unfold sub_scores_of. pose proof (trust_for_ok a (delegator_id (delegator r)) now Ha) as Ht.
  pose proof (trust_penalty_unit _ Ht) as Hp.
  assert (Hd : let '(m, p) := domain_part (domain_scope a) r (trust_for a (delegator_id (delegator r)) now)
                 (trust_penalty_of (trust_for a (delegator_id (delegator r)) now)) in in_unit m ∧ in_unit p).
  { pose proof (arb_scope a Ha) as Hs. unfold domain_part. destruct (domain_scope a) as [s|]; [|by split].
    split; [apply excess_weight_unit|by apply floor_penalty_unit]. }
  destruct (domain_part _ _ _ _) as [m p]. destruct Hd as [Hm Hp'].
  constructor; cbn; [apply weight_of_unit|done|apply base_weight_unit|done|by apply anomaly_part_ok].
Qed.

Lemma apply_outcome_ok t o now :
  trust_ok t → (match o with Anomalous d => nonneg d | _ => True end) → trust_ok (apply_outcome t o now).
Proof.
  intros Ht Ho. destruct o.
  - exact (compliant_ok t (lit 5 10) now Ht (unit_nonneg _ (lit_unit 5 10 eq_refl eq_refl eq_refl))).
  - exact (violation_ok t (lit 2 10) now Ht (unit_nonneg _ (lit_unit 2 10 eq_refl eq_refl eq_refl))).
  - exact (violation_ok t (lit 8 10) now Ht (unit_nonneg _ (lit_unit 8 10 eq_refl eq_refl eq_refl))).
  - exact (violation_ok t deviation now Ht Ho).
Qed.

Lemma lockdown_trust_ok now : trust_ok (lockdown_trust now).
Proof. exact (Build_trust_ok (lockdown_trust now) zero_unit one_unit default_rate_ok). Qed.

Lemma target_trust_nonneg l : nonneg (target_trust l).
Proof. destruct l; apply unit_nonneg; split_and!; by vm_compute. Qed.

Lemma restored_trust_ok l now : trust_ok (restored_trust l now).
Proof.
  refine (Build_trust_ok (restored_trust l now) _ _ default_rate_ok).
  - apply clamp_unit, target_trust_nonneg.
  - split_and!; by vm_compute.
Qed.

Lemma set_trust_ok a id t : arb_ok a → trust_ok t → arb_ok (set_trust a id t).
Proof. intros [Ht Hd Hs Hw] Hok. constructor; [by apply map_Forall_insert_2|done..]. Qed.

Lemma authorize_ok a r now : arb_ok a → arb_ok (authorize min_date engine_sink a r now).2.
Proof.
  intros Ha. pose proof (anomaly_part_ok a r Ha) as [_ Hd]. destruct Ha as [Ht Hd' Hs Hw].
  unfold authorize, returned, risk_score. case_bool_decide; cbn [snd];
    match goal with |- arb_ok (log_verdict _ _ ?a ?v _ _).2 =>
      destruct (log_verdict_state min_date engine_sink a v r now) as [o ->] end; by constructor.
Qed.

Lemma decay_tick_ok a interval clock :
  (0 ≤ interval < u64_modulus * nanos_per_sec)%Z → arb_ok a → arb_ok (decay_tick a interval clock).
Proof.
  intros Hi [Ht Hd Hs Hw]. constructor; [|done..]. unfold decay_tick. cbn [trust_store with_store].
  destruct (run_once_memory (spawn_resilient interval) clock (trust_store a)) as (st & -> & Hst). cbn [snd].
  intros id t. rewrite Hst. intros (t0 & Ht0 & ->)%fmap_Some_1. apply degrade_ok; [by apply (Ht id)|done].
Qed.

Lemma step_ok a op : op_ok op → arb_ok a → arb_ok (arb_step a op).
Proof.
  intros Hop Ha. destruct op; cbn [Arbiter.arb_step op_ok] in *.
  - by apply authorize_ok.
  - pose proof (anomaly_part_ok a r Ha) as [_ Hd]. destruct Ha. by constructor.
  - apply set_trust_ok; [done|]. apply apply_outcome_ok; [|by destruct o].
    cbn [trust_get memory_trust_store mem_get]. destruct (scores _ !! _) eqn:Ht; [by apply (arb_trust a Ha _ _ Ht)|apply default_ok].
  - apply set_trust_ok; [|apply lockdown_trust_ok]. by destruct Ha.
  - destruct (set_trust_ok (with_frozen a (frozen a ∖ {[id]})) id (restored_trust target now)) as [Ht Hd Hs Hw];
      [by destruct Ha|apply restored_trust_ok|].
    constructor; [exact Ht|by apply map_Forall_delete, Hd|exact Hs|exact Hw].
  - unfold set_policy. pose proof (validated_weights display p Hop) as Hw. destruct (validate display p) as [[]|]; [|done].
    destruct Ha. constructor; [done..|]. by apply Hw.
  - by destruct Ha.
  - by apply decay_tick_ok.
Qed.

Lemma run_ok a ops : Forall op_ok ops → arb_ok a → arb_ok (arb_run a ops).
Proof. intros Hops. revert a. induction Hops as [|op ops Hop _ IH]; intros a Ha; [done|]. by apply IH, step_ok. Qed.

Lemma arb_history_ok (st : InMemoryTrustScoreStore) p max ops :
  map_Forall (λ _ t, trust_ok t) (scores st) → weights_ok p → Forall op_ok ops →
  arb_ok (arb_run (with_max_detectors (new st p) max) ops).
Proof. intros Hst Hp Hops. apply run_ok; [done|]. constructor; [done|apply map_Forall_empty|done..]. Qed.

(** C17: Scores are in the unit interval.  From a new arbiter with weights in
    the unit interval over a store of well-formed records, after any history
    of authorizations, feedback, lockdowns, restores, policies, scopes and
    decay - the deviations reported not negative, every other number any
    machine number - all five sub-scores and the risk of every request lie in
    the unit interval, and every trust record is still well formed: value
    and confidence in the unit interval. *)
Theorem scores_in_unit (st : InMemoryTrustScoreStore) p max ops r now :
  map_Forall (λ _ t, trust_ok t) (scores st) → weights_ok p → Forall op_ok ops →
  let a := arb_run (with_max_detectors (new st p) max) ops in
  sub_scores_ok (sub_scores_of a r now) ∧ in_unit (risk_value (risk_score a r now).1) ∧
  map_Forall (λ _ t, trust_ok t) (scores (trust_store a)).
Proof.
  intros Hst Hp Hops a. pose proof (arb_history_ok st p max ops Hst Hp Hops) as Ha. fold a in Ha.
  pose proof (sub_scores_unit a r now Ha) as Hs.
  split_and!; [exact Hs|apply risk_value_unit; [apply Ha|exact Hs]|apply Ha].
Qed.
End Histories.

(** ** Lower bounds *)

(** A number, possibly infinite, at or above a bound. *)
Definition at_least (b x : f64) : Prop := nonneg x ∧ SFleb b x = true.

Lemma at_least_add b1 b2 b x y : is_finite b1 = true → is_finite b2 = true → is_finite b = true →
  (sv b ≤ sv b1 + sv b2)%Z → at_least b1 x → at_least b2 y → at_least b (f64_add x y).
Proof.
  intros Hb1 Hb2 Hb Hle [Hx Hbx] [Hy Hby]. split; [by apply add_nonneg|].
  destruct (nonneg_cases x Hx) as [->|[Hfx ?]], (nonneg_cases y Hy) as [->|[Hfy ?]].
  - by destruct b.
  - destruct y as [| | |[]]; by destruct b.
  - destruct x as [| | |[]]; by destruct b.
  - destruct (add_rounds x y Hfx Hfy) as [_ Hr]. apply (Hr b Hb).
    rewrite leb_sv in Hbx, Hby by done. apply Z.leb_le in Hbx, Hby. rewrite Z.mul_1_r. lia.
Qed.

Lemma at_least_zero x : nonneg x → at_least f64_zero x.
Proof. intros Hx. split; [done|apply Hx]. Qed.

Lemma compare_positive x p k : SFcompare x (S754_finite false p k) = Some Eq → x = S754_finite false p k.
Proof.
  destruct x as [[]|[]| |[] m e]; try done. cbn [SFcompare].
  destruct (Z.compare_spec e k) as [->|?|?]; [|done|done]. intros [= Hm].
  by apply Pos.compare_eq in Hm as ->.
Qed.

Lemma one_plus x : nonneg x → f64_min (f64_add f64_one x) f64_one = f64_one.
Proof.
  intros Hx. destruct (at_least_add f64_one f64_zero f64_one f64_one x) as [Hsum Hle]; [done..| | |by apply at_least_zero|].
  { simpl (sv f64_zero). lia. }
  { split; [apply unit_nonneg, one_unit|done]. }
  destruct (nonneg_cases _ Hsum) as [->|[Hf _]]; [done|].
  unfold f64_min. rewrite eqb_refl by done. destruct (SFltb f64_one _) eqn:Hlt; [done|].
  apply compare_positive. fold f64_one. rewrite compare_sv by done. rewrite ltb_sv in Hlt by done. rewrite leb_sv in Hle by done.
  apply Z.leb_le in Hle. apply Z.ltb_ge in Hlt. f_equal. apply Z.compare_eq_iff. lia.
Qed.

Lemma at_least_clamp b x : is_finite b = true → SFleb b f64_one = true → at_least b x →
  SFltb (f64_clamp x f64_zero f64_one) b = false.
Proof.
  intros Hb H1 [Hx Hbx]. assert (Hle : ∀ y, is_finite y = true → SFleb b y = true → SFltb y b = false).
  { intros y Hy. rewrite leb_sv, ltb_sv by done. rewrite Z.leb_le, Z.ltb_ge. lia. }
  destruct (nonneg_cases x Hx) as [->|[Hfx ?]].
  - change (f64_clamp (S754_infinity false) f64_zero f64_one) with f64_one. by apply Hle.
  - unfold f64_clamp. rewrite (ltb_sv x) by done. replace (sv x <? sv f64_zero)%Z with false.
    + case_match; by apply Hle.
    + symmetry. apply Z.ltb_ge. simpl (sv f64_zero). lia.
Qed.

(** The share of the sensitivity alone. *)
Definition sensitive_share : f64 := f64_mul (lit 9 10) (lit 25 100).
Definition mismatch_share : f64 := f64_mul (lit 6 10) (lit 25 100).

Lemma shares_reach_threshold :
  SFleb sensitive_share (f64_mul f64_one (lit 25 100)) = true ∧
  (sv (lit 35 100) <=? sv sensitive_share + sv mismatch_share)%Z = true.
Proof. split; by vm_compute. Qed.

(** The two most sensitive categories, out of every domain, reach the
    threshold of the default policy on their own. *)
Lemma sensitive_mismatch_denied s : sub_scores_ok s →
  sensitivity s ∈ [lit 9 10; f64_one] → domain_mismatch s = OUT_OF_DOMAIN_WEIGHT →
  level_allows (map_to_level default_dynamic_policy (risk_value (score_of default_dynamic_policy s))) = false.
Proof.
  intros Hs Hsens Hmis. pose proof (risk_value_unit _ s default_weights Hs) as Hu.
  rewrite (proj2 (default_level _ Hu)). cbn [risk_value score_of].
  apply at_least_clamp; [done|by vm_compute|]. unfold raw_risk. cbn [dimension_weights default_dynamic_policy].
  destruct shares_reach_threshold as [Hmono Hsum%Z.leb_le]. rewrite Hmis.
  assert (Hw1 := lit_unit 10 100 eq_refl eq_refl eq_refl). assert (Hw3 := lit_unit 30 100 eq_refl eq_refl eq_refl).
  apply (at_least_add (lit 35 100) f64_zero); [done..|simpl (sv f64_zero); lia| |].
  2:{ apply at_least_zero, unit_nonneg. exact (mul_unit _ _ (ok_anomaly _ Hs) Hw1). }
  apply (at_least_add sensitive_share mismatch_share); [by vm_compute..|done|exact Hsum| |].
  2:{ split; [apply unit_nonneg; split_and!; by vm_compute|by vm_compute]. }
  apply (at_least_add f64_zero sensitive_share); [done|by vm_compute|by vm_compute|done| |].
  - apply at_least_zero, add_nonneg; apply unit_nonneg.
    + exact (mul_unit _ _ (ok_delegator_weight _ Hs) Hw1).
    + exact (mul_unit _ _ (ok_trust_penalty _ Hs) Hw3).
  - rewrite !elem_of_cons, elem_of_nil in Hsens. destruct Hsens as [->|[->|[]]];
      (split; [apply unit_nonneg; split_and!; by vm_compute|]); [by vm_compute|exact Hmono].
Qed.

Lemma evaluate_out s c path :
  grants_category (current_task_domain s) c = false →
  Forall (λ d, grants_category d c = false) (adjacent_domains s) →
  Domain.evaluate s c path = OutOfDomain OUT_OF_DOMAIN_WEIGHT.
Proof.
  intros Hc Hadj. unfold Domain.evaluate. rewrite Hc. cbn [andb].
  replace (existsb _ _) with false; [done|]. symmetry. apply existsb_not. by apply Forall_forall.
Qed.

Section OutOfDomain.
Context {Sk V : Type} `{AuditLog.AuditSink Sk} `{HashOrder}.
Context (min_date : Z) (engine_sink : Sk → option Sk) (display : f64 → string).

(** C18: No trust buys the most sensitive actions out of domain.  After any
    history, with the default policy and a scope in force, a container
    lifecycle or privileged request whose category neither the current domain
    nor an adjacent one grants is denied - fully trusted human included.  The
    history starts from well-formed records and weights and brings machine
    numbers ([op_ok]). *)
Theorem sensitive_out_of_domain_denied (st : InMemoryTrustScoreStore) p max (ops : list (arb_op (V := V))) (r : ActionRequest V) s now v :
  map_Forall (λ _ t, trust_ok t) (scores st) → weights_ok p → Forall op_ok ops →
  let a := arb_run min_date engine_sink display (with_max_detectors (new st p) max) ops in
  policy a = default_dynamic_policy → domain_scope a = Some s →
  category r ∈ [ContainerLifecycle; PrivilegedOp] →
  grants_category (current_task_domain s) (category r) = false →
  Forall (λ d, grants_category d (category r) = false) (adjacent_domains s) →
  (authorize min_date engine_sink a r now).1 = Some v → allowed v = false.
Proof.
  intros Hst Hp Hops a Hpol Hscope Hcat Hcur Hadj ->%authorize_verdict. case_bool_decide; [done|].
  pose proof (arb_history_ok min_date engine_sink display st p max ops Hst Hp Hops) as Ha. fold a in Ha.
  pose proof (sub_scores_unit a r now Ha) as Hs. cbn [allowed decide_risk]. rewrite Hpol.
  apply sensitive_mismatch_denied; [exact Hs| |].
  - unfold sub_scores_of. destruct (domain_part _ _ _ _). cbn [sensitivity].
    rewrite !elem_of_cons, elem_of_nil in Hcat. destruct Hcat as [->|[->|[]]]; [by left|by right; left].
  - unfold sub_scores_of, domain_part. rewrite Hscope, evaluate_out by done. reflexivity.
Qed.
End OutOfDomain.

(** ** Ends of the scale *)

(** What the default policy decides on some sub-scores, no scope installed. *)
Definition default_allows (t : DelegatorType) (c : ActionCategory) (penalty anomaly : f64) : bool :=
  level_allows (map_to_level default_dynamic_policy (risk_value (score_of default_dynamic_policy {|
    delegator_weight := weight_of t; trust_penalty := penalty; sensitivity := base_weight c;
    domain_mismatch := f64_zero; anomaly := anomaly |}))).

Section Ends.
Context {TS Sk V : Type} `{TrustScoreStore TS} `{AuditLog.AuditSink Sk} `{HashOrder}.
Context (min_date : Z) (engine_sink : Sk → option Sk).
Implicit Types (a : AuthorizationArbiter TS Sk) (r : ActionRequest V).

Lemma cold_score r : score_value (observe AnomalyDetector_default r).1 = lit 1 10.
Proof.
  unfold observe. assert (Hcold : is_baseline_ready (recompute_profile (remember AnomalyDetector_default (record_of r))) = false)
    by reflexivity.
  rewrite Hcold. cbn [andb]. by rewrite Hcold.
Qed.

Lemma cold_anomaly a r : detectors a !! delegator_id (delegator r) = None →
  (anomaly_part a r).1 = lit 1 10 ∨ (anomaly_part a r).1 = lit 15 100.
Proof.
  intros Hd. unfold anomaly_part. rewrite Hd. case_match; [by right|left]. cbn [default from_option].
  pose proof (cold_score r) as Hs. by destruct (observe AnomalyDetector_default r).
Qed.

Lemma decide_default a r now v penalty :
  policy a = default_dynamic_policy → domain_scope a = None →
  delegator_id (delegator r) ∉ frozen a →
  trust_penalty_of (trust_for a (delegator_id (delegator r)) now) = penalty →
  (authorize min_date engine_sink a r now).1 = Some v →
  allowed v = default_allows (delegator_type (delegator r)) (category r) penalty (anomaly_part a r).1.
Proof.
  intros Hp Hs Hf <- ->%authorize_verdict. rewrite bool_decide_false by done. rewrite Hp.
  unfold sub_scores_of. rewrite Hs. reflexivity.
Qed.

(** Cold start.  A delegator without a trust record and without a
    detector, under the default policy and no scope, may do exactly one kind
    of thing: read, if it is a human, an agent or a scheduler.  Everything
    else is denied until trust has been earned. *)
Theorem cold_start_allows_reads a r now v :
  policy a = default_dynamic_policy → domain_scope a = None →
  delegator_id (delegator r) ∉ frozen a →
  trust_get (trust_store a) (delegator_id (delegator r)) = Ok None →
  detectors a !! delegator_id (delegator r) = None →
  (authorize min_date engine_sink a r now).1 = Some v →
  allowed v = bool_decide (category r = ReadOnly) &&
    match delegator_type (delegator r) with Human | Agent | Scheduler => true | _ => false end.
Proof.
  intros Hp Hs Hf Ht Hd Hv. rewrite (decide_default a r now v f64_one Hp Hs Hf); [ | |exact Hv].
  - destruct (cold_anomaly a r Hd) as [->| ->]; by destruct (delegator_type (delegator r)), (category r); vm_compute.
  - unfold trust_for. rewrite Ht. reflexivity.
Qed.

(** C39: A failing store never helps.  When the store cannot answer, the
    request is scored exactly as for a delegator nobody knows, with the
    full trust penalty, whatever the scope; the summary says so with
    [trust_store_ok] false; and feedback starts from a fresh record, so one
    success after an outage forgets the trust earned before. *)
Theorem store_outage_is_no_trust a st r now e :
  trust_get (trust_store a) (delegator_id (delegator r)) = Err e →
  trust_get st (delegator_id (delegator r)) = Ok None →
  from_option (λ s, is_f64 (trust_floor (current_task_domain s))) True (domain_scope a) →
  sub_scores_of a r now = sub_scores_of (with_store a st) r now ∧
  trust_penalty (sub_scores_of a r now) = f64_one ∧
  trust_store_ok (status_summary a (delegator_id (delegator r)) now) = false ∧
  trust_score (status_summary a (delegator_id (delegator r)) now) = f64_zero ∧
  ∀ o, trust_store (feedback a r o now) =
    (trust_set (trust_store a) (delegator_id (delegator r)) (apply_outcome (TrustScore_default now) o now)).2.
Proof.
  intros He Hn Hs.
  assert (Hp : trust_penalty (sub_scores_of a r now) = f64_one ∧ sub_scores_of a r now = sub_scores_of (with_store a st) r now).
  { unfold sub_scores_of, trust_for. cbn [trust_store domain_scope with_store]. rewrite He, Hn.
    change (anomaly_part (with_store a st) r) with (anomaly_part a r).
    set (out := {| value := f64_zero; confidence := f64_one; evidence_count := _; last_updated := _; degradation_rate := _ |}).
    change (trust_penalty_of out) with f64_one. change (trust_penalty_of (TrustScore_default now)) with f64_one.
    unfold domain_part. destruct (domain_scope a) as [s|]; [|done]. cbn [from_option] in Hs.
    cbn [trust_penalty]. unfold floor_penalty. change (weighted out) with f64_zero.
    change (weighted (TrustScore_default now)) with f64_zero. split; [|done]. 
    repeat case_match; try done. apply one_plus, unit_nonneg, clamp_unit, sub_well_formed; [|done].
    by destruct (is_f64_cases _ Hs) as [Hnan|Hwf]; [rewrite Hnan in *|split; [|destruct (trust_floor _) as [[]|[]| |[]]]]. }
  destruct Hp as [Hp Heq]. split_and!; [exact Heq|exact Hp| | |].
  - unfold status_summary. rewrite He. reflexivity.
  - unfold status_summary. rewrite He. reflexivity.
  - intros o. unfold feedback, set_trust. rewrite He. reflexivity.
Qed.
End Ends.

(** ** Restored and forged trust *)

Section Trusted.
Context {Sk V : Type} `{AuditLog.AuditSink Sk} `{HashOrder}.
Context (min_date : Z) (engine_sink : Sk → option Sk).
Implicit Types (a : AuthorizationArbiter InMemoryTrustScoreStore Sk) (r : ActionRequest V).

(** The three kinds of delegator a cold start lets read. *)
Definition trusted_type (t : DelegatorType) : bool :=
  match t with Human | Agent | Scheduler => true | _ => false end.

Lemma feedback_memory a r o now :
  feedback a r o now = set_trust a (delegator_id (delegator r))
    (apply_outcome (default (TrustScore_default now) (scores (trust_store a) !! delegator_id (delegator r))) o now).
Proof. unfold feedback. cbn [trust_get memory_trust_store mem_get]. by destruct (scores (trust_store a) !! _). Qed.

Lemma restore_memory a id l t : let a' := restore a id l t in
  (id ∉ frozen a') ∧ detectors a' !! id = None ∧ scores (trust_store a') !! id = Some (restored_trust l t).
Proof.
  unfold restore, set_trust, with_store, with_frozen.
  cbn [trust_store trust_set memory_trust_store mem_set scores snd frozen detectors with_detectors].
  split_and!; [set_solver|apply lookup_delete_eq|apply lookup_insert_eq].
Qed.

(** The decisions on an unobserved delegator of a trusted type, all reads
    and nothing else or everything. *)
Lemma decide_known a r t now v (table : ActionCategory → bool) :
  policy a = default_dynamic_policy → domain_scope a = None → delegator_id (delegator r) ∉ frozen a →
  detectors a !! delegator_id (delegator r) = None → trusted_type (delegator_type (delegator r)) = true →
  scores (trust_store a) !! delegator_id (delegator r) = Some t →
  (∀ ty c an, trusted_type ty = true → an = lit 1 10 ∨ an = lit 15 100 →
     default_allows ty c (trust_penalty_of t) an = table c) →
  (authorize min_date engine_sink a r now).1 = Some v →
  allowed v = table (category r).
Proof.
  intros Hp Hs Hf Hd Hty Ht Htable Hv. rewrite (decide_default min_date engine_sink a r now v _ Hp Hs Hf eq_refl Hv).
  replace (trust_for a (delegator_id (delegator r)) now) with t.
  - apply Htable; [done|]. by apply cold_anomaly.
  - unfold trust_for. cbn [trust_get memory_trust_store mem_get]. by rewrite Ht.
Qed.

Definition reads_only (c : ActionCategory) : bool := match c with ReadOnly => true | _ => false end.
Definition anything (c : ActionCategory) : bool := true.

(** The decision tables, computed. *)
#[local] Ltac table := intros ty c an Htype [->| ->]; destruct ty, c; try discriminate Htype; vm_compute; reflexivity.

(** Restore is a reprieve.  Right after [restore] to L4 a human, an agent
    or a scheduler may do anything the default policy knows, a privileged
    operation included; after one reported success it may only read, because
    the seeded confidence is recomputed from ten observations.  [restore] to
    L0 freezes nobody: it lifts the lockdown, and reading is allowed. *)
Theorem restore_is_a_reprieve a r target t1 t2 now v v0 v' :
  policy a = default_dynamic_policy → domain_scope a = None → trusted_type (delegator_type (delegator r)) = true →
  let id := delegator_id (delegator r) in
  let restored := restore a id L4FullAutonomy t1 in
  (authorize min_date engine_sink restored r now).1 = Some v →
  (authorize min_date engine_sink (restore a id L0Frozen t1) r now).1 = Some v0 →
  (authorize min_date engine_sink (feedback restored r Success t2) r now).1 = Some v' →
  (id ∉ frozen (restore a id target t1)) ∧ detectors (restore a id target t1) !! id = None ∧
  allowed v = true ∧ allowed v0 = reads_only (category r) ∧ allowed v' = reads_only (category r).
Proof.
  intros Hp Hs Hty id restored Hv Hv0 Hv'.
  destruct (restore_memory a id target t1) as (Hf & Hd & _).
  destruct (restore_memory a id L4FullAutonomy t1) as (Hf4 & Hd4 & Ht4).
  destruct (restore_memory a id L0Frozen t1) as (Hf0 & Hd0 & Ht0).
  split_and!; [exact Hf|exact Hd| | |].
  - refine (decide_known restored r _ now v anything Hp Hs Hf4 Hd4 Hty Ht4 _ Hv). table.
  - refine (decide_known (restore a id L0Frozen t1) r _ now v0 reads_only Hp Hs Hf0 Hd0 Hty Ht0 _ Hv0). table.
  - rewrite feedback_memory in Hv'. fold id restored in Ht4, Hv'. rewrite Ht4 in Hv'. cbn [default from_option] in Hv'.
    refine (decide_known (set_trust restored id _) r _ now v' reads_only Hp Hs Hf4 Hd4 Hty (lookup_insert_eq _ _ _) _ Hv'). table.
Qed.

(** Forged deviations.  The deviation of an [Anomalous] outcome is not
    checked: a single report with deviation -1000 turns an unknown human,
    agent or scheduler, who may only read, into one who may do anything,
    privileged operations included. *)
Theorem forged_deviation_grants_everything a r t now v v' :
  policy a = default_dynamic_policy → domain_scope a = None → trusted_type (delegator_type (delegator r)) = true →
  let id := delegator_id (delegator r) in
  id ∉ frozen a → detectors a !! id = None → scores (trust_store a) !! id = None →
  (authorize min_date engine_sink a r now).1 = Some v →
  (authorize min_date engine_sink (feedback a r (Anomalous (f64_of_Z (-1000))) t) r now).1 = Some v' →
  allowed v = reads_only (category r) ∧ allowed v' = true.
Proof.
  intros Hp Hs Hty id Hf Hd Ht Hv Hv'. split.
  - rewrite (decide_default min_date engine_sink a r now v f64_one Hp Hs Hf); [ | |exact Hv].
    + revert Hty. generalize (category r) (delegator_type (delegator r)). intros c ty Hty.
      destruct (cold_anomaly a r Hd) as [->| ->]; destruct ty, c; try discriminate Hty; vm_compute; reflexivity.
    + unfold trust_for. cbn [trust_get memory_trust_store mem_get]. fold id. rewrite Ht. reflexivity.
  - rewrite feedback_memory in Hv'. fold id in Hv'. rewrite Ht in Hv'. cbn [default from_option] in Hv'.
    refine (decide_known (set_trust a id _) r _ now v' anything Hp Hs Hf Hd Hty (lookup_insert_eq _ _ _) _ Hv'). table.
Qed.
End Trusted.

Section ScoreWitnesses.
#[local] Instance entry_order : HashOrder := {| iter m := map_to_list m; iter_perm m := reflexivity _ |}.
#[local] Existing Instance AuditLog.mem_audit_sink.
#[local] Abbreviation sink := AuditLog.InMemoryAuditSink.
#[local] Abbreviation auth := (authorize (Sk := sink) (V := unit) 0 Some).

Definition a0 : AuthorizationArbiter InMemoryTrustScoreStore sink := new InMemoryTrustScoreStore_new default_dynamic_policy.
Definition agent_asks (c : ActionCategory) : ActionRequest unit := request_simple (delegator_agent "bot" "#1") "act" c 0.
Definition verdict_on (a : AuthorizationArbiter InMemoryTrustScoreStore sink) (c : ActionCategory) : AuthorizationVerdict :=
  default (frozen_verdict (agent_asks c) 0) (auth a (agent_asks c) 5).1.

Lemma not_frozen : delegator_id (delegator (agent_asks ReadOnly)) ∉ frozen a0.
Proof. by apply not_elem_of_empty. Qed.

Lemma scores_in_unit_witness :
  let ops := [OpFeedback (agent_asks ReadOnly) (Anomalous f64_one) 1; OpAuthorize (agent_asks FileWrite) 2] in
  let a := arb_run 0 Some (λ _, "") (with_max_detectors a0 7) ops in
  sub_scores_ok (sub_scores_of a (agent_asks ReadOnly) 5).
Proof.
  intros ops a.
  refine (proj1 (scores_in_unit 0 Some (λ _, "") InMemoryTrustScoreStore_new default_dynamic_policy 7 ops
    (agent_asks ReadOnly) 5 _ default_weights _)); [apply map_Forall_empty|].
  constructor; [apply unit_nonneg, one_unit|]. by repeat constructor.
Defined.

(** A privileged request in a read-only domain, fully trusted. *)
Lemma sensitive_out_of_domain_denied_witness :
  let reading := DomainScope_single (TaskDomain_new "read" {[ReadOnly]} [] f64_zero) in
  let ops := [OpSetScope (V := unit) reading; OpRestore "bot" L4FullAutonomy 1] in
  let a := arb_run 0 Some (λ _, "") (with_max_detectors a0 7) ops in
  allowed (verdict_on a PrivilegedOp) = false ∧
  allowed (verdict_on (restore a0 "bot" L4FullAutonomy 1) PrivilegedOp) = true.
Proof.
  intros reading ops a. split; [|by vm_compute].
  refine (sensitive_out_of_domain_denied 0 Some (λ _, "") InMemoryTrustScoreStore_new default_dynamic_policy 7 ops
    (agent_asks PrivilegedOp) reading 5 (verdict_on a PrivilegedOp) _ default_weights _ eq_refl eq_refl _ _ _ _).
  - apply map_Forall_empty.
  - by repeat constructor.
  - right. left.
  - by vm_compute.
  - constructor.
  - by vm_compute.
Defined.

Lemma cold_start_allows_reads_witness :
  allowed (verdict_on a0 ReadOnly) = true ∧ allowed (verdict_on a0 StateWrite) = false.
Proof.
  split.
  - refine (cold_start_allows_reads 0 Some a0 (agent_asks ReadOnly) 5 (verdict_on a0 ReadOnly)
      eq_refl eq_refl not_frozen eq_refl eq_refl _). by vm_compute.
  - refine (cold_start_allows_reads 0 Some a0 (agent_asks StateWrite) 5 (verdict_on a0 StateWrite)
      eq_refl eq_refl not_frozen eq_refl eq_refl _). by vm_compute.
Defined.

Section Outage.
(** A store that has lost its backend. *)
#[local] Instance lost_store : TrustScoreStore bool := {|
  trust_get := λ up _, if up : bool then Ok None else Err (Anyhow "down");
  trust_set := λ up _ _, (if up : bool then Ok tt else Err (Anyhow "down"), up);
  trust_delete := λ up _, (Ok tt, up);
  trust_list_ids := λ up, Ok [] |}.

Lemma store_outage_is_no_trust_witness :
  let a : AuthorizationArbiter bool sink := new false default_dynamic_policy in
  trust_penalty (sub_scores_of a (agent_asks ReadOnly) 5) = f64_one.
Proof.
  intros a.
  exact (proj1 (proj2 (store_outage_is_no_trust a true (agent_asks ReadOnly) 5 (Anyhow "down") eq_refl eq_refl I))).
Defined.
End Outage.

Lemma restore_is_a_reprieve_witness :
  let restored := restore a0 "bot" L4FullAutonomy 1 in
  allowed (verdict_on restored PrivilegedOp) = true ∧
  allowed (verdict_on (feedback restored (agent_asks PrivilegedOp) Success 2) PrivilegedOp) = false.
Proof.
  intros restored.
  destruct (restore_is_a_reprieve 0 Some a0 (agent_asks PrivilegedOp) L1Assisted 1 2 5 (verdict_on restored PrivilegedOp)
    (verdict_on (restore a0 "bot" L0Frozen 1) PrivilegedOp)
    (verdict_on (feedback restored (agent_asks PrivilegedOp) Success 2) PrivilegedOp) eq_refl eq_refl eq_refl)
    as (_ & _ & H1 & _ & H2); [by vm_compute..|]. exact (conj H1 H2).
Defined.

Lemma forged_deviation_grants_everything_witness :
  allowed (verdict_on a0 PrivilegedOp) = false ∧
  allowed (verdict_on (feedback a0 (agent_asks PrivilegedOp) (Anomalous (f64_of_Z (-1000))) 1) PrivilegedOp) = true.
Proof.
  refine (forged_deviation_grants_everything 0 Some a0 (agent_asks PrivilegedOp) 1 5 (verdict_on a0 PrivilegedOp) _
    eq_refl eq_refl eq_refl not_frozen eq_refl eq_refl _ _); by vm_compute.
Defined.
End ScoreWitnesses.
