(* ===== verification/ArbiterFlights.v ===== *)
(** * Authorizations in flight: src/src/rbac/dynamic/arbiter.rs between its awaits

    [Arbiter] takes an operation as one step.  Here [authorize],
    [risk_score], [feedback], [lockdown], [restore] and [set_policy] are cut
    at their awaits, and any number of calls run interleaved on one arbiter:

    - a phase is what a call has read so far; a step runs one call up to its
      next await, with a clock reading of its own;
    - the guards of the lockdown set, of the scope and of the detectors are
      released before the next await, so a section under one of them is one
      step.  The read guard of the policy is kept across awaits: by
      [risk_score] over its trust lookup, and by [authorize] from the verdict
      until the audit entry is written.  [set_policy] waits for both;
    - [sys_other] is everything else that may happen to the shared parts: a
      [set_domain_scope], a tick of the decay worker, another replica writing
      the trust store.  It leaves the lockdown set and the policy alone, and
      the installed policy changes in [set_policy] only. *)

From Stdlib Require Import Floats.SpecFloat.
From S2P Require Import Prelude Float64 Domain Trust Anomaly Policy Arbiter.
From S2P Require AuditLog.

(** ** Phases *)

(** One authorization; [PVerdict true] holds the policy, [PVerdict false] is
    the verdict of the lockdown path. *)
Inductive auth_phase :=
  | PStart
  | PUnfrozen
  | PScoring
  | PTrusted (t : TrustScore)
  | PScoped (mismatch penalty : f64)
  | PScored (risk : RiskScore)
  | PVerdict (scored : bool) (v : AuthorizationVerdict)
  | PDone (answer : option AuthorizationVerdict).

Inductive feedback_phase := FStart | FRead (t : TrustScore) | FDone.
Inductive lockdown_phase := LStart | LFrozen | LDone.
Inductive restore_phase := TStart | TThawed | TSeeded | TDone.
Inductive policy_phase := SStart | SValid | SInstalled | SRefused.

Section Flights.
Context {TS Sk V : Type} `{TrustScoreStore TS} `{AuditLog.AuditSink Sk} `{HashOrder}.
Context (min_date : Z) (engine_sink : Sk → option Sk) (display : f64 → string).
Abbreviation arbiter := (AuthorizationArbiter TS Sk).
Implicit Types (a : arbiter) (r : ActionRequest V).

(** [risk_score] from the policy guard to its release, over the reads made
    before. *)
Definition score_with a r (mismatch penalty : f64) : RiskScore * arbiter :=
  let '(s, ds) := anomaly_part a r in
  (score_of (policy a) {|
     delegator_weight := weight_of (delegator_type (delegator r));
     trust_penalty := penalty;
     sensitivity := base_weight (category r);
     domain_mismatch := mismatch;
     anomaly := s |},
   with_detectors a ds).

Definition authorize_step (ph : auth_phase) r a (now : Z) : auth_phase * arbiter :=
  match ph with
  | PStart =>
      if bool_decide (delegator_id (delegator r) ∈ frozen a) then (PVerdict false (frozen_verdict r now), a)
      else (PUnfrozen, a)
  | PUnfrozen => (PScoring, a)
  | PScoring => (PTrusted (trust_for a (delegator_id (delegator r)) now), a)
  | PTrusted t =>
      let '(mismatch, penalty) := domain_part (domain_scope a) r t (trust_penalty_of t) in
      (PScoped mismatch penalty, a)
  | PScoped mismatch penalty =>
      let '(risk, a) := score_with a r mismatch penalty in (PScored risk, a)
  | PScored risk => (PVerdict true (decide_risk (policy a) r risk now), a)
  | PVerdict _ v =>
      let '(ok, a) := log_verdict min_date engine_sink a v r now in (PDone (if ok then Some v else None), a)
  | PDone _ => (ph, a)
  end.

Definition feedback_step (ph : feedback_phase) r (o : ActionOutcome) a (now : Z)
    : feedback_phase * arbiter :=
  let id := delegator_id (delegator r) in
  match ph with
  | FStart =>
      (FRead match trust_get (trust_store a) id with
             | Ok (Some score) => score
             | _ => TrustScore_default now
             end, a)
  | FRead t => (FDone, set_trust a id (apply_outcome t o now))
  | FDone => (FDone, a)
  end.

Definition lockdown_step (ph : lockdown_phase) (id : string) a (now : Z) : lockdown_phase * arbiter :=
  match ph with
  | LStart => (LFrozen, with_frozen a ({[id]} ∪ frozen a))
  | LFrozen => (LDone, set_trust a id (lockdown_trust now))
  | LDone => (LDone, a)
  end.

Definition restore_step (ph : restore_phase) (id : string) (target : AutonomyLevel) a (now : Z)
    : restore_phase * arbiter :=
  match ph with
  | TStart => (TThawed, with_frozen a (frozen a ∖ {[id]}))
  | TThawed => (TSeeded, set_trust a id (restored_trust target now))
  | TSeeded => (TDone, with_detectors a (delete id (detectors a)))
  | TDone => (TDone, a)
  end.

Definition set_policy_step (ph : policy_phase) (p : DynamicPolicy) a : policy_phase * arbiter :=
  match ph with
  | SStart => (match validate display p with Ok _ => SValid | Err _ => SRefused end, a)
  | SValid => (SInstalled, with_policy a p)
  | SInstalled | SRefused => (ph, a)
  end.

(** ** The system *)

Inductive call :=
  | CAuthorize r (ph : auth_phase)
  | CFeedback r (o : ActionOutcome) (ph : feedback_phase)
  | CLockdown (id : string) (ph : lockdown_phase)
  | CRestore (id : string) (target : AutonomyLevel) (ph : restore_phase)
  | CSetPolicy (p : DynamicPolicy) (ph : policy_phase).

Definition begins (c : call) : bool :=
  match c with
  | CAuthorize _ PStart | CFeedback _ _ FStart | CLockdown _ LStart
  | CRestore _ _ TStart | CSetPolicy _ SStart => true
  | _ => false
  end.

(** The call holds the read guard of the policy. *)
Definition holds_policy (c : call) : bool :=
  match c with
  | CAuthorize _ (PScoring | PTrusted _ | PScoped _ _ | PVerdict true _) => true
  | _ => false
  end.
Definition policy_free (calls : gmap nat call) : Prop :=
  ∀ t c, calls !! t = Some c → holds_policy c = false.

(** A validated policy is installed under the write guard, which waits for
    every reader. *)
Definition may_run (calls : gmap nat call) (c : call) : Prop :=
  match c with
  | CSetPolicy _ SValid => policy_free calls
  | _ => True
  end.

Definition call_step (c : call) a (now : Z) : call * arbiter :=
  match c with
  | CAuthorize r ph => let '(ph, a) := authorize_step ph r a now in (CAuthorize r ph, a)
  | CFeedback r o ph => let '(ph, a) := feedback_step ph r o a now in (CFeedback r o ph, a)
  | CLockdown id ph => let '(ph, a) := lockdown_step ph id a now in (CLockdown id ph, a)
  | CRestore id l ph => let '(ph, a) := restore_step ph id l a now in (CRestore id l ph, a)
  | CSetPolicy p ph => let '(ph, a) := set_policy_step ph p a in (CSetPolicy p ph, a)
  end.

Record arb_system := { sys_arb : arbiter; calls : gmap nat call }.
Definition idle a : arb_system := {| sys_arb := a; calls := ∅ |}.

Inductive sys_step : arb_system → arb_system → Prop :=
  | sys_begin s t c :
      calls s !! t = None → begins c = true →
      sys_step s {| sys_arb := sys_arb s; calls := <[t := c]> (calls s) |}
  | sys_advance s t c now :
      calls s !! t = Some c → may_run (calls s) c →
      let res := call_step c (sys_arb s) now in
      sys_step s {| sys_arb := res.2; calls := <[t := res.1]> (calls s) |}
  | sys_other s a' :
      frozen a' = frozen (sys_arb s) → policy a' = policy (sys_arb s) →
      sys_step s {| sys_arb := a'; calls := calls s |}.
End Flights.

(** ** Calls left alone *)

Section Facts.
Context {TS Sk V : Type} `{TrustScoreStore TS} `{AuditLog.AuditSink Sk} `{HashOrder}.
Context (min_date : Z) (engine_sink : Sk → option Sk) (display : f64 → string).
#[local] Abbreviation arbiter := (AuthorizationArbiter TS Sk).
#[local] Abbreviation system := (@arb_system TS Sk V).
Implicit Types (a : arbiter) (r : ActionRequest V) (s : system) (c : call (V := V)).
#[local] Abbreviation call_step := (call_step (V := V) min_date engine_sink display).
#[local] Abbreviation sys_step := (sys_step (V := V) min_date engine_sink display).
#[local] Abbreviation log_verdict_state := (log_verdict_state (V := V) min_date engine_sink).

Fixpoint call_alone (n : nat) c a (now : Z) : call * arbiter :=
  match n with
  | 0 => (c, a)
  | S n => let res := call_step c a now in call_alone n res.1 res.2 now
  end.

Lemma call_alone_S n c c' a a' now :
  call_step c a now = (c', a') → call_alone (S n) c a now = call_alone n c' a' now.
Proof. intros Hc. cbn. by rewrite Hc. Qed.

Lemma call_alone_done n c a now : call_step c a now = (c, a) → call_alone n c a now = (c, a).
Proof. intros Hc. induction n as [|n IH]; [done|]. by rewrite (call_alone_S _ _ _ _ _ _ Hc). Qed.

(** One step of a call whose phase is known. *)
#[local] Ltac alone_step := erewrite call_alone_S; [|cbn; reflexivity].

Lemma authorize_alone r a now :
  call_alone 7 (CAuthorize r PStart) a now =
    (CAuthorize r (PDone (authorize min_date engine_sink a r now).1),
     (authorize min_date engine_sink a r now).2).
Proof.
  unfold authorize, returned. case_bool_decide as Hf.
  - erewrite call_alone_S; [|cbn; rewrite bool_decide_true by done; reflexivity].
    erewrite call_alone_S; [|cbn; rewrite (surjective_pairing (log_verdict _ _ _ _ _ _)); reflexivity].
    by rewrite call_alone_done.
  - erewrite call_alone_S; [|cbn; rewrite bool_decide_false by done; reflexivity].
    do 2 alone_step.
    unfold risk_score, sub_scores_of. destruct (domain_part _ _ _ _) as [mm pen] eqn:Hd.
    erewrite call_alone_S; [|cbn; rewrite Hd; reflexivity].
    erewrite call_alone_S; [|cbn; unfold score_with; rewrite (surjective_pairing (anomaly_part a r)); reflexivity].
    alone_step.
    erewrite call_alone_S; [|cbn; rewrite (surjective_pairing (log_verdict _ _ _ _ _ _)); reflexivity].
    done.
Qed.

(** A call that runs undisturbed, all its clock readings the same, is the
    operation of [Arbiter]. *)
Lemma calls_alone a r o id l p now :
  call_alone 7 (CAuthorize r PStart) a now =
    (CAuthorize r (PDone (authorize min_date engine_sink a r now).1),
     (authorize min_date engine_sink a r now).2) ∧
  call_alone 2 (CFeedback r o FStart) a now = (CFeedback r o FDone, feedback a r o now) ∧
  call_alone 2 (CLockdown id LStart) a now = (CLockdown id LDone, lockdown a id now) ∧
  call_alone 3 (CRestore id l TStart) a now = (CRestore id l TDone, restore a id l now) ∧
  (call_alone 2 (CSetPolicy p SStart) a now).2 = (set_policy display a p).2.
Proof.
  split_and!; [apply authorize_alone|done|done|done|].
  unfold set_policy. alone_step. by destruct (validate display p).
Qed.

(** ** What a step changes *)

Lemma authorize_step_shared ph r a now :
  let res := authorize_step min_date engine_sink ph r a now in
  frozen res.2 = frozen a ∧ policy res.2 = policy a ∧ trust_store res.2 = trust_store a.
Proof.
  destruct ph; cbn; try done.
  - by case_bool_decide.
  - by destruct (domain_part _ _ _ _).
  - unfold score_with. by destruct (anomaly_part a r).
  - destruct (log_verdict_state a v r now) as [o Ho].
    destruct (log_verdict _ _ a v r now) as [ok a']. cbn in *. by rewrite Ho.
Qed.

Lemma call_step_frozen c a now :
  frozen (call_step c a now).2 =
    match c with
    | CLockdown id LStart => {[id]} ∪ frozen a
    | CRestore id _ TStart => frozen a ∖ {[id]}
    | _ => frozen a
    end.
Proof.
  destruct c as [r ph|r o ph|id ph|id l ph|p ph]; cbn.
  - destruct (authorize_step_shared ph r a now) as [Hf _]. by destruct (authorize_step _ _ ph r a now).
  - by destruct ph.
  - by destruct ph.
  - by destruct ph.
  - by destruct ph.
Qed.

Lemma call_step_policy c a now :
  policy (call_step c a now).2 = match c with CSetPolicy p SValid => p | _ => policy a end.
Proof.
  destruct c as [r ph|r o ph|id ph|id l ph|p ph]; cbn.
  - destruct (authorize_step_shared ph r a now) as (_ & Hp & _). by destruct (authorize_step _ _ ph r a now).
  - by destruct ph.
  - by destruct ph.
  - by destruct ph.
  - by destruct ph.
Qed.

(** While a call holds the read guard the installed policy stays. *)
Lemma held_policy_stays s s' t c :
  sys_step s s' → calls s !! t = Some c → holds_policy c = true → policy (sys_arb s') = policy (sys_arb s).
Proof.
  intros Hstep Hc Hholds. destruct Hstep as [s u c' Hnone Hb|s u c' now Hu Hrun res|s a' _ Hp]; [done| |done].
  subst res. cbn [sys_arb]. rewrite call_step_policy. destruct c' as [| | | |p []]; try done.
  cbn in Hrun. by rewrite (Hrun _ _ Hc) in Hholds.
Qed.

(** The calls after a step: a new one, the one that moved, the others. *)
Lemma sys_step_call s s' t c :
  sys_step s s' → calls s' !! t = Some c →
  calls s !! t = Some c ∨ begins c = true ∧ calls s !! t = None ∧ sys_arb s' = sys_arb s ∨
  ∃ c0 now, calls s !! t = Some c0 ∧ may_run (calls s) c0 ∧ c = (call_step c0 (sys_arb s) now).1 ∧
    sys_arb s' = (call_step c0 (sys_arb s) now).2.
Proof.
  destruct 1 as [s u c' Hnone Hb|s u c' now Hu Hrun res|s a' _ Hp]; cbn [calls sys_arb].
  - rewrite lookup_insert_Some. intros [[<- <-]|[_ ?]]; auto.
  - rewrite lookup_insert_Some. intros [[<- <-]|[_ ?]]; [|by auto]. right; right. by exists c', now.
  - auto.
Qed.

(** A step keeps the kind and the arguments of a call. *)
Lemma call_step_authorize c0 a now r ph :
  (call_step c0 a now).1 = CAuthorize r ph →
  ∃ ph0, c0 = CAuthorize r ph0 ∧ ph = (authorize_step min_date engine_sink ph0 r a now).1 ∧
    (call_step c0 a now).2 = (authorize_step min_date engine_sink ph0 r a now).2.
Proof.
  destruct c0 as [r0 ph0|r0 o ph0|id ph0|id l ph0|p ph0]; cbn.
  - destruct (authorize_step _ _ ph0 r0 a now) as [ph1 a1] eqn:Hph. cbn. intros [= -> ->].
    exists ph0. by rewrite Hph.
  - by destruct (feedback_step ph0 r0 o a now).
  - by destruct (lockdown_step ph0 id a now).
  - by destruct (restore_step ph0 id l a now).
  - by destruct (set_policy_step display ph0 p a).
Qed.
Lemma call_step_set_policy c0 a now p ph :
  (call_step c0 a now).1 = CSetPolicy p ph →
  ∃ ph0, c0 = CSetPolicy p ph0 ∧ ph = (set_policy_step display ph0 p a).1.
Proof.
  destruct c0 as [r0 ph0|r0 o ph0|id ph0|id l ph0|q ph0]; cbn.
  - by destruct (authorize_step _ _ ph0 r0 a now).
  - by destruct (feedback_step ph0 r0 o a now).
  - by destruct (lockdown_step ph0 id a now).
  - by destruct (restore_step ph0 id l a now).
  - destruct (set_policy_step display ph0 q a) as [ph1 a1] eqn:Hph. cbn. intros [= -> ->].
    exists ph0. by rewrite Hph.
Qed.

Definition past_validation (ph : policy_phase) : bool :=
  match ph with SValid | SInstalled => true | SStart | SRefused => false end.

Lemma set_policy_step_valid ph p a :
  past_validation (set_policy_step display ph p a).1 = true →
  validate display p = Ok tt ∨ past_validation ph = true.
Proof.
  destruct ph; cbn [set_policy_step fst]; [|by right..].
  generalize (validate display p). intros [[]|e]; [by left|by right].
Qed.

(** ** Lockdown *)

(** A restore of the delegator that has yet to take it off the set. *)
Definition thaws (id : string) c : bool :=
  match c with
  | CRestore id' _ TStart => bool_decide (id' = id)
  | _ => false
  end.
Definition quiet (id : string) s : Prop := ∀ t c, calls s !! t = Some c → thaws id c = false.
Definition quiet_step (id : string) s s' : Prop := sys_step s s' ∧ quiet id s'.

Lemma quiet_step_frozen id s s' :
  quiet id s → quiet_step id s s' → id ∈ frozen (sys_arb s) → id ∈ frozen (sys_arb s').
Proof.
  intros Hquiet [Hstep _] Hid.
  destruct Hstep as [s u c' Hnone Hb|s u c' now Hu Hrun res|s a' Hf _]; [done| |by cbn; rewrite Hf].
  subst res. cbn [sys_arb]. rewrite call_step_frozen. pose proof (Hquiet _ _ Hu) as Hc.
  destruct c' as [| |id' []|id' l []|]; try done; [set_solver|].
  cbn in Hc. apply bool_decide_eq_false in Hc. set_solver.
Qed.

(** What an authorization that began under the lockdown can have become. *)
Definition refused_phase r (ph : auth_phase) : Prop :=
  match ph with
  | PStart => True
  | PVerdict scored v => scored = false ∧ ∃ n, v = frozen_verdict r n
  | PDone (Some v) => ∃ n, v = frozen_verdict r n
  | PDone None => True
  | _ => False
  end.

Lemma refused_phase_step r ph a now :
  delegator_id (delegator r) ∈ frozen a → refused_phase r ph →
  refused_phase r (authorize_step min_date engine_sink ph r a now).1.
Proof.
  intros Hid. destruct ph as [| | | | | |sc v|[v|]]; cbn; try done.
  - intros _. rewrite bool_decide_true by done. cbn. by eauto.
  - intros [_ [n ->]]. destruct (log_verdict _ _ a _ r now) as [[] a']; cbn; by eauto.
Qed.

Definition late_refused (id : string) (before : gmap nat (call (V := V))) s : Prop :=
  ∀ t r ph, before !! t = None → calls s !! t = Some (CAuthorize r ph) →
    delegator_id (delegator r) = id → refused_phase r ph.

Lemma late_refused_step id before s s' :
  id ∈ frozen (sys_arb s) → sys_step s s' → late_refused id before s → late_refused id before s'.
Proof.
  intros Hid Hstep Hlate t r ph Hnew Ht Hr.
  destruct (sys_step_call _ _ _ _ Hstep Ht) as [Hold|[(Hb & _)|(c0 & now & Hc0 & _ & Heq & _)]].
  - by eapply Hlate.
  - by destruct ph.
  - symmetry in Heq. apply call_step_authorize in Heq as (ph0 & -> & -> & _).
    apply refused_phase_step; [by rewrite Hr|]. by eapply Hlate.
Qed.

(** C15: Lockdown under concurrency.  Once a delegator is in the lockdown set
    and as long as no restore of it is started, every authorization of it
    that begins later can only be refused, with the frozen verdict: whatever
    else is in flight - scorings, feedback and policy changes of any
    delegator, other replicas writing the trust store - and however the
    awaits of all these calls interleave. *)
Theorem lockdown_stops_later_authorizations s1 s2 id t r v :
  id ∈ frozen (sys_arb s1) → quiet id s1 → rtc (quiet_step id) s1 s2 →
  calls s1 !! t = None → calls s2 !! t = Some (CAuthorize r (PDone (Some v))) →
  delegator_id (delegator r) = id →
  (∃ n, v = frozen_verdict r n) ∧ allowed v = false ∧ autonomy_level v = L0Frozen.
Proof.
  intros Hid Hquiet Hsteps Hnew Hdone Hr.
  assert (Hlate : late_refused id (calls s1) s2).
  { assert (Hlate : late_refused id (calls s1) s1) by (intros u r' ph Hn Hs; by rewrite Hs in Hn).
    revert Hid Hquiet Hlate. generalize (calls s1). clear - Hsteps.
    induction Hsteps as [s|s s' s'' Hstep _ IH]; [done|]. intros before Hid Hquiet Hlate.
    apply IH; [by eapply quiet_step_frozen|by apply Hstep|]. destruct Hstep. by eapply late_refused_step. }
  pose proof (Hlate t r _ Hnew Hdone Hr) as [n ->]. by eauto.
Qed.

(** ** Where a verdict comes from *)

(** [p] was the policy at the start or has been installed since. *)
Definition installed (p0 : DynamicPolicy) s (p : DynamicPolicy) : Prop :=
  p = p0 ∨ ∃ t, calls s !! t = Some (CSetPolicy p SInstalled).

(** The risk [p] gives [r], for some trust penalty, mismatch and anomaly. *)
Definition scored_by (p : DynamicPolicy) r (risk : RiskScore) : Prop :=
  ∃ subs, risk = score_of p subs ∧ delegator_weight subs = weight_of (delegator_type (delegator r)) ∧
    sensitivity subs = base_weight (category r).

Definition phase_explained (p0 : DynamicPolicy) s r (ph : auth_phase) : Prop :=
  match ph with
  | PScored risk => ∃ p, installed p0 s p ∧ scored_by p r risk
  | PVerdict true v =>
      ∃ p risk n, installed p0 s p ∧ scored_by p r risk ∧ v = decide_risk (policy (sys_arb s)) r risk n
  | PVerdict false v => ∃ n, v = frozen_verdict r n
  | PDone (Some v) =>
      (∃ n, v = frozen_verdict r n) ∨
      ∃ p p' risk n, installed p0 s p ∧ installed p0 s p' ∧ scored_by p r risk ∧ v = decide_risk p' r risk n
  | _ => True
  end.

Record explained (p0 : DynamicPolicy) s : Prop := {
  current_installed : installed p0 s (policy (sys_arb s));
  validated_calls : ∀ t p ph, calls s !! t = Some (CSetPolicy p ph) →
    past_validation ph = true → validate display p = Ok tt;
  phases_explained : ∀ t r ph, calls s !! t = Some (CAuthorize r ph) → phase_explained p0 s r ph;
}.

Lemma installed_mono p0 s s' p :
  (∀ t p, calls s !! t = Some (CSetPolicy p SInstalled) → calls s' !! t = Some (CSetPolicy p SInstalled)) →
  installed p0 s p → installed p0 s' p.
Proof. intros Hmono [->|[t Ht]]; [by left|]. right. eauto. Qed.

Lemma step_installed s s' t p :
  sys_step s s' → calls s !! t = Some (CSetPolicy p SInstalled) → calls s' !! t = Some (CSetPolicy p SInstalled).
Proof.
  destruct 1 as [s u c' Hnone Hb|s u c' now Hu Hrun res|s a' _ Hp]; cbn [calls]; intros Ht; [| |done].
  - by rewrite lookup_insert_ne by (by intros ->; rewrite Hnone in Ht).
  - destruct (decide (u = t)) as [->|]; [|by rewrite lookup_insert_ne].
    rewrite Hu in Ht. injection Ht as ->. by rewrite lookup_insert_eq.
Qed.

(** A phase stays explained in a later state, if the policy is the same
    wherever the phase holds it. *)
Lemma phase_explained_mono p0 s s' r ph :
  (∀ p, installed p0 s p → installed p0 s' p) →
  (∀ v, ph = PVerdict true v → policy (sys_arb s') = policy (sys_arb s)) →
  phase_explained p0 s r ph → phase_explained p0 s' r ph.
Proof.
  intros Hmono Hpol. destruct ph as [| | | | |risk|[] v|[v|]]; cbn; try done.
  - intros (p & ? & ?). eauto.
  - intros (p & risk & n & ? & ? & ->). exists p, risk, n. split_and!; [by auto|done|]. by rewrite (Hpol _ eq_refl).
  - intros [?|(p & p' & risk & n & ? & ? & ? & ?)]; [by left|]. right. exists p, p', risk, n. auto.
Qed.

Lemma authorize_step_explained p0 s r ph now :
  installed p0 s (policy (sys_arb s)) → phase_explained p0 s r ph →
  phase_explained p0 s r (authorize_step min_date engine_sink ph r (sys_arb s) now).1.
Proof.
  intros Hinst. destruct ph as [| | |t|mm pen|risk|[] v|[v|]]; cbn; try done.
  - case_bool_decide; cbn; eauto.
  - by destruct (domain_part _ _ _ _).
  - intros _. unfold score_with. destruct (anomaly_part _ r) as [sc ds]. cbn.
    exists (policy (sys_arb s)). split; [done|]. by eexists.
  - intros (p & ? & ?). cbn. by exists p, risk, now.
  - intros (p & risk & n & Hp & Hs & ->). destruct (log_verdict _ _ _ _ _ _) as [[] a']; cbn; [|done].
    right. by exists p, (policy (sys_arb s)), risk, n.
  - intros [n ->]. destruct (log_verdict _ _ _ _ _ _) as [[] a']; cbn; [|done]. left. eauto.
Qed.

Lemma explained_step p0 s s' : sys_step s s' → explained p0 s → explained p0 s'.
Proof.
  intros Hstep [Hcur Hval Hph].
  assert (Hmono : ∀ p, installed p0 s p → installed p0 s' p).
  { intros p. apply installed_mono. intros t q. by apply step_installed. }
  split.
  - destruct Hstep as [s u c' Hnone Hb|s u c' now Hu Hrun res|s a' _ Hp]; cbn [sys_arb] in *;
      [by apply Hmono| |by rewrite Hp; apply Hmono].
    subst res. rewrite call_step_policy. destruct c' as [| | | |p []]; try by apply Hmono.
    right. exists u. cbn. by rewrite lookup_insert_eq.
  - intros t p ph Ht Hin. destruct (sys_step_call _ _ _ _ Hstep Ht) as [?|[(Hb & _)|(c0 & now & Hc0 & _ & Heq & _)]].
    + eauto.
    + by destruct ph.
    + symmetry in Heq. apply call_step_set_policy in Heq as (ph0 & -> & ->).
      destruct (set_policy_step_valid ph0 p (sys_arb s) Hin) as [Hv|Hv]; [done|by eapply Hval].
  - intros t r ph Ht. destruct (sys_step_call _ _ _ _ Hstep Ht) as [Hold|[(Hb & _)|(c0 & now & Hc0 & _ & Heq & Harb)]].
    + eapply phase_explained_mono; [exact Hmono| |by eapply Hph].
      intros v ->. by eapply held_policy_stays.
    + by destruct ph.
    + symmetry in Heq. apply call_step_authorize in Heq as (ph0 & -> & -> & Hres).
      destruct (authorize_step_shared ph0 r (sys_arb s) now) as (_ & Hpol & _).
      eapply phase_explained_mono; [exact Hmono| |by apply authorize_step_explained; [|eapply Hph]].
      intros v _. by rewrite Harb, Hres.
Qed.

Lemma idle_explained a : explained (policy a) (idle a).
Proof. split; [by left|intros t p ph; cbn; by rewrite lookup_empty|intros t r ph; cbn; by rewrite lookup_empty]. Qed.

(** C16: Which policies a verdict comes from.  However the calls interleave,
    a verdict is the frozen one, or it maps with one installed policy a risk
    that was computed with the weights of one installed policy, both the
    policy at the start or a later one that passed validation; the policy
    that maps is still in force when the entry is written to the audit log.
    Without a [set_policy] both are the policy at the start. *)
Theorem verdict_of_installed_policies a s t r ph :
  rtc sys_step (idle a) s → calls s !! t = Some (CAuthorize r ph) →
  let of_policies p p' v := ∃ risk n, scored_by p r risk ∧ v = decide_risk p' r risk n in
  let known p := p = policy a ∨ (∃ u, calls s !! u = Some (CSetPolicy p SInstalled)) ∧ validate display p = Ok tt in
  (∀ v, ph = PVerdict true v → ∃ p, known p ∧ of_policies p (policy (sys_arb s)) v) ∧
  (∀ v, ph = PDone (Some v) →
     (∃ n, v = frozen_verdict r n) ∨ ∃ p p', known p ∧ known p' ∧ of_policies p p' v) ∧
  ((∀ u p ph, calls s !! u ≠ Some (CSetPolicy p ph)) → ∀ p, known p → p = policy a).
Proof.
  intros Hsteps Ht of_policies known.
  assert (Hexp : explained (policy a) s).
  { apply (rtc_invariant sys_step (explained (policy a)) _ _ (explained_step (policy a)) Hsteps), idle_explained. }
  assert (Hknown : ∀ p, installed (policy a) s p → known p).
  { intros p [->|[u Hu]]; [by left|]. right. split; [by eauto|]. by eapply validated_calls. }
  pose proof (phases_explained _ _ Hexp _ _ _ Ht) as Hph. split_and!.
  - intros v ->. destruct Hph as (p & risk & n & Hp & ? & ?). exists p. split; [by apply Hknown|by exists risk, n].
  - intros v ->. destruct Hph as [?|(p & p' & risk & n & ? & ? & ? & ?)]; [by left|]. right.
    exists p, p'. split_and!; [by apply Hknown..|by exists risk, n].
  - intros Hno p [->|[[u Hu] _]]; [done|]. by destruct (Hno _ _ _ Hu).
Qed.
End Facts.

(** ** Schedules *)

Section Schedules.
Context {TS Sk V : Type} `{TrustScoreStore TS} `{AuditLog.AuditSink Sk} `{HashOrder}.
Context (min_date : Z) (engine_sink : Sk → option Sk) (display : f64 → string).

Inductive event := EvBegin (t : nat) (c : call (V := V)) | EvAdvance (t : nat) (now : Z).

Definition may_run_now (cs : gmap nat (call (V := V))) (c : call (V := V)) : bool :=
  match c with
  | CSetPolicy _ SValid => forallb (λ tc : nat * call, negb (holds_policy tc.2)) (map_to_list cs)
  | _ => true
  end.

Definition play_event (s : arb_system (TS := TS) (Sk := Sk)) (e : event) : option arb_system :=
  match e with
  | EvBegin t c =>
      match calls s !! t with
      | None => if begins c then Some {| sys_arb := sys_arb s; calls := <[t := c]> (calls s) |} else None
      | Some _ => None
      end
  | EvAdvance t now =>
      match calls s !! t with
      | Some c =>
          if may_run_now (calls s) c then
            let res := call_step min_date engine_sink display c (sys_arb s) now in
            Some {| sys_arb := res.2; calls := <[t := res.1]> (calls s) |}
          else None
      | None => None
      end
  end.
Fixpoint play (es : list event) (s : arb_system (TS := TS) (Sk := Sk)) : option arb_system :=
  match es with
  | [] => Some s
  | e :: es => play_event s e ≫= play es
  end.

Lemma may_run_now_sound cs c : may_run_now cs c = true → may_run cs c.
Proof.
  destruct c as [| | | |p []]; try done. cbn. rewrite forallb_forall. intros Hall t c Hc.
  apply negb_true_iff, (Hall (t, c)). by apply list_elem_of_In, elem_of_map_to_list.
Qed.

Lemma play_event_sound s e s' :
  play_event s e = Some s' → sys_step min_date engine_sink display s s'.
Proof.
  destruct e as [t c|t now]; cbn.
  - destruct (calls s !! t) eqn:Hc; [done|]. destruct (begins c) eqn:Hb; [|done]. intros [= <-].
    by apply sys_begin.
  - destruct (calls s !! t) as [c|] eqn:Hc; [|done]. destruct (may_run_now _ c) eqn:Hrun; [|done].
    intros [= <-]. apply sys_advance; [done|]. by apply may_run_now_sound.
Qed.

Lemma play_sound es s s' : play es s = Some s' → rtc (sys_step min_date engine_sink display) s s'.
Proof.
  revert s. induction es as [|e es IH]; intros s; cbn; [intros [= ->]; reflexivity|].
  intros (s1 & Hs1 & Hplay)%bind_Some. eapply rtc_l; [by eapply play_event_sound|]. by apply IH.
Qed.

(** Without the start of a restore of [id] a schedule stays quiet. *)
Definition begins_thaw (id : string) (e : event) : bool :=
  match e with EvBegin _ c => thaws (V := V) id c | EvAdvance _ _ => false end.

Lemma call_step_thaws id (c : call (V := V)) (a : AuthorizationArbiter TS Sk) now :
  thaws id (call_step min_date engine_sink display c a now).1 = false.
Proof.
  destruct c as [r ph|r o ph|i ph|i l ph|p ph]; cbn.
  - by destruct (authorize_step _ _ ph r a now).
  - by destruct (feedback_step ph r o a now).
  - by destruct (lockdown_step ph i a now).
  - by destruct ph.
  - by destruct (set_policy_step display ph p a).
Qed.

Lemma play_event_quiet id s e s' :
  quiet id s → begins_thaw id e = false → play_event s e = Some s' → quiet id s'.
Proof.
  intros Hquiet He Hplay u c. destruct e as [t c'|t now]; cbn in Hplay.
  - destruct (calls s !! t); [done|]. destruct (begins c'); [|done]. injection Hplay as <-. cbn.
    rewrite lookup_insert_Some. intros [[_ <-]|[_ ?]]; [done|by eapply Hquiet].
  - destruct (calls s !! t) as [c'|]; [|done]. destruct (may_run_now _ c'); [|done]. injection Hplay as <-. cbn.
    rewrite lookup_insert_Some. intros [[_ <-]|[_ ?]]; [apply call_step_thaws|by eapply Hquiet].
Qed.

Lemma play_quiet id es s s' :
  quiet id s → forallb (λ e, negb (begins_thaw id e)) es = true → play es s = Some s' →
  rtc (quiet_step min_date engine_sink display id) s s' ∧ quiet id s'.
Proof.
  revert s. induction es as [|e es IH]; intros s Hquiet; cbn; [by intros _ [= ->]|].
  intros [He Hes]%andb_true_iff (s1 & Hs1 & Hplay)%bind_Some. apply negb_true_iff in He.
  assert (Hq1 : quiet id s1) by (by eapply play_event_quiet).
  destruct (IH s1 Hq1 Hes Hplay) as [Hrest Hq]. split; [|done]. eapply rtc_l; [|exact Hrest].
  split; [by eapply play_event_sound|done].
Qed.

Lemma idle_quiet id a : quiet id (idle (V := V) (TS := TS) (Sk := Sk) a).
Proof. intros t c. cbn. by rewrite lookup_empty. Qed.

(** The whole of a call, at one clock reading. *)
Definition all_of (t : nat) (now : Z) (n : nat) : list event := replicate n (EvAdvance t now).
End Schedules.

Module Races.
#[local] Instance entry_order : HashOrder := {| iter m := map_to_list m; iter_perm m := reflexivity _ |}.
#[local] Existing Instance AuditLog.mem_audit_sink.
Abbreviation sink := AuditLog.InMemoryAuditSink.
Abbreviation arbiter := (AuthorizationArbiter InMemoryTrustScoreStore sink).
Abbreviation play := (play (TS := InMemoryTrustScoreStore) (Sk := sink) (V := unit) 0 Some (λ _, "")).
Abbreviation sys_step := (sys_step (TS := InMemoryTrustScoreStore) (Sk := sink) (V := unit) 0 Some (λ _, "")).

Definition trusted : TrustScore := {|
  value := f64_one; confidence := f64_one; evidence_count := 200; last_updated := 0; degradation_rate := lit 1 100 |}.
(** An arbiter under the default policy that has learnt to trust one agent. *)
Definition with_bot : arbiter :=
  new {| scores := {[ "bot" := trusted ]} |} default_dynamic_policy.
Definition egress : ActionRequest unit := request_simple (delegator_agent "bot" "#1") "send" NetworkEgress 0.

(** A policy that counts the kind of delegator only, with narrow bands. *)
Definition narrow : DynamicPolicy := {|
  dimension_weights := (f64_one, f64_zero, f64_zero, f64_zero, f64_zero);
  autonomy_thresholds := list_to_map [
    (L4FullAutonomy, (f64_zero, lit 1 100));
    (L3Conditional, (lit 1 100, lit 2 100));
    (L2SemiAutonomous, (lit 2 100, lit 60 100));
    (L1Assisted, (lit 60 100, lit 80 100));
    (L0Frozen, (lit 80 100, lit 101 100))];
  level_strategies := level_strategies default_dynamic_policy |}.
Definition narrow_bot : arbiter := new InMemoryTrustScoreStore_new narrow.
(** A restart: a new arbiter over the trust store that was left. *)
Definition restarted (a : arbiter) : arbiter := new (trust_store a) (policy a).

Definition verdict_at (s : arb_system (TS := InMemoryTrustScoreStore) (Sk := sink) (V := unit)) (t : nat)
    : option AuthorizationVerdict :=
  match calls s !! t with
  | Some (CAuthorize _ (PDone answer)) => answer
  | _ => None
  end.
Definition play_all (es : list (event (V := unit))) (a : arbiter) := default (idle a) (play es (idle a)).
End Races.

#[local] Existing Instances Races.entry_order AuditLog.mem_audit_sink.

(** Undisturbed schedules end in the states of the operations. *)
Example alone_schedule :
  Races.verdict_at (Races.play_all (EvBegin 0 (CAuthorize Races.egress PStart) :: all_of 0 3 7) Races.with_bot) 0
    = (authorize 0 Some Races.with_bot Races.egress 3).1.
Proof. by vm_compute. Qed.

(** ** Races *)

(** A schedule that can be played ends in a state of the system. *)
Lemma schedule_reaches es a :
  match Races.play es (idle a) with Some _ => true | None => false end = true →
  rtc Races.sys_step (idle a) (Races.play_all es a).
Proof. unfold Races.play_all. destruct (Races.play es (idle a)) as [s|] eqn:Hs; [|done]. intros _. by apply (play_sound 0 Some (λ _, "") es). Qed.

(** A lockdown does not recall the authorizations in flight.  One that has
    read its trust record before the lockdown is allowed after the lockdown
    has returned. *)
Theorem lockdown_spares_calls_in_flight :
  ∃ s v, rtc Races.sys_step (idle Races.with_bot) s ∧
    "bot" ∈ frozen (sys_arb s) ∧ calls s !! 1 = Some (CLockdown "bot" LDone) ∧
    calls s !! 0 = Some (CAuthorize Races.egress (PDone (Some v))) ∧ allowed v = true ∧ verdict_date v = 3%Z.
Proof.
  set (es := ([EvBegin 0 (CAuthorize Races.egress PStart)] ++ all_of 0 1 3 ++
    [EvBegin 1 (CLockdown "bot" LStart)] ++ all_of 1 2 2 ++ all_of 0 3 4)%list).
  exists (Races.play_all es Races.with_bot).
  eexists. split; [apply schedule_reaches; by vm_compute|].
  split; [apply (bool_decide_unpack _); by vm_compute|]. split; [by vm_compute|].
  split; [vm_compute; reflexivity|by vm_compute].
Qed.

(** A feedback in flight writes back the trust it read before a lockdown.
    The zero trust of the lockdown is lost from the store, so that after a
    restart, which forgets the lockdown set, the delegator is allowed again;
    after either order of the two calls it would be refused. *)
Theorem feedback_in_flight_undoes_lockdown_trust :
  let refused a := allowed <$> (authorize 0 Some (Races.restarted a) Races.egress 9).1 = Some false in
  (∃ s, rtc Races.sys_step (idle Races.with_bot) s ∧
     calls s !! 0 = Some (CFeedback Races.egress Success FDone) ∧ calls s !! 1 = Some (CLockdown "bot" LDone) ∧
     "bot" ∈ frozen (sys_arb s) ∧
     allowed <$> (authorize 0 Some (Races.restarted (sys_arb s)) Races.egress 9).1 = Some true) ∧
  refused (lockdown (feedback Races.with_bot Races.egress Success 1) "bot" 2) ∧
  refused (feedback (lockdown Races.with_bot "bot" 1) Races.egress Success 2).
Proof.
  intros refused. split; [|split; by vm_compute].
  set (es := [EvBegin 0 (CFeedback Races.egress Success FStart); EvAdvance 0 1; EvBegin 1 (CLockdown "bot" LStart);
    EvAdvance 1 2; EvAdvance 1 2; EvAdvance 0 3]).
  exists (Races.play_all es Races.with_bot).
  split; [apply schedule_reaches; by vm_compute|]. split_and!; try by vm_compute.
Qed.

(** A change of policy between scoring and mapping.  Two valid policies each
    refuse a request; scored under the first and mapped by the second it is
    allowed, with full autonomy. *)
Theorem mixed_policies_allow :
  let before := Races.narrow_bot in
  let after := with_policy before default_dynamic_policy in
  let alone a := allowed <$> (authorize 0 Some a Races.egress 3).1 in
  validate (λ _, "") (policy before) = Ok tt ∧ validate (λ _, "") (policy after) = Ok tt ∧
  alone before = Some false ∧ alone after = Some false ∧
  ∃ s v, rtc Races.sys_step (idle before) s ∧
    calls s !! 0 = Some (CAuthorize Races.egress (PDone (Some v))) ∧
    allowed v = true ∧ autonomy_level v = L4FullAutonomy.
Proof.
  intros before after alone. do 4 (split; [by vm_compute|]).
  set (es := ([EvBegin 0 (CAuthorize Races.egress PStart)] ++ all_of 0 1 5 ++
    [EvBegin 1 (CSetPolicy default_dynamic_policy SStart)] ++ all_of 1 2 2 ++ all_of 0 3 2)%list).
  pose (risk := score_of Races.narrow (sub_scores_of before Races.egress 1)).
  exists (Races.play_all es before), (decide_risk default_dynamic_policy Races.egress risk 3).
  split; [apply schedule_reaches; by vm_compute|]. split; [by vm_compute|split; by vm_compute].
Qed.

(** ** Witnesses *)

(** Locked down; then a feedback, a scoring of another agent and a policy
    change interleave with an authorization, which is refused. *)
Lemma lockdown_stops_later_authorizations_witness :
  let s1 := Races.play_all (EvBegin 0 (CLockdown "bot" LStart) :: all_of 0 1 2) Races.with_bot in
  ∃ s2 v, rtc (quiet_step (V := unit) 0 Some (λ _, "") "bot") s1 s2 ∧
    calls s2 !! 1 = Some (CAuthorize Races.egress (PDone (Some v))) ∧ allowed v = false.
Proof.
  intros s1.
  set (es := [EvBegin 1 (CAuthorize Races.egress PStart); EvBegin 2 (CFeedback Races.egress Success FStart);
    EvAdvance 2 3; EvBegin 3 (CSetPolicy Races.narrow SStart); EvAdvance 3 3; EvAdvance 1 4; EvAdvance 3 4;
    EvAdvance 2 5; EvAdvance 1 5]).
  set (s2 := default s1 (Races.play es s1)).
  assert (Hq : quiet (TS := InMemoryTrustScoreStore) (Sk := Races.sink) (V := unit) "bot" s1).
  { refine (proj2 (play_quiet 0 Some (λ _, "") "bot" (EvBegin 0 (CLockdown "bot" LStart) :: all_of 0 1 2)
      (idle Races.with_bot) s1 (idle_quiet _ _) _ _)); by vm_compute. }
  assert (Hrun : rtc (quiet_step (V := unit) 0 Some (λ _, "") "bot") s1 s2).
  { refine (proj1 (play_quiet 0 Some (λ _, "") "bot" es s1 s2 Hq _ _)); by vm_compute. }
  exists s2, (frozen_verdict Races.egress 4). split; [exact Hrun|].
  assert (Hdone : calls s2 !! 1 = Some (CAuthorize Races.egress (PDone (Some (frozen_verdict Races.egress 4)))))
    by (by vm_compute).
  split; [exact Hdone|].
  refine (proj1 (proj2 (lockdown_stops_later_authorizations 0 Some (λ _, "") s1 s2 "bot" 1 Races.egress
    (frozen_verdict Races.egress 4) _ Hq Hrun _ Hdone _))).
  - apply (bool_decide_unpack _); by vm_compute.
  - by vm_compute.
  - done.
Defined.

(** A scoring that is overtaken by a policy change. *)
Lemma verdict_of_installed_policies_witness :
  ∃ s v, rtc Races.sys_step (idle Races.narrow_bot) s ∧
    calls s !! 0 = Some (CAuthorize Races.egress (PDone (Some v))) ∧
    ((∃ n, v = frozen_verdict Races.egress n) ∨
     ∃ p p' risk n, scored_by p Races.egress risk ∧ v = decide_risk p' Races.egress risk n).
Proof.
  set (es := ([EvBegin 0 (CAuthorize Races.egress PStart)] ++ all_of 0 1 5 ++
    [EvBegin 1 (CSetPolicy default_dynamic_policy SStart)] ++ all_of 1 2 2 ++ all_of 0 3 2)%list).
  set (s := Races.play_all es Races.narrow_bot).
  assert (Hrun : rtc Races.sys_step (idle Races.narrow_bot) s) by (apply schedule_reaches; by vm_compute).
  exists s. eexists. split; [exact Hrun|]. split; [vm_compute; reflexivity|].
  destruct (proj1 (proj2 (verdict_of_installed_policies 0 Some (λ _, "") Races.narrow_bot s 0 Races.egress _ Hrun
    ltac:(vm_compute; reflexivity))) _ eq_refl) as [?|(p & p' & _ & _ & risk & n & ? & ?)].
  - by left.
  - right. by exists p, p', risk, n.
Defined.
