(* ===== verification/Jwt.v ===== *)
(** * The root crate's bearer tokens: src/src/auth/credential/basic.rs

    [JwtManager]: issuing, verification, and the revocation table behind the
    [RevocationBackend] trait; [MemoryRevocationBackend] is the process-local
    backend.  jsonwebtoken is the parameter [JwtLibs]; clock readings (whole
    seconds, [Utc::now().timestamp()]) and fresh ids are arguments, and dates
    are unbounded integers.  The
    theorems about histories hold of every backend that keeps the contract
    [RevocationLaws], the shared table of [SqlStores] among them. *)

From S2P Require Import Prelude.

(** ** Claims *)

Record Claims := {
  sub : string;
  user_id : string;
  claims_roles : list string;
  claims_permissions : list string;
  session_id : option string;
  jti : option string;
  iat : Z;
  exp : Z;
}.

Definition sub_username (c : Claims) : string := sub c.
Definition sub_uuid (c : Claims) : string := user_id c.

(** ** jsonwebtoken: HS256 with [Header::default()] and
    [Validation::new(Algorithm::HS256)] *)
Class JwtLibs := {
  EncodingKey : Type;
  DecodingKey : Type;
  encoding_from_secret : string → EncodingKey;
  decoding_from_secret : string → DecodingKey;
  encode : Claims → EncodingKey → string + string;
  decode : string → DecodingKey → Z → Claims + string;
}.

(** [Validation::new] leaves a leeway of 60 seconds on [exp]. *)
Definition leeway : Z := 60.

(** ** The revocation table *)

Class RevocationBackend (B : Type) := {
  revoke : B → string → Z → B;
  get_not_before : B → string → option Z;
  cleanup_before : B → Z → B;
}.

Definition MIN_JWT_SECRET_LENGTH : nat := 32.
Definition MAX_JWT_EXPIRATION_HOURS : Z := 87600.
Definition REVOCATION_MAX_ENTRIES : nat := 50 * 1000.
Definition REVOCATION_AUTO_CLEANUP_WINDOW_SECS : Z := 86400 * 7.

(** The contract: a written row is there afterwards, at least as late as
    written; another row is dropped only when it predates the window, or
    when a cleanup says so; rows do not appear otherwise. *)
Class RevocationLaws (B : Type) `{RevocationBackend B} := {
  revoke_same : ∀ (b : B) k nb,
    ∃ nb', get_not_before (revoke b k nb) k = Some nb' ∧ (nb ≤ nb')%Z;
  revoke_other : ∀ (b : B) k k' nb nb',
    k' ≠ k → get_not_before b k' = Some nb' →
    (nb - REVOCATION_AUTO_CLEANUP_WINDOW_SECS ≤ nb')%Z →
    get_not_before (revoke b k nb) k' = Some nb';
  revoke_inv : ∀ (b : B) k k' nb nb',
    k' ≠ k → get_not_before (revoke b k nb) k' = Some nb' → get_not_before b k' = Some nb';
  cleanup_keeps : ∀ (b : B) k cutoff nb,
    get_not_before b k = Some nb → (cutoff ≤ nb)%Z →
    get_not_before (cleanup_before b cutoff) k = Some nb;
  cleanup_inv : ∀ (b : B) k cutoff nb,
    get_not_before (cleanup_before b cutoff) k = Some nb → get_not_before b k = Some nb;
}.

Record MemoryRevocationBackend := { revocation_map : gmap string Z }.

Definition MemoryRevocationBackend_default : MemoryRevocationBackend := {| revocation_map := ∅ |}.

Definition retain_from (cutoff : Z) (m : gmap string Z) : gmap string Z :=
  filter (λ row : string * Z, (cutoff ≤ row.2)%Z) m.

Definition mem_revoke (b : MemoryRevocationBackend) (key : string) (not_before : Z)
    : MemoryRevocationBackend :=
  let map := <[key := not_before]> (revocation_map b) in
  {| revocation_map :=
       if bool_decide (REVOCATION_MAX_ENTRIES < size map) then
         retain_from (not_before - REVOCATION_AUTO_CLEANUP_WINDOW_SECS) map
       else map |}.

Definition mem_get_not_before (b : MemoryRevocationBackend) (key : string) : option Z :=
  revocation_map b !! key.

Definition mem_cleanup_before (b : MemoryRevocationBackend) (cutoff : Z)
    : MemoryRevocationBackend :=
  {| revocation_map := retain_from cutoff (revocation_map b) |}.

#[export] Instance memory_revocation : RevocationBackend MemoryRevocationBackend := {|
  revoke := mem_revoke;
  get_not_before := mem_get_not_before;
  cleanup_before := mem_cleanup_before;
|}.

Lemma retain_lookup cutoff m k nb :
  retain_from cutoff m !! k = Some nb ↔ m !! k = Some nb ∧ (cutoff ≤ nb)%Z.
Proof. unfold retain_from. by rewrite map_lookup_filter_Some. Qed.

#[export] Instance memory_revocation_laws : RevocationLaws MemoryRevocationBackend.
Proof.
  split; simpl; unfold mem_get_not_before, mem_revoke, mem_cleanup_before; simpl.
  - intros b k nb. exists nb. case_bool_decide; rewrite ?retain_lookup, lookup_insert_eq.
    + unfold REVOCATION_AUTO_CLEANUP_WINDOW_SECS. split; [split; [done|lia]|lia].
    + by split.
  - intros b k k' nb nb' Hne Hk' Hle. case_bool_decide; rewrite ?retain_lookup, lookup_insert_ne by done; auto.
  - intros b k k' nb nb' Hne. case_bool_decide; rewrite ?retain_lookup, lookup_insert_ne by done; naive_solver.
  - intros b k cutoff nb Hk Hle. by apply retain_lookup.
  - intros b k cutoff nb Hk%retain_lookup. by destruct Hk.
Qed.

(** ** The manager *)

Section JwtManager.
Context `{JwtLibs} {B : Type} `{!RevocationBackend B}.

Record JwtManager := {
  encoding_key : EncodingKey;
  decoding_key : DecodingKey;
  expiration_hours : Z;
  revocation : B;
}.

Definition clamp (x lo hi : Z) : Z := if (x <? lo)%Z then lo else if (hi <? x)%Z then hi else x.

(** [JwtManager::new]; [backend] is the default backend it starts with. *)
Definition JwtManager_new (backend : B) (secret : string) (hours : Z) : result JwtManager :=
  if bool_decide (String.length secret < MIN_JWT_SECRET_LENGTH) then
    Err (Anyhow ("JWT secret must be at least " +:+ pretty MIN_JWT_SECRET_LENGTH +:+
      " bytes for HS256 security"))
  else Ok {|
    encoding_key := encoding_from_secret secret;
    decoding_key := decoding_from_secret secret;
    expiration_hours := clamp hours 1 MAX_JWT_EXPIRATION_HOURS;
    revocation := backend;
  |}.

Definition with_revocation_backend (m : JwtManager) (b : B) : JwtManager := {|
  encoding_key := encoding_key m;
  decoding_key := decoding_key m;
  expiration_hours := expiration_hours m;
  revocation := b;
|}.

(** The claims [issue_with_options] signs at [now] under the fresh id [id]. *)
Definition issued_claims (m : JwtManager) (uid username : string) (roles perms : list string)
    (sid : option string) (now : Z) (id : string) : Claims := {|
  sub := username;
  user_id := uid;
  claims_roles := roles;
  claims_permissions := perms;
  session_id := sid;
  jti := Some id;
  iat := now;
  exp := now + expiration_hours m * 3600;
|}.

Definition issue_with_options (m : JwtManager) (uid username : string) (roles perms : list string)
    (sid : option string) (now : Z) (id : string) : result string :=
  match encode (issued_claims m uid username roles perms sid now id) (encoding_key m) with
  | inl token => Ok token
  | inr e => Err (Anyhow ("JWT encode failed: " +:+ e))
  end.

Definition issue (m : JwtManager) (uid username : string) (roles : list string)
    (now : Z) (id : string) : result string :=
  issue_with_options m uid username roles [] None now id.

Definition verify (m : JwtManager) (token : string) (now : Z) : result Claims :=
  match decode token (decoding_key m) now with
  | inl claims => Ok claims
  | inr e => Err (Anyhow ("JWT verify failed: " +:+ e))
  end.

Definition session_key (sid : string) : string := "session:" +:+ sid.
Definition revoked : Error := Anyhow "token has been revoked".

(** One of the three lookups of [verify_with_revocation]. *)
Definition revocation_gate (m : JwtManager) (c : Claims) (key : option string) : result unit :=
  match key with
  | None => Ok tt
  | Some key =>
      match get_not_before (revocation m) key with
      | Some not_before => if (iat c <=? not_before)%Z then Err revoked else Ok tt
      | None => Ok tt
      end
  end.

Definition verify_with_revocation (m : JwtManager) (token : string) (now : Z) : result Claims :=
  claims ← verify m token now;
  _ ← revocation_gate m claims (Some (user_id claims));
  _ ← revocation_gate m claims (jti claims);
  _ ← revocation_gate m claims (session_key <$> session_id claims);
  Ok claims.

Definition revoke_token (m : JwtManager) (id : string) (now : Z) : JwtManager :=
  with_revocation_backend m (revoke (revocation m) id now).

Definition revoke_all_for_user (m : JwtManager) (uid : string) (now : Z) : JwtManager :=
  with_revocation_backend m (revoke (revocation m) uid (now + 1)%Z).

Definition revoke_session (m : JwtManager) (sid : string) (now : Z) : JwtManager :=
  with_revocation_backend m (revoke (revocation m) (session_key sid) now).

Definition cleanup_revocation (m : JwtManager) (max_lifetime : Z) (now : Z) : JwtManager :=
  with_revocation_backend m (cleanup_before (revocation m) (now - max_lifetime)%Z).

(** ** Histories *)

Inductive jwt_op :=
  | RevokeToken (id : string)
  | RevokeAllForUser (uid : string)
  | RevokeSession (sid : string)
  | CleanupRevocation (max_lifetime : Z).

Definition jwt_step (m : JwtManager) (ev : jwt_op * Z) : JwtManager :=
  match ev.1 with
  | RevokeToken id => revoke_token m id ev.2
  | RevokeAllForUser uid => revoke_all_for_user m uid ev.2
  | RevokeSession sid => revoke_session m sid ev.2
  | CleanupRevocation max => cleanup_revocation m max ev.2
  end.

Definition jwt_run (m : JwtManager) (evs : list (jwt_op * Z)) : JwtManager := foldl jwt_step m evs.

(** The row an operation writes, and the rows a token is checked against. *)
Definition op_key (op : jwt_op) : option string :=
  match op with
  | RevokeToken id => Some id
  | RevokeAllForUser uid => Some uid
  | RevokeSession sid => Some (session_key sid)
  | CleanupRevocation _ => None
  end.

Definition token_keys (c : Claims) : list string :=
  user_id c :: option_list (jti c) ++ option_list (session_key <$> session_id c).

Definition clear (m : JwtManager) (c : Claims) : Prop :=
  ∀ k nb, k ∈ token_keys c → get_not_before (revocation m) k = Some nb → (nb < iat c)%Z.

Lemma gate_ok m c key :
  revocation_gate m c key = Ok tt ↔
  ∀ k nb, key = Some k → get_not_before (revocation m) k = Some nb → (nb < iat c)%Z.
Proof.
  unfold revocation_gate. destruct key as [k|]; [|naive_solver].
  destruct (get_not_before (revocation m) k) as [nb|] eqn:Hk; [|naive_solver].
  destruct (Z.leb_spec (iat c) nb).
  - split; [done|]. intros Hall. specialize (Hall k nb eq_refl Hk). lia.
  - split; [|done]. intros _ k' nb' [= <-]. rewrite Hk. intros [= <-]. lia.
Qed.

Lemma gate_cases m c key : revocation_gate m c key = Ok tt ∨ revocation_gate m c key = Err revoked.
Proof. unfold revocation_gate. repeat case_match; auto. Qed.

Lemma clear_gates m c :
  clear m c ↔ revocation_gate m c (Some (user_id c)) = Ok tt ∧
    revocation_gate m c (jti c) = Ok tt ∧
    revocation_gate m c (session_key <$> session_id c) = Ok tt.
Proof.
  rewrite !gate_ok. unfold clear, token_keys.
  destruct (jti c), (session_id c); simpl; set_solver.
Qed.

Lemma verify_accepts m token now c :
  verify_with_revocation m token now = Ok c ↔ verify m token now = Ok c ∧ clear m c.
Proof.
  unfold verify_with_revocation. rewrite bind_ok. setoid_rewrite bind_unit_ok.
  setoid_rewrite bind_unit_ok. setoid_rewrite bind_unit_ok. setoid_rewrite clear_gates.
  naive_solver.
Qed.

Lemma verify_rejects m token now c k nb :
  verify m token now = Ok c → k ∈ token_keys c →
  get_not_before (revocation m) k = Some nb → (iat c ≤ nb)%Z →
  verify_with_revocation m token now = Err revoked.
Proof.
  intros Hv Hk Hnb Hle. unfold verify_with_revocation. rewrite Hv. cbn [mbind result_bind].
  destruct (gate_cases m c (Some (user_id c))) as [Hu| ->]; [|done]. rewrite Hu. cbn [mbind result_bind].
  destruct (gate_cases m c (jti c)) as [Hj| ->]; [|done]. rewrite Hj. cbn [mbind result_bind].
  destruct (gate_cases m c (session_key <$> session_id c)) as [Hs| ->]; [|done].
  assert (Hclear : clear m c) by by apply clear_gates. specialize (Hclear k nb Hk Hnb). lia.
Qed.

Lemma jwt_step_keys m ev : decoding_key (jwt_step m ev) = decoding_key m.
Proof. by destruct ev as [[] ?]. Qed.

Lemma jwt_run_keys m evs : decoding_key (jwt_run m evs) = decoding_key m.
Proof.
  revert m. induction evs as [|ev evs IH]; intros m; [done|].
  cbn. fold (jwt_run (jwt_step m ev) evs). by rewrite IH, jwt_step_keys.
Qed.

Lemma jwt_run_verify m evs token now : verify (jwt_run m evs) token now = verify m token now.
Proof. unfold verify. by rewrite jwt_run_keys. Qed.

Context `{!RevocationLaws B}.

(** A revocation writes its row with a date no earlier than the clock. *)
Lemma jwt_step_writes m op t k :
  op_key op = Some k →
  ∃ nb, get_not_before (revocation (jwt_step m (op, t))) k = Some nb ∧ (t ≤ nb)%Z.
Proof.
  destruct op; simpl; intros [= <-];
    match goal with
    | |- ∃ _, get_not_before (revoke ?b ?k ?nb) _ = _ ∧ _ =>
        destruct (revoke_same b k nb) as (nb' & -> & ?); exists nb'; split; [done|lia]
    end.
Qed.

(** What an event at [t'] may do to a row dated [t] or later. *)
Definition spares (t : Z) (ev : jwt_op * Z) : Prop :=
  (t ≤ ev.2 < t + REVOCATION_AUTO_CLEANUP_WINDOW_SECS)%Z ∧
  match ev.1 with
  | CleanupRevocation max => (ev.2 - t ≤ max)%Z
  | _ => True
  end.

Lemma revoke_spares b k k' nb nb' t :
  get_not_before b k' = Some nb' → (t ≤ nb')%Z → (t ≤ nb)%Z →
  (nb - REVOCATION_AUTO_CLEANUP_WINDOW_SECS ≤ t)%Z →
  ∃ nb'', get_not_before (revoke b k nb) k' = Some nb'' ∧ (t ≤ nb'')%Z.
Proof.
  intros Hk' Hle Ht Hwin. destruct (decide (k' = k)) as [->|Hne].
  - destruct (revoke_same b k nb) as (nb'' & -> & ?). exists nb''. split; [done|lia].
  - exists nb'. split; [|done]. apply revoke_other; [done|done|lia].
Qed.

Lemma jwt_step_spares m ev k nb t :
  spares t ev → get_not_before (revocation m) k = Some nb → (t ≤ nb)%Z →
  ∃ nb', get_not_before (revocation (jwt_step m ev)) k = Some nb' ∧ (t ≤ nb')%Z.
Proof.
  destruct ev as [op t']. unfold spares. simpl. intros [Ht Hop] Hk Hle.
  destruct op; simpl; try (eapply revoke_spares; [done|done|lia|lia]).
  exists nb. split; [|done]. apply cleanup_keeps; [done|lia].
Qed.

Lemma jwt_run_spares evs t : Forall (spares t) evs →
  ∀ m k nb, get_not_before (revocation m) k = Some nb → (t ≤ nb)%Z →
  ∃ nb', get_not_before (revocation (jwt_run m evs)) k = Some nb' ∧ (t ≤ nb')%Z.
Proof.
  induction 1 as [|ev evs Hev Hevs IH]; intros m k nb Hk Hle; [by exists nb|].
  destruct (jwt_step_spares m ev k nb t) as (nb' & Hk' & Hle'); [done..|].
  by apply (IH (jwt_step m ev) k nb').
Qed.

Lemma jwt_step_inv m ev k nb :
  op_key ev.1 ≠ Some k →
  get_not_before (revocation (jwt_step m ev)) k = Some nb → get_not_before (revocation m) k = Some nb.
Proof.
  destruct ev as [[] t]; simpl; intros Hne Hk;
    try (eapply revoke_inv; [|exact Hk]; congruence).
  by eapply cleanup_inv.
Qed.

Lemma jwt_run_clear evs c : Forall (λ ev, ∀ k, op_key ev.1 = Some k → k ∉ token_keys c) evs →
  ∀ m, clear m c → clear (jwt_run m evs) c.
Proof.
  induction 1 as [|ev evs Hev Hevs IH]; intros m Hc; [done|]. apply (IH (jwt_step m ev)).
  intros k nb Hk Hnb. apply (Hc k nb Hk). apply (jwt_step_inv m ev); [|done].
  intros Heq. by apply (Hev k Heq).
Qed.
End JwtManager.
Arguments JwtManager {_} B.

(** ** A library of tokens

    A token is the key and the claims; the laws below hold of it. *)
Module ToyJwt.
Import Seal.

Definition fields (c : Claims) : list positive :=
  [countable.encode (sub c); countable.encode (user_id c); countable.encode (claims_roles c);
   countable.encode (claims_permissions c); countable.encode (session_id c);
   countable.encode (jti c); countable.encode (iat c); countable.encode (exp c)].

Definition of_fields (l : list positive) : option Claims :=
  match l with
  | [p1; p2; p3; p4; p5; p6; p7; p8] =>
      f1 ← countable.decode p1; f2 ← countable.decode p2; f3 ← countable.decode p3;
      f4 ← countable.decode p4; f5 ← countable.decode p5; f6 ← countable.decode p6;
      f7 ← countable.decode p7; f8 ← countable.decode p8;
      Some {| sub := f1; user_id := f2; claims_roles := f3; claims_permissions := f4;
              session_id := f5; jti := f6; iat := f7; exp := f8 |}
  | _ => None
  end.

Lemma claims_of_fields c : of_fields (fields c) = Some c.
Proof.
  destruct c. unfold of_fields, fields. cbn -[countable.encode countable.decode].
  by repeat (rewrite decode_encode; cbn -[countable.encode countable.decode]).
Qed.

Definition toy_encode (c : Claims) (k : string) : string + string :=
  inl (seal [countable.encode k; countable.encode (fields c)]).

Definition toy_open (token : string) : option (string * Claims) :=
  l ← unseal token;
  match l with
  | [pk; pf] =>
      k ← countable.decode pk;
      f ← countable.decode pf;
      c ← of_fields f;
      Some (k, c)
  | _ => None
  end.

Definition toy_decode (token k : string) (now : Z) : Claims + string :=
  match toy_open token with
  | None => inr "malformed"
  | Some (k', c) =>
      if negb (bool_decide (k' = k)) then inr "InvalidSignature"
      else if (exp c <? now - leeway)%Z then inr "ExpiredSignature"
      else inl c
  end.

#[local] Instance libs : JwtLibs := {|
  EncodingKey := string;
  DecodingKey := string;
  encoding_from_secret := λ s, s;
  decoding_from_secret := λ s, s;
  encode := toy_encode;
  decode := toy_decode;
|}.

Lemma toy_roundtrip secret c token now :
  encode c (encoding_from_secret secret) = inl token → (now - leeway ≤ exp c)%Z →
  decode token (decoding_from_secret secret) now = inl c.
Proof.
  simpl. intros [= <-] Hexp. unfold toy_decode, toy_open. rewrite unseal_seal.
  cbn -[countable.decode countable.encode of_fields fields].
  repeat (rewrite decode_encode; cbn -[countable.decode countable.encode of_fields fields]).
  rewrite claims_of_fields. cbn -[leeway]. rewrite bool_decide_eq_true_2 by done. simpl negb. cbv iota.
  destruct (Z.ltb_spec (exp c) (now - leeway)); [lia|done].
Qed.

Definition secret : string := "0123456789abcdef0123456789abcdef".
Definition manager : JwtManager MemoryRevocationBackend := {|
  encoding_key := secret : EncodingKey;
  decoding_key := secret : DecodingKey;
  expiration_hours := 24;
  revocation := MemoryRevocationBackend_default;
|}.
Definition token : string :=
  match issue_with_options manager "u1" "ann" ["member"] [] (Some "s1") 1000 "j1" with
  | Ok t => t
  | Err _ => ""
  end.
End ToyJwt.

(** ** The properties *)

Section JwtProperties.
Context `{JwtLibs} {B : Type} `{!RevocationBackend B, !RevocationLaws B}.
Implicit Types (m : JwtManager B).

(** C31: A revoked token stays revoked.  Once a token has been revoked by its
    id, by its session or with all the tokens of its user, no earlier than
    its issue, [verify_with_revocation] refuses it with "token has been
    revoked" after any further revocations and cleanups, even while its
    signature and expiry still verify, as long as these happen less than the auto-cleanup window
    (seven days) after the revocation and each explicit cleanup allows for
    a token lifetime at least as long as the time passed. *)
Theorem revoked_token_stays_rejected m op k t evs token c now :
  verify m token now = Ok c →
  op_key op = Some k → k ∈ token_keys c → (iat c ≤ t)%Z →
  Forall (spares t) evs →
  verify_with_revocation (jwt_run (jwt_step m (op, t)) evs) token now = Err revoked.
Proof.
  intros Hv Hop Hk Hiat Hevs.
  destruct (jwt_step_writes m op t k Hop) as (nb & Hnb & Hle).
  destruct (jwt_run_spares evs t Hevs (jwt_step m (op, t)) k nb Hnb Hle) as (nb' & Hnb' & Hle').
  eapply verify_rejects; [|exact Hk|exact Hnb'|lia].
  rewrite jwt_run_verify. unfold verify. by rewrite jwt_step_keys.
Qed.

(** An issued token verifies until something that names it is revoked.
    A manager built from a secret of at least 32 bytes issues, with an
    expiry between one hour and ten years ahead, a token that carries the
    user id, user name, roles, permissions and session it was issued for;
    when its rows in the table are older than the issue, it verifies to
    exactly these claims up to its expiry and the leeway, whatever other
    tokens, users and sessions are revoked and however often  *)
Theorem issued_token_accepted_until_revoked
    (roundtrip_law : ∀ secret c token now,
      encode c (encoding_from_secret secret) = inl token → (now - leeway ≤ exp c)%Z →
      decode token (decoding_from_secret secret) now = inl c)
    (backend : B) secret hours m m' uid username roles perms sid t id token evs now :
  JwtManager_new backend secret hours = Ok m →
  m' = with_revocation_backend m (revocation m') →
  issue_with_options m' uid username roles perms sid t id = Ok token →
  clear m' (issued_claims m' uid username roles perms sid t id) →
  Forall (λ ev, ∀ k, op_key ev.1 = Some k →
    k ∉ uid :: id :: option_list (session_key <$> sid)) evs →
  (now ≤ t + 3600 * clamp hours 1 MAX_JWT_EXPIRATION_HOURS + leeway)%Z →
  ∃ c, verify_with_revocation (jwt_run m' evs) token now = Ok c ∧
    sub_uuid c = uid ∧ sub_username c = username ∧ claims_roles c = roles ∧
    claims_permissions c = perms ∧ session_id c = sid ∧
    (iat c + 3600 ≤ exp c ≤ iat c + 3600 * 87600)%Z.
Proof.
  unfold JwtManager_new. case_bool_decide; [done|]. intros [= <-] Hm'.
  set (c := issued_claims m' uid username roles perms sid t id).
  intros Hissue Hclear Hevs Hnow. exists c.
  assert (Hexp : exp c = (t + 3600 * clamp hours 1 MAX_JWT_EXPIRATION_HOURS)%Z)
    by (subst c; rewrite Hm'; cbn -[clamp Z.mul]; lia).
  split_and!; try done.
  - apply verify_accepts. rewrite jwt_run_verify. split; [|by apply jwt_run_clear].
    unfold issue_with_options in Hissue. fold c in Hissue.
    destruct (encode c (encoding_key m')) as [tok|] eqn:Henc; [|done]. injection Hissue as ->.
    unfold verify. rewrite Hm' in Henc |- *. cbn in Henc |- *.
    rewrite (roundtrip_law _ c) by (done || lia). done.
  - rewrite Hexp. unfold clamp, MAX_JWT_EXPIRATION_HOURS. simpl iat. repeat case_match; lia.
  - rewrite Hexp. unfold clamp, MAX_JWT_EXPIRATION_HOURS. simpl iat. repeat case_match; lia.
Qed.
End JwtProperties.

Section JwtWitnesses.
Existing Instance ToyJwt.libs.

(** The session is closed, another user is revoked and the table is cleaned
    up for week-old tokens. *)
Lemma revoked_token_stays_rejected_witness :
  verify ToyJwt.manager ToyJwt.token 80000 = Ok
    (issued_claims ToyJwt.manager "u1" "ann" ["member"] [] (Some "s1") 1000 "j1") ∧
  verify_with_revocation
    (jwt_run (jwt_step ToyJwt.manager (RevokeSession "s1", 2000%Z))
       [(RevokeAllForUser "u2", 3000%Z); (CleanupRevocation 604800, 174800%Z)])
    ToyJwt.token 80000 = Err revoked.
Proof.
  split; [by vm_compute|].
  apply (revoked_token_stays_rejected ToyJwt.manager (RevokeSession "s1") (session_key "s1") 2000
    _ ToyJwt.token (issued_claims ToyJwt.manager "u1" "ann" ["member"] [] (Some "s1") 1000 "j1")).
  - by vm_compute.
  - done.
  - cbn. set_solver.
  - cbn. lia.
  - unfold spares, REVOCATION_AUTO_CLEANUP_WINDOW_SECS.
    repeat constructor; cbn; lia.
Defined.

Lemma issued_token_accepted_until_revoked_witness :
  ∃ c, verify_with_revocation (jwt_run ToyJwt.manager [(RevokeAllForUser "u2", 3000%Z)])
         ToyJwt.token 80000 = Ok c ∧
    sub_uuid c = "u1" ∧ sub_username c = "ann" ∧ claims_roles c = ["member"] ∧
    claims_permissions c = [] ∧ session_id c = Some "s1" ∧
    (iat c + 3600 ≤ exp c ≤ iat c + 3600 * 87600)%Z.
Proof.
  apply (issued_token_accepted_until_revoked ToyJwt.toy_roundtrip MemoryRevocationBackend_default
    ToyJwt.secret 24 ToyJwt.manager ToyJwt.manager "u1" "ann" ["member"] [] (Some "s1") 1000 "j1"
    ToyJwt.token).
  - reflexivity.
  - reflexivity.
  - reflexivity.
  - intros k nb _ Hk. discriminate Hk.
  - constructor; [|constructor]. intros k [= <-] Hin.
    rewrite !elem_of_cons in Hin. cbn in Hin. set_solver.
  - vm_compute. discriminate.
Defined.
End JwtWitnesses.
