(* ===== verification/SqlStores.v ===== *)
(** * Stores behind SQL: src/src/database/db_revocation.rs, db_session.rs and
    src/packages/session/src/store.rs

    Each store sends a handful of fixed statements.  The database is a
    parameter: a class with one operation per statement, which may fail, and
    a class of laws that says what the statement does to its table (the
    meaning of INSERT, UPDATE, DELETE and SELECT).  What the code does around
    the statements (encoding, decoding, error mapping, the answers) is
    modelled; serde_json, RFC 3339 and the printing of a [Uuid] are
    parameters. *)

From S2P Require Import Prelude Traits Catalog Store Constraints Session DbSession Jwt.

(** ** Revocations: db_revocation.rs *)

(** [select_not_before]: no row, or a row whose column reads, or not. *)
Class RevocationTable (D : Type) := {
  upsert_greatest : D → string → Z → result nat * D;
  select_not_before : D → string → result (option (option Z));
  delete_not_before_lt : D → Z → result nat * D;
}.

Section Revocations.
Context {D : Type} `{!RevocationTable D}.

(** Failures are logged. *)
Definition db_revoke (d : D) (key : string) (not_before : Z) : D := (upsert_greatest d key not_before).2.
Definition db_get_not_before (d : D) (key : string) : option Z :=
  match select_not_before d key with
  | Ok (Some column) => column
  | Ok None => None
  | Err _ => None
  end.
Definition db_cleanup_before (d : D) (cutoff : Z) : D := (delete_not_before_lt d cutoff).2.

#[export] Instance db_revocation_store : RevocationBackend D := {|
  revoke := db_revoke; get_not_before := db_get_not_before; cleanup_before := db_cleanup_before |}.

(** What the statements do while the database answers. *)
Class RevocationTableLaws := {
  not_befores : D → gmap string Z;
  upsert_law : ∀ d k nb, not_befores (upsert_greatest d k nb).2 =
    <[k := match not_befores d !! k with Some old => Z.max old nb | None => nb end]> (not_befores d);
  select_law : ∀ d k, select_not_before d k = Ok (Some <$> not_befores d !! k);
  delete_lt_law : ∀ d cutoff, not_befores (delete_not_before_lt d cutoff).2 =
    filter (λ row : string * Z, (cutoff ≤ row.2)%Z) (not_befores d);
}.

Lemma db_get_lookup `{!RevocationTableLaws} d k : db_get_not_before d k = not_befores d !! k.
Proof. unfold db_get_not_before. rewrite select_law. by destruct (not_befores d !! k). Qed.

(** While the database answers, the store keeps the contract of the
    revocation backends. *)
#[export] Instance db_revocation_laws `{!RevocationTableLaws} : RevocationLaws D.
Proof.
  split; cbn [revoke get_not_before cleanup_before db_revocation_store]; unfold db_revoke, db_cleanup_before.
  - intros b k nb. rewrite db_get_lookup, upsert_law, lookup_insert_eq. eexists. split; [done|]. case_match; lia.
  - intros b k k' nb nb' Hne. rewrite !db_get_lookup, upsert_law, lookup_insert_ne by done. done.
  - intros b k k' nb nb' Hne. rewrite !db_get_lookup, upsert_law, lookup_insert_ne by done. done.
  - intros b k cutoff nb. rewrite !db_get_lookup, delete_lt_law. intros Hk Hle. by apply map_lookup_filter_Some.
  - intros b k cutoff nb. rewrite !db_get_lookup, delete_lt_law. by intros [Hk _]%map_lookup_filter_Some.
Qed.
End Revocations.
Arguments RevocationTableLaws D {_}.

(** ** Sessions of the role manager: db_session.rs *)

(** The columns of a row, as [try_get] reads them. *)
Record DbRow := {
  c_id : result Uuid;
  c_subject_id : result string;
  c_active_roles : result string;
  c_context : result (option string);
  c_version : result Z;
  c_expires_at : result string;
  c_created_at : result string;
}.

(** The statements, with their bound values in the order of the columns;
    [NOW()] is an argument. *)
Class SessionsTable (D : Type) := {
  insert_row : D → string → string → string → option string → string → string → result nat * D;
  select_by_id : D → string → result (option DbRow);
  delete_by_id : D → string → result nat * D;
  update_roles_by_id : D → string → string → result nat * D;
  delete_expired : D → DateTime → result nat * D;
  select_latest_of_subject : D → string → result (option DbRow);
  update_version_of_subject : D → Z → string → result nat * D;
}.

Section SessionStore.
Context {D Json : Type} `{!SessionsTable D}.
Context (uuid_to_string : Uuid → string) (display_error : Error → string).
Context (json_of_roles : list string → result string) (roles_of_json : string → result (list string)).
Context (json_of_context : Json → result string) (context_of_json : string → result Json).
Context (to_rfc3339 : DateTime → string) (parse_rfc3339 : string → result DateTime).

(** [Option::transpose] under [?]. *)
Definition transpose {A} (o : option (result A)) : result (option A) :=
  match o with
  | Some (Ok a) => Ok (Some a)
  | Some (Err e) => Err e
  | None => Ok None
  end.

(** [execute(..).await?; Ok(())] *)
Definition executed (r : result nat * D) : result unit * D := ((λ _, tt) <$> r.1, r.2).

Definition sql_save_session (d : D) (row : SessionRow Json) : result unit * D :=
  match roles_json ← json_of_roles (row_active_roles row);
        context_str ← transpose (json_of_context <$> row_context row);
        Ok (roles_json, context_str) with
  | Err e => (Err e, d)
  | Ok (roles_json, context_str) =>
      executed (insert_row d (uuid_to_string (row_id row)) (row_subject_id row) roles_json context_str
                  (to_rfc3339 (row_expires_at row)) (to_rfc3339 (row_created_at row)))
  end.

(** [map_err] on a JSON error. *)
Definition or_corrupted {A} (column : string) (id : Uuid) (r : result A) : result A :=
  match r with
  | Ok a => Ok a
  | Err e => Err (Anyhow ("corrupted " +:+ column +:+ " JSON for session " +:+ uuid_to_string id +:+ ": " +:+ display_error e))
  end.

(** A context column that cannot be read is taken as absent. *)
Definition read_context (id : Uuid) (c : result (option string)) : result (option Json) :=
  match c with
  | Ok (Some s) => Some <$> or_corrupted "context" id (context_of_json s)
  | Ok None => Ok None
  | Err _ => Ok None
  end.

Definition sql_load_session (d : D) (id : Uuid) : result (option (SessionRow Json)) :=
  o ← select_by_id d (uuid_to_string id);
  match o with
  | None => Ok None
  | Some row =>
      raw ← c_active_roles row;
      roles ← or_corrupted "active_roles" id (roles_of_json raw);
      context ← read_context id (c_context row);
      expires_at_str ← c_expires_at row;
      expires_at ← parse_rfc3339 expires_at_str;
      created_at_str ← c_created_at row;
      created_at ← parse_rfc3339 created_at_str;
      subject_id ← c_subject_id row;
      Ok (Some {| row_id := id; row_subject_id := subject_id; row_active_roles := roles; row_context := context;
                  row_version := 0; row_expires_at := expires_at; row_created_at := created_at |})
  end.

Definition sql_delete_session (d : D) (id : Uuid) : result unit * D := executed (delete_by_id d (uuid_to_string id)).

Definition sql_update_roles (d : D) (id : Uuid) (active_roles : list string) : result unit * D :=
  match json_of_roles active_roles with
  | Err e => (Err e, d)
  | Ok roles_json =>
      let r := update_roles_by_id d roles_json (uuid_to_string id) in
      (affected ← r.1;
       if affected =? 0 then Err (Anyhow ("session " +:+ uuid_to_string id +:+ " not found")) else Ok tt, r.2)
  end.

Definition sql_cleanup_expired (d : D) (now : DateTime) : result nat * D := delete_expired d now.

(** [version as u64]; the other direction is [i64_of]. *)
Definition u64_of (v : Z) : Z := v `mod` u64_modulus.

Definition sql_load_session_metadata (d : D) (subject_id : string) : result (option (SessionRow Json)) :=
  o ← select_latest_of_subject d subject_id;
  match o with
  | None => Ok None
  | Some row =>
      version ← c_version row;
      id ← c_id row;
      subject ← c_subject_id row;
      raw ← c_active_roles row;
      roles ← roles_of_json raw;
      context_str ← c_context row;
      context ← transpose (context_of_json <$> context_str);
      expires_at_str ← c_expires_at row;
      expires_at ← parse_rfc3339 expires_at_str;
      created_at_str ← c_created_at row;
      created_at ← parse_rfc3339 created_at_str;
      Ok (Some {| row_id := id; row_subject_id := subject; row_active_roles := roles; row_context := context;
                  row_version := u64_of version; row_expires_at := expires_at; row_created_at := created_at |})
  end.

Definition sql_bump_version (d : D) (subject_id : string) (version : Z) : result unit * D :=
  executed (update_version_of_subject d (i64_of version) subject_id).

Definition DbSessionStore : PersistentSessionStore D Json := {|
  save_session := sql_save_session;
  load_session := sql_load_session;
  delete_session := sql_delete_session;
  update_roles := sql_update_roles;
  store_cleanup_expired := sql_cleanup_expired;
  load_session_metadata := sql_load_session_metadata;
  bump_version := sql_bump_version;
|}.
End SessionStore.

(** ** What the statements on sessions do *)

Record TableRow := { t_id : string; t_subject : string; t_version : Z; t_created_at : DateTime }.

(** [default_version]: the DEFAULT of the version column, which no INSERT of
    the store names. *)
Class SessionsTableLaws (D : Type) `{SessionsTable D} := {
  table : D → list TableRow;
  default_version : Z;
  insert_law : ∀ d id subject roles context expires created n,
    let r := insert_row d id subject roles context expires created in
    r.1 = Ok n → ∃ t, table r.2 = table d ++ [{| t_id := id; t_subject := subject; t_version := default_version; t_created_at := t |}];
  latest_law : ∀ d subject o, select_latest_of_subject d subject = Ok o →
    match o with
    | None => ∀ t, t ∈ table d → t_subject t ≠ subject
    | Some row => ∃ t, t ∈ table d ∧ t_subject t = subject ∧ (∀ v, c_version row = Ok v → v = t_version t) ∧
        ∀ t', t' ∈ table d → t_subject t' = subject → (t_created_at t' ≤ t_created_at t)%Z
    end;
  update_version_law : ∀ d v subject n,
    let r := update_version_of_subject d v subject in
    r.1 = Ok n → table r.2 = (λ t, if decide (t_subject t = subject) then
                                     {| t_id := t_id t; t_subject := t_subject t; t_version := v; t_created_at := t_created_at t |}
                                   else t) <$> table d;
}.

Lemma u64_of_i64 v : (0 ≤ v < u64_modulus)%Z → u64_of (i64_of v) = v.
Proof. unfold u64_of, i64_of. intros Hv. rewrite Zminus_mod_idemp_l, Z.add_simpl_r. by apply Z.mod_small. Qed.

Section VersionProperties.
Context {C St S P Json D : Type} `{ConstraintStore C, AssignmentStore St S P, !SessionsTable D, !SessionsTableLaws D}.
Context (uuid_to_string : Uuid → string) (display_error : Error → string) (debug_roles : gset string → string).
Context (json_of_roles : list string → result string) (roles_of_json : string → result (list string)).
Context (json_of_context : Json → result string) (context_of_json : string → result Json).
Context (to_rfc3339 : DateTime → string) (parse_rfc3339 : string → result DateTime).
#[local] Instance sql_sessions : PersistentSessionStore D Json :=
  DbSessionStore uuid_to_string display_error json_of_roles roles_of_json json_of_context context_of_json to_rfc3339 parse_rfc3339.
Implicit Types (m : DbSessionManager C St D).

Lemma current_version_row m s current : db_current_version m s = Ok current →
  match select_latest_of_subject (db_store m) (subject_id s) with
  | Ok (Some row) => ∃ v, c_version row = Ok v ∧ current = u64_of v
  | Ok None => current = 0%Z
  | Err _ => False
  end.
Proof.
  unfold db_current_version. intros (o & Ho & [= <-])%bind_ok. cbn [load_session_metadata sql_sessions DbSessionStore] in Ho.
  unfold sql_load_session_metadata in Ho. apply bind_ok in Ho as (o' & -> & Ho). destruct o' as [row|]; [|by injection Ho as <-].
  apply bind_ok in Ho as (v & Hv & Ho). exists v. split; [done|].
  repeat (apply bind_ok in Ho as (? & _ & Ho)). by injection Ho as <-.
Qed.

Lemma loaded_version_zero m id y : db_get_session uuid_to_string display_error m id = Ok (Some y) → version y = 0%Z.
Proof.
  unfold db_get_session. intros (o & Ho & Hy)%bind_ok. destruct o as [row|]; [|done]. apply bind_ok in Hy as (s & _ & [= <-]). cbn.
  cbn [load_session sql_sessions DbSessionStore] in Ho. unfold sql_load_session in Ho. apply bind_ok in Ho as (o' & _ & Ho).
  destruct o' as [r|]; [|done]. repeat (apply bind_ok in Ho as (? & _ & Ho)). by injection Ho as <-.
Qed.

Lemma stale_by m s y current : db_current_version m s = Ok current → subject_id (sess_subject y) = subject_id s → version y = 0%Z →
  db_session_stale m y = Ok (0 <? current)%Z.
Proof. intros Hc Hid Hy. unfold db_session_stale, db_current_version in *. by rewrite Hid, Hy, Hc. Qed.

Lemma login_resets m s requested ttl id now x m2 old new current :
  db_create_session (P := P) debug_roles m s requested ttl id now = (Ok x, m2) →
  table (db_store m2) = old ++ [new] → (∀ t, t ∈ old → t_subject t = subject_id s → (t_created_at t < t_created_at new)%Z) →
  default_version = 0%Z → db_current_version m2 s = Ok current → current = 0%Z.
Proof.
  intros Hc Htable Hold Hdefault Hcur. apply db_create_session_ok in Hc as (validated & _ & Hok & _ & ->). cbn [db_store with_db_store] in *.
  assert (Hnew : t_subject new = subject_id s ∧ t_version new = 0%Z).
  { cbn [save_session sql_sessions DbSessionStore] in Hok, Htable. unfold sql_save_session in Hok, Htable.
    destruct (roles_json ← _; _) as [[roles_json context_str]|e]; [|done]. unfold executed in Hok, Htable. cbn [fst snd] in Hok, Htable.
    destruct (insert_row _ _ _ _ _ _ _).1 as [n|e] eqn:Hins; [|done].
    destruct (insert_law _ _ _ _ _ _ _ n Hins) as (t & Ht). rewrite Ht in Htable. apply app_inj_tail in Htable as [_ <-]. by rewrite <- Hdefault. }
  destruct Hnew as [Hsub Hver]. pose proof (current_version_row _ s current Hcur) as Hrow. cbn [db_store with_db_store] in Hrow.
  destruct (select_latest_of_subject _ _) as [[row|]|e] eqn:Hlatest; [|done|done]. pose proof (latest_law _ _ _ Hlatest) as (t & Ht & Htsub & Htver & Hmax).
  rewrite Htable in Ht, Hmax. assert (t = new) as ->.
  { apply elem_of_app in Ht as [Ht|Ht%list_elem_of_singleton]; [|done]. specialize (Hold t Ht Htsub).
    specialize (Hmax new ltac:(apply elem_of_app; right; by left) Hsub). lia. }
  destruct Hrow as (v & Hv & ->). by rewrite (Htver v Hv), Hver.
Qed.

(** C37: In the session table a version bump lasts until the next login.  A
    bump that succeeds writes the version into the rows of the subject: read
    back from one of these rows it is the new version, under which every
    stored session of the subject is stale; without any row it is recorded
    nowhere and reads as 0.  The next session created for the subject brings
    a row with the default version, and from then on, when this is 0, no
    stored session of the subject is stale, those from before the bump
    included. *)
Theorem bump_lasts_until_next_login m s v m1 current :
  db_bump_version_for_subject m s = (Ok v, m1) → db_current_version m1 s = Ok current →
  ((∃ t, t ∈ table (db_store m) ∧ t_subject t = subject_id s) → current = v) ∧
  ((∀ t, t ∈ table (db_store m) → t_subject t ≠ subject_id s) → current = 0%Z) ∧
  (v ≠ 0%Z → current = v → ∀ id y, db_get_session uuid_to_string display_error m1 id = Ok (Some y) → subject_id (sess_subject y) = subject_id s →
     db_session_stale m1 y = Ok true) ∧
  (∀ m1' requested ttl id now x m2 old new current2, db_store m1' = db_store m1 →
     db_create_session (P := P) debug_roles m1' s requested ttl id now = (Ok x, m2) →
     table (db_store m2) = old ++ [new] → (∀ t, t ∈ old → t_subject t = subject_id s → (t_created_at t < t_created_at new)%Z) →
     default_version = 0%Z → db_current_version m2 s = Ok current2 →
     current2 = 0%Z ∧ ∀ id y, db_get_session uuid_to_string display_error m2 id = Ok (Some y) → subject_id (sess_subject y) = subject_id s →
       db_session_stale m2 y = Ok false).
Proof.
  intros Hb Hcur. unfold db_bump_version_for_subject in Hb. destruct (db_current_version m s) as [c0|e]; [|done].
  cbn [bump_version sql_sessions DbSessionStore] in Hb. unfold sql_bump_version, executed in Hb.
  destruct (update_version_of_subject _ _ _) as [[n|e] d1] eqn:Hupdate; [|done]. cbn in Hb. injection Hb as <- <-.
  assert (Htable := update_version_law (db_store m) (i64_of (wrapping_add_u64 c0 1)) (subject_id s) n).
  rewrite Hupdate in Htable. specialize (Htable eq_refl). cbn in Htable.
  assert (Hrange := wrapping_add_u64_range c0 1). unfold is_u64 in Hrange.
  pose proof (current_version_row _ s current Hcur) as Hrow. cbn [db_store with_db_store] in Hrow.
  destruct (select_latest_of_subject d1 (subject_id s)) as [[row|]|e] eqn:Hlatest; [| |done]; pose proof (latest_law _ _ _ Hlatest) as Hlaw; cbn in Hlaw.
  all: split_and!.
  4, 8: intros m1' requested ttl id now x m2 old new current2 _ Hcreate Htab Hold Hdefault Hcur2;
    assert (current2 = 0%Z) as -> by (by eapply login_resets); split; [done|]; intros id' y Hy Hid;
    by rewrite (stale_by m2 s y 0 Hcur2 Hid (loaded_version_zero _ _ _ Hy)).
  - intros _. destruct Hlaw as (t & Ht & Hsub & Hver & _). destruct Hrow as (w & Hw & ->). rewrite (Hver w Hw).
    rewrite Htable in Ht. apply list_elem_of_fmap in Ht as (t0 & -> & _). case_decide; [|done]. cbn. by apply u64_of_i64.
  - intros Hnone. destruct Hlaw as (t & Ht & Hsub & _). rewrite Htable in Ht. apply list_elem_of_fmap in Ht as (t0 & -> & Ht0).
    exfalso. apply (Hnone t0 Ht0). by case_decide.
  - intros Hv Hc id y Hy Hid. rewrite (stale_by _ s y current Hcur Hid (loaded_version_zero _ _ _ Hy)). f_equal. apply Z.ltb_lt. lia.
  - intros (t & Ht & Hsub). exfalso. rewrite Htable in Hlaw. eapply Hlaw; [apply list_elem_of_fmap; by exists t|]. by case_decide.
  - by intros _.
  - intros Hv Hc. by rewrite Hrow in Hc.
Qed.
End VersionProperties.

(** ** What replicas share *)

Section SharedRevocations.
Context `{JwtLibs} {D : Type} `{!RevocationTable D}.
Implicit Types (m : JwtManager D).

Lemma outage_gate m c k : (∃ e, select_not_before (revocation m) k = Err e) → revocation_gate m c (Some k) = Ok tt.
Proof.
  intros [e He]. unfold revocation_gate. cbn [get_not_before db_revocation_store]. unfold db_get_not_before. by rewrite He.
Qed.

(** Revocations in a shared table.  While the database answers, what one
    replica revokes is refused by every other from then on; but a replica
    that cannot read the table accepts every token whose signature and expiry
    are in order, revoked or not, and a revocation whose write fails without
    effect changes nothing and is not reported. *)
Theorem shared_revocations_spec m1 m2 op k t token c now :
  verify m2 token now = Ok c →
  (RevocationTableLaws D → op_key op = Some k → k ∈ token_keys c → (iat c ≤ t)%Z →
     verify_with_revocation (with_revocation_backend m2 (revocation (jwt_step m1 (op, t)))) token now = Err revoked) ∧
  ((∀ k, k ∈ token_keys c → ∃ e, select_not_before (revocation m2) k = Err e) → verify_with_revocation m2 token now = Ok c) ∧
  (op_key op = Some k → (∀ nb, (upsert_greatest (revocation m1) k nb).2 = revocation m1) →
     revocation (jwt_step m1 (op, t)) = revocation m1).
Proof.
  intros Hv. split_and!.
  - intros Hlaws Hop Hk Hiat. destruct (jwt_step_writes m1 op t k Hop) as (nb & Hnb & Hle).
    eapply verify_rejects; [exact Hv|exact Hk|exact Hnb|lia].
  - intros Hout. assert (Hgates : ∀ o, (∀ k, o = Some k → k ∈ token_keys c) → revocation_gate m2 c o = Ok tt).
    { intros [k'|] Hin; [|done]. by apply outage_gate, Hout, Hin. }
    unfold verify_with_revocation. rewrite Hv. cbn [mbind result_bind]. unfold token_keys in Hgates.
    rewrite (Hgates (Some (user_id c))) by (intros k' [= <-]; by left). cbn [mbind result_bind].
    rewrite (Hgates (jti c)) by (intros k' Hj; apply elem_of_cons; right; apply elem_of_app; left; rewrite Hj; by left). cbn [mbind result_bind].
    rewrite (Hgates (session_key <$> session_id c)); [done|].
    intros k' Hs. apply elem_of_cons. right. apply elem_of_app. right. rewrite Hs. by left.
  - intros Hop Hw. destruct op; cbn in Hop; simplify_eq; cbn; unfold db_revoke; apply Hw.
Qed.
End SharedRevocations.

(** ** Concrete databases *)

Module Sql.
Import Seal.

(** A revocation table that answers, and one that cannot be reached. *)
Definition greatest (m : gmap string Z) (k : string) (nb : Z) : gmap string Z :=
  <[k := match m !! k with Some old => Z.max old nb | None => nb end]> m.
#[local] Instance answering : RevocationTable (gmap string Z) := {|
  upsert_greatest := λ d k nb, (Ok 1, greatest d k nb);
  select_not_before := λ d k, Ok (Some <$> d !! k);
  delete_not_before_lt := λ d cutoff, (Ok 0, filter (λ row : string * Z, (cutoff ≤ row.2)%Z) d);
|}.
#[local] Program Instance answering_laws : RevocationTableLaws (gmap string Z) := {| not_befores := λ d, d |}.
Solve All Obligations with done.

Inductive unreachable := Unreachable.
Definition lost {A} : result A := Err (Anyhow "connection lost").
#[local] Instance unreachable_table : RevocationTable unreachable := {|
  upsert_greatest := λ d k nb, (lost, d); select_not_before := λ d k, lost; delete_not_before_lt := λ d cutoff, (lost, d) |}.

#[local] Existing Instance ToyJwt.libs.
Definition replica {D} `{!RevocationTable D} (d : D) : JwtManager D := {|
  encoding_key := ToyJwt.secret : EncodingKey; decoding_key := ToyJwt.secret : DecodingKey; expiration_hours := 24; revocation := d |}.
Definition claims : Claims := issued_claims ToyJwt.manager "u1" "ann" ["member"] [] (Some "s1") 1000 "j1".

Lemma shared_revocations_spec_witness :
  verify_with_revocation (with_revocation_backend (replica (∅ : gmap string Z))
    (revocation (jwt_step (replica (∅ : gmap string Z)) (RevokeSession "s1", 2000%Z)))) ToyJwt.token 80000 = Err revoked ∧
  verify_with_revocation (replica Unreachable) ToyJwt.token 80000 = Ok claims.
Proof.
  split.
  - apply (shared_revocations_spec (replica ∅) (replica ∅) (RevokeSession "s1") (session_key "s1") 2000 ToyJwt.token claims 80000);
      [by vm_compute|exact answering_laws|reflexivity|cbn; set_solver|cbn; lia].
  - apply (shared_revocations_spec (replica Unreachable) (replica Unreachable) (RevokeSession "s1") (session_key "s1") 2000 ToyJwt.token claims 80000);
      [by vm_compute|]. intros k _. by exists (Anyhow "connection lost").
Defined.

(** A session table whose version column defaults to 0. *)
Record full_row := {
  f_row : TableRow;
  f_roles : string;
  f_context : option string;
  f_expires : string;
  f_created : string;
}.
Definition enc {A} `{Countable A} (a : A) : string := seal [countable.encode a].
Definition dec {A} `{Countable A} (s : string) : result A :=
  match unseal s with
  | Some [p] => match countable.decode p with Some a => Ok a | None => Err (Anyhow "malformed") end
  | _ => Err (Anyhow "malformed")
  end.
Definition instant (s : string) : Z := match dec s with Ok t => t | Err _ => 0%Z end.
Definition columns (r : full_row) : DbRow := {|
  c_id := dec (t_id (f_row r)); c_subject_id := Ok (t_subject (f_row r)); c_active_roles := Ok (f_roles r); c_context := Ok (f_context r);
  c_version := Ok (t_version (f_row r)); c_expires_at := Ok (f_expires r); c_created_at := Ok (f_created r) |}.
Definition with_row (r : full_row) (t : TableRow) : full_row := {|
  f_row := t; f_roles := f_roles r; f_context := f_context r; f_expires := f_expires r; f_created := f_created r |}.
Definition versioned (v : Z) (subject : string) (t : TableRow) : TableRow :=
  if decide (t_subject t = subject) then {| t_id := t_id t; t_subject := t_subject t; t_version := v; t_created_at := t_created_at t |} else t.

Definition latest (subject : string) (l : list full_row) : option full_row :=
  foldl (λ acc r, if decide (t_subject (f_row r) = subject) then
      match acc with
      | Some b => if (t_created_at (f_row b) <=? t_created_at (f_row r))%Z then Some r else acc
      | None => Some r
      end else acc) None l.

#[local] Instance sessions_table : SessionsTable (list full_row) := {|
  insert_row := λ d id subject roles context expires created,
    (Ok 1, d ++ [{| f_row := {| t_id := id; t_subject := subject; t_version := 0; t_created_at := instant created |};
                    f_roles := roles; f_context := context; f_expires := expires; f_created := created |}]);
  select_by_id := λ d id, Ok (columns ∘ snd <$> list_find (λ r, t_id (f_row r) = id) d);
  delete_by_id := λ d id, (Ok 1, filter (λ r, t_id (f_row r) ≠ id) d);
  update_roles_by_id := λ d roles id, (Ok 1, (λ r, if decide (t_id (f_row r) = id) then
    {| f_row := f_row r; f_roles := roles; f_context := f_context r; f_expires := f_expires r; f_created := f_created r |} else r) <$> d);
  delete_expired := λ d now, (Ok 0, filter (λ r, now ≤ instant (f_expires r))%Z d);
  select_latest_of_subject := λ d subject, Ok (columns <$> latest subject d);
  update_version_of_subject := λ d v subject, (Ok 1, (λ r, with_row r (versioned v subject (f_row r))) <$> d);
|}.

Lemma latest_spec subject l :
  match latest subject l with
  | None => ∀ r, r ∈ l → t_subject (f_row r) ≠ subject
  | Some b => b ∈ l ∧ t_subject (f_row b) = subject ∧
      ∀ r, r ∈ l → t_subject (f_row r) = subject → (t_created_at (f_row r) ≤ t_created_at (f_row b))%Z
  end.
Proof.
  induction l as [|r l IH] using rev_ind; [by intros r Hr%not_elem_of_nil|]. unfold latest in *. rewrite foldl_app. cbn [foldl].
  assert (Hin : ∀ x, x ∈ l ++ [r] ↔ x ∈ l ∨ x = r) by (intros x; by rewrite elem_of_app, list_elem_of_singleton).
  destruct (decide (t_subject (f_row r) = subject)) as [Hs|Hs]; destruct (foldl _ None l) as [b|].
  - destruct IH as (Hb & Hsb & Hmax). destruct (Z.leb_spec (t_created_at (f_row b)) (t_created_at (f_row r))) as [Hle|Hlt].
    + split_and!; [apply Hin; by right|done|]. intros x [Hx| ->]%Hin Hsx; [|lia]. specialize (Hmax x Hx Hsx). lia.
    + split_and!; [apply Hin; by left|done|]. intros x [Hx| ->]%Hin Hsx; [|lia]. by apply Hmax.
  - split_and!; [apply Hin; by right|done|]. intros x [Hx| ->]%Hin Hsx; [|lia]. by destruct (IH x Hx).
  - destruct IH as (Hb & Hsb & Hmax). split_and!; [apply Hin; by left|done|]. intros x [Hx| ->]%Hin Hsx; [|done]. by apply Hmax.
  - intros x [Hx| ->]%Hin; [by apply IH|done].
Qed.

#[local] Program Instance sessions_laws : SessionsTableLaws (list full_row) := {| table := fmap f_row; default_version := 0 |}.
Next Obligation. intros d id subject roles context expires created n r Hr. eexists. cbn. by rewrite fmap_app. Qed.
Next Obligation.
  intros d subject o [= <-]. pose proof (latest_spec subject d) as Hspec. destruct (latest subject d) as [b|]; cbn.
  - destruct Hspec as (Hb & Hs & Hmax). exists (f_row b). split_and!; [by apply list_elem_of_fmap_2|done|by intros v [= <-]|].
    intros t' (r & -> & Hr)%list_elem_of_fmap. by apply Hmax.
  - intros t (r & -> & Hr)%list_elem_of_fmap. by apply Hspec.
Qed.
Next Obligation. intros d v subject n r Hr. cbn. rewrite <- !list_fmap_compose. by apply list_fmap_ext. Qed.

Definition show_error (_ : Error) : string := "".
#[local] Instance store : PersistentSessionStore (list full_row) unit :=
  DbSessionStore enc show_error (λ l, Ok (enc l)) dec (λ _, Ok "") (λ _, Ok tt) enc dec.

Abbreviation manager := (DbSessionManager InMemoryConstraintStore (InMemoryAssignmentStore KirinoPermission) (list full_row)).
Definition logged_in (m : manager) (id : Uuid) (now : Z) :=
  db_create_session (P := KirinoPermission) (S := string) Desk.debug m "ann" {["payer"]} 600 id now.
Definition manager1 : manager := (logged_in (DbSessionManager_new [] Desk.store) 1%N 0).2.
Definition bumped := db_bump_version_for_subject (S := string) manager1 "ann".
Definition again := logged_in bumped.2 2%N 10.
Definition session_of (id : Uuid) (now : Z) : Session string unit := new_session (Json := unit) "ann" {["payer"]} 600 id now.

Lemma bumped_eq : bumped = (Ok 1%Z, bumped.2).
Proof. apply injective_projections; [vm_compute; reflexivity|reflexivity]. Qed.
Lemma again_eq : again = (Ok (session_of 2%N 10), again.2).
Proof. apply injective_projections; [vm_compute; reflexivity|reflexivity]. Qed.
Lemma current_bumped : db_current_version (S := string) bumped.2 "ann" = Ok 1%Z.
Proof. vm_compute. reflexivity. Qed.
Lemma current_again : db_current_version (S := string) again.2 "ann" = Ok 0%Z.
Proof. vm_compute. reflexivity. Qed.
Lemma read_bumped : db_get_session (S := string) enc show_error bumped.2 1%N = Ok (Some (session_of 1%N 0)).
Proof. vm_compute. reflexivity. Qed.
Lemma read_again : db_get_session (S := string) enc show_error again.2 1%N = Ok (Some (session_of 1%N 0)).
Proof. vm_compute. reflexivity. Qed.
Lemma table_again : ∃ old new, table (db_store again.2) = old ++ [new] ∧
  ∀ t, t ∈ old → t_subject t = subject_id "ann" → (t_created_at t < t_created_at new)%Z.
Proof.
  eexists [_], _. split; [vm_compute; reflexivity|]. intros t ->%list_elem_of_singleton _. vm_compute. reflexivity.
Qed.

(** The session of the first login is stale after the bump, and no longer
    after the second login. *)
Lemma bump_lasts_until_next_login_witness :
  db_session_stale bumped.2 (session_of 1%N 0) = Ok true ∧ db_session_stale again.2 (session_of 1%N 0) = Ok false.
Proof.
  destruct (bump_lasts_until_next_login (P := KirinoPermission) (S := string) enc show_error Desk.debug (λ l, Ok (enc l)) dec (λ _, Ok "") (λ _, Ok tt) enc dec
    manager1 "ann" 1 bumped.2 1 bumped_eq current_bumped) as (_ & _ & Hstale & Hlogin). split.
  - exact (Hstale ltac:(discriminate) eq_refl 1%N (session_of 1%N 0) read_bumped eq_refl).
  - destruct table_again as (old & new & Htable & Hold).
    destruct (Hlogin bumped.2 {["payer"]} 600%Z 2%N 10%Z (session_of 2%N 10) again.2 old new 0%Z eq_refl again_eq Htable Hold eq_refl current_again) as [_ Hfresh].
    exact (Hfresh 1%N (session_of 1%N 0) read_again eq_refl).
Defined.
End Sql.
