(* ===== verification/UserDatabase.v ===== *)
(** * The user table: the [UserDatabase] trait and [UserRecord] of
    src/src/service/login/mod.rs, and src/src/database/memory.rs

    [InMemoryUserDatabase] keeps the records by user name next to an index
    from ids to names; [memory_users_refine_table] shows that together they
    are one table keyed by id with unique names.  The contract its clients
    rely on is the class [UserDatabaseLaws].  Where the code collects a hash
    map into a vector, [map_to_list] stands for its unspecified order;
    [Utc::now()] is an argument. *)

From S2P Require Import Prelude Traits Identity.

Record UserRecord := {
  u_id : Uuid;
  u_username : string;
  u_password_hash : string;
  u_display_name : option string;
  u_is_active : bool;
  u_identity : Identity;
  u_created_at : Z;
  u_updated_at : Z;
}.

Record UserInfo := {
  info_id : Uuid;
  info_username : string;
  info_display_name : option string;
  info_is_active : bool;
  info_identity : Identity;
  info_created_at : Z;
  info_updated_at : Z;
}.

Definition to_public (u : UserRecord) : UserInfo := {|
  info_id := u_id u;
  info_username := u_username u;
  info_display_name := u_display_name u;
  info_is_active := u_is_active u;
  info_identity := u_identity u;
  info_created_at := u_created_at u;
  info_updated_at := u_updated_at u;
|}.

Definition with_password (u : UserRecord) (new_hash : string) (now : Z) : UserRecord := {|
  u_id := u_id u;
  u_username := u_username u;
  u_password_hash := new_hash;
  u_display_name := u_display_name u;
  u_is_active := u_is_active u;
  u_identity := u_identity u;
  u_created_at := u_created_at u;
  u_updated_at := now;
|}.

Class UserDatabase (DB : Type) := {
  create_user : DB → UserRecord → result unit * DB;
  find_by_username : DB → string → result (option UserRecord);
  find_by_id : DB → Uuid → result (option UserRecord);
  update_password : DB → Uuid → string → Z → result unit * DB;
  delete_user : DB → Uuid → result bool * DB;
  list_users : DB → result (list UserRecord);
  count_users : DB → result Z;
}.

Definition username_exists : Error := Kirino (Validation "username already exists").
Definition user_id_exists : Error := Kirino (Validation "user ID already exists").
Definition user_not_found : Error := Kirino (NotFound "user not found").

(** ** The table a database keeps *)

Abbreviation UserTable := (gmap Uuid UserRecord) (only parsing).

(** Ids are the keys, and no two records share a name. *)
Definition well_keyed (t : UserTable) : Prop :=
  (∀ id u, t !! id = Some u → u_id u = id) ∧
  (∀ id id' u u', t !! id = Some u → t !! id' = Some u' → u_username u = u_username u' → id = id').

Definition name_taken (t : UserTable) (n : string) : bool :=
  existsb (λ row : Uuid * UserRecord, bool_decide (u_username row.2 = n)) (map_to_list t).

Lemma name_taken_true t n : name_taken t n = true ↔ ∃ id u, t !! id = Some u ∧ u_username u = n.
Proof.
  unfold name_taken. rewrite existsb_elem. setoid_rewrite bool_decide_eq_true. split.
  - intros ([id u] & Hin & Hn). apply elem_of_map_to_list in Hin. eauto.
  - intros (id & u & Hid & Hn). exists (id, u). by rewrite elem_of_map_to_list.
Qed.

Lemma name_taken_false t n : name_taken t n = false ↔ ∀ id u, t !! id = Some u → u_username u ≠ n.
Proof. rewrite <- not_true_iff_false, name_taken_true. naive_solver. Qed.

(** The operations of the table: what a write answers and leaves. *)
Definition table_create (t : UserTable) (u : UserRecord) : result unit * UserTable :=
  if name_taken t (u_username u) then (Err username_exists, t)
  else if decide (is_Some (t !! u_id u)) then (Err user_id_exists, t)
  else (Ok tt, <[u_id u := u]> t).

Definition table_update_password (t : UserTable) (id : Uuid) (new_hash : string) (now : Z)
    : result unit * UserTable :=
  match t !! id with
  | Some u => (Ok tt, <[id := with_password u new_hash now]> t)
  | None => (Err user_not_found, t)
  end.

Definition table_delete (t : UserTable) (id : Uuid) : result bool * UserTable :=
  (Ok (bool_decide (is_Some (t !! id))), delete id t).

Lemma well_keyed_create t u : well_keyed t → well_keyed (table_create t u).2.
Proof.
  intros [Hid Hname]. unfold table_create.
  destruct (name_taken t (u_username u)) eqn:Hn; [by split|].
  rewrite name_taken_false in Hn. case_decide; [by split|]. simpl. split.
  - intros i v. rewrite lookup_insert_Some. naive_solver.
  - intros i j v w. rewrite !lookup_insert_Some. naive_solver.
Qed.

Lemma well_keyed_update t id h now : well_keyed t → well_keyed (table_update_password t id h now).2.
Proof.
  intros [Hid Hname]. unfold table_update_password. destruct (t !! id) as [u|] eqn:Hu; [|by split].
  simpl. split.
  - intros i v. rewrite lookup_insert_Some. intros [[<- <-]|[? ?]]; [by apply (Hid id u)|auto].
  - intros i j v w. rewrite !lookup_insert_Some. naive_solver.
Qed.

Lemma well_keyed_delete t id : well_keyed t → well_keyed (table_delete t id).2.
Proof.
  intros [Hid Hname]. simpl. split.
  - intros i v. rewrite lookup_delete_Some. naive_solver.
  - intros i j v w. rewrite !lookup_delete_Some. naive_solver.
Qed.

(** ** The contract

    A database that answers [Ok] has read or written the table; what an
    error leaves behind is open. *)
Class UserDatabaseLaws (DB : Type) `{UserDatabase DB} := {
  user_table : DB → UserTable;
  db_wf : DB → Prop;
  db_wf_table : ∀ db, db_wf db → well_keyed (user_table db);
  find_by_id_table : ∀ db id r, db_wf db → find_by_id db id = Ok r → r = user_table db !! id;
  find_by_username_table : ∀ db n r, db_wf db → find_by_username db n = Ok r →
    match r with
    | Some u => user_table db !! u_id u = Some u ∧ u_username u = n
    | None => name_taken (user_table db) n = false
    end;
  create_user_table : ∀ db db' u, db_wf db → create_user db u = (Ok tt, db') →
    db_wf db' ∧ table_create (user_table db) u = (Ok tt, user_table db');
  update_password_table : ∀ db db' id h now, db_wf db →
    update_password db id h now = (Ok tt, db') →
    db_wf db' ∧ table_update_password (user_table db) id h now = (Ok tt, user_table db');
  delete_user_table : ∀ db db' id b, db_wf db → delete_user db id = (Ok b, db') →
    db_wf db' ∧ table_delete (user_table db) id = (Ok b, user_table db');
  list_users_table : ∀ db l, db_wf db → list_users db = Ok l →
    l ≡ₚ (map_to_list (user_table db)).*2;
  count_users_table : ∀ db n, db_wf db → count_users db = Ok n →
    n = Z.of_nat (size (user_table db));
}.

(** ** The in-memory database *)

Record InMemoryUserDatabase := {
  users : gmap string UserRecord;
  id_to_username : gmap Uuid string;
}.

Definition InMemoryUserDatabase_new : InMemoryUserDatabase := {|
  users := ∅;
  id_to_username := ∅;
|}.

Definition mem_create_user (db : InMemoryUserDatabase) (user : UserRecord)
    : result unit * InMemoryUserDatabase :=
  if decide (is_Some (users db !! u_username user)) then (Err username_exists, db)
  else if decide (is_Some (id_to_username db !! u_id user)) then (Err user_id_exists, db)
  else (Ok tt, {|
    users := <[u_username user := user]> (users db);
    id_to_username := <[u_id user := u_username user]> (id_to_username db) |}).

Definition mem_find_by_username (db : InMemoryUserDatabase) (username : string)
    : result (option UserRecord) := Ok (users db !! username).

Definition mem_find_by_id (db : InMemoryUserDatabase) (id : Uuid) : result (option UserRecord) :=
  match id_to_username db !! id with
  | Some username => Ok (users db !! username)
  | None => Ok None
  end.

Definition mem_update_password (db : InMemoryUserDatabase) (id : Uuid) (new_hash : string) (now : Z)
    : result unit * InMemoryUserDatabase :=
  match id_to_username db !! id with
  | None => (Err user_not_found, db)
  | Some username =>
      match users db !! username with
      | None => (Err user_not_found, db)
      | Some user =>
          (Ok tt, {|
            users := <[username := with_password user new_hash now]> (users db);
            id_to_username := id_to_username db |})
      end
  end.

Definition mem_delete_user (db : InMemoryUserDatabase) (id : Uuid)
    : result bool * InMemoryUserDatabase :=
  let username := id_to_username db !! id in
  let index := delete id (id_to_username db) in
  match username with
  | Some name =>
      let removed := bool_decide (is_Some (users db !! name)) in
      (Ok removed, {| users := delete name (users db); id_to_username := index |})
  | None => (Ok false, {| users := users db; id_to_username := index |})
  end.

Definition mem_list_users (db : InMemoryUserDatabase) : result (list UserRecord) :=
  Ok (map_to_list (users db)).*2.

Definition mem_count_users (db : InMemoryUserDatabase) : result Z :=
  Ok (Z.of_nat (size (users db))).

#[export] Instance memory_user_database : UserDatabase InMemoryUserDatabase := {|
  create_user := mem_create_user;
  find_by_username := mem_find_by_username;
  find_by_id := mem_find_by_id;
  update_password := mem_update_password;
  delete_user := mem_delete_user;
  list_users := mem_list_users;
  count_users := mem_count_users;
|}.

(** The two maps agree. *)
Definition mem_wf (db : InMemoryUserDatabase) : Prop :=
  (∀ n u, users db !! n = Some u → u_username u = n ∧ id_to_username db !! u_id u = Some n) ∧
  (∀ id n, id_to_username db !! id = Some n → ∃ u, users db !! n = Some u ∧ u_id u = id).

Definition mem_table (db : InMemoryUserDatabase) : UserTable :=
  omap (λ n, users db !! n) (id_to_username db).

Lemma mem_table_some db id u : mem_wf db →
  mem_table db !! id = Some u ↔ users db !! u_username u = Some u ∧ u_id u = id.
Proof.
  intros [Hu Hi]. unfold mem_table. rewrite lookup_omap, bind_Some. split.
  - intros (n & Hn & Hun). destruct (Hi id n Hn) as (v & Hv & Hid). rewrite Hun in Hv. injection Hv as ->.
    by destruct (Hu n v Hun) as [-> _].
  - intros [Hun <-]. destruct (Hu _ _ Hun) as [_ Hn]. eauto.
Qed.

Lemma mem_name_taken db n : mem_wf db → name_taken (mem_table db) n = bool_decide (is_Some (users db !! n)).
Proof.
  intros Hwf. apply eq_true_iff_eq. rewrite name_taken_true, bool_decide_eq_true. split.
  - intros (id & u & [Hu _]%mem_table_some & <-); [by eexists|done].
  - intros [u Hu]. exists (u_id u), u. destruct (proj1 Hwf n u Hu) as [<- _].
    by rewrite mem_table_some.
Qed.

Lemma mem_id_taken db id : mem_wf db → is_Some (mem_table db !! id) ↔ is_Some (id_to_username db !! id).
Proof.
  intros [Hu Hi]. unfold mem_table. rewrite lookup_omap. split.
  - intros [u (n & Hn & _)%bind_Some]. by eexists.
  - intros [n Hn]. rewrite Hn. destruct (Hi id n Hn) as (u & Hun & _). by eexists.
Qed.

Lemma mem_table_keyed db : mem_wf db → well_keyed (mem_table db).
Proof.
  intros Hwf. split.
  - intros id u Hu. by apply (mem_table_some db id u) in Hu as [_ ?].
  - intros id id' u u'. rewrite !mem_table_some by done. intros [Hu <-] [Hu' <-] Hn. congruence.
Qed.

Lemma mem_create_table db u : mem_wf db →
  mem_wf (mem_create_user db u).2 ∧
  table_create (mem_table db) u = ((mem_create_user db u).1, mem_table (mem_create_user db u).2).
Proof.
  intros Hwf. pose proof Hwf as [Hu Hi]. unfold mem_create_user, table_create.
  rewrite mem_name_taken by done.
  case_decide as Hname; [by rewrite bool_decide_eq_true_2 by done|].
  rewrite bool_decide_eq_false_2 by done.
  destruct (decide (is_Some (id_to_username db !! u_id u))) as [Hid|Hid];
    [by rewrite decide_True by by apply mem_id_taken|].
  rewrite decide_False by by rewrite mem_id_taken. simpl.
  apply eq_None_not_Some in Hname, Hid. set (db' := Build_InMemoryUserDatabase _ _).
  assert (Hwf' : mem_wf db').
  { split; simpl.
    - intros n v. rewrite !lookup_insert_Some. intros [[<- <-]|[Hne Hv]]; [by auto|].
      destruct (Hu n v Hv) as [<- Hidv]. split; [done|]. right. split; [congruence|done].
    - intros id n. rewrite lookup_insert_Some. intros [[<- <-]|[Hne Hn]].
      + exists u. by rewrite lookup_insert_eq.
      + destruct (Hi id n Hn) as (v & Hv & <-). exists v. rewrite lookup_insert_ne by congruence. done. }
  split; [done|]. f_equal. apply map_eq. intros i. apply option_eq. intros v.
  rewrite lookup_insert_Some, !mem_table_some by done. simpl. rewrite lookup_insert_Some.
  split.
  - intros [[<- <-]|[Hne [Hv <-]]]; [by auto|]. split; [|done]. right. split; [congruence|done].
  - intros [[[Hn ->]|[Hne Hv]] <-]; [by auto|]. right. split; [|done].
    intros Heq. destruct (Hu _ _ Hv) as [_ Hidv]. congruence.
Qed.

Lemma mem_update_table db id h now : mem_wf db →
  mem_wf (mem_update_password db id h now).2 ∧
  table_update_password (mem_table db) id h now =
    ((mem_update_password db id h now).1, mem_table (mem_update_password db id h now).2).
Proof.
  intros Hwf. pose proof Hwf as [Hu Hi]. unfold mem_update_password, table_update_password.
  destruct (id_to_username db !! id) as [n|] eqn:Hn.
  - destruct (Hi id n Hn) as (u & Hun & Hid). rewrite Hun.
    destruct (Hu n u Hun) as [Hname _].
    assert (Ht : mem_table db !! id = Some u) by (apply mem_table_some; [done|by rewrite Hname]).
    rewrite Ht. set (db' := Build_InMemoryUserDatabase _ _).
    assert (Hwf' : mem_wf db').
    { split; simpl.
      - intros m v. rewrite lookup_insert_Some. intros [[<- <-]|[? Hv]]; [|by auto].
        simpl. by rewrite Hid.
      - intros j m Hj. destruct (Hi j m Hj) as (v & Hv & Hidv). destruct (decide (m = n)) as [->|Hne].
        + exists (with_password u h now). rewrite lookup_insert_eq. split; [done|]. simpl. congruence.
        + exists v. by rewrite lookup_insert_ne. }
    split; [done|]. f_equal. apply map_eq. intros i. apply option_eq. intros v.
    rewrite lookup_insert_Some, !mem_table_some by done. simpl. rewrite lookup_insert_Some.
    split.
    + intros [[<- <-]|[Hne [Hv <-]]]; [by auto|]. split; [|done]. right. split; [|done].
      intros ->. congruence.
    + intros [[[_ <-]|[Hne Hv]] <-]; [by auto|]. right. split; [|done].
      intros Heq. destruct (Hu _ _ Hv) as [_ Hidv]. congruence.
  - assert (Ht : mem_table db !! id = None).
    { apply eq_None_not_Some. rewrite mem_id_taken, Hn by done. apply is_Some_None. }
    by rewrite Ht.
Qed.

Lemma mem_delete_table db id : mem_wf db →
  mem_wf (mem_delete_user db id).2 ∧
  table_delete (mem_table db) id = ((mem_delete_user db id).1, mem_table (mem_delete_user db id).2).
Proof.
  intros Hwf. pose proof Hwf as [Hu Hi]. unfold mem_delete_user, table_delete.
  rewrite (bool_decide_ext _ _ (mem_id_taken db id Hwf)).
  destruct (id_to_username db !! id) as [n|] eqn:Hn; simpl.
  - destruct (Hi id n Hn) as (u & Hun & Hid). rewrite Hun.
    set (db' := Build_InMemoryUserDatabase _ _).
    assert (Hwf' : mem_wf db').
    { split; simpl.
      - intros m v. rewrite !lookup_delete_Some. intros [Hne Hv]. destruct (Hu m v Hv) as [? Hm].
        split; [done|]. split; [congruence|done].
      - intros j m. rewrite lookup_delete_Some. intros [Hne Hj].
        destruct (Hi j m Hj) as (v & Hv & <-). exists v. rewrite lookup_delete_ne; [done|congruence]. }
    split; [done|]. f_equal. apply map_eq. intros i. apply option_eq. intros v.
    rewrite lookup_delete_Some, !mem_table_some by done. simpl. rewrite lookup_delete_Some.
    destruct (Hu n u Hun) as [Hname _]. split.
    + intros [Hne [Hv <-]]. split; [|done]. split; [|done]. intros Heq. congruence.
    + intros [[Hne Hv] <-]. split; [|done]. intros Heq. destruct (Hu _ _ Hv) as [_ Hidv]. congruence.
  - rewrite (delete_id _ _ Hn).
    destruct db as [us ix]. simpl in *. split; [done|]. f_equal. apply delete_id.
    apply eq_None_not_Some. rewrite mem_id_taken by done. simpl. rewrite Hn. apply is_Some_None.
Qed.

Lemma mem_list_table db : mem_wf db → (map_to_list (users db)).*2 ≡ₚ (map_to_list (mem_table db)).*2.
Proof.
  intros Hwf. assert (Hinj : ∀ (K : Type) `{Countable K} (m : gmap K UserRecord) (f : UserRecord → K),
    (∀ k u, m !! k = Some u → f u = k) → NoDup (map_to_list m).*2).
  { intros K ?? m f Hf. apply NoDup_fmap_2_strong; [|apply NoDup_map_to_list].
    intros [k u] [k' u'] Hk%elem_of_map_to_list Hk'%elem_of_map_to_list. simpl.
    intros ->. by rewrite <- (Hf k u'), <- (Hf k' u'). }
  apply NoDup_Permutation.
  - apply (Hinj string _ _ _ u_username). intros k u Hk. by apply (proj1 Hwf).
  - apply (Hinj Uuid _ _ _ u_id). intros k u Hk. by apply (mem_table_some db k u) in Hk as [_ ?].
  - intros u. rewrite !list_elem_of_fmap. split.
    + intros ([n v] & -> & Hv%elem_of_map_to_list). exists (u_id v, v). split; [done|].
      apply elem_of_map_to_list, mem_table_some; [done|]. by destruct (proj1 Hwf n v Hv) as [<- _].
    + intros ([i v] & -> & [Hv _]%elem_of_map_to_list%mem_table_some); [|done].
      exists (u_username v, v). by rewrite elem_of_map_to_list.
Qed.

Lemma mem_find_by_username_table db n : mem_wf db →
  match users db !! n with
  | Some u => mem_table db !! u_id u = Some u ∧ u_username u = n
  | None => name_taken (mem_table db) n = false
  end.
Proof.
  intros Hwf. destruct (users db !! n) as [u|] eqn:Hu.
  - destruct (proj1 Hwf n u Hu) as [Hn _]. by rewrite mem_table_some, Hn.
  - rewrite mem_name_taken, Hu by done. done.
Qed.

Lemma mem_find_by_id_table db id : mem_wf db → mem_find_by_id db id = Ok (mem_table db !! id).
Proof.
  intros [_ Hi]. unfold mem_find_by_id, mem_table. rewrite lookup_omap.
  by destruct (id_to_username db !! id).
Qed.

Lemma mem_count_table db : mem_wf db → size (users db) = size (mem_table db).
Proof.
  intros Hwf. rewrite <- !length_map_to_list.
  rewrite <- (length_fmap snd (map_to_list (users db))), <- (length_fmap snd (map_to_list (mem_table db))).
  by rewrite (mem_list_table db Hwf).
Qed.

#[export] Instance memory_user_database_laws : UserDatabaseLaws InMemoryUserDatabase.
Proof.
  refine {| user_table := mem_table; db_wf := mem_wf |}.
  - apply mem_table_keyed.
  - intros db id r Hwf. simpl. rewrite mem_find_by_id_table by done. by intros [= <-].
  - intros db n r Hwf [= <-]. by apply mem_find_by_username_table.
  - intros db db' u Hwf Heq. destruct (mem_create_table db u Hwf) as [Hwf' Ht].
    simpl in Heq. by rewrite Heq in Hwf', Ht.
  - intros db db' id h now Hwf Heq. destruct (mem_update_table db id h now Hwf) as [Hwf' Ht].
    simpl in Heq. by rewrite Heq in Hwf', Ht.
  - intros db db' id b Hwf Heq. destruct (mem_delete_table db id Hwf) as [Hwf' Ht].
    simpl in Heq. by rewrite Heq in Hwf', Ht.
  - intros db l Hwf [= <-]. by apply mem_list_table.
  - intros db n Hwf [= <-]. by rewrite mem_count_table.
Defined.

(** ** Histories *)

Inductive user_op :=
  | OpCreate (u : UserRecord)
  | OpUpdatePassword (id : Uuid) (new_hash : string) (now : Z)
  | OpDelete (id : Uuid).

(** What a write answers: [Ok ()] and [Ok(b)] side by side. *)
Definition answer : Type := result (option bool).

Definition db_apply {DB} `{UserDatabase DB} (db : DB) (op : user_op) : answer * DB :=
  match op with
  | OpCreate u => let r := create_user db u in ((λ _, None) <$> r.1, r.2)
  | OpUpdatePassword id h now => let r := update_password db id h now in ((λ _, None) <$> r.1, r.2)
  | OpDelete id => let r := delete_user db id in (Some <$> r.1, r.2)
  end.

Definition table_apply (t : UserTable) (op : user_op) : answer * UserTable :=
  match op with
  | OpCreate u => let r := table_create t u in ((λ _, None) <$> r.1, r.2)
  | OpUpdatePassword id h now => let r := table_update_password t id h now in ((λ _, None) <$> r.1, r.2)
  | OpDelete id => let r := table_delete t id in (Some <$> r.1, r.2)
  end.

Fixpoint run_ops {T} (apply : T → user_op → answer * T) (s : T) (ops : list user_op)
    : list answer * T :=
  match ops with
  | [] => ([], s)
  | op :: ops =>
      let r := apply s op in
      let k := run_ops apply r.2 ops in
      (r.1 :: k.1, k.2)
  end.

Lemma mem_apply_table db op : mem_wf db →
  mem_wf (db_apply db op).2 ∧
  table_apply (mem_table db) op = ((db_apply db op).1, mem_table (db_apply db op).2).
Proof.
  intros Hwf. destruct op; simpl.
  - destruct (mem_create_table db u Hwf) as [? ->]. done.
  - destruct (mem_update_table db id new_hash now Hwf) as [? ->]. done.
  - destruct (mem_delete_table db id Hwf) as [? Ht]. split; [done|].
    unfold table_delete in Ht. by injection Ht as <- <-.
Qed.

Lemma mem_run_table ops db : mem_wf db →
  mem_wf (run_ops db_apply db ops).2 ∧
  run_ops table_apply (mem_table db) ops =
    ((run_ops db_apply db ops).1, mem_table (run_ops db_apply db ops).2).
Proof.
  revert db. induction ops as [|op ops IH]; intros db Hwf; [done|].
  destruct (mem_apply_table db op Hwf) as [Hwf' Ht]. destruct (IH _ Hwf') as [Hwf'' Ht'].
  cbn [run_ops]. rewrite Ht. cbn [fst snd]. by rewrite Ht'.
Qed.

(** C32: The in-memory user database implements a table keyed by id with
    unique user names.  Over any history of writes from the empty database,
    every call answers what the table answers - a taken name or id is
    refused, an unknown id cannot be updated, a deletion says whether the
    record existed - and afterwards lookups by id and by name, the listing
    and the count are those of the table, whose names are unique. *)
Theorem memory_users_refine_table (ops : list user_op) :
  let db := (run_ops db_apply InMemoryUserDatabase_new ops).2 in
  let t := (run_ops table_apply ∅ ops).2 in
  (run_ops db_apply InMemoryUserDatabase_new ops).1 = (run_ops table_apply ∅ ops).1 ∧
  well_keyed t ∧
  (∀ id, find_by_id db id = Ok (t !! id)) ∧
  (∀ n, ∃ r, find_by_username db n = Ok r ∧
     ∀ u, r = Some u ↔ t !! u_id u = Some u ∧ u_username u = n) ∧
  (∃ l, list_users db = Ok l ∧ l ≡ₚ (map_to_list t).*2) ∧
  count_users db = Ok (Z.of_nat (size t)).
Proof.
  assert (Hwf0 : mem_wf InMemoryUserDatabase_new) by done.
  destruct (mem_run_table ops InMemoryUserDatabase_new Hwf0) as [Hwf Hrun].
  change (mem_table InMemoryUserDatabase_new) with (∅ : UserTable) in Hrun. rewrite Hrun.
  set (db := (run_ops db_apply InMemoryUserDatabase_new ops).2) in *. simpl. split_and!.
  - done.
  - by apply mem_table_keyed.
  - intros id. by apply mem_find_by_id_table.
  - intros n. exists (users db !! n). split; [done|]. intros u. rewrite mem_table_some by done. split.
    + intros Hu. destruct (proj1 Hwf n u Hu) as [-> _]. by split_and!.
    + by intros ([Hu _] & <-).
  - eexists. split; [done|]. by apply mem_list_table.
  - unfold mem_count_users. by rewrite mem_count_table.
Qed.
