(* ===== verification/AuthService.v ===== *)
(** * Registration and login: [AuthService] of
    src/src/service/login/mod.rs, with the hashing of
    src/src/auth/passport/static_password.rs

    [AuthService] composes the user database, the token manager, the decision
    engine and two rate limiters; its state is theirs and the first-user
    latch.  A handler returns its answer and the new state.  Registration is
    also cut into the phases between which other calls can run
    ([register_step]), one access to the shared state each.  Unicode, uuid
    and argon2 are the parameters [LoginLibs]; the fresh values and clock
    readings of one call are its draws. *)

From S2P Require Import Prelude Traits Store Constraints Engine Session.
From S2P Require Import Identity Password RateLimit Jwt UserDatabase.

Class LoginLibs := {
  trim : string → string;
  to_lowercase : string → string;
  is_uppercase : N → bool;
  is_lowercase : N → bool;
  is_alphanumeric : N → bool;
  uuid_to_string : Uuid → string;
  uuid_parse_str : string → Uuid + string;
  (** argon2 with the crate's parameters, PHC strings *)
  Salt : Type;
  PasswordHash : Type;
  salt_encode_b64 : list N → Salt + string;
  argon2_hash : list N → Salt → string + string;
  password_hash_new : string → PasswordHash + string;
  argon2_verify : list N → PasswordHash → bool;
}.

(** What the service calls of a [SessionManager]: the fresh id and the two
    clock readings of a creation are arguments. *)
Class SessionManager (SM Json : Type) := {
  open_session : SM → StringSubject → gset string → Z → Uuid → DateTime → DateTime →
    result (Session StringSubject Json) * SM;
  close_session : SM → Uuid → result unit * SM;
}.

#[export] Instance memory_session_manager {CS St P Json} `{ConstraintStore CS, AssignmentStore St StringSubject P}
    (debug : gset string → string) :
  SessionManager (InMemorySessionManager CS St StringSubject Json) Json := {|
  open_session m s requested ttl id now1 now2 :=
    create_session debug m s requested ttl id now1 now2;
  close_session m id := destroy_session m id;
|}.

Section Hashing.
Context `{LoginLibs}.

(** [salt_bytes] is the random fill. *)
Definition hash_password (salt_bytes : list N) (password : string) : result string :=
  match salt_encode_b64 salt_bytes with
  | inr e => Err (Anyhow ("salt encoding failed: " +:+ e))
  | inl salt =>
      match argon2_hash (str_codes password) salt with
      | inr e => Err (Anyhow ("password hash failed: " +:+ e))
      | inl hash => Ok hash
      end
  end.

Definition verify_password (password hash : string) : result bool :=
  match password_hash_new hash with
  | inr e => Err (Anyhow ("invalid hash format: " +:+ e))
  | inl parsed => Ok (argon2_verify (str_codes password) parsed)
  end.

(** [key.trim().to_lowercase()] of the limiter. *)
Definition normalize (key : string) : string := to_lowercase (trim key).

(** ** User names *)

Definition MIN_USERNAME_LEN : nat := 2.
Definition MAX_USERNAME_LEN : nat := 64.

Definition is_ascii_alphanumeric (c : N) : bool := ascii_upper c || ascii_lower c || ascii_digit c.

(** A byte of the name: a character outside ASCII has a byte above 127. *)
Definition username_char (c : N) : bool :=
  is_ascii_alphanumeric c || (c =? 95)%N || (c =? 45)%N || (c =? 46)%N.

Definition validate_username (username : string) : result string :=
  let trimmed := trim username in
  if bool_decide (trimmed = "") || bool_decide (String.length trimmed < MIN_USERNAME_LEN) then
    Err (Kirino (Validation ("username must be at least " +:+ pretty MIN_USERNAME_LEN +:+
      " characters")))
  else if bool_decide (MAX_USERNAME_LEN < String.length trimmed) then
    Err (Kirino (Validation ("username must be at most " +:+ pretty MAX_USERNAME_LEN +:+
      " characters")))
  else if negb (forallb username_char (str_codes trimmed)) then
    Err (Kirino (Validation
      "username may only contain alphanumeric characters, underscores, hyphens, and dots"))
  else Ok trimmed.

Lemma validate_username_ok username name :
  validate_username username = Ok name →
  name = trim username ∧ 2 ≤ String.length name ≤ 64 ∧
  forallb username_char (str_codes name) = true.
Proof.
  unfold validate_username, MIN_USERNAME_LEN, MAX_USERNAME_LEN.
  set (name' := trim username). destruct (bool_decide (name' = "") || _) eqn:Hlow; [done|].
  destruct (bool_decide (64 < _)) eqn:Hhigh; [done|].
  destruct (forallb _ _) eqn:Hall; [|done]. intros [= <-]. bool_to_prop. split_and!; [done|lia|lia|done].
Qed.

Definition check_password_policy (password : string) : result unit :=
  Password.validate_password is_uppercase is_lowercase is_alphanumeric (str_codes password).
End Hashing.

(** ** The service *)

Section AuthService.
Context `{LoginLibs, JwtLibs} {DB Reg PReg St C P B : Type}.
Context `{!UserDatabase DB, !RevocationBackend B, Permission P}.
Context `{!RoleRegistry Reg P, !PermissionRegistry PReg P}.
Context `{!AssignmentStore St StringSubject P, !PermissionCache C StringSubject P}.

Record AuthService := {
  db : DB;
  jwt : JwtManager B;
  engine : RbacEngine Reg PReg St C;
  rate_limiter : LoginRateLimiter;
  register_rate_limiter : LoginRateLimiter;
  password_login_policy : PasswordLoginPolicy;
  first_user_role : string;
  default_role : string;
  auto_admin_first_user : bool;
  has_first_user : bool;
}.
Implicit Types (svc : AuthService).

(** [AuthService::new]; [backend] is the default revocation table. *)
Definition AuthService_new (database : DB) (backend : B) (secret : string) (hours : Z)
    (eng : RbacEngine Reg PReg St C) (first dflt : string) : result AuthService :=
  jwt ← JwtManager_new backend secret hours;
  Ok {|
    db := database;
    jwt := jwt;
    engine := eng;
    rate_limiter := LoginRateLimiter_new 5 300 900;
    register_rate_limiter := LoginRateLimiter_new 3 300 1800;
    password_login_policy := PolicyEnabled;
    first_user_role := first;
    default_role := dflt;
    auto_admin_first_user := false;
    has_first_user := false;
  |}.

(** Record updates, one per component a handler writes. *)
Definition with_db svc (d : DB) : AuthService := {|
  db := d; jwt := jwt svc; engine := engine svc; rate_limiter := rate_limiter svc;
  register_rate_limiter := register_rate_limiter svc;
  password_login_policy := password_login_policy svc; first_user_role := first_user_role svc;
  default_role := default_role svc; auto_admin_first_user := auto_admin_first_user svc;
  has_first_user := has_first_user svc |}.

Definition with_jwt svc (j : JwtManager B) : AuthService := {|
  db := db svc; jwt := j; engine := engine svc; rate_limiter := rate_limiter svc;
  register_rate_limiter := register_rate_limiter svc;
  password_login_policy := password_login_policy svc; first_user_role := first_user_role svc;
  default_role := default_role svc; auto_admin_first_user := auto_admin_first_user svc;
  has_first_user := has_first_user svc |}.

Definition with_engine svc (e : RbacEngine Reg PReg St C) : AuthService := {|
  db := db svc; jwt := jwt svc; engine := e; rate_limiter := rate_limiter svc;
  register_rate_limiter := register_rate_limiter svc;
  password_login_policy := password_login_policy svc; first_user_role := first_user_role svc;
  default_role := default_role svc; auto_admin_first_user := auto_admin_first_user svc;
  has_first_user := has_first_user svc |}.

Definition with_limiter svc (l : LoginRateLimiter) : AuthService := {|
  db := db svc; jwt := jwt svc; engine := engine svc; rate_limiter := l;
  register_rate_limiter := register_rate_limiter svc;
  password_login_policy := password_login_policy svc; first_user_role := first_user_role svc;
  default_role := default_role svc; auto_admin_first_user := auto_admin_first_user svc;
  has_first_user := has_first_user svc |}.

Definition with_register_limiter svc (l : LoginRateLimiter) : AuthService := {|
  db := db svc; jwt := jwt svc; engine := engine svc; rate_limiter := rate_limiter svc;
  register_rate_limiter := l;
  password_login_policy := password_login_policy svc; first_user_role := first_user_role svc;
  default_role := default_role svc; auto_admin_first_user := auto_admin_first_user svc;
  has_first_user := has_first_user svc |}.

Definition with_latch svc (b : bool) : AuthService := {|
  db := db svc; jwt := jwt svc; engine := engine svc; rate_limiter := rate_limiter svc;
  register_rate_limiter := register_rate_limiter svc;
  password_login_policy := password_login_policy svc; first_user_role := first_user_role svc;
  default_role := default_role svc; auto_admin_first_user := auto_admin_first_user svc;
  has_first_user := b |}.

(** The builders. *)
Definition with_password_login_policy svc (p : PasswordLoginPolicy) : AuthService := {|
  db := db svc; jwt := jwt svc; engine := engine svc;
  rate_limiter := with_policy (rate_limiter svc) p;
  register_rate_limiter := register_rate_limiter svc;
  password_login_policy := p; first_user_role := first_user_role svc;
  default_role := default_role svc; auto_admin_first_user := auto_admin_first_user svc;
  has_first_user := has_first_user svc |}.

Definition with_rate_limiter svc (l : LoginRateLimiter) : AuthService :=
  with_limiter svc (with_policy l (password_login_policy svc)).

Definition with_auto_admin_first_user svc (enabled : bool) : AuthService := {|
  db := db svc; jwt := jwt svc; engine := engine svc; rate_limiter := rate_limiter svc;
  register_rate_limiter := register_rate_limiter svc;
  password_login_policy := password_login_policy svc; first_user_role := first_user_role svc;
  default_role := default_role svc; auto_admin_first_user := enabled;
  has_first_user := has_first_user svc |}.

Definition password_login_disabled : Error :=
  Kirino (Validation ("password login is disabled by policy; " +:+
    "sign in with a third-party identity provider")).

Definition ensure_password_login_allowed svc : result unit :=
  if policy_is_enabled (password_login_policy svc) then Ok tt else Err password_login_disabled.

(** ** Registration *)

Record RegisterDraws := {
  salt_bytes : list N;
  fresh_id : Uuid;
  reg_now : Z;
  reg_instant : Z;
}.

Definition new_user (d : RegisterDraws) (username hash : string) (display : option string)
    : UserRecord := {|
  u_id := fresh_id d;
  u_username := username;
  u_password_hash := hash;
  u_display_name := display;
  u_is_active := true;
  u_identity := Basic (fresh_id d) (reg_now d);
  u_created_at := reg_now d;
  u_updated_at := reg_now d;
|}.

(** Up to the latch: the name is free and the password hashed. *)
Definition prepare_user svc (d : RegisterDraws) (username password : string)
    (display : option string) : result UserRecord :=
  found ← find_by_username (db svc) username;
  match found with
  | Some _ => Err username_exists
  | None =>
      hash ← hash_password (salt_bytes d) password;
      Ok (new_user d username hash display)
  end.

(** [auto_admin_first_user && !has_first_user.swap(true)]: the swap happens
    only when the exemption is on. *)
Definition claim_latch svc : bool * AuthService :=
  if auto_admin_first_user svc then (negb (has_first_user svc), with_latch svc true)
  else (false, svc).

(** [&& self.db.count_users().await? == 0], read only by the claimant. *)
Definition count_if (won : bool) svc : result bool :=
  if won then (λ n, bool_decide (n = 0%Z)) <$> count_users (db svc) else Ok false.

Definition create_record svc (user : UserRecord) : result unit * AuthService :=
  let r := create_user (db svc) user in (r.1, with_db svc r.2).

Definition role_for svc (is_first : bool) : string :=
  if is_first then first_user_role svc else default_role svc.

Definition assign_initial_role svc (user : UserRecord) (is_first : bool)
    : result UserInfo * AuthService :=
  let subject := StringSubject_new (uuid_to_string (u_id user)) in
  let r := assign_role P (assignment_store (engine svc)) subject (role_for svc is_first) in
  ((λ _, to_public user) <$> r.1, with_engine svc (with_store (engine svc) r.2)).

Definition register_impl svc (d : RegisterDraws) (username password : string)
    (display : option string) : result UserInfo * AuthService :=
  match prepare_user svc d username password display with
  | Err e => (Err e, svc)
  | Ok user =>
      let '(won, svc) := claim_latch svc in
      match count_if won svc with
      | Err e => (Err e, svc)
      | Ok is_first =>
          match create_record svc user with
          | (Err e, svc) => (Err e, svc)
          | (Ok _, svc) => assign_initial_role svc user is_first
          end
      end
  end.

Definition register svc (d : RegisterDraws) (username password : string)
    (display : option string) : result UserInfo * AuthService :=
  match validate_username username with
  | Err e => (Err e, svc)
  | Ok username =>
      match check_password_policy password with
      | Err e => (Err e, svc)
      | Ok _ =>
          let r := check_and_record_failure normalize (register_rate_limiter svc) username
                     (reg_instant d) in
          let svc := with_register_limiter svc r.2 in
          match r.1 with
          | Err e => (Err e, svc)
          | Ok _ =>
              match register_impl svc d username password display with
              | (Ok info, svc) =>
                  (Ok info, with_register_limiter svc
                     (reset normalize (register_rate_limiter svc) username))
              | (Err e, svc) => (Err e, svc)
              end
          end
      end
  end.

(** ** Login *)

Record LoginDraws := {
  login_instant : Z;
  token_now : Z;
  token_jti : string;
}.

Record LoginResult := {
  token : string;
  lr_user_id : string;
  lr_username : string;
  lr_display_name : option string;
  lr_roles : list string;
  lr_session_id : option Uuid;
}.

Definition authentication_failed : Error := Kirino AuthenticationFailed.

(** The dummy verifications only cost time: their results are dropped. *)
Definition authenticate_user svc (username password : string)
    : result UserRecord * AuthService :=
  match find_by_username (db svc) username with
  | Err e => (Err e, svc)
  | Ok None => (Err authentication_failed, svc)
  | Ok (Some user) =>
      if negb (u_is_active user) then (Err authentication_failed, svc)
      else
        match verify_password password (u_password_hash user) with
        | Err e => (Err e, svc)
        | Ok false => (Err authentication_failed, svc)
        | Ok true => (Ok user, with_limiter svc (reset normalize (rate_limiter svc) username))
        end
  end.

Definition store_unavailable : Error := Kirino (AuthorizationDenied "store unavailable").

Definition or_unavailable {A} (r : result A) : result A :=
  match r with
  | Ok a => Ok a
  | Err _ => Err store_unavailable
  end.

Definition fetch_user_roles_and_perms svc (uid : string) : result (list string * list string) :=
  let subject := StringSubject_new uid in
  roles ← or_unavailable (roles_of P (assignment_store (engine svc)) subject);
  perms ← or_unavailable (effective_permissions (engine svc) subject);
  Ok (roles, perm_name <$> elements (perms : gset P)).

Definition issue_for svc (d : LoginDraws) (user : UserRecord) (sid : option Uuid)
    (rp : list string * list string) : result LoginResult :=
  let uid := uuid_to_string (u_id user) in
  token ← issue_with_options (jwt svc) uid (u_username user) rp.1 rp.2
            (uuid_to_string <$> sid) (token_now d) (token_jti d);
  Ok {|
    token := token;
    lr_user_id := uid;
    lr_username := u_username user;
    lr_display_name := u_display_name user;
    lr_roles := rp.1;
    lr_session_id := sid |}.

(** The part [login] and [login_with_session] share: the policy, the
    limiter and the credentials; the user's id and grants on success. *)
Definition login_gate svc (d : LoginDraws) (username password : string)
    : result (UserRecord * (list string * list string)) * AuthService :=
  match ensure_password_login_allowed svc with
  | Err e => (Err e, svc)
  | Ok _ =>
      let username := trim username in
      let r := check_and_record_failure normalize (rate_limiter svc) username (login_instant d) in
      let svc := with_limiter svc r.2 in
      match r.1 with
      | Err e => (Err e, svc)
      | Ok _ =>
          match authenticate_user svc username password with
          | (Err e, svc) => (Err e, svc)
          | (Ok user, svc) =>
              (pair user <$> fetch_user_roles_and_perms svc (uuid_to_string (u_id user)), svc)
          end
      end
  end.

Definition login svc (d : LoginDraws) (username password : string)
    : result LoginResult * AuthService :=
  match login_gate svc d username password with
  | (Err e, svc) => (Err e, svc)
  | (Ok (user, rp), svc) => (issue_for svc d user None rp, svc)
  end.

Definition verify_token svc (tok : string) (now : Z) : result Claims :=
  verify_with_revocation (jwt svc) tok now.

Definition check_permission svc (clk : CheckClock) (uid : string) (p : P) : bool * AuthService :=
  let r := check (engine svc) clk (StringSubject_new uid) p in (r.1, with_engine svc r.2).

(** ** Accounts *)

Definition invalid_user_id : Error := Kirino (Validation "invalid user_id").

(** [now] is the token clock, [stamp] the date written to the record. *)
Definition change_password svc (salt : list N) (now stamp : Z) (user_id old_password new_password : string)
    : result unit * AuthService :=
  match uuid_parse_str user_id with
  | inr _ => (Err invalid_user_id, svc)
  | inl uid =>
      match (found ← find_by_id (db svc) uid;
             match found with
             | None => Err user_not_found
             | Some user =>
                 valid ← verify_password old_password (u_password_hash user);
                 if negb valid then Err authentication_failed
                 else
                   _ ← check_password_policy new_password;
                   hash_password salt new_password
             end) with
      | Err e => (Err e, svc)
      | Ok new_hash =>
          let svc := with_jwt svc (revoke_all_for_user (jwt svc) user_id now) in
          let r := update_password (db svc) uid new_hash stamp in
          (r.1, with_db svc r.2)
      end
  end.

Definition list_users svc : result (list UserInfo) :=
  (λ users : list UserRecord, to_public <$> users) <$> UserDatabase.list_users (db svc).

Definition delete_user svc (now : Z) (user_id : string) : result bool * AuthService :=
  match uuid_parse_str user_id with
  | inr _ => (Err invalid_user_id, svc)
  | inl uid =>
      let svc := with_jwt svc (revoke_all_for_user (jwt svc) user_id now) in
      let r := UserDatabase.delete_user (db svc) uid in
      (r.1, with_db svc r.2)
  end.

(** ** Login with a server-side session *)

Context {SM Json : Type} `{!SessionManager SM Json}.

Record SessionDraws := {
  fresh_session : Uuid;
  created_now : DateTime;
  expiry_now : DateTime;
}.

Definition login_with_session svc (d : LoginDraws) (sd : SessionDraws) (username password : string)
    (mgr : SM) (ttl : Z)
    : result (LoginResult * Session StringSubject Json) * AuthService * SM :=
  match login_gate svc d username password with
  | (Err e, svc) => (Err e, svc, mgr)
  | (Ok (user, rp), svc) =>
      let subject := StringSubject_new (uuid_to_string (u_id user)) in
      match open_session mgr subject (string_set rp.1) ttl (fresh_session sd) (created_now sd)
              (expiry_now sd) with
      | (Err e, mgr) => (Err e, svc, mgr)
      | (Ok session, mgr) =>
          ((λ lr, (lr, session)) <$> issue_for svc d user (Some (sess_id session)) rp, svc, mgr)
      end
  end.

Definition logout svc (now : Z) (session_id : Uuid) (mgr : SM) : result unit * AuthService * SM :=
  let svc := with_jwt svc (revoke_session (jwt svc) (uuid_to_string session_id) now) in
  let r := close_session mgr session_id in
  (r.1, svc, r.2).
End AuthService.
Arguments AuthService {_} DB Reg PReg St C B.
Arguments Build_AuthService {_ DB Reg PReg St C B}.

(** ** Registrations in flight

    [register_impl] cut at its accesses to the shared state: what one
    registration knows between two of them. *)
Inductive reg_phase :=
  | RStart (d : RegisterDraws) (username password : string) (display : option string)
  | RPrepared (user : UserRecord)
  | RClaimed (user : UserRecord) (won : bool)
  | RCounted (user : UserRecord) (is_first : bool)
  | RCreated (user : UserRecord) (is_first : bool)
  | RDone (is_first : bool) (answer : result UserInfo).

Section Flights.
Context `{LoginLibs, JwtLibs} {DB Reg PReg St C P B : Type}.
Context `{!UserDatabase DB, !RevocationBackend B, Permission P}.
Context `{!RoleRegistry Reg P, !PermissionRegistry PReg P}.
Context `{!AssignmentStore St StringSubject P, !PermissionCache C StringSubject P}.
Abbreviation service := (AuthService DB Reg PReg St C B).
Implicit Types (svc : service).

Definition register_step (ph : reg_phase) svc : reg_phase * service :=
  match ph with
  | RStart d username password display =>
      match prepare_user svc d username password display with
      | Ok user => (RPrepared user, svc)
      | Err e => (RDone false (Err e), svc)
      end
  | RPrepared user =>
      let r := claim_latch svc in (RClaimed user r.1, r.2)
  | RClaimed user won =>
      match count_if won svc with
      | Ok is_first => (RCounted user is_first, svc)
      | Err e => (RDone false (Err e), svc)
      end
  | RCounted user is_first =>
      match create_record svc user with
      | (Ok _, svc) => (RCreated user is_first, svc)
      | (Err e, svc) => (RDone is_first (Err e), svc)
      end
  | RCreated user is_first =>
      let r := assign_initial_role svc user is_first in (RDone is_first r.1, r.2)
  | RDone _ _ => (ph, svc)
  end.

Fixpoint run_alone (n : nat) (ph : reg_phase) svc : reg_phase * service :=
  match n with
  | 0 => (ph, svc)
  | S n => let r := register_step ph svc in run_alone n r.1 r.2
  end.

(** Undisturbed, the phases are [register_impl]. *)
Lemma register_impl_phases svc d username password display :
  ∃ f, run_alone 5 (RStart d username password display) svc =
    (RDone f (register_impl svc d username password display).1,
     (register_impl svc d username password display).2).
Proof.
  unfold register_impl. simpl. destruct (prepare_user _ _ _ _ _) as [user|e]; [|by exists false].
  simpl. destruct (claim_latch svc) as [won svc1]. simpl.
  destruct (count_if won svc1) as [f|e]; [|by exists false]. simpl.
  unfold create_record. destruct (create_user (db svc1) user) as [[[]|e] db2]; by exists f.
Qed.

(** The whole service: any number of registrations in flight, between whose
    phases every other handler may run - these leave the latch alone. *)
Record reg_system := {
  sys_svc : service;
  in_flight : gmap nat reg_phase;
}.

Inductive sys_step : reg_system → reg_system → Prop :=
  | sys_begin s t d username password display :
      in_flight s !! t = None →
      sys_step s {| sys_svc := sys_svc s;
                    in_flight := <[t := RStart d username password display]> (in_flight s) |}
  | sys_advance s t ph :
      in_flight s !! t = Some ph →
      let r := register_step ph (sys_svc s) in
      sys_step s {| sys_svc := r.2; in_flight := <[t := r.1]> (in_flight s) |}
  | sys_other s svc' :
      has_first_user svc' = has_first_user (sys_svc s) →
      sys_step s {| sys_svc := svc'; in_flight := in_flight s |}.

Definition idle svc : reg_system := {| sys_svc := svc; in_flight := ∅ |}.

(** The registration holds the latch; it has been found to be the first. *)
Definition holds_claim (ph : reg_phase) : bool :=
  match ph with
  | RClaimed _ b | RCounted _ b | RCreated _ b | RDone b _ => b
  | RStart _ _ _ _ | RPrepared _ => false
  end.

Definition is_bootstrap (ph : reg_phase) : bool :=
  match ph with
  | RCounted _ b | RCreated _ b | RDone b _ => b
  | RStart _ _ _ _ | RPrepared _ | RClaimed _ _ => false
  end.

Lemma bootstrap_holds_claim ph : is_bootstrap ph = true → holds_claim ph = true.
Proof. by destruct ph. Qed.

Lemma register_step_claim ph svc :
  let r := register_step ph svc in
  (has_first_user svc = true → has_first_user r.2 = true) ∧
  (holds_claim r.1 = true →
     holds_claim ph = true ∨ (has_first_user svc = false ∧ has_first_user r.2 = true)).
Proof.
  destruct ph as [d u p disp|user|user won|user f|user f|f r]; simpl.
  - by destruct (prepare_user _ _ _ _ _).
  - unfold claim_latch. destruct (auto_admin_first_user svc); simpl; [|by auto].
    split; [done|]. intros Hneg%negb_true_iff. by right.
  - unfold count_if. destruct won; [|by split].
    destruct (count_users (db svc)); simpl; split; (done || by auto).
  - unfold create_record. destruct (create_user _ _) as [[[]|e] db']; simpl; by auto.
  - by auto.
  - by auto.
Qed.

Definition one_claim (s : reg_system) : Prop :=
  (∀ t ph, in_flight s !! t = Some ph → holds_claim ph = true → has_first_user (sys_svc s) = true) ∧
  (∀ t1 t2 ph1 ph2, in_flight s !! t1 = Some ph1 → in_flight s !! t2 = Some ph2 →
     holds_claim ph1 = true → holds_claim ph2 = true → t1 = t2).

Lemma one_claim_step s s' : sys_step s s' → one_claim s → one_claim s'.
Proof.
  destruct 1 as [s t d u p disp Hnone|s t ph Hph r|s svc' Hsame]; intros [Hlatch Hone]; split; simpl.
  - intros t' ph. rewrite lookup_insert_Some. naive_solver.
  - intros t1 t2 ph1 ph2. rewrite !lookup_insert_Some. naive_solver.
  - destruct (register_step_claim ph (sys_svc s)) as [Hmono Hnew]. fold r in Hmono, Hnew.
    intros t' ph'. rewrite lookup_insert_Some. intros [[<- <-]|[_ Hph']] Hc; [|by eauto].
    destruct (Hnew Hc) as [Hold|[_ ?]]; [|done]. eauto.
  - destruct (register_step_claim ph (sys_svc s)) as [Hmono Hnew]. fold r in Hmono, Hnew.
    assert (Hclash : ∀ t' ph', t ≠ t' → in_flight s !! t' = Some ph' → holds_claim ph' = true →
              holds_claim r.1 = true → t = t').
    { intros t' ph' Hne Hph' Hc' Hc. destruct (Hnew Hc) as [Hold|[Hno _]]; [by eauto|].
      rewrite (Hlatch t' ph' Hph' Hc') in Hno. done. }
    intros t1 t2 ph1 ph2. rewrite !lookup_insert_Some.
    intros [[<- <-]|[Hne1 H1']] [[<- <-]|[Hne2 H2']] Hc1 Hc2; [done|by eapply Hclash|
      symmetry; by eapply Hclash|by eapply Hone].
  - intros t ph Hph Hc. rewrite Hsame. eauto.
  - done.
Qed.
End Flights.
Arguments reg_system {_} DB Reg PReg St C B.
