(* ===== verification/DefaultEngine.v ===== *)
(** * The default roles: [build_default_engine] of
    src/src/service/login/mod.rs

    The engine over the built-in permissions that the login service is meant
    to be used with, and what its four roles contain.  [Permission::all()],
    [name] and [domain] are the enum's inherent functions. *)

From S2P Require Import Prelude Traits Catalog Store Cache Engine.

(** [str::ends_with] *)
Definition ends_with (suffix s : string) : bool :=
  bool_decide (String.substring (String.length s - String.length suffix) (String.length suffix) s = suffix) &&
  bool_decide (String.length suffix ≤ String.length s).

Definition role_of (name : string) (keep : KirinoPermission → bool) : SimpleRole KirinoPermission :=
  SimpleRole_new name (list_to_set (filter (λ p, keep p = true) Inherent.all)).

Definition member_names : list string :=
  ["provider.list"; "provider.use"; "mcp.list"; "mcp.use"; "agent.list"; "agent.use";
   "channel.list"; "channel.use"; "workspace.list"; "workspace.create"; "device.list";
   "device.connect"].

(** The [filter] of each role. *)
Definition operator_keep (p : KirinoPermission) : bool :=
  negb (bool_decide (Inherent.domain p = "system")) && negb (bool_decide (Inherent.domain p = "rbac")).
Definition member_keep (p : KirinoPermission) : bool := bool_decide (Inherent.name p ∈ member_names).
Definition viewer_keep (p : KirinoPermission) : bool :=
  ends_with ".list" (Inherent.name p) || bool_decide (Inherent.name p = "deploy.read").

Definition admin_role := role_of "admin" (λ _, true).
Definition operator_role := role_of "operator" operator_keep.
Definition member_role := role_of "member" member_keep.
Definition viewer_role := role_of "viewer" viewer_keep.

Definition default_registry : StaticRoleRegistry (SimpleRole KirinoPermission) :=
  let reg := register (P := KirinoPermission) StaticRoleRegistry_new admin_role in
  let reg := register (P := KirinoPermission) reg operator_role in
  let reg := register (P := KirinoPermission) reg member_role in
  register (P := KirinoPermission) reg viewer_role.

(** [RbacEngine::new] starts with a cache of 300 seconds. *)
Definition build_default_engine :
    RbacEngine (StaticRoleRegistry (SimpleRole KirinoPermission))
      (StaticPermissionRegistry KirinoPermission) (InMemoryAssignmentStore KirinoPermission)
      TtlPermissionCache :=
  RbacEngine_new default_registry
    (StaticPermissionRegistry_new (list_to_set Inherent.all)) InMemoryAssignmentStore_new
    (TtlPermissionCache_new (300 * nanos_per_sec)).

Lemma role_of_elem name keep p :
  p ∈ simple_permissions (role_of name keep) ↔ keep p = true.
Proof.
  simpl. rewrite elem_of_list_to_set, list_elem_of_filter, inherent_all_values.
  split; [by intros []|]. intros Hk. split; [done|]. apply all_values_complete.
Qed.

Definition in_role (r : string) (p : KirinoPermission) : Prop := p ∈ flat_expand default_registry r.

Lemma default_roles_lookup r :
  roles default_registry !! r =
    if decide (r = "viewer") then Some viewer_role
    else if decide (r = "member") then Some member_role
    else if decide (r = "operator") then Some operator_role
    else if decide (r = "admin") then Some admin_role
    else None.
Proof.
  unfold default_registry, register. cbn [roles role_name SimpleRole_role].
  change (simple_name viewer_role) with "viewer". change (simple_name member_role) with "member".
  change (simple_name operator_role) with "operator". change (simple_name admin_role) with "admin".
  repeat (case_decide; [subst; by rewrite lookup_insert_eq|rewrite lookup_insert_ne by done]).
  apply lookup_empty.
Qed.

Lemma in_role_of r role p :
  roles default_registry !! r = Some role → in_role r p ↔ p ∈ simple_permissions role.
Proof. unfold in_role, flat_expand. simpl. by intros ->. Qed.

Lemma all_permissions_forall (Q : KirinoPermission → Prop) `{∀ p, Decision (Q p)} :
  bool_decide (Forall Q all_values) = true → ∀ p, Q p.
Proof. intros Hall%bool_decide_eq_true_1 p. rewrite Forall_forall in Hall. apply Hall, all_values_complete. Qed.

Lemma in_role_keep name keep p :
  roles default_registry !! name = Some (role_of name keep) → in_role name p ↔ keep p = true.
Proof. intros Hr. rewrite (in_role_of _ _ p Hr). apply role_of_elem. Qed.

Lemma in_admin p : in_role "admin" p.
Proof. apply (in_role_keep "admin" (λ _, true)); [by rewrite default_roles_lookup|done]. Qed.

Lemma in_operator p : in_role "operator" p ↔ Inherent.domain p ≠ "system" ∧ Inherent.domain p ≠ "rbac".
Proof.
  rewrite (in_role_keep "operator" operator_keep p) by by rewrite default_roles_lookup.
  unfold operator_keep. by rewrite andb_true_iff, !negb_true_iff, !bool_decide_eq_false.
Qed.

Lemma in_member p : in_role "member" p ↔ member_keep p = true.
Proof. apply in_role_keep. by rewrite default_roles_lookup. Qed.

Lemma in_viewer p : in_role "viewer" p ↔ viewer_keep p = true.
Proof. apply in_role_keep. by rewrite default_roles_lookup. Qed.

(** What the default roles contain.  An administrator holds every
    permission and an operator every one outside the system and rbac
    domains - plugin.manage, the trust root of the plugin fabric, included.
    A member holds exactly the ten permissions below: two of the twelve
    names the code filters for, agent.list and agent.use, name no permission
    of the enum, so a member has nothing in the agent domain.  A viewer
    holds the five lists and deploy.read, and no read permission of any
    other domain.  Members and viewers hold nothing an operator does not,
    and any other role name expands to nothing. *)
Theorem default_roles_spec (r : string) (p : KirinoPermission) :
  in_role "admin" p ∧
  (in_role "operator" p ↔ Inherent.domain p ≠ "system" ∧ Inherent.domain p ≠ "rbac") ∧
  in_role "operator" (Plugin Plugin.Manage) ∧
  (in_role "member" p ↔ p ∈ [Provider Provider.List; Provider Provider.Use; Mcp Mcp.List; Mcp Mcp.Use;
     Channel Channel.List; Channel Channel.Use; Workspace Workspace.List; Workspace Workspace.Create;
     Device Device.List; Device Device.Connect]) ∧
  Inherent.name p ≠ "agent.list" ∧ Inherent.name p ≠ "agent.use" ∧
  (in_role "viewer" p ↔ p ∈ [Provider Provider.List; Mcp Mcp.List; Channel Channel.List;
     Workspace Workspace.List; Device Device.List; Deploy Deploy.Read]) ∧
  (in_role "member" p ∨ in_role "viewer" p → in_role "operator" p) ∧
  (r ∉ ["admin"; "operator"; "member"; "viewer"] → ¬ in_role r p).
Proof.
  split_and!; [apply in_admin|apply in_operator|by apply in_operator|rewrite in_member| | |
    rewrite in_viewer|rewrite in_member, in_viewer, in_operator|].
  - revert p. refine (all_permissions_forall _ _). by vm_compute.
  - revert p. refine (all_permissions_forall _ _). by vm_compute.
  - revert p. refine (all_permissions_forall _ _). by vm_compute.
  - revert p. refine (all_permissions_forall _ _). by vm_compute.
  - revert p. refine (all_permissions_forall _ _). by vm_compute.
  - intros Hr. unfold in_role, flat_expand. simpl. rewrite default_roles_lookup.
    rewrite !not_elem_of_cons in Hr. repeat (rewrite decide_False by tauto). set_solver.
Qed.
