(* ===== verification/AuthFlows.v ===== *)
(** * What registration, login and password change guarantee

    The properties of [AuthService] (src/src/service/login/mod.rs), proved
    against the interfaces of the user database, the assignment store and the
    revocation table, and the in-memory stack of all three as a concrete
    instance ([Inn]). *)

From S2P Require Import Prelude Traits Catalog Store Cache Constraints Engine Session.
From S2P Require Import Identity Password RateLimit Jwt UserDatabase AuthService DefaultEngine.

Section Flows.
Context `{LoginLibs, JwtLibs} {DB Reg PReg St C P B : Type}.
Context `{!UserDatabase DB, !RevocationBackend B, Permission P}.
Context `{!RoleRegistry Reg P, !PermissionRegistry PReg P}.
Context `{!AssignmentStore St StringSubject P, !PermissionCache C StringSubject P}.
Abbreviation service := (AuthService DB Reg PReg St C B).
Implicit Types (svc : service).

(** ** Registration, step by step *)

(** The registration that finds the table empty, holding the latch. *)
Definition first_here `{!UserDatabaseLaws DB} svc : bool :=
  auto_admin_first_user svc && negb (has_first_user svc) &&
  bool_decide (size (user_table (db svc)) = 0).

Lemma prepare_user_ok svc d username password display user :
  prepare_user svc d username password display = Ok user ↔
  find_by_username (db svc) username = Ok None ∧
  ∃ hash, hash_password (salt_bytes d) password = Ok hash ∧ user = new_user d username hash display.
Proof.
  unfold prepare_user. rewrite bind_ok. split.
  - intros ([u|] & Hfind & Heq); [done|]. apply bind_ok in Heq as (hash & Hh & [= <-]). eauto.
  - intros (Hfind & hash & Hh & ->). exists None. split; [done|]. rewrite Hh. done.
Qed.

Lemma register_impl_ok `{!UserDatabaseLaws DB} svc d username password display info svc' :
  db_wf (db svc) →
  register_impl svc d username password display = (Ok info, svc') →
  ∃ user, prepare_user svc d username password display = Ok user ∧ info = to_public user ∧
    create_user (db svc) user = (Ok tt, db svc') ∧
    assign_role P (assignment_store (engine svc)) (StringSubject_new (uuid_to_string (u_id user)))
      (role_for svc (first_here svc)) = (Ok tt, assignment_store (engine svc')) ∧
    svc' = with_engine (with_db (claim_latch svc).2 (db svc')) (engine svc') ∧
    engine svc' = with_store (engine svc) (assignment_store (engine svc')).
Proof.
  intros Hwf. unfold register_impl. destruct (prepare_user _ _ _ _ _) as [user|e]; [|done].
  destruct (claim_latch svc) as [won svc1] eqn:Hclaim.
  assert (Hsvc1 : db svc1 = db svc ∧ engine svc1 = engine svc ∧
            first_user_role svc1 = first_user_role svc ∧ default_role svc1 = default_role svc ∧
            won = auto_admin_first_user svc && negb (has_first_user svc)).
  { unfold claim_latch in Hclaim. destruct (auto_admin_first_user svc); by injection Hclaim as <- <-. }
  destruct Hsvc1 as (Hdb & Heng & Hfr & Hdr & Hwon).
  destruct (count_if won svc1) as [f|e] eqn:Hcount; [|done].
  assert (Hf : f = first_here svc).
  { unfold count_if in Hcount. unfold first_here. rewrite <- Hwon, Hdb in *. destruct won; simpl.
    - destruct (count_users (db svc)) as [n|e] eqn:Hn; [|done]. injection Hcount as <-.
      rewrite (count_users_table _ _ Hwf Hn). apply bool_decide_ext. lia.
    - by injection Hcount as <-. }
  unfold create_record. rewrite Hdb.
  destruct (create_user (db svc) user) as [[[]|e] db'] eqn:Hcreate; [|done].
  unfold assign_initial_role. simpl. unfold role_for. simpl. rewrite Heng, Hfr, Hdr, Hf.
  destruct (assign_role _ _ _ _) as [[[]|e] st'] eqn:Hassign; [|done].
  intros [= <- <-]. exists user. simpl. by split_and!.
Qed.

(** Once the latch is spent, a registration gets the default role. *)
Lemma claim_latch_spent svc : has_first_user svc = true → claim_latch svc = (false, svc).
Proof.
  unfold claim_latch. destruct svc as [? ? ? ? ? ? ? ? [] b]; simpl; [|done]. by intros ->.
Qed.

Lemma run_alone_spent svc user :
  has_first_user svc = true →
  run_alone 4 (RPrepared user) svc =
    match create_record svc user with
    | (Ok _, svc2) =>
        let r := assign_initial_role svc2 user false in (RDone false r.1, r.2)
    | (Err e, svc2) => (RDone false (Err e), svc2)
    end.
Proof.
  intros Hspent. cbn [run_alone register_step]. rewrite claim_latch_spent by done.
  cbn [fst snd register_step count_if].
  by destruct (create_record svc user) as [[[]|e] svc2].
Qed.

(** ** Registration *)

(** The anatomy of a successful call: the limiter before ([l]) and the
    writes to the table and the assignments. *)
Lemma register_ok `{!UserDatabaseLaws DB} svc d username password display info svc' :
  db_wf (db svc) → register svc d username password display = (Ok info, svc') →
  ∃ hash db' st', let name := trim username in let user := new_user d name hash display in
    let l := (check_and_record_failure normalize (register_rate_limiter svc) name (reg_instant d)).2 in
    validate_username username = Ok name ∧ check_password_policy password = Ok tt ∧
    find_by_username (db svc) name = Ok None ∧ hash_password (salt_bytes d) password = Ok hash ∧
    info = to_public user ∧ create_user (db svc) user = (Ok tt, db') ∧
    assign_role P (assignment_store (engine svc)) (StringSubject_new (uuid_to_string (fresh_id d)))
      (role_for svc (first_here svc)) = (Ok tt, st') ∧
    svc' = with_register_limiter (with_engine (with_db (claim_latch svc).2 db')
             (with_store (engine svc) st')) (reset normalize l name).
Proof.
  intros Hwf. unfold register. destruct (validate_username username) as [name|e] eqn:Hname; [|done].
  pose proof (validate_username_ok _ _ Hname) as (-> & _ & _).
  destruct (check_password_policy password) as [[]|e] eqn:Hpw; [|done].
  set (svc1 := with_register_limiter svc _). destruct (_.1) as [[]|e]; [|done].
  destruct (register_impl svc1 d (trim username) password display) as [[i|e] svc2] eqn:Himpl; [|done].
  intros [= <- <-].
  destruct (register_impl_ok svc1 d _ password display i svc2 Hwf Himpl)
    as (user & Hprep & -> & Hcreate & Hassign & Hsvc2 & Heng).
  apply prepare_user_ok in Hprep as (Hfree & hash & Hhash & ->).
  exists hash, (db svc2), (assignment_store (engine svc2)). simpl. split_and!; try done.
  rewrite Hsvc2, Heng. unfold claim_latch. simpl. by destruct (auto_admin_first_user svc).
Qed.

(** C10: A registration that succeeds.  The trimmed name is 2 to 64 bytes of
    letters, digits, dots, dashes and underscores and was free; the password
    meets the policy and only its hash is stored; the record, active, with
    the fresh id, is added to the table and nothing else in it changes; the
    subject of that id gains one role - the first user's role exactly when
    the exemption is on, no registration has claimed it before and the table
    was empty, the default role otherwise - and no other subject's row
    changes; the name's registration failures are forgotten. *)
Theorem register_spec `{!UserDatabaseLaws DB, !AssignmentStoreLaws St StringSubject P}
    svc d username password display info svc' :
  db_wf (db svc) → limiter_policy (register_rate_limiter svc) = PolicyEnabled →
  register svc d username password display = (Ok info, svc') →
  ∃ hash, let user := new_user d (trim username) hash display in
    let id := uuid_to_string (fresh_id d) in
    let g := store_view (assignment_store (engine svc)) id in
    info = to_public user ∧ hash_password (salt_bytes d) password = Ok hash ∧
    2 ≤ String.length (trim username) ≤ 64 ∧
    forallb username_char (str_codes (trim username)) = true ∧
    name_taken (user_table (db svc)) (trim username) = false ∧
    check_password_policy password = Ok tt ∧
    user_table (db svc') = <[fresh_id d := user]> (user_table (db svc)) ∧ db_wf (db svc') ∧
    (∀ i, store_view (assignment_store (engine svc')) i =
       set_at (store_view (assignment_store (engine svc))) id
         (Build_Grants ({[role_for svc (first_here svc)]} ∪ g_roles g) (g_extra g) (g_denied g)) i) ∧
    RateLimit.entries (register_rate_limiter svc') !! normalize (trim username) = None.
Proof.
  intros Hwf Hpol (hash & db' & st' & Hname & Hpw & Hfree & Hhash & -> & Hcreate & Hassign & ->)%register_ok;
    [|done].
  apply validate_username_ok in Hname as (_ & Hlen & Hchars).
  destruct (create_user_table _ _ _ Hwf Hcreate) as [Hwf' Htable].
  unfold table_create in Htable. destruct (name_taken _ _) eqn:Htaken; [done|].
  case_decide; [done|]. injection Htable as Htable. exists hash. simpl. split_and!; try done; try lia.
  - intros i. exact (assign_role_view _ _ _ _ Hassign i).
  - unfold reset, check_and_record_failure. rewrite Hpol. simpl. rewrite Hpol. apply lookup_delete_eq.
Qed.

(** C33: At most one bootstrap administrator.  However many registrations are
    in flight, however their phases interleave with each other and with the
    other handlers - which may change the user table, the assignments, the
    tokens and the limiters in any way - at most one registration is ever
    found to be the first one, so at most one is given the first user's
    role. *)
Theorem at_most_one_bootstrap_admin svc s t1 t2 ph1 ph2 :
  rtc sys_step (idle svc) s →
  in_flight s !! t1 = Some ph1 → in_flight s !! t2 = Some ph2 →
  is_bootstrap ph1 = true → is_bootstrap ph2 = true → t1 = t2.
Proof.
  intros Hrtc H1' H2' Hb1 Hb2.
  assert (Hinv : one_claim s).
  { apply (rtc_invariant sys_step one_claim _ _ one_claim_step Hrtc). by split; simpl; intros *; rewrite lookup_empty. }
  apply (proj2 Hinv t1 t2 ph1 ph2); by try apply bootstrap_holds_claim.
Qed.

(** Two first registrations at once can leave nobody an administrator.
    Let the exemption be on and unclaimed, and let one registration have
    swapped the latch.  If another one then runs to its end, it gets the
    default role; the first one counts a table that is no longer empty, so
    it gets the default role too; and the latch stays claimed, so no later
    registration is the first one either. *)
Theorem racing_first_registrations_leave_no_admin `{!UserDatabaseLaws DB}
    svc userA userB f info :
  let svcA := (register_step (RPrepared userA) svc).2 in
  let B := run_alone 4 (RPrepared userB) svcA in
  auto_admin_first_user svc = true → has_first_user svc = false → db_wf (db svc) →
  B.1 = RDone f (Ok info) →
  (register_step (RPrepared userA) svc).1 = RClaimed userA true ∧
  f = false ∧
  (∀ n, count_users (db B.2) = Ok n →
     (register_step (RClaimed userA true) B.2).1 = RCounted userA false) ∧
  has_first_user B.2 = true.
Proof.
  intros svcA B0 Hauto Hlatch Hwf. subst B0.
  assert (HA : svcA = with_latch svc true).
  { unfold svcA. simpl. unfold claim_latch. by rewrite Hauto. }
  clearbody svcA. subst svcA. rewrite run_alone_spent by done. unfold create_record. simpl.
  destruct (create_user (db svc) userB) as [[[]|e] db'] eqn:Hcreate; [|done]. simpl.
  intros [= <- _]. split_and!; [|done| |done].
  { unfold claim_latch. by rewrite Hauto, Hlatch. }
  intros n Hn. rewrite Hn. simpl. destruct (create_user_table _ _ _ Hwf Hcreate) as [Hwf' Htable].
  rewrite bool_decide_eq_false_2; [done|]. apply (count_users_table _ _ Hwf') in Hn as ->.
  unfold table_create in Htable. repeat case_match; try done. injection Htable as <-.
  intros Hz. assert (Hempty : size (<[u_id userB := userB]> (user_table (db svc))) = 0) by lia.
  apply map_size_empty_inv in Hempty. by apply insert_non_empty in Hempty.
Qed.

(** ** Login *)

Lemma or_unavailable_ok {A} (r : result A) a : or_unavailable r = Ok a → r = Ok a.
Proof. by destruct r. Qed.

Lemma fetch_ok svc uid roles names :
  fetch_user_roles_and_perms svc uid = Ok (roles, names) ↔
  roles_of P (assignment_store (engine svc)) (StringSubject_new uid) = Ok roles ∧
  ∃ perms : gset P, effective_permissions (engine svc) (StringSubject_new uid) = Ok perms ∧
    names = perm_name <$> elements perms.
Proof.
  unfold fetch_user_roles_and_perms. split.
  - intros (r & Hr%or_unavailable_ok & Hrest)%bind_ok.
    apply bind_ok in Hrest as (ps & Hps%or_unavailable_ok & [= <- <-]). eauto.
  - intros (Hr & ps & Hps & ->). by rewrite Hr, Hps.
Qed.

Lemma authenticate_ok svc username password user svc' :
  authenticate_user svc username password = (Ok user, svc') ↔
  find_by_username (db svc) username = Ok (Some user) ∧ u_is_active user = true ∧
  verify_password password (u_password_hash user) = Ok true ∧
  svc' = with_limiter svc (reset normalize (rate_limiter svc) username).
Proof.
  unfold authenticate_user. split.
  - destruct (find_by_username _ _) as [[u|]|e]; [|done..].
    destruct (u_is_active u) eqn:Hact; simpl; [|done].
    destruct (verify_password _ _) as [[]|e] eqn:Hv; [|done..]. intros [= -> <-]. by split_and!.
  - intros (-> & Hact & Hv & ->). rewrite Hact. simpl. by rewrite Hv.
Qed.

Definition limiter_after svc (d : LoginDraws) (username : string) : result unit * LoginRateLimiter :=
  check_and_record_failure normalize (rate_limiter svc) (trim username) (login_instant d).

Lemma login_gate_ok svc d username password user rp svc' :
  login_gate svc d username password = (Ok (user, rp), svc') ↔
  password_login_policy svc = PolicyEnabled ∧
  (limiter_after svc d username).1 = Ok tt ∧
  find_by_username (db svc) (trim username) = Ok (Some user) ∧ u_is_active user = true ∧
  verify_password password (u_password_hash user) = Ok true ∧
  fetch_user_roles_and_perms svc (uuid_to_string (u_id user)) = Ok rp ∧
  svc' = with_limiter svc (reset normalize (limiter_after svc d username).2 (trim username)).
Proof.
  unfold login_gate, ensure_password_login_allowed. fold (limiter_after svc d username). split.
  - destruct (password_login_policy svc); simpl; [|done].
    destruct (limiter_after svc d username) as [[[]|e] l]; simpl; [|done].
    destruct (authenticate_user _ _ _) as [[u|e] svc2] eqn:Hauth; [|done].
    apply authenticate_ok in Hauth as (Hfind & Hact & Hv & ->). simpl in *.
    change (fetch_user_roles_and_perms (with_limiter _ _) ?uid) with (fetch_user_roles_and_perms svc uid).
    destruct (fetch_user_roles_and_perms svc _) as [rp'|e] eqn:Hf; simpl; [|done].
    intros [= <- <- <-]. by split_and!.
  - intros (-> & Hl & Hfind & Hact & Hv & Hf & ->). simpl.
    destruct (limiter_after svc d username) as [r l]; simpl in *. subst r.
    assert (Hok : authenticate_user (with_limiter svc l) (trim username) password =
              (Ok user, with_limiter svc (reset normalize l (trim username))))
      by by apply authenticate_ok.
    rewrite Hok. change (fetch_user_roles_and_perms (with_limiter _ _) ?uid)
      with (fetch_user_roles_and_perms svc uid). by rewrite Hf.
Qed.

Lemma login_iff svc d username password lr svc' :
  login svc d username password = (Ok lr, svc') ↔
  ∃ user roles (perms : gset P),
    password_login_policy svc = PolicyEnabled ∧
    (limiter_after svc d username).1 = Ok tt ∧
    find_by_username (db svc) (trim username) = Ok (Some user) ∧ u_is_active user = true ∧
    verify_password password (u_password_hash user) = Ok true ∧
    let uid := uuid_to_string (u_id user) in
    roles_of P (assignment_store (engine svc)) (StringSubject_new uid) = Ok roles ∧
    effective_permissions (engine svc) (StringSubject_new uid) = Ok perms ∧
    encode (issued_claims (jwt svc) uid (u_username user) roles (perm_name <$> elements perms) None
              (token_now d) (token_jti d)) (encoding_key (jwt svc)) = inl (token lr) ∧
    lr = {| token := token lr; lr_user_id := uid; lr_username := u_username user;
            lr_display_name := u_display_name user; lr_roles := roles; lr_session_id := None |} ∧
    svc' = with_limiter svc (reset normalize (limiter_after svc d username).2 (trim username)).
Proof.
  unfold login. split.
  - destruct (login_gate svc d username password) as [[[user [roles names]]|e] svc2] eqn:Hg; [|done].
    apply login_gate_ok in Hg as (Hp & Hl & Hf & Ha & Hv & (Hr & perms & He & ->)%fetch_ok & ->).
    unfold issue_for, issue_with_options. simpl.
    destruct (encode _ _) as [tok|e] eqn:Henc; simpl; [|done]. intros [= <- <-].
    exists user, roles, perms. by split_and!.
  - intros (user & roles & perms & Hp & Hl & Hf & Ha & Hv & Hr & He & Henc & Hlr & ->).
    assert (Hg : login_gate svc d username password =
      (Ok (user, (roles, perm_name <$> elements perms)),
       with_limiter svc (reset normalize (limiter_after svc d username).2 (trim username)))).
    { apply login_gate_ok. split_and!; try done. apply fetch_ok. eauto. }
    rewrite Hg. unfold issue_for, issue_with_options. simpl. rewrite Henc. simpl. by rewrite <- Hlr.
Qed.

(** C11: When a login succeeds, and what it issues.  It succeeds exactly when
    password login is offered, the limiter lets the trimmed name try, the
    table has an active account of exactly that name whose hash the password
    verifies against, the roles and the effective permissions of its id can
    be read and the claims can be encoded; the token then carries the id,
    the name, these roles and the names of these permissions and no session,
    and the only change of state is the limiter's, which has forgotten the
    name's failures. *)
Theorem login_accepts_iff svc d username password lr svc' :
  login svc d username password = (Ok lr, svc') ↔
  ∃ user roles (perms : gset P),
    password_login_policy svc = PolicyEnabled ∧
    (limiter_after svc d username).1 = Ok tt ∧
    find_by_username (db svc) (trim username) = Ok (Some user) ∧ u_is_active user = true ∧
    verify_password password (u_password_hash user) = Ok true ∧
    let uid := uuid_to_string (u_id user) in
    roles_of P (assignment_store (engine svc)) (StringSubject_new uid) = Ok roles ∧
    effective_permissions (engine svc) (StringSubject_new uid) = Ok perms ∧
    encode (issued_claims (jwt svc) uid (u_username user) roles (perm_name <$> elements perms) None
              (token_now d) (token_jti d)) (encoding_key (jwt svc)) = inl (token lr) ∧
    lr = {| token := token lr; lr_user_id := uid; lr_username := u_username user;
            lr_display_name := u_display_name user; lr_roles := roles; lr_session_id := None |} ∧
    svc' = with_limiter svc (reset normalize (limiter_after svc d username).2 (trim username)).
Proof. apply login_iff. Qed.

(** The account cannot be logged into with this password. *)
Definition refuses (d : DB) (name password : string) : Prop :=
  ∃ found, find_by_username d name = Ok found ∧
    match found with
    | None => True
    | Some user => u_is_active user = false ∨
        verify_password password (u_password_hash user) = Ok false
    end.

(** A failed login does not tell what was wrong.  Whether the account
    does not exist, is deactivated or has another password, the answer is
    the same, the state changes in the limiter alone and in the same way;
    and while password login is disabled nothing is looked up, counted or
    changed at all. *)
Theorem login_failure_is_uniform svc d username password (db1 db2 : DB) :
  refuses db1 (trim username) password → refuses db2 (trim username) password →
  ∃ e l, ((e = authentication_failed ∨ (limiter_after svc d username).1 = Err e) ∧
            l = (limiter_after svc d username).2 ∨
          e = password_login_disabled ∧ l = rate_limiter svc) ∧
    login (with_db svc db1) d username password = (Err e, with_limiter (with_db svc db1) l) ∧
    login (with_db svc db2) d username password = (Err e, with_limiter (with_db svc db2) l).
Proof.
  assert (Hauth : ∀ dbi l, refuses dbi (trim username) password →
    authenticate_user (with_limiter (with_db svc dbi) l) (trim username) password =
      (Err authentication_failed, with_limiter (with_db svc dbi) l)).
  { intros dbi l (found & Hfind & Hcase). unfold authenticate_user. simpl. rewrite Hfind.
    destruct found as [user|]; [|done]. destruct (u_is_active user); [|done]. simpl.
    destruct Hcase as [?| ->]; done. }
  intros Hr1 Hr2. unfold login, login_gate, ensure_password_login_allowed. simpl.
  fold (limiter_after svc d username).
  destruct (password_login_policy svc); simpl.
  - destruct (limiter_after svc d username) as [[[]|e] l]; simpl.
    + rewrite !Hauth by done. exists authentication_failed, l. by auto.
    + exists e, l. by auto.
  - exists password_login_disabled, (rate_limiter svc). split; [by auto|]. by destruct svc.
Qed.

(** ** Password change and deletion *)

Lemma change_password_ok svc salt now stamp uid_str old new svc' :
  change_password svc salt now stamp uid_str old new = (Ok tt, svc') →
  ∃ uid user hash db', uuid_parse_str uid_str = inl uid ∧
    find_by_id (db svc) uid = Ok (Some user) ∧
    verify_password old (u_password_hash user) = Ok true ∧
    check_password_policy new = Ok tt ∧ hash_password salt new = Ok hash ∧
    update_password (db svc) uid hash stamp = (Ok tt, db') ∧
    svc' = with_db (with_jwt svc (revoke_all_for_user (jwt svc) uid_str now)) db'.
Proof.
  unfold change_password. destruct (uuid_parse_str uid_str) as [uid|]; [|done].
  destruct (_ ≫= _) as [hash|e] eqn:Hchain; [|done].
  apply bind_ok in Hchain as ([user|] & Hfind & Hchain); [|done].
  apply bind_ok in Hchain as ([] & Hv & Hchain); [|done]. simpl in Hchain.
  apply bind_unit_ok in Hchain as [Hpol Hhash].
  intros Hend. injection Hend as Hr <-. exists uid, user, hash.
  destruct (update_password (db svc) uid hash stamp) as [r db'] eqn:Hu. simpl in *. subst r.
  exists db'. by split_and!.
Qed.

Lemma revoke_all_rejects `{!RevocationLaws B} (m : JwtManager B) uid now tok c t :
  verify m tok t = Ok c → Jwt.user_id c = uid → (iat c ≤ now + 1)%Z →
  verify_with_revocation (revoke_all_for_user m uid now) tok t = Err revoked.
Proof.
  intros Hv <- Hle. destruct (revoke_same (revocation m) (Jwt.user_id c) (now + 1)%Z) as (nb & Hnb & Hge).
  apply (verify_rejects _ tok t c (Jwt.user_id c) nb); [done|by constructor|done|lia].
Qed.

Lemma revoke_all_spares `{!RevocationLaws B} (m : JwtManager B) uid now tok c t :
  uid ∉ token_keys c → verify_with_revocation m tok t = Ok c →
  verify_with_revocation (revoke_all_for_user m uid now) tok t = Ok c.
Proof.
  intros Hkeys [Hv Hclear]%verify_accepts. apply verify_accepts. split; [done|].
  intros k nb Hk Hnb. apply (Hclear k nb Hk). eapply revoke_inv; [|exact Hnb]. by intros ->.
Qed.

(** A password change that succeeds.  The id parses to an account, the
    old password verifies against its hash and the new one meets the policy;
    afterwards the account has a hash of the new password and the table is
    otherwise unchanged, as are roles, limiters and the latch; and every
    token that names the account by the id as it was spelled in the call and
    was issued up to one second later is refused from then on. *)
Theorem change_password_spec `{!UserDatabaseLaws DB, !RevocationLaws B}
    svc salt now stamp uid_str old new svc' :
  db_wf (db svc) → change_password svc salt now stamp uid_str old new = (Ok tt, svc') →
  ∃ uid user hash, uuid_parse_str uid_str = inl uid ∧ user_table (db svc) !! uid = Some user ∧
    verify_password old (u_password_hash user) = Ok true ∧
    check_password_policy new = Ok tt ∧ hash_password salt new = Ok hash ∧
    user_table (db svc') = <[uid := with_password user hash stamp]> (user_table (db svc)) ∧
    db_wf (db svc') ∧
    svc' = with_db (with_jwt svc (jwt svc')) (db svc') ∧
    (∀ tok c t, verify (jwt svc) tok t = Ok c → Jwt.user_id c = uid_str → (iat c ≤ now + 1)%Z →
       verify_token svc' tok t = Err revoked).
Proof.
  intros Hwf (uid & user & hash & db' & Huid & Hfind & Hv & Hpol & Hhash & Hup & ->)%change_password_ok.
  pose proof (find_by_id_table _ _ _ Hwf Hfind) as Hrow.
  destruct (update_password_table _ _ _ _ _ Hwf Hup) as [Hwf' Htable].
  unfold table_update_password in Htable. rewrite <- Hrow in Htable. injection Htable as Htable.
  exists uid, user, hash. simpl. split_and!; try done.
  intros tok c t Hver Hid Hiat. by eapply revoke_all_rejects.
Qed.

(** Another spelling of the id changes the password and revokes nothing.
    [Uuid::parse_str] accepts several spellings of an id, but the revocation
    is filed under the spelling of the call, while tokens carry the
    canonical one.  So a password change or a deletion under a spelling that
    is none of a token's own keys reaches the account, and a token accepted
    before is accepted afterwards. *)
Theorem alias_id_revokes_nothing `{!UserDatabaseLaws DB, !RevocationLaws B}
    svc salt now stamp alias old new uid tok c t :
  db_wf (db svc) → uuid_parse_str alias = inl uid →
  verify_token svc tok t = Ok c → alias ∉ token_keys c →
  (∀ svc', change_password svc salt now stamp alias old new = (Ok tt, svc') →
     (∃ user hash, user_table (db svc') !! uid = Some user ∧
        hash_password salt new = Ok hash ∧ u_password_hash user = hash) ∧
     verify_token svc' tok t = Ok c) ∧
  (∀ svc', delete_user svc now alias = (Ok true, svc') →
     user_table (db svc') !! uid = None ∧ verify_token svc' tok t = Ok c).
Proof.
  intros Hwf Halias Htok Hkeys. split.
  - intros svc' (? & user & hash & db' & Hu2 & Hf & _ & _ & Hh & Hup & ->)%change_password_ok.
    rewrite Halias in Hu2. injection Hu2 as <-.
    destruct (update_password_table _ _ _ _ _ Hwf Hup) as [_ Htable].
    unfold table_update_password in Htable. pose proof (find_by_id_table _ _ _ Hwf Hf) as Hrow.
    rewrite <- Hrow in Htable. injection Htable as Htable. split.
    + simpl. rewrite <- Htable. eexists _, _. rewrite lookup_insert_eq. by split_and!.
    + by apply revoke_all_spares.
  - intros svc'. unfold delete_user. rewrite Halias.
    destruct (UserDatabase.delete_user _ uid) as [r db'] eqn:Hdel. simpl in *. intros [= -> <-].
    destruct (delete_user_table _ _ _ _ Hwf Hdel) as [_ Htable]. injection Htable as _ Htable. split.
    + simpl. rewrite <- Htable. apply lookup_delete_eq.
    + by apply revoke_all_spares.
Qed.

(** What deleting an account does.  It answers whether the account
    existed; the record is gone, nothing else in the table changes, its name
    can no longer log in, and the tokens issued to the id as spelled are
    refused; but the roles and grants of its id stay in the store, so
    [check_permission] answers for the deleted account as it did before. *)
Theorem delete_user_spec `{!UserDatabaseLaws DB, !RevocationLaws B}
    svc now uid_str uid b svc' user d password :
  db_wf (db svc) → uuid_parse_str uid_str = inl uid → user_table (db svc) !! uid = Some user →
  delete_user svc now uid_str = (Ok b, svc') →
  b = true ∧ user_table (db svc') = delete uid (user_table (db svc)) ∧ db_wf (db svc') ∧
  (trim (u_username user) = u_username user →
   ¬ ∃ lr svc2, login svc' d (u_username user) password = (Ok lr, svc2)) ∧
  (∀ tok c t, verify (jwt svc) tok t = Ok c → Jwt.user_id c = uid_str → (iat c ≤ now + 1)%Z →
     verify_token svc' tok t = Err revoked) ∧
  (∀ clk i p, (check_permission svc' clk i p).1 = (check_permission svc clk i p).1).
Proof.
  intros Hwf Hparse Hrow. unfold delete_user. rewrite Hparse.
  destruct (UserDatabase.delete_user _ uid) as [r db'] eqn:Hdel. simpl in *. intros [= -> <-].
  destruct (delete_user_table _ _ _ _ Hwf Hdel) as [Hwf' Htable]. injection Htable as <- Htable.
  simpl. rewrite Hrow. split_and!; [done|by rewrite Htable|done| | |done].
  - intros Htrim (lr & svc2 & Hlogin).
    apply (login_iff _ _ _ _ lr) in Hlogin as (u & roles & perms & _ & _ & Hfind & _). simpl in Hfind.
    destruct (find_by_username_table _ _ _ Hwf' Hfind) as [Hu Hn]. rewrite <- Htable in Hu.
    apply lookup_delete_Some in Hu as [Hne Hu]. rewrite Htrim in Hn.
    apply Hne. by apply (proj2 (db_wf_table _ Hwf) uid (u_id u) user u).
  - intros tok c t Hver Hid Hiat. by eapply revoke_all_rejects.
Qed.
End Flows.

(** ** Sessions *)

Section Sessions.
Context `{LoginLibs, JwtLibs} {DB Reg PReg St St' CS C P B Json : Type}.
Context `{!UserDatabase DB, !RevocationBackend B, !RevocationLaws B, Permission P}.
Context `{!RoleRegistry Reg P, !PermissionRegistry PReg P, !ConstraintStore CS}.
Context `{!AssignmentStore St StringSubject P, !PermissionCache C StringSubject P}.
Context `{!AssignmentStore St' StringSubject P}.
Variable debug : gset string → string.
Abbreviation service := (AuthService DB Reg PReg St C B).
Abbreviation manager := (InMemorySessionManager CS St' StringSubject Json).
Implicit Types (svc : service) (mgr : manager).
#[local] Instance mem_sessions : SessionManager manager Json := memory_session_manager (P := P) debug.

(** A session login and its logout.  A login with a session opens one
    for the account's id whose active roles are among those the account
    holds, and issues a token bound to that session; the logout of the
    session removes it from the manager and from then on the token is
    refused, even though the logout did not ask whose session it was. *)
Theorem session_login_then_logout
    (roundtrip_law : ∀ secret c tok now,
      encode c (encoding_from_secret secret) = inl tok → (now - leeway ≤ exp c)%Z →
      decode tok (decoding_from_secret secret) now = inl c)
    svc svc1 secret mgr mgr1 d sd username password ttl lr session now t :
  encoding_key (jwt svc) = encoding_from_secret secret →
  decoding_key (jwt svc) = decoding_from_secret secret →
  login_with_session (SM := manager) svc d sd username password mgr ttl = (Ok (lr, session), svc1, mgr1) →
  (token_now d ≤ now)%Z → (t ≤ token_now d + expiration_hours (jwt svc) * 3600 + leeway)%Z →
  lr_session_id lr = Some (fresh_session sd) ∧
  get_session mgr1 (fresh_session sd) = Ok (Some session) ∧
  subject_id (sess_subject session) = lr_user_id lr ∧
  active_roles session ⊆ string_set (lr_roles lr) ∧
  let '(r, svc2, mgr2) := logout svc1 now (fresh_session sd) mgr1 in
  r = Ok tt ∧ get_session mgr2 (fresh_session sd) = Ok None ∧
  verify_token svc2 (token lr) t = Err revoked.
Proof.
  intros Henc Hdec. unfold login_with_session.
  destruct (login_gate svc d username password) as [[[user rp]|e] svc'] eqn:Hg; [|done].
  apply login_gate_ok in Hg as (_ & _ & _ & _ & _ & _ & ->). simpl.
  unfold create_session. destruct (create_roles _ _ _ _) as [active|e] eqn:Hroles; [|done].
  simpl. unfold issue_for, issue_with_options. simpl.
  set (c := issued_claims _ _ _ _ _ _ _ _).
  destruct (encode c (encoding_key (jwt svc))) as [tok|e] eqn:Hencode; simpl; [|done].
  intros [= <- <- <- <-] Hnow Ht. simpl. split_and!; try done.
  - unfold get_session. simpl. by rewrite lookup_insert_eq.
  - unfold create_roles in Hroles. apply bind_ok in Hroles as (assigned & _ & Hroles).
    apply bind_unit_ok in Hroles as [_ [= <-]]. intros r [_ Hr]%elem_of_filter. done.
  - unfold get_session. simpl. by rewrite lookup_delete_eq.
  - unfold verify_token. simpl. set (key := session_key (uuid_to_string (fresh_session sd))).
    destruct (revoke_same (revocation (jwt svc)) key now) as (nb & Hnb & Hle).
    apply (verify_rejects _ tok t c key nb).
    + unfold verify. simpl. rewrite Hdec, (roundtrip_law secret c); [done|by rewrite <- Henc|simpl; lia].
    + unfold token_keys. simpl. set_solver.
    + done.
    + simpl. lia.
Qed.
End Sessions.

(** ** Registration to login, in memory *)

Section EndToEnd.
Context `{LoginLibs, JwtLibs} {Reg PReg C P : Type}.
Context `{Permission P, !UniqueNames P}.
Context `{!RoleRegistry Reg P, !PermissionRegistry PReg P, !PermissionCache C StringSubject P}.
Abbreviation service :=
  (AuthService InMemoryUserDatabase Reg PReg (InMemoryAssignmentStore P) C MemoryRevocationBackend).
Implicit Types (svc : service).

(** The id has never been given anything. *)
Definition unassigned svc (id : string) : Prop :=
  let st := assignment_store (engine svc) in
  role_assignments st !! id = None ∧ extra_perms st !! id = None ∧ denied_perms st !! id = None.

(** The grants of an id right after its first role. *)
Lemma fetch_first_role svc st' id role :
  unassigned svc id →
  assign_role P (assignment_store (engine svc)) (StringSubject_new id) role = (Ok tt, st') →
  ∃ perms : gset P,
    fetch_user_roles_and_perms (with_engine svc (with_store (engine svc) st')) id =
      Ok ([role], perm_name <$> elements perms) ∧
    ∀ p, p ∈ perms ↔ p ∈ flat_expand (role_registry (engine svc)) role.
Proof.
  intros (Hr & He & Hd) [= <-]. set (svc1 := with_engine svc _).
  assert (Heff : ∃ perms : gset P, effective_permissions (engine svc1) (StringSubject_new id) = Ok perms ∧
            ∀ p, p ∈ perms ↔ p ∈ flat_expand (role_registry (engine svc)) role).
  { unfold effective_permissions, svc1. simpl.
    unfold mem_roles_of, mem_extra_permissions, mem_denied_permissions. simpl.
    rewrite lookup_insert_eq, Hr, He, Hd. simpl.
    rewrite (right_id_L (∅ : gset string) (∪)), elements_singleton.
    eexists. split; [done|]. intros p. rewrite elem_of_filter. unfold flat_expand, flat_role_union. simpl.
    destruct (get_role_permissions _ role); simpl; rewrite ?elem_of_union, ?elem_of_empty; tauto. }
  destruct Heff as (perms & Heff & Hperms). exists perms. split; [|done]. apply fetch_ok. split.
  - simpl. unfold mem_roles_of. simpl. rewrite lookup_insert_eq, Hr. simpl.
    by rewrite (right_id_L ∅ (∪)), elements_singleton.
  - by exists perms.
Qed.

(** A registered account logs in and holds exactly its first role.  With
    the in-memory stores, right after a successful registration under a
    fresh id, a login with the same name and password - if password login is
    offered and the login limiter lets the name try - succeeds, and its
    token verifies, up to its expiry, to the trimmed name, the account's id,
    the one role registration has given, and as permissions the names of
    exactly what the role registry lists for that role. *)
Theorem registered_account_logs_in
    (hash_law : ∀ salt pw h, hash_password salt pw = Ok h → verify_password pw h = Ok true)
    (encode_law : ∀ c k, is_inl (encode c k) = true)
    (roundtrip_law : ∀ secret c tok now,
      encode c (encoding_from_secret secret) = inl tok → (now - leeway ≤ exp c)%Z →
      decode tok (decoding_from_secret secret) now = inl c)
    svc svc' secret d ld username password display info t :
  let id := uuid_to_string (fresh_id d) in
  let role := role_for svc (first_here svc) in
  mem_wf (db svc) → unassigned svc id →
  encoding_key (jwt svc) = encoding_from_secret secret →
  decoding_key (jwt svc) = decoding_from_secret secret →
  revocation_map (revocation (jwt svc)) !! id = None →
  revocation_map (revocation (jwt svc)) !! token_jti ld = None →
  password_login_policy svc = PolicyEnabled → (limiter_after svc ld username).1 = Ok tt →
  register svc d username password display = (Ok info, svc') →
  (t ≤ token_now ld + expiration_hours (jwt svc) * 3600 + leeway)%Z →
  ∃ lr svc2 c, login svc' ld username password = (Ok lr, svc2) ∧
    verify_token svc2 (token lr) t = Ok c ∧ sub_username c = trim username ∧ sub_uuid c = id ∧
    claims_roles c = [role] ∧
    (∀ p : P, perm_name p ∈ claims_permissions c ↔ p ∈ flat_expand (role_registry (engine svc)) role).
Proof.
  intros id role Hwf Hun Henc Hdec Hrow1 Hrow2 Hpol Hlim
    (hash & db' & st' & _ & _ & _ & Hhash & -> & Hcreate & Hassign & ->)%register_ok Ht; [|done].
  set (svc' := with_register_limiter _ _). set (user := new_user d (trim username) hash display) in *.
  destruct (fetch_first_role svc st' id role Hun Hassign) as (perms & Hfetch & Hperms).
  assert (Hjwt : jwt svc' = jwt svc ∧ password_login_policy svc' = password_login_policy svc ∧
            limiter_after svc' ld username = limiter_after svc ld username).
  { unfold svc', claim_latch. by destruct (auto_admin_first_user svc). }
  destruct Hjwt as (Hjwt & Hpol' & Hlim').
  set (c := issued_claims (jwt svc) id (trim username) [role] (perm_name <$> elements perms) None
              (token_now ld) (token_jti ld)).
  pose proof (encode_law c (encoding_key (jwt svc))) as Htok.
  destruct (encode c (encoding_key (jwt svc))) as [tok|] eqn:Hencode; [clear Htok|done].
  assert (Hfind : mem_find_by_username db' (trim username) = Ok (Some user)).
  { simpl in Hcreate. unfold mem_create_user in Hcreate. repeat case_decide; try done.
    injection Hcreate as <-. unfold mem_find_by_username. simpl. by rewrite lookup_insert_eq. }
  assert (Hgate : login_gate svc' ld username password =
    (Ok (user, ([role], perm_name <$> elements perms)),
     with_limiter svc' (reset normalize (limiter_after svc ld username).2 (trim username)))).
  { apply login_gate_ok. rewrite Hpol', Hlim'. split_and!; try done. by eapply hash_law. }
  unfold login. rewrite Hgate. unfold issue_for, issue_with_options.
  cbn [jwt with_limiter fst snd u_id u_username user new_user]. rewrite Hjwt.
  change (uuid_to_string <$> @None Uuid) with (@None string). fold id. fold c. rewrite Hencode.
  cbn [fmap result_fmap mbind result_bind]. eexists _, _, c.
  split; [done|]. split.
  - unfold verify_token. cbn [jwt with_limiter token]. rewrite Hjwt. apply verify_accepts. split.
    + unfold verify. rewrite Hdec, (roundtrip_law secret c); [done|by rewrite <- Henc|simpl; lia].
    + intros k nb. unfold token_keys. simpl. rewrite !elem_of_cons. simpl. unfold mem_get_not_before.
      intros [->|[->|[]%not_elem_of_nil]]; congruence.
  - split_and!; [done..|]. intros p. unfold c. cbn [claims_permissions issued_claims]. rewrite list_elem_of_fmap. setoid_rewrite elem_of_elements. split.
    + intros (q & Hname & Hq). apply perm_name_inj in Hname as ->. by apply Hperms.
    + intros Hp%Hperms. by exists p.
Qed.
End EndToEnd.

(** ** A small install

    The default engine over the in-memory stores, an identity of strokes that
    may also be written after a brace, and a hash that is the password itself
    behind a seal. *)
Module Inn.
#[local] Existing Instance ToyJwt.libs.

Fixpoint trim_left (s : string) : string :=
  match s with
  | String c r => if decide (c = Ascii.ascii_of_N 32) then trim_left r else s
  | EmptyString => s
  end.

Definition parse_str (s : string) : Uuid + string :=
  match s with
  | String c r => if decide (c = Ascii.ascii_of_N 123) then Strokes.read r else Strokes.read s
  | EmptyString => Strokes.read s
  end.

Definition sealed (password : list N) : string :=
  String (Ascii.ascii_of_N 36) (Seal.seal [countable.encode password]).

#[local] Instance libs : LoginLibs := {|
  trim := trim_left;
  to_lowercase := ascii_lowercase_str;
  is_uppercase := ascii_upper;
  is_lowercase := ascii_lower;
  is_alphanumeric := is_ascii_alphanumeric;
  uuid_to_string := Strokes.show;
  uuid_parse_str := parse_str;
  Salt := list N;
  PasswordHash := string;
  salt_encode_b64 := inl;
  argon2_hash := λ password _, inl (sealed password);
  password_hash_new := λ s, if decide (s = "") then inr "empty" else inl s;
  argon2_verify := λ password hash, bool_decide (hash = sealed password);
|}.

Lemma hash_law salt pw h : hash_password salt pw = Ok h → verify_password pw h = Ok true.
Proof.
  unfold hash_password, verify_password. simpl. intros [= <-].
  by rewrite decide_False, bool_decide_eq_true_2 by done.
Qed.

Lemma encode_law c k : is_inl (encode c k) = true.
Proof. done. Qed.

Abbreviation service :=
  (AuthService InMemoryUserDatabase (StaticRoleRegistry (SimpleRole KirinoPermission))
     (StaticPermissionRegistry KirinoPermission) (InMemoryAssignmentStore KirinoPermission)
     TtlPermissionCache MemoryRevocationBackend).

(** Nobody has an account yet; the first one will be an administrator. *)
Definition svc0 : service := {|
  db := InMemoryUserDatabase_new;
  jwt := ToyJwt.manager;
  engine := build_default_engine;
  rate_limiter := LoginRateLimiter_new 5 300 900;
  register_rate_limiter := LoginRateLimiter_new 3 300 1800;
  password_login_policy := PolicyEnabled;
  first_user_role := "admin";
  default_role := "member";
  auto_admin_first_user := true;
  has_first_user := false;
|}.

Definition password : string := "Passw0rd!".
Definition d1 : RegisterDraws := {| salt_bytes := []; fresh_id := 7; reg_now := 0; reg_instant := 0 |}.
Definition d2 : RegisterDraws := {| salt_bytes := []; fresh_id := 9; reg_now := 0; reg_instant := 0 |}.
Definition ann : UserRecord := new_user d1 "ann" (sealed (str_codes password)) None.
Definition bob : UserRecord := new_user d2 "bob" (sealed (str_codes password)) None.
Definition svc1 : service := (register svc0 d1 " ann" password None).2.
Definition ld : LoginDraws := {| login_instant := 1; token_now := 1000; token_jti := "j" |}.

Lemma registered : register svc0 d1 " ann" password None = (Ok (to_public ann), svc1).
Proof. unfold svc1. rewrite (surjective_pairing (register _ _ _ _ _)). f_equal; by vm_compute. Qed.

Abbreviation system :=
  (reg_system InMemoryUserDatabase (StaticRoleRegistry (SimpleRole KirinoPermission))
     (StaticPermissionRegistry KirinoPermission) (InMemoryAssignmentStore KirinoPermission)
     TtlPermissionCache MemoryRevocationBackend).

(** The registration of index 0 takes its next step. *)
Definition advance (s : system) (ph : reg_phase) : system := {|
  sys_svc := (register_step (P := KirinoPermission) ph (sys_svc s)).2;
  in_flight := <[0 := (register_step (P := KirinoPermission) ph (sys_svc s)).1]> (in_flight s) |}.
Definition begun : system := {|
  sys_svc := svc0;
  in_flight := <[0 := RStart d1 "ann" password None]> ∅ |}.
Definition counted : system :=
  advance (advance (advance begun (RStart d1 "ann" password None)) (RPrepared ann)) (RClaimed ann true).

Lemma counted_reached : rtc (sys_step (P := KirinoPermission)) (idle svc0) counted.
Proof.
  apply rtc_l with begun; [by apply (sys_begin (idle svc0))|].
  apply rtc_l with (advance begun (RStart d1 "ann" password None)); [by apply sys_advance|].
  apply rtc_l with (advance (advance begun (RStart d1 "ann" password None)) (RPrepared ann));
    [by apply sys_advance|].
  apply rtc_once. by apply (sys_advance _ 0 (RClaimed ann true)).
Qed.

Lemma svc0_wf : db_wf (db svc0).
Proof. done. Qed.

Lemma svc1_db : db svc1 = (mem_create_user InMemoryUserDatabase_new ann).2.
Proof. by vm_compute. Qed.

Lemma svc1_wf : db_wf (db svc1).
Proof. rewrite svc1_db. by apply mem_create_table. Qed.

Lemma ann_row : user_table (db svc1) !! 7%N = Some ann.
Proof. rewrite svc1_db. by vm_compute. Qed.

Definition svc2 : service := (change_password svc1 [] 2000 0 (Strokes.show 7) password "N3wpassword").2.

Lemma changed : change_password svc1 [] 2000 0 (Strokes.show 7) password "N3wpassword" = (Ok tt, svc2).
Proof. unfold svc2. rewrite (surjective_pairing (change_password _ _ _ _ _ _ _)). f_equal; by vm_compute. Qed.

Definition alias : string := String (Ascii.ascii_of_N 123) (Strokes.show 7).
Definition svc2_alias : service := (change_password svc1 [] 2000 0 alias password "N3wpassword").2.

Lemma changed_alias : change_password svc1 [] 2000 0 alias password "N3wpassword" = (Ok tt, svc2_alias).
Proof.
  unfold svc2_alias. rewrite (surjective_pairing (change_password _ _ _ _ _ _ _)). f_equal; by vm_compute.
Qed.

Lemma deleted : delete_user svc1 2000 (Strokes.show 7) =
  (Ok true, (delete_user svc1 2000 (Strokes.show 7)).2).
Proof. rewrite (surjective_pairing (delete_user _ _ _)). f_equal; by vm_compute. Qed.

Lemma parse_seven : uuid_parse_str (Strokes.show 7) = inl 7%N.
Proof. by vm_compute. Qed.

Definition clock : CheckClock := {| now_get := 0; now_set := Build_SetClock 0 0 0 |}.

(** The token of Ann's first login, and the install after it. *)
Definition logged_in : LoginResult :=
  match (login svc1 ld "ann" password).1 with
  | Ok lr => lr
  | Err _ => {| token := ""; lr_user_id := ""; lr_username := ""; lr_display_name := None;
                lr_roles := []; lr_session_id := None |}
  end.
Definition ann_claims : Claims :=
  issued_claims ToyJwt.manager (Strokes.show 7) "ann" ["admin"]
    (claims_permissions (default (issued_claims ToyJwt.manager "" "" [] [] None 0 "")
       (snd <$> ToyJwt.toy_open (token logged_in)))) None 1000 "j".

Lemma logged_in_verifies : verify_token svc1 (token logged_in) 3000 = Ok ann_claims.
Proof. by vm_compute. Qed.
End Inn.

Section FlowWitnesses.
Existing Instance ToyJwt.libs.
Existing Instance Inn.libs.

Lemma register_spec_witness :
  name_taken (user_table (db Inn.svc0)) "ann" = false ∧
  ∃ hash, user_table (db Inn.svc1) =
    <[7%N := new_user Inn.d1 "ann" hash None]> (user_table (db Inn.svc0)).
Proof.
  destruct (register_spec Inn.svc0 Inn.d1 " ann" Inn.password None _ Inn.svc1 Inn.svc0_wf eq_refl
    Inn.registered) as (hash & _ & _ & _ & _ & Hfree & _ & Htable & _).
  split; [exact Hfree|]. exists hash. exact Htable.
Defined.

(** One registration, up to the count of the users. *)
Lemma at_most_one_bootstrap_admin_witness : ∃ s,
  rtc (sys_step (P := KirinoPermission)) (idle Inn.svc0) s ∧
  in_flight s !! 0 = Some (RCounted Inn.ann true) ∧ 0 = 0.
Proof.
  assert (Hph : in_flight Inn.counted !! 0 = Some (RCounted Inn.ann true)) by reflexivity.
  exists Inn.counted. split; [exact Inn.counted_reached|]. split; [exact Hph|].
  exact (at_most_one_bootstrap_admin Inn.svc0 Inn.counted 0 0 _ _ Inn.counted_reached Hph Hph
    eq_refl eq_refl).
Defined.

Lemma racing_first_registrations_leave_no_admin_witness :
  let B := run_alone (P := KirinoPermission) 4 (RPrepared Inn.bob)
             (register_step (P := KirinoPermission) (RPrepared Inn.ann) Inn.svc0).2 in
  (register_step (P := KirinoPermission) (RClaimed Inn.ann true) B.2).1 = RCounted Inn.ann false ∧
  has_first_user B.2 = true.
Proof.
  destruct (racing_first_registrations_leave_no_admin Inn.svc0 Inn.ann Inn.bob false
    (to_public Inn.bob)) as (_ & _ & Hcount & Hlatch).
  - reflexivity.
  - reflexivity.
  - exact Inn.svc0_wf.
  - reflexivity.
  - split; [by apply (Hcount 1%Z)|exact Hlatch].
Defined.

(** No account, and an account with another password. *)
Lemma login_failure_is_uniform_witness : ∃ e l,
  (login (with_db Inn.svc0 (db Inn.svc0)) Inn.ld "ann" "guess").1 = Err e ∧
  (login (with_db Inn.svc0 (db Inn.svc1)) Inn.ld "ann" "guess").1 = Err e ∧
  rate_limiter (login (with_db Inn.svc0 (db Inn.svc1)) Inn.ld "ann" "guess").2 = l.
Proof.
  destruct (login_failure_is_uniform Inn.svc0 Inn.ld "ann" "guess" (db Inn.svc0) (db Inn.svc1))
    as (e & l & _ & H1 & H2).
  - by exists None.
  - exists (Some Inn.ann). split; [by vm_compute|]. right. by vm_compute.
  - exists e, l. rewrite H1, H2. exact (conj eq_refl (conj eq_refl eq_refl)).
Defined.

(** Ann changes her password under her id as printed. *)
Lemma change_password_spec_witness :
  ∃ hash, user_table (db Inn.svc2) !! 7%N = Some (with_password Inn.ann hash 0).
Proof.
  destruct (change_password_spec Inn.svc1 [] 2000 0 (Strokes.show 7) Inn.password "N3wpassword" Inn.svc2
    Inn.svc1_wf Inn.changed) as (uid & user & hash & Hid & Hrow & _ & _ & _ & Htable & _).
  exists hash. rewrite Htable. assert (Heq : uid = 7%N) by (vm_compute in Hid; congruence). subst uid.
  rewrite Inn.ann_row in Hrow. injection Hrow as <-. apply lookup_insert_eq.
Defined.

(** The same change under the id after a brace: the token of her login is
    still accepted. *)
Lemma alias_id_revokes_nothing_witness :
  verify_token Inn.svc2_alias (token Inn.logged_in) 3000 = Ok Inn.ann_claims.
Proof.
  refine (proj2 (proj1 (alias_id_revokes_nothing Inn.svc1 [] 2000 0 Inn.alias Inn.password "N3wpassword" 7
    (token Inn.logged_in) Inn.ann_claims 3000 Inn.svc1_wf _ Inn.logged_in_verifies _) Inn.svc2_alias
    Inn.changed_alias)).
  - reflexivity.
  - unfold token_keys. cbn. set_solver.
Defined.

Lemma delete_user_spec_witness :
  user_table (db (delete_user Inn.svc1 2000 (Strokes.show 7)).2) = ∅ ∧
  (check_permission (delete_user Inn.svc1 2000 (Strokes.show 7)).2 Inn.clock "|||||||"
     (Agent Agent.Write)).1 =
  (check_permission Inn.svc1 Inn.clock "|||||||" (Agent Agent.Write)).1.
Proof.
  destruct (delete_user_spec Inn.svc1 2000 (Strokes.show 7) 7 true _ Inn.ann Inn.ld Inn.password
    Inn.svc1_wf Inn.parse_seven Inn.ann_row Inn.deleted) as (_ & Htable & _ & _ & _ & Hcheck).
  split; [|apply Hcheck]. rewrite Htable, Inn.svc1_db. by vm_compute.
Defined.

Lemma registered_account_logs_in_witness : ∃ lr svc2 c,
  login Inn.svc1 Inn.ld " ann" Inn.password = (Ok lr, svc2) ∧
  verify_token svc2 (token lr) 5000 = Ok c ∧ sub_username c = "ann" ∧ claims_roles c = ["admin"].
Proof.
  destruct (registered_account_logs_in Inn.hash_law Inn.encode_law ToyJwt.toy_roundtrip Inn.svc0 Inn.svc1
    ToyJwt.secret Inn.d1 Inn.ld " ann" Inn.password None (to_public Inn.ann) 5000)
    as (lr & svc2 & c & Hl & Hv & Hu & _ & Hr & _);
    [exact Inn.svc0_wf|repeat split|reflexivity..|exact Inn.registered|vm_compute; discriminate|].
  exists lr, svc2, c. split; [exact Hl|]. split; [exact Hv|]. split; [exact Hu|exact Hr].
Defined.

Definition desk : InMemorySessionManager InMemoryConstraintStore (InMemoryAssignmentStore KirinoPermission)
    StringSubject unit := InMemorySessionManager_new (assignment_store (engine Inn.svc1)).
Definition sd : SessionDraws := {| fresh_session := 5; created_now := 0; expiry_now := 0 |}.
#[local] Instance desk_sessions : SessionManager (InMemorySessionManager InMemoryConstraintStore
    (InMemoryAssignmentStore KirinoPermission) StringSubject unit) unit :=
  memory_session_manager (P := KirinoPermission) (λ _, "{..}").

Lemma session_login_then_logout_witness : ∃ lr session svc2 mgr,
  login_with_session Inn.svc1 Inn.ld sd "ann" Inn.password desk 60 = (Ok (lr, session), svc2, mgr) ∧
  verify_token (logout svc2 1500 5 mgr).1.2 (token lr) 2000 = Err revoked.
Proof.
  destruct (login_with_session Inn.svc1 Inn.ld sd "ann" Inn.password desk 60) as [[r svc2] mgr] eqn:Hl.
  assert (Hok : is_ok (login_with_session Inn.svc1 Inn.ld sd "ann" Inn.password desk 60).1.1 = true)
    by by vm_compute.
  rewrite Hl in Hok. destruct r as [[lr session]|]; [|discriminate Hok].
  exists lr, session, svc2, mgr. split; [exact eq_refl|].
  destruct (session_login_then_logout (λ _, "{..}") ToyJwt.toy_roundtrip Inn.svc1 svc2 ToyJwt.secret desk mgr
    Inn.ld sd "ann" Inn.password 60 lr session 1500 2000) as (_ & _ & _ & _ & H).
  - reflexivity.
  - reflexivity.
  - exact Hl.
  - vm_compute. discriminate.
  - vm_compute. discriminate.
  - exact (proj2 (proj2 H)).
Defined.
End FlowWitnesses.
