(* ===== verification/Gate.v ===== *)
(** * The combined check: [check_static_and_dynamic] of src/src/service/login/mod.rs

    With the feature rbac-dynamic the service may carry an arbiter.  The
    combined check asks the decision engine of [Engine] about the user and
    the permission and, only when it permits, the arbiter of [Arbiter] about
    the action request.  [DynamicService] is the service of [AuthService]
    with that field; the other handlers do not touch it.

    [gate_step] is the composed system: combined checks, checks, writes and
    invalidations of the engine ([EngineSystem.engine_step]), operations on
    the arbiter through the handle of [arbiter()] ([Arbiter.arb_step]), the
    phases of registrations in flight ([AuthService.register_step]), the last
    of which assigns a role in the store of the engine without invalidating
    its cache, and every other handler of the service, which leaves the
    engine alone.  Three things are asked of the steps: a check reads the
    assignments of its subject without error, a write succeeds or changes
    nothing, and the id of a new account is fresh - no decision on it is
    cached.  [cached_denial_outlives_registration] shows what the last one
    excludes. *)

From S2P Require Import Prelude Traits Catalog Store Cache Engine EngineSystem.
From S2P Require Import RateLimit Jwt UserDatabase AuthService AuthFlows.
From S2P Require Domain Trust Anomaly Policy AuditLog Arbiter ArbiterFlights.

Section Gate.
Context `{LoginLibs, JwtLibs} {DB Reg PReg St C P B : Type}.
Context `{!UserDatabase DB, !RevocationBackend B, Permission P}.
Context `{!RoleRegistry Reg P, !PermissionRegistry PReg P}.
Context `{!AssignmentStore St StringSubject P, !PermissionCache C StringSubject P}.
Context {TS Sk V : Type} `{!Trust.TrustScoreStore TS, !AuditLog.AuditSink Sk, !Anomaly.HashOrder}.
Context (min_date : Z) (engine_sink : Sk → option Sk) (display : Float64.f64 → string).
Abbreviation service := (AuthService DB Reg PReg St C B).
Abbreviation Arb := (Arbiter.AuthorizationArbiter TS Sk).
#[local] Abbreviation authorize := (Arbiter.authorize (V := V) min_date engine_sink).
#[local] Abbreviation arb_op := (Arbiter.arb_op (V := V)).
#[local] Abbreviation arb_step := (Arbiter.arb_step (V := V) min_date engine_sink display).

Record DynamicService := { base : service; arbiter : option Arb }.
Implicit Types (s : DynamicService) (r : Domain.ActionRequest V) (p : P).

(** [AuthService::new] leaves the field empty. *)
Definition without_arbiter (svc : service) : DynamicService := {| base := svc; arbiter := None |}.
Definition with_arbiter s (a : Arb) : DynamicService := {| base := base s; arbiter := Some a |}.
Definition on_base s (svc : service) : DynamicService := {| base := svc; arbiter := arbiter s |}.

(** [None] is the panic of a rule engine while the verdict is audited. *)
Definition check_static_and_dynamic s (clk : CheckClock) (user_id : string) p r (now : Z)
    : option bool * DynamicService :=
  let subject := StringSubject_new user_id in
  let '(granted, e) := check (engine (base s)) clk subject p in
  let s := on_base s (with_engine (base s) e) in
  if negb granted then (Some false, s)
  else
    match arbiter s with
    | Some a => let '(verdict, a) := authorize a r now in (Policy.allowed <$> verdict, with_arbiter s a)
    | None => (Some true, s)
    end.

(** ** The composed system *)

(** No decision on the subject is cached any more. *)
Definition unasked s (id : string) (now : Z) : Prop :=
  ∀ (x : StringSubject) p, subject_id x = id → cache_get (cache (engine (base s))) now x p = None.

(** The phase of a registration that assigns the role, as the others may run
    at any time. *)
Definition register_clean s (ph : reg_phase) (now : Z) : Prop :=
  match ph with
  | RCreated user is_first =>
      let subject := StringSubject_new (uuid_to_string (u_id user)) in
      let r := assign_role P (assignment_store (engine (base s))) subject (role_for (base s) is_first) in
      unasked s (subject_id subject) now ∧ (r.1 = Ok tt ∨ r.2 = assignment_store (engine (base s)))
  | _ => True
  end.

(** [ops] says which operations the arbiter is given. *)
Inductive gate_step (ops : arb_op → bool) : DynamicService * Z → DynamicService * Z → Prop :=
  | gate_check s now now' clk uid p r t :
      (now ≤ now_get clk)%Z → (now_get clk ≤ now')%Z →
      reads_ok (P := P) (assignment_store (engine (base s))) (StringSubject_new uid) →
      gate_step ops (s, now) ((check_static_and_dynamic s clk uid p r t).2, now')
  | gate_engine s now now' e :
      engine_step (S := StringSubject) (P := P) check (engine (base s), now) (e, now') →
      gate_step ops (s, now) (on_base s (with_engine (base s) e), now')
  | gate_arbiter s now a op :
      arbiter s = Some a → ops op = true → gate_step ops (s, now) (with_arbiter s (arb_step a op), now)
  | gate_register s now now' ph :
      (now ≤ now')%Z → register_clean s ph now →
      gate_step ops (s, now) (on_base s (register_step ph (base s)).2, now')
  | gate_service s now svc :
      engine svc = engine (base s) → gate_step ops (s, now) (on_base s svc, now).

(** The parts after a combined check. *)
Lemma gate_parts s clk uid p r now :
  let res := check_static_and_dynamic s clk uid p r now in
  let static := check (engine (base s)) clk (StringSubject_new uid) p in
  engine (base res.2) = static.2 ∧
  if static.1 then
    match arbiter s with
    | Some a => res.1 = Policy.allowed <$> (authorize a r now).1 ∧ arbiter res.2 = Some (authorize a r now).2
    | None => res.1 = Some true ∧ arbiter res.2 = None
    end
  else res.1 = Some false ∧ arbiter res.2 = arbiter s.
Proof.
  unfold check_static_and_dynamic. destruct (check _ clk _ p) as [[] e]; [|done].
  destruct s as [svc [a|]]; cbn; [|done]. by destruct (authorize a r now).
Qed.

(** A phase leaves the engine alone, but for the assignment of the role. *)
Lemma register_step_engine ph (svc : service) :
  match ph with
  | RCreated user is_first =>
      engine (register_step ph svc).2 = with_store (engine svc)
        (assign_role P (assignment_store (engine svc)) (StringSubject_new (uuid_to_string (u_id user)))
           (role_for svc is_first)).2
  | _ => engine (register_step ph svc).2 = engine svc
  end.
Proof.
  destruct ph as [d u pw disp|user|user won|user f|user f|f r]; cbn; try done.
  - by destruct (prepare_user _ _ _ _ _).
  - unfold claim_latch. by destruct (auto_admin_first_user svc).
  - by destruct (count_if won svc).
  - unfold create_record. by destruct (create_user _ _) as [[[]|e] db'].
Qed.

(** The delegator stays in the lockdown set unless it is restored. *)
Definition locked (id : string) s : Prop :=
  match arbiter s with Some a => id ∈ Arbiter.frozen a | None => False end.
Definition no_restore (id : string) (op : arb_op) : bool := negb (Arbiter.restores id op).

Lemma gate_step_locked id x y : gate_step (no_restore id) x y → (locked id x.1) → (locked id y.1).
Proof.
  unfold locked. destruct 1 as [s now now' clk uid p r t|s now now' e|s now a op Ha Hop|s now now' ph|s now svc]; cbn; try done.
  - destruct (gate_parts s clk uid p r t) as [_ Hparts]. cbv zeta in Hparts.
    destruct (check _ clk _ p) as [[] e]; cbn in Hparts; [|by destruct Hparts as [_ ->]].
    destruct (arbiter s) as [a|]; [|done]. destruct Hparts as [_ ->]. by rewrite Arbiter.authorize_frozen.
  - rewrite Ha. apply Arbiter.step_frozen. by apply negb_true_iff.
Qed.

(** ** Properties *)

Context `{!AssignmentStoreLaws St StringSubject P, !PermissionCacheLaws C StringSubject P, !UniqueNames P}.

(** Every step keeps the cache in accord with the store. *)
Abbreviation accord s now := (coherent (S := StringSubject) (P := P) flat_expand (engine (base s)) now).

Lemma assign_coherent (e : RbacEngine Reg PReg St C) (x : StringSubject) role now :
  coherent (S := StringSubject) (P := P) flat_expand e now →
  (∀ (y : StringSubject) p, subject_id y = subject_id x → cache_get (cache e) now y p = None) →
  let r := assign_role P (assignment_store e) x role in
  r.1 = Ok tt ∨ r.2 = assignment_store e →
  coherent (S := StringSubject) (P := P) flat_expand (with_store e r.2) now.
Proof.
  intros Hco Hfresh r Hw y p b Hget. change (cache_get (cache e) now y p = Some b) in Hget.
  destruct Hw as [Hok| ->]; [|by apply Hco].
  destruct (decide (subject_id y = subject_id x)) as [Heq|Hne]; [by rewrite (Hfresh y p Heq) in Hget|].
  rewrite (Hco y p b Hget). unfold decides. cbn [assignment_store with_store role_registry].
  assert (Hr : r = (Ok tt, r.2)) by (rewrite <- Hok; apply surjective_pairing).
  rewrite (assign_role_view _ _ _ _ Hr). unfold set_at. by rewrite decide_False.
Qed.

Lemma gate_step_accord ops x y : gate_step ops x y → accord x.1 x.2 → accord y.1 y.2.
Proof.
  destruct 1 as [s now now' clk uid p r t Hget Hle Hok|s now now' e Hstep|s now a op Ha Hop
    |s now now' ph Hle Hclean|s now svc Heng]; cbn [fst snd]; intros Hco.
  - destruct (gate_parts s clk uid p r t) as [-> _].
    eapply (engine_step_coherent check flat_expand check_flat); [|exact Hco].
    by eapply step_check; [..|apply surjective_pairing].
  - by eapply (engine_step_coherent check flat_expand check_flat).
  - done.
  - apply (coherent_later _ _ _ _ Hle). cbn [base on_base]. pose proof (register_step_engine ph (base s)) as Hph.
    destruct ph; rewrite Hph; try done. destruct Hclean as [Hfresh Hw]. by apply assign_coherent.
  - cbn [base on_base]. by rewrite Heng.
Qed.

(** A whole registration is a run of the system: its effect on the engine is
    that of the assigning phase, or none. *)
Lemma register_engine (svc : service) d username password disp :
  let svc' := (register svc d username password disp).2 in
  engine svc' = engine svc ∨
  ∃ is_first, engine svc' =
    engine (register_step (RCreated (new_user d (trim username) "" disp) is_first) svc).2.
Proof.
  unfold register. destruct (validate_username username) as [nm|e]; [|by left].
  destruct (check_password_policy password) as [[]|e]; [|by left].
  set (svc1 := with_register_limiter svc _). destruct (_.1) as [[]|e]; [|by left].
  unfold register_impl. destruct (prepare_user svc1 d nm password disp) as [user|e] eqn:Hprep; [|by left].
  apply prepare_user_ok in Hprep as (_ & hash & _ & ->).
  assert (Hclaim : engine (claim_latch svc1).2 = engine svc ∧
    first_user_role (claim_latch svc1).2 = first_user_role svc ∧ default_role (claim_latch svc1).2 = default_role svc).
  { unfold claim_latch. by destruct (auto_admin_first_user svc1). }
  destruct (claim_latch svc1) as [won svc2]. cbn [snd] in Hclaim. destruct Hclaim as (He & Hf & Hd).
  destruct (count_if won svc2) as [f|e]; [|by left]. unfold create_record.
  destruct (create_user _ _) as [[[]|e] db']; [|by left]. unfold assign_initial_role, role_for.
  cbn [fst snd engine with_db first_user_role default_role]. rewrite He, Hf, Hd. cbn [u_id new_user]. right. exists f.
  cbn [register_step snd engine with_engine]. unfold assign_initial_role, role_for. cbn [snd engine with_engine u_id new_user].
  by destruct (assign_role _ _ _ _) as [[[]|e] st'].
Qed.

Lemma register_reached ops s now d username password disp :
  (∀ is_first, register_clean s (RCreated (new_user d (trim username) "" disp) is_first) now) →
  rtc (gate_step ops) (s, now) (on_base s (register (base s) d username password disp).2, now).
Proof.
  intros Hclean. destruct (register_engine (base s) d username password disp) as [He|[f He]].
  - by apply rtc_once, gate_service.
  - eapply rtc_l; [apply (gate_register _ s now now _ ltac:(lia) (Hclean f))|].
    apply rtc_once. change (on_base s (register (base s) d username password disp).2) with
      (on_base (on_base s (register_step (RCreated (new_user d (trim username) "" disp) f) (base s)).2)
         (register (base s) d username password disp).2). by apply gate_service.
Qed.

(** C4: A combined check grants exactly what both layers grant.  Let the
    composed system run from a cold cache by checks, combined checks, writes
    followed by their invalidation, operations on the arbiter, registrations
    in flight and any handlers that leave the engine alone, where every check
    could read the assignments of its subject and every new account had an
    id no cached decision was about.  A combined check that can read the
    user's assignments then answers true exactly when the permission is not
    denied to the user and is granted directly or by an assigned role, on the
    present stores, and the arbiter, if there is one, allows the request.  A
    user the static layer refuses is answered false without the arbiter being
    asked: no observation, no audit entry; otherwise the request is
    authorized once. *)
Theorem combined_check_grants_iff s0 now0 s now clk uid p r t :
  cold (S := StringSubject) (P := P) (cache (engine (base s0))) →
  rtc (gate_step (λ _, true)) (s0, now0) (s, now) → (now ≤ now_get clk)%Z →
  reads_ok (P := P) (assignment_store (engine (base s))) (StringSubject_new uid) →
  let g := store_view (assignment_store (engine (base s))) (subject_id (StringSubject_new uid)) in
  let permitted := (p ∉ g_denied g) ∧
    (p ∈ g_extra g ∨ ∃ role, role ∈ g_roles g ∧ p ∈ flat_expand (role_registry (engine (base s))) role) in
  let res := check_static_and_dynamic s clk uid p r t in
  (res.1 = Some true ↔ permitted ∧
     ∀ a, arbiter s = Some a → ∃ v, (authorize a r t).1 = Some v ∧ Policy.allowed v = true) ∧
  (¬ permitted → res.1 = Some false ∧ arbiter res.2 = arbiter s) ∧
  (permitted → arbiter res.2 = (λ a, (authorize a r t).2) <$> arbiter s).
Proof.
  intros Hcold Hrun Hle Hok g permitted res.
  assert (Hstatic : (check (engine (base s)) clk (StringSubject_new uid) p).1 = true ↔ permitted).
  { assert (Hco : accord s now).
    { apply (rtc_invariant (gate_step _) (λ x, accord x.1 x.2) _ _ (gate_step_accord _) Hrun). by apply cold_coherent. }
    rewrite (engine_reach_handler check flat_expand check_flat _ _ _ _ clk _ p Hco (rtc_refl _ _) Hle Hok).
    apply decision_true. }
  destruct (gate_parts s clk uid p r t) as [_ Hparts]. cbv zeta in Hparts. fold res in Hparts. clearbody permitted.
  destruct (check _ clk _ p) as [[] e]; cbn in Hparts, Hstatic.
  - assert (Hp : permitted) by (by apply Hstatic).
    assert (Hno : ∀ Q : Prop, ¬ permitted → Q) by (intros Q Hn; destruct (Hn Hp)).
    destruct (arbiter s) as [a|]; destruct Hparts as [-> ->].
    + split; [|split; [apply Hno|done]]. destruct (authorize a r t) as [[v|] a'] eqn:Ha; cbn; split.
      * intros [= Hv]. split; [done|]. intros ? [= <-]. exists v. by rewrite Ha.
      * intros [_ Hall]. destruct (Hall a eq_refl) as (v' & Hv & ?). rewrite Ha in Hv.
        cbn in Hv. injection Hv as ->. congruence.
      * done.
      * intros [_ Hall]. destruct (Hall a eq_refl) as (v' & Hv & ?). by rewrite Ha in Hv.
    + split; [|split; [apply Hno|done]]. split; [|done]. by split.
  - assert (Hp : ¬ permitted) by (by rewrite <- Hstatic). destruct Hparts as [-> ->].
    split; [|split; [done|by intros ?%Hp]]. split; [done|]. by intros [?%Hp _].
Qed.

(** Registration does not invalidate.  An id that was asked about before its
    account existed has its denial cached, and no phase of a registration
    forgets it: as long as the entry lives, the permission is refused to the
    new account, whatever role it has been given. *)
Theorem cached_denial_outlives_registration s ph clk uid p r t :
  cache_get (cache (engine (base s))) (now_get clk) (StringSubject_new uid) p = Some false →
  (check_static_and_dynamic (on_base s (register_step ph (base s)).2) clk uid p r t).1 = Some false.
Proof.
  intros Hget. set (s' := on_base s _).
  assert (Hc : cache (engine (base s')) = cache (engine (base s))).
  { unfold s'. cbn [base on_base]. pose proof (register_step_engine ph (base s)) as He. by destruct ph; rewrite He. }
  unfold check_static_and_dynamic, check, check_cached_deny_extra. by rewrite Hc, Hget.
Qed.

(** A delegator under lockdown passes no combined check, whatever the user
    is granted and whatever the service does in between short of a restore. *)
Theorem combined_check_respects_lockdown s0 now0 s now a id t0 clk uid p r t :
  arbiter s0 = Some (Arbiter.lockdown a id t0) → rtc (gate_step (no_restore id)) (s0, now0) (s, now) →
  Domain.delegator_id (Domain.delegator r) = id →
  (check_static_and_dynamic s clk uid p r t).1 ≠ Some true.
Proof.
  intros Ha Hrun <-.
  assert (Hlocked : locked (Domain.delegator_id (Domain.delegator r)) s).
  { apply (rtc_invariant (gate_step (no_restore _)) (λ x, locked _ x.1) _ _ (gate_step_locked _) Hrun).
    unfold locked. cbn. rewrite Ha. cbn. set_solver. }
  destruct (gate_parts s clk uid p r t) as [_ Hparts]. cbv zeta in Hparts. unfold locked in Hlocked.
  destruct (check _ clk _ p) as [[] e]; cbn in Hparts; [|by destruct Hparts as [-> _]].
  destruct (arbiter s) as [b|]; [|done]. destruct Hparts as [-> _].
  destruct (authorize b r t).1 as [v|] eqn:Hv; [|done]. apply Arbiter.authorize_verdict in Hv as ->.
  by rewrite bool_decide_true by done.
Qed.

(** The two layers are asked about unrelated parties: the user names the
    subject, the request names the delegator.  Whoever is permitted
    statically gets the verdict on the delegator the request names. *)
Theorem combined_check_trusts_named_delegator s clk uid p r t a :
  arbiter s = Some a → (check (engine (base s)) clk (StringSubject_new uid) p).1 = true →
  (check_static_and_dynamic s clk uid p r t).1 = Policy.allowed <$> (authorize a r t).1.
Proof.
  intros Ha Hstatic. destruct (gate_parts s clk uid p r t) as [_ Hparts]. cbv zeta in Hparts.
  rewrite Hstatic, Ha in Hparts. by destruct Hparts.
Qed.
End Gate.

(** ** Witness

    bob is an editor and his agent is trusted: both layers permit, also after
    ann has registered. *)
Module Guarded.
#[local] Existing Instances Inn.libs ToyJwt.libs ArbiterFlights.Races.entry_order AuditLog.mem_audit_sink Trust.memory_trust_store.

Abbreviation service := (DynamicService (DB := InMemoryUserDatabase)
  (Reg := StaticRoleRegistry (SimpleRole KirinoPermission)) (PReg := StaticPermissionRegistry KirinoPermission)
  (St := InMemoryAssignmentStore KirinoPermission) (C := TtlPermissionCache) (B := MemoryRevocationBackend)
  (TS := Trust.InMemoryTrustScoreStore) (Sk := AuditLog.InMemoryAuditSink)).

Definition start : service :=
  with_arbiter (without_arbiter (with_engine Inn.svc0 Demo.engine0)) ArbiterFlights.Races.with_bot.
Definition bob : StringSubject := StringSubject_new "bob".
Definition edits : service := on_base start
  (with_engine (base start) (invalidate_subject_cache (S := StringSubject) (P := KirinoPermission)
    (Engine.with_store (engine (base start))
       (assign_role KirinoPermission (assignment_store (engine (base start))) bob "editor").2) bob)).
Definition joined : service := on_base edits (register (base edits) Inn.d1 "ann" Inn.password None).2.
Definition check_at (s : service) (p : KirinoPermission) :=
  check_static_and_dynamic 0 Some s (Demo.at_time 5) "bob" p ArbiterFlights.Races.egress 3.

Lemma edits_reached display :
  rtc (gate_step (V := unit) (P := KirinoPermission) 0 Some display (λ _, true)) (start, 0%Z) (edits, 1%Z).
Proof.
  apply rtc_once, gate_engine.
  apply (step_write (S := StringSubject) (P := KirinoPermission) check _ 0 1 (AssignRole bob "editor")); [lia|done].
Qed.

Lemma nothing_cached now (x : StringSubject) (p : KirinoPermission) :
  cache_get (cache (engine (base edits))) now x p = None.
Proof.
  change (get_at (cache (engine (base edits))) now (key_of x p) = None). unfold get_at.
  assert (He : Cache.entries (cache (engine (base edits))) = ∅) by reflexivity. by rewrite He, lookup_empty.
Qed.

Lemma joined_reached display :
  rtc (gate_step (V := unit) (P := KirinoPermission) 0 Some display (λ _, true)) (start, 0%Z) (joined, 1%Z).
Proof.
  etrans; [apply edits_reached|]. apply register_reached. intros f. split; [|by left].
  intros x p _. apply nothing_cached.
Qed.
End Guarded.

#[local] Existing Instances Inn.libs ToyJwt.libs ArbiterFlights.Races.entry_order AuditLog.mem_audit_sink Trust.memory_trust_store.
Lemma combined_check_grants_iff_witness :
  (Guarded.check_at Guarded.joined Demo.write).1 = Some true ∧
  (Guarded.check_at Guarded.start Demo.write).1 = Some false.
Proof.
  assert (Hcold : cold (S := StringSubject) (P := KirinoPermission) (cache (engine (base Guarded.start)))) by apply ttl_cold.
  split.
  - refine (proj2 (proj1 (combined_check_grants_iff (P := KirinoPermission) 0 Some (λ _, "") Guarded.start 0
      Guarded.joined 1 (Demo.at_time 5) "bob" Demo.write ArbiterFlights.Races.egress 3 Hcold
      (Guarded.joined_reached _) _ _)) _); [simpl; lia|by repeat eexists|].
    split; [split; [apply (bool_decide_unpack _); by vm_compute|]|].
    + right. exists "editor". split; apply (bool_decide_unpack _); by vm_compute.
    + intros a [= <-]. eexists. split; by vm_compute.
  - refine (proj1 (proj1 (proj2 (combined_check_grants_iff (P := KirinoPermission) 0 Some (λ _, "") Guarded.start 0
      Guarded.start 0 (Demo.at_time 5) "bob" Demo.write ArbiterFlights.Races.egress 3 Hcold
      (rtc_refl _ _) _ _)) _)); [simpl; lia|by repeat eexists|].
    intros [_ [Hex|(role & Hrole & _)]]; [|]; [by vm_compute in Hex|by vm_compute in Hrole].
Defined.

(** ann's id is asked about before she registers: the denial is cached, and
    her registration does not change the answer. *)
Lemma cached_denial_outlives_registration_witness :
  let ask s := check_static_and_dynamic 0 Some s (Demo.at_time 5) "|||||||" Demo.write ArbiterFlights.Races.egress 3 in
  let asked := (ask Guarded.edits).2 in
  (ask (on_base asked (register_step (RCreated Inn.ann true) (base asked)).2)).1 = Some false.
Proof.
  intros ask asked.
  apply (cached_denial_outlives_registration (P := KirinoPermission) 0 Some asked (RCreated Inn.ann true)). by vm_compute.
Defined.
