(* ===== verification/Redaction.v ===== *)
(** * What is printed of a secret

    The hand-written [Debug] implementations - [UserRecord]
    (src/src/service/login/mod.rs), [IdentityRecord]
    (src/src/auth/identity/basic.rs), [OneTimeCredential]
    (src/src/auth/credential/one_time.rs), [BootstrapCredential]
    (src/src/rbac/policy.rs), [VisitorTicketConfig] (src/src/auth/visitor.rs),
    [CaptchaVerifier] (src/src/auth/passport/captcha.rs) and the arbiter
    (src/src/rbac/dynamic/arbiter.rs) - as the texts they write, over the
    struct builder of [std::fmt] in its two modes, [{:?}] and [{:#?}].

    A value is rendered in one of the modes.  How strings are escaped, and
    uuids, dates, durations and the derived [Debug] of an identity are
    printed, is a parameter. *)

From stdpp Require Import pretty.
From S2P Require Import Prelude Traits Identity.
From S2P Require UserDatabase IdentityStore Challenges Password Visitor Arbiter.

(** ** [std::fmt]: [debug_struct] *)

(** [true] is the alternate mode. *)
Definition rendering : Type := bool → string.

Definition newline : Ascii.ascii := Ascii.ascii_of_N 10.
Definition line_break : string := String.String newline "".

(** [PadAdapter]: four spaces at the start of every line. *)
Fixpoint pad (on_newline : bool) (s : string) : string :=
  match s with
  | String.EmptyString => ""
  | String.String c rest =>
      (if on_newline then "    " else "") +:+ String.String c (pad (bool_decide (c = newline)) rest)
  end.

Fixpoint join_with (sep : string) (l : list string) : string :=
  match l with
  | [] => ""
  | [x] => x
  | x :: l => x +:+ sep +:+ join_with sep l
  end.

Definition field_text (alternate : bool) (f : string * rendering) : string := f.1 +:+ ": " +:+ f.2 alternate.
Definition padded_fields (fields : list (string * rendering)) : string :=
  String.concat "" ((λ f, pad true (field_text true f +:+ "," +:+ line_break)) <$> fields).

(** [finish] and [finish_non_exhaustive] of a struct with fields *)
Definition debug_struct (name : string) (fields : list (string * rendering)) : rendering := λ alternate,
  if alternate then name +:+ " {" +:+ line_break +:+ padded_fields fields +:+ "}"
  else name +:+ " { " +:+ join_with ", " (field_text false <$> fields) +:+ " }".
Definition debug_struct_non_exhaustive (name : string) (fields : list (string * rendering)) : rendering := λ alternate,
  if alternate then name +:+ " {" +:+ line_break +:+ padded_fields fields +:+ pad true ".." +:+ line_break +:+ "}"
  else name +:+ " { " +:+ join_with ", " (field_text false <$> fields) +:+ ", .. }".

Class FmtLibs := {
  str_debug : string → string;
  codes_debug : list N → string;
  codes_display : list N → string;
  uuid_debug : Uuid → string;
  date_debug : Z → string;
  duration_debug : Z → string;
  identity_debug : Identity → rendering;
}.

Lemma list_ascii_app s t :
  String.list_ascii_of_string (s +:+ t) = (String.list_ascii_of_string s ++ String.list_ascii_of_string t)%list.
Proof. induction s as [|c s IH]; [done|]. change (c :: String.list_ascii_of_string (s +:+ t) = c :: (String.list_ascii_of_string s ++ String.list_ascii_of_string t))%list. by rewrite IH. Qed.

Lemma append_inj_tail s s' t : s +:+ t = s' +:+ t → s = s'.
Proof.
  intros Heq%(f_equal String.list_ascii_of_string). rewrite !list_ascii_app in Heq. apply app_inv_tail in Heq.
  by rewrite <- (String.string_of_list_ascii_of_string s), <- (String.string_of_list_ascii_of_string s'), Heq.
Qed.

Section Debug.
Context `{FmtLibs}.

Definition plain (s : string) : rendering := λ _, s.
Definition bool_debug (b : bool) : rendering := plain (if b then "true" else "false").
Definition nat_debug (n : nat) : rendering := plain (pretty n).
(** [Debug] of an [Option], derived *)
Definition option_debug (o : option string) : rendering := λ alternate,
  match o with
  | None => "None"
  | Some s =>
      if alternate then "Some(" +:+ line_break +:+ pad true (str_debug s +:+ "," +:+ line_break) +:+ ")"
      else "Some(" +:+ str_debug s +:+ ")"
  end.
Definition redacted : rendering := plain (str_debug "[redacted]").

(** ** The implementations *)

Definition UserRecord_debug (u : UserDatabase.UserRecord) : rendering :=
  debug_struct "UserRecord" [
    ("id", plain (uuid_debug (UserDatabase.u_id u)));
    ("username", plain (str_debug (UserDatabase.u_username u)));
    ("password_hash", redacted);
    ("display_name", option_debug (UserDatabase.u_display_name u));
    ("is_active", bool_debug (UserDatabase.u_is_active u));
    ("identity", identity_debug (UserDatabase.u_identity u));
    ("created_at", plain (date_debug (UserDatabase.u_created_at u)));
    ("updated_at", plain (date_debug (UserDatabase.u_updated_at u)))].

Definition IdentityRecord_debug (r : IdentityStore.IdentityRecord) : rendering :=
  debug_struct "IdentityRecord" [
    ("identity", identity_debug (IdentityStore.r_identity r));
    ("username", plain (str_debug (IdentityStore.r_username r)));
    ("password_hash", redacted);
    ("is_active", bool_debug (IdentityStore.r_is_active r));
    ("created_at", plain (date_debug (IdentityStore.r_created_at r)));
    ("updated_at", plain (date_debug (IdentityStore.r_updated_at r)))].

Definition OneTimeCredential_debug (c : Challenges.OneTimeCredential) : rendering :=
  debug_struct "OneTimeCredential" [
    ("token", redacted);
    ("used", bool_debug (Challenges.used c))].

(** derived *)
Definition PasswordState_debug (s : Password.PasswordState) : rendering :=
  debug_struct "PasswordState" [
    ("is_initial", bool_debug (Password.is_initial s));
    ("changed_at", plain (date_debug (Password.changed_at s)))].

Definition BootstrapCredential_debug (c : Password.BootstrapCredential) : rendering :=
  debug_struct "BootstrapCredential" [
    ("username", plain (str_debug (Password.username c)));
    ("password", redacted);
    ("state", PasswordState_debug (Password.bootstrap_state c))].

Definition VisitorTicketConfig_debug (c : Visitor.VisitorTicketConfig) : rendering :=
  debug_struct "VisitorTicketConfig" [
    ("secret", redacted);
    ("access_ttl", plain (duration_debug (Visitor.access_ttl c)));
    ("inactivity_window", plain (duration_debug (Visitor.inactivity_window c)));
    ("tier", plain (str_debug (Visitor.config_tier c)))].

Definition CaptchaVerifier_debug (v : Challenges.CaptchaVerifier) : rendering :=
  debug_struct_non_exhaustive "CaptchaVerifier" [
    ("ttl", plain (duration_debug (Challenges.captcha_ttl v)));
    ("max_attempts", nat_debug (Challenges.max_attempts v));
    ("has_cleanup_task", bool_debug (Challenges.has_cleanup_task v))].

(** [held] says for each of the three locks whether a writer holds it: the
    printer does not wait. *)
Definition AuthorizationArbiter_debug {TS Sk} (held : bool * bool * bool)
    (a : Arbiter.AuthorizationArbiter TS Sk) : rendering :=
  let '(detectors_held, scope_held, frozen_held) := held in
  debug_struct_non_exhaustive "AuthorizationArbiter" [
    ("detectors_count", nat_debug (if detectors_held then 0 else size (Arbiter.detectors a)));
    ("has_domain_scope", bool_debug (negb scope_held && bool_decide (is_Some (Arbiter.domain_scope a))));
    ("frozen_count", nat_debug (if frozen_held then 0 else size (Arbiter.frozen a)));
    ("has_audit", bool_debug (bool_decide (is_Some (Arbiter.audit a))))].

(** [log_line]: the one text that carries the temporary password. *)
Definition log_line (c : Password.BootstrapCredential) : string :=
  "temporary password for '" +:+ Password.username c +:+ "': " +:+ codes_display (Password.password c) +:+
  " — change it on first login".

(** ** Property *)

(** No interference.  Two values that differ in the secret only - the
    password hash, the one-time token, the temporary password, the signing
    secret, the open challenges - print the same text in either mode; the
    operator line of a bootstrap credential, in contrast, tells any two
    passwords apart. *)
Theorem debug_hides_secrets :
  (∀ u v, UserDatabase.to_public u = UserDatabase.to_public v → UserRecord_debug u = UserRecord_debug v) ∧
  (∀ i n h h' b c t, IdentityRecord_debug (IdentityStore.Build_IdentityRecord i n h b c t) =
     IdentityRecord_debug (IdentityStore.Build_IdentityRecord i n h' b c t)) ∧
  (∀ t t' b, OneTimeCredential_debug (Challenges.Build_OneTimeCredential t b) =
     OneTimeCredential_debug (Challenges.Build_OneTimeCredential t' b)) ∧
  (∀ n p p' s, BootstrapCredential_debug (Password.Build_BootstrapCredential n p s) =
     BootstrapCredential_debug (Password.Build_BootstrapCredential n p' s)) ∧
  (∀ s s' a w t, VisitorTicketConfig_debug (Visitor.Build_VisitorTicketConfig s a w t) =
     VisitorTicketConfig_debug (Visitor.Build_VisitorTicketConfig s' a w t)) ∧
  (∀ c c' t m b, CaptchaVerifier_debug (Challenges.Build_CaptchaVerifier c t m b) =
     CaptchaVerifier_debug (Challenges.Build_CaptchaVerifier c' t m b)) ∧
  (Inj (=) (=) codes_display → ∀ n p p' s,
     log_line (Password.Build_BootstrapCredential n p s) = log_line (Password.Build_BootstrapCredential n p' s) → p = p').
Proof.
  split_and!; try done.
  - intros [] [] Hpublic. injection Hpublic; intros; subst; reflexivity.
  - intros Hinj n p p' s Heq. unfold log_line in Heq. cbn [Password.username Password.password] in Heq.
    apply (inj (String.append _)), (inj (String.append _)), (inj (String.append _)) in Heq.
    by apply append_inj_tail, (inj codes_display) in Heq.
Qed.
End Debug.

(** Both modes, with strings printed as they are. *)
#[local] Instance unescaped : FmtLibs := {|
  str_debug := id; codes_debug := λ _, "?"; codes_display := λ _, "?"; uuid_debug := λ u, pretty u;
  date_debug := pretty; duration_debug := λ d, pretty d +:+ "s"; identity_debug := λ _ _, "?" |}.

Example config_compact :
  VisitorTicketConfig_debug (Visitor.Build_VisitorTicketConfig "hunter2" 60 90 "anon") false =
    "VisitorTicketConfig { secret: [redacted], access_ttl: 60s, inactivity_window: 90s, tier: anon }".
Proof. by vm_compute. Qed.
Example credential_pretty :
  BootstrapCredential_debug (Password.Build_BootstrapCredential "root" [] (Password.Build_PasswordState true 5)) true =
    String.concat line_break ["BootstrapCredential {"; "    username: root,"; "    password: [redacted],";
      "    state: PasswordState {"; "        is_initial: true,"; "        changed_at: 5,"; "    },"; "}"].
Proof. by vm_compute. Qed.
Example captcha_pretty :
  CaptchaVerifier_debug (Challenges.Build_CaptchaVerifier ∅ 300 3 false) true =
    String.concat line_break ["CaptchaVerifier {"; "    ttl: 300s,"; "    max_attempts: 3,";
      "    has_cleanup_task: false,"; "    .."; "}"].
Proof. by vm_compute. Qed.
